(* ===== verification/_CoqProject ===== *)
-Q . S2P
Prelude.v
Ring.v
Frames.v
Messages.v
Wsio.v
Errors.v
Repo.v
Terminal.v
TerminalFacts.v
TerminalSpec.v
TerminalProps.v
SettingsDefs.v
Settings.v
Registry.v
RegistryProps.v
RegistryTerminals.v
Flush.v
StateMonad.v
Conversation.v
PublisherConn.v
PublisherProps.v
PublisherControl.v
PublisherSession.v
Float64.v
MirrorConn.v
MirrorProps.v
Stream.v
Pipeline.v
Json.v
Utf8.v
Crypto.v
CryptoProps.v
FileSystem.v
Net.v
SettingsStore.v
StoreProps.v
Accounts.v
AccountsProps.v
Server.v
AppLogic.v
Auth.v
AuthProps.v
Login.v
Handlers.v
HandlersProps.v
Pages.v
Retries.v
HandlerExamples.v
Maintenance.v
MaintenanceProps.v
Multiplexer.v
MultiplexerProps.v
MultiplexerSession.v
Ipc.v
Daemon.v
DaemonProps.v
DaemonHosting.v
PublisherState.v
PublisherStateProps.v
ApiClient.v
PublisherMain.v
PublisherMainProps.v
Pump.v
PumpProps.v
Listener.v
ListenerProps.v
Operator.v
OperatorProps.v
Bootstrap.v
BootstrapProps.v
Metrics.v
MetricsProps.v
Pty.v
Pool.v
DaemonServe.v
DaemonServeProps.v
LocalPaths.v
Responses.v
Background.v
Dial.v
