(* ===== verification/Prelude.v ===== *)
(** * Hypeterm: a verified model of the terminal relay

    Hypeterm relays shell output. A publisher (a machine that runs the shell,
    [src/publisher]) connects to the server ([src/server]) over a WebSocket and
    streams every byte its terminals write. The server keeps the newest part of
    each terminal's output in a ring, checkpoints it to SQLite, and sends it to
    mirrors (other WebSocket clients, which may also type into the terminal).
    This development models both Rust programs: the path of a byte from the
    shell to a mirror and of a keystroke back, who is allowed to do what, what
    is stored, how the processes start, follow their settings and stop; and it
    proves what each part promises the next.

    ** The parts and how they interact

    A byte of output goes through the model in this order:

    - the hosted shell: the threads of the pseudo-terminal ([Pty]:
      [publisher/src/pty.rs]), the loop that shows, mirrors and types ([Pump]:
      [pump] of [main.rs]) and the stream driver ([Stream]: [stream.rs], [drive]
      of [publish.rs]), which retains, slices and retransmits;
    - the local socket ([Ipc], [LocalPaths]: [ipc.rs]) to the daemon ([Daemon],
      [DaemonServe]: [daemon.rs]), whose relay connection carries the terminals
      of the whole machine ([Multiplexer]: [session.rs]);
    - [Frames] ([server/src/relay/frames.rs], [publisher/src/protocol.rs]), the
      binary layout both crates encode and decode;
    - the publisher connection ([PublisherConn]: [relay/publisher.rs]), which
      checks the frame, waits for room, and appends it;
    - the terminal ([Terminal]: [relay/terminal.rs]), which appends it to its
      ring ([Ring]: [relay/ring.rs]) and fans it out to the subscribers' queues;
    - the checkpoint task ([Flush]: [relay/flush.rs]), which commits it through
      [Repo] ([db/repo.rs], [schema.sql]) and advances the durable offset that
      the connection acknowledges;
    - the mirror connection ([MirrorConn]: [relay/mirror.rs]), which replays
      what a new subscriber missed, forwards what is queued, and sends input the
      other way.

    The registry ([Registry]: [relay/registry.rs]) is what the relay's tasks
    share: resident terminals, the slot of each device's publisher, pending
    requests for terminals, connection permits. In front of it stands the HTTP
    API: a request is routed and let in ([Operator]: [http/mod.rs],
    [http/context.rs]), its principal authenticated ([Auth]: [http/auth.rs],
    over the tables of [Accounts] and the keys and tokens of [Crypto]), and
    handled ([Handlers]: [http/devices.rs], [terminals.rs], [ws.rs]). The
    settings ([Settings], [SettingsStore]) reach every part as a snapshot;
    [Listener], [Bootstrap], [Background] and [Maintenance] are the process
    around it. The publisher's commands and its state file ([PublisherMain],
    [PublisherState], [ApiClient]) call that API.

    ** The files

    Shared:
    - [Prelude]: results, machine words, bytes, texts, big-endian integers, list
      windows ([takeN], [dropN], [sliceN]) with their lemmas, and the tactics
      the other files use. [Json], [Utf8]: JSON values, text as bytes.
      [StateMonad]: state passing. [FileSystem]: files whose every call may
      fail. [Float64]: [f64] arithmetic. [Net]: addresses and their parsers.

    The relay:
    - [Ring], [Frames], [Messages], [Wsio]: the replay buffer; the binary and
      the control messages; the connection's writer and heartbeat.
    - [Terminal], [TerminalFacts], [TerminalSpec], [TerminalProps]: the locked
      state and its methods; what each preserves; the transition system of a
      terminal with all its tasks and its invariant; the theorems.
    - [Repo]; [Registry], [RegistryProps], [RegistryTerminals]; [Flush].
    - [Conversation], [PublisherConn], [PublisherProps], [PublisherControl],
      [PublisherSession]; [MirrorConn], [MirrorProps]: the two kinds of
      connection, with a logic for what a handler writes.

    The server around it:
    - [Errors], [Responses]: [ApiError], rejected requests and the responses
      ([error.rs], [http/extract.rs]).
    - [Crypto], [CryptoProps]: length-prefixed encodings, keys, signing inputs,
      tokens ([util.rs], [crypto.rs]).
    - [Accounts], [AccountsProps]: identities, devices, challenges, tickets,
      signing keys, idempotency records ([db/repo.rs]).
    - [Server], [AppLogic]: what the handlers share, and how to reason about
      them ([app.rs], [http/context.rs], [http/idempotency.rs]).
    - [Auth], [AuthProps], [Login]; [Handlers], [HandlersProps], [Pages],
      [Retries], [HandlerExamples]; [Operator], [OperatorProps].
    - [SettingsDefs], [Settings], [SettingsStore], [StoreProps]: the declared
      settings, their validation and typed reads, and the store.
    - [Maintenance], [MaintenanceProps], [Background],
      [Listener], [ListenerProps], [Bootstrap], [BootstrapProps], [Metrics],
      [MetricsProps], [Pool]: sweeping, timing, following the
      settings, listening, starting, counting, and the database's connections.

    The publisher:
    - [Stream], [Pipeline]: the driver; both ends over a lossy network.
    - [Multiplexer], [MultiplexerProps], [MultiplexerSession], [Dial]: one
      relay connection for many terminals, its life over reconnects, and how it
      is made.
    - [Ipc], [LocalPaths], [Daemon], [DaemonProps], [DaemonHosting],
      [DaemonServe], [DaemonServeProps]: the socket and the daemon.
    - [PublisherState], [PublisherStateProps], [ApiClient], [PublisherMain],
      [PublisherMainProps], [Pump], [PumpProps], [Pty]: the program itself.

    ** How state corresponds to the code

    A struct is a [Record] with the source's fields under a short prefix, an
    enum an [Inductive] with its constructors. A [u64] is an [N] with its sums
    wrapped ([+₆₄]); a database column is the [i64] in [Z]; a [String] is a
    list of code points. A critical section of a mutex is one function on the
    locked record, hence one step. What the source shares by [Arc] (terminal
    handles, channels, watch cells, queues) lives in a map from locations in
    [Registry] or from subscriber ids in [TerminalInner], and tables hold
    locations. A method that awaits the database is a computation of [RegM]; a
    connection's handler is one of [StM] over the connection beside the registry
    ([ConnM], [MirM]); an HTTP handler is one of [AppM] over the whole server;
    a publisher's command is one of [FilesM] or [CmdM]. Every database or file
    call consumes a fault from an oracle, so a theorem about a handler holds for
    every pattern of failures.

    Where the source awaits and other tasks run, the definition takes what they
    did: the [between] of [flush_once], the [others] of the connections and of
    [AppM], the [Meanwhile] of an awaited open, the [ShutdownOthers] of a
    shutdown, what arrives with each read in [Daemon], the steps of [tstep] and
    [load_step]. In [Daemon] a client's answer to [retire] and the exit 50 ms
    later are two steps, with every other client's in between. In [Pump] a send
    that finds its channel full leaves the loop waiting, and no arm is polled
    until it is answered. In [Pool] the atomics are relaxed, as in the source: a
    load may be answered by any older write that the mutex beside them does not
    rule out. Loops over a select are runs over events ([pump_step],
    [serve_step], [pool_step], [pty_step], [supervisor_turn], [sweep_step]): an
    event is an arm with the answers of the system calls in it, and a step is
    undefined where the arm is not ready.

    ** The theorems

    - End to end ([Pipeline], [PumpProps], [DaemonHosting]): whatever the
      network loses, repeats or reorders, the relay's log is a prefix of what
      the terminal wrote, which an interactive host has shown, also through the
      daemon's socket for pieces within its frame; a reconnect completes it; a
      mirror that ends does not harm the shell (one that stalls freezes it:
      [PumpProps.freezing_is_reachable]).
    - Replay and live output ([TerminalProps]): what a subscriber received and
      has queued is one contiguous stretch of the log; a subscriber that cannot
      keep up is detached and told so; nothing follows a close.
    - Durability ([Flush], [PublisherProps], [RegistryTerminals],
      [ListenerProps], [Background]): the durable offset moves only behind
      a commit, backpressure makes room or fails before an append could evict
      bytes that are not durable, a reload restores what was stored, a graceful
      shutdown that is not cut short leaves uncommitted only what is written
      during its last flush, and recovery starts the grace period of every device
      that had a terminal open.
    - Who may do what ([AuthProps], [HandlersProps], [AccountsProps],
      [MirrorProps], [PublisherProps], [OperatorProps], [CryptoProps]): a token
      needs a signature by a registered key; a challenge or ticket is used once;
      a revoked device is refused by every door; terminals are for their owner
      only; input reaches the publisher exactly when subscription, scope, grant,
      rate and sequence allow it; reading the settings shows no secret.
    - A user who follows the protocol gets through ([Login],
      [PublisherControl], [Retries], [Pages]): login works, whoever asked for a
      terminal that a version 2 publisher opens learns what the open came to, a
      retry opens nothing twice, pages cover the list.
    - Stored things stay well formed ([AccountsProps], [StoreProps],
      [MaintenanceProps], [PublisherStateProps], [PublisherMainProps],
      [BootstrapProps]): settings that are served are valid, patches and saves
      are all or nothing, the sweep spares open terminals, keys and identities
      are kept wherever the check that their file exists does not fail.
    - Processes ([DaemonProps], [DaemonServeProps], [LocalPaths],
      [MultiplexerSession], [ListenerProps], [Pool], [Pty]): claims are
      exclusive, a shell is hosted only with consent, the daemon stands down
      only when it is not in use, its socket is in a private directory, no
      terminal is left behind at the relay from the moment its open is sent,
      listeners and (as far as relaxed atomics let them) database connections
      follow the settings.
    - Exactness of the small parts ([Ring], [Frames], [Messages], [Metrics],
      [Responses]): refinements of a reference, exact decoders, negotiation,
      what a rejected request is answered.

    Some theorems record where the code does less than it says or means to:
    [PublisherControl.decline_detail_can_panic],
    [Responses.rejection_can_panic],
    [RegistryProps.late_detach_fails_new_requests],
    [RegistryProps.supersede_unheard_when_busy],
    [RegistryTerminals.repeated_open_keeps_metadata],
    [TerminalProps.shrinking_skips_dirty_bytes],
    [MultiplexerSession.failure_reopens_everything],
    [MultiplexerSession.mismatch_lost_when_full],
    [MultiplexerSession.stash_replaces_a_shell],
    [MultiplexerSession.session_never_gives_up],
    [DaemonProps.large_output_ends_the_client],
    [DaemonServeProps.ended_session_keeps_daemon],
    [DaemonServeProps.second_caller_is_dropped],
    [PumpProps.output_forgets_the_close], [PumpProps.frozen_takes_nothing] with
    [PumpProps.freezing_is_reachable], [PublisherMainProps.pair_cannot_pair],
    [ListenerProps.failed_rebind_stops_listening],
    [ListenerProps.new_limit_is_not_applied],
    [OperatorProps.recovery_refuses_by_default],
    [BootstrapProps.settings_without_action_panics],
    [ListenerProps.limit_is_per_socket],
    [DaemonHosting.retiring_drops_a_client],
    [MirrorProps.failing_load_tells],
    [BootstrapProps.failing_check_replaces_key],
    [PublisherMainProps.failing_check_forgets_machine],
    [Pool.connect_misses_a_change], [Pool.relaxed_load_keeps_old_value],
    [Pool.stale_generation_passes],
    [Background.changes_put_off_the_sweep].

    ** Fuel

    [replay_loop] runs on [replay_fuel], one unit per chunk and one for the
    last test: [TerminalProps.replay_loop_spec] shows that it reaches the end.
    [chunks_loop] and [read_frames_loop] have the length of their input, enough
    because a chunk or a frame is not empty ([Pipeline.chunks_loop_concat],
    [Ipc.read_frames_spec]); so has the parser of
    length-prefixed fields. Following a list's pages takes at most one page per
    row ([Pages]). Runs are structural on their events, [reattach] on its eight
    attempts, every other recursion on its data.

    ** What is not modelled

    Library code is a parameter of the definitions that use it, with what the
    code relies on as hypotheses that a concrete instance satisfies: [serde_json]
    ([JsonApi], [JsonText], [IpcJson], [FromSlice]), hashes, signatures, ciphers
    and base64 ([CryptoLib]), timestamps and identifiers as text ([ChronoLib],
    [UuidLib]), the order of a hash map ([HashIter]). SQLite is tables with
    constraints and a fault oracle, tokio's channels are lists with capacities,
    TLS and HTTP are the answers of their calls. Tracing and its set-up
    ([observability.rs]) are left out, except where evaluating a log argument
    can panic; so is counting in the metrics, outside of [Metrics]. The
    publisher's command line ([clap]), what its commands print, the desktop's
    terminal emulators beyond their argument lists, and the Windows variants are
    left out. The generator and the instants of timers are arguments. The
    Android client is written in other languages. *)

From Stdlib Require Strings.Ascii Strings.String.
From Stdlib Require Export NArith Lia Strings.Byte.
From stdpp Require Export base numbers strings fin_maps gmap.
From stdpp Require Export list.
From stdpp Require pretty.

#[global] Open Scope N_scope.

Declare Scope hype_scope.
Delimit Scope hype_scope with hype.

(** ** Results

    [ApiResult<T>] and the other [Result] types of the source. *)

Inductive result (E A : Type) : Type :=
| Ok (a : A)
| Err (e : E).
Arguments Ok {E A} a.
Arguments Err {E A} e.

(** [Result::is_ok], [Result::unwrap_or]. *)
Definition res_ok {E A} (r : result E A) : bool := match r with Ok _ => true | Err _ => false end.
Definition res_value {E A} (d : A) (r : result E A) : A := match r with Ok a => a | Err _ => d end.
Lemma res_ok_value {E A} (d : A) (r : result E A) : res_ok r = true → r = Ok (res_value d r).
Proof. by destruct r. Qed.
(** A run that a computation shows to succeed. *)
Lemma ran_ok {E A S : Type} (d : A) (r : result E A * S) : res_ok r.1 = true → r = (Ok (res_value d r.1), r.2).
Proof. by destruct r as [[]]. Qed.

Definition res_bind {E A B} (r : result E A) (k : A → result E B) : result E B :=
  match r with Ok a => k a | Err e => Err e end.

Notation "'let?' x ':=' r 'in' k" := (res_bind r (λ x, k))
  (at level 10, x pattern, r at level 100, k at level 200) : hype_scope.

(** ** Machine words

    A [u64] (and a 64-bit [usize]) is an [N] below [two64]; [+] on it is
    written out with its wrap-around, [saturating_sub] is [N]'s truncated
    subtraction. *)

Abbreviation two63 := 9223372036854775808.
Abbreviation two64 := 18446744073709551616.
Abbreviation two32 := 4294967296.
Abbreviation two128 := 340282366920938463463374607431768211456.

Definition wadd64 (a b : N) : N := (a + b) mod two64.
Definition wsub64 (a b : N) : N := (a + (two64 - b)) mod two64.
Notation "a +₆₄ b" := (wadd64 a b) (at level 50, left associativity) : hype_scope.
Notation "a -₆₄ b" := (wsub64 a b) (at level 50, left associativity) : hype_scope.

(** [u64 as i64] and [i64.max(0) as u64], the casts at the database boundary. *)
Definition as_i64 (n : N) : Z :=
  if n <? two63 then Z.of_N n else (Z.of_N n - 18446744073709551616)%Z.
Definition of_i64 (z : Z) : N := Z.to_N (Z.max z 0).

Lemma wadd64_small a b : a + b < two64 → wadd64 a b = a + b.
Proof. apply N.mod_small. Qed.

Lemma wadd64_lt a b : wadd64 a b < two64.
Proof. by apply N.mod_lt. Qed.

Lemma wsub64_small a b : b ≤ a → a < two64 → wsub64 a b = a - b.
Proof.
  intros Hb Ha. unfold wsub64.
  replace (a + (two64 - b)) with ((a - b) + 1 * two64) by lia.
  rewrite N.Div0.mod_add. apply N.mod_small; lia.
Qed.

Lemma as_i64_small n : n < two63 → as_i64 n = Z.of_N n.
Proof. intros H. unfold as_i64. by rewrite (proj2 (N.ltb_lt _ _) H). Qed.

Lemma of_as_i64 n : n < two63 → of_i64 (as_i64 n) = n.
Proof. intros H. rewrite as_i64_small by done. unfold of_i64. lia. Qed.

(** ** Lists with lengths and offsets in [N] *)

Definition len {A} (l : list A) : N := N.of_nat (length l).
Definition takeN {A} (n : N) (l : list A) : list A := take (N.to_nat n) l.
Definition dropN {A} (n : N) (l : list A) : list A := drop (N.to_nat n) l.
(** [&l[from..to]] *)
Definition sliceN {A} (from to : N) (l : list A) : list A := takeN (to - from) (dropN from l).

Create Rewrite HintDb len.

Section lists.
  Context {A : Type}.
  Implicit Types l k : list A.

Lemma len_nil : len (@nil A) = 0.
  Proof. done. Qed.
Lemma len_cons x l : len (x :: l) = 1 + len l.
  Proof. unfold len. simpl. lia. Qed.
Lemma len_app l k : len (l ++ k) = len l + len k.
  Proof. unfold len. rewrite length_app. lia. Qed.
Lemma len_takeN n l : len (takeN n l) = N.min n (len l).
  Proof. unfold len, takeN. rewrite length_take. lia. Qed.
Lemma len_dropN n l : len (dropN n l) = len l - n.
  Proof. unfold len, dropN. rewrite length_drop. lia. Qed.
Lemma len_0_nil l : len l = 0 → l = [].
  Proof. unfold len. destruct l; simpl; [done|lia]. Qed.
Lemma len_sliceN a b l : len (sliceN a b l) = N.min (b - a) (len l - a).
  Proof. unfold sliceN. by rewrite len_takeN, len_dropN. Qed.

Lemma dropN_0 l : dropN 0 l = l.
  Proof. apply drop_0. Qed.
Lemma dropN_ge n l : len l ≤ n → dropN n l = [].
  Proof. unfold len, dropN. intros H. apply drop_ge. lia. Qed.
Lemma takeN_ge n l : len l ≤ n → takeN n l = l.
  Proof. unfold len, takeN. intros H. apply take_ge. lia. Qed.
Lemma takeN_0 l : takeN 0 l = [].
  Proof. done. Qed.
Lemma dropN_app_le n l k : n ≤ len l → dropN n (l ++ k) = dropN n l ++ k.
  Proof. unfold len, dropN. intros H. apply drop_app_le. lia. Qed.
Lemma dropN_app_ge n l k : len l ≤ n → dropN n (l ++ k) = dropN (n - len l) k.
  Proof.
    unfold len, dropN. intros H. rewrite drop_app_ge by lia. f_equal. lia.
  Qed.
Lemma takeN_app_le n l k : n ≤ len l → takeN n (l ++ k) = takeN n l.
  Proof. unfold len, takeN. intros H. apply take_app_le. lia. Qed.
Lemma takeN_app_ge n l k : len l ≤ n → takeN n (l ++ k) = l ++ takeN (n - len l) k.
  Proof.
    unfold len, takeN. intros H. rewrite take_app_ge by lia. do 2 f_equal. lia.
  Qed.
Lemma dropN_dropN a b l : dropN a (dropN b l) = dropN (b + a) l.
  Proof. unfold dropN. rewrite drop_drop. f_equal. lia. Qed.
Lemma takeN_takeN a b l : takeN a (takeN b l) = takeN (N.min a b) l.
  Proof. unfold takeN. rewrite take_take. f_equal. lia. Qed.
Lemma takeN_dropN n l : takeN n l ++ dropN n l = l.
  Proof. apply take_drop. Qed.
Lemma dropN_takeN a b l : dropN a (takeN b l) = takeN (b - a) (dropN a l).
  Proof. unfold dropN, takeN. rewrite skipn_firstn_comm. f_equal. lia. Qed.

  (** Two adjacent slices of a list make the slice over both. *)
Lemma sliceN_split a b c l :
    a ≤ b → b ≤ c → sliceN a b l ++ sliceN b c l = sliceN a c l.
  Proof.
    intros Hab Hbc. unfold sliceN.
    rewrite <- (takeN_dropN (b - a) (takeN (c - a) (dropN a l))).
    rewrite takeN_takeN, dropN_takeN, dropN_dropN.
    f_equal; f_equal; [lia|lia|f_equal; lia].
  Qed.
Lemma sliceN_all a l b : len l ≤ b → sliceN a b l = dropN a l.
  Proof. intros H. apply takeN_ge. rewrite len_dropN. lia. Qed.
Lemma sliceN_app_l a b l k : b ≤ len l → sliceN a b (l ++ k) = sliceN a b l.
  Proof.
    intros H. destruct (N.le_gt_cases a b) as [Hab|Hab].
    - unfold sliceN. rewrite dropN_app_le by lia. rewrite takeN_app_le; [done|].
      rewrite len_dropN. lia.
    - unfold sliceN. replace (b - a) with 0 by lia. done.
  Qed.
Lemma sliceN_nil a b l : b ≤ a → sliceN a b l = [].
  Proof. intros H. unfold sliceN. by replace (b - a) with 0 by lia. Qed.
  (** The slice that starts where a list ends reads the appended part. *)
Lemma sliceN_app_r a l k : len l = a → sliceN a (len (l ++ k)) (l ++ k) = k.
  Proof.
    intros <-. rewrite sliceN_all by done. rewrite dropN_app_ge by done.
    rewrite N.sub_diag. apply dropN_0.
  Qed.
End lists.

Lemma NoDup_fmap_filter {A B} (f : A → B) (P : A → Prop) `{∀ x, Decision (P x)} (l : list A) :
  NoDup (f <$> l) → NoDup (f <$> filter P l).
Proof.
  induction l as [|x l IH]; [done|]. rewrite fmap_cons, NoDup_cons. intros [Hx Hnd].
  destruct (decide (P x)).
  - rewrite filter_cons_True by done. rewrite fmap_cons, NoDup_cons. split; [|auto].
    rewrite list_elem_of_fmap in *. intros (y & Hfy & [_ Hy]%list_elem_of_filter).
    apply Hx. by exists y.
  - rewrite filter_cons_False by done. auto.
Qed.

#[export] Hint Rewrite @len_nil @len_cons @len_app @len_takeN @len_dropN @len_sliceN : len.

(** Arithmetic goals over list lengths. *)
Ltac len_lia := autorewrite with len in *; lia.
(** Resolve the wrap-around of additions that provably stay in range. *)
Ltac unwrap :=
  repeat (rewrite wadd64_small by len_lia); repeat (rewrite wsub64_small by len_lia).
(** Case analysis on a boolean comparison of the goal or a hypothesis. *)
Ltac case_N :=
  match goal with
  | |- context [?a <? ?b] => destruct (N.ltb_spec a b)
  | |- context [?a <=? ?b] => destruct (N.leb_spec a b)
  | |- context [?a =? ?b] => destruct (N.eqb_spec a b)
  | H : context [?a <? ?b] |- _ => destruct (N.ltb_spec a b)
  | H : context [?a <=? ?b] |- _ => destruct (N.leb_spec a b)
  | H : context [?a =? ?b] |- _ => destruct (N.eqb_spec a b)
  end.
Ltac case_N_in H :=
  match type of H with
  | context [?a <? ?b] => destruct (N.ltb_spec a b)
  | context [?a <=? ?b] => destruct (N.leb_spec a b)
  | context [?a =? ?b] => destruct (N.eqb_spec a b)
  end.
(** Case analysis on a match or if of the goal, keeping the equation. *)
Ltac case_goal :=
  match goal with
  | |- context [match ?x with _ => _ end] => destruct x eqn:?
  end.

(** ** Text

    A Rust [String] as its Unicode scalar values; [.len()] is the length of
    the UTF-8 encoding. *)

Abbreviation text := (list N).

Definition lit (s : string) : text := Ascii.N_of_ascii <$> String.list_ascii_of_string s.
(** A number in a message. *)
Definition num (n : N) : text := lit (pretty.pretty n).


Definition len_utf8 (c : N) : N :=
  if c <? 128 then 1 else if c <? 2048 then 2 else if c <? 65536 then 3 else 4.
Definition text_len (t : text) : N := foldr (λ c n, len_utf8 c + n) 0 t.

(** [char::is_control]: the general category Cc. *)
Definition is_control (c : N) : bool := (c <? 32) || ((127 <=? c) && (c <? 160)).
(** [char::is_whitespace]: the property White_Space. *)
Definition is_whitespace (c : N) : bool :=
  ((9 <=? c) && (c <=? 13)) || (c =? 32) || (c =? 133) || (c =? 160) || (c =? 5760)
  || ((8192 <=? c) && (c <=? 8202)) || (c =? 8232) || (c =? 8233) || (c =? 8239)
  || (c =? 8287) || (c =? 12288).
Fixpoint trim_start (t : text) : text :=
  match t with
  | c :: t' => if is_whitespace c then trim_start t' else t
  | [] => []
  end.
Definition trim (t : text) : text := reverse (trim_start (reverse (trim_start t))).
(** Nothing to trim. *)
Lemma trim_start_none t : Forall (λ c, is_whitespace c = false) t → trim_start t = t.
Proof. intros Ht. destruct Ht as [|c t Hc _]; [done|]. cbn. by rewrite Hc. Qed.
Lemma trim_none t : Forall (λ c, is_whitespace c = false) t → trim t = t.
Proof.
  intros Ht. unfold trim. rewrite (trim_start_none t), trim_start_none by (done || by apply Forall_reverse).
  apply reverse_involutive.
Qed.
Definition is_empty {A} (l : list A) : bool := match l with [] => true | _ => false end.

Lemma len_utf8_pos c : 1 ≤ len_utf8 c ≤ 4.
Proof. unfold len_utf8. repeat case_N; lia. Qed.

(** ** Big-endian byte strings *)

#[export] Instance byte_eq_dec : EqDecision byte := Byte.byte_eq_dec.

Definition byte_of_N (n : N) : byte := default x00 (Byte.of_N (n mod 256)).

Fixpoint le_bytes (k : nat) (n : N) : list byte :=
  match k with O => [] | S k => byte_of_N n :: le_bytes k (n / 256) end.
Fixpoint le_combine (l : list byte) : N :=
  match l with [] => 0 | b :: l => Byte.to_N b + 256 * le_combine l end.
(** [to_be_bytes] / [from_be_bytes] of a [k]-byte unsigned integer. *)
Definition be_bytes (k : nat) (n : N) : list byte := reverse (le_bytes k n).
Definition be_combine (l : list byte) : N := le_combine (reverse l).

Lemma to_of_byte n : Byte.to_N (byte_of_N n) = n mod 256.
Proof.
  unfold byte_of_N. destruct (Byte.of_N (n mod 256)) as [b|] eqn:E; simpl.
  - by apply Byte.to_of_N.
  - apply Byte.of_N_None_iff in E. pose proof (N.mod_lt n 256). lia.
Qed.

Lemma of_to_byte b : byte_of_N (Byte.to_N b) = b.
Proof.
  unfold byte_of_N. rewrite N.mod_small by (pose proof (Byte.to_N_bounded b); lia).
  by rewrite Byte.of_to_N.
Qed.

Lemma length_le_bytes k n : length (le_bytes k n) = k.
Proof. revert n. induction k; simpl; auto. Qed.

Lemma le_combine_bytes k n : le_combine (le_bytes k n) = n mod 256 ^ N.of_nat k.
Proof.
  revert n. induction k as [|k IH]; intros n.
  - simpl. by rewrite N.mod_1_r.
  - cbn [le_bytes le_combine]. rewrite IH, to_of_byte, Nat2N.inj_succ, N.pow_succ_r'.
    rewrite N.Div0.mod_mul_r. lia.
Qed.

Lemma le_combine_lt l : le_combine l < 256 ^ len l.
Proof.
  induction l as [|b l IH]; [done|].
  rewrite len_cons, N.add_1_l, N.pow_succ_r'. cbn [le_combine].
  pose proof (Byte.to_N_bounded b). lia.
Qed.

Lemma le_bytes_combine l : le_bytes (length l) (le_combine l) = l.
Proof.
  induction l as [|b l IH]; [done|]. cbn [length le_bytes le_combine].
  pose proof (Byte.to_N_bounded b) as Hb. f_equal.
  - unfold byte_of_N. rewrite (N.mul_comm 256), N.Div0.mod_add.
    apply of_to_byte.
  - rewrite (N.mul_comm 256), N.div_add, N.div_small by lia. by rewrite N.add_0_l.
Qed.

Lemma length_be_bytes k n : length (be_bytes k n) = k.
Proof. unfold be_bytes. by rewrite length_reverse, length_le_bytes. Qed.
Lemma len_be_bytes k n : len (be_bytes k n) = N.of_nat k.
Proof. unfold len. by rewrite length_be_bytes. Qed.
#[export] Hint Rewrite len_be_bytes : len.

Lemma be_combine_bytes k n : n < 256 ^ N.of_nat k → be_combine (be_bytes k n) = n.
Proof.
  intros H. unfold be_combine, be_bytes.
  rewrite reverse_involutive, le_combine_bytes. by apply N.mod_small.
Qed.

Lemma be_bytes_combine k l : length l = k → be_bytes k (be_combine l) = l.
Proof.
  intros <-. unfold be_bytes, be_combine.
  rewrite <- (length_reverse l), le_bytes_combine. apply reverse_involutive.
Qed.

Lemma be_combine_lt l : be_combine l < 256 ^ len l.
Proof.
  unfold be_combine. eapply N.lt_le_trans; [apply le_combine_lt|].
  unfold len. by rewrite length_reverse.
Qed.

(** Identifiers: a [Uuid] is its 128-bit value. *)
Abbreviation Uuid := N.
Definition uuid_as_bytes (u : Uuid) : list byte := be_bytes 16 u.
Definition uuid_from_bytes (l : list byte) : Uuid := be_combine l.
