(* ===== verification/Ring.v ===== *)
(** * The bounded replay buffer ([server/src/relay/ring.rs])

    [Ring] is the record of [struct Ring], one definition per method. The
    abstract specification is [ring_repr log r]: the buffer is the suffix of
    the terminal's whole output [log] that starts at [earliest_offset]. The
    theorems show that appending refines list append, that eviction drops
    exactly the bytes that do not fit, and that a range read returns exactly
    the bytes of the log at those offsets, wherever the deque happens to
    wrap. *)

From S2P Require Export Prelude.

Open Scope N_scope.
Open Scope hype_scope.

Record Ring := mkRing {
  r_buf : list byte;
  r_earliest : N;
  r_capacity : N;
}.

Definition ring_new (capacity earliest_offset : N) : Ring :=
  mkRing [] earliest_offset (N.max capacity 1).

Definition ring_from_retained (capacity earliest_offset : N) (retained : list byte) : Ring :=
  let ring := ring_new capacity earliest_offset in
  if r_capacity ring <? len retained then
    let drop := len retained - r_capacity ring in
    mkRing (r_buf ring ++ dropN drop retained) (r_earliest ring +₆₄ drop) (r_capacity ring)
  else mkRing (r_buf ring ++ retained) (r_earliest ring) (r_capacity ring).

Definition ring_end (r : Ring) : N := r_earliest r +₆₄ len (r_buf r).
Definition ring_len (r : Ring) : N := len (r_buf r).

(** Returns the ring and the number of bytes evicted. *)
Definition ring_set_capacity (capacity : N) (r : Ring) : Ring * N :=
  let capacity := N.max capacity 1 in
  if capacity =? r_capacity r then (r, 0)
  else
    let overflow := len (r_buf r) - capacity in
    if 0 <? overflow then
      (mkRing (dropN overflow (r_buf r)) (r_earliest r +₆₄ overflow) capacity, overflow)
    else (mkRing (r_buf r) (r_earliest r) capacity, overflow).

Definition ring_append (data : list byte) (r : Ring) : Ring * N :=
  if is_empty data then (r, 0)
  else
    let new_end := ring_end r +₆₄ len data in
    if r_capacity r <=? len data then
      let evicted := len (r_buf r) + (len data - r_capacity r) in
      (mkRing (dropN (len data - r_capacity r) data)
              (new_end -₆₄ r_capacity r) (r_capacity r), evicted)
    else
      let overflow := (len (r_buf r) + len data) - r_capacity r in
      if 0 <? overflow then
        (mkRing (dropN overflow (r_buf r) ++ data)
                (r_earliest r +₆₄ overflow) (r_capacity r), overflow)
      else (mkRing (r_buf r ++ data) (r_earliest r) (r_capacity r), overflow).

(** [VecDeque::as_slices]: the two contiguous halves of the deque. Where they
    meet is the deque's own affair, so it is an argument of the read. *)
Definition as_slices (wrap : N) (r : Ring) : list byte * list byte :=
  (takeN wrap (r_buf r), dropN wrap (r_buf r)).

Definition ring_read_range (wrap : N) (r : Ring) (from to : N) : option (list byte) :=
  if (to <? from) || (from <? r_earliest r) || (ring_end r <? to) then None
  else
    let start := from - r_earliest r in
    let length := to - from in
    let '(first, second) := as_slices wrap r in
    let from_first := N.min start (len first) in
    let take_first := N.min (len first - from_first) length in
    let out := sliceN from_first (from_first + take_first) first in
    Some (if len out <? length then
            let remaining := length - len out in
            let from_second := start - len first in
            out ++ sliceN from_second (from_second + remaining) second
          else out).

(** ** Invariant and abstract specification *)

(** What the type maintains: a positive capacity that bounds the buffer. *)
Definition ring_wf (r : Ring) : Prop :=
  1 ≤ r_capacity r ∧ len (r_buf r) ≤ r_capacity r.

(** [r] holds the suffix of [log] that starts at its [earliest_offset]; the
    offsets of the stream are positions in [log]. *)
Definition ring_repr (log : list byte) (r : Ring) : Prop :=
  ring_wf r ∧ r_earliest r ≤ len log ∧ len log < two64
  ∧ r_buf r = dropN (r_earliest r) log.

(** Where the window starts once it holds at most [capacity] bytes. *)
Definition window_start (earliest capacity : N) (log : list byte) : N :=
  N.max earliest (len log - capacity).

Lemma ring_repr_buf_len log r :
  ring_repr log r → len (r_buf r) = len log - r_earliest r.
Proof. intros (_ & _ & _ & ->). by autorewrite with len. Qed.

Lemma ring_repr_end log r : ring_repr log r → ring_end r = len log.
Proof.
  intros H. pose proof (ring_repr_buf_len _ _ H). destruct H as (? & ? & ? & ?).
  unfold ring_end. rewrite wadd64_small; lia.
Qed.

Lemma ring_repr_intro log cap e :
  1 ≤ cap → e ≤ len log → len log - e ≤ cap → len log < two64 →
  ring_repr log (mkRing (dropN e log) e cap).
Proof. intros. repeat split; simpl; autorewrite with len; lia. Qed.

Lemma ring_new_repr capacity log :
  len log < two64 → ring_repr log (ring_new capacity (len log)).
Proof.
  intros. unfold ring_new.
  rewrite <- (dropN_ge (len log) log) by lia. apply ring_repr_intro; lia.
Qed.

Lemma ring_from_retained_repr capacity e log :
  e ≤ len log → len log < two64 →
  let r := ring_from_retained capacity e (dropN e log) in
  ring_repr log r ∧ r_earliest r = window_start e (N.max capacity 1) log.
Proof.
  intros He Hl. unfold ring_from_retained, ring_new, window_start. cbn -[N.max].
  rewrite len_dropN. case_N; cbn -[N.max].
  - rewrite dropN_dropN. unwrap. split; [apply ring_repr_intro; lia|lia].
  - split; [apply ring_repr_intro; lia|lia].
Qed.

(** Changing the capacity keeps the newest bytes that fit, at once. *)
Lemma ring_set_capacity_repr log r capacity :
  ring_repr log r →
  let '(r', evicted) := ring_set_capacity capacity r in
  ring_repr log r'
  ∧ r_capacity r' = N.max capacity 1
  ∧ r_earliest r' = window_start (r_earliest r) (N.max capacity 1) log
  ∧ evicted = r_earliest r' - r_earliest r.
Proof.
  intros H. pose proof (ring_repr_buf_len _ _ H) as Hlen.
  destruct H as ([Hc1 Hc2] & He & Hl & Hb).
  unfold ring_set_capacity, window_start. cbv zeta.
  destruct (N.eqb_spec (N.max capacity 1) (r_capacity r)).
  - split_and!; [by repeat split|lia|lia|lia].
  - rewrite Hlen. case_N; cbn -[N.max].
    + rewrite Hb, dropN_dropN. unwrap. split_and!; [apply ring_repr_intro; lia|lia..].
    + rewrite Hb. split_and!; [apply ring_repr_intro; lia|lia..].
Qed.

Lemma ring_append_repr log r data :
  ring_repr log r → len (log ++ data) < two64 →
  let '(r', evicted) := ring_append data r in
  ring_repr (log ++ data) r'
  ∧ r_capacity r' = r_capacity r
  ∧ r_earliest r' = window_start (r_earliest r) (r_capacity r) (log ++ data)
  ∧ evicted = r_earliest r' - r_earliest r.
Proof.
  intros H Hlt. pose proof (ring_repr_buf_len _ _ H) as Hlen.
  pose proof (ring_repr_end _ _ H) as Hend.
  destruct H as ([Hc1 Hc2] & He & Hl & Hb).
  unfold ring_append, window_start. rewrite Hend, Hlen.
  autorewrite with len in *. destruct data as [|b data].
  - cbn. rewrite app_nil_r. autorewrite with len. split_and!; [by repeat split|lia..].
  - cbn [is_empty]. set (d := b :: data) in *.
    assert (0 < len d) by (unfold d; rewrite len_cons; lia).
    destruct (N.leb_spec (r_capacity r) (len d)); [|case_N]; cbn.
    + unwrap. split_and!; [|lia..].
      replace (dropN (len d - r_capacity r) d)
        with (dropN (len log + len d - r_capacity r) (log ++ d)).
      2:{ rewrite dropN_app_ge by lia. f_equal. lia. }
      apply ring_repr_intro; autorewrite with len; lia.
    + unwrap. rewrite Hb, dropN_dropN, <- dropN_app_le by lia.
      split_and!; [apply ring_repr_intro; autorewrite with len; lia|lia..].
    + rewrite Hb, <- dropN_app_le by lia.
      split_and!; [apply ring_repr_intro; autorewrite with len; lia|lia..].
Qed.

(** Copying from the two halves of a wrapped buffer is slicing the buffer. *)
Lemma two_halves {A} (l : list A) wrap start length :
  start + length ≤ len l →
  let first := takeN wrap l in
  let second := dropN wrap l in
  let from_first := N.min start (len first) in
  let out := sliceN from_first (from_first + N.min (len first - from_first) length) first in
  (if len out <? length then
     out ++ sliceN (start - len first) (start - len first + (length - len out)) second
   else out) = sliceN start (start + length) l.
Proof.
  intros Hl first second from_first out.
  assert (from_first = N.min start (len first)) as Hff by done.
  assert (len out = N.min (len first - from_first) length) as Hout
    by (unfold out; len_lia).
  assert (len first = N.min wrap (len l)) as Hf by (unfold first; len_lia).
  assert (first ++ second = l) as Hsplit by apply takeN_dropN.
  rewrite <- Hsplit. case_N.
  - destruct (N.le_gt_cases (len first) start) as [Hs|Hs].
    + assert (out = []) as -> by (apply len_0_nil; lia). rewrite len_nil. simpl.
      unfold sliceN. rewrite dropN_app_ge by lia. f_equal. lia.
    + rewrite <- (sliceN_split start (len first) (start + length)) by lia.
      rewrite sliceN_app_l by lia. f_equal.
      * unfold out. f_equal; lia.
      * unfold sliceN. rewrite dropN_app_ge by lia. f_equal; [lia|f_equal; lia].
  - destruct (N.eq_0_gt_0_cases length) as [->|Hpos].
    + unfold out. by rewrite !sliceN_nil by lia.
    + rewrite sliceN_app_l by lia. unfold out. f_equal; lia.
Qed.

Lemma ring_read_range_slice wrap log r from to :
  ring_repr log r →
  ring_read_range wrap r from to =
    if (r_earliest r <=? from) && (from <=? to) && (to <=? len log)
    then Some (sliceN from to log) else None.
Proof.
  intros H. pose proof (ring_repr_buf_len _ _ H) as Hlen.
  pose proof (ring_repr_end _ _ H) as Hend.
  destruct H as ([Hc1 Hc2] & He & Hl & Hb).
  unfold ring_read_range. rewrite Hend.
  repeat case_N; cbn [orb andb]; try lia; try done.
  f_equal. unfold as_slices. rewrite two_halves by lia.
  rewrite Hb. unfold sliceN. rewrite dropN_dropN. f_equal; [lia|f_equal; lia].
Qed.

(** Every sequence of appends and capacity changes. *)
Inductive ring_op :=
| OpAppend (data : list byte)
| OpSetCapacity (capacity : N).

Definition ring_step (op : ring_op) (r : Ring) : Ring :=
  match op with
  | OpAppend data => (ring_append data r).1
  | OpSetCapacity capacity => (ring_set_capacity capacity r).1
  end.
Definition op_data (op : ring_op) : list byte :=
  match op with OpAppend data => data | OpSetCapacity _ => [] end.

Lemma ring_step_repr op log r :
  ring_repr log r → len (log ++ op_data op) < two64 →
  ring_repr (log ++ op_data op) (ring_step op r).
Proof.
  intros H Hlt. destruct op as [data|capacity]; simpl in *.
  - pose proof (ring_append_repr _ _ data H Hlt) as Happ.
    destruct (ring_append data r). apply Happ.
  - rewrite app_nil_r. pose proof (ring_set_capacity_repr _ _ capacity H) as Hcap.
    destruct (ring_set_capacity capacity r). apply Hcap.
Qed.

Lemma ring_steps_repr ops log r :
  ring_repr log r → len (log ++ (ops ≫= op_data)) < two64 →
  ring_repr (log ++ (ops ≫= op_data)) (foldl (λ r op, ring_step op r) r ops).
Proof.
  revert log r. induction ops as [|op ops IH]; intros log r H Hlt; simpl in *.
  - by rewrite app_nil_r.
  - rewrite app_assoc in *. apply IH; [|done]. apply ring_step_repr; [done|len_lia].
Qed.

(** ** Properties *)

(** C40: whatever sequence of appends and capacity changes a fresh ring goes
    through, it holds exactly the suffix of everything ever appended that
    starts at [earliest_offset], its end offset is the number of bytes
    appended, and it never holds more than its capacity. *)
Theorem ring_is_newest_suffix (capacity : N) (ops : list ring_op) :
  len (ops ≫= op_data) < two64 →
  let log := ops ≫= op_data in
  let r := foldl (λ r op, ring_step op r) (ring_new capacity 0) ops in
  r_buf r = dropN (r_earliest r) log
  ∧ ring_end r = len log
  ∧ r_earliest r + ring_len r = len log
  ∧ ring_len r ≤ r_capacity r.
Proof.
  intros Hlt log r.
  assert (ring_repr log r) as H.
  { apply (ring_steps_repr ops [] (ring_new capacity 0)); [|done].
    by apply (ring_new_repr capacity []). }
  pose proof (ring_repr_buf_len _ _ H) as Hlen. unfold ring_len.
  split_and!; [apply H|by apply ring_repr_end| |apply H].
  destruct H as (_ & He & _). lia.
Qed.

Lemma ring_is_newest_suffix_witness :
  let ops := [OpAppend [x61; x62; x63]; OpAppend [x64; x65]; OpSetCapacity 3] in
  let log := ops ≫= op_data in
  let r := foldl (λ r op, ring_step op r) (ring_new 4 0) ops in
  r_buf r = dropN (r_earliest r) log
  ∧ ring_end r = len log
  ∧ r_earliest r + ring_len r = len log
  ∧ ring_len r ≤ r_capacity r.
Proof.
  apply (ring_is_newest_suffix 4 [OpAppend [x61; x62; x63]; OpAppend [x64; x65]; OpSetCapacity 3]).
  reflexivity.
Defined.

(** Eviction is minimal. An append evicts exactly the oldest bytes that
    no longer fit: the window starts at the later of its old start and
    [end - capacity], a frame larger than the whole window advances the stream
    by its full length, and the count returned is the number of bytes that
    left the window. *)
Theorem ring_append_evicts_minimally (log data : list byte) (r : Ring) :
  ring_repr log r → len (log ++ data) < two64 →
  let '(r', evicted) := ring_append data r in
  ring_end r' = len log + len data
  ∧ r_earliest r' = N.max (r_earliest r) (len log + len data - r_capacity r)
  ∧ evicted = r_earliest r' - r_earliest r
  ∧ r_buf r' = dropN (r_earliest r') (log ++ data).
Proof.
  intros H Hlt. pose proof (ring_append_repr _ _ data H Hlt) as Happ.
  destruct (ring_append data r) as [r' evicted].
  destruct Happ as (Hr & _ & He & Hev). unfold window_start in He.
  rewrite (ring_repr_end _ _ Hr). autorewrite with len in *.
  split_and!; [done|done|done|apply Hr].
Qed.

Lemma ring_append_evicts_minimally_witness :
  ring_repr [x30; x31] (mkRing [x30; x31] 0 4) ∧
  let '(r', evicted) := ring_append [x32; x33; x34; x35; x36; x37] (mkRing [x30; x31] 0 4) in
  ring_end r' = len [x30; x31] + len [x32; x33; x34; x35; x36; x37]
  ∧ r_earliest r' = N.max 0 (len [x30; x31] + len [x32; x33; x34; x35; x36; x37] - 4)
  ∧ evicted = r_earliest r' - 0
  ∧ r_buf r' = dropN (r_earliest r') ([x30; x31] ++ [x32; x33; x34; x35; x36; x37]).
Proof.
  assert (ring_repr [x30; x31] (mkRing [x30; x31] 0 4)) as H
    by (repeat split; vm_compute; congruence).
  split; [exact H|].
  exact (ring_append_evicts_minimally [x30; x31] [x32; x33; x34; x35; x36; x37] _ H eq_refl).
Defined.

(** Reading [[from, to)] answers exactly those bytes of the stream when
    the whole range is retained and nothing otherwise, whichever way the deque
    happens to be split into its two halves. *)
Theorem ring_read_range_exact (wrap : N) (log : list byte) (r : Ring) (from to : N) :
  ring_repr log r →
  ring_read_range wrap r from to =
    if (r_earliest r <=? from) && (from <=? to) && (to <=? len log)
    then Some (sliceN from to log) else None.
Proof. apply ring_read_range_slice. Qed.

Lemma ring_read_range_exact_witness :
  ring_read_range 1 (mkRing [x33; x34; x35] 3 3) 4 6 =
    if (3 <=? 4) && (4 <=? 6) && (6 <=? len [x30; x31; x32; x33; x34; x35])
    then Some (sliceN 4 6 [x30; x31; x32; x33; x34; x35]) else None.
Proof.
  apply (ring_read_range_exact 1 [x30; x31; x32; x33; x34; x35] (mkRing [x33; x34; x35] 3 3) 4 6).
  repeat split; vm_compute; congruence.
Defined.
