(* ===== verification/Frames.v ===== *)
(** * Binary frame layouts ([server/src/relay/frames.rs],
      [publisher/src/protocol.rs])

    The relay's six encoders and decoders and the two the publisher crate has
    of its own. Each decoder is a left and right inverse of the encoder of
    the same shape, the two crates agree byte for byte, and no frame of one
    direction is accepted by a decoder of the other. *)

From S2P Require Export Prelude.

Open Scope N_scope.
Open Scope hype_scope.

Definition FRAME_TYPE_OUTPUT : byte := x01.
Definition FRAME_TYPE_INPUT : byte := x02.

Definition PUBLISHER_HEADER_LEN : N := 1 + 16 + 8.
Definition MIRROR_HEADER_LEN : N := 1 + 8.
Definition MIRROR_INPUT_HEADER_LEN : N := 1 + 8.
Definition PUBLISHER_INPUT_HEADER_LEN : N := 1 + 16 + 8.

Record PublisherOutputFrame := mkPublisherOutputFrame {
  pof_terminal_id : Uuid;
  pof_expected_offset : N;
  pof_payload : list byte;
}.

Inductive FrameError :=
| TooShort
| UnknownType (t : byte).

(** [{:02x}] of one digit. *)
Definition hex_digit (n : N) : N := if n <? 10 then 48 + n else 87 + n.
(** [impl Display for FrameError] *)
Definition frame_error_text (e : FrameError) : text :=
  match e with
  | TooShort => lit "binary frame is shorter than its header"
  | UnknownType t =>
      lit "unknown binary frame type 0x" ++ [hex_digit (Byte.to_N t / 16); hex_digit (Byte.to_N t mod 16)]
  end.

(** [bytes[0]], only read after the length check. *)
Definition byte0 (bytes : list byte) : byte := default x00 (head bytes).

Definition decode_publisher_frame (bytes : list byte) : result FrameError PublisherOutputFrame :=
  if len bytes <? PUBLISHER_HEADER_LEN then Err TooShort
  else if negb (bool_decide (byte0 bytes = FRAME_TYPE_OUTPUT)) then Err (UnknownType (byte0 bytes))
  else Ok (mkPublisherOutputFrame
             (uuid_from_bytes (sliceN 1 17 bytes))
             (be_combine (sliceN 17 25 bytes))
             (dropN PUBLISHER_HEADER_LEN bytes)).

Definition encode_publisher_frame (terminal_id : Uuid) (expected_offset : N)
    (payload : list byte) : list byte :=
  [FRAME_TYPE_OUTPUT] ++ uuid_as_bytes terminal_id ++ be_bytes 8 expected_offset ++ payload.

Record MirrorInputFrame := mkMirrorInputFrame {
  mif_client_sequence : N;
  mif_payload : list byte;
}.

Definition decode_mirror_input_frame (bytes : list byte) : result FrameError MirrorInputFrame :=
  if len bytes <? MIRROR_INPUT_HEADER_LEN then Err TooShort
  else if negb (bool_decide (byte0 bytes = FRAME_TYPE_INPUT)) then Err (UnknownType (byte0 bytes))
  else Ok (mkMirrorInputFrame (be_combine (sliceN 1 9 bytes))
                              (dropN MIRROR_INPUT_HEADER_LEN bytes)).

Definition encode_mirror_input_frame (client_sequence : N) (payload : list byte) : list byte :=
  [FRAME_TYPE_INPUT] ++ be_bytes 8 client_sequence ++ payload.

Definition encode_publisher_input_frame (terminal_id : Uuid) (relay_sequence : N)
    (payload : list byte) : list byte :=
  [FRAME_TYPE_INPUT] ++ uuid_as_bytes terminal_id ++ be_bytes 8 relay_sequence ++ payload.

Record PublisherInputFrame := mkPublisherInputFrame {
  pif_terminal_id : Uuid;
  pif_relay_sequence : N;
  pif_payload : list byte;
}.

Definition decode_publisher_input_frame (bytes : list byte)
    : result FrameError PublisherInputFrame :=
  if len bytes <? PUBLISHER_INPUT_HEADER_LEN then Err TooShort
  else if negb (bool_decide (byte0 bytes = FRAME_TYPE_INPUT)) then Err (UnknownType (byte0 bytes))
  else Ok (mkPublisherInputFrame
             (uuid_from_bytes (sliceN 1 17 bytes))
             (be_combine (sliceN 17 25 bytes))
             (dropN PUBLISHER_INPUT_HEADER_LEN bytes)).

Definition encode_mirror_frame (start_offset : N) (payload : list byte) : list byte :=
  [FRAME_TYPE_OUTPUT] ++ be_bytes 8 start_offset ++ payload.

Record MirrorOutputFrame := mkMirrorOutputFrame {
  mof_start_offset : N;
  mof_payload : list byte;
}.

Definition decode_mirror_frame (bytes : list byte) : result FrameError MirrorOutputFrame :=
  if len bytes <? MIRROR_HEADER_LEN then Err TooShort
  else if negb (bool_decide (byte0 bytes = FRAME_TYPE_OUTPUT)) then Err (UnknownType (byte0 bytes))
  else Ok (mkMirrorOutputFrame (be_combine (sliceN 1 9 bytes))
                               (dropN MIRROR_HEADER_LEN bytes)).

(** ** The publisher crate's own pair ([publisher/src/protocol.rs]) *)

Definition encode_output_frame (terminal_id : Uuid) (expected_offset : N)
    (payload : list byte) : list byte :=
  [FRAME_TYPE_OUTPUT] ++ uuid_as_bytes terminal_id ++ be_bytes 8 expected_offset ++ payload.

Record InputFrame := mkInputFrame {
  if_terminal_id : Uuid;
  if_relay_sequence : N;
  if_payload : list byte;
}.

Definition decode_input_frame (bytes : list byte) : result FrameError InputFrame :=
  if len bytes <? PUBLISHER_INPUT_HEADER_LEN then Err TooShort
  else if negb (bool_decide (byte0 bytes = FRAME_TYPE_INPUT)) then Err (UnknownType (byte0 bytes))
  else Ok (mkInputFrame
             (uuid_from_bytes (sliceN 1 17 bytes))
             (be_combine (sliceN 17 25 bytes))
             (dropN PUBLISHER_INPUT_HEADER_LEN bytes)).

(** ** The two header shapes *)

Definition wide_header (tag : byte) (id seq : N) (payload : list byte) : list byte :=
  [tag] ++ uuid_as_bytes id ++ be_bytes 8 seq ++ payload.
Definition narrow_header (tag : byte) (seq : N) (payload : list byte) : list byte :=
  [tag] ++ be_bytes 8 seq ++ payload.

Lemma sliceN_mid {A} (a b c : list A) n m :
  len a = n → n + len b = m → sliceN n m (a ++ b ++ c) = b.
Proof.
  intros <- <-. unfold sliceN. rewrite dropN_app_ge, N.sub_diag, dropN_0 by lia.
  rewrite takeN_app_le by lia. apply takeN_ge. lia.
Qed.

Lemma dropN_head {A} (a b : list A) n : len a = n → dropN n (a ++ b) = b.
Proof. intros <-. rewrite dropN_app_ge, N.sub_diag by lia. apply dropN_0. Qed.

Section headers.
  Context (tag : byte) (seq : N) (payload : list byte).

Lemma narrow_header_len : len (narrow_header tag seq payload) = 9 + len payload.
  Proof. unfold narrow_header. len_lia. Qed.
Lemma wide_header_len id : len (wide_header tag id seq payload) = 25 + len payload.
  Proof. unfold wide_header, uuid_as_bytes. len_lia. Qed.

Lemma narrow_fields :
    seq < two64 →
    byte0 (narrow_header tag seq payload) = tag
    ∧ be_combine (sliceN 1 9 (narrow_header tag seq payload)) = seq
    ∧ dropN 9 (narrow_header tag seq payload) = payload.
  Proof.
    intros Hs. unfold narrow_header. split_and!; [done| |].
    - rewrite (sliceN_mid [tag]) by (rewrite ?len_be_bytes; done).
      by apply be_combine_bytes.
    - rewrite app_assoc. apply dropN_head. len_lia.
  Qed.

Lemma wide_fields id :
    id < two128 → seq < two64 →
    byte0 (wide_header tag id seq payload) = tag
    ∧ uuid_from_bytes (sliceN 1 17 (wide_header tag id seq payload)) = id
    ∧ be_combine (sliceN 17 25 (wide_header tag id seq payload)) = seq
    ∧ dropN 25 (wide_header tag id seq payload) = payload.
  Proof.
    intros Hid Hs. unfold wide_header, uuid_as_bytes, uuid_from_bytes. split_and!; [done| | |].
    - rewrite (sliceN_mid [tag]) by (rewrite ?len_be_bytes; done).
      by apply be_combine_bytes.
    - rewrite app_assoc, (sliceN_mid _ (be_bytes 8 seq)) by len_lia.
      by apply be_combine_bytes.
    - rewrite !app_assoc. apply dropN_head. len_lia.
  Qed.
End headers.

(** A byte string at least as long as the header is its own header's fields. *)
Lemma narrow_reassemble bytes :
  9 ≤ len bytes →
  bytes = narrow_header (byte0 bytes) (be_combine (sliceN 1 9 bytes)) (dropN 9 bytes).
Proof.
  intros Hl. destruct bytes as [|b bytes]; [by rewrite len_nil in Hl|].
  unfold narrow_header. rewrite be_bytes_combine.
  - change (b :: bytes) with ([b] ++ bytes) at 1. cbn [byte0 head default]. f_equal.
    change (sliceN 1 9 (b :: bytes)) with (takeN 8 bytes).
    change (dropN 9 (b :: bytes)) with (dropN 8 bytes). by rewrite takeN_dropN.
  - apply Nat2N.inj. fold (len (sliceN 1 9 (b :: bytes))). len_lia.
Qed.

Lemma wide_reassemble bytes :
  25 ≤ len bytes →
  bytes = wide_header (byte0 bytes) (uuid_from_bytes (sliceN 1 17 bytes))
            (be_combine (sliceN 17 25 bytes)) (dropN 25 bytes).
Proof.
  intros Hl. destruct bytes as [|b bytes]; [by rewrite len_nil in Hl|].
  unfold wide_header, uuid_as_bytes, uuid_from_bytes. rewrite !be_bytes_combine.
  - change (b :: bytes) with ([b] ++ bytes) at 1. cbn [byte0 head default]. f_equal.
    change (sliceN 1 17 (b :: bytes)) with (sliceN 0 16 bytes).
    change (sliceN 17 25 (b :: bytes)) with (sliceN 16 24 bytes).
    change (dropN 25 (b :: bytes)) with (dropN 24 bytes).
    rewrite app_assoc, sliceN_split by lia.
    change (sliceN 0 24 bytes) with (takeN 24 bytes). by rewrite takeN_dropN.
  - apply Nat2N.inj. fold (len (sliceN 17 25 (b :: bytes))). len_lia.
  - apply Nat2N.inj. fold (len (sliceN 1 17 (b :: bytes))). len_lia.
Qed.

(** ** Decoding at one shape *)

(** The body the decoders share: the length check, the type check, the fields. *)
Lemma wide_decode {A} (tag : byte) (mk : N → N → list byte → A) bytes a :
  (if len bytes <? 25 then Err TooShort
   else if negb (bool_decide (byte0 bytes = tag)) then Err (UnknownType (byte0 bytes))
   else Ok (mk (uuid_from_bytes (sliceN 1 17 bytes)) (be_combine (sliceN 17 25 bytes))
               (dropN 25 bytes))) = Ok a
  ↔ ∃ id seq p, id < two128 ∧ seq < two64 ∧ bytes = wide_header tag id seq p ∧ a = mk id seq p.
Proof.
  split.
  - case_N; [done|]. case_bool_decide; [|done]. intros [= <-].
    exists (uuid_from_bytes (sliceN 1 17 bytes)), (be_combine (sliceN 17 25 bytes)), (dropN 25 bytes).
    split_and!; [| | |done].
    + pose proof (be_combine_lt (sliceN 1 17 bytes)) as Hb.
      replace (len (sliceN 1 17 bytes)) with 16 in Hb by len_lia. exact Hb.
    + pose proof (be_combine_lt (sliceN 17 25 bytes)) as Hb.
      replace (len (sliceN 17 25 bytes)) with 8 in Hb by len_lia. exact Hb.
    + subst tag. by apply wide_reassemble.
  - intros (id & seq & p & Hid & Hs & -> & ->).
    destruct (wide_fields tag seq p id Hid Hs) as (-> & -> & -> & ->).
    rewrite wide_header_len. case_N; [lia|]. by rewrite bool_decide_eq_true_2.
Qed.

Lemma narrow_decode {A} (tag : byte) (mk : N → list byte → A) bytes a :
  (if len bytes <? 9 then Err TooShort
   else if negb (bool_decide (byte0 bytes = tag)) then Err (UnknownType (byte0 bytes))
   else Ok (mk (be_combine (sliceN 1 9 bytes)) (dropN 9 bytes))) = Ok a
  ↔ ∃ seq p, seq < two64 ∧ bytes = narrow_header tag seq p ∧ a = mk seq p.
Proof.
  split.
  - case_N; [done|]. case_bool_decide; [|done]. intros [= <-].
    exists (be_combine (sliceN 1 9 bytes)), (dropN 9 bytes). split_and!; [| |done].
    + pose proof (be_combine_lt (sliceN 1 9 bytes)) as Hb.
      replace (len (sliceN 1 9 bytes)) with 8 in Hb by len_lia. exact Hb.
    + subst tag. by apply narrow_reassemble.
  - intros (seq & p & Hs & -> & ->).
    destruct (narrow_fields tag seq p Hs) as (-> & -> & ->).
    rewrite narrow_header_len. case_N; [lia|]. by rewrite bool_decide_eq_true_2.
Qed.

(** ** Properties *)

(** Each decoder accepts exactly the byte strings its encoder produces
    from an in-range identifier and offset or sequence, and recovers the
    fields: decoding is a left and a right inverse of encoding, whatever bytes
    the payload holds. *)
Theorem frames_decode_exact (bytes : list byte) :
  (∀ f, decode_publisher_frame bytes = Ok f ↔
     pof_terminal_id f < two128 ∧ pof_expected_offset f < two64
     ∧ bytes = encode_publisher_frame (pof_terminal_id f) (pof_expected_offset f) (pof_payload f))
  ∧ (∀ f, decode_publisher_input_frame bytes = Ok f ↔
     pif_terminal_id f < two128 ∧ pif_relay_sequence f < two64
     ∧ bytes = encode_publisher_input_frame (pif_terminal_id f) (pif_relay_sequence f)
                 (pif_payload f))
  ∧ (∀ f, decode_mirror_frame bytes = Ok f ↔
     mof_start_offset f < two64
     ∧ bytes = encode_mirror_frame (mof_start_offset f) (mof_payload f))
  ∧ (∀ f, decode_mirror_input_frame bytes = Ok f ↔
     mif_client_sequence f < two64
     ∧ bytes = encode_mirror_input_frame (mif_client_sequence f) (mif_payload f)).
Proof.
  split_and!; intros f.
  - etrans; [apply (wide_decode _ mkPublisherOutputFrame)|]. split.
    + by intros (id & seq & p & ? & ? & ? & ->).
    + intros (? & ? & ?). by destruct f; do 3 eexists.
  - etrans; [apply (wide_decode _ mkPublisherInputFrame)|]. split.
    + by intros (id & seq & p & ? & ? & ? & ->).
    + intros (? & ? & ?). by destruct f; do 3 eexists.
  - etrans; [apply (narrow_decode _ mkMirrorOutputFrame)|]. split.
    + by intros (seq & p & ? & ? & ->).
    + intros (? & ?). by destruct f; do 2 eexists.
  - etrans; [apply (narrow_decode _ mkMirrorInputFrame)|]. split.
    + by intros (seq & p & ? & ? & ->).
    + intros (? & ?). by destruct f; do 2 eexists.
Qed.

(** The two crates agree on the wire: what the publisher encodes the
    relay decodes to the same terminal, offset and payload, and the input
    frame the relay encodes the publisher decodes to the same terminal,
    sequence and payload. *)
Theorem crates_agree_on_frames (id seq : N) (payload : list byte) :
  id < two128 → seq < two64 →
  decode_publisher_frame (encode_output_frame id seq payload)
    = Ok (mkPublisherOutputFrame id seq payload)
  ∧ decode_input_frame (encode_publisher_input_frame id seq payload)
    = Ok (mkInputFrame id seq payload).
Proof.
  intros Hid Hs. split.
  - apply (wide_decode _ mkPublisherOutputFrame). by do 3 eexists.
  - apply (wide_decode _ mkInputFrame). by do 3 eexists.
Qed.

Lemma crates_agree_on_frames_witness :
  decode_publisher_frame (encode_output_frame 7 48120 [x1b; xff])
    = Ok (mkPublisherOutputFrame 7 48120 [x1b; xff])
  ∧ decode_input_frame (encode_publisher_input_frame 7 48120 [x1b; xff])
    = Ok (mkInputFrame 7 48120 [x1b; xff]).
Proof. apply (crates_agree_on_frames 7 48120 [x1b; xff]); reflexivity. Defined.

(** Input and output never mix: no byte string is accepted both as output
    and as input of the same width, so a peer can never append control bytes
    to a stream, and every refusal says whether the frame was short or of an
    unknown type. *)
Theorem frame_directions_disjoint (bytes : list byte) :
  (∀ f g, decode_publisher_frame bytes = Ok f → decode_publisher_input_frame bytes = Ok g → False)
  ∧ (∀ f g, decode_mirror_frame bytes = Ok f → decode_mirror_input_frame bytes = Ok g → False)
  ∧ (∀ f, decode_mirror_frame (encode_mirror_input_frame f bytes) = Err (UnknownType FRAME_TYPE_INPUT))
  ∧ (decode_mirror_input_frame bytes = Err TooShort ↔ len bytes < MIRROR_INPUT_HEADER_LEN).
Proof.
  split_and!.
  - intros f g (? & ? & ? & _ & _ & -> & _)%(wide_decode _ mkPublisherOutputFrame)
      (? & ? & ? & _ & _ & [=] & _)%(wide_decode _ mkPublisherInputFrame).
  - intros f g (? & ? & _ & -> & _)%(narrow_decode _ mkMirrorOutputFrame)
      (? & ? & _ & [=] & _)%(narrow_decode _ mkMirrorInputFrame).
  - intros f. unfold decode_mirror_frame.
    change (encode_mirror_input_frame f bytes) with (narrow_header FRAME_TYPE_INPUT f bytes).
    rewrite narrow_header_len. unfold MIRROR_HEADER_LEN. case_N; [lia|done].
  - unfold decode_mirror_input_frame. case_N; [done|].
    case_bool_decide; simpl; split; intros; try done; lia.
Qed.
