(* ===== verification/Messages.v ===== *)
(** * Control messages and version negotiation
      ([server/src/relay/messages.rs])

    The message types of both protocols with the source's constructors, the
    close and error codes, [ProtocolVersion] and [classify]. [serde_json] is
    not modelled: what the code uses of it is the interface [JsonApi], and
    [classify] is proved against that interface. *)

From S2P Require Export Prelude.
From stdpp Require Import pretty.

Open Scope N_scope.
Open Scope hype_scope.

Definition SUBPROTOCOL_PUBLISHER_V1 : text := lit "terminal-relay.publisher.v1".
Definition SUBPROTOCOL_PUBLISHER_V2 : text := lit "terminal-relay.publisher.v2".
Definition SUBPROTOCOL_MIRROR_V1 : text := lit "terminal-relay.mirror.v1".
Definition SUBPROTOCOL_MIRROR_V2 : text := lit "terminal-relay.mirror.v2".

Inductive ProtocolVersion := V1 | V2.
#[export] Instance ProtocolVersion_eq_dec : EqDecision ProtocolVersion.
Proof. solve_decision. Defined.

(** [str::split]: the pieces between the separators, always at least one. *)
Fixpoint split_on (sep : N) (t : text) : list text :=
  match t with
  | [] => [[]]
  | c :: t' =>
      let rest := split_on sep t' in
      if c =? sep then [] :: rest
      else match rest with p :: ps => (c :: p) :: ps | [] => [[c]] end
  end.

(** The [for] loop of [negotiate], with its early return. *)
Fixpoint negotiate_loop (candidates : list text) (v1 v2 : text)
    (best : option ProtocolVersion) : option ProtocolVersion :=
  match candidates with
  | [] => best
  | candidate :: rest =>
      let candidate := trim candidate in
      if bool_decide (candidate = v2) then Some V2
      else negotiate_loop rest v1 v2
             (if bool_decide (candidate = v1) then Some V1 else best)
  end.
Definition negotiate (offered v1 v2 : text) : option ProtocolVersion :=
  negotiate_loop (split_on 44 offered) v1 v2 None.

Definition publisher_subprotocol (v : ProtocolVersion) : text :=
  match v with V1 => SUBPROTOCOL_PUBLISHER_V1 | V2 => SUBPROTOCOL_PUBLISHER_V2 end.
Definition mirror_subprotocol (v : ProtocolVersion) : text :=
  match v with V1 => SUBPROTOCOL_MIRROR_V1 | V2 => SUBPROTOCOL_MIRROR_V2 end.
(** [*self >= ProtocolVersion::V2] under the derived order. *)
Definition supports_input (v : ProtocolVersion) : bool :=
  match v with V1 => false | V2 => true end.

(** ** Close codes ([pub mod close]) and error codes ([pub mod error_code]) *)

Module close.
Definition PROTOCOL_ERROR : N := 1002.
Definition NORMAL : N := 1000.
Definition GOING_AWAY : N := 1001.
Definition UNAUTHORIZED : N := 4001.
Definition SUPERSEDED : N := 4002.
Definition SLOW_CONSUMER : N := 4003.
Definition STORAGE_UNAVAILABLE : N := 4004.
Definition OFFSET_AHEAD : N := 4005.
Definition REVOKED : N := 4006.
Definition SERVER_SHUTDOWN : N := 4007.
Definition LIMIT_EXCEEDED : N := 4008.
Definition HEARTBEAT_TIMEOUT : N := 4009.
Definition NOT_FOUND : N := 4011.
Definition RATE_LIMITED : N := 4012.
Definition FEATURE_DISABLED : N := 4013.
Definition HANDSHAKE_TIMEOUT : N := 4014.
Definition TERMINAL_CLOSED : N := 4015.
End close.

Inductive error_code :=
| OFFSET_MISMATCH | OFFSET_AHEAD | STORAGE_UNAVAILABLE | TERMINAL_NOT_FOUND
| TERMINAL_CLOSED | LIMIT_EXCEEDED | INVALID_MESSAGE | UNKNOWN_MESSAGE_TYPE
| VALIDATION_FAILED | SUPERSEDED | SLOW_CONSUMER | REVOKED | SERVER_SHUTDOWN
| FEATURE_DISABLED | ALREADY_SUBSCRIBED | HANDSHAKE_TIMEOUT
| INPUT_UNDELIVERABLE | INPUT_BACKPRESSURE | INPUT_NOT_ACCEPTED | INPUT_FORBIDDEN
| INPUT_DISABLED | INPUT_SEQUENCE_MISMATCH | RESIZE_REFUSED | RATE_LIMITED.
#[export] Instance error_code_eq_dec : EqDecision error_code.
Proof. solve_decision. Defined.

(** The strings the constants stand for. *)
Definition error_code_str (c : error_code) : string :=
  match c with
  | OFFSET_MISMATCH => "offset_mismatch"
  | OFFSET_AHEAD => "offset_ahead"
  | STORAGE_UNAVAILABLE => "storage_unavailable"
  | TERMINAL_NOT_FOUND => "terminal_not_found"
  | TERMINAL_CLOSED => "terminal_closed"
  | LIMIT_EXCEEDED => "limit_exceeded"
  | INVALID_MESSAGE => "invalid_message"
  | UNKNOWN_MESSAGE_TYPE => "unknown_message_type"
  | VALIDATION_FAILED => "validation_failed"
  | SUPERSEDED => "superseded"
  | SLOW_CONSUMER => "slow_consumer"
  | REVOKED => "revoked"
  | SERVER_SHUTDOWN => "server_shutdown"
  | FEATURE_DISABLED => "feature_disabled"
  | ALREADY_SUBSCRIBED => "already_subscribed"
  | HANDSHAKE_TIMEOUT => "handshake_timeout"
  | INPUT_UNDELIVERABLE => "input_undeliverable"
  | INPUT_BACKPRESSURE => "input_backpressure"
  | INPUT_NOT_ACCEPTED => "input_not_accepted"
  | INPUT_FORBIDDEN => "input_forbidden"
  | INPUT_DISABLED => "input_disabled"
  | INPUT_SEQUENCE_MISMATCH => "input_sequence_mismatch"
  | RESIZE_REFUSED => "resize_refused"
  | RATE_LIMITED => "rate_limited"
  end.

(** ** Inbound messages *)

Inductive PublisherMessage :=
| POpen (request_id local_ref : text) (label : option text) (cols rows : option N)
    (term process_label : option text) (accepts_input : option bool)
    (in_reply_to : option text)
| PResize (terminal_id : Uuid) (cols rows : N)
| PClose (terminal_id : Uuid) (reason : option text)
| POpenDeclined (in_reply_to reason : text) (detail : option text)
| PCapabilities (terminal_open_requests : bool)
| PPong.

Inductive MirrorMessage :=
| MSubscribe (from_offset : option N)
| MResizeRequest (cols rows : N)
| MPong.

Inductive Inbound (T : Type) :=
| Message (m : T)
| Ignorable (kind : text)
| Rejected (detail : text).
Arguments Message {T} m.
Arguments Ignorable {T} kind.
Arguments Rejected {T} detail.

(** What the code uses of [serde_json], for messages of type [T]. *)
Class JsonApi (T : Type) := {
  Value : Type;
  from_str : text → result text Value;
  is_object : Value → bool;
  get : Value → string → option Value;
  as_str : Value → option text;
  as_bool : Value → option bool;
  from_value : Value → result text T;
}.

Definition classify {T} `{JsonApi T} (txt : text) : Inbound T :=
  match from_str txt with
  | Err e => Rejected (lit "control message is not valid JSON: " ++ e)
  | Ok value =>
      if negb (is_object value) then Rejected (lit "control message must be a JSON object")
      else match get value "type" ≫= as_str with
           | None => Rejected (lit "control message is missing a type")
           | Some kind =>
               match from_value value with
               | Ok message => Message message
               | Err e =>
                   let optional := default false (get value "optional" ≫= as_bool) in
                   if optional then Ignorable kind
                   else Rejected (kind ++ lit ": " ++ e)
               end
           end
  end.

(** ** Outbound messages *)

Record PublisherLimits := mkPublisherLimits {
  max_output_frame_bytes : N;
  max_unacked_output_bytes : N;
  max_control_message_bytes : N;
  max_active_terminals : N;
  replay_capacity_bytes : N;
  heartbeat_interval_seconds : N;
  heartbeat_timeout_seconds : N;
  max_input_frame_bytes : option N;
}.

Inductive ServerMessage :=
| Ready (connection_id : text) (protocol : text) (device_id : option Uuid)
    (limits : PublisherLimits) (settings_revision : Z)
| TerminalOpened (request_id : text) (terminal_id : Uuid) (local_ref : text)
    (next_offset durable_offset earliest_offset : N) (deduplicated accepts_input : bool)
| TerminalOpenRequest (request_id : text) (label : option text) (cols rows : option N)
| OutputAck (terminal_id : Uuid) (durable_offset next_offset : N)
| Subscribed (terminal_id : Uuid)
    (requested_from_offset replay_start_offset next_offset durable_offset earliest_offset : N)
    (terminal_state : string) (label : text) (cols rows : option N) (term : option text)
    (accepts_input input_available : option bool)
| Gap (terminal_id : Uuid) (requested_from_offset available_from_offset : N)
| Durable (durable_offset : N)
| InputAck (accepted_through relay_sequence : N)
| TerminalResizeRequest (terminal_id : Uuid) (cols rows : N)
| TerminalResize (terminal_id : Uuid) (cols rows : N)
| TerminalClosed (terminal_id : Uuid) (reason : text) (next_offset durable_offset : N)
| SNotice (code : error_code) (message : text)
| SError (code : error_code) (message : text) (terminal_id : option Uuid)
    (request_id : option text) (next_offset durable_offset : option N)
| SPing (at_unix_ms : Z).

Definition msg_error (code : error_code) (message : text) : ServerMessage :=
  SError code message None None None None.
Definition msg_terminal_error (code : error_code) (message : text) (terminal_id : Uuid)
    : ServerMessage :=
  SError code message (Some terminal_id) None None None.
Definition msg_offset_mismatch (terminal_id : Uuid) (next_offset durable_offset : N)
    : ServerMessage :=
  SError OFFSET_MISMATCH
    (lit "output frame start offset does not match the authoritative next_offset")
    (Some terminal_id) None (Some next_offset) (Some durable_offset).
(** The literal [ServerMessage::Error] the publisher session answers requests with. *)
Definition msg_request_error (code : error_code) (message : text) (request_id : option text)
    : ServerMessage :=
  SError code message None request_id None None.

(** ** Lemmas *)

Lemma negotiate_loop_spec cs v1 v2 best :
  negotiate_loop cs v1 v2 best =
    if bool_decide (v2 ∈ (trim <$> cs)) then Some V2
    else if bool_decide (v1 ∈ (trim <$> cs)) then Some V1 else best.
Proof.
  revert best. induction cs as [|c cs IH]; intros best; [done|].
  cbn [negotiate_loop]. rewrite IH, fmap_cons. clear IH.
  repeat case_bool_decide; rewrite elem_of_cons in *; naive_solver.
Qed.

(** Negotiation picks the highest version the client offered: version 2
    exactly when its name is among the trimmed comma-separated candidates,
    version 1 exactly when only that one is, wherever in the list, and nothing
    otherwise. *)
Theorem negotiate_highest (offered v1 v2 : text) :
  let offers v := v ∈ (trim <$> split_on 44 offered) in
  (negotiate offered v1 v2 = Some V2 ↔ offers v2)
  ∧ (negotiate offered v1 v2 = Some V1 ↔ offers v1 ∧ ¬ offers v2)
  ∧ (negotiate offered v1 v2 = None ↔ ¬ offers v1 ∧ ¬ offers v2).
Proof.
  simpl. unfold negotiate. rewrite negotiate_loop_spec.
  repeat case_bool_decide; naive_solver.
Qed.

(** A control message is only ever skipped when its sender marked it
    optional and it is not one this version knows; everything else that does
    not parse is refused, so no required message is silently dropped. *)
Theorem classify_skips_only_optional {T} `{JsonApi T} (txt : text) :
  (∀ kind, classify txt = Ignorable (T := T) kind →
     ∃ value e, from_str txt = Ok value ∧ is_object value = true
       ∧ get value "type" ≫= as_str = Some kind
       ∧ from_value value = Err e ∧ get value "optional" ≫= as_bool = Some true)
  ∧ (∀ value m, from_str txt = Ok value → is_object value = true →
       is_Some (get value "type" ≫= as_str) → from_value value = Ok m →
       classify txt = Message m).
Proof.
  unfold classify. split.
  - intros kind. destruct (from_str txt) as [value|]; [|done].
    destruct (is_object value) eqn:Ho; [|done]. simpl.
    destruct (get value "type" ≫= as_str) as [k|] eqn:Hk; [|done].
    destruct (from_value value) as [|e] eqn:Hv; [done|].
    destruct (get value "optional" ≫= as_bool) as [[]|] eqn:Hb; try done.
    intros [= <-]. eauto 10.
  - intros value m -> Ho [k Hk] Hv. by rewrite Ho, Hk, Hv.
Qed.
