(* ===== verification/Wsio.v ===== *)
(** * The connection writer and the heartbeat ([server/src/relay/wsio.rs])

    Every connection funnels its writes through one queue, drained by one
    task. [WsWriter] is the queue's sending side: what was queued so far and
    whether the task is gone. [writer_task] is the task itself. *)

From S2P Require Export Prelude Messages.

Open Scope N_scope.
Open Scope hype_scope.

Inductive WsOut :=
| OText (m : ServerMessage)
| OBinary (bytes : list byte)
| OPing
| OClose (code : N) (reason : string).

Record WsWriter := mkWsWriter {
  w_sent : list WsOut;
  (** The receiving task has ended: every further send fails. *)
  w_gone : bool;
}.

Definition w_push (o : WsOut) (w : WsWriter) : WsWriter * bool :=
  if w_gone w then (w, false) else (mkWsWriter (w_sent w ++ [o]) (w_gone w), true).

Definition w_send (m : ServerMessage) (w : WsWriter) : WsWriter * bool := w_push (OText m) w.
Definition w_send_binary (bytes : list byte) (w : WsWriter) : WsWriter * bool :=
  w_push (OBinary bytes) w.
Definition w_ping (w : WsWriter) : WsWriter * bool := w_push OPing w.
Definition w_close (code : N) (reason : string) (w : WsWriter) : WsWriter :=
  (w_push (OClose code reason) w).1.
Definition w_fail (m : ServerMessage) (code : N) (reason : string) (w : WsWriter) : WsWriter :=
  w_close code reason (w_send m w).1.

(** The task [spawn_writer] starts: forward what is queued until a close frame
    or the first failing write. [sink_ok i] is whether the socket accepts its
    [i]-th message. The result is what reached the socket. *)
Fixpoint writer_task (sink_ok : nat → bool) (i : nat) (queue : list WsOut) : list WsOut :=
  match queue with
  | [] => []
  | OClose code reason :: _ => if sink_ok i then [OClose code reason] else []
  | out :: rest => if sink_ok i then out :: writer_task sink_ok (S i) rest else []
  end.

Record Heartbeat := mkHeartbeat {
  hb_last_seen : N;
  hb_interval : N;
  hb_timeout : N;
}.

Definition hb_new (now interval timeout : N) : Heartbeat := mkHeartbeat now interval timeout.
Definition hb_touch (now : N) (h : Heartbeat) : Heartbeat :=
  mkHeartbeat now (hb_interval h) (hb_timeout h).
Definition hb_expired (now : N) (h : Heartbeat) : bool := hb_timeout h <? now - hb_last_seen h.
Definition hb_tighten (interval timeout : N) (h : Heartbeat) : Heartbeat :=
  mkHeartbeat (hb_last_seen h) (N.min (hb_interval h) interval) (N.min (hb_timeout h) timeout).

Definition is_close (o : WsOut) : bool := match o with OClose _ _ => true | _ => false end.

Lemma w_push_sent o w : w_gone w = false → w_sent (w_push o w).1 = w_sent w ++ [o].
Proof. intros H. unfold w_push. by rewrite H. Qed.
Lemma w_push_gone o w : w_gone (w_push o w).1 = w_gone w.
Proof. by destruct w as [? []]. Qed.
Lemma w_push_prefix o w : w_sent w `prefix_of` w_sent (w_push o w).1.
Proof. unfold w_push. destruct (w_gone w); simpl; [done|]. by eexists. Qed.

(** What reaches the socket is a prefix of what was queued, in order, and
    nothing is ever sent after a close frame. *)
Theorem writer_task_ordered (sink_ok : nat → bool) (i : nat) (queue : list WsOut) :
  writer_task sink_ok i queue `prefix_of` queue
  ∧ (∀ before o after, writer_task sink_ok i queue = before ++ o :: after →
       is_close o = true → after = []).
Proof.
  revert i. induction queue as [|out queue IH]; intros i.
  - split; [done|]. intros [] ? ?; done.
  - destruct (IH (S i)) as [IHp IHc].
    assert (is_close out = false →
      writer_task sink_ok i (out :: queue) =
        if sink_ok i then out :: writer_task sink_ok (S i) queue else []) as Hgo
      by (by destruct out).
    destruct (is_close out) eqn:Hout.
    + destruct out; try done. simpl. destruct (sink_ok i).
      * split; [apply prefix_cons, prefix_nil|].
        intros [|? before] o after [= ? Htl]; [done|]. by destruct before.
      * split; [apply prefix_nil|]. intros [] ? ?; done.
    + rewrite Hgo by done. destruct (sink_ok i); [|split; [apply prefix_nil|by intros [] ? ?]].
      split; [by apply prefix_cons|]. intros [|? before] o after [= -> Htl] Ho; [congruence|].
      eauto.
Qed.
