(* ===== verification/Errors.v ===== *)
(** * API errors ([server/src/error.rs])

    [ApiError] with the constructors the modelled code uses. *)

From S2P Require Export Prelude.

Open Scope N_scope.

Record ApiError := mkApiError {
  ae_status : N;
  ae_code : string;
  ae_message : text;
  ae_retry_after : option N;
  ae_www_authenticate : option string;
}.

Definition api_new (status : N) (code : string) (message : text) : ApiError :=
  mkApiError status code message None None.

Definition api_invalid (m : text) : ApiError := api_new 400 "invalid_request" m.
Definition api_validation (m : text) : ApiError := api_new 422 "validation_failed" m.
Definition api_unauthorized (m : text) : ApiError :=
  let e := api_new 401 "unauthorized" m in
  mkApiError (ae_status e) (ae_code e) (ae_message e) (ae_retry_after e) (Some "Bearer"%string).
Definition api_insufficient_scope (m : text) : ApiError := api_new 403 "insufficient_scope" m.
Definition api_not_found : ApiError := api_new 404 "not_found" (lit "Resource not found").
Definition api_conflict (m : text) : ApiError := api_new 409 "conflict" m.
Definition api_rate_limited (retry_after : N) : ApiError :=
  mkApiError 429 "rate_limited" (lit "Rate limit exceeded") (Some retry_after) None.
Definition api_limit_exceeded (m : text) : ApiError := api_new 409 "limit_exceeded" m.
Definition api_idempotency_key_required (m : text) : ApiError :=
  api_new 400 "idempotency_key_required" m.
Definition api_publisher_unavailable (m : text) : ApiError :=
  let e := api_new 503 "publisher_unavailable" m in
  mkApiError (ae_status e) (ae_code e) (ae_message e) (Some 5) (ae_www_authenticate e).
Definition api_publisher_declined (m : text) : ApiError := api_new 502 "publisher_declined" m.
Definition api_publisher_timeout (m : text) : ApiError := api_new 504 "publisher_timeout" m.
Definition api_internal (m : text) : ApiError := api_new 500 "internal_error" m.
Definition api_storage_unavailable (m : text) : ApiError := api_new 503 "storage_unavailable" m.
Definition with_code (code : string) (e : ApiError) : ApiError :=
  mkApiError (ae_status e) code (ae_message e) (ae_retry_after e) (ae_www_authenticate e).

(** [impl From<rusqlite::Error>]: the text of the database error is the
    database's. *)
Definition api_database_error (e : text) : ApiError :=
  api_internal (lit "database error: " ++ e).

Abbreviation ApiResult := (result ApiError).
