(* ===== verification/Repo.v ===== *)
(** * Durable terminal state ([server/src/db/repo.rs], [schema.sql])

    The two tables the relay keeps terminals in, with the constraints the
    schema declares (primary keys, the partial unique index on open
    [local_ref]s, [UNIQUE (terminal_id, start_offset)], the foreign key and
    [CHECK (earliest_offset <= durable_offset)]), and one definition per
    statement of [repo.rs] over them. Columns hold the SQL values ([i64] as
    [Z]); timestamps are [N] microseconds passed in. Output rows of a terminal
    are kept in the order of [ORDER BY start_offset]. The invariant
    [output_repr] says what a terminal's rows hold: exactly the bytes of its
    output between [earliest_offset] and [durable_offset]. *)

From S2P Require Export Prelude Errors.

Open Scope N_scope.
Open Scope hype_scope.

Inductive TerminalState := StOpen | StClosed.
#[export] Instance TerminalState_eq_dec : EqDecision TerminalState.
Proof. solve_decision. Defined.

Definition state_as_str (s : TerminalState) : string :=
  match s with StOpen => "open" | StClosed => "closed" end.
Definition state_parse (s : string) : option TerminalState :=
  if bool_decide (s = "open"%string) then Some StOpen
  else if bool_decide (s = "closed"%string) then Some StClosed
  else None.

Record TerminalRow := mkTerminalRow {
  t_terminal_id : Uuid;
  t_device_id : Uuid;
  t_identity_id : text;
  t_label : text;
  t_local_ref : text;
  t_state : TerminalState;
  t_cols : option N;
  t_rows : option N;
  t_term : option text;
  t_process_label : option text;
  t_accepts_input : bool;
  t_created_at : N;
  t_last_activity_at : N;
  t_closed_at : option N;
  t_close_reason : option text;
  t_durable_offset : N;
  t_earliest_offset : N;
}.

(** ** The tables *)

(** A row of [terminals]; its [terminal_id] is the key it is stored under. *)
Record TerminalRec := mkTerminalRec {
  c_device_id : Uuid;
  c_identity_id : text;
  c_label : text;
  c_local_ref : text;
  c_state : string;
  c_cols : option Z;
  c_rows : option Z;
  c_term : option text;
  c_process_label : option text;
  c_accepts_input : Z;
  c_origin : string;
  c_requested_by_principal : option text;
  c_created_at : N;
  c_last_activity_at : N;
  c_closed_at : option N;
  c_close_reason : option text;
  c_durable_offset : Z;
  c_earliest_offset : Z;
}.

(** A row of [terminal_output]. *)
Record OutputRow := mkOutputRow {
  o_start : Z;
  o_end : Z;
  o_bytes : list byte;
}.

Record Tables := mkTables {
  tb_terminals : gmap Uuid TerminalRec;
  tb_output : gmap Uuid (list OutputRow);
}.

Definition tb_empty : Tables := mkTables ∅ ∅.

Definition output_of (tb : Tables) (id : Uuid) : list OutputRow := default [] (tb_output tb !! id).
Definition set_output (id : Uuid) (rows : list OutputRow) (tb : Tables) : Tables :=
  mkTables (tb_terminals tb) (<[id := rows]> (tb_output tb)).
Definition update_rec (id : Uuid) (f : TerminalRec → TerminalRec) (tb : Tables) : Tables :=
  mkTables (alter f id (tb_terminals tb)) (tb_output tb).

(** [TerminalRow::from_row] *)
Definition as_u32 (z : Z) : N := Z.to_N (z mod 4294967296).
Definition row_from_rec (id : Uuid) (c : TerminalRec) : TerminalRow :=
  mkTerminalRow id (c_device_id c) (c_identity_id c) (c_label c) (c_local_ref c)
    (default StClosed (state_parse (c_state c)))
    (as_u32 <$> c_cols c) (as_u32 <$> c_rows c)
    (c_term c) (c_process_label c)
    (negb (Z.eqb (c_accepts_input c) 0))
    (c_created_at c) (c_last_activity_at c) (c_closed_at c) (c_close_reason c)
    (of_i64 (c_durable_offset c)) (of_i64 (c_earliest_offset c)).

Definition is_open (c : TerminalRec) : bool := bool_decide (c_state c = "open"%string).

(** [SELECT ... WHERE p], in the order the table yields its rows. *)
Definition select_rows (p : TerminalRec → bool) (tb : Tables) : list TerminalRow :=
  (λ '(id, c), row_from_rec id c) <$> filter (λ '(_, c), p c = true) (map_to_list (tb_terminals tb)).

Definition find_open_terminal_by_local_ref (device_id : Uuid) (local_ref : text) (tb : Tables)
    : option TerminalRow :=
  head (select_rows (λ c, bool_decide (c_device_id c = device_id)
                          && bool_decide (c_local_ref c = local_ref) && is_open c) tb).

Definition get_terminal (terminal_id : Uuid) (tb : Tables) : option TerminalRow :=
  row_from_rec terminal_id <$> tb_terminals tb !! terminal_id.

Definition count_open_terminals_for_device (device_id : Uuid) (tb : Tables) : Z :=
  Z.of_nat (length (select_rows (λ c, bool_decide (c_device_id c = device_id) && is_open c) tb)).

(** [terminal_id] is the random [Uuid::new_v4()], [now] the clock. *)
Definition insert_terminal (terminal_id : Uuid) (now : N) (device_id : Uuid)
    (identity_id local_ref label : text) (cols rows : option N)
    (term process_label : option text) (accepts_input : bool) (origin : string)
    (requested_by_principal : option text) (tb : Tables) : ApiResult (TerminalRow * Tables) :=
  if bool_decide (is_Some (tb_terminals tb !! terminal_id)) then
    Err (api_database_error (lit "UNIQUE constraint failed: terminals.terminal_id"))
  else if bool_decide (is_Some (find_open_terminal_by_local_ref device_id local_ref tb)) then
    Err (api_database_error (lit "UNIQUE constraint failed: terminals.device_id, terminals.local_ref"))
  else
    Ok (mkTerminalRow terminal_id device_id identity_id label local_ref StOpen cols rows term
          process_label accepts_input now now None None 0 0,
        mkTables
          (<[terminal_id :=
              mkTerminalRec device_id identity_id label local_ref "open"
                (Z.of_N <$> cols) (Z.of_N <$> rows) term process_label
                (if accepts_input then 1 else 0)%Z origin requested_by_principal
                now now None None 0 0]> (tb_terminals tb))
          (tb_output tb)).

Definition update_terminal_size (terminal_id : Uuid) (cols rows : N) (now : N) (tb : Tables) : Tables :=
  update_rec terminal_id (λ c,
    mkTerminalRec (c_device_id c) (c_identity_id c) (c_label c) (c_local_ref c) (c_state c)
      (Some (Z.of_N cols)) (Some (Z.of_N rows)) (c_term c) (c_process_label c)
      (c_accepts_input c) (c_origin c) (c_requested_by_principal c) (c_created_at c) now
      (c_closed_at c) (c_close_reason c) (c_durable_offset c) (c_earliest_offset c)) tb.

Definition list_open_terminals (tb : Tables) : list TerminalRow := select_rows is_open tb.
Definition list_open_terminals_for_device (device_id : Uuid) (tb : Tables) : list TerminalRow :=
  select_rows (λ c, bool_decide (c_device_id c = device_id) && is_open c) tb.

(** The loop of [load_terminal_output]; [expected] is where the next byte
    must come from. *)
Fixpoint load_loop (rows : list OutputRow) (expected : N) (out : list byte)
    : ApiResult (list byte) :=
  match rows with
  | [] => Ok out
  | row :: rest =>
      let start := of_i64 (o_start row) in
      let skip := expected - start in
      if expected <? start then
        Err (api_internal (lit "gap in stored output at offset " ++ lit (pretty.pretty expected)))
      else if len (o_bytes row) <=? skip then load_loop rest expected out
      else load_loop rest (start +₆₄ len (o_bytes row)) (out ++ dropN skip (o_bytes row))
  end.
Definition load_terminal_output (terminal_id : Uuid) (earliest_offset : N) (tb : Tables)
    : ApiResult (list byte) :=
  load_loop (filter (λ r, (as_i64 earliest_offset < o_end r)%Z) (output_of tb terminal_id))
    earliest_offset [].

(** ** Checkpoints *)

Record TerminalCheckpoint := mkTerminalCheckpoint {
  k_terminal_id : Uuid;
  k_chunk_start : N;
  k_chunk : list byte;
  k_earliest_offset : N;
  k_durable_offset : N;
  k_last_activity : N;
  k_close_reason : option text;
}.

Fixpoint insert_sorted (r : OutputRow) (rows : list OutputRow) : list OutputRow :=
  match rows with
  | [] => [r]
  | r' :: rest => if (o_start r <? o_start r')%Z then r :: rows else r' :: insert_sorted r rest
  end.

(** [INSERT INTO terminal_output]: the foreign key and the unique index. *)
Definition insert_output (id : Uuid) (r : OutputRow) (tb : Tables) : ApiResult Tables :=
  if negb (bool_decide (is_Some (tb_terminals tb !! id))) then
    Err (api_database_error (lit "FOREIGN KEY constraint failed"))
  else if existsb (λ r', Z.eqb (o_start r') (o_start r)) (output_of tb id) then
    Err (api_database_error (lit "UNIQUE constraint failed: terminal_output"))
  else Ok (set_output id (insert_sorted r (output_of tb id)) tb).

(** [UPDATE terminals SET durable_offset, earliest_offset, ...] of a
    checkpoint, with the table's [CHECK]. *)
Definition checkpoint_rec (k : TerminalCheckpoint) (now : N) (c : TerminalRec) : TerminalRec :=
  let '(state, closed_at, close_reason) :=
    match k_close_reason k with
    | Some reason => ("closed"%string, Some now, Some reason)
    | None => (c_state c, c_closed_at c, c_close_reason c)
    end in
  mkTerminalRec (c_device_id c) (c_identity_id c) (c_label c) (c_local_ref c) state
    (c_cols c) (c_rows c) (c_term c) (c_process_label c) (c_accepts_input c) (c_origin c)
    (c_requested_by_principal c) (c_created_at c) (k_last_activity k) closed_at close_reason
    (as_i64 (k_durable_offset k)) (as_i64 (k_earliest_offset k)).
Definition update_checkpoint (k : TerminalCheckpoint) (now : N) (tb : Tables) : ApiResult Tables :=
  if bool_decide (is_Some (tb_terminals tb !! k_terminal_id k))
     && (as_i64 (k_durable_offset k) <? as_i64 (k_earliest_offset k))%Z then
    Err (api_database_error (lit "CHECK constraint failed: earliest_offset <= durable_offset"))
  else Ok (update_rec (k_terminal_id k) (checkpoint_rec k now) tb).

(** [DELETE FROM terminal_output WHERE end_offset <= earliest] *)
Definition delete_below (id : Uuid) (earliest : Z) (tb : Tables) : N * Tables :=
  (len (filter (λ r, (o_end r ≤ earliest)%Z) (output_of tb id)),
   set_output id (filter (λ r, ¬ (o_end r ≤ earliest)%Z) (output_of tb id)) tb).

(** The at most one chunk across the boundary loses its evicted prefix. *)
Definition trim_straddling (id : Uuid) (earliest : Z) (tb : Tables) : ApiResult (N * Tables) :=
  match head (filter (λ r, (o_start r < earliest)%Z ∧ (earliest < o_end r)%Z) (output_of tb id)) with
  | Some r =>
      let skip := Z.to_N (Z.max (earliest - o_start r) 0) in
      if skip <? len (o_bytes r) then
        let tb := set_output id (filter (λ r', o_start r' ≠ o_start r) (output_of tb id)) tb in
        let? tb := insert_output id (mkOutputRow earliest (o_end r) (dropN skip (o_bytes r))) tb in
        Ok (2, tb)
      else Ok (0, tb)
  | None => Ok (0, tb)
  end.

(** The body of the loop of [commit_checkpoints]; the count is the rows
    written. *)
Definition commit_checkpoint (now : N) (k : TerminalCheckpoint) (tb : Tables)
    : ApiResult (N * Tables) :=
  let id := k_terminal_id k in
  let? (inserted, tb) :=
    (if is_empty (k_chunk k) then Ok (0, tb)
     else let? tb := insert_output id
            (mkOutputRow (as_i64 (k_chunk_start k)) (as_i64 (k_durable_offset k)) (k_chunk k)) tb in
          Ok (1, tb)) in
  let earliest := as_i64 (k_earliest_offset k) in
  let '(deleted, tb) := delete_below id earliest tb in
  let? (trimmed, tb) := trim_straddling id earliest tb in
  let? tb := update_checkpoint k now tb in
  Ok (inserted + deleted + trimmed + 1, tb).

Fixpoint commit_checkpoints (now : N) (batch : list TerminalCheckpoint) (tb : Tables)
    : ApiResult (N * Tables) :=
  match batch with
  | [] => Ok (0, tb)
  | k :: rest =>
      let? (n, tb) := commit_checkpoint now k tb in
      let? (m, tb) := commit_checkpoints now rest tb in
      Ok (n + m, tb)
  end.

Definition close_terminal_without_output (terminal_id : Uuid) (reason : text) (now : N)
    (tb : Tables) : Tables :=
  update_rec terminal_id (λ c,
    if is_open c then
      mkTerminalRec (c_device_id c) (c_identity_id c) (c_label c) (c_local_ref c) "closed"
        (c_cols c) (c_rows c) (c_term c) (c_process_label c) (c_accepts_input c) (c_origin c)
        (c_requested_by_principal c) (c_created_at c) (c_last_activity_at c)
        (Some now) (Some reason) (c_durable_offset c) (c_earliest_offset c)
    else c) tb.

Definition delete_terminal (terminal_id : Uuid) (tb : Tables) : Tables :=
  mkTables (delete terminal_id (tb_terminals tb)) (delete terminal_id (tb_output tb)).

Definition total_output_bytes (tb : Tables) : N :=
  map_fold (λ _ rows acc, foldr (λ r n, len (o_bytes r) + n) acc rows) 0 (tb_output tb).

(** ** What a terminal's output rows hold *)

(** Consecutive non-empty rows that hold [log]'s bytes from [from] to [to]. *)
Fixpoint covers (log : list byte) (from to : N) (rows : list OutputRow) : Prop :=
  match rows with
  | [] => from = to
  | r :: rest =>
      o_start r = Z.of_N from
      ∧ (Z.of_N from < o_end r)%Z
      ∧ o_bytes r = sliceN from (Z.to_N (o_end r)) log
      ∧ covers log (Z.to_N (o_end r)) to rest
  end.

Definition output_repr (log : list byte) (earliest durable : N) (rows : list OutputRow) : Prop :=
  covers log earliest durable rows ∧ durable ≤ len log ∧ len log < two63.

Lemma covers_le log from to rows : covers log from to rows → from ≤ to.
Proof.
  revert from. induction rows as [|r rows IH]; simpl; intros from; [lia|].
  intros (_ & ? & _ & Hc). apply IH in Hc. lia.
Qed.

(** Every row lies inside the covered range. *)
Lemma covers_bounds log from to rows r :
  covers log from to rows → r ∈ rows →
  (Z.of_N from ≤ o_start r)%Z ∧ (o_start r < o_end r)%Z ∧ (o_end r ≤ Z.of_N to)%Z.
Proof.
  revert from. induction rows as [|r' rows IH]; intros from; [by intros _ ?%elem_of_nil|].
  intros (Hs & He & _ & Hc) [->|Hin]%elem_of_cons.
  - apply covers_le in Hc. lia.
  - destruct (IH _ Hc Hin). lia.
Qed.

Lemma covers_app log from mid to rows1 rows2 :
  covers log from mid rows1 → covers log mid to rows2 → covers log from to (rows1 ++ rows2).
Proof.
  revert from. induction rows1 as [|r rows1 IH]; simpl; intros from.
  - by intros ->.
  - intros (? & ? & ? & ?) ?. eauto.
Qed.

Lemma covers_single log from to :
  from < to → covers log from to [mkOutputRow (Z.of_N from) (Z.of_N to) (sliceN from to log)].
Proof. intros. simpl. rewrite N2Z.id. split_and!; [done|lia|done|done]. Qed.

(** A row covering only old bytes does not change when the log grows. *)
Lemma covers_grow log data from to rows :
  covers log from to rows → to ≤ len log → covers (log ++ data) from to rows.
Proof.
  revert from. induction rows as [|r rows IH]; simpl; intros from; [done|].
  intros (? & ? & Hb & Hc) Hto. pose proof (covers_le _ _ _ _ Hc).
  split_and!; [done|done| |by apply IH].
  rewrite Hb. symmetry. apply sliceN_app_l. lia.
Qed.

Lemma filter_id {A} (P : A → Prop) `{∀ x, Decision (P x)} (l : list A) :
  (∀ x, x ∈ l → P x) → filter P l = l.
Proof.
  induction l as [|x l IH]; intros Hp; [done|].
  rewrite filter_cons_True by (apply Hp; left). f_equal. apply IH. intros. apply Hp. by right.
Qed.
Lemma filter_nil {A} (P : A → Prop) `{∀ x, Decision (P x)} (l : list A) :
  (∀ x, x ∈ l → ¬ P x) → filter P l = [].
Proof.
  induction l as [|x l IH]; intros Hp; [done|].
  rewrite filter_cons_False by (apply Hp; left). apply IH. intros. apply Hp. by right.
Qed.

Lemma load_loop_covers log from to rows out :
  covers log from to rows → to ≤ len log → len log < two63 →
  load_loop rows from out = Ok (out ++ sliceN from to log).
Proof.
  revert from out. induction rows as [|r rows IH]; intros from out; simpl.
  - intros -> _ _. by rewrite sliceN_nil, app_nil_r by lia.
  - intros (Hs & He & Hb & Hc) Hto Hl. pose proof (covers_le _ _ _ _ Hc).
    assert (len (o_bytes r) = Z.to_N (o_end r) - from) as Hlen
      by (rewrite Hb, len_sliceN; lia).
    assert (of_i64 (o_start r) = from) as -> by (unfold of_i64; lia).
    rewrite N.ltb_irrefl, N.sub_diag, dropN_0.
    case_N; [lia|]. rewrite wadd64_small by lia.
    replace (from + len (o_bytes r)) with (Z.to_N (o_end r)) by lia.
    rewrite IH by done. by rewrite <- app_assoc, Hb, sliceN_split by lia.
Qed.

Lemma load_terminal_output_repr log earliest durable tb id :
  output_repr log earliest durable (output_of tb id) →
  load_terminal_output id earliest tb = Ok (sliceN earliest durable log).
Proof.
  intros (Hc & Hd & Hl). pose proof (covers_le _ _ _ _ Hc).
  unfold load_terminal_output. rewrite as_i64_small by lia. rewrite filter_id.
  - rewrite (load_loop_covers log _ durable) by done. done.
  - intros r Hr. destruct (covers_bounds _ _ _ _ _ Hc Hr). lia.
Qed.

(** ** Committing a checkpoint *)

Lemma insert_sorted_last r rows :
  (∀ r', r' ∈ rows → (o_start r' < o_start r)%Z) → insert_sorted r rows = rows ++ [r].
Proof.
  induction rows as [|r' rows IH]; intros Hlt; simpl; [done|].
  assert (o_start r' < o_start r)%Z by (apply Hlt; left).
  destruct (Z.ltb_spec (o_start r) (o_start r')); [lia|].
  f_equal. apply IH. intros. apply Hlt. by right.
Qed.

Lemma insert_sorted_first r rows :
  (∀ r', r' ∈ rows → (o_start r < o_start r')%Z) → insert_sorted r rows = r :: rows.
Proof.
  destruct rows as [|r' rows]; intros Hlt; simpl; [done|].
  assert (o_start r < o_start r')%Z by (apply Hlt; left).
  destruct (Z.ltb_spec (o_start r) (o_start r')); [done|lia].
Qed.

Lemma insert_output_ok id r tb :
  is_Some (tb_terminals tb !! id) →
  (∀ r', r' ∈ output_of tb id → o_start r' ≠ o_start r) →
  insert_output id r tb = Ok (set_output id (insert_sorted r (output_of tb id)) tb).
Proof.
  intros Hid Hfresh. unfold insert_output. rewrite bool_decide_eq_true_2 by done. simpl.
  destruct (existsb _ _) eqn:E; [|done].
  apply existsb_exists in E as (r' & Hin & Heq).
  apply list_elem_of_In in Hin. apply Hfresh in Hin. lia.
Qed.

(** The rows left after the range delete: the chain that holds [e']. *)
Lemma covers_delete_below log from to rows e' :
  covers log from to rows → from ≤ e' → e' ≤ to →
  let rows' := filter (λ r, ¬ (o_end r ≤ Z.of_N e')%Z) rows in
  (rows' = [] ∧ e' = to)
  ∨ ∃ f r rest, rows' = r :: rest ∧ f ≤ e' ∧ (Z.of_N e' < o_end r)%Z ∧ covers log f to rows'.
Proof.
  revert from. induction rows as [|r rows IH]; intros from Hc Hf He; simpl in Hc.
  - left. simpl. split; [done|lia].
  - destruct Hc as (Hs & Hlt & Hb & Hc).
    destruct (decide (o_end r ≤ Z.of_N e')%Z) as [Hle|Hgt].
    + rewrite filter_cons_False by lia. apply (IH (Z.to_N (o_end r))); [done|lia|done].
    + right. assert (filter (λ r, ¬ (o_end r ≤ Z.of_N e')%Z) (r :: rows) = r :: rows) as ->.
      { apply filter_id. intros r' [->|Hin]%elem_of_cons; [done|].
        destruct (covers_bounds _ _ _ _ _ Hc Hin). lia. }
      exists from, r, rows. simpl. split_and!; auto with lia.
Qed.

(** The straddling row, when there is one, is the first that is left. *)
Lemma straddling_spec log f to r rest e' :
  covers log f to (r :: rest) → f ≤ e' → (Z.of_N e' < o_end r)%Z →
  head (filter (λ r, (o_start r < Z.of_N e')%Z ∧ (Z.of_N e' < o_end r)%Z) (r :: rest))
    = if f =? e' then None else Some r.
Proof.
  intros (Hs & Hlt & Hb & Hc) Hf He. case_N.
  - rewrite filter_nil; [done|].
    intros r' [->|Hin]%elem_of_cons; [lia|]. destruct (covers_bounds _ _ _ _ _ Hc Hin). lia.
  - by rewrite filter_cons_True by lia.
Qed.

Lemma output_of_set id rows tb : output_of (set_output id rows tb) id = rows.
Proof. unfold output_of, set_output. simpl. by rewrite lookup_insert_eq. Qed.
Lemma set_output_set id rows rows' tb :
  set_output id rows (set_output id rows' tb) = set_output id rows tb.
Proof. unfold set_output. simpl. by rewrite insert_insert_eq. Qed.

(** Deleting and trimming a chain leaves the chain from the new start. *)
Lemma trim_covers log from to e' tb id :
  is_Some (tb_terminals tb !! id) →
  covers log from to (output_of tb id) → from ≤ e' → e' ≤ to → to ≤ len log →
  ∃ n rows', trim_straddling id (Z.of_N e') (delete_below id (Z.of_N e') tb).2
             = Ok (n, set_output id rows' tb) ∧ covers log e' to rows'.
Proof.
  intros Hid Hc Hf He Hto. unfold delete_below, trim_straddling; simpl.
  rewrite output_of_set.
  destruct (covers_delete_below _ _ _ _ _ Hc Hf He) as [[-> ->]|(f & r & rest & Heq & Hfe & Her & Hc')].
  { exists 0, []. done. }
  rewrite Heq in *. rewrite (straddling_spec log f to) by done. case_N.
  { subst. exists 0, (r :: rest). done. }
  destruct Hc' as (Hs & Hlt & Hb & Hc').
  assert (∀ r', r' ∈ rest → (Z.of_N e' < o_start r')%Z) as Hrest.
  { intros r' Hin. destruct (covers_bounds _ _ _ _ _ Hc' Hin). lia. }
  pose proof (covers_le _ _ _ _ Hc').
  assert (Z.to_N (Z.max (Z.of_N e' - o_start r) 0) = e' - f) as -> by lia.
  assert (len (o_bytes r) = Z.to_N (o_end r) - f) as Hlen by (rewrite Hb, len_sliceN; lia).
  case_N; [|lia]. rewrite set_output_set, filter_cons_False by auto.
  rewrite filter_id by (intros r' Hin; apply Hrest in Hin; lia).
  rewrite insert_output_ok; rewrite ?output_of_set; simpl; [|done|].
  2:{ intros r' Hin. apply Hrest in Hin. lia. }
  rewrite set_output_set, insert_sorted_first by done.
  exists 2, (mkOutputRow (Z.of_N e') (o_end r) (dropN (e' - f) (o_bytes r)) :: rest).
  split; [done|]. simpl. split_and!; [done|done| |done].
  rewrite Hb. unfold sliceN. rewrite dropN_takeN, dropN_dropN. f_equal; [lia|f_equal; lia].
Qed.

(** A checkpoint that carries the bytes of [log] from the stored
    [durable_offset] (or the retained window's start, when eviction went
    further) up to [t]. *)
Definition checkpoint_for (log : list byte) (durable : N) (k : TerminalCheckpoint) : Prop :=
  k_chunk_start k = N.max durable (k_earliest_offset k)
  ∧ k_chunk k = sliceN (k_chunk_start k) (k_durable_offset k) log
  ∧ k_earliest_offset k ≤ k_durable_offset k
  ∧ durable ≤ k_durable_offset k
  ∧ k_durable_offset k ≤ len log.

Lemma update_checkpoint_ok now k c tb :
  tb_terminals tb !! k_terminal_id k = Some c →
  k_earliest_offset k ≤ k_durable_offset k → k_durable_offset k < two63 →
  update_checkpoint k now tb
    = Ok (mkTables (<[k_terminal_id k := checkpoint_rec k now c]> (tb_terminals tb)) (tb_output tb)).
Proof.
  intros Hc He Hd. unfold update_checkpoint. rewrite !as_i64_small by lia.
  destruct (Z.ltb_spec (Z.of_N (k_durable_offset k)) (Z.of_N (k_earliest_offset k))); [lia|].
  rewrite andb_false_r. unfold update_rec. do 2 f_equal.
  apply map_eq. intros i. destruct (decide (i = k_terminal_id k)) as [->|].
  - by rewrite lookup_alter_eq, Hc, lookup_insert_eq.
  - by rewrite lookup_alter_ne, lookup_insert_ne.
Qed.

(** Inserting the chunk appends the row for [[chunk_start, durable)]. *)
Lemma insert_chunk_ok log e d k tb :
  is_Some (tb_terminals tb !! k_terminal_id k) →
  output_repr log e d (output_of tb (k_terminal_id k)) → checkpoint_for log d k →
  k_chunk k ≠ [] →
  k_chunk_start k < k_durable_offset k
  ∧ insert_output (k_terminal_id k)
      (mkOutputRow (as_i64 (k_chunk_start k)) (as_i64 (k_durable_offset k)) (k_chunk k)) tb
    = Ok (set_output (k_terminal_id k)
           (output_of tb (k_terminal_id k)
            ++ [mkOutputRow (Z.of_N (k_chunk_start k)) (Z.of_N (k_durable_offset k))
                 (sliceN (k_chunk_start k) (k_durable_offset k) log)]) tb).
Proof.
  intros Hid (Hc & Hd & Hl) (Hs & Hk & ? & ? & ?) Hne.
  assert (k_chunk_start k < k_durable_offset k).
  { destruct (N.le_gt_cases (k_durable_offset k) (k_chunk_start k)); [|done].
    destruct Hne. rewrite Hk. by apply sliceN_nil. }
  split; [done|].
  assert (∀ r', r' ∈ output_of tb (k_terminal_id k) →
    (o_start r' < Z.of_N (k_chunk_start k))%Z) as Hlt.
  { intros r' Hin. destruct (covers_bounds _ _ _ _ _ Hc Hin). lia. }
  rewrite !as_i64_small by lia.
  rewrite insert_output_ok; [|done|intros r' Hin; apply Hlt in Hin; simpl; lia].
  by rewrite insert_sorted_last, Hk by done.
Qed.

Lemma delete_below_set id e rows tb :
  (delete_below id e (set_output id rows tb)).2
    = set_output id (filter (λ r, ¬ (o_end r ≤ e)%Z) rows) tb.
Proof. unfold delete_below. simpl. by rewrite output_of_set, set_output_set. Qed.

(** After the insert, what the range delete leaves is what it leaves of some
    chain that reaches [k]'s new durable offset. *)
Lemma insert_chunk_chain log e d k tb :
  is_Some (tb_terminals tb !! k_terminal_id k) →
  output_repr log e d (output_of tb (k_terminal_id k)) → checkpoint_for log d k →
  e ≤ k_earliest_offset k →
  ∃ n tb1 f rows,
    (if is_empty (k_chunk k) then Ok (0, tb)
     else let? tb := insert_output (k_terminal_id k)
            (mkOutputRow (as_i64 (k_chunk_start k)) (as_i64 (k_durable_offset k)) (k_chunk k)) tb in
          Ok (1, tb)) = Ok (n, tb1)
    ∧ f ≤ k_earliest_offset k ∧ covers log f (k_durable_offset k) rows
    ∧ (delete_below (k_terminal_id k) (Z.of_N (k_earliest_offset k)) tb1).2
      = (delete_below (k_terminal_id k) (Z.of_N (k_earliest_offset k))
           (set_output (k_terminal_id k) rows tb)).2.
Proof.
  intros Hid Ho Hk He. pose proof Hk as (Hs & Hch & Hek & Hdk & Htl).
  pose proof Ho as (Hc & Hd & Hl).
  destruct (is_empty (k_chunk k)) eqn:Hempty.
  - assert (k_durable_offset k ≤ k_chunk_start k).
    { destruct (k_chunk k) eqn:E; [|done]. pose proof (f_equal len Hch) as Hlen.
      rewrite len_sliceN, len_nil in Hlen. lia. }
    destruct (N.le_gt_cases (k_earliest_offset k) d) as [Hcase|Hcase].
    + exists 0, tb, e, (output_of tb (k_terminal_id k)). split_and!; [done|done| |].
      * replace (k_durable_offset k) with d by lia. done.
      * by rewrite delete_below_set.
    + exists 0, tb, (k_earliest_offset k), []. split_and!; [done|lia|simpl; lia|].
      rewrite delete_below_set. unfold delete_below; simpl. f_equal. apply filter_nil.
      intros r Hin. destruct (covers_bounds _ _ _ _ _ Hc Hin). lia.
  - destruct (insert_chunk_ok log e d k tb) as [Hst ->]; [done..| |].
    { by intros E; rewrite E in Hempty. }
    cbn [res_bind]. do 2 eexists.
    pose proof (covers_single log _ _ Hst) as Hnew.
    destruct (N.le_gt_cases (k_earliest_offset k) d) as [Hcase|Hcase].
    + exists e, (output_of tb (k_terminal_id k)
        ++ [mkOutputRow (Z.of_N (k_chunk_start k)) (Z.of_N (k_durable_offset k))
             (sliceN (k_chunk_start k) (k_durable_offset k) log)]).
      split_and!; [done|done| |done].
      apply (covers_app _ _ d); [done|]. replace d with (k_chunk_start k) at 1 by lia. done.
    + exists (k_chunk_start k), [mkOutputRow (Z.of_N (k_chunk_start k)) (Z.of_N (k_durable_offset k))
             (sliceN (k_chunk_start k) (k_durable_offset k) log)].
      split_and!; [done|lia|done|]. rewrite !delete_below_set, filter_app. f_equal.
      rewrite filter_nil; [done|].
      intros r Hin. destruct (covers_bounds _ _ _ _ _ Hc Hin). lia.
Qed.

Lemma commit_checkpoint_repr now log e d k c tb :
  tb_terminals tb !! k_terminal_id k = Some c →
  output_repr log e d (output_of tb (k_terminal_id k)) → checkpoint_for log d k →
  e ≤ k_earliest_offset k →
  ∃ n tb', commit_checkpoint now k tb = Ok (n, tb')
    ∧ output_repr log (k_earliest_offset k) (k_durable_offset k) (output_of tb' (k_terminal_id k))
    ∧ tb_terminals tb' = <[k_terminal_id k := checkpoint_rec k now c]> (tb_terminals tb)
    ∧ ∀ id, id ≠ k_terminal_id k → output_of tb' id = output_of tb id.
Proof.
  intros Hc Ho Hk He.
  destruct (insert_chunk_chain log e d k tb) as (n & tb1 & f & rows & Hins & Hf & Hrows & Hdel);
    [by eexists|done..|].
  destruct Ho as (_ & _ & Hl). destruct Hk as (_ & _ & Hek & _ & Htl).
  unfold commit_checkpoint. rewrite Hins. cbn [res_bind]. rewrite as_i64_small by lia.
  destruct (delete_below _ _ tb1) as [del tb2] eqn:Hd2. cbn [snd] in Hdel. subst tb2.
  destruct (trim_covers log f (k_durable_offset k) (k_earliest_offset k)
              (set_output (k_terminal_id k) rows tb) (k_terminal_id k))
    as (m & rows' & -> & Hcov); [by eexists|by rewrite output_of_set|done..|].
  cbn [res_bind]. rewrite set_output_set.
  rewrite (update_checkpoint_ok _ _ c) by (simpl; auto with lia). cbn [res_bind].
  do 2 eexists. split; [done|]. simpl. split_and!; [|done|].
  - unfold output_of; simpl. rewrite lookup_insert_eq. done.
  - intros id Hne. unfold output_of; simpl. by rewrite lookup_insert_ne.
Qed.
