(* ===== verification/Terminal.v ===== *)
(** * In-memory terminal state ([server/src/relay/terminal.rs])

    [TerminalInner] is the record behind a [TerminalHandle]'s mutex, one
    definition per method (each method is one critical section, so a method
    is one step). A subscriber's channel is shared between the terminal, which
    sends, and the subscriber's connection, which receives: both halves and
    the two atomics beside them live in [Chan], stored under the subscriber's
    id for as long as either side may look at it. Metrics are left out.
    [Instant]s and timestamps are [N] arguments. *)

From S2P Require Export Prelude Messages Ring Repo.

Open Scope N_scope.
Open Scope hype_scope.

Inductive Lifecycle :=
| Open
| Closing (reason : text)
| Closed (reason : text).
#[export] Instance Lifecycle_eq_dec : EqDecision Lifecycle.
Proof. solve_decision. Defined.

Definition lifecycle_as_state (l : Lifecycle) : TerminalState :=
  match l with Open | Closing _ => StOpen | Closed _ => StClosed end.
Definition lifecycle_as_str (l : Lifecycle) : string := state_as_str (lifecycle_as_state l).

Inductive MirrorEvent :=
| EvOutput (start_offset : N) (payload : list byte)
| EvDurable (durable_offset : N)
| EvResize (cols rows : N)
| EvClosed (reason : text) (next_offset durable_offset : N).

Definition queue_cost (e : MirrorEvent) : N :=
  match e with EvOutput _ payload => len payload | _ => 0 end.

Record Termination := mkTermination {
  tm_close_code : N;
  tm_error_code : error_code;
  tm_message : text;
}.
Definition termination_slow_consumer : Termination :=
  mkTermination close.SLOW_CONSUMER SLOW_CONSUMER
    (lit "subscriber exceeded its outbound queue bound; reconnect from the last processed offset").
Definition termination_server_shutdown : Termination :=
  mkTermination close.SERVER_SHUTDOWN SERVER_SHUTDOWN
    (lit "server is shutting down; reconnect and resume from the last processed offset").
Definition termination_revoked : Termination :=
  mkTermination close.REVOKED REVOKED (lit "credential was revoked").

(** One subscription's bounded channel, its byte count and its
    [SubscriberSignal]. *)
Record Chan := mkChan {
  ch_queue : list MirrorEvent;
  ch_capacity : N;
  ch_rx_open : bool;
  ch_tx_open : bool;
  ch_queued_bytes : N;
  ch_overflowed : bool;
  ch_terminate : option Termination;
}.
Definition set_queued (v : N) (c : Chan) : Chan :=
  mkChan (ch_queue c) (ch_capacity c) (ch_rx_open c) (ch_tx_open c) v (ch_overflowed c) (ch_terminate c).
Definition set_overflowed (c : Chan) : Chan :=
  mkChan (ch_queue c) (ch_capacity c) (ch_rx_open c) (ch_tx_open c) (ch_queued_bytes c) true
    (ch_terminate c).
Definition set_queue (q : list MirrorEvent) (c : Chan) : Chan :=
  mkChan q (ch_capacity c) (ch_rx_open c) (ch_tx_open c) (ch_queued_bytes c) (ch_overflowed c)
    (ch_terminate c).
Definition set_terminate (t : Termination) (c : Chan) : Chan :=
  mkChan (ch_queue c) (ch_capacity c) (ch_rx_open c) (ch_tx_open c) (ch_queued_bytes c)
    (ch_overflowed c) (Some t).
Definition drop_tx (c : Chan) : Chan :=
  mkChan (ch_queue c) (ch_capacity c) (ch_rx_open c) false (ch_queued_bytes c) (ch_overflowed c)
    (ch_terminate c).
Definition drop_rx (c : Chan) : Chan :=
  mkChan (ch_queue c) (ch_capacity c) false (ch_tx_open c) (ch_queued_bytes c) (ch_overflowed c)
    (ch_terminate c).

Record Subscriber := mkSubscriber {
  s_id : N;
  s_max_queued_bytes : N;
}.

Record TerminalInner := mkTerminalInner {
  i_ring : Ring;
  i_next_offset : N;
  i_durable_offset : N;
  i_dirty_since : option N;
  i_frames_since_checkpoint : N;
  i_lifecycle : Lifecycle;
  i_label : text;
  i_cols : option N;
  i_rows : option N;
  i_term : option text;
  i_last_activity : N;
  i_accepts_input : bool;
  i_next_input_sequence : N;
  i_subscribers : list Subscriber;
  i_next_subscriber_id : N;
  i_retired : bool;
  (** The channels of every subscription ever made, by subscriber id: the
      sending half is used while the subscriber is listed, the receiving half
      by its connection. *)
  i_channels : gmap N Chan;
}.

Definition set_ring (v : Ring) (i : TerminalInner) : TerminalInner :=
  mkTerminalInner
    v (i_next_offset i) (i_durable_offset i) (i_dirty_since i)
    (i_frames_since_checkpoint i) (i_lifecycle i) (i_label i) (i_cols i) (i_rows i)
    (i_term i) (i_last_activity i) (i_accepts_input i) (i_next_input_sequence i)
    (i_subscribers i) (i_next_subscriber_id i) (i_retired i) (i_channels i).
Definition set_next_offset (v : N) (i : TerminalInner) : TerminalInner :=
  mkTerminalInner
    (i_ring i) v (i_durable_offset i) (i_dirty_since i) (i_frames_since_checkpoint i)
    (i_lifecycle i) (i_label i) (i_cols i) (i_rows i) (i_term i) (i_last_activity i)
    (i_accepts_input i) (i_next_input_sequence i) (i_subscribers i)
    (i_next_subscriber_id i) (i_retired i) (i_channels i).
Definition set_durable_offset (v : N) (i : TerminalInner) : TerminalInner :=
  mkTerminalInner
    (i_ring i) (i_next_offset i) v (i_dirty_since i) (i_frames_since_checkpoint i)
    (i_lifecycle i) (i_label i) (i_cols i) (i_rows i) (i_term i) (i_last_activity i)
    (i_accepts_input i) (i_next_input_sequence i) (i_subscribers i)
    (i_next_subscriber_id i) (i_retired i) (i_channels i).
Definition set_dirty_since (v : option N) (i : TerminalInner) : TerminalInner :=
  mkTerminalInner
    (i_ring i) (i_next_offset i) (i_durable_offset i) v (i_frames_since_checkpoint i)
    (i_lifecycle i) (i_label i) (i_cols i) (i_rows i) (i_term i) (i_last_activity i)
    (i_accepts_input i) (i_next_input_sequence i) (i_subscribers i)
    (i_next_subscriber_id i) (i_retired i) (i_channels i).
Definition set_frames_since_checkpoint (v : N) (i : TerminalInner) : TerminalInner :=
  mkTerminalInner
    (i_ring i) (i_next_offset i) (i_durable_offset i) (i_dirty_since i) v (i_lifecycle
    i) (i_label i) (i_cols i) (i_rows i) (i_term i) (i_last_activity i)
    (i_accepts_input i) (i_next_input_sequence i) (i_subscribers i)
    (i_next_subscriber_id i) (i_retired i) (i_channels i).
Definition set_lifecycle (v : Lifecycle) (i : TerminalInner) : TerminalInner :=
  mkTerminalInner
    (i_ring i) (i_next_offset i) (i_durable_offset i) (i_dirty_since i)
    (i_frames_since_checkpoint i) v (i_label i) (i_cols i) (i_rows i) (i_term i)
    (i_last_activity i) (i_accepts_input i) (i_next_input_sequence i) (i_subscribers
    i) (i_next_subscriber_id i) (i_retired i) (i_channels i).
Definition set_label (v : text) (i : TerminalInner) : TerminalInner :=
  mkTerminalInner
    (i_ring i) (i_next_offset i) (i_durable_offset i) (i_dirty_since i)
    (i_frames_since_checkpoint i) (i_lifecycle i) v (i_cols i) (i_rows i) (i_term i)
    (i_last_activity i) (i_accepts_input i) (i_next_input_sequence i) (i_subscribers
    i) (i_next_subscriber_id i) (i_retired i) (i_channels i).
Definition set_cols (v : option N) (i : TerminalInner) : TerminalInner :=
  mkTerminalInner
    (i_ring i) (i_next_offset i) (i_durable_offset i) (i_dirty_since i)
    (i_frames_since_checkpoint i) (i_lifecycle i) (i_label i) v (i_rows i) (i_term i)
    (i_last_activity i) (i_accepts_input i) (i_next_input_sequence i) (i_subscribers
    i) (i_next_subscriber_id i) (i_retired i) (i_channels i).
Definition set_rows (v : option N) (i : TerminalInner) : TerminalInner :=
  mkTerminalInner
    (i_ring i) (i_next_offset i) (i_durable_offset i) (i_dirty_since i)
    (i_frames_since_checkpoint i) (i_lifecycle i) (i_label i) (i_cols i) v (i_term i)
    (i_last_activity i) (i_accepts_input i) (i_next_input_sequence i) (i_subscribers
    i) (i_next_subscriber_id i) (i_retired i) (i_channels i).
Definition set_term (v : option text) (i : TerminalInner) : TerminalInner :=
  mkTerminalInner
    (i_ring i) (i_next_offset i) (i_durable_offset i) (i_dirty_since i)
    (i_frames_since_checkpoint i) (i_lifecycle i) (i_label i) (i_cols i) (i_rows i) v
    (i_last_activity i) (i_accepts_input i) (i_next_input_sequence i) (i_subscribers
    i) (i_next_subscriber_id i) (i_retired i) (i_channels i).
Definition set_last_activity (v : N) (i : TerminalInner) : TerminalInner :=
  mkTerminalInner
    (i_ring i) (i_next_offset i) (i_durable_offset i) (i_dirty_since i)
    (i_frames_since_checkpoint i) (i_lifecycle i) (i_label i) (i_cols i) (i_rows i)
    (i_term i) v (i_accepts_input i) (i_next_input_sequence i) (i_subscribers i)
    (i_next_subscriber_id i) (i_retired i) (i_channels i).
Definition set_accepts_input (v : bool) (i : TerminalInner) : TerminalInner :=
  mkTerminalInner
    (i_ring i) (i_next_offset i) (i_durable_offset i) (i_dirty_since i)
    (i_frames_since_checkpoint i) (i_lifecycle i) (i_label i) (i_cols i) (i_rows i)
    (i_term i) (i_last_activity i) v (i_next_input_sequence i) (i_subscribers i)
    (i_next_subscriber_id i) (i_retired i) (i_channels i).
Definition set_next_input_sequence (v : N) (i : TerminalInner) : TerminalInner :=
  mkTerminalInner
    (i_ring i) (i_next_offset i) (i_durable_offset i) (i_dirty_since i)
    (i_frames_since_checkpoint i) (i_lifecycle i) (i_label i) (i_cols i) (i_rows i)
    (i_term i) (i_last_activity i) (i_accepts_input i) v (i_subscribers i)
    (i_next_subscriber_id i) (i_retired i) (i_channels i).
Definition set_subscribers (v : list Subscriber) (i : TerminalInner) : TerminalInner :=
  mkTerminalInner
    (i_ring i) (i_next_offset i) (i_durable_offset i) (i_dirty_since i)
    (i_frames_since_checkpoint i) (i_lifecycle i) (i_label i) (i_cols i) (i_rows i)
    (i_term i) (i_last_activity i) (i_accepts_input i) (i_next_input_sequence i) v
    (i_next_subscriber_id i) (i_retired i) (i_channels i).
Definition set_next_subscriber_id (v : N) (i : TerminalInner) : TerminalInner :=
  mkTerminalInner
    (i_ring i) (i_next_offset i) (i_durable_offset i) (i_dirty_since i)
    (i_frames_since_checkpoint i) (i_lifecycle i) (i_label i) (i_cols i) (i_rows i)
    (i_term i) (i_last_activity i) (i_accepts_input i) (i_next_input_sequence i)
    (i_subscribers i) v (i_retired i) (i_channels i).
Definition set_retired (v : bool) (i : TerminalInner) : TerminalInner :=
  mkTerminalInner
    (i_ring i) (i_next_offset i) (i_durable_offset i) (i_dirty_since i)
    (i_frames_since_checkpoint i) (i_lifecycle i) (i_label i) (i_cols i) (i_rows i)
    (i_term i) (i_last_activity i) (i_accepts_input i) (i_next_input_sequence i)
    (i_subscribers i) (i_next_subscriber_id i) v (i_channels i).
Definition set_channels (v : gmap N Chan) (i : TerminalInner) : TerminalInner :=
  mkTerminalInner
    (i_ring i) (i_next_offset i) (i_durable_offset i) (i_dirty_since i)
    (i_frames_since_checkpoint i) (i_lifecycle i) (i_label i) (i_cols i) (i_rows i)
    (i_term i) (i_last_activity i) (i_accepts_input i) (i_next_input_sequence i)
    (i_subscribers i) (i_next_subscriber_id i) (i_retired i) v.

(** The immutable part of [TerminalHandle] and its locked state. *)
Record TerminalHandle := mkTerminalHandle {
  h_terminal_id : Uuid;
  h_device_id : Uuid;
  h_identity_id : text;
  h_local_ref : text;
  h_created_at : N;
  h_inner : TerminalInner;
}.

Record Offsets := mkOffsets {
  of_earliest_offset : N;
  of_next_offset : N;
  of_durable_offset : N;
}.
Definition retained_bytes (o : Offsets) : N := of_next_offset o - of_earliest_offset o.

Inductive AppendOutcome :=
| Accepted (next_offset durable_offset : N)
| OffsetMismatch (next_offset durable_offset : N)
| NotOpen.

Record Subscription := mkSubscription {
  sub_subscriber_id : N;
  sub_replay : list (N * list byte);
  sub_replay_start_offset : N;
  sub_offsets : Offsets;
  sub_gap : option (N * N);
  sub_lifecycle : Lifecycle;
  sub_label : text;
  sub_cols : option N;
  sub_rows : option N;
  sub_term : option text;
}.

Inductive SubscribeError := OffsetAhead (next_offset durable_offset : N).

Record PendingCheckpoint := mkPendingCheckpoint {
  pc_terminal_id : Uuid;
  pc_chunk_start : N;
  pc_chunk : list byte;
  pc_earliest_offset : N;
  pc_durable_target : N;
  pc_close_reason : option text;
  pc_last_activity : N;
  pc_dirty_age : N;
  pc_frames : N;
}.

(** ** Construction *)

Definition term_from_row (row : TerminalRow) (capacity : N) (retained : list byte) : TerminalHandle :=
  let ring := ring_from_retained capacity (t_earliest_offset row) retained in
  let next_offset := N.max (ring_end ring) (t_durable_offset row) in
  let lifecycle :=
    match t_state row with
    | StOpen => Open
    | StClosed => Closed (default (lit "closed") (t_close_reason row))
    end in
  mkTerminalHandle (t_terminal_id row) (t_device_id row) (t_identity_id row) (t_local_ref row)
    (t_created_at row)
    (mkTerminalInner ring next_offset (t_durable_offset row) None 0 lifecycle
       (t_label row) (t_cols row) (t_rows row) (t_term row) (t_last_activity_at row)
       (t_accepts_input row) 1 [] 1 false ∅).
Definition term_new_open (row : TerminalRow) (capacity : N) : TerminalHandle :=
  term_from_row row capacity [].

(** ** Fan-out *)

(** [try_send] on a bounded channel. *)
Inductive TrySend := SentOk | SendFull | SendClosed.
Definition try_send (e : MirrorEvent) (c : Chan) : TrySend * Chan :=
  if negb (ch_rx_open c) then (SendClosed, c)
  else if ch_capacity c <=? len (ch_queue c) then (SendFull, c)
  else (SentOk, set_queue (ch_queue c ++ [e]) c).

(** The body of the loop of [fan_out]: the subscriber's channel afterwards and
    whether the subscriber is dropped. *)
Definition fan_out_one (event : MirrorEvent) (s : Subscriber) (c : Chan) : Chan * bool :=
  let cost := queue_cost event in
  let queued := ch_queued_bytes c in
  if s_max_queued_bytes s <? queued +₆₄ cost then (set_overflowed c, true)
  else
    let c := set_queued (queued +₆₄ cost) c in
    match try_send event c with
    | (SentOk, c) => (c, false)
    | (SendFull, c) => (set_overflowed (set_queued (ch_queued_bytes c -₆₄ cost) c), true)
    | (SendClosed, c) => (set_queued (ch_queued_bytes c -₆₄ cost) c, true)
    end.

Fixpoint fan_out_loop (event : MirrorEvent) (subs : list Subscriber) (chans : gmap N Chan)
    : gmap N Chan * list N :=
  match subs with
  | [] => (chans, [])
  | s :: rest =>
      match chans !! s_id s with
      | None => fan_out_loop event rest chans
      | Some c =>
          let '(c, dropped) := fan_out_one event s c in
          let '(chans, ids) := fan_out_loop event rest (<[s_id s := c]> chans) in
          (chans, if dropped then s_id s :: ids else ids)
      end
  end.

(** Dropping a [Subscriber] drops its sender. *)
Definition drop_senders (ids : list N) (chans : gmap N Chan) : gmap N Chan :=
  foldr (λ id m, alter drop_tx id m) chans ids.

Definition fan_out (event : MirrorEvent) (i : TerminalInner) : TerminalInner :=
  let '(chans, dropped) := fan_out_loop event (i_subscribers i) (i_channels i) in
  set_subscribers (filter (λ s, s_id s ∉ dropped) (i_subscribers i))
    (set_channels (drop_senders dropped chans) i).

(** ** Reads *)

Definition term_offsets (i : TerminalInner) : Offsets :=
  mkOffsets (r_earliest (i_ring i)) (i_next_offset i) (i_durable_offset i).
Definition term_dirty_bytes (i : TerminalInner) : N := i_next_offset i - i_durable_offset i.
Definition term_subscriber_count (i : TerminalInner) : N := len (i_subscribers i).

(** ** Operations *)

Definition term_next_input_sequence (now : N) (i : TerminalInner) : N * TerminalInner :=
  (i_next_input_sequence i,
   set_last_activity now (set_next_input_sequence (i_next_input_sequence i +₆₄ 1) i)).

Definition term_update_metadata (label : option text) (cols rows : option N) (term : option text)
    (i : TerminalInner) : TerminalInner :=
  let i := match label with Some label => set_label label i | None => i end in
  let i := if bool_decide (is_Some cols) then set_cols cols i else i in
  let i := if bool_decide (is_Some rows) then set_rows rows i else i in
  if bool_decide (is_Some term) then set_term term i else i.

Definition term_append (now : N) (expected_offset : N) (payload : list byte) (capacity : N)
    (i : TerminalInner) : AppendOutcome * TerminalInner :=
  if negb (bool_decide (i_lifecycle i = Open)) then (NotOpen, i)
  else if negb (expected_offset =? i_next_offset i) then
    (OffsetMismatch (i_next_offset i) (i_durable_offset i), i)
  else
    let i := set_ring (ring_set_capacity capacity (i_ring i)).1 i in
    let start_offset := i_next_offset i in
    if is_empty payload then (Accepted (i_next_offset i) (i_durable_offset i), i)
    else
      let i := set_ring (ring_append payload (i_ring i)).1 i in
      let i := set_next_offset (i_next_offset i +₆₄ len payload) i in
      let i := match i_dirty_since i with None => set_dirty_since (Some now) i | Some _ => i end in
      let i := set_frames_since_checkpoint (i_frames_since_checkpoint i +₆₄ 1) i in
      let i := set_last_activity now i in
      let i := fan_out (EvOutput start_offset payload) i in
      (Accepted (i_next_offset i) (i_durable_offset i), i).

Definition term_resize (now cols rows : N) (i : TerminalInner) : bool * TerminalInner :=
  if negb (bool_decide (i_lifecycle i = Open)) then (false, i)
  else
    let i := set_last_activity now (set_rows (Some rows) (set_cols (Some cols) i)) in
    (true, fan_out (EvResize cols rows) i).

(** The replay loop of [subscribe]. [fuel] bounds its iterations. *)
Fixpoint replay_loop (fuel : nat) (ring : Ring) (chunk_bytes cursor next : N)
    : list (N * list byte) :=
  match fuel with
  | O => []
  | S fuel =>
      if cursor <? next then
        let end_ := N.min (cursor +₆₄ chunk_bytes) next in
        match ring_read_range 0 ring cursor end_ with
        | Some bytes => (cursor, bytes) :: replay_loop fuel ring chunk_bytes end_ next
        | None => []
        end
      else []
  end.
(** One iteration per chunk, and the last test. *)
Definition replay_fuel (chunk_bytes cursor next : N) : nat :=
  S (N.to_nat ((next - cursor) / chunk_bytes)).

Definition term_subscribe (from_offset : option N) (chunk_bytes queue_messages queue_bytes : N)
    (i : TerminalInner) : result SubscribeError (Subscription * TerminalInner) :=
  let earliest := r_earliest (i_ring i) in
  let next := i_next_offset i in
  let durable := i_durable_offset i in
  let requested := default earliest from_offset in
  if next <? requested then Err (OffsetAhead next durable)
  else
    let '(replay_start, gap) :=
      if requested <? earliest then (earliest, Some (requested, earliest))
      else (requested, None) in
    let chunk_bytes := N.max chunk_bytes 1 in
    let replay :=
      replay_loop (replay_fuel chunk_bytes replay_start next) (i_ring i) chunk_bytes replay_start next in
    let subscriber_id := i_next_subscriber_id i in
    let chan := mkChan [] (N.max queue_messages 1) true true 0 false None in
    let i := set_next_subscriber_id (subscriber_id +₆₄ 1) i in
    let i := set_subscribers (i_subscribers i ++ [mkSubscriber subscriber_id queue_bytes]) i in
    let i := set_channels (<[subscriber_id := chan]> (i_channels i)) i in
    Ok (mkSubscription subscriber_id replay replay_start (mkOffsets earliest next durable) gap
          (i_lifecycle i) (i_label i) (i_cols i) (i_rows i) (i_term i), i).

Definition term_unsubscribe (subscriber_id : N) (i : TerminalInner) : TerminalInner :=
  set_subscribers (filter (λ s, s_id s ≠ subscriber_id) (i_subscribers i))
    (set_channels
       (drop_senders (s_id <$> filter (λ s, s_id s = subscriber_id) (i_subscribers i)) (i_channels i)) i).

Definition term_begin_close (now : N) (reason : text) (i : TerminalInner) : bool * TerminalInner :=
  if negb (bool_decide (i_lifecycle i = Open)) then (false, i)
  else (true, set_last_activity now (set_lifecycle (Closing reason) i)).

Definition term_take_checkpoint (terminal_id : Uuid) (now : N) (i : TerminalInner)
    : option PendingCheckpoint :=
  let closing := match i_lifecycle i with Closing _ => true | _ => false end in
  let has_dirty := i_durable_offset i <? i_next_offset i in
  if negb has_dirty && negb closing then None
  else
    let from := N.max (i_durable_offset i) (r_earliest (i_ring i)) in
    let to := i_next_offset i in
    let chunk := if from <? to then default [] (ring_read_range 0 (i_ring i) from to) else [] in
    let close_reason := match i_lifecycle i with Closing reason => Some reason | _ => None end in
    Some (mkPendingCheckpoint terminal_id from chunk (r_earliest (i_ring i)) to close_reason
            (i_last_activity i) (from_option (λ since, now - since) 0 (i_dirty_since i))
            (i_frames_since_checkpoint i)).

Definition term_commit_durable (durable_target : N) (closed : option text) (i : TerminalInner)
    : TerminalInner :=
  let i := if i_durable_offset i <? durable_target
           then fan_out (EvDurable durable_target) (set_durable_offset durable_target i) else i in
  let i := if i_next_offset i <=? i_durable_offset i then set_dirty_since None i else i in
  let i := set_frames_since_checkpoint 0 i in
  match closed with
  | None => i
  | Some reason =>
      let i := set_lifecycle (Closed reason) i in
      let i := fan_out (EvClosed reason (i_next_offset i) (i_durable_offset i)) i in
      set_retired true i
  end.

(** [wait_for_durable]: [wakes] are the states it finds each time it runs
    before the deadline, [last] the state it finds when the deadline passes. *)
Fixpoint term_wait_for_durable (target : N) (wakes : list TerminalInner) (last : TerminalInner) : N :=
  match wakes with
  | [] => i_durable_offset last
  | i :: rest =>
      if (target <=? i_durable_offset i) || negb (bool_decide (i_lifecycle i = Open))
      then i_durable_offset i
      else term_wait_for_durable target rest last
  end.

Definition term_terminate_subscribers (t : Termination) (i : TerminalInner) : TerminalInner :=
  let ids := s_id <$> i_subscribers i in
  set_subscribers []
    (set_channels (drop_senders ids (foldr (λ id m, alter (set_terminate t) id m) (i_channels i) ids)) i).

Definition term_shrink_to_capacity (capacity : N) (i : TerminalInner) : TerminalInner :=
  if r_capacity (i_ring i) <=? capacity then i
  else set_ring (ring_set_capacity capacity (i_ring i)).1 i.

(** ** The receiving half of a channel, used by the subscriber's connection *)

Inductive Recv := RecvEvent (e : MirrorEvent) | RecvClosed | RecvPending.
Definition chan_recv (c : Chan) : Recv * Chan :=
  match ch_queue c with
  | e :: rest => (RecvEvent e, set_queue rest c)
  | [] => (if ch_tx_open c then RecvPending else RecvClosed, c)
  end.
(** [queued_bytes.fetch_sub] for a received output event. *)
Definition chan_account (e : MirrorEvent) (c : Chan) : Chan :=
  match e with
  | EvOutput _ payload => set_queued (ch_queued_bytes c -₆₄ len payload) c
  | _ => c
  end.

Definition subscribed_message (terminal_id : Uuid) (requested : N) (sub : Subscription)
    (input : option (bool * bool)) : ServerMessage :=
  Subscribed terminal_id requested (sub_replay_start_offset sub)
    (of_next_offset (sub_offsets sub)) (of_durable_offset (sub_offsets sub))
    (of_earliest_offset (sub_offsets sub)) (lifecycle_as_str (sub_lifecycle sub))
    (sub_label sub) (sub_cols sub) (sub_rows sub) (sub_term sub)
    (fst <$> input) (snd <$> input).
