(* ===== verification/TerminalFacts.v ===== *)
(** * What a terminal's operations preserve

    [term_repr log i] ties the locked state to the terminal's whole output
    [log]: the ring holds its suffix, [next_offset] is its length. The lemmas
    give each operation's effect on it; [fan_out_loop_spec] is the fan-out in
    closed form. *)

From S2P Require Export Terminal.

Open Scope N_scope.
Open Scope hype_scope.

Definition term_repr (log : list byte) (i : TerminalInner) : Prop :=
  ring_repr log (i_ring i) ∧ i_next_offset i = len log ∧ i_durable_offset i ≤ len log.

(** ** Fan-out *)

Create Rewrite HintDb term.

Section fan_out_frame.
  Context (e : MirrorEvent) (i : TerminalInner).
Local Ltac frame := unfold fan_out; by destruct (fan_out_loop _ _ _).
Lemma fan_out_ring : i_ring (fan_out e i) = i_ring i. Proof. frame. Qed.
Lemma fan_out_next : i_next_offset (fan_out e i) = i_next_offset i. Proof. frame. Qed.
Lemma fan_out_durable : i_durable_offset (fan_out e i) = i_durable_offset i. Proof. frame. Qed.
Lemma fan_out_dirty_since : i_dirty_since (fan_out e i) = i_dirty_since i. Proof. frame. Qed.
Lemma fan_out_lifecycle : i_lifecycle (fan_out e i) = i_lifecycle i. Proof. frame. Qed.
Lemma fan_out_accepts : i_accepts_input (fan_out e i) = i_accepts_input i. Proof. frame. Qed.
Lemma fan_out_retired : i_retired (fan_out e i) = i_retired i. Proof. frame. Qed.
Lemma fan_out_seq : i_next_input_sequence (fan_out e i) = i_next_input_sequence i.
  Proof. frame. Qed.
Lemma fan_out_next_id : i_next_subscriber_id (fan_out e i) = i_next_subscriber_id i.
  Proof. frame. Qed.
Lemma fan_out_cols : i_cols (fan_out e i) = i_cols i. Proof. frame. Qed.
Lemma fan_out_rows : i_rows (fan_out e i) = i_rows i. Proof. frame. Qed.
End fan_out_frame.

#[export] Hint Rewrite fan_out_ring fan_out_next fan_out_durable fan_out_dirty_since
  fan_out_lifecycle fan_out_accepts fan_out_retired fan_out_seq fan_out_next_id
  fan_out_cols fan_out_rows : term.

(** Project through the setters and the fan-out. *)
Ltac term_simpl := cbn; autorewrite with term; cbn.
Ltac term_simpl_in H := cbn in H; autorewrite with term in H; cbn in H.

Lemma fan_out_one_queue e s c :
  let '(c', dropped) := fan_out_one e s c in
  ch_queue c' = (if dropped then ch_queue c else ch_queue c ++ [e])
  ∧ ch_tx_open c' = ch_tx_open c ∧ ch_rx_open c' = ch_rx_open c
  ∧ ch_capacity c' = ch_capacity c.
Proof.
  unfold fan_out_one, try_send. case_N; [done|]. cbn.
  destruct (ch_rx_open c) eqn:Hrx; cbn; [case_N|]; cbn; auto.
Qed.

(** The byte count after an attempt: exact for a kept event, unchanged for a
    refused one. *)
Lemma fan_out_one_bytes e s c :
  ch_queued_bytes c + queue_cost e < two64 →
  let '(c', dropped) := fan_out_one e s c in
  ch_queued_bytes c' = (if dropped then ch_queued_bytes c else ch_queued_bytes c + queue_cost e)
  ∧ (dropped = false → ch_queued_bytes c' ≤ s_max_queued_bytes s
                       ∧ len (ch_queue c') ≤ ch_capacity c).
Proof.
  intros Hlt. unfold fan_out_one, try_send. rewrite wadd64_small by done.
  case_N; [done|]. cbn. destruct (ch_rx_open c); cbn.
  - case_N; cbn.
    + rewrite wsub64_small by lia. split; [lia|done].
    + split; [done|]. intros _. autorewrite with len. lia.
  - rewrite wsub64_small by lia. split; [lia|done].
Qed.

(** The loop visits every subscriber's channel once and no other. *)
Lemma fan_out_loop_spec e subs chans :
  NoDup (s_id <$> subs) →
  let '(chans', dropped) := fan_out_loop e subs chans in
  (∀ id, id ∉ (s_id <$> subs) → chans' !! id = chans !! id)
  ∧ (∀ id, id ∈ dropped → id ∈ (s_id <$> subs))
  ∧ (∀ s c, s ∈ subs → chans !! s_id s = Some c →
       ∃ c', chans' !! s_id s = Some c'
         ∧ fan_out_one e s c = (c', bool_decide (s_id s ∈ dropped))).
Proof.
  revert chans. induction subs as [|s subs IH]; intros chans Hnd.
  { simpl. split_and!; [done|by intros ? ?%elem_of_nil|by intros ? ? ?%elem_of_nil]. }
  rewrite fmap_cons, NoDup_cons in Hnd. destruct Hnd as [Hs Hnd]. cbn [fan_out_loop].
  destruct (chans !! s_id s) as [c|] eqn:Hc.
  - destruct (fan_out_one e s c) as [c1 b] eqn:Hone.
    specialize (IH (<[s_id s:=c1]> chans) Hnd).
    destruct (fan_out_loop e subs _) as [chans' ids]. destruct IH as (Hout & Hdr & Hin).
    assert (s_id s ∉ ids) as Hsi by (intros ?%Hdr; done).
    assert (∀ s', s' ∈ subs → s_id s' ≠ s_id s) as Hne.
    { intros s' Hs' Heq. apply Hs. rewrite <- Heq. by apply list_elem_of_fmap_2. }
    rewrite fmap_cons. split_and!.
    + intros id Hid. apply not_elem_of_cons in Hid as [Hid1 Hid2].
      rewrite Hout by done. by rewrite lookup_insert_ne.
    + intros id. destruct b; [intros [->|?]%elem_of_cons|intros ?]; rewrite elem_of_cons; auto.
    + intros s' c' [->|Hs']%elem_of_cons Hc'.
      * exists c1. rewrite Hout, lookup_insert_eq by done. simplify_eq.
        split; [done|]. rewrite Hone. f_equal. destruct b; symmetry.
        -- apply bool_decide_eq_true_2. by left.
        -- by apply bool_decide_eq_false_2.
      * specialize (Hne _ Hs').
        destruct (Hin s' c' Hs') as (c'' & ? & ->); [by rewrite lookup_insert_ne|].
        exists c''. split; [done|]. f_equal. apply bool_decide_ext.
        destruct b; [|done]. rewrite elem_of_cons. naive_solver.
  - specialize (IH chans Hnd). destruct (fan_out_loop e subs chans) as [chans' ids].
    destruct IH as (Hout & Hdr & Hin). rewrite fmap_cons. split_and!.
    + intros id [_ Hid]%not_elem_of_cons. by apply Hout.
    + intros id ?%Hdr. by right.
    + intros s' c' [->|Hs']%elem_of_cons Hc'; [congruence|]. by apply Hin.
Qed.

Lemma drop_senders_lookup ids chans id :
  NoDup ids →
  drop_senders ids chans !! id = (if bool_decide (id ∈ ids) then drop_tx <$> chans !! id else chans !! id).
Proof.
  induction ids as [|id' ids IH]; intros Hnd; [done|].
  apply NoDup_cons in Hnd as [Hid Hnd]. cbn. destruct (decide (id = id')) as [->|Hne].
  - rewrite lookup_alter_eq. fold (drop_senders ids chans). rewrite IH by done.
    rewrite bool_decide_eq_false_2 by done. rewrite bool_decide_eq_true_2 by (by left). done.
  - rewrite lookup_alter_ne by done. fold (drop_senders ids chans). rewrite IH by done.
    repeat case_bool_decide; rewrite elem_of_cons in *; naive_solver.
Qed.
