(* ===== verification/TerminalSpec.v ===== *)
(** * The terminal as a stream with subscribers

    [TermSys] is a terminal with two ghosts: [ts_log], everything its
    publisher ever had accepted, and per subscription what its connection has
    received so far. [tstep] is every operation any task performs on the
    terminal, in any order. The invariant says that the retained window is a
    suffix of the log, and that what each subscriber received and still has
    queued is one contiguous stretch of it, reaching its end for every
    subscriber still attached. *)

From S2P Require Export TerminalFacts.

Open Scope N_scope.
Open Scope hype_scope.

(** One subscription as its connection sees it: where live output begins, the
    events received, and the one received but not yet accounted for. *)
Record View := mkView {
  v_base : N;
  v_seen : list MirrorEvent;
  v_pending : option MirrorEvent;
}.

Record TermSys := mkTermSys {
  ts_log : list byte;
  ts_inner : TerminalInner;
  ts_views : gmap N View;
}.

(** The output events among [evs] are consecutive and hold the log's bytes
    from [from] to [to]. *)
Fixpoint contiguous (log : list byte) (from to : N) (evs : list MirrorEvent) : Prop :=
  match evs with
  | [] => from = to
  | EvOutput s p :: rest =>
      s = from ∧ from + len p ≤ len log ∧ p = sliceN from (from + len p) log
      ∧ contiguous log (from + len p) to rest
  | _ :: rest => contiguous log from to rest
  end.

Definition output_bytes (evs : list MirrorEvent) : list byte :=
  evs ≫= λ e, match e with EvOutput _ p => p | _ => [] end.
Definition pending_cost (v : View) : N := from_option queue_cost 0 (v_pending v).

Inductive tstep : TermSys → TermSys → Prop :=
| st_append log i views now off payload capacity n d i' :
    term_append now off payload capacity i = (Accepted n d, i') →
    len (log ++ payload) < two63 →
    tstep (mkTermSys log i views) (mkTermSys (log ++ payload) i' views)
| st_append_refused log i views now off payload capacity outcome i' :
    term_append now off payload capacity i = (outcome, i') →
    (∀ n d, outcome ≠ Accepted n d) →
    tstep (mkTermSys log i views) (mkTermSys log i' views)
| st_resize log i views now cols rows :
    tstep (mkTermSys log i views) (mkTermSys log (term_resize now cols rows i).2 views)
| st_subscribe log i views from chunk messages bytes sub i' :
    term_subscribe from chunk messages bytes i = Ok (sub, i') →
    i_next_subscriber_id i + 1 < two64 → bytes < two63 →
    tstep (mkTermSys log i views)
      (mkTermSys log i' (<[sub_subscriber_id sub := mkView (i_next_offset i) [] None]> views))
| st_unsubscribe log i views id :
    tstep (mkTermSys log i views) (mkTermSys log (term_unsubscribe id i) views)
| st_begin_close log i views now reason :
    tstep (mkTermSys log i views) (mkTermSys log (term_begin_close now reason i).2 views)
| st_commit log i views target closed :
    target ≤ i_next_offset i →
    tstep (mkTermSys log i views) (mkTermSys log (term_commit_durable target closed i) views)
| st_shrink log i views capacity :
    tstep (mkTermSys log i views) (mkTermSys log (term_shrink_to_capacity capacity i) views)
| st_terminate log i views t :
    tstep (mkTermSys log i views) (mkTermSys log (term_terminate_subscribers t i) views)
| st_metadata log i views label cols rows term :
    tstep (mkTermSys log i views) (mkTermSys log (term_update_metadata label cols rows term i) views)
| st_input_sequence log i views now :
    tstep (mkTermSys log i views) (mkTermSys log (term_next_input_sequence now i).2 views)
| st_recv log i views id c c' e v :
    i_channels i !! id = Some c → views !! id = Some v → v_pending v = None →
    chan_recv c = (RecvEvent e, c') →
    tstep (mkTermSys log i views)
      (mkTermSys log (set_channels (<[id := c']> (i_channels i)) i)
         (<[id := mkView (v_base v) (v_seen v ++ [e]) (Some e)]> views))
| st_account log i views id c e v :
    i_channels i !! id = Some c → views !! id = Some v → v_pending v = Some e →
    tstep (mkTermSys log i views)
      (mkTermSys log (set_channels (<[id := chan_account e c]> (i_channels i)) i)
         (<[id := mkView (v_base v) (v_seen v) None]> views))
| st_drop_receiver log i views id :
    tstep (mkTermSys log i views)
      (mkTermSys log (set_channels (alter drop_rx id (i_channels i)) i) views).

(** ** The invariant *)

(** What a channel holds, for a subscriber still attached ([live]) or not. *)
Record chan_ok (log : list byte) (live : Prop) (v : View) (c : Chan) : Prop := mkChanOk {
  co_stream : ∃ to, contiguous log (v_base v) to (v_seen v ++ ch_queue c)
                    ∧ to ≤ len log ∧ (live → to = len log);
  co_bytes : ch_queued_bytes c = len (output_bytes (ch_queue c)) + pending_cost v;
  co_tx : ch_tx_open c = true ↔ live;
  co_small : ch_queued_bytes c < two64;
}.

(** What an attached subscriber's channel is bounded by. *)
Definition sub_ok (chans : gmap N Chan) (s : Subscriber) : Prop :=
  s_max_queued_bytes s < two63
  ∧ ∃ c, chans !! s_id s = Some c
      ∧ ch_queued_bytes c ≤ s_max_queued_bytes s ∧ len (ch_queue c) ≤ ch_capacity c.

Record fan_inv (log : list byte) (subs : list Subscriber) (chans : gmap N Chan) (next_id : N)
    (views : gmap N View) : Prop := mkFanInv {
  fi_nodup : NoDup (s_id <$> subs);
  fi_subs : ∀ s, s ∈ subs → sub_ok chans s;
  fi_chans : ∀ id c, chans !! id = Some c →
    id < next_id ∧ ∃ v, views !! id = Some v ∧ chan_ok log (id ∈ (s_id <$> subs)) v c;
  fi_views : ∀ id v, views !! id = Some v → id < next_id;
}.

Definition sys_inv (s : TermSys) : Prop :=
  let i := ts_inner s in
  term_repr (ts_log s) i ∧ len (ts_log s) < two63
  ∧ fan_inv (ts_log s) (i_subscribers i) (i_channels i) (i_next_subscriber_id i) (ts_views s).

(** ** Streams *)

Lemma contiguous_app log from mid to evs1 evs2 :
  contiguous log from mid evs1 → contiguous log mid to evs2 → contiguous log from to (evs1 ++ evs2).
Proof.
  revert from. induction evs1 as [|e evs1 IH]; intros from; cbn; [by intros ->|].
  destruct e; naive_solver.
Qed.

Lemma contiguous_grow log data from to evs :
  contiguous log from to evs → contiguous (log ++ data) from to evs.
Proof.
  revert from. induction evs as [|e evs IH]; intros from; cbn; [done|]. destruct e; auto.
  intros (-> & Hle & Hp & Hc). split_and!; [done|autorewrite with len; lia| |auto].
  by rewrite sliceN_app_l.
Qed.

(** The payloads of a contiguous stretch are the log between its ends. *)
Lemma contiguous_bytes log from to evs :
  contiguous log from to evs → from ≤ to ∧ output_bytes evs = sliceN from to log.
Proof.
  revert from. induction evs as [|e evs IH]; intros from Hc; cbn in Hc.
  - subst. split; [lia|]. by rewrite sliceN_nil by lia.
  - destruct e as [s p| | |]; [|by apply IH..].
    destruct Hc as (-> & Hle & Hp & Hc). destruct (IH _ Hc) as [Hto IHp].
    split; [lia|]. change (output_bytes (EvOutput from p :: evs)) with (p ++ output_bytes evs).
    rewrite IHp. rewrite Hp at 1. apply sliceN_split; lia.
Qed.

(** An event extends the stream: output by its payload, the rest by nothing. *)
Definition ext_log (log : list byte) (e : MirrorEvent) : list byte :=
  match e with EvOutput _ p => log ++ p | _ => log end.
Definition ext_ok (log : list byte) (e : MirrorEvent) : Prop :=
  match e with EvOutput s _ => s = len log | _ => True end.

Lemma contiguous_ext log e :
  ext_ok log e → contiguous (ext_log log e) (len log) (len (ext_log log e)) [e].
Proof.
  destruct e as [s p| | |]; cbn; try done. intros ->.
  autorewrite with len. split_and!; [done|lia| |done].
  rewrite <- len_app. by rewrite sliceN_app_r.
Qed.

Lemma ext_log_prefix log e : ∃ data, ext_log log e = log ++ data.
Proof. destruct e; cbn; eauto using app_nil_r. all: exists []; by rewrite app_nil_r. Qed.

Lemma output_bytes_snoc evs e : len (output_bytes (evs ++ [e])) = len (output_bytes evs) + queue_cost e.
Proof.
  unfold output_bytes. rewrite bind_app, len_app. f_equal. cbn.
  destruct e; cbn; autorewrite with len; lia.
Qed.

(** ** Fan-out keeps every stream contiguous *)

Section fan_out_inv.
  Context (log : list byte) (e : MirrorEvent) (views : gmap N View) (next_id : N).
  Hypothesis (Hext : ext_ok log e) (Hlen : len (ext_log log e) < two63).

  (** A channel the event was queued to. *)
Lemma chan_ok_kept s c v :
    chan_ok log True v c → ch_queued_bytes c ≤ s_max_queued_bytes s →
    s_max_queued_bytes s < two63 →
    ∀ c', fan_out_one e s c = (c', false) →
      chan_ok (ext_log log e) True v c'
      ∧ ch_queued_bytes c' ≤ s_max_queued_bytes s ∧ len (ch_queue c') ≤ ch_capacity c'.
  Proof.
    intros [(to & Hc & Hto & Hlive) Hb Htx _] Hq Hmax c' Hone.
    rewrite Hlive in Hc by done.
    assert (ch_queued_bytes c + queue_cost e < two64) as Hsum.
    { destruct e; cbn in *; autorewrite with len in *; lia. }
    pose proof (fan_out_one_queue e s c) as Hqueue. pose proof (fan_out_one_bytes e s c Hsum) as Hbytes.
    rewrite Hone in Hqueue, Hbytes. destruct Hqueue as (Hq' & Htx' & _ & Hcap').
    destruct Hbytes as [Hb' Hle]. destruct (Hle eq_refl). split; [|by rewrite Hcap'].
    split.
    - exists (len (ext_log log e)). split_and!; [|done|done]. rewrite Hq', app_assoc.
      eapply contiguous_app; [|by apply contiguous_ext].
      destruct (ext_log_prefix log e) as [data ->]. by apply contiguous_grow.
    - rewrite Hb', Hq', output_bytes_snoc, Hb. lia.
    - by rewrite Htx'.
    - lia.
  Qed.
End fan_out_inv.

(** A channel left out: the stream it holds stops where it was. *)
Lemma chan_ok_left log log' live v c c' :
  (∃ data, log' = log ++ data) → chan_ok log live v c → ch_queue c' = ch_queue c →
  ch_queued_bytes c' = ch_queued_bytes c → ch_tx_open c' = false →
  chan_ok log' False v c'.
Proof.
  intros [data ->] [(to & Hc & Hto & Hlive) Hb Htx Hsm] Hq Hb' Htx'. split.
  - exists to. rewrite Hq. split_and!; [by apply contiguous_grow|len_lia|done].
  - by rewrite Hb', Hq.
  - by rewrite Htx'.
  - by rewrite Hb'.
Qed.

Lemma chan_ok_iff log P Q v c : (P ↔ Q) → chan_ok log P v c → chan_ok log Q v c.
Proof. intros HPQ [(to & ? & ? & ?) ? ? ?]. split; [exists to|..]; naive_solver. Qed.

(** Which subscribers fan-out keeps. *)
Lemma fan_out_subscribers e i chans dropped :
  fan_out_loop e (i_subscribers i) (i_channels i) = (chans, dropped) →
  i_subscribers (fan_out e i) = filter (λ s, s_id s ∉ dropped) (i_subscribers i)
  ∧ i_channels (fan_out e i) = drop_senders dropped chans.
Proof. intros H. unfold fan_out. by rewrite H. Qed.

Lemma fan_out_loop_dropped_nodup e subs chans :
  NoDup (s_id <$> subs) → NoDup (fan_out_loop e subs chans).2.
Proof.
  revert chans. induction subs as [|s subs IH]; intros chans; [constructor|].
  rewrite fmap_cons, NoDup_cons. intros [Hs Hnd]. cbn [fan_out_loop].
  destruct (chans !! s_id s) as [c|]; [|by apply IH].
  destruct (fan_out_one e s c) as [c1 b].
  pose proof (fan_out_loop_spec e subs (<[s_id s:=c1]> chans) Hnd) as Hspec.
  specialize (IH (<[s_id s:=c1]> chans) Hnd).
  destruct (fan_out_loop e subs _) as [chans' ids]. destruct Hspec as (_ & Hdr & _).
  destruct b; [|done]. cbn. apply NoDup_cons. split; [|done]. by intros ?%Hdr.
Qed.

Lemma id_elem (subs : list Subscriber) (id : N) :
  id ∈ (s_id <$> subs) ↔ ∃ s, s ∈ subs ∧ s_id s = id.
Proof. rewrite list_elem_of_fmap. naive_solver. Qed.

Lemma fan_out_fan_inv log e i views next_id :
  ext_ok log e → len (ext_log log e) < two63 →
  fan_inv log (i_subscribers i) (i_channels i) next_id views →
  fan_inv (ext_log log e) (i_subscribers (fan_out e i)) (i_channels (fan_out e i)) next_id views.
Proof.
  intros Hext Hlen [Hnd Hsubs Hchans Hviews].
  pose proof (fan_out_loop_spec e _ (i_channels i) Hnd) as Hspec.
  pose proof (fan_out_loop_dropped_nodup e _ (i_channels i) Hnd) as Hdnd.
  destruct (fan_out_loop e (i_subscribers i) (i_channels i)) as [chans dropped] eqn:Hloop.
  destruct Hspec as (Hout & Hdr & Hin). cbn in Hdnd.
  destruct (fan_out_subscribers e i chans dropped Hloop) as [-> ->].
  set (kept := filter (λ s, s_id s ∉ dropped) (i_subscribers i)).
  (* A kept subscriber's channel got the event. *)
  assert (∀ s, s ∈ i_subscribers i → s_id s ∉ dropped → ∃ c' v,
    drop_senders dropped chans !! s_id s = Some c' ∧ views !! s_id s = Some v
    ∧ s_id s < next_id ∧ s_max_queued_bytes s < two63
    ∧ chan_ok (ext_log log e) True v c'
    ∧ ch_queued_bytes c' ≤ s_max_queued_bytes s ∧ len (ch_queue c') ≤ ch_capacity c') as Hkept.
  { intros s Hs Hnot. destruct (Hsubs s Hs) as (Hmax & c & Hc & Hq & Hcap).
    destruct (Hchans _ _ Hc) as (Hid & v & Hv & Hok).
    destruct (Hin s c Hs Hc) as (c' & Hc' & Hone). rewrite bool_decide_eq_false_2 in Hone by done.
    exists c', v. rewrite drop_senders_lookup, bool_decide_eq_false_2 by done.
    assert (chan_ok log True v c) as Hok'.
    { apply (chan_ok_iff _ (s_id s ∈ (s_id <$> i_subscribers i))); [|done].
      rewrite id_elem. naive_solver. }
    destruct (chan_ok_kept log e Hext Hlen s c v Hok' Hq Hmax c' Hone) as (? & ? & ?). done. }
  assert (∀ id, id ∈ (s_id <$> kept) ↔ id ∈ (s_id <$> i_subscribers i) ∧ id ∉ dropped) as Hids.
  { intros id. rewrite !id_elem. unfold kept. setoid_rewrite list_elem_of_filter. naive_solver. }
  split.
  - by apply NoDup_fmap_filter.
  - intros s [Hnot Hs]%list_elem_of_filter.
    destruct (Hkept s Hs Hnot) as (c' & v & ? & ? & ? & ? & ? & ? & ?). by split; [|exists c'].
  - intros id c' Hc'. destruct (decide (id ∈ dropped)) as [Hd|Hd].
    + pose proof (Hdr _ Hd) as (s & Hs & <-)%id_elem.
      destruct (Hsubs s Hs) as (_ & c & Hc & _).
      destruct (Hin s c Hs Hc) as (c1 & Hc1 & Hone). rewrite bool_decide_eq_true_2 in Hone by done.
      rewrite drop_senders_lookup, bool_decide_eq_true_2, Hc1 in Hc' by done. simplify_eq/=.
      destruct (Hchans _ _ Hc) as (Hid & v & Hv & Hok). split; [done|]. exists v. split; [done|].
      pose proof (fan_out_one_queue e s c) as Hq. rewrite Hone in Hq. destruct Hq as (Hq & _).
      apply (chan_ok_iff _ False); [rewrite Hids; naive_solver|].
      eapply chan_ok_left; [apply ext_log_prefix|done|done| |done].
      pose proof (fan_out_one_bytes e s c) as Hb. rewrite Hone in Hb. apply Hb.
      destruct (Hsubs s Hs) as (? & c2 & ? & ? & ?). simplify_eq. destruct e; cbn in *; len_lia.
    + destruct (decide (id ∈ (s_id <$> i_subscribers i))) as [Hi|Hi].
      * apply id_elem in Hi as (s & Hs & <-).
        destruct (Hkept s Hs Hd) as (c'' & v & Hc'' & ? & ? & ? & Hok & _). simplify_eq.
        split; [done|]. exists v. split; [done|].
        apply (chan_ok_iff _ True); [|done]. rewrite Hids, id_elem. naive_solver.
      * rewrite drop_senders_lookup, bool_decide_eq_false_2, Hout in Hc' by done.
        destruct (Hchans _ _ Hc') as (Hid & v & Hv & Hok). split; [done|]. exists v.
        split; [done|]. apply (chan_ok_iff _ False); [rewrite Hids; naive_solver|].
        eapply chan_ok_left; [apply ext_log_prefix|done..|].
        destruct (ch_tx_open c') eqn:E; [|done]. by apply Hok in E.
  - done.
Qed.

(** ** Every operation preserves the invariant *)

(** Subscribers leave and their senders are dropped. *)
Lemma drop_subs_fan_inv log subs subs' chans ids next_id views :
  fan_inv log subs chans next_id views →
  NoDup (s_id <$> subs') → NoDup ids →
  (∀ s, s ∈ subs' ↔ s ∈ subs ∧ s_id s ∉ ids) →
  fan_inv log subs' (drop_senders ids chans) next_id views.
Proof.
  intros [Hnd Hsubs Hchans Hviews] Hnd' Hids Hmem. split; [done| | |done].
  - intros s [Hs Hnot]%Hmem. destruct (Hsubs s Hs) as (Hmax & c & Hc & ?).
    split; [done|]. exists c. by rewrite drop_senders_lookup, bool_decide_eq_false_2.
  - intros id c. rewrite drop_senders_lookup by done. case_bool_decide as Hid.
    + intros (c0 & Hc & ->)%fmap_Some.
      destruct (Hchans _ _ Hc) as (Hlt & v & Hv & Hok). split; [done|]. exists v. split; [done|].
      apply (chan_ok_iff _ False); [rewrite id_elem; naive_solver|].
      eapply chan_ok_left; [|done..]. exists []. by rewrite app_nil_r.
    + intros Hc. destruct (Hchans _ _ Hc) as (Hlt & v & Hv & Hok). split; [done|]. exists v.
      split; [done|]. eapply chan_ok_iff; [|done]. rewrite !id_elem. naive_solver.
Qed.

(** A change to a channel that leaves its queue, count and sender alone. *)
Definition chan_same (c c' : Chan) : Prop :=
  ch_queue c' = ch_queue c ∧ ch_queued_bytes c' = ch_queued_bytes c
  ∧ ch_tx_open c' = ch_tx_open c ∧ ch_capacity c' = ch_capacity c.

Lemma alter_fan_inv log subs chans id f next_id views :
  (∀ c, chan_same c (f c)) →
  fan_inv log subs chans next_id views → fan_inv log subs (alter f id chans) next_id views.
Proof.
  intros Hf [Hnd Hsubs Hchans Hviews].
  assert (∀ j c', alter f id chans !! j = Some c' → ∃ c, chans !! j = Some c ∧ chan_same c c') as Hsame.
  { intros j c'. destruct (decide (id = j)) as [->|].
    - rewrite lookup_alter_eq. intros (c & ? & ->)%fmap_Some. eauto.
    - rewrite lookup_alter_ne by done. intros ?. by exists c'. }
  split; [done| | |done].
  - intros s Hs. destruct (Hsubs s Hs) as (Hmax & c & Hc & Hq & Hcap). split; [done|].
    destruct (alter f id chans !! s_id s) as [c'|] eqn:Hc'.
    + destruct (Hsame _ _ Hc') as (c0 & ? & Hq' & Hb' & _ & Hcap'). simplify_eq.
      exists c'. by rewrite Hq', Hb', Hcap'.
    + destruct (decide (id = s_id s)) as [->|]; simplify_map_eq.
  - intros j c' Hc'. destruct (Hsame _ _ Hc') as (c & Hc & Hq & Hb & Htx & _).
    destruct (Hchans _ _ Hc) as (Hlt & v & Hv & [Hs' ? ? ?]). split; [done|]. exists v.
    split; [done|]. by split; rewrite ?Hq, ?Hb, ?Htx.
Qed.

Lemma fan_inv_new log subs chans next_id views queue_messages queue_bytes :
  fan_inv log subs chans next_id views → queue_bytes < two63 →
  fan_inv log (subs ++ [mkSubscriber next_id queue_bytes])
    (<[next_id := mkChan [] (N.max queue_messages 1) true true 0 false None]> chans)
    (next_id + 1) (<[next_id := mkView (len log) [] None]> views).
Proof.
  intros [Hnd Hsubs Hchans Hviews] Hb.
  assert (∀ s, s ∈ subs → s_id s ≠ next_id) as Hne.
  { intros s Hs Heq. destruct (Hsubs s Hs) as (_ & c & Hc & _).
    destruct (Hchans _ _ Hc). lia. }
  split.
  - rewrite fmap_app, NoDup_app. split_and!; [done| |apply NoDup_singleton].
    intros id (s & Hs & <-)%id_elem. cbn. rewrite list_elem_of_singleton. by apply Hne.
  - intros s [Hs|Hs]%elem_of_app.
    + destruct (Hsubs s Hs) as (Hmax & c & Hc & ?). split; [done|]. exists c.
      rewrite lookup_insert_ne by (intros ?; by eapply Hne). done.
    + apply list_elem_of_singleton in Hs as ->. split; [done|]. eexists.
      rewrite lookup_insert_eq. split_and!; [done|apply N.le_0_l|apply N.le_0_l].
  - intros id c. rewrite lookup_insert. case_decide as Hid.
    + intros [= <-]. subst id. split; [lia|]. eexists. rewrite lookup_insert_eq. split; [done|].
      split; cbn.
      * exists (len log). done.
      * done.
      * split; [|done]. intros _. rewrite fmap_app, elem_of_app. right. by left.
      * done.
    + intros Hc. destruct (Hchans _ _ Hc) as (Hlt & v & Hv & Hok). split; [lia|]. exists v.
      rewrite lookup_insert_ne by done. split; [done|].
      eapply chan_ok_iff; [|done]. rewrite fmap_app, elem_of_app. split; [by left|].
      by intros [?|?%list_elem_of_singleton].
  - intros id v. rewrite lookup_insert. case_decide; [lia|]. intros ?%Hviews. lia.
Qed.

(** What the invariant says of the fields the operations below leave alone. *)
Lemma sys_inv_fields log i i' views :
  sys_inv (mkTermSys log i views) →
  term_repr log i' →
  i_subscribers i' = i_subscribers i → i_channels i' = i_channels i →
  i_next_subscriber_id i' = i_next_subscriber_id i →
  sys_inv (mkTermSys log i' views).
Proof. intros (_ & Hl & Hf) Hr Hs Hc Hn. split_and!; [done|done|]. cbn in *. by rewrite Hs, Hc, Hn. Qed.

(** Fanning out an event that carries no output. *)
Lemma sys_inv_fan_out log i e views :
  queue_cost e = 0 → (∀ s p, e ≠ EvOutput s p) →
  sys_inv (mkTermSys log i views) → sys_inv (mkTermSys log (fan_out e i) views).
Proof.
  intros _ Hno (Hr & Hl & Hf). cbn in *. split_and!; cbn.
  - unfold term_repr in *. by autorewrite with term.
  - done.
  - autorewrite with term.
    pose proof (fan_out_fan_inv log e i views (i_next_subscriber_id i)) as H.
    destruct e as [s p| | |]; [by destruct (Hno s p)|by apply H..].
Qed.

Lemma term_append_inv log i views now off payload capacity n d i' :
  sys_inv (mkTermSys log i views) → len (log ++ payload) < two63 →
  term_append now off payload capacity i = (Accepted n d, i') →
  sys_inv (mkTermSys (log ++ payload) i' views) ∧ n = len (log ++ payload).
Proof.
  intros ([Hr [Hn Hd]] & Hl & Hf) Hlt. cbn in *. unfold term_append.
  case_bool_decide; [|done]. case_N; [|done]. cbn [negb].
  pose proof (ring_set_capacity_repr _ _ capacity Hr) as Hcap.
  destruct (ring_set_capacity capacity (i_ring i)) as [r1 ev]. destruct Hcap as [Hr1 _].
  destruct payload as [|b payload]; cbn [is_empty].
  { intros [= <- <- <-]. rewrite app_nil_r.
    split; [|done]. split_and!; [by split_and!|done|done]. }
  set (p := b :: payload) in *. cbn [fst].
  pose proof (ring_append_repr _ r1 p Hr1 ltac:(lia)) as Happ. cbn [i_ring set_ring].
  destruct (ring_append p r1) as [r2 ev2]. destruct Happ as [Hr2 _]. cbn [fst].
  set (j := set_last_activity _ _).
  assert (i_subscribers j = i_subscribers i ∧ i_channels j = i_channels i
    ∧ i_next_subscriber_id j = i_next_subscriber_id i ∧ i_ring j = r2
    ∧ i_next_offset j = len (log ++ p) ∧ i_durable_offset j = i_durable_offset i)
    as (Hj1 & Hj2 & Hj3 & Hj4 & Hj5 & Hj6).
  { unfold j. cbn. rewrite Hn.
    destruct (i_dirty_since i); cbn; (split_and!; [done..| |done]);
      rewrite len_app, wadd64_small; [done| |done|]; len_lia. }
  change (i_next_offset (set_ring r1 i)) with (i_next_offset i). rewrite Hn.
  intros [= <- _ <-]. autorewrite with term. split; [|done]. split_and!; cbn.
  - unfold term_repr. autorewrite with term. rewrite Hj4, Hj5, Hj6. split_and!; [done|done|len_lia].
  - done.
  - autorewrite with term. rewrite Hj3.
    apply (fan_out_fan_inv log (EvOutput (len log) p)); [done|done|]. by rewrite Hj1, Hj2.
Qed.

Lemma term_append_refused_inv i now off payload capacity outcome i' :
  term_append now off payload capacity i = (outcome, i') → (∀ n d, outcome ≠ Accepted n d) →
  i' = i.
Proof.
  unfold term_append. case_bool_decide; cbn; [|by intros [= _ <-]].
  case_N; cbn; [|by intros [= _ <-]].
  destruct payload; intros [= <- _] Hne; by edestruct Hne.
Qed.

Lemma term_commit_inv log i views target closed :
  sys_inv (mkTermSys log i views) → target ≤ i_next_offset i →
  sys_inv (mkTermSys log (term_commit_durable target closed i) views).
Proof.
  intros Hinv Ht. unfold term_commit_durable.
  set (i1 := if _ <? target then _ else i).
  assert (sys_inv (mkTermSys log i1 views)) as H1.
  { unfold i1. case_N; [|done]. apply sys_inv_fan_out; [done|done|].
    pose proof Hinv as ([Hr [Hn Hd]] & _). cbn in *.
    eapply sys_inv_fields; [done|split_and!; cbn; [done|done|lia]|done..]. }
  clearbody i1. set (i2 := if i_next_offset i1 <=? i_durable_offset i1 then set_dirty_since None i1 else i1).
  assert (sys_inv (mkTermSys log i2 views)) as H2.
  { unfold i2. case_N; [|done]. eapply sys_inv_fields; [done|apply H1|done..]. }
  clearbody i2. set (i3 := set_frames_since_checkpoint 0 i2).
  assert (sys_inv (mkTermSys log i3 views)) as H3
    by (eapply sys_inv_fields; [done|apply H2|done..]).
  clearbody i3. destruct closed as [reason|]; [|done].
  set (i4 := set_lifecycle _ i3).
  assert (sys_inv (mkTermSys log i4 views)) as H4
    by (eapply sys_inv_fields; [done|apply H3|done..]).
  clearbody i4.
  pose proof (sys_inv_fan_out log i4 (EvClosed reason (i_next_offset i4) (i_durable_offset i4)) views
    eq_refl ltac:(done) H4) as H5.
  eapply sys_inv_fields; [done|apply H5|done..].
Qed.

Lemma term_repr_set_capacity log i capacity :
  term_repr log i → term_repr log (set_ring (ring_set_capacity capacity (i_ring i)).1 i).
Proof.
  intros [Hr [Hn Hd]]. pose proof (ring_set_capacity_repr _ _ capacity Hr) as H.
  destruct (ring_set_capacity capacity (i_ring i)). by split_and!; [apply H|..].
Qed.

Lemma term_subscribe_inv log i views from chunk messages bytes sub i' :
  sys_inv (mkTermSys log i views) →
  term_subscribe from chunk messages bytes i = Ok (sub, i') →
  i_next_subscriber_id i + 1 < two64 → bytes < two63 →
  sys_inv (mkTermSys log i' (<[sub_subscriber_id sub := mkView (i_next_offset i) [] None]> views)).
Proof.
  intros ([Hr [Hn Hd]] & Hl & Hf). cbn in Hr, Hn, Hd, Hl, Hf. unfold term_subscribe.
  case_N; [done|]. destruct (if default _ _ <? _ then _ else _) as [replay_start gap].
  intros [= <- <-] Hid Hb. split_and!; cbn; [done|done|].
  rewrite wadd64_small, Hn by done. by apply fan_inv_new.
Qed.

Lemma foldr_terminate_inv log subs ids chans next_id views t :
  fan_inv log subs chans next_id views →
  fan_inv log subs (foldr (λ id m, alter (set_terminate t) id m) chans ids) next_id views.
Proof. intros H. induction ids; [done|]. cbn. by apply alter_fan_inv. Qed.

(** Receiving moves an event from the queue to what was seen; accounting
    settles it. *)
Lemma chan_step_inv log subs chans next_id views id c c' v v' :
  fan_inv log subs chans next_id views →
  chans !! id = Some c → views !! id = Some v →
  (∀ live, chan_ok log live v c → chan_ok log live v' c') →
  ch_queued_bytes c' ≤ ch_queued_bytes c → len (ch_queue c') ≤ len (ch_queue c) →
  ch_capacity c' = ch_capacity c →
  fan_inv log subs (<[id := c']> chans) next_id (<[id := v']> views).
Proof.
  intros [Hnd Hsubs Hchans Hviews] Hc Hv Hok Hb Hq Hcap. split; [done| | |].
  - intros s Hs. destruct (Hsubs s Hs) as (Hmax & c0 & Hc0 & ?). split; [done|].
    destruct (decide (id = s_id s)) as [->|].
    + exists c'. rewrite lookup_insert_eq. simplify_eq. rewrite Hcap. split_and!; [done|lia|lia].
    + exists c0. by rewrite lookup_insert_ne.
  - intros j cj. rewrite lookup_insert. case_decide.
    + intros [= <-]. subst j. destruct (Hchans _ _ Hc) as (? & v0 & ? & ?). simplify_eq.
      split; [done|]. exists v'. rewrite lookup_insert_eq. auto.
    + intros Hj. destruct (Hchans _ _ Hj) as (? & v0 & ? & ?). split; [done|]. exists v0.
      by rewrite lookup_insert_ne.
  - intros j vj. rewrite lookup_insert. case_decide; [|by apply Hviews].
    intros _. subst j. by eapply Hviews.
Qed.

Lemma chan_recv_ok log live v c c' e :
  v_pending v = None → chan_recv c = (RecvEvent e, c') →
  chan_ok log live v c → chan_ok log live (mkView (v_base v) (v_seen v ++ [e]) (Some e)) c'.
Proof.
  unfold chan_recv. intros Hp. destruct (ch_queue c) as [|e0 rest] eqn:Hq; [by destruct (ch_tx_open c)|].
  intros [= -> <-] [(to & Hc & ? & ?) Hb Htx Hsm]. rewrite Hq in Hc, Hb.
  unfold pending_cost in Hb. rewrite Hp in Hb. split; cbn; [|..|done|done].
  - exists to. by rewrite <- app_assoc.
  - unfold pending_cost; cbn. change (e :: rest) with ([e] ++ rest) in Hb.
    unfold output_bytes in *. rewrite bind_app, len_app in Hb. cbn in Hb.
    destruct e; cbn in *; rewrite ?app_nil_r in Hb; autorewrite with len in Hb; lia.
Qed.

Lemma chan_account_ok log live v c e :
  v_pending v = Some e → chan_ok log live v c →
  chan_ok log live (mkView (v_base v) (v_seen v) None) (chan_account e c)
  ∧ ch_queued_bytes (chan_account e c) ≤ ch_queued_bytes c
  ∧ ch_queue (chan_account e c) = ch_queue c.
Proof.
  intros Hp [(to & Hc & ? & ?) Hb Htx Hsm]. unfold pending_cost in Hb. rewrite Hp in Hb.
  cbn [from_option] in Hb.
  assert (∀ n, n = ch_queued_bytes c - queue_cost e →
    chan_ok log live (mkView (v_base v) (v_seen v) None) (set_queued n c)) as Hok.
  { intros n ->. split; [by exists to| |done|]; unfold pending_cost;
      cbn [v_pending from_option set_queued ch_queued_bytes ch_queue]; lia. }
  destruct e as [s p| | |]; cbn [chan_account queue_cost] in *;
    [rewrite wsub64_small by lia; split; [by apply Hok|cbn [set_queued ch_queued_bytes ch_queue]; split; [lia|done]]|..];
    (split; [|done]); specialize (Hok (ch_queued_bytes c) ltac:(lia)); by destruct c.
Qed.

Lemma tstep_inv s s' : tstep s s' → sys_inv s → sys_inv s'.
Proof.
  destruct 1 as [log i views now off payload capacity n d i' Happ Hlt
    |log i views now off payload capacity outcome i' Happ Hne|log i views now cols rows
    |log i views from chunk messages bytes sub i' Hsub Hid Hb|log i views id|log i views now reason
    |log i views target closed Ht|log i views capacity|log i views t
    |log i views label cols rows term|log i views now
    |log i views id c c' e v Hc Hv Hp Hrecv|log i views id c e v Hc Hv Hp|log i views id]; intros Hinv.
  - by eapply term_append_inv.
  - by rewrite (term_append_refused_inv _ _ _ _ _ _ _ Happ Hne).
  - unfold term_resize. case_bool_decide; [|done]. cbn [negb snd].
    apply sys_inv_fan_out; [done|done|]. eapply sys_inv_fields; [done|apply Hinv|done..].
  - by eapply term_subscribe_inv.
  - destruct Hinv as (Hr & Hl & Hf). split_and!; [done|done|]. cbn.
    eapply drop_subs_fan_inv; [done|by apply NoDup_fmap_filter, Hf..|].
    intros s. rewrite list_elem_of_filter, id_elem. setoid_rewrite list_elem_of_filter. naive_solver.
  - unfold term_begin_close. case_bool_decide; [|done].
    eapply sys_inv_fields; [done|apply Hinv|done..].
  - by apply term_commit_inv.
  - unfold term_shrink_to_capacity. case_N; [done|].
    eapply sys_inv_fields; [done|apply term_repr_set_capacity, Hinv|done..].
  - destruct Hinv as (Hr & Hl & Hf). split_and!; [done|done|]. cbn.
    eapply drop_subs_fan_inv; [by apply foldr_terminate_inv|constructor|apply Hf|].
    intros s. rewrite elem_of_nil, id_elem. naive_solver.
  - eapply sys_inv_fields; [done| |by unfold term_update_metadata; repeat case_goal..].
    unfold term_update_metadata. destruct Hinv as (Hr & _). unfold term_repr in *.
    by repeat case_goal.
  - eapply sys_inv_fields; [done|apply Hinv|done..].
  - destruct Hinv as (Hr & Hl & Hf). split_and!; [done|done|]. cbn.
    assert (∃ rest, ch_queue c = e :: rest ∧ c' = set_queue rest c) as (rest & Hq & ->).
    { unfold chan_recv in Hrecv. destruct (ch_queue c); [by destruct (ch_tx_open c)|].
      simplify_eq. eauto. }
    eapply chan_step_inv; [done..| | | |done].
    + intros live. by apply chan_recv_ok.
    + done.
    + cbn. rewrite Hq. len_lia.
  - destruct Hinv as (Hr & Hl & Hf). split_and!; [done|done|]. cbn in *.
    destruct (fi_chans _ _ _ _ _ Hf _ _ Hc) as (_ & v0 & ? & Hok). simplify_eq.
    destruct (chan_account_ok _ _ _ _ _ Hp Hok) as (_ & ? & Hq).
    eapply chan_step_inv; [done..| |done|by rewrite Hq|by destruct e].
    intros live Hlive. by apply chan_account_ok.
  - destruct Hinv as (Hr & Hl & Hf). split_and!; [done|done|]. cbn. by apply alter_fan_inv.
Qed.

Lemma tsteps_inv s s' : rtc tstep s s' → sys_inv s → sys_inv s'.
Proof. induction 1; eauto using tstep_inv. Qed.
