(* ===== verification/TerminalProps.v ===== *)
(** * What a terminal guarantees its publisher and its subscribers

    The theorems about [TermSys]: a terminal built from its stored row keeps
    the newest part of its output whatever its tasks do; a subscription's
    replay and live output join without a gap or a repeat; an append is
    accepted exactly when it continues the stream; after the close nothing
    more is accepted. *)

From S2P Require Export TerminalSpec.

Open Scope N_scope.
Open Scope hype_scope.

(** ** From a stored row *)

Lemma term_from_row_repr row capacity log :
  t_earliest_offset row ≤ t_durable_offset row → t_durable_offset row = len log →
  len log < two63 →
  let i := h_inner (term_from_row row capacity (dropN (t_earliest_offset row) log)) in
  term_repr log i
  ∧ r_earliest (i_ring i) = window_start (t_earliest_offset row) (N.max capacity 1) log
  ∧ i_durable_offset i = len log.
Proof.
  intros He Hd Hl. cbn -[ring_from_retained N.max].
  destruct (ring_from_retained_repr capacity (t_earliest_offset row) log) as [Hr Hs]; [lia|lia|].
  pose proof (ring_repr_end _ _ Hr) as Hend.
  split_and!; [split_and!; [done| |] |done|done]; cbn -[ring_from_retained N.max]; rewrite ?Hend; lia.
Qed.

Definition sys_start (h : TerminalHandle) (log : list byte) : TermSys := mkTermSys log (h_inner h) ∅.

Lemma sys_start_inv row capacity log :
  t_earliest_offset row ≤ t_durable_offset row → t_durable_offset row = len log →
  len log < two63 →
  sys_inv (sys_start (term_from_row row capacity (dropN (t_earliest_offset row) log)) log).
Proof.
  intros He Hd Hl. split_and!; [by apply term_from_row_repr|done|].
  split; cbn; [constructor|by intros ? ?%elem_of_nil|done|done].
Qed.

(** ** What never goes back *)

Lemma tstep_log s s' : tstep s s' → ∃ data, ts_log s' = ts_log s ++ data.
Proof. destruct 1; cbn; try (exists []; by rewrite app_nil_r). eauto. Qed.

Lemma tsteps_log s s' : rtc tstep s s' → ∃ data, ts_log s' = ts_log s ++ data.
Proof.
  induction 1 as [s|s s1 s2 H _ [data2 ->]]; [exists []; by rewrite app_nil_r|].
  apply tstep_log in H as [data1 ->]. exists (data1 ++ data2). by rewrite app_assoc.
Qed.

(** A subscription's view only gains events. *)
Definition view_le (v v' : View) : Prop := v_base v' = v_base v ∧ v_seen v `prefix_of` v_seen v'.

#[export] Instance view_le_preorder : PreOrder view_le.
Proof.
  split; [by intros v|]. intros v1 v2 v3 [H1 ?] [H2 ?].
  split; [by rewrite H2|]. by etrans.
Qed.

Lemma tstep_views s s' id v :
  tstep s s' → sys_inv s → ts_views s !! id = Some v →
  ∃ v', ts_views s' !! id = Some v' ∧ view_le v v'.
Proof.
  intros Hstep (_ & _ & Hf) Hv.
  assert (∀ k w', (k = id → view_le v w') →
    ∃ v', <[k:=w']> (ts_views s) !! id = Some v' ∧ view_le v v') as Hins.
  { intros k w' Hw. destruct (decide (k = id)) as [->|].
    - rewrite lookup_insert_eq. eauto.
    - rewrite lookup_insert_ne by done. by exists v. }
  destruct Hstep as [| | |log i views from chunk messages bytes sub i' Hsub| | | | | | | 
    |log i views k c c' e w Hc Hw Hp Hrecv|log i views k c e w Hc Hw Hp|]; cbn in *;
    try by exists v.
  - apply Hins. intros <-. exfalso. apply (fi_views _ _ _ _ _ Hf) in Hv.
    revert Hsub. unfold term_subscribe. case_N; [done|].
    destruct (if default _ _ <? _ then _ else _). intros [= <- _]. cbn in Hv. lia.
  - apply Hins. intros ->. simplify_eq. split; [done|]. by eexists.
  - apply Hins. intros ->. simplify_eq. by split.
Qed.

Lemma tsteps_views s s' id v :
  rtc tstep s s' → sys_inv s → ts_views s !! id = Some v →
  ∃ v', ts_views s' !! id = Some v' ∧ view_le v v'.
Proof.
  intros Hs. revert v. induction Hs as [s|s s1 s2 H _ IH]; intros v Hi Hv; [by exists v|].
  destruct (tstep_views _ _ _ _ H Hi Hv) as (v1 & Hv1 & Hle).
  destruct (IH v1 (tstep_inv _ _ H Hi) Hv1) as (v2 & Hv2 & Hle2).
  exists v2. split; [done|]. by etrans.
Qed.

(** ** Replay *)

Definition replay_events (replay : list (N * list byte)) : list MirrorEvent :=
  (λ '(s, p), EvOutput s p) <$> replay.

Lemma replay_loop_spec log r chunk fuel cursor :
  ring_repr log r → len log < two63 → chunk < two63 → 1 ≤ chunk →
  r_earliest r ≤ cursor → cursor ≤ len log → len log - cursor ≤ N.of_nat fuel * chunk →
  let replay := replay_loop fuel r chunk cursor (len log) in
  contiguous log cursor (len log) (replay_events replay)
  ∧ Forall (λ c, 1 ≤ len c.2 ∧ len c.2 ≤ chunk) replay.
Proof.
  intros Hr Hl Hchunk H1. revert cursor. induction fuel as [|fuel IH]; intros cursor He Hc Hf.
  { split; [cbn; lia|constructor]. }
  cbn [replay_loop]. case_N; [|split; [cbn; lia|constructor]].
  rewrite wadd64_small by lia. set (e := N.min (cursor + chunk) (len log)).
  rewrite (ring_read_range_slice _ log) by done.
  rewrite (proj2 (N.leb_le _ _)), (proj2 (N.leb_le cursor e)), (proj2 (N.leb_le e _)) by lia.
  assert (len (sliceN cursor e log) = e - cursor) as Hlen by len_lia.
  destruct (IH e) as [IH1 IH2]; [lia|lia|lia|].
  cbn -[e]. rewrite Hlen. replace (cursor + (e - cursor)) with e by lia.
  split; [split_and!; [done|lia|done|done]|]. constructor; [cbn; rewrite Hlen; lia|done].
Qed.

(** A subscription adds a subscriber and touches nothing else. *)
Lemma term_subscribe_frame from chunk messages bytes i sub i' :
  term_subscribe from chunk messages bytes i = Ok (sub, i') →
  i_ring i' = i_ring i ∧ i_next_offset i' = i_next_offset i
  ∧ i_subscribers i' = i_subscribers i ++ [mkSubscriber (sub_subscriber_id sub) bytes]
  ∧ i_lifecycle i' = i_lifecycle i.
Proof.
  unfold term_subscribe. case_N; [done|].
  destruct (if default _ _ <? _ then _ else _). intros. by simplify_eq/=.
Qed.

(** What a successful subscription captures. *)
Lemma term_subscribe_repr log from chunk messages bytes i sub i' :
  term_repr log i → len log < two63 → chunk < two63 →
  term_subscribe from chunk messages bytes i = Ok (sub, i') →
  let requested := default (r_earliest (i_ring i)) from in
  let start := N.max requested (r_earliest (i_ring i)) in
  requested ≤ len log
  ∧ sub_replay_start_offset sub = start
  ∧ sub_gap sub = (if requested <? r_earliest (i_ring i)
                   then Some (requested, r_earliest (i_ring i)) else None)
  ∧ sub_offsets sub = term_offsets i
  ∧ sub_subscriber_id sub = i_next_subscriber_id i
  ∧ contiguous log start (len log) (replay_events (sub_replay sub))
  ∧ Forall (λ c, 1 ≤ len c.2 ∧ len c.2 ≤ N.max chunk 1) (sub_replay sub).
Proof.
  intros (Hr & Hn & Hd) Hl Hchunk. pose proof Hr as (_ & He & _). unfold term_subscribe.
  rewrite Hn. set (requested := default _ from). case_N; [done|].
  assert (∀ start, r_earliest (i_ring i) ≤ start → start ≤ len log →
    let replay := replay_loop (replay_fuel (N.max chunk 1) start (len log)) (i_ring i) (N.max chunk 1)
                    start (len log) in
    contiguous log start (len log) (replay_events replay)
    ∧ Forall (λ c, 1 ≤ len c.2 ∧ len c.2 ≤ N.max chunk 1) replay) as Hreplay.
  { intros start H1 H2. apply replay_loop_spec; [done|done|lia..|].
    unfold replay_fuel. set (d := len log - start).
    pose proof (N.mul_succ_div_gt d (N.max chunk 1)). nia. }
  cbv zeta. fold requested. case_N.
  - intros [= <- <-]. cbn [sub_replay sub_replay_start_offset sub_gap sub_offsets sub_subscriber_id].
    replace (N.max requested _) with (r_earliest (i_ring i)) by lia.
    split_and!; [lia|done|done|by unfold term_offsets; rewrite Hn|done|apply Hreplay; lia..].
  - intros [= <- <-]. cbn [sub_replay sub_replay_start_offset sub_gap sub_offsets sub_subscriber_id].
    replace (N.max requested _) with requested by lia.
    split_and!; [lia|done|done|by unfold term_offsets; rewrite Hn|done|apply Hreplay; lia..].
Qed.

(** What the invariant gives an attached subscriber. *)
Lemma sub_backlog s sub :
  sys_inv s → sub ∈ i_subscribers (ts_inner s) →
  ∃ c v, i_channels (ts_inner s) !! s_id sub = Some c ∧ ts_views s !! s_id sub = Some v
    ∧ contiguous (ts_log s) (v_base v) (len (ts_log s)) (v_seen v ++ ch_queue c)
    ∧ len (output_bytes (ch_queue c)) ≤ s_max_queued_bytes sub
    ∧ len (ch_queue c) ≤ ch_capacity c.
Proof.
  intros (_ & _ & Hf) Hs. destruct (fi_subs _ _ _ _ _ Hf _ Hs) as (_ & c & Hc & Hq & Hcap).
  destruct (fi_chans _ _ _ _ _ Hf _ _ Hc) as (_ & v & Hv & Hok).
  exists c, v. destruct Hok as [(to & Hct & _ & Hlive) Hb _ _].
  rewrite Hlive in Hct by (apply id_elem; eauto). split_and!; [done..|lia|done].
Qed.

(** A row, a running terminal and a subscriber, for the witnesses. *)
Definition example_row : TerminalRow :=
  mkTerminalRow 7 1 (lit "alice") (lit "shell") (lit "main") StOpen None None None None true 0 0
    None None 2 0.
Definition example_start : TermSys := sys_start (term_from_row example_row 4 [x61; x62]) [x61; x62].
Definition example_subscription : Subscription * TerminalInner :=
  match term_subscribe (Some 1) 1 8 64 (ts_inner example_start) with
  | Ok r => r
  | Err _ => (mkSubscription 0 [] 0 (mkOffsets 0 0 0) None Open [] None None None, ts_inner example_start)
  end.
Definition example_sub : Subscription := example_subscription.1.
Definition example_subscribed : TermSys :=
  mkTermSys [x61; x62] example_subscription.2 (<[1 := mkView 2 [] None]> ∅).
Definition example_appended : TermSys :=
  mkTermSys [x61; x62; x63] (term_append 5 2 [x63] 4 (ts_inner example_subscribed)).2
    (ts_views example_subscribed).

Lemma example_start_inv : sys_inv example_start.
Proof. by apply (sys_start_inv example_row 4 [x61; x62]). Qed.
Lemma example_step_subscribe : tstep example_start example_subscribed.
Proof.
  refine (st_subscribe [x61; x62] (ts_inner example_start) ∅ (Some 1) 1 8 64 example_sub
            example_subscription.2 _ _ _); vm_compute; reflexivity.
Qed.
Lemma example_step_append : tstep example_subscribed example_appended.
Proof.
  refine (st_append [x61; x62] (ts_inner example_subscribed) _ 5 2 [x63] 4 3 2
            (term_append 5 2 [x63] 4 (ts_inner example_subscribed)).2 _ _); vm_compute; reflexivity.
Qed.

(** ** Properties *)

(** C9: a terminal started from its stored row holds, after any interleaving
    of appends, resizes, subscriptions, commits, closes, capacity changes and
    channel traffic, exactly the newest bytes of everything it ever accepted:
    [next_offset] is the length of that log, the ring is its suffix from
    [earliest_offset] and fits the capacity, [durable_offset] is within it,
    and no attached subscriber has more queued than its bounds allow. *)
Theorem terminal_stream_invariant (row : TerminalRow) (capacity : N) (log : list byte) (s : TermSys) :
  t_earliest_offset row ≤ t_durable_offset row → t_durable_offset row = len log → len log < two63 →
  rtc tstep (sys_start (term_from_row row capacity (dropN (t_earliest_offset row) log)) log) s →
  let i := ts_inner s in
  log `prefix_of` ts_log s
  ∧ i_next_offset i = len (ts_log s)
  ∧ r_buf (i_ring i) = dropN (r_earliest (i_ring i)) (ts_log s)
  ∧ len (r_buf (i_ring i)) ≤ r_capacity (i_ring i)
  ∧ i_durable_offset i ≤ i_next_offset i
  ∧ (∀ sub, sub ∈ i_subscribers i → ∃ c, i_channels i !! s_id sub = Some c
       ∧ len (output_bytes (ch_queue c)) ≤ s_max_queued_bytes sub
       ∧ len (ch_queue c) ≤ ch_capacity c).
Proof.
  intros He Hd Hl Hsteps i. pose proof (tsteps_inv _ _ Hsteps (sys_start_inv _ _ _ He Hd Hl)) as Hinv.
  pose proof Hinv as ((Hr & Hn & Hdur) & _). fold i in Hr, Hn, Hdur.
  split_and!; [by apply tsteps_log in Hsteps|done|apply Hr|apply Hr|lia|].
  intros sub Hs. destruct (sub_backlog _ _ Hinv Hs) as (c & v & ? & _ & _ & ? & ?). by exists c.
Qed.

Lemma terminal_stream_invariant_witness :
  let i := ts_inner example_appended in
  [x61; x62] `prefix_of` ts_log example_appended
  ∧ i_next_offset i = len (ts_log example_appended)
  ∧ r_buf (i_ring i) = dropN (r_earliest (i_ring i)) (ts_log example_appended)
  ∧ len (r_buf (i_ring i)) ≤ r_capacity (i_ring i)
  ∧ i_durable_offset i ≤ i_next_offset i
  ∧ (∀ sub, sub ∈ i_subscribers i → ∃ c, i_channels i !! s_id sub = Some c
       ∧ len (output_bytes (ch_queue c)) ≤ s_max_queued_bytes sub
       ∧ len (ch_queue c) ≤ ch_capacity c).
Proof.
  apply (terminal_stream_invariant example_row 4 [x61; x62]); [by vm_compute..|].
  eapply rtc_l; [exact example_step_subscribe|]. eapply rtc_once. exact example_step_append.
Defined.

(** C3: replay joins live output without a gap or a repeat. Whatever a
    subscription's connection does, and whatever else happens to the terminal
    after it subscribed, the replay followed by the output it has received is
    one contiguous piece of the terminal's whole output starting at the
    announced [replay_start_offset]; for a subscriber still attached, what it
    received and what waits in its queue reach the very end. *)
Theorem replay_joins_live (s s' : TermSys) (from : option N) (chunk messages bytes : N)
    (sub : Subscription) (i' : TerminalInner) :
  sys_inv s → chunk < two63 → bytes < two63 → i_next_subscriber_id (ts_inner s) + 1 < two64 →
  term_subscribe from chunk messages bytes (ts_inner s) = Ok (sub, i') →
  let id := sub_subscriber_id sub in
  rtc tstep (mkTermSys (ts_log s) i' (<[id := mkView (i_next_offset (ts_inner s)) [] None]> (ts_views s))) s' →
  ∀ c, i_channels (ts_inner s') !! id = Some c →
  ∃ v reached, ts_views s' !! id = Some v
    ∧ contiguous (ts_log s') (sub_replay_start_offset sub) reached
        (replay_events (sub_replay sub) ++ v_seen v ++ ch_queue c)
    ∧ output_bytes (replay_events (sub_replay sub) ++ v_seen v ++ ch_queue c)
      = sliceN (sub_replay_start_offset sub) reached (ts_log s')
    ∧ (ch_tx_open c = true → reached = i_next_offset (ts_inner s')).
Proof.
  intros Hinv Hchunk Hb Hid Hsub id Hsteps c Hc.
  pose proof (term_subscribe_inv (ts_log s) (ts_inner s) (ts_views s)) as Hinv1.
  destruct s as [log i views]; cbn [ts_log ts_inner ts_views] in *.
  specialize (Hinv1 _ _ _ _ _ _ Hinv Hsub Hid Hb).
  pose proof Hinv as (Hr & Hl & _).
  destruct (term_subscribe_repr _ _ _ _ _ _ _ _ Hr Hl Hchunk Hsub) as (_ & Hstart & _ & _ & _ & Hcont & _).
  rewrite <- Hstart in Hcont.
  destruct (tsteps_views _ _ id (mkView (i_next_offset i) [] None) Hsteps Hinv1)
    as (v & Hv & Hbase & _); [apply lookup_insert_eq|]. cbn in Hbase.
  pose proof (tsteps_inv _ _ Hsteps Hinv1) as ((_ & Hn' & _) & _ & Hf).
  destruct (fi_chans _ _ _ _ _ Hf _ _ Hc) as (_ & v0 & Hv0 & [(to & Hct & _ & Hlive) _ Htx _]).
  assert (v0 = v) as -> by congruence.
  destruct (tsteps_log _ _ Hsteps) as [data Hlog]. cbn in Hlog. destruct Hr as (_ & Hn & _).
  exists v, to. split; [done|].
  assert (contiguous (ts_log s') (sub_replay_start_offset sub) to
    (replay_events (sub_replay sub) ++ v_seen v ++ ch_queue c)) as Hall.
  { eapply contiguous_app; [rewrite Hlog; by apply contiguous_grow|].
    cbn in Hn. by rewrite Hbase, Hn in Hct. }
  split_and!; [done|by apply contiguous_bytes|]. intros Ho. rewrite Hn'. by apply Hlive, Htx.
Qed.

Definition example_chan : Chan := mkChan [EvOutput 2 [x63]] 8 true true 1 false None.

Lemma replay_joins_live_witness :
  ∃ v reached, ts_views example_appended !! sub_subscriber_id example_sub = Some v
    ∧ contiguous (ts_log example_appended) 1 reached
        (replay_events (sub_replay example_sub) ++ v_seen v ++ ch_queue example_chan)
    ∧ output_bytes (replay_events (sub_replay example_sub) ++ v_seen v ++ ch_queue example_chan)
      = sliceN 1 reached (ts_log example_appended)
    ∧ (ch_tx_open example_chan = true → reached = i_next_offset (ts_inner example_appended)).
Proof.
  apply (replay_joins_live example_start example_appended (Some 1) 1 8 64 example_sub
           example_subscription.2 example_start_inv); [by vm_compute..| |by vm_compute].
  apply rtc_once. exact example_step_append.
Defined.

(** A subscription is refused exactly when it asks for output that does
    not exist yet; otherwise it starts at the requested offset, or at the
    start of the retained window with the missing range reported, its replay
    is the retained output from there to the end in non-empty pieces of at
    most the chunk size, and its announced offsets are the terminal's. *)
Theorem subscribe_outcome (log : list byte) (i : TerminalInner) (from : option N)
    (chunk messages bytes : N) :
  term_repr log i → len log < two63 → chunk < two63 →
  let earliest := r_earliest (i_ring i) in
  let requested := default earliest from in
  match term_subscribe from chunk messages bytes i with
  | Err (OffsetAhead next durable) =>
      len log < requested ∧ next = len log ∧ durable = i_durable_offset i
  | Ok (sub, i') =>
      requested ≤ len log
      ∧ sub_replay_start_offset sub = N.max requested earliest
      ∧ sub_gap sub = (if requested <? earliest then Some (requested, earliest) else None)
      ∧ sub_offsets sub = mkOffsets earliest (len log) (i_durable_offset i)
      ∧ mjoin (snd <$> sub_replay sub) = dropN (sub_replay_start_offset sub) log
      ∧ Forall (λ c, 1 ≤ len c.2 ∧ len c.2 ≤ N.max chunk 1) (sub_replay sub)
      ∧ i_ring i' = i_ring i ∧ i_next_offset i' = i_next_offset i
      ∧ i_subscribers i' = i_subscribers i ++ [mkSubscriber (sub_subscriber_id sub) bytes]
  end.
Proof.
  intros Hr Hl Hchunk earliest requested. destruct (term_subscribe _ _ _ _ i) as [[sub i']|e] eqn:Hsub.
  - destruct (term_subscribe_repr _ _ _ _ _ _ _ _ Hr Hl Hchunk Hsub)
      as (Hreq & Hstart & Hgap & Hoff & Hid & Hcont & Hsizes).
    apply contiguous_bytes in Hcont as [_ Hb].
    split_and!; [done|done|done| | |done|..].
    + rewrite Hoff. unfold term_offsets. by destruct Hr as (_ & -> & _).
    + rewrite Hstart, <- (sliceN_all _ log (len log)) by lia. rewrite <- Hb.
      unfold output_bytes, replay_events. clear.
      induction (sub_replay sub) as [|[s p] l IH]; [done|].
      cbn. f_equal. exact IH.
    + apply (term_subscribe_frame _ _ _ _ _ _ _ Hsub).
    + apply (term_subscribe_frame _ _ _ _ _ _ _ Hsub).
    + apply (term_subscribe_frame _ _ _ _ _ _ _ Hsub).
  - unfold term_subscribe in Hsub. destruct Hr as (_ & Hn & _). rewrite Hn in Hsub. case_N.
    + simplify_eq. done.
    + destruct (if default _ _ <? _ then _ else _). done.
Qed.

Lemma subscribe_outcome_witness :
  term_repr [x61; x62] (ts_inner example_start) ∧
  match term_subscribe (Some 3) 1 8 64 (ts_inner example_start) with
  | Err (OffsetAhead next durable) => 2 < 3 ∧ next = 2 ∧ durable = 2
  | Ok _ => False
  end.
Proof.
  assert (term_repr [x61; x62] (ts_inner example_start)) as Hr by apply example_start_inv.
  split; [exact Hr|].
  exact (subscribe_outcome [x61; x62] _ (Some 3) 1 8 64 Hr eq_refl eq_refl).
Defined.

(** Every branch of [append]. *)
Lemma term_append_spec (log : list byte) (i : TerminalInner) (now off : N) (payload : list byte)
    (capacity : N) :
  term_repr log i → len (log ++ payload) < two63 →
  let '(outcome, i') := term_append now off payload capacity i in
  match outcome with
  | NotOpen => i_lifecycle i ≠ Open ∧ i' = i
  | OffsetMismatch next durable =>
      i_lifecycle i = Open ∧ off ≠ len log ∧ next = len log ∧ durable = i_durable_offset i ∧ i' = i
  | Accepted next durable =>
      i_lifecycle i = Open ∧ off = len log
      ∧ next = len (log ++ payload) ∧ durable = i_durable_offset i
      ∧ term_repr (log ++ payload) i'
      ∧ r_earliest (i_ring i') = window_start (r_earliest (i_ring i)) (N.max capacity 1) (log ++ payload)
      ∧ i_lifecycle i' = Open ∧ i_durable_offset i' = i_durable_offset i
  end.
Proof.
  intros (Hr & Hn & Hd) Hl. unfold term_append.
  case_bool_decide as Hopen; cbn [negb]; [|done]. case_N; cbn [negb]; [|split_and!; try done; lia].
  pose proof (ring_set_capacity_repr _ _ capacity Hr) as Hcap.
  destruct (ring_set_capacity capacity (i_ring i)) as [r1 ev]. destruct Hcap as (Hr1 & Hc1 & He1 & _).
  destruct (is_empty payload) eqn:Hp.
  { destruct payload; [|done]. rewrite app_nil_r in *. cbn -[window_start N.max].
    split_and!; [done|lia|done|done|by split_and!|done|done|done]. }
  pose proof (ring_append_repr _ r1 payload Hr1 ltac:(lia)) as Happ. cbn [fst i_ring set_ring].
  destruct (ring_append payload r1) as [r2 ev2]. destruct Happ as (Hr2 & Hc2 & He2 & _).
  assert (i_next_offset i +₆₄ len payload = len (log ++ payload)) as Hsum
    by (rewrite Hn, len_app in *; apply wadd64_small; lia).
  unfold term_repr. cbn [fst].
  term_simpl. rewrite Hsum.
  destruct (i_dirty_since i); cbn -[window_start N.max];
    (split_and!; [done|lia|done|done|done|done|len_lia| |done|done]);
    rewrite He2, Hc1, He1; unfold window_start; len_lia.
Qed.

(** An append is accepted exactly when the terminal is open and the frame
    starts at [next_offset]; an accepted frame extends the output by its
    payload, answers the new end and keeps the newest bytes that fit; a
    refusal reports the offsets to resynchronise from and changes nothing. *)
Theorem append_outcome (log : list byte) (i : TerminalInner) (now off : N) (payload : list byte)
    (capacity : N) :
  term_repr log i → len (log ++ payload) < two63 →
  let '(outcome, i') := term_append now off payload capacity i in
  match outcome with
  | NotOpen => i_lifecycle i ≠ Open ∧ i' = i
  | OffsetMismatch next durable =>
      i_lifecycle i = Open ∧ off ≠ len log ∧ next = len log ∧ durable = i_durable_offset i ∧ i' = i
  | Accepted next durable =>
      i_lifecycle i = Open ∧ off = len log
      ∧ next = len (log ++ payload) ∧ durable = i_durable_offset i
      ∧ term_repr (log ++ payload) i'
      ∧ r_earliest (i_ring i') = window_start (r_earliest (i_ring i)) (N.max capacity 1) (log ++ payload)
      ∧ i_lifecycle i' = Open ∧ i_durable_offset i' = i_durable_offset i
  end.
Proof. apply term_append_spec. Qed.

Lemma append_outcome_witness :
  term_repr [x61; x62] (ts_inner example_start) ∧
  let '(outcome, i') := term_append 5 2 [x63] 4 (ts_inner example_start) in
  match outcome with
  | Accepted next durable =>
      Open = Open ∧ 2 = 2 ∧ next = 3 ∧ durable = 2 ∧ term_repr [x61; x62; x63] i'
      ∧ r_earliest (i_ring i') = 0 ∧ i_lifecycle i' = Open ∧ i_durable_offset i' = 2
  | _ => False
  end.
Proof.
  assert (term_repr [x61; x62] (ts_inner example_start)) as Hr by apply example_start_inv.
  split; [exact Hr|].
  exact (append_outcome [x61; x62] _ 5 2 [x63] 4 Hr eq_refl).
Defined.

(** ** The lifecycle *)

Lemma tstep_not_open s s' :
  tstep s s' → i_lifecycle (ts_inner s) ≠ Open →
  i_lifecycle (ts_inner s') ≠ Open ∧ ts_log s' = ts_log s
  ∧ i_next_offset (ts_inner s') = i_next_offset (ts_inner s).
Proof.
  destruct 1 as [log i views now off payload capacity n d i' Happ Hlt
    |log i views now off payload capacity outcome i' Happ Hne|log i views now cols rows
    |log i views from chunk messages bytes sub i' Hsub Hid Hb|log i views id|log i views now reason
    |log i views target closed Ht|log i views capacity|log i views t
    |log i views label cols rows term|log i views now
    |log i views id c c' e v Hc Hv Hp Hrecv|log i views id c e v Hc Hv Hp|log i views id];
    cbn [ts_inner ts_log]; intros Hopen; try (by split_and!).
  - unfold term_append in Happ. rewrite bool_decide_eq_false_2 in Happ by done. done.
  - by rewrite (term_append_refused_inv _ _ _ _ _ _ _ Happ Hne).
  - unfold term_resize. by rewrite bool_decide_eq_false_2 by done.
  - by destruct (term_subscribe_frame _ _ _ _ _ _ _ Hsub) as (_ & -> & _ & ->).
  - unfold term_begin_close. by rewrite bool_decide_eq_false_2 by done.
  - unfold term_commit_durable.
    set (i1 := if _ <? target then _ else i).
    assert (i_lifecycle i1 = i_lifecycle i ∧ i_next_offset i1 = i_next_offset i) as [H1 H2]
      by (unfold i1; case_N; by term_simpl).
    clearbody i1. case_N; destruct closed; term_simpl; by rewrite ?H1, ?H2.
  - unfold term_shrink_to_capacity. by case_N.
  - unfold term_update_metadata. destruct label; repeat case_bool_decide; done.
Qed.

(** Once a terminal starts closing, nothing more is accepted, whatever
    the order of what follows: the output and [next_offset] stay as they were
    and the terminal never opens again. *)
Theorem nothing_after_close (s s' : TermSys) :
  i_lifecycle (ts_inner s) ≠ Open → rtc tstep s s' →
  ts_log s' = ts_log s ∧ i_next_offset (ts_inner s') = i_next_offset (ts_inner s)
  ∧ i_lifecycle (ts_inner s') ≠ Open.
Proof.
  intros Hopen. induction 1 as [s|s s1 s2 H _ IH]; [done|].
  destruct (tstep_not_open _ _ H Hopen) as (H1 & <- & <-). by apply IH.
Qed.

Lemma nothing_after_close_witness :
  let i := (term_begin_close 6 (lit "done") (ts_inner example_start)).2 in
  let s := mkTermSys [x61; x62] i ∅ in
  let s' := mkTermSys [x61; x62] (term_commit_durable 2 (Some (lit "done")) i) ∅ in
  ts_log s' = ts_log s ∧ i_next_offset (ts_inner s') = i_next_offset (ts_inner s)
  ∧ i_lifecycle (ts_inner s') ≠ Open.
Proof.
  apply nothing_after_close; [by vm_compute|]. apply rtc_once. apply st_commit. by vm_compute.
Defined.

(** ** Slow subscribers *)

Definition has_room (e : MirrorEvent) (s : Subscriber) (c : Chan) : bool :=
  ch_rx_open c && (ch_queued_bytes c + queue_cost e <=? s_max_queued_bytes s)
  && (len (ch_queue c) <? ch_capacity c).

Lemma fan_out_one_exact e s c :
  ch_queued_bytes c + queue_cost e < two64 →
  let '(c', dropped) := fan_out_one e s c in
  dropped = negb (has_room e s c)
  ∧ ch_queue c' = (if dropped then ch_queue c else ch_queue c ++ [e])
  ∧ ch_queued_bytes c' = (if dropped then ch_queued_bytes c else ch_queued_bytes c + queue_cost e)
  ∧ (dropped = true → ch_rx_open c = true → ch_overflowed c' = true).
Proof.
  intros Hlt. unfold fan_out_one, try_send, has_room. rewrite wadd64_small by done.
  destruct (N.ltb_spec (s_max_queued_bytes s) (ch_queued_bytes c + queue_cost e));
    cbn [set_queued set_queue set_overflowed ch_rx_open ch_capacity ch_queue].
  - rewrite (proj2 (N.leb_gt _ _)) by done. by rewrite andb_false_r.
  - rewrite (proj2 (N.leb_le (_ + _) _)) by done. destruct (ch_rx_open c) eqn:Hrx; cbn [negb andb].
    + destruct (N.leb_spec (ch_capacity c) (len (ch_queue c))); cbn; [|by rewrite (proj2 (N.ltb_lt _ _))].
      rewrite (proj2 (N.ltb_ge _ _)), wsub64_small by lia. split_and!; [done..|lia|done].
    + cbn. rewrite wsub64_small by lia. split_and!; [done..|lia|done].
Qed.

(** Fan-out never blocks and never loses an event silently. A subscriber
    whose connection still listens and whose byte and message bounds have room
    gets the event at the end of its queue and stays; any other is detached
    with its queue untouched and its sender dropped, and unless its connection
    was already gone it is flagged as having overflowed. *)
Theorem fan_out_delivers_or_detaches (log : list byte) (e : MirrorEvent) (i : TerminalInner)
    (views : gmap N View) (s : Subscriber) :
  sys_inv (mkTermSys log i views) → queue_cost e < two63 → s ∈ i_subscribers i →
  ∃ c c', i_channels i !! s_id s = Some c ∧ i_channels (fan_out e i) !! s_id s = Some c'
    ∧ (if has_room e s c
       then s ∈ i_subscribers (fan_out e i)
            ∧ ch_queue c' = ch_queue c ++ [e] ∧ ch_queued_bytes c' = ch_queued_bytes c + queue_cost e
       else s ∉ i_subscribers (fan_out e i) ∧ ch_tx_open c' = false
            ∧ ch_queue c' = ch_queue c ∧ ch_queued_bytes c' = ch_queued_bytes c
            ∧ (ch_rx_open c = true → ch_overflowed c' = true)).
Proof.
  intros (_ & _ & Hf) Hcost Hs. cbn in Hf. pose proof (fi_nodup _ _ _ _ _ Hf) as Hnd.
  destruct (fi_subs _ _ _ _ _ Hf _ Hs) as (Hmax & c & Hc & Hq & _).
  pose proof (fan_out_loop_spec e _ (i_channels i) Hnd) as Hspec.
  pose proof (fan_out_loop_dropped_nodup e _ (i_channels i) Hnd) as Hdnd.
  destruct (fan_out_loop e (i_subscribers i) (i_channels i)) as [chans dropped] eqn:Hloop.
  destruct Hspec as (_ & _ & Hin). cbn in Hdnd.
  destruct (fan_out_subscribers e i chans dropped Hloop) as [-> ->].
  destruct (Hin s c Hs Hc) as (c' & Hc' & Hone).
  pose proof (fan_out_one_exact e s c ltac:(lia)) as Hex. rewrite Hone in Hex.
  destruct Hex as (Hroom & Hqueue & Hbytes & Hover). exists c.
  exists (if bool_decide (s_id s ∈ dropped) then drop_tx c' else c').
  split_and!; [done|by rewrite drop_senders_lookup, Hc' by done; case_bool_decide|].
  case_bool_decide as Hd; destruct (has_room e s c); cbn in *; try done;
    rewrite list_elem_of_filter; naive_solver.
Qed.

Lemma fan_out_delivers_or_detaches_witness :
  ∃ c c', i_channels (ts_inner example_subscribed) !! 1 = Some c
    ∧ i_channels (fan_out (EvOutput 2 [x63]) (ts_inner example_subscribed)) !! 1 = Some c'
    ∧ (if has_room (EvOutput 2 [x63]) (mkSubscriber 1 64) c
      then mkSubscriber 1 64 ∈ i_subscribers (fan_out (EvOutput 2 [x63]) (ts_inner example_subscribed))
           ∧ ch_queue c' = ch_queue c ++ [EvOutput 2 [x63]] ∧ ch_queued_bytes c' = ch_queued_bytes c + 1
      else mkSubscriber 1 64 ∉ i_subscribers (fan_out (EvOutput 2 [x63]) (ts_inner example_subscribed))
           ∧ ch_tx_open c' = false
           ∧ ch_queue c' = ch_queue c ∧ ch_queued_bytes c' = ch_queued_bytes c
           ∧ (ch_rx_open c = true → ch_overflowed c' = true)).
Proof.
  apply (fan_out_delivers_or_detaches [x61; x62] (EvOutput 2 [x63]) (ts_inner example_subscribed)
           (<[1 := mkView 2 [] None]> ∅) (mkSubscriber 1 64)).
  - exact (tstep_inv _ _ example_step_subscribe example_start_inv).
  - reflexivity.
  - by left.
Defined.

(** Shrinking the window reaches bytes that are not durable yet: four dirty
    bytes, a window of two, and the next checkpoint makes offset 6 durable
    without ever having stored the first two bytes. *)
Theorem shrinking_skips_dirty_bytes :
  let i := ts_inner (sys_start (term_from_row example_row 8 [x61; x62]) [x61; x62]) in
  let i := (term_append 5 2 [x63; x64; x65; x66] 8 i).2 in
  let i' := term_shrink_to_capacity 2 i in
  i_durable_offset i' = 2 ∧ r_earliest (i_ring i') = 4 ∧
  match term_take_checkpoint 7 6 i' with
  | Some p => pc_chunk_start p = 4 ∧ pc_chunk p = [x65; x66] ∧ pc_durable_target p = 6
  | None => False
  end.
Proof. vm_compute. by split_and!. Qed.
