(* ===== verification/SettingsDefs.v ===== *)
(** * The setting registry ([server/src/settings/defs.rs], [mod.rs])

    Every setting the service reads, with its kind, default and bounds, in the
    source's order and grouped by its section comments. The descriptions are
    left out. Integers are [i64] values in [Z]. *)

From S2P Require Export Prelude.

Open Scope N_scope.
Open Scope hype_scope.

(** Hard ceiling for the per-terminal replay window. *)
Definition REPLAY_CAPACITY_HARD_MAX : Z := 1500000.

Inductive Kind := KBool | KInt | KStr | KEnum | KList | KSecret.
#[export] Instance Kind_eq_dec : EqDecision Kind.
Proof. solve_decision. Defined.

Inductive DefaultValue :=
| DBool (b : bool)
| DInt (i : Z)
| DStr (s : text)
| DList (l : list text).

Inductive Reload :=
| Immediate
| ConnectionRenegotiate
| ListenerRebind
| LoggingReload
| StorageReconfigure.

Record SettingDef := mkSettingDef {
  d_name : string;
  d_kind : Kind;
  d_default : DefaultValue;
  d_min : option Z;
  d_max : option Z;
  d_allowed : option (list text);
  d_secret : bool;
  d_reload : Reload;
}.

Module keys.
Definition SERVER_LISTEN_ADDRESS : string := "server.listen_address".
Definition SERVER_HEALTH_LISTEN_ADDRESS : string := "server.health_listen_address".
Definition SERVER_TLS_ENABLED : string := "server.tls_enabled".
Definition SERVER_TLS_CERTIFICATE_PATH : string := "server.tls_certificate_path".
Definition SERVER_TLS_PRIVATE_KEY_PATH : string := "server.tls_private_key_path".
Definition SERVER_PUBLIC_ORIGIN : string := "server.public_origin".
Definition SERVER_SHUTDOWN_DEADLINE_SECONDS : string := "server.shutdown_deadline_seconds".
Definition SERVER_CONNECTION_DRAIN_SECONDS : string := "server.connection_drain_seconds".
Definition SERVER_REQUEST_TIMEOUT_SECONDS : string := "server.request_timeout_seconds".
Definition SERVER_MAX_CONCURRENT_CONNECTIONS : string := "server.max_concurrent_connections".
Definition SECURITY_REQUIRE_SECURE_TRANSPORT : string := "security.require_secure_transport".
Definition SECURITY_ALLOW_INSECURE_LOOPBACK : string := "security.allow_insecure_loopback".
Definition SECURITY_TRUSTED_PROXY_ENABLED : string := "security.trusted_proxy_enabled".
Definition SECURITY_TLS_TERMINATED_BY_NETWORKS : string := "security.tls_terminated_by_networks".
Definition SECURITY_TRUSTED_PROXY_NETWORKS : string := "security.trusted_proxy_networks".
Definition SECURITY_FORWARDED_FOR_HEADER : string := "security.forwarded_for_header".
Definition SECURITY_FORWARDED_PROTO_HEADER : string := "security.forwarded_proto_header".
Definition SECURITY_REVOCATION_RECHECK_SECONDS : string := "security.revocation_recheck_seconds".
Definition AUTH_SUPPORTED_KEY_ALGORITHMS : string := "auth.supported_key_algorithms".
Definition AUTH_CHALLENGE_TTL_SECONDS : string := "auth.challenge_ttl_seconds".
Definition AUTH_CHALLENGE_BYTES : string := "auth.challenge_bytes".
Definition AUTH_ACCESS_TOKEN_TTL_SECONDS : string := "auth.access_token_ttl_seconds".
Definition AUTH_WEBSOCKET_TICKET_TTL_SECONDS : string := "auth.websocket_ticket_ttl_seconds".
Definition AUTH_IDENTITY_TOKEN_SCOPES : string := "auth.identity_token_scopes".
Definition AUTH_DEVICE_TOKEN_SCOPES : string := "auth.device_token_scopes".
Definition AUTH_CLIENT_TOKEN_SCOPES : string := "auth.client_token_scopes".
Definition AUTH_SIGNING_KEY_ROTATION_SECONDS : string := "auth.signing_key_rotation_seconds".
Definition AUTH_SIGNING_KEY_OVERLAP_SECONDS : string := "auth.signing_key_overlap_seconds".
Definition AUTH_MAX_CLOCK_SKEW_SECONDS : string := "auth.max_clock_skew_seconds".
Definition AUTH_OPERATOR_TOKEN_HASH : string := "auth.operator_token_hash".
Definition FEATURES_IDENTITY_REGISTRATION_ENABLED : string := "features.identity_registration_enabled".
Definition FEATURES_DEVICE_REGISTRATION_ENABLED : string := "features.device_registration_enabled".
Definition FEATURES_PUBLISH_ENABLED : string := "features.publish_enabled".
Definition FEATURES_MIRROR_ENABLED : string := "features.mirror_enabled".
Definition FEATURES_METRICS_ENDPOINT_ENABLED : string := "features.metrics_endpoint_enabled".
Definition FEATURES_INPUT_ENABLED : string := "features.input_enabled".
Definition FEATURES_CLIENT_RESIZE_ENABLED : string := "features.client_resize_enabled".
Definition FEATURES_TERMINAL_CREATE_ENABLED : string := "features.terminal_create_enabled".
Definition RATELIMIT_ENABLED : string := "ratelimit.enabled".
Definition RATELIMIT_CHALLENGES_PER_MINUTE_PER_SOURCE : string := "ratelimit.challenges_per_minute_per_source".
Definition RATELIMIT_CHALLENGES_PER_MINUTE_PER_FINGERPRINT : string := "ratelimit.challenges_per_minute_per_fingerprint".
Definition RATELIMIT_IDENTITY_REGISTRATIONS_PER_HOUR_PER_SOURCE : string := "ratelimit.identity_registrations_per_hour_per_source".
Definition RATELIMIT_TOKEN_REQUESTS_PER_MINUTE_PER_FINGERPRINT : string := "ratelimit.token_requests_per_minute_per_fingerprint".
Definition RATELIMIT_REQUESTS_PER_MINUTE_PER_PRINCIPAL : string := "ratelimit.requests_per_minute_per_principal".
Definition RATELIMIT_WEBSOCKET_CONNECTIONS_PER_MINUTE_PER_PRINCIPAL : string := "ratelimit.websocket_connections_per_minute_per_principal".
Definition RATELIMIT_INPUT_FRAMES_PER_MINUTE_PER_SUBSCRIBER : string := "ratelimit.input_frames_per_minute_per_subscriber".
Definition RATELIMIT_TERMINAL_CREATES_PER_HOUR_PER_PRINCIPAL : string := "ratelimit.terminal_creates_per_hour_per_principal".
Definition RATELIMIT_TERMINAL_CREATES_PER_HOUR_PER_DEVICE : string := "ratelimit.terminal_creates_per_hour_per_device".
Definition RATELIMIT_INPUT_BYTES_PER_MINUTE_PER_SUBSCRIBER : string := "ratelimit.input_bytes_per_minute_per_subscriber".
Definition RATELIMIT_RETRY_AFTER_SECONDS : string := "ratelimit.retry_after_seconds".
Definition LIMITS_MAX_REQUEST_BODY_BYTES : string := "limits.max_request_body_bytes".
Definition LIMITS_MAX_DEVICES_PER_IDENTITY : string := "limits.max_devices_per_identity".
Definition LIMITS_MAX_ACTIVE_TERMINALS_PER_DEVICE : string := "limits.max_active_terminals_per_device".
Definition LIMITS_MAX_CONNECTIONS_PER_PRINCIPAL : string := "limits.max_connections_per_principal".
Definition LIMITS_MAX_OUTPUT_FRAME_BYTES : string := "limits.max_output_frame_bytes".
Definition LIMITS_MAX_UNACKED_OUTPUT_BYTES : string := "limits.max_unacked_output_bytes".
Definition LIMITS_MAX_INPUT_FRAME_BYTES : string := "limits.max_input_frame_bytes".
Definition LIMITS_MAX_INPUT_QUEUE_FRAMES : string := "limits.max_input_queue_frames".
Definition LIMITS_MAX_CONTROL_MESSAGE_BYTES : string := "limits.max_control_message_bytes".
Definition LIMITS_MAX_PENDING_OPEN_REQUESTS_PER_DEVICE : string := "limits.max_pending_open_requests_per_device".
Definition LIMITS_MAX_PENDING_OPEN_REQUESTS_TOTAL : string := "limits.max_pending_open_requests_total".
Definition TERMINAL_OPEN_REQUEST_TIMEOUT_SECONDS : string := "terminal.open_request_timeout_seconds".
Definition LIMITS_MAX_LABEL_BYTES : string := "limits.max_label_bytes".
Definition LIMITS_MAX_LOCAL_REF_BYTES : string := "limits.max_local_ref_bytes".
Definition LIMITS_MAX_TERM_BYTES : string := "limits.max_term_bytes".
Definition LIMITS_MAX_DEVICE_NAME_BYTES : string := "limits.max_device_name_bytes".
Definition LIMITS_MAX_PROCESS_LABEL_BYTES : string := "limits.max_process_label_bytes".
Definition LIMITS_MAX_TERMINAL_COLS : string := "limits.max_terminal_cols".
Definition LIMITS_MAX_TERMINAL_ROWS : string := "limits.max_terminal_rows".
Definition LIMITS_MAX_PAGE_SIZE : string := "limits.max_page_size".
Definition LIMITS_DEFAULT_PAGE_SIZE : string := "limits.default_page_size".
Definition TERMINAL_REPLAY_CAPACITY_BYTES : string := "terminal.replay_capacity_bytes".
Definition TERMINAL_PUBLISHER_RECONNECT_GRACE_SECONDS : string := "terminal.publisher_reconnect_grace_seconds".
Definition TERMINAL_CLOSED_RETENTION_SECONDS : string := "terminal.closed_retention_seconds".
Definition TERMINAL_ALLOW_PROCESS_LABEL : string := "terminal.allow_process_label".
Definition PERSISTENCE_FLUSH_INTERVAL_MS : string := "persistence.flush_interval_ms".
Definition PERSISTENCE_FLUSH_BYTES : string := "persistence.flush_bytes".
Definition PERSISTENCE_MEMORY_PRESSURE_DIRTY_BYTES : string := "persistence.memory_pressure_dirty_bytes".
Definition PERSISTENCE_BACKPRESSURE_WAIT_MS : string := "persistence.backpressure_wait_ms".
Definition PERSISTENCE_COMMIT_RETRY_INITIAL_MS : string := "persistence.commit_retry_initial_ms".
Definition PERSISTENCE_COMMIT_RETRY_MAX_MS : string := "persistence.commit_retry_max_ms".
Definition PERSISTENCE_COMMIT_RETRY_MAX_ATTEMPTS : string := "persistence.commit_retry_max_attempts".
Definition PERSISTENCE_STORAGE_QUOTA_BYTES : string := "persistence.storage_quota_bytes".
Definition PERSISTENCE_RETENTION_SWEEP_INTERVAL_SECONDS : string := "persistence.retention_sweep_interval_seconds".
Definition PERSISTENCE_SQLITE_SYNCHRONOUS : string := "persistence.sqlite_synchronous".
Definition PERSISTENCE_SQLITE_WAL_AUTOCHECKPOINT_PAGES : string := "persistence.sqlite_wal_autocheckpoint_pages".
Definition PERSISTENCE_SQLITE_BUSY_TIMEOUT_MS : string := "persistence.sqlite_busy_timeout_ms".
Definition PERSISTENCE_SQLITE_CACHE_SIZE_KIB : string := "persistence.sqlite_cache_size_kib".
Definition MIRROR_SUBSCRIBER_QUEUE_BYTES : string := "mirror.subscriber_queue_bytes".
Definition MIRROR_SUBSCRIBER_QUEUE_MESSAGES : string := "mirror.subscriber_queue_messages".
Definition MIRROR_REPLAY_CHUNK_BYTES : string := "mirror.replay_chunk_bytes".
Definition WEBSOCKET_HEARTBEAT_INTERVAL_SECONDS : string := "websocket.heartbeat_interval_seconds".
Definition WEBSOCKET_HEARTBEAT_TIMEOUT_SECONDS : string := "websocket.heartbeat_timeout_seconds".
Definition WEBSOCKET_HANDSHAKE_TIMEOUT_SECONDS : string := "websocket.handshake_timeout_seconds".
Definition SETTINGS_PROPAGATION_INTERVAL_MS : string := "settings.propagation_interval_ms".
Definition LOGGING_LEVEL : string := "logging.level".
Definition LOGGING_FORMAT : string := "logging.format".
Definition METRICS_REQUIRE_OPERATOR_AUTH : string := "metrics.require_operator_auth".
Definition IDEMPOTENCY_ENABLED : string := "idempotency.enabled".
Definition IDEMPOTENCY_RETENTION_SECONDS : string := "idempotency.retention_seconds".
End keys.

Open Scope Z_scope.

Definition DEFS_server_network : list SettingDef := [
  mkSettingDef keys.SERVER_LISTEN_ADDRESS KStr (DStr (lit "0.0.0.0:8080"))
    None None None false ListenerRebind;
  mkSettingDef keys.SERVER_HEALTH_LISTEN_ADDRESS KStr (DStr [])
    None None None false ListenerRebind;
  mkSettingDef keys.SERVER_TLS_ENABLED KBool (DBool false)
    None None None false ListenerRebind;
  mkSettingDef keys.SERVER_TLS_CERTIFICATE_PATH KStr (DStr [])
    None None None false ListenerRebind;
  mkSettingDef keys.SERVER_TLS_PRIVATE_KEY_PATH KStr (DStr [])
    None None None false ListenerRebind;
  mkSettingDef keys.SERVER_PUBLIC_ORIGIN KStr (DStr (lit "http://localhost:8080"))
    None None None false Immediate;
  mkSettingDef keys.SERVER_SHUTDOWN_DEADLINE_SECONDS KInt (DInt 30)
    (Some 1) (Some 600) None false Immediate;
  mkSettingDef keys.SERVER_CONNECTION_DRAIN_SECONDS KInt (DInt 10)
    (Some 0) (Some 600) None false ListenerRebind;
  mkSettingDef keys.SERVER_REQUEST_TIMEOUT_SECONDS KInt (DInt 30)
    (Some 1) (Some 600) None false Immediate;
  mkSettingDef keys.SERVER_MAX_CONCURRENT_CONNECTIONS KInt (DInt 4096)
    (Some 1) (Some 1000000) None false Immediate
].

Definition DEFS_transport_security : list SettingDef := [
  mkSettingDef keys.SECURITY_REQUIRE_SECURE_TRANSPORT KBool (DBool true)
    None None None false Immediate;
  mkSettingDef keys.SECURITY_ALLOW_INSECURE_LOOPBACK KBool (DBool true)
    None None None false Immediate;
  mkSettingDef keys.SECURITY_TRUSTED_PROXY_ENABLED KBool (DBool false)
    None None None false Immediate;
  mkSettingDef keys.SECURITY_TLS_TERMINATED_BY_NETWORKS KList (DList [])
    None None None false Immediate;
  mkSettingDef keys.SECURITY_TRUSTED_PROXY_NETWORKS KList (DList [])
    None None None false Immediate;
  mkSettingDef keys.SECURITY_FORWARDED_FOR_HEADER KStr (DStr (lit "x-forwarded-for"))
    None None None false Immediate;
  mkSettingDef keys.SECURITY_FORWARDED_PROTO_HEADER KStr (DStr (lit "x-forwarded-proto"))
    None None None false Immediate;
  mkSettingDef keys.SECURITY_REVOCATION_RECHECK_SECONDS KInt (DInt 10)
    (Some 1) (Some 30) None false Immediate
].

Definition DEFS_authentication : list SettingDef := [
  mkSettingDef keys.AUTH_SUPPORTED_KEY_ALGORITHMS KList (DList [lit "ed25519"])
    None None None false Immediate;
  mkSettingDef keys.AUTH_CHALLENGE_TTL_SECONDS KInt (DInt 300)
    (Some 5) (Some 300) None false Immediate;
  mkSettingDef keys.AUTH_CHALLENGE_BYTES KInt (DInt 32)
    (Some 32) (Some 128) None false Immediate;
  mkSettingDef keys.AUTH_ACCESS_TOKEN_TTL_SECONDS KInt (DInt 900)
    (Some 30) (Some 900) None false Immediate;
  mkSettingDef keys.AUTH_WEBSOCKET_TICKET_TTL_SECONDS KInt (DInt 60)
    (Some 5) (Some 60) None false Immediate;
  mkSettingDef keys.AUTH_IDENTITY_TOKEN_SCOPES KList (DList [lit "devices:read"; lit "devices:write"; lit "terminals:read"; lit "terminals:mirror"; lit "terminals:input"])
    None None None false Immediate;
  mkSettingDef keys.AUTH_DEVICE_TOKEN_SCOPES KList (DList [lit "terminals:write"; lit "terminals:publish"])
    None None None false Immediate;
  mkSettingDef keys.AUTH_CLIENT_TOKEN_SCOPES KList (DList [lit "terminals:read"; lit "terminals:mirror"; lit "terminals:input"])
    None None None false Immediate;
  mkSettingDef keys.AUTH_SIGNING_KEY_ROTATION_SECONDS KInt (DInt 2592000)
    (Some 3600) (Some 31536000) None false Immediate;
  mkSettingDef keys.AUTH_SIGNING_KEY_OVERLAP_SECONDS KInt (DInt 3600)
    (Some 60) (Some 86400) None false Immediate;
  mkSettingDef keys.AUTH_MAX_CLOCK_SKEW_SECONDS KInt (DInt 5)
    (Some 0) (Some 60) None false Immediate;
  mkSettingDef keys.AUTH_OPERATOR_TOKEN_HASH KSecret (DStr [])
    None None None true Immediate
].

Definition DEFS_feature_switches : list SettingDef := [
  mkSettingDef keys.FEATURES_IDENTITY_REGISTRATION_ENABLED KBool (DBool true)
    None None None false Immediate;
  mkSettingDef keys.FEATURES_DEVICE_REGISTRATION_ENABLED KBool (DBool true)
    None None None false Immediate;
  mkSettingDef keys.FEATURES_PUBLISH_ENABLED KBool (DBool true)
    None None None false Immediate;
  mkSettingDef keys.FEATURES_MIRROR_ENABLED KBool (DBool true)
    None None None false Immediate;
  mkSettingDef keys.FEATURES_METRICS_ENDPOINT_ENABLED KBool (DBool true)
    None None None false Immediate;
  mkSettingDef keys.FEATURES_INPUT_ENABLED KBool (DBool true)
    None None None false Immediate;
  mkSettingDef keys.FEATURES_CLIENT_RESIZE_ENABLED KBool (DBool true)
    None None None false Immediate;
  mkSettingDef keys.FEATURES_TERMINAL_CREATE_ENABLED KBool (DBool false)
    None None None false Immediate
].

Definition DEFS_rate_limits : list SettingDef := [
  mkSettingDef keys.RATELIMIT_ENABLED KBool (DBool true)
    None None None false Immediate;
  mkSettingDef keys.RATELIMIT_CHALLENGES_PER_MINUTE_PER_SOURCE KInt (DInt 30)
    (Some 1) (Some 100000) None false Immediate;
  mkSettingDef keys.RATELIMIT_CHALLENGES_PER_MINUTE_PER_FINGERPRINT KInt (DInt 10)
    (Some 1) (Some 100000) None false Immediate;
  mkSettingDef keys.RATELIMIT_IDENTITY_REGISTRATIONS_PER_HOUR_PER_SOURCE KInt (DInt 10)
    (Some 1) (Some 100000) None false Immediate;
  mkSettingDef keys.RATELIMIT_TOKEN_REQUESTS_PER_MINUTE_PER_FINGERPRINT KInt (DInt 60)
    (Some 1) (Some 100000) None false Immediate;
  mkSettingDef keys.RATELIMIT_REQUESTS_PER_MINUTE_PER_PRINCIPAL KInt (DInt 600)
    (Some 1) (Some 10000000) None false Immediate;
  mkSettingDef keys.RATELIMIT_WEBSOCKET_CONNECTIONS_PER_MINUTE_PER_PRINCIPAL KInt (DInt 60)
    (Some 1) (Some 100000) None false Immediate;
  mkSettingDef keys.RATELIMIT_INPUT_FRAMES_PER_MINUTE_PER_SUBSCRIBER KInt (DInt 6000)
    (Some 60) (Some 1000000) None false Immediate;
  mkSettingDef keys.RATELIMIT_TERMINAL_CREATES_PER_HOUR_PER_PRINCIPAL KInt (DInt 20)
    (Some 1) (Some 10000) None false Immediate;
  mkSettingDef keys.RATELIMIT_TERMINAL_CREATES_PER_HOUR_PER_DEVICE KInt (DInt 20)
    (Some 1) (Some 10000) None false Immediate;
  mkSettingDef keys.RATELIMIT_INPUT_BYTES_PER_MINUTE_PER_SUBSCRIBER KInt (DInt 1048576)
    (Some 4096) (Some 104857600) None false Immediate;
  mkSettingDef keys.RATELIMIT_RETRY_AFTER_SECONDS KInt (DInt 60)
    (Some 1) (Some 3600) None false Immediate
].

Definition DEFS_limits : list SettingDef := [
  mkSettingDef keys.LIMITS_MAX_REQUEST_BODY_BYTES KInt (DInt 65536)
    (Some 1024) (Some 10485760) None false Immediate;
  mkSettingDef keys.LIMITS_MAX_DEVICES_PER_IDENTITY KInt (DInt 100)
    (Some 1) (Some 100000) None false Immediate;
  mkSettingDef keys.LIMITS_MAX_ACTIVE_TERMINALS_PER_DEVICE KInt (DInt 50)
    (Some 1) (Some 10000) None false Immediate;
  mkSettingDef keys.LIMITS_MAX_CONNECTIONS_PER_PRINCIPAL KInt (DInt 20)
    (Some 1) (Some 10000) None false Immediate;
  mkSettingDef keys.LIMITS_MAX_OUTPUT_FRAME_BYTES KInt (DInt 262144)
    (Some 1024) (Some 8388608) None false ConnectionRenegotiate;
  mkSettingDef keys.LIMITS_MAX_UNACKED_OUTPUT_BYTES KInt (DInt 4194304)
    (Some 65536) (Some 268435456) None false ConnectionRenegotiate;
  mkSettingDef keys.LIMITS_MAX_INPUT_FRAME_BYTES KInt (DInt 4096)
    (Some 64) (Some 65536) None false ConnectionRenegotiate;
  mkSettingDef keys.LIMITS_MAX_INPUT_QUEUE_FRAMES KInt (DInt 256)
    (Some 8) (Some 65536) None false ConnectionRenegotiate;
  mkSettingDef keys.LIMITS_MAX_CONTROL_MESSAGE_BYTES KInt (DInt 65536)
    (Some 512) (Some 1048576) None false ConnectionRenegotiate;
  mkSettingDef keys.LIMITS_MAX_PENDING_OPEN_REQUESTS_PER_DEVICE KInt (DInt 4)
    (Some 1) (Some 64) None false Immediate;
  mkSettingDef keys.LIMITS_MAX_PENDING_OPEN_REQUESTS_TOTAL KInt (DInt 64)
    (Some 1) (Some 4096) None false Immediate;
  mkSettingDef keys.TERMINAL_OPEN_REQUEST_TIMEOUT_SECONDS KInt (DInt 15)
    (Some 1) (Some 30) None false Immediate;
  mkSettingDef keys.LIMITS_MAX_LABEL_BYTES KInt (DInt 200)
    (Some 1) (Some 8192) None false Immediate;
  mkSettingDef keys.LIMITS_MAX_LOCAL_REF_BYTES KInt (DInt 128)
    (Some 1) (Some 8192) None false Immediate;
  mkSettingDef keys.LIMITS_MAX_TERM_BYTES KInt (DInt 64)
    (Some 1) (Some 1024) None false Immediate;
  mkSettingDef keys.LIMITS_MAX_DEVICE_NAME_BYTES KInt (DInt 200)
    (Some 1) (Some 8192) None false Immediate;
  mkSettingDef keys.LIMITS_MAX_PROCESS_LABEL_BYTES KInt (DInt 200)
    (Some 1) (Some 8192) None false Immediate;
  mkSettingDef keys.LIMITS_MAX_TERMINAL_COLS KInt (DInt 10000)
    (Some 1) (Some 1000000) None false Immediate;
  mkSettingDef keys.LIMITS_MAX_TERMINAL_ROWS KInt (DInt 10000)
    (Some 1) (Some 1000000) None false Immediate;
  mkSettingDef keys.LIMITS_MAX_PAGE_SIZE KInt (DInt 100)
    (Some 1) (Some 1000) None false Immediate;
  mkSettingDef keys.LIMITS_DEFAULT_PAGE_SIZE KInt (DInt 50)
    (Some 1) (Some 1000) None false Immediate
].

Definition DEFS_terminals : list SettingDef := [
  mkSettingDef keys.TERMINAL_REPLAY_CAPACITY_BYTES KInt (DInt 1500000)
    (Some 1024) (Some 1500000) None false Immediate;
  mkSettingDef keys.TERMINAL_PUBLISHER_RECONNECT_GRACE_SECONDS KInt (DInt 60)
    (Some 0) (Some 86400) None false Immediate;
  mkSettingDef keys.TERMINAL_CLOSED_RETENTION_SECONDS KInt (DInt 86400)
    (Some 60) (Some 31536000) None false Immediate;
  mkSettingDef keys.TERMINAL_ALLOW_PROCESS_LABEL KBool (DBool false)
    None None None false Immediate
].

Definition DEFS_persistence : list SettingDef := [
  mkSettingDef keys.PERSISTENCE_FLUSH_INTERVAL_MS KInt (DInt 5000)
    (Some 10) (Some 60000) None false Immediate;
  mkSettingDef keys.PERSISTENCE_FLUSH_BYTES KInt (DInt 262144)
    (Some 4096) (Some 67108864) None false Immediate;
  mkSettingDef keys.PERSISTENCE_MEMORY_PRESSURE_DIRTY_BYTES KInt (DInt 33554432)
    (Some 65536) (Some 4294967296) None false Immediate;
  mkSettingDef keys.PERSISTENCE_BACKPRESSURE_WAIT_MS KInt (DInt 5000)
    (Some 10) (Some 60000) None false Immediate;
  mkSettingDef keys.PERSISTENCE_COMMIT_RETRY_INITIAL_MS KInt (DInt 50)
    (Some 1) (Some 60000) None false Immediate;
  mkSettingDef keys.PERSISTENCE_COMMIT_RETRY_MAX_MS KInt (DInt 5000)
    (Some 1) (Some 300000) None false Immediate;
  mkSettingDef keys.PERSISTENCE_COMMIT_RETRY_MAX_ATTEMPTS KInt (DInt 10)
    (Some 1) (Some 1000) None false Immediate;
  mkSettingDef keys.PERSISTENCE_STORAGE_QUOTA_BYTES KInt (DInt 5000000000)
    (Some 1048576) (Some 1000000000000) None false Immediate;
  mkSettingDef keys.PERSISTENCE_RETENTION_SWEEP_INTERVAL_SECONDS KInt (DInt 300)
    (Some 5) (Some 86400) None false Immediate;
  mkSettingDef keys.PERSISTENCE_SQLITE_SYNCHRONOUS KEnum (DStr (lit "normal"))
    None None (Some [lit "off"; lit "normal"; lit "full"]) false StorageReconfigure;
  mkSettingDef keys.PERSISTENCE_SQLITE_WAL_AUTOCHECKPOINT_PAGES KInt (DInt 4000)
    (Some 0) (Some 1000000) None false StorageReconfigure;
  mkSettingDef keys.PERSISTENCE_SQLITE_BUSY_TIMEOUT_MS KInt (DInt 5000)
    (Some 0) (Some 60000) None false StorageReconfigure;
  mkSettingDef keys.PERSISTENCE_SQLITE_CACHE_SIZE_KIB KInt (DInt 8192)
    (Some 64) (Some 4194304) None false StorageReconfigure
].

Definition DEFS_mirror_fan_out : list SettingDef := [
  mkSettingDef keys.MIRROR_SUBSCRIBER_QUEUE_BYTES KInt (DInt 4194304)
    (Some 65536) (Some 268435456) None false ConnectionRenegotiate;
  mkSettingDef keys.MIRROR_SUBSCRIBER_QUEUE_MESSAGES KInt (DInt 1024)
    (Some 8) (Some 1048576) None false ConnectionRenegotiate;
  mkSettingDef keys.MIRROR_REPLAY_CHUNK_BYTES KInt (DInt 65536)
    (Some 1024) (Some 1048576) None false Immediate
].

Definition DEFS_websocket : list SettingDef := [
  mkSettingDef keys.WEBSOCKET_HEARTBEAT_INTERVAL_SECONDS KInt (DInt 20)
    (Some 1) (Some 3600) None false ConnectionRenegotiate;
  mkSettingDef keys.WEBSOCKET_HEARTBEAT_TIMEOUT_SECONDS KInt (DInt 60)
    (Some 2) (Some 7200) None false ConnectionRenegotiate;
  mkSettingDef keys.WEBSOCKET_HANDSHAKE_TIMEOUT_SECONDS KInt (DInt 10)
    (Some 1) (Some 300) None false Immediate
].

Definition DEFS_settings_plumbing : list SettingDef := [
  mkSettingDef keys.SETTINGS_PROPAGATION_INTERVAL_MS KInt (DInt 1000)
    (Some 50) (Some 60000) None false Immediate
].

Definition DEFS_observability : list SettingDef := [
  mkSettingDef keys.LOGGING_LEVEL KEnum (DStr (lit "info"))
    None None (Some [lit "trace"; lit "debug"; lit "info"; lit "warn"; lit "error"]) false LoggingReload;
  mkSettingDef keys.LOGGING_FORMAT KEnum (DStr (lit "json"))
    None None (Some [lit "json"; lit "text"]) false LoggingReload;
  mkSettingDef keys.METRICS_REQUIRE_OPERATOR_AUTH KBool (DBool true)
    None None None false Immediate
].

Definition DEFS_idempotency : list SettingDef := [
  mkSettingDef keys.IDEMPOTENCY_ENABLED KBool (DBool true)
    None None None false Immediate;
  mkSettingDef keys.IDEMPOTENCY_RETENTION_SECONDS KInt (DInt 172800)
    (Some 86400) (Some 2592000) None false Immediate
].

Close Scope Z_scope.

Definition DEFS : list SettingDef :=
  DEFS_server_network
  ++ DEFS_transport_security
  ++ DEFS_authentication
  ++ DEFS_feature_switches
  ++ DEFS_rate_limits
  ++ DEFS_limits
  ++ DEFS_terminals
  ++ DEFS_persistence
  ++ DEFS_mirror_fan_out
  ++ DEFS_websocket
  ++ DEFS_settings_plumbing
  ++ DEFS_observability
  ++ DEFS_idempotency.

Definition ALL_KEYS : list string := d_name <$> DEFS.
