(* ===== verification/Settings.v ===== *)
(** * Typed runtime settings ([server/src/settings/mod.rs])

    [Value], its validation against a [SettingDef], and [Snapshot], the
    consistent view every request, connection and output batch captures. A
    snapshot whose values all validate ([snapshot_valid]) reads back inside the
    declared bounds through the lossy accessors. Loading, storing and patching
    settings, JSON and secrets are in [SettingsStore]. *)

From S2P Require Export SettingsDefs.

Open Scope N_scope.
Open Scope hype_scope.

Inductive Value :=
| VBool (b : bool)
| VInt (i : Z)
| VStr (s : text)
| VList (l : list text).
#[export] Instance Value_eq_dec : EqDecision Value.
Proof. solve_decision. Defined.

Definition default_value (d : SettingDef) : Value :=
  match d_default d with
  | DBool b => VBool b
  | DInt i => VInt i
  | DStr s => VStr s
  | DList l => VList l
  end.

Definition find_def (name : string) : option SettingDef :=
  head (filter (λ d, d_name d = name) DEFS).

(** [validate_value]; the error is the message. *)
Definition validate_value (d : SettingDef) (v : Value) : result text unit :=
  match d_kind d, v with
  | KBool, VBool _ => Ok ()
  | KInt, VInt i =>
      if from_option (λ m, (i <? m)%Z) false (d_min d) then
        Err (lit (d_name d) ++ lit " must be at least " ++ lit (pretty.pretty (default 0%Z (d_min d))))
      else if from_option (λ m, (m <? i)%Z) false (d_max d) then
        Err (lit (d_name d) ++ lit " must be at most " ++ lit (pretty.pretty (default 0%Z (d_max d))))
      else Ok ()
  | KStr, VStr _ | KSecret, VStr _ => Ok ()
  | KEnum, VStr s =>
      if bool_decide (s ∈ default [] (d_allowed d)) then Ok ()
      else Err (lit (d_name d) ++ lit " must be one of "
                ++ foldr (λ a acc, if is_empty acc then a else a ++ lit ", " ++ acc) []
                     (default [] (d_allowed d)))
  | KList, VList items =>
      if existsb (λ s, is_empty (trim s)) items then
        Err (lit (d_name d) ++ lit " must not contain empty entries")
      else Ok ()
  | _, _ => Err (lit (d_name d) ++ lit " has the wrong value type")
  end.

(** The secret box is left out: no accessor below uses it. *)
Record Snapshot := mkSnapshot {
  sn_revision : Z;
  sn_values : gmap string Value;
}.

Definition snapshot_get (name : string) (sn : Snapshot) : Value :=
  match sn_values sn !! name with
  | Some v => v
  | None => from_option default_value (VInt 0) (find_def name)
  end.

Definition sn_int (name : string) (sn : Snapshot) : Z :=
  match snapshot_get name sn with VInt i => i | _ => 0%Z end.
Definition sn_u64 (name : string) (sn : Snapshot) : N := of_i64 (sn_int name sn).
Definition sn_usize (name : string) (sn : Snapshot) : N := of_i64 (sn_int name sn).
Definition sn_u32 (name : string) (sn : Snapshot) : N :=
  Z.to_N (Z.min (Z.max (sn_int name sn) 0) 4294967295).
Definition sn_bool (name : string) (sn : Snapshot) : bool := bool_decide (snapshot_get name sn = VBool true).
Definition sn_list (name : string) (sn : Snapshot) : list text :=
  match snapshot_get name sn with VList l => l | _ => [] end.
(** Durations in the unit of the setting. *)
Definition sn_duration_ms (name : string) (sn : Snapshot) : N := sn_u64 name sn.
Definition sn_duration_secs (name : string) (sn : Snapshot) : N := sn_u64 name sn.
Definition replay_capacity (sn : Snapshot) : N :=
  N.min (sn_usize keys.TERMINAL_REPLAY_CAPACITY_BYTES sn) (Z.to_N REPLAY_CAPACITY_HARD_MAX).

(** ** Validated snapshots *)

(** What every stored or patched value has passed. *)
Definition snapshot_valid (sn : Snapshot) : Prop :=
  ∀ name d v, find_def name = Some d → sn_values sn !! name = Some v → validate_value d v = Ok ().

Definition snapshot_default : Snapshot := mkSnapshot 1 ∅.
Lemma snapshot_default_valid : snapshot_valid snapshot_default.
Proof. intros ??? _ [=]. Qed.

#[export] Instance DefaultValue_eq_dec : EqDecision DefaultValue.
Proof. solve_decision. Defined.
#[export] Instance Reload_eq_dec : EqDecision Reload.
Proof. solve_decision. Defined.
#[export] Instance SettingDef_eq_dec : EqDecision SettingDef.
Proof. solve_decision. Defined.
#[export] Instance result_eq_dec {E A} `{EqDecision E, EqDecision A} : EqDecision (result E A).
Proof. solve_decision. Defined.

(** A declaration is found under its own name and its default passes. *)
Definition def_ok (d : SettingDef) : bool :=
  bool_decide (find_def (d_name d) = Some d)
  && bool_decide (validate_value d (default_value d) = Ok ())
  && match d_kind d with
     | KInt => bool_decide (is_Some (d_min d)) && bool_decide (is_Some (d_max d))
               && bool_decide (0 ≤ default 0 (d_min d) ∧ default 0 (d_max d) < 9223372036854775808)%Z
     | _ => true
     end.

Lemma defs_ok : Forall (λ d, def_ok d = true) DEFS.
Proof. apply (bool_decide_unpack (Forall (λ d, def_ok d = true) DEFS)). by vm_compute. Qed.

Lemma find_def_elem name d : find_def name = Some d → d ∈ DEFS ∧ d_name d = name.
Proof.
  unfold find_def. intros H.
  assert (d ∈ filter (λ d, d_name d = name) DEFS) as [? ?]%list_elem_of_filter; [|done].
  destruct (filter _ DEFS); simplify_eq/=. by left.
Qed.

(** An integer setting of a validated snapshot is inside its bounds. *)
Lemma sn_int_bounds sn name d mn mx :
  snapshot_valid sn → find_def name = Some d → d_kind d = KInt →
  d_min d = Some mn → d_max d = Some mx →
  (mn ≤ sn_int name sn ≤ mx ∧ 0 ≤ mn ∧ mx < 9223372036854775808)%Z.
Proof.
  intros Hv Hd Hk Hmn Hmx. destruct (find_def_elem _ _ Hd) as [Hin <-].
  pose proof (proj1 (Forall_forall _ _) defs_ok d Hin) as Hok. unfold def_ok in Hok.
  rewrite Hk, Hmn, Hmx in Hok. cbn in Hok.
  assert (validate_value d (snapshot_get (d_name d) sn) = Ok ()) as Hval.
  { unfold snapshot_get. destruct (sn_values sn !! d_name d) as [v|] eqn:E; [by eapply Hv|].
    rewrite Hd. cbn. apply andb_prop in Hok as [[_ Hok]%andb_prop _].
    by apply bool_decide_eq_true in Hok. }
  apply andb_prop in Hok as [_ Hb]. apply bool_decide_eq_true in Hb.
  unfold sn_int. unfold validate_value in Hval. rewrite Hk, Hmn, Hmx in Hval.
  destruct (snapshot_get _ sn); try done. cbn in Hval.
  destruct (Z.ltb_spec i mn); [done|]. destruct (Z.ltb_spec mx i); [done|]. lia.
Qed.

(** ** Properties *)

(** Every declared setting is found under its own unique name and its
    default passes its own validation, and every integer setting declares
    bounds that fit the unsigned accessors. *)
Theorem settings_declarations_consistent :
  NoDup ALL_KEYS
  ∧ ∀ d, d ∈ DEFS →
      find_def (d_name d) = Some d
      ∧ validate_value d (default_value d) = Ok ()
      ∧ (d_kind d = KInt → ∃ mn mx, d_min d = Some mn ∧ d_max d = Some mx
           ∧ (0 ≤ mn ∧ mx < 9223372036854775808)%Z).
Proof.
  split; [apply (bool_decide_unpack (NoDup ALL_KEYS)); by vm_compute|].
  intros d Hin. pose proof (proj1 (Forall_forall _ _) defs_ok d Hin) as Hok. unfold def_ok in Hok.
  apply andb_prop in Hok as [[H1 H2]%andb_prop H3].
  apply bool_decide_eq_true in H1, H2. split_and!; [done|done|].
  intros Hk. rewrite Hk in H3. apply andb_prop in H3 as [[Hmn Hmx]%andb_prop Hb].
  apply bool_decide_eq_true in Hmn as [mn Hmn], Hmx as [mx Hmx], Hb.
  exists mn, mx. rewrite Hmn, Hmx in Hb. done.
Qed.

(** The limits the relay runs with are sane for every snapshot whose
    stored values passed validation, whatever is stored: the replay window is
    positive and never above the specification's ceiling, a frame and the
    unacknowledged window are positive and an unsigned read of them loses
    nothing, at least one checkpoint attempt is made. *)
Theorem validated_limits (sn : Snapshot) :
  snapshot_valid sn →
  1024 ≤ replay_capacity sn ≤ 1500000
  ∧ 1024 ≤ sn_u64 keys.LIMITS_MAX_OUTPUT_FRAME_BYTES sn ≤ 8388608
  ∧ 65536 ≤ sn_u64 keys.LIMITS_MAX_UNACKED_OUTPUT_BYTES sn ≤ 268435456
  ∧ 65536 ≤ sn_u64 keys.MIRROR_SUBSCRIBER_QUEUE_BYTES sn ≤ 268435456
  ∧ 1024 ≤ sn_usize keys.MIRROR_REPLAY_CHUNK_BYTES sn ≤ 1048576
  ∧ 1 ≤ sn_u32 keys.PERSISTENCE_COMMIT_RETRY_MAX_ATTEMPTS sn ≤ 1000
  ∧ sn_u64 keys.PERSISTENCE_FLUSH_BYTES sn = Z.to_N (sn_int keys.PERSISTENCE_FLUSH_BYTES sn).
Proof.
  intros Hv. unfold replay_capacity, sn_usize, sn_u64, sn_u32, of_i64.
  pose proof (sn_int_bounds sn keys.TERMINAL_REPLAY_CAPACITY_BYTES _ _ _ Hv eq_refl eq_refl eq_refl eq_refl).
  pose proof (sn_int_bounds sn keys.LIMITS_MAX_OUTPUT_FRAME_BYTES _ _ _ Hv eq_refl eq_refl eq_refl eq_refl).
  pose proof (sn_int_bounds sn keys.LIMITS_MAX_UNACKED_OUTPUT_BYTES _ _ _ Hv eq_refl eq_refl eq_refl eq_refl).
  pose proof (sn_int_bounds sn keys.MIRROR_SUBSCRIBER_QUEUE_BYTES _ _ _ Hv eq_refl eq_refl eq_refl eq_refl).
  pose proof (sn_int_bounds sn keys.MIRROR_REPLAY_CHUNK_BYTES _ _ _ Hv eq_refl eq_refl eq_refl eq_refl).
  pose proof (sn_int_bounds sn keys.PERSISTENCE_COMMIT_RETRY_MAX_ATTEMPTS _ _ _ Hv eq_refl eq_refl eq_refl eq_refl).
  pose proof (sn_int_bounds sn keys.PERSISTENCE_FLUSH_BYTES _ _ _ Hv eq_refl eq_refl eq_refl eq_refl).
  unfold REPLAY_CAPACITY_HARD_MAX. lia.
Qed.

Lemma validated_limits_witness :
  let sn := mkSnapshot 2 {[ keys.TERMINAL_REPLAY_CAPACITY_BYTES := VInt 4096 ]} in
  1024 ≤ replay_capacity sn ≤ 1500000
  ∧ 1024 ≤ sn_u64 keys.LIMITS_MAX_OUTPUT_FRAME_BYTES sn ≤ 8388608
  ∧ 65536 ≤ sn_u64 keys.LIMITS_MAX_UNACKED_OUTPUT_BYTES sn ≤ 268435456
  ∧ 65536 ≤ sn_u64 keys.MIRROR_SUBSCRIBER_QUEUE_BYTES sn ≤ 268435456
  ∧ 1024 ≤ sn_usize keys.MIRROR_REPLAY_CHUNK_BYTES sn ≤ 1048576
  ∧ 1 ≤ sn_u32 keys.PERSISTENCE_COMMIT_RETRY_MAX_ATTEMPTS sn ≤ 1000
  ∧ sn_u64 keys.PERSISTENCE_FLUSH_BYTES sn = Z.to_N (sn_int keys.PERSISTENCE_FLUSH_BYTES sn).
Proof.
  apply validated_limits. intros name d v Hd Hv. cbn in Hv.
  apply lookup_singleton_Some in Hv as [<- <-]. vm_compute in Hd. injection Hd as <-. reflexivity.
Defined.
