(* ===== verification/Registry.v ===== *)
(** * The registry ([server/src/relay/registry.rs])

    [Registry] is the shared record behind [Arc<Registry>] with what its
    fields point at: terminal handles, watch channels, publisher input queues
    and [Notify]s are shared by reference in the source, so they live in maps
    from locations and the tables hold locations. One definition per method;
    a method that awaits the database is a [RegM] computation, one [db_call]
    per await. Each [db_call] consumes one entry of [g_faults], which decides
    whether storage fails it (and with what). A method's state changes before a
    failing await stay, as in the source. Metrics and tracing are left out. *)

From S2P Require Export TerminalProps Settings.

Open Scope N_scope.
Open Scope hype_scope.

(** [tokio::sync::Notify] as [notify_waiters] uses it: it wakes the tasks
    waiting at that moment and stores nothing for later. *)
Record Notify := mkNotify {
  n_waiting : bool;
  n_woken : bool;
}.
Definition notify_waiters (n : Notify) : Notify :=
  if n_waiting n then mkNotify false true else n.

Record PublisherSlot := mkPublisherSlot {
  ps_generation : N;
  ps_connection_id : text;
  ps_supersede : N;
  ps_version : ProtocolVersion;
  ps_input_tx : option N;
  ps_open_requests : bool;
}.

Inductive PublisherDelivery :=
| PdInput (terminal_id relay_sequence : N) (payload : list byte)
| PdResizeRequest (terminal_id cols rows : N)
| PdOpenRequest (request_id : text) (label : option text) (cols rows : option N).

Inductive TerminalOrigin := OriginPublisher | OriginRequest.
Definition origin_as_str (o : TerminalOrigin) : string :=
  match o with OriginPublisher => "publisher" | OriginRequest => "request" end.

Inductive OpenOutcome :=
| Opened (terminal_id : Uuid) (deduplicated : bool)
| Declined (reason : text)
| Failed (code : error_code) (message : text)
| Unavailable.

Inductive BeginOpen := Fresh (watch : N) | Joined (watch : N).

Record PendingOpen := mkPendingOpen {
  po_tx : N;
  po_principal_id : text;
  po_created : N;
}.

Inductive InputDeliveryError := NoPublisher | Backpressure.

(** A publisher connection's bounded channel of deliveries. *)
Record InputChan := mkInputChan {
  ic_queue : list PublisherDelivery;
  ic_capacity : N;
  ic_rx_open : bool;
}.

Record Registry := mkRegistry {
  g_db : Tables;
  g_faults : list (option ApiError);
  g_settings : Snapshot;
  g_terminals : gmap Uuid N;
  g_publishers : gmap Uuid PublisherSlot;
  g_connections : gmap text N;
  g_next_generation : N;
  g_flush_request : bool;
  g_storage_failing : bool;
  g_shutting_down : bool;
  g_pending_opens : gmap (Uuid * text) PendingOpen;
  g_handles : gmap N TerminalHandle;
  g_watches : gmap N (option OpenOutcome);
  g_inputs : gmap N InputChan;
  g_notifies : gmap N Notify;
  g_next_loc : N;
}.

Definition put_db (v : Tables) (g : Registry) : Registry :=
  mkRegistry v (g_faults g) (g_settings g) (g_terminals g) (g_publishers g) (g_connections g)
    (g_next_generation g) (g_flush_request g) (g_storage_failing g) (g_shutting_down g)
    (g_pending_opens g) (g_handles g) (g_watches g) (g_inputs g) (g_notifies g) (g_next_loc g).
Definition put_faults (v : list (option ApiError)) (g : Registry) : Registry :=
  mkRegistry (g_db g) v (g_settings g) (g_terminals g) (g_publishers g) (g_connections g)
    (g_next_generation g) (g_flush_request g) (g_storage_failing g) (g_shutting_down g)
    (g_pending_opens g) (g_handles g) (g_watches g) (g_inputs g) (g_notifies g) (g_next_loc g).
Definition put_settings (v : Snapshot) (g : Registry) : Registry :=
  mkRegistry (g_db g) (g_faults g) v (g_terminals g) (g_publishers g) (g_connections g)
    (g_next_generation g) (g_flush_request g) (g_storage_failing g) (g_shutting_down g)
    (g_pending_opens g) (g_handles g) (g_watches g) (g_inputs g) (g_notifies g) (g_next_loc g).
Definition put_terminals (v : gmap Uuid N) (g : Registry) : Registry :=
  mkRegistry (g_db g) (g_faults g) (g_settings g) v (g_publishers g) (g_connections g)
    (g_next_generation g) (g_flush_request g) (g_storage_failing g) (g_shutting_down g)
    (g_pending_opens g) (g_handles g) (g_watches g) (g_inputs g) (g_notifies g) (g_next_loc g).
Definition put_publishers (v : gmap Uuid PublisherSlot) (g : Registry) : Registry :=
  mkRegistry (g_db g) (g_faults g) (g_settings g) (g_terminals g) v (g_connections g)
    (g_next_generation g) (g_flush_request g) (g_storage_failing g) (g_shutting_down g)
    (g_pending_opens g) (g_handles g) (g_watches g) (g_inputs g) (g_notifies g) (g_next_loc g).
Definition put_connections (v : gmap text N) (g : Registry) : Registry :=
  mkRegistry (g_db g) (g_faults g) (g_settings g) (g_terminals g) (g_publishers g) v
    (g_next_generation g) (g_flush_request g) (g_storage_failing g) (g_shutting_down g)
    (g_pending_opens g) (g_handles g) (g_watches g) (g_inputs g) (g_notifies g) (g_next_loc g).
Definition put_next_generation (v : N) (g : Registry) : Registry :=
  mkRegistry (g_db g) (g_faults g) (g_settings g) (g_terminals g) (g_publishers g)
    (g_connections g) v (g_flush_request g) (g_storage_failing g) (g_shutting_down g)
    (g_pending_opens g) (g_handles g) (g_watches g) (g_inputs g) (g_notifies g) (g_next_loc g).
Definition put_flush_request (v : bool) (g : Registry) : Registry :=
  mkRegistry (g_db g) (g_faults g) (g_settings g) (g_terminals g) (g_publishers g)
    (g_connections g) (g_next_generation g) v (g_storage_failing g) (g_shutting_down g)
    (g_pending_opens g) (g_handles g) (g_watches g) (g_inputs g) (g_notifies g) (g_next_loc g).
Definition put_storage_failing (v : bool) (g : Registry) : Registry :=
  mkRegistry (g_db g) (g_faults g) (g_settings g) (g_terminals g) (g_publishers g)
    (g_connections g) (g_next_generation g) (g_flush_request g) v (g_shutting_down g)
    (g_pending_opens g) (g_handles g) (g_watches g) (g_inputs g) (g_notifies g) (g_next_loc g).
Definition put_shutting_down (v : bool) (g : Registry) : Registry :=
  mkRegistry (g_db g) (g_faults g) (g_settings g) (g_terminals g) (g_publishers g)
    (g_connections g) (g_next_generation g) (g_flush_request g) (g_storage_failing g) v
    (g_pending_opens g) (g_handles g) (g_watches g) (g_inputs g) (g_notifies g) (g_next_loc g).
Definition put_pending_opens (v : gmap (Uuid * text) PendingOpen) (g : Registry) : Registry :=
  mkRegistry (g_db g) (g_faults g) (g_settings g) (g_terminals g) (g_publishers g)
    (g_connections g) (g_next_generation g) (g_flush_request g) (g_storage_failing g)
    (g_shutting_down g) v (g_handles g) (g_watches g) (g_inputs g) (g_notifies g) (g_next_loc g).
Definition put_handles (v : gmap N TerminalHandle) (g : Registry) : Registry :=
  mkRegistry (g_db g) (g_faults g) (g_settings g) (g_terminals g) (g_publishers g)
    (g_connections g) (g_next_generation g) (g_flush_request g) (g_storage_failing g)
    (g_shutting_down g) (g_pending_opens g) v (g_watches g) (g_inputs g) (g_notifies g)
    (g_next_loc g).
Definition put_watches (v : gmap N (option OpenOutcome)) (g : Registry) : Registry :=
  mkRegistry (g_db g) (g_faults g) (g_settings g) (g_terminals g) (g_publishers g)
    (g_connections g) (g_next_generation g) (g_flush_request g) (g_storage_failing g)
    (g_shutting_down g) (g_pending_opens g) (g_handles g) v (g_inputs g) (g_notifies g)
    (g_next_loc g).
Definition put_inputs (v : gmap N InputChan) (g : Registry) : Registry :=
  mkRegistry (g_db g) (g_faults g) (g_settings g) (g_terminals g) (g_publishers g)
    (g_connections g) (g_next_generation g) (g_flush_request g) (g_storage_failing g)
    (g_shutting_down g) (g_pending_opens g) (g_handles g) (g_watches g) v (g_notifies g)
    (g_next_loc g).
Definition put_notifies (v : gmap N Notify) (g : Registry) : Registry :=
  mkRegistry (g_db g) (g_faults g) (g_settings g) (g_terminals g) (g_publishers g)
    (g_connections g) (g_next_generation g) (g_flush_request g) (g_storage_failing g)
    (g_shutting_down g) (g_pending_opens g) (g_handles g) (g_watches g) (g_inputs g) v
    (g_next_loc g).
Definition put_next_loc (v : N) (g : Registry) : Registry :=
  mkRegistry (g_db g) (g_faults g) (g_settings g) (g_terminals g) (g_publishers g)
    (g_connections g) (g_next_generation g) (g_flush_request g) (g_storage_failing g)
    (g_shutting_down g) (g_pending_opens g) (g_handles g) (g_watches g) (g_inputs g) (g_notifies
    g) v.

(** ** Awaiting the database *)

Definition RegM (A : Type) : Type := Registry → ApiResult A * Registry.
#[export] Instance RegM_ret : MRet RegM := λ A a g, (Ok a, g).
#[export] Instance RegM_bind : MBind RegM := λ A B k m g,
  match m g with (Ok a, g) => k a g | (Err e, g) => (Err e, g) end.
Definition gets {A} (f : Registry → A) : RegM A := λ g, (Ok (f g), g).
Definition modify (f : Registry → Registry) : RegM () := λ g, (Ok (), f g).

Create Rewrite HintDb regm.
Section monad.
Context {A B : Type} (g : Registry).
Lemma reg_bind (m : RegM A) (k : A → RegM B) :
  (m ≫= k) g = match m g with (Ok a, g) => k a g | (Err e, g) => (Err e, g) end.
Proof. done. Qed.
Lemma reg_bind_gets (f : Registry → A) (k : A → RegM B) : (gets f ≫= k) g = k (f g) g.
Proof. done. Qed.
Lemma reg_bind_modify (f : Registry → Registry) (k : () → RegM B) : (modify f ≫= k) g = k () (f g).
Proof. done. Qed.
Lemma reg_ret (a : A) : (mret a : RegM A) g = (Ok a, g).
Proof. done. Qed.
End monad.
#[export] Hint Rewrite @reg_bind_gets @reg_bind_modify @reg_ret : regm.

(** [db.call(closure).await]: a failing closure leaves the tables alone. *)
Definition db_call {A} (f : Tables → ApiResult (A * Tables)) : RegM A := λ g,
  let g' := put_faults (tail (g_faults g)) g in
  match mjoin (head (g_faults g)) with
  | Some e => (Err e, g')
  | None =>
      match f (g_db g) with
      | Ok (a, tb) => (Ok a, put_db tb g')
      | Err e => (Err e, g')
      end
  end.
(** A query. *)
Definition db_read {A} (f : Tables → A) : RegM A := db_call (λ tb, Ok (f tb, tb)).

(** ** Connections *)

Definition acquire_connection (principal : text) (max : N) (g : Registry) : bool * Registry :=
  let counts := g_connections g in
  let count := default 0 (counts !! principal) in
  let counts := <[principal := count]> counts in
  if max <=? count then
    (false, put_connections (if count =? 0 then delete principal counts else counts) g)
  else (true, put_connections (<[principal := count +₆₄ 1]> counts) g).

(** [ConnectionPermit::drop] *)
Definition release_connection (principal : text) (g : Registry) : Registry :=
  match g_connections g !! principal with
  | Some count =>
      let count := count - 1 in
      let counts := <[principal := count]> (g_connections g) in
      put_connections (if count =? 0 then delete principal counts else counts) g
  | None => g
  end.

(** ** Terminal-open requests *)

Definition send_outcome (outcome : OpenOutcome) (entry : PendingOpen) (g : Registry) : Registry :=
  put_watches (<[po_tx entry := Some outcome]> (g_watches g)) g.

Definition begin_open_request (now : N) (device_id : Uuid) (request_id principal_id : text)
    (max_per_device max_total : N) (g : Registry) : ApiResult BeginOpen * Registry :=
  let pending := g_pending_opens g in
  match pending !! (device_id, request_id) with
  | Some existing => (Ok (Joined (po_tx existing)), g)
  | None =>
      if max_total <=? N.of_nat (size pending) then
        (Err (api_limit_exceeded (lit "too many terminal-open requests are in flight")), g)
      else if max_per_device <=? N.of_nat (size (filter (λ '(k, _), k.1 = device_id) pending)) then
        (Err (api_limit_exceeded
                (lit "too many terminal-open requests are in flight for that device")), g)
      else
        let tx := g_next_loc g in
        let g := put_next_loc (tx + 1) (put_watches (<[tx := None]> (g_watches g)) g) in
        (Ok (Fresh tx),
         put_pending_opens (<[(device_id, request_id) := mkPendingOpen tx principal_id now]> pending) g)
  end.

Definition resolve_open_request (device_id : Uuid) (request_id : text) (outcome : OpenOutcome)
    (g : Registry) : bool * Registry :=
  match g_pending_opens g !! (device_id, request_id) with
  | None => (false, g)
  | Some entry => (true, send_outcome outcome entry g)
  end.

Definition finish_open_request (device_id : Uuid) (request_id : text) (g : Registry) : Registry :=
  put_pending_opens (delete (device_id, request_id) (g_pending_opens g)) g.

Definition open_request_principal (device_id : Uuid) (request_id : text) (g : Registry) : option text :=
  po_principal_id <$> g_pending_opens g !! (device_id, request_id).

Definition fail_open_requests_for_device (device_id : Uuid) (g : Registry) : Registry :=
  let keys := filter (λ k, k.1 = device_id) (map_to_list (g_pending_opens g)).*1 in
  foldl (λ g key,
    match g_pending_opens g !! key with
    | Some entry =>
        send_outcome Unavailable entry (put_pending_opens (delete key (g_pending_opens g)) g)
    | None => g
    end) g keys.

Definition sweep_pending_opens (now max_age : N) (g : Registry) : Registry :=
  put_pending_opens (filter (λ '(_, entry), now - po_created entry < max_age) (g_pending_opens g)) g.

(** ** Publishers *)

(** What a [PublisherLease] holds. *)
Record PublisherLease := mkPublisherLease {
  pl_device_id : Uuid;
  pl_generation : N;
  pl_supersede : N;
  pl_connection_id : text;
}.

Definition notify_supersede (slot : PublisherSlot) (g : Registry) : Registry :=
  put_notifies (alter notify_waiters (ps_supersede slot) (g_notifies g)) g.

Definition attach_publisher (device_id : Uuid) (connection_id : text) (version : ProtocolVersion)
    (input_tx : option N) (g : Registry) : PublisherLease * Registry :=
  let generation := g_next_generation g in
  let g := put_next_generation (generation +₆₄ 1) g in
  let supersede := g_next_loc g in
  let g := put_next_loc (supersede + 1)
             (put_notifies (<[supersede := mkNotify false false]> (g_notifies g)) g) in
  let previous := g_publishers g !! device_id in
  let slot := mkPublisherSlot generation connection_id supersede version input_tx false in
  let g := put_publishers (<[device_id := slot]> (g_publishers g)) g in
  let g := match previous with
           | Some previous => notify_supersede previous (fail_open_requests_for_device device_id g)
           | None => g
           end in
  (mkPublisherLease device_id generation supersede connection_id, g).

(** [on_publisher_detached] up to the grace period; [false] when it returns
    before it. *)
Definition on_publisher_detached_begin (device_id : Uuid) (generation : N) (g : Registry)
    : bool * Registry :=
  let g := fail_open_requests_for_device device_id g in
  match g_publishers g !! device_id with
  | Some slot =>
      if negb (ps_generation slot =? generation) then (false, g)
      else
        let g := put_publishers (delete device_id (g_publishers g)) g in
        if g_shutting_down g then (false, g) else (true, g)
  | None => (false, g)
  end.

Definition publisher_accepts_input (device_id : Uuid) (g : Registry) : bool :=
  from_option (λ slot, supports_input (ps_version slot) && bool_decide (is_Some (ps_input_tx slot)))
    false (g_publishers g !! device_id).

Definition publisher_connected (device_id : Uuid) (g : Registry) : bool :=
  bool_decide (is_Some (g_publishers g !! device_id)).

Definition publisher_supports_open_request (device_id : Uuid) (g : Registry) : bool :=
  from_option (λ slot, ps_open_requests slot && supports_input (ps_version slot)
                       && bool_decide (is_Some (ps_input_tx slot)))
    false (g_publishers g !! device_id).

Definition set_publisher_open_requests (device_id : Uuid) (connection_id : text) (on : bool)
    (g : Registry) : Registry :=
  match g_publishers g !! device_id with
  | Some slot =>
      if bool_decide (ps_connection_id slot = connection_id) then
        put_publishers
          (<[device_id := mkPublisherSlot (ps_generation slot) (ps_connection_id slot)
               (ps_supersede slot) (ps_version slot) (ps_input_tx slot) on]> (g_publishers g)) g
      else g
  | None => g
  end.

Definition deliver_to_publisher (device_id : Uuid) (delivery : PublisherDelivery) (g : Registry)
    : result InputDeliveryError () * Registry :=
  match g_publishers g !! device_id ≫= ps_input_tx with
  | None => (Err NoPublisher, g)
  | Some tx =>
      match g_inputs g !! tx with
      | Some c =>
          if negb (ic_rx_open c) then (Err NoPublisher, g)
          else if ic_capacity c <=? len (ic_queue c) then (Err Backpressure, g)
          else (Ok (), put_inputs
                  (<[tx := mkInputChan (ic_queue c ++ [delivery]) (ic_capacity c) true]> (g_inputs g)) g)
      | None => (Err NoPublisher, g)
      end
  end.

(** ** Terminals *)

Definition resident (terminal_id : Uuid) (g : Registry) : option N := g_terminals g !! terminal_id.
Definition resident_handles (g : Registry) : list N := (map_to_list (g_terminals g)).*2.

(** A [TerminalHandle] method on the handle at a location. *)
Definition on_handle (loc : N) (f : TerminalInner → TerminalInner) (g : Registry) : Registry :=
  put_handles (alter (λ h, mkTerminalHandle (h_terminal_id h) (h_device_id h) (h_identity_id h)
                             (h_local_ref h) (h_created_at h) (f (h_inner h))) loc (g_handles g)) g.

Definition install_handle (h : TerminalHandle) (g : Registry) : N * Registry :=
  let loc := g_next_loc g in
  (loc, put_next_loc (loc + 1) (put_handles (<[loc := h]> (g_handles g))
          (put_terminals (<[h_terminal_id h := loc]> (g_terminals g)) g))).

Definition install (h : TerminalHandle) : RegM N := λ g,
  let '(loc, g) := install_handle h g in (Ok loc, g).

Definition load_output (terminal_id : Uuid) (earliest : N) : RegM (list byte) :=
  db_call (λ tb, let? bytes := load_terminal_output terminal_id earliest tb in Ok (bytes, tb)).

Definition insert_or_load_handle (row : TerminalRow) (capacity : N) : RegM N :=
  r ← gets (resident (t_terminal_id row));
  match r with
  | Some loc => mret loc
  | None =>
      (* the load lock is taken here, and the test repeated *)
      r ← gets (resident (t_terminal_id row));
      match r with
      | Some loc => mret loc
      | None =>
          retained ← load_output (t_terminal_id row) (t_earliest_offset row);
          install (term_from_row row capacity retained)
      end
  end.

Definition get_or_load (terminal_id : Uuid) : RegM (option N) :=
  r ← gets (resident terminal_id);
  match r with
  | Some loc => mret (Some loc)
  | None =>
      capacity ← gets (λ g, replay_capacity (g_settings g));
      row ← db_read (get_terminal terminal_id);
      match row with
      | None => mret None
      | Some row => loc ← insert_or_load_handle row capacity; mret (Some loc)
      end
  end.

Record OpenRequest := mkOpenRequest {
  or_local_ref : text;
  or_label : text;
  or_cols : option N;
  or_rows : option N;
  or_term : option text;
  or_process_label : option text;
  or_accepts_input : bool;
  or_origin : TerminalOrigin;
  or_requested_by_principal : option text;
}.

(** The closure [open_terminal] sends to the database. [race] is what other
    connections commit between its lookup and its insert. *)
Definition open_row (terminal_id : Uuid) (now : N) (device_id : Uuid) (identity_id : text)
    (request : OpenRequest) (max_terminals : Z) (race : Tables → Tables) (tb : Tables)
    : ApiResult ((TerminalRow * bool) * Tables) :=
  match find_open_terminal_by_local_ref device_id (or_local_ref request) tb with
  | Some existing => Ok (existing, true, tb)
  | None =>
      let open_count := count_open_terminals_for_device device_id tb in
      if (max_terminals <=? open_count)%Z then
        Err (api_limit_exceeded
               (lit "device already has " ++ lit (pretty.pretty open_count)
                ++ lit " open terminals, the limit is " ++ lit (pretty.pretty max_terminals)))
      else
        let tb := race tb in
        match insert_terminal terminal_id now device_id identity_id (or_local_ref request)
                (or_label request) (or_cols request) (or_rows request) (or_term request)
                (or_process_label request) (or_accepts_input request)
                (origin_as_str (or_origin request)) (or_requested_by_principal request) tb with
        | Ok (row, tb) => Ok (row, false, tb)
        | Err e =>
            match find_open_terminal_by_local_ref device_id (or_local_ref request) tb with
            | Some existing => Ok (existing, true, tb)
            | None => Err e
            end
        end
  end.

(** What the other tasks do while an open is awaited: before the storage call
    runs, inside it (other processes, between its lookup and its insert), after
    it and once the handle is there. *)
Record Meanwhile := mkMeanwhile {
  mw_queued : Registry → Registry;
  mw_race : Tables → Tables;
  mw_stored : Registry → Registry;
  mw_loaded : Registry → Registry;
}.
Definition racing (race : Tables → Tables) : Meanwhile := mkMeanwhile (λ g, g) race (λ g, g) (λ g, g).

Definition open_terminal (terminal_id : Uuid) (now : N) (device_id : Uuid) (identity_id : text)
    (request : OpenRequest) (mw : Meanwhile) : RegM (N * bool) :=
  capacity ← gets (λ g, replay_capacity (g_settings g));
  max_terminals ← gets (λ g, sn_int keys.LIMITS_MAX_ACTIVE_TERMINALS_PER_DEVICE (g_settings g));
  _ ← modify (mw_queued mw);
  '(row, deduplicated) ← db_call (open_row terminal_id now device_id identity_id request max_terminals (mw_race mw));
  _ ← modify (mw_stored mw);
  loc ← insert_or_load_handle row capacity;
  _ ← modify (λ g, if (deduplicated : bool) then
                     on_handle loc (term_update_metadata (Some (t_label row)) (t_cols row) (t_rows row)
                                      (t_term row)) g
                   else g);
  mret (loc, deduplicated).

(** [begin_close] through a handle. *)
Definition begin_close_at (now : N) (loc : N) (reason : text) (g : Registry) : Registry :=
  on_handle loc (λ i, (term_begin_close now reason i).2) g.

Fixpoint close_rows (now : N) (reason : text) (rows : list TerminalRow) : RegM () :=
  match rows with
  | [] => mret ()
  | row :: rest =>
      r ← get_or_load (t_terminal_id row);
      _ ← match r with
          | Some loc => modify (begin_close_at now loc reason)
          | None => db_call (λ tb, Ok ((), close_terminal_without_output (t_terminal_id row) reason now tb))
          end;
      close_rows now reason rest
  end.

Definition request_flush (g : Registry) : Registry := put_flush_request true g.

Definition close_device_terminals (now : N) (device_id : Uuid) (reason : text) : RegM () :=
  rows ← db_read (list_open_terminals_for_device device_id);
  _ ← close_rows now reason rows;
  modify request_flush.

(** [on_publisher_detached] once the grace period has passed. *)
Definition on_publisher_detached_end (now : N) (device_id : Uuid) (g : Registry) : Registry :=
  if publisher_connected device_id g || g_shutting_down g then g
  else (close_device_terminals now device_id (lit "publisher_disconnected") g).2.

Definition enforce_device_revocation (now : N) (device_id : Uuid) (g : Registry) : Registry :=
  let superseded := g_publishers g !! device_id in
  let g := put_publishers (delete device_id (g_publishers g)) g in
  let g := match superseded with Some slot => notify_supersede slot g | None => g end in
  let g := fail_open_requests_for_device device_id g in
  (close_device_terminals now device_id (lit "device_revoked") g).2.

Definition handle_evictable (h : TerminalHandle) : bool :=
  let i := h_inner h in
  i_retired i && (term_subscriber_count i =? 0) && (term_dirty_bytes i =? 0).
Definition evict_retired (g : Registry) : Registry :=
  put_terminals
    (filter (λ '(_, loc), from_option handle_evictable false (g_handles g !! loc) = false) (g_terminals g)) g.

Definition forget (terminal_id : Uuid) (g : Registry) : Registry :=
  put_terminals (delete terminal_id (g_terminals g)) g.

(** ** Checkpointing and shutdown *)

Record DirtyStats := mkDirtyStats {
  ds_total_dirty_bytes : N;
  ds_oldest_dirty : option N;
  ds_has_pending_close : bool;
  ds_lag_bytes : N;
}.

Definition is_closing (l : Lifecycle) : bool := match l with Closing _ => true | _ => false end.
Definition dirty_stats (now : N) (g : Registry) : DirtyStats :=
  let '(total, oldest, pending) :=
    foldl (λ '(total, oldest, pending) h,
      let i := h_inner h in
      (total +₆₄ term_dirty_bytes i,
       match i_dirty_since i with
       | Some since =>
           let age := now - since in
           Some (from_option (λ current, N.max current age) age oldest)
       | None => oldest
       end,
       is_closing (i_lifecycle i) || pending))
      (0, None, false) (omap (λ loc, g_handles g !! loc) (resident_handles g)) in
  mkDirtyStats total oldest pending total.

Definition set_storage_failing (failing : bool) (g : Registry) : Registry := put_storage_failing failing g.
Definition begin_shutdown (g : Registry) : Registry := put_shutting_down true g.

Definition terminate_all (t : Termination) (g : Registry) : Registry :=
  let g := foldl (λ g loc, on_handle loc (term_terminate_subscribers t) g) g (resident_handles g) in
  foldl (λ g slot, notify_supersede slot g) g (map_to_list (g_publishers g)).*2.

(** A recovered device's stand-in slot; the result is its detach task. *)
Definition recover_device (device_id : Uuid) (g : Registry) : (Uuid * N) * Registry :=
  let generation := g_next_generation g in
  let supersede := g_next_loc g in
  let slot := mkPublisherSlot generation (lit "recovered") supersede V1 None false in
  ((device_id, generation),
   put_publishers (<[device_id := slot]> (g_publishers g))
     (put_notifies (<[supersede := mkNotify false false]> (g_notifies g))
        (put_next_loc (supersede + 1) (put_next_generation (generation +₆₄ 1) g)))).

(** [recover_open_terminals]: the count and the detach tasks it spawns. The
    sort only decides the order of the devices. *)
Fixpoint recover_devices (devices : list Uuid) (g : Registry) : list (Uuid * N) * Registry :=
  match devices with
  | [] => ([], g)
  | device_id :: rest =>
      let '(task, g) := recover_device device_id g in
      let '(tasks, g) := recover_devices rest g in (task :: tasks, g)
  end.
Definition recover_open_terminals (g : Registry) : ApiResult (N * list (Uuid * N)) * Registry :=
  match db_read list_open_terminals g with
  | (Ok rows, g) =>
      let '(tasks, g) := recover_devices (elements (list_to_set (t_device_id <$> rows) : gset Uuid)) g in
      (Ok (len rows, tasks), g)
  | (Err e, g) => (Err e, g)
  end.

Definition registry_new (db : Tables) (faults : list (option ApiError)) (settings : Snapshot) : Registry :=
  mkRegistry db faults settings ∅ ∅ ∅ 1 false false false ∅ ∅ ∅ ∅ ∅ 0.

(** ** Reaching a shared handle *)

Definition handle_at (loc : N) (g : Registry) : option TerminalHandle := g_handles g !! loc.

Definition inner_at (loc : N) (g : Registry) : option TerminalInner := h_inner <$> handle_at loc g.
Definition dirty_at (loc : N) (g : Registry) : N := from_option term_dirty_bytes 0 (inner_at loc g).

(** A handle method that answers something. *)
Definition update_at (loc : N) (f : TerminalInner → bool * TerminalInner) (g : Registry) : bool * Registry :=
  match inner_at loc g with
  | Some i => let '(b, i') := f i in (b, on_handle loc (λ _, i') g)
  | None => (false, g)
  end.
