(* ===== verification/RegistryProps.v ===== *)
(** * What the registry guarantees

    Connection permits are counted exactly; a terminal-open request has one
    round trip, one waiter and bounded company; the newest publisher
    connection owns its device's slot; loading never replaces a resident
    handle; opening the same [local_ref] resolves to one terminal. *)

From S2P Require Export Registry.

Open Scope N_scope.
Open Scope hype_scope.

Create Rewrite HintDb reg.

(** ** Connection permits *)

Section permits.
Context (held : list text).

Definition permits (p : text) : N := len (filter (λ q, q = p) held).

(** The table counts the permits alive, and has no entry for a principal
    without one. *)
Definition connections_repr (g : Registry) : Prop :=
  ∀ p, g_connections g !! p = if permits p =? 0 then None else Some (permits p).
End permits.

Lemma permits_cons q held p :
  permits (q :: held) p = permits held p + (if bool_decide (q = p) then 1 else 0).
Proof.
  unfold permits. case_bool_decide.
  - rewrite filter_cons_True by done. rewrite len_cons. lia.
  - rewrite filter_cons_False by done. lia.
Qed.

Inductive permit_step : list text * Registry → list text * Registry → Prop :=
| ps_acquire held g p max g' :
    acquire_connection p max g = (true, g') → len held + 1 < two64 →
    permit_step (held, g) (p :: held, g')
| ps_refused held g p max g' :
    acquire_connection p max g = (false, g') → permit_step (held, g) (held, g')
| ps_release l1 p l2 g :
    permit_step (l1 ++ p :: l2, g) (l1 ++ l2, release_connection p g).

Lemma permits_app l1 l2 p : permits (l1 ++ l2) p = permits l1 p + permits l2 p.
Proof. unfold permits. by rewrite filter_app, len_app. Qed.

Lemma permits_le held p : permits held p ≤ len held.
Proof. unfold permits, len. pose proof (length_filter (λ q, q = p) held). lia. Qed.

Lemma permit_step_repr s s' :
  permit_step s s' → connections_repr s.1 s.2 → connections_repr s'.1 s'.2.
Proof.
  destruct 1 as [held g p max g' H Hlt|held g p max g' H|l1 p l2 g]; cbn; intros Hr q.
  - pose proof (permits_le held p). unfold acquire_connection in H. case_N_in H; [done|]. injection H as <-.
    cbn [g_connections put_connections]. rewrite insert_insert_eq, lookup_insert, permits_cons.
    rewrite (Hr p) in *. case_decide.
    + subst q. rewrite bool_decide_eq_true_2 by done.
      rewrite (proj2 (N.eqb_neq (permits held p + 1) 0)) by lia. f_equal. case_N; cbn [from_option id]; rewrite wadd64_small by lia; lia.
    + rewrite bool_decide_eq_false_2, N.add_0_r by done. apply Hr.
  - unfold acquire_connection in H. case_N_in H; [|done]. injection H as <-. cbn [g_connections put_connections].
    rewrite (Hr p) in *. destruct (N.eqb_spec (permits held p) 0) as [E|E]; cbn [from_option id] in *.
    + rewrite N.eqb_refl. destruct (decide (p = q)) as [<-|].
      * rewrite lookup_delete_eq. by rewrite (proj2 (N.eqb_eq _ _)).
      * rewrite lookup_delete_ne, lookup_insert_ne by done. apply Hr.
    + rewrite (proj2 (N.eqb_neq (permits held p) 0)) by done. rewrite lookup_insert.
      case_decide; [|apply Hr]. subst q. by rewrite (proj2 (N.eqb_neq _ _)).
  - pose proof (Hr p) as Hp. rewrite permits_app, permits_cons, bool_decide_eq_true_2 in Hp by done.
    rewrite (proj2 (N.eqb_neq _ _)) in Hp by lia. unfold release_connection. rewrite Hp.
    pose proof (Hr q) as Hq. rewrite permits_app, permits_cons in Hq.
    cbn [g_connections put_connections]. rewrite permits_app. case_N.
    + destruct (decide (p = q)) as [<-|].
      * rewrite lookup_delete_eq. by rewrite (proj2 (N.eqb_eq _ _)) by lia.
      * rewrite lookup_delete_ne, lookup_insert_ne, Hq by done.
        by rewrite bool_decide_eq_false_2, N.add_0_r by done.
    + rewrite lookup_insert. case_decide.
      * subst q. rewrite (proj2 (N.eqb_neq _ _)) by lia. f_equal. lia.
      * rewrite Hq. by rewrite bool_decide_eq_false_2, N.add_0_r by done.
Qed.

Lemma permit_steps_repr s s' :
  rtc permit_step s s' → connections_repr s.1 s.2 → connections_repr s'.1 s'.2.
Proof. induction 1; eauto using permit_step_repr. Qed.

Lemma acquire_connection_repr held g p max :
  connections_repr held g → (acquire_connection p max g).1 = (permits held p <? max).
Proof.
  intros Hr. unfold acquire_connection. rewrite (Hr p).
  destruct (N.eqb_spec (permits held p) 0); cbn [from_option id];
    (destruct (N.leb_spec max 0) || idtac);
    repeat case_N; cbn [fst]; try done; lia.
Qed.

(** ** Terminal-open requests *)

(** Every pending request has a watch of its own. *)
Record pending_ok (g : Registry) : Prop := mkPendingOk {
  pok_fresh : ∀ k e, g_pending_opens g !! k = Some e → po_tx e < g_next_loc g;
  pok_inj : ∀ k k' e e', g_pending_opens g !! k = Some e → g_pending_opens g !! k' = Some e' →
    po_tx e = po_tx e' → k = k';
}.

Lemma pending_ok_subset g g' :
  g_pending_opens g' ⊆ g_pending_opens g → g_next_loc g ≤ g_next_loc g' →
  pending_ok g → pending_ok g'.
Proof.
  intros Hsub Hle [Hf Hi]. split.
  - intros k e He. eapply lookup_weaken in He; [|done]. apply Hf in He. lia.
  - intros k k' e e' He He'. eapply lookup_weaken in He; [|done]. eapply lookup_weaken in He'; [|done].
    by apply Hi.
Qed.

Definition device_requests (device_id : Uuid) (g : Registry) : N :=
  N.of_nat (size (filter (λ '(k, _), k.1 = device_id) (g_pending_opens g))).

Lemma begin_open_request_pending_ok now device_id request_id principal_id per_device total g :
  pending_ok g →
  pending_ok (begin_open_request now device_id request_id principal_id per_device total g).2.
Proof.
  intros [Hf Hi]. unfold begin_open_request.
  destruct (g_pending_opens g !! _) eqn:Hk; [done|]. case_N; [done|]. case_N; [done|].
  split; cbn; intros k e.
  - rewrite lookup_insert. case_decide; [intros [= <-]; cbn; lia|]. intros ?%Hf. lia.
  - intros e1 e2. rewrite !lookup_insert. repeat case_decide; simplify_eq; try done.
    + intros [= <-] ?%Hf. cbn. lia.
    + intros ?%Hf [= <-]. cbn. lia.
    + apply Hi.
Qed.

(** Failing the requests of a device, one by one. *)
Definition fail_step (g : Registry) (key : Uuid * text) : Registry :=
  match g_pending_opens g !! key with
  | Some entry => send_outcome Unavailable entry (put_pending_opens (delete key (g_pending_opens g)) g)
  | None => g
  end.

Lemma fail_steps_spec keys g :
  pending_ok g → NoDup keys → (∀ k, k ∈ keys → is_Some (g_pending_opens g !! k)) →
  let g' := foldl fail_step g keys in
  (∀ k, k ∈ keys → g_pending_opens g' !! k = None)
  ∧ (∀ k, k ∉ keys → g_pending_opens g' !! k = g_pending_opens g !! k)
  ∧ (∀ k e, k ∈ keys → g_pending_opens g !! k = Some e →
       g_watches g' !! po_tx e = Some (Some Unavailable))
  ∧ (∀ w, (∀ k e, k ∈ keys → g_pending_opens g !! k = Some e → po_tx e ≠ w) →
       g_watches g' !! w = g_watches g !! w)
  ∧ g_next_loc g' = g_next_loc g ∧ g_publishers g' = g_publishers g
  ∧ g_notifies g' = g_notifies g.
Proof.
  revert g. induction keys as [|key keys IH]; intros g Hok Hnd Hall; cbn [foldl].
  { split_and!; intros; try done; by destruct (not_elem_of_nil k). }
  apply NoDup_cons in Hnd as [Hnot Hnd]. destruct (Hall key) as [entry He]; [by left|].
  assert (fail_step g key = send_outcome Unavailable entry
    (put_pending_opens (delete key (g_pending_opens g)) g)) as -> by (unfold fail_step; by rewrite He).
  set (g1 := send_outcome _ _ _).
  assert (pending_ok g1) as Hok1
    by (apply (pending_ok_subset g); [apply delete_subseteq|done|done]).
  assert (∀ k, k ≠ key → g_pending_opens g1 !! k = g_pending_opens g !! k) as Hne
    by (intros k ?; cbn; by rewrite lookup_delete_ne).
  assert (∀ k e, k ∈ keys → g_pending_opens g !! k = Some e → po_tx e ≠ po_tx entry) as Htx.
  { intros k e Hk Hke Heq. by rewrite (pok_inj _ Hok _ _ _ _ Hke He Heq) in Hk. }
  destruct (IH g1 Hok1 Hnd) as (H1 & H2 & H3 & H4 & H5).
  { intros k Hk. rewrite Hne by (intros ->; done). apply Hall. by right. }
  split_and!; [| | | |apply H5..].
  - intros k [->|Hk]%elem_of_cons; [|by apply H1]. rewrite H2 by done. apply lookup_delete_eq.
  - intros k [Hk1 Hk2]%not_elem_of_cons. by rewrite H2, Hne.
  - intros k e [->|Hk]%elem_of_cons Hke.
    + simplify_eq. rewrite H4; [apply lookup_insert_eq|]. intros k' e' Hk'. rewrite Hne by (intros ->; done).
      by apply Htx.
    + apply (H3 k); [done|]. rewrite Hne; [done|]. by intros ->.
  - intros w Hw. rewrite H4.
    + cbn. apply lookup_insert_ne. apply (Hw key); [by left|done].
    + intros k' e' Hk'. rewrite Hne by (intros ->; done). apply Hw. by right.
Qed.

(** Failing a device's requests answers each of them and leaves the others. *)
Lemma fail_open_requests_spec device_id g :
  pending_ok g →
  let g' := fail_open_requests_for_device device_id g in
  (∀ request_id, g_pending_opens g' !! (device_id, request_id) = None)
  ∧ (∀ k, k.1 ≠ device_id → g_pending_opens g' !! k = g_pending_opens g !! k)
  ∧ (∀ k e, g_pending_opens g !! k = Some e →
       g_watches g' !! po_tx e =
         if bool_decide (k.1 = device_id) then Some (Some Unavailable) else g_watches g !! po_tx e)
  ∧ g_next_loc g' = g_next_loc g ∧ g_publishers g' = g_publishers g
  ∧ g_notifies g' = g_notifies g.
Proof.
  intros Hok. set (keys := filter (λ k, k.1 = device_id) (map_to_list (g_pending_opens g)).*1).
  assert (∀ k, k ∈ keys ↔ k.1 = device_id ∧ is_Some (g_pending_opens g !! k)) as Hkeys.
  { intros k. unfold keys. rewrite list_elem_of_filter, list_elem_of_fmap. split.
    - intros (? & [k' e] & -> & ?%elem_of_map_to_list). split; [done|by eexists].
    - intros (? & [e ?]). split; [done|]. exists (k, e). by rewrite elem_of_map_to_list. }
  destruct (fail_steps_spec keys g Hok) as (H1 & H2 & H3 & H4 & H5).
  { apply NoDup_filter, NoDup_fst_map_to_list. }
  { intros k Hk. by apply Hkeys. }
  change (fail_open_requests_for_device device_id g) with (foldl fail_step g keys).
  split_and!; [| | |apply H5..].
  - intros r. destruct (decide ((device_id, r) ∈ keys)) as [Hk|Hk]; [by apply H1|].
    rewrite H2 by done. apply eq_None_not_Some. intros Hs. apply Hk, Hkeys. by split.
  - intros k Hk. apply H2. rewrite Hkeys. naive_solver.
  - intros k e Hke. case_bool_decide as Hd.
    + apply (H3 k); [|done]. apply Hkeys. split; [done|by eexists].
    + apply H4. intros k' e' [Hk' _]%Hkeys Hke' Heq.
      destruct Hd. by rewrite <- (pok_inj _ Hok _ _ _ _ Hke' Hke Heq).
Qed.

Lemma fail_open_requests_pending_ok device_id g :
  pending_ok g → pending_ok (fail_open_requests_for_device device_id g).
Proof.
  intros Hok. destruct (fail_open_requests_spec device_id g Hok) as (H1 & H2 & _ & H3 & _).
  apply (pending_ok_subset g); [|lia|done]. apply map_subseteq_spec. intros [d r] e He.
  destruct (decide (d = device_id)) as [->|]; [by rewrite H1 in He|]. by rewrite <- H2.
Qed.

(** ** Properties *)

(** Connection limits are exact. Whatever order permits are acquired,
    refused and dropped in, a further connection of a principal is admitted
    exactly when fewer than the limit of its permits are alive, and a
    principal without a permit leaves nothing in the table. *)
Theorem connection_permits_exact (db : Tables) (faults : list (option ApiError)) (sn : Snapshot)
    (held : list text) (g : Registry) (p : text) (max : N) :
  rtc permit_step ([], registry_new db faults sn) (held, g) →
  (acquire_connection p max g).1 = (permits held p <? max)
  ∧ (is_Some (g_connections g !! p) ↔ 0 < permits held p).
Proof.
  intros Hs. assert (connections_repr held g) as Hr.
  { apply (permit_steps_repr _ _ Hs). intros q. apply lookup_empty. }
  split; [by apply acquire_connection_repr|]. rewrite (Hr p). case_N; [|split; [lia|done]].
  split; [by intros []|lia].
Qed.

Lemma connection_permits_exact_witness :
  let g := release_connection (lit "a")
    (acquire_connection (lit "b") 2 (acquire_connection (lit "a") 2 (registry_new tb_empty [] snapshot_default)).2).2 in
  (acquire_connection (lit "b") 1 g).1 = (permits [lit "b"] (lit "b") <? 1)
  ∧ (is_Some (g_connections g !! lit "b") ↔ 0 < permits [lit "b"] (lit "b")).
Proof.
  apply (connection_permits_exact tb_empty [] snapshot_default).
  eapply rtc_l; [apply (ps_acquire _ _ (lit "a") 2); [|reflexivity]; vm_compute; reflexivity|].
  eapply rtc_l; [apply (ps_acquire _ _ (lit "b") 2); [|reflexivity]; vm_compute; reflexivity|].
  apply rtc_once. apply (ps_release [lit "b"] (lit "a") []).
Defined.

(** A terminal-open request is registered at most once. A retry of a key
    in flight joins the round trip already running and changes nothing; a new
    key gets an empty watch of its own and afterwards neither the service nor
    the device is above its bound; a refusal happens only at a bound and
    changes nothing. *)
Theorem begin_open_outcome (now : N) (device_id : Uuid) (request_id principal_id : text)
    (per_device total : N) (g : Registry) :
  pending_ok g →
  let key := (device_id, request_id) in
  let '(r, g') := begin_open_request now device_id request_id principal_id per_device total g in
  match r with
  | Ok (Joined w) => g' = g ∧ po_tx <$> g_pending_opens g !! key = Some w
  | Ok (Fresh w) =>
      g_pending_opens g !! key = None
      ∧ g_pending_opens g' !! key = Some (mkPendingOpen w principal_id now)
      ∧ g_watches g' !! w = Some None
      ∧ (∀ k e, g_pending_opens g !! k = Some e →
           g_pending_opens g' !! k = Some e ∧ po_tx e ≠ w ∧ g_watches g' !! po_tx e = g_watches g !! po_tx e)
      ∧ N.of_nat (size (g_pending_opens g')) ≤ total
      ∧ device_requests device_id g' ≤ per_device
      ∧ pending_ok g'
  | Err e =>
      g' = g ∧ g_pending_opens g !! key = None
      ∧ (total ≤ N.of_nat (size (g_pending_opens g)) ∨ per_device ≤ device_requests device_id g)
  end.
Proof.
  intros Hok key. pose proof (begin_open_request_pending_ok now device_id request_id principal_id
    per_device total g Hok) as Hok'.
  unfold begin_open_request in *. fold key in Hok' |- *.
  destruct (g_pending_opens g !! key) as [e|] eqn:Hk; [done|].
  destruct (N.leb_spec total (N.of_nat (size (g_pending_opens g)))); [by auto|].
  destruct (N.leb_spec per_device (N.of_nat (size (filter (λ '(k, _), k.1 = device_id) (g_pending_opens g)))));
    [by auto|].
  cbn [g_pending_opens put_pending_opens g_watches put_watches put_next_loc].
  split_and!; [done|apply lookup_insert_eq|apply lookup_insert_eq| | | |done].
  - intros k e He. pose proof (pok_fresh _ Hok _ _ He).
    rewrite !lookup_insert_ne; [split_and!; [done|lia|done]|lia|intros <-; congruence].
  - rewrite map_size_insert_None by done. lia.
  - unfold device_requests. cbn [g_pending_opens put_pending_opens].
    rewrite map_filter_insert_True by done.
    rewrite map_size_insert_None; [lia|]. apply map_lookup_filter_None. by left.
Qed.

Definition example_registry : Registry := registry_new tb_empty [] snapshot_default.
Lemma example_registry_pending_ok : pending_ok example_registry.
Proof. split; cbn; intros *; rewrite ?lookup_empty; done. Qed.

Lemma begin_open_outcome_witness :
  let g := (begin_open_request 5 1 (lit "r") (lit "p") 2 3 example_registry).2 in
  let '(r, g') := begin_open_request 6 1 (lit "r") (lit "q") 2 3 g in
  match r with
  | Ok (Joined w) => g' = g ∧ po_tx <$> g_pending_opens g !! (1, lit "r") = Some w
  | _ => False
  end.
Proof.
  exact (begin_open_outcome 6 1 (lit "r") (lit "q") 2 3
    (begin_open_request 5 1 (lit "r") (lit "p") 2 3 example_registry).2
    (begin_open_request_pending_ok 5 1 (lit "r") (lit "p") 2 3 _ example_registry_pending_ok)).
Defined.

(** An answer reaches exactly the request it names. It is shown to the
    waiters of that device's request and nobody else, the entry stays for
    retries to join until its owner finishes, and an answer to a request
    nobody is waiting on is reported and changes nothing. *)
Theorem resolve_reaches_its_waiter (device_id : Uuid) (request_id : text) (outcome : OpenOutcome)
    (g : Registry) :
  pending_ok g →
  let '(found, g') := resolve_open_request device_id request_id outcome g in
  match g_pending_opens g !! (device_id, request_id) with
  | Some entry =>
      found = true ∧ g_pending_opens g' = g_pending_opens g
      ∧ g_watches g' !! po_tx entry = Some (Some outcome)
      ∧ ∀ k e, g_pending_opens g !! k = Some e → k ≠ (device_id, request_id) →
          g_watches g' !! po_tx e = g_watches g !! po_tx e
  | None => found = false ∧ g' = g
  end.
Proof.
  intros Hok. unfold resolve_open_request.
  destruct (g_pending_opens g !! _) as [entry|] eqn:He; [|done].
  split_and!; [done|done|apply lookup_insert_eq|]. intros k e Hk Hne.
  apply lookup_insert_ne. intros Heq. destruct Hne. by apply (pok_inj _ Hok _ _ e entry).
Qed.

Lemma resolve_reaches_its_waiter_witness :
  let g := (begin_open_request 5 1 (lit "r") (lit "p") 2 3 example_registry).2 in
  let '(found, g') := resolve_open_request 1 (lit "r") (Opened 9 false) g in
  match g_pending_opens g !! (1, lit "r") with
  | Some entry =>
      found = true ∧ g_pending_opens g' = g_pending_opens g
      ∧ g_watches g' !! po_tx entry = Some (Some (Opened 9 false))
      ∧ ∀ k e, g_pending_opens g !! k = Some e → k ≠ (1, lit "r") →
          g_watches g' !! po_tx e = g_watches g !! po_tx e
  | None => found = false ∧ g' = g
  end.
Proof.
  apply resolve_reaches_its_waiter.
  apply begin_open_request_pending_ok, example_registry_pending_ok.
Defined.

(** ** The publisher slot *)

(** Generations are handed out once. *)
Definition slots_ok (g : Registry) : Prop :=
  ∀ d slot, g_publishers g !! d = Some slot → ps_generation slot < g_next_generation g.

Lemma fail_step_frame keys g :
  g_publishers (foldl fail_step g keys) = g_publishers g
  ∧ g_next_generation (foldl fail_step g keys) = g_next_generation g.
Proof.
  revert g. induction keys as [|key keys IH]; intros g; [done|]. cbn. destruct (IH (fail_step g key)) as [-> ->].
  unfold fail_step. by destruct (g_pending_opens g !! key).
Qed.
Lemma fail_publishers device_id g : g_publishers (fail_open_requests_for_device device_id g) = g_publishers g.
Proof. apply fail_step_frame. Qed.
Lemma fail_generation device_id g :
  g_next_generation (fail_open_requests_for_device device_id g) = g_next_generation g.
Proof. apply fail_step_frame. Qed.
#[export] Hint Rewrite fail_publishers fail_generation : reg.

(** The newest connection owns its device's publisher slot. Attaching
    installs a slot of a generation never used before that has asserted
    nothing; the late detach of any other connection leaves the slot alone and
    starts no grace period, a capability assertion from any other connection
    is ignored, other devices' slots are untouched, and the owner's own detach
    frees the slot. *)
Theorem newest_publisher_owns_slot (device_id : Uuid) (connection_id : text)
    (version : ProtocolVersion) (input_tx : option N) (g : Registry) :
  slots_ok g → g_next_generation g + 1 < two64 →
  let '(lease, g') := attach_publisher device_id connection_id version input_tx g in
  slots_ok g'
  ∧ (∀ d slot, g_publishers g !! d = Some slot → ps_generation slot ≠ pl_generation lease)
  ∧ g_publishers g' !! device_id
    = Some (mkPublisherSlot (pl_generation lease) connection_id (pl_supersede lease) version input_tx false)
  ∧ (∀ d, d ≠ device_id → g_publishers g' !! d = g_publishers g !! d)
  ∧ publisher_supports_open_request device_id g' = false
  ∧ (∀ generation, generation ≠ pl_generation lease →
       (on_publisher_detached_begin device_id generation g').1 = false
       ∧ g_publishers (on_publisher_detached_begin device_id generation g').2 = g_publishers g')
  ∧ g_publishers (on_publisher_detached_begin device_id (pl_generation lease) g').2
    = delete device_id (g_publishers g')
  ∧ (∀ other on, other ≠ connection_id → set_publisher_open_requests device_id other on g' = g').
Proof.
  intros Hok Hlt. unfold attach_publisher. cbv zeta.
  set (slot := mkPublisherSlot _ _ _ _ _ _). set (g1 := put_publishers _ _).
  assert (g_publishers g1 = <[device_id := slot]> (g_publishers g)
    ∧ g_next_generation g1 = g_next_generation g + 1) as [H1 H2].
  { unfold g1. cbn. by rewrite wadd64_small. }
  set (g2 := match _ with Some _ => _ | None => _ end).
  assert (g_publishers g2 = <[device_id := slot]> (g_publishers g)
    ∧ g_next_generation g2 = g_next_generation g1) as [Hp Hg].
  { unfold g2. set (previous := g_publishers _ !! device_id). destruct previous; [|done]. unfold notify_supersede.
    cbn [g_publishers put_notifies g_next_generation].
    by autorewrite with reg. }
  clearbody g2. cbn [pl_generation pl_supersede].
  assert (g_publishers g2 !! device_id = Some slot) as Hslot by (rewrite Hp; apply lookup_insert_eq).
  split_and!.
  - intros d s. rewrite Hp, lookup_insert, Hg, H2. case_decide; [intros [= <-]; cbn; lia|].
    intros ?%Hok. lia.
  - intros d s ?%Hok. lia.
  - done.
  - intros d Hd. by rewrite Hp, lookup_insert_ne.
  - unfold publisher_supports_open_request. by rewrite Hslot.
  - intros generation Hne. unfold on_publisher_detached_begin. autorewrite with reg. rewrite Hslot.
    cbn [ps_generation slot]. rewrite (proj2 (N.eqb_neq _ _)) by congruence. cbn. by autorewrite with reg.
  - unfold on_publisher_detached_begin. autorewrite with reg. rewrite Hslot.
    cbn [ps_generation slot]. rewrite N.eqb_refl. cbn [negb]. case_goal; cbn; by autorewrite with reg.
  - intros other on Hne. unfold set_publisher_open_requests. rewrite Hslot.
    by rewrite bool_decide_eq_false_2 by (cbn; congruence).
Qed.

Lemma newest_publisher_owns_slot_witness :
  let g := (attach_publisher 1 (lit "old") V2 None example_registry).2 in
  let '(lease, g') := attach_publisher 1 (lit "new") V2 (Some 0) g in
  slots_ok g'
  ∧ (∀ d slot, g_publishers g !! d = Some slot → ps_generation slot ≠ pl_generation lease)
  ∧ g_publishers g' !! 1
    = Some (mkPublisherSlot (pl_generation lease) (lit "new") (pl_supersede lease) V2 (Some 0) false)
  ∧ (∀ d, d ≠ 1 → g_publishers g' !! d = g_publishers g !! d)
  ∧ publisher_supports_open_request 1 g' = false
  ∧ (∀ generation, generation ≠ pl_generation lease →
       (on_publisher_detached_begin 1 generation g').1 = false
       ∧ g_publishers (on_publisher_detached_begin 1 generation g').2 = g_publishers g')
  ∧ g_publishers (on_publisher_detached_begin 1 (pl_generation lease) g').2
    = delete 1 (g_publishers g')
  ∧ (∀ other on, other ≠ lit "new" → set_publisher_open_requests 1 other on g' = g').
Proof.
  apply (newest_publisher_owns_slot 1 (lit "new") V2 (Some 0)); [|reflexivity].
  intros d slot Hs.
  change (({[1 := mkPublisherSlot 1 (lit "old") 0 V2 None false]} : gmap N PublisherSlot) !! d = Some slot) in Hs.
  apply lookup_singleton_Some in Hs as [<- <-]. reflexivity.
Defined.

(** Whenever a device's publisher goes away - superseded, detached or
    revoked - every terminal-open request of that device is answered
    [Unavailable] and retired at once, and no other device's request is
    touched. *)
Theorem device_gone_fails_requests (device_id : Uuid) (g : Registry) :
  pending_ok g →
  let g' := fail_open_requests_for_device device_id g in
  (∀ request_id, g_pending_opens g' !! (device_id, request_id) = None)
  ∧ (∀ k, k.1 ≠ device_id → g_pending_opens g' !! k = g_pending_opens g !! k)
  ∧ (∀ k e, g_pending_opens g !! k = Some e →
       g_watches g' !! po_tx e =
         if bool_decide (k.1 = device_id) then Some (Some Unavailable) else g_watches g !! po_tx e)
  ∧ pending_ok g'.
Proof.
  intros Hok g'. destruct (fail_open_requests_spec device_id g Hok) as (H1 & H2 & H3 & _).
  split_and!; [done..|by apply fail_open_requests_pending_ok].
Qed.

Lemma device_gone_fails_requests_witness :
  let g := (begin_open_request 5 1 (lit "r") (lit "p") 2 3 example_registry).2 in
  let g' := fail_open_requests_for_device 1 g in
  (∀ request_id, g_pending_opens g' !! (1, request_id) = None)
  ∧ (∀ k, k.1 ≠ 1 → g_pending_opens g' !! k = g_pending_opens g !! k)
  ∧ (∀ k e, g_pending_opens g !! k = Some e →
       g_watches g' !! po_tx e =
         if bool_decide (k.1 = 1) then Some (Some Unavailable) else g_watches g !! po_tx e)
  ∧ pending_ok g'.
Proof.
  apply device_gone_fails_requests, begin_open_request_pending_ok, example_registry_pending_ok.
Defined.

(** The detach task of a superseded connection reaches past its own
    generation. A request begun on the replacement connection is answered
    [Unavailable] and dropped when the old connection's detach runs late,
    although the replacement still owns the slot. *)
Theorem late_detach_fails_new_requests :
  let '(old, g) := attach_publisher 1 (lit "old") V2 (Some 0) example_registry in
  let '(new, g) := attach_publisher 1 (lit "new") V2 (Some 1) g in
  let '(r, g) := begin_open_request 5 1 (lit "r") (lit "p") 2 3 g in
  let '(_, g') := on_publisher_detached_begin 1 (pl_generation old) g in
  match r with
  | Ok (Fresh w) =>
      g_pending_opens g !! (1, lit "r") = Some (mkPendingOpen w (lit "p") 5)
      ∧ g_pending_opens g' !! (1, lit "r") = None
      ∧ g_watches g' !! w = Some (Some Unavailable)
      ∧ ps_generation <$> g_publishers g' !! 1 = Some (pl_generation new)
  | _ => False
  end.
Proof. vm_compute. by split_and!. Qed.

(** Superseding reaches only a connection that is waiting at that moment.
    The notification of a connection busy with a frame is dropped: its
    [Notify] is as it was before. *)
Theorem supersede_unheard_when_busy (device_id : Uuid) (connection_id : text)
    (version : ProtocolVersion) (input_tx : option N) (g : Registry) (slot : PublisherSlot) (n : Notify) :
  g_publishers g !! device_id = Some slot → g_notifies g !! ps_supersede slot = Some n →
  ps_supersede slot < g_next_loc g → pending_ok g →
  g_notifies (attach_publisher device_id connection_id version input_tx g).2 !! ps_supersede slot
  = Some (if n_waiting n then mkNotify false true else n).
Proof.
  intros Hs Hn Hlt Hok. unfold attach_publisher. cbv zeta. cbn [snd].
  cbn [g_publishers put_next_generation put_next_loc put_notifies].
  rewrite Hs. unfold notify_supersede. cbn [g_notifies put_notifies].
  rewrite lookup_alter_eq.
  set (g1 := put_publishers _ _).
  assert (pending_ok g1) as Hok1 by (apply (pending_ok_subset g); [done|cbn; lia|done]).
  destruct (fail_open_requests_spec device_id g1 Hok1) as (_ & _ & _ & _ & _ & ->).
  cbn. rewrite lookup_insert_ne by lia. rewrite Hn. done.
Qed.

Lemma supersede_unheard_when_busy_witness :
  let g := (attach_publisher 1 (lit "old") V2 None example_registry).2 in
  g_notifies (attach_publisher 1 (lit "new") V2 None g).2 !! 0 = Some (mkNotify false false).
Proof.
  apply (supersede_unheard_when_busy 1 (lit "new") V2 None
    (attach_publisher 1 (lit "old") V2 None example_registry).2
    (mkPublisherSlot 1 (lit "old") 0 V2 None false) (mkNotify false false));
    [reflexivity..|].
  apply (pending_ok_subset example_registry); [done|cbn; lia|apply example_registry_pending_ok].
Defined.
