(* ===== verification/RegistryTerminals.v ===== *)
(** * The resident set: loading, opening and delivering

    [handles_ok] says that the resident table points at handles of the right
    terminals. [load_step] interleaves any number of [insert_or_load_handle]
    calls, split at its awaits, with anything else the service does to the
    registry; the load lock keeps every terminal at one handle. *)

From S2P Require Export RegistryProps.

Open Scope N_scope.
Open Scope hype_scope.

Record handles_ok (g : Registry) : Prop := mkHandlesOk {
  hok_resident : ∀ id loc, g_terminals g !! id = Some loc →
    ∃ h, g_handles g !! loc = Some h ∧ h_terminal_id h = id;
  hok_fresh : ∀ loc h, g_handles g !! loc = Some h → loc < g_next_loc g;
}.

(** A [db_call] changes the tables and the fault schedule only. *)
Lemma db_call_inv {A} (f : Tables → ApiResult (A * Tables)) g r g' :
  db_call f g = (r, g') →
  ∃ tb fs, g' = put_db tb (put_faults fs g)
    ∧ match r with Ok a => f (g_db g) = Ok (a, tb) | Err _ => tb = g_db g end.
Proof.
  unfold db_call. destruct (mjoin _) as [e|]; [intros [= <- <-]; exists (g_db g); by eexists|].
  destruct (f (g_db g)) as [[a tb]|e]; intros [= <- <-]; [by do 2 eexists|].
  exists (g_db g). by eexists.
Qed.

(** What stays when the registry only gains handles. *)
Record grows (g g' : Registry) : Prop := mkGrows {
  gr_terminals : g_terminals g ⊆ g_terminals g';
  gr_handles : g_handles g ⊆ g_handles g';
  gr_ok : handles_ok g';
}.

Lemma grows_refl g : handles_ok g → grows g g.
Proof. by split. Qed.
Lemma grows_trans g1 g2 g3 : grows g1 g2 → grows g2 g3 → grows g1 g3.
Proof. intros [? ? _] [? ? ?]. split; [by etrans|by etrans|done]. Qed.

Lemma db_call_grows {A} (f : Tables → ApiResult (A * Tables)) g r g' :
  handles_ok g → db_call f g = (r, g') → grows g g'.
Proof. intros [H1 H2] (tb & fs & -> & _)%db_call_inv. by split. Qed.

Lemma install_grows h g loc g' :
  handles_ok g → g_terminals g !! h_terminal_id h = None → install_handle h g = (loc, g') →
  grows g g' ∧ g_terminals g' !! h_terminal_id h = Some loc ∧ g_handles g' !! loc = Some h.
Proof.
  intros [Hr Hf] Hnone [= <- <-]. cbn.
  assert (g_handles g !! g_next_loc g = None) as Hfresh.
  { apply eq_None_not_Some. intros [h' Hh']. apply Hf in Hh'. lia. }
  split; [|by rewrite !lookup_insert_eq]. split; [by apply insert_subseteq..|]. split; cbn.
  - intros id loc. rewrite lookup_insert. case_decide as Hid.
    + intros [= <-]. exists h. by rewrite lookup_insert_eq.
    + intros (h' & Hh' & ?)%Hr. exists h'. split; [|done]. rewrite lookup_insert_ne; [done|].
      intros <-. congruence.
  - intros loc h'. rewrite lookup_insert. case_decide; [lia|]. intros ?%Hf. lia.
Qed.

(** [insert_or_load_handle]: the handle it answers is resident, residents stay
    what they were, and a handle it had to build holds the stored output. *)
Lemma insert_or_load_spec row capacity g r g' :
  handles_ok g → insert_or_load_handle row capacity g = (r, g') →
  grows g g' ∧ g_db g' = g_db g
  ∧ match r with
    | Ok loc =>
        g_terminals g' !! t_terminal_id row = Some loc
        ∧ (g_terminals g !! t_terminal_id row = None →
           ∃ bytes, load_terminal_output (t_terminal_id row) (t_earliest_offset row) (g_db g) = Ok bytes
             ∧ g_handles g' !! loc = Some (term_from_row row capacity bytes))
    | Err _ => g_terminals g' = g_terminals g
    end.
Proof.
  intros Hok. unfold insert_or_load_handle. autorewrite with regm. unfold resident.
  destruct (g_terminals g !! t_terminal_id row) as [loc|] eqn:Hres.
  { intros [= <- <-]. rewrite Hres. split_and!; [by apply grows_refl|done|done|done]. }
  autorewrite with regm. rewrite Hres, reg_bind. unfold load_output.
  destruct (db_call _ g) as [[bytes|e] g1] eqn:Hdb.
  - pose proof (db_call_grows _ _ _ _ Hok Hdb) as Hg1.
    apply db_call_inv in Hdb as (tb & fs & -> & Hload).
    destruct (load_terminal_output _ _ (g_db g)) as [bytes'|] eqn:Hl; [|done]. cbn in Hload.
    injection Hload as -> <-. unfold install. set (g1 := put_db _ _) in *.
    destruct (install_handle _ g1) as [loc g2] eqn:Hins.
    assert (h_terminal_id (term_from_row row capacity bytes) = t_terminal_id row) as Hid by done.
    destruct (install_grows (term_from_row row capacity bytes) g1 loc g2) as (Hg2 & Ht & Hh);
      [apply Hg1|done|done|].
    intros [= <- <-]. split_and!; [by eapply grows_trans| |done|].
    + unfold install_handle in Hins. injection Hins as _ <-. done.
    + intros _. exists bytes. done.
  - pose proof (db_call_grows _ _ _ _ Hok Hdb) as Hg1.
    apply db_call_inv in Hdb as (tb & fs & -> & ->). intros [= <- <-]. done.
Qed.

Lemma get_or_load_spec id g r g' :
  handles_ok g → get_or_load id g = (r, g') →
  grows g g' ∧ g_db g' = g_db g
  ∧ match r with
    | Ok (Some loc) =>
        g_terminals g' !! id = Some loc
        ∧ (g_terminals g !! id = None →
           ∃ row bytes, get_terminal id (g_db g) = Some row
             ∧ load_terminal_output id (t_earliest_offset row) (g_db g) = Ok bytes
             ∧ g_handles g' !! loc = Some (term_from_row row (replay_capacity (g_settings g)) bytes))
    | Ok None => g_terminals g !! id = None ∧ get_terminal id (g_db g) = None
    | Err _ => g_terminals g' = g_terminals g
    end.
Proof.
  intros Hok. unfold get_or_load. autorewrite with regm. unfold resident.
  destruct (g_terminals g !! id) as [loc|] eqn:Hres.
  { intros [= <- <-]. split_and!; [by apply grows_refl|done|done|done]. }
  autorewrite with regm. rewrite reg_bind. unfold db_read. destruct (db_call _ g) as [[row|e] g1] eqn:Hdb.
  - pose proof (db_call_grows _ _ _ _ Hok Hdb) as Hg1.
    apply db_call_inv in Hdb as (tb & fs & -> & Hrow). injection Hrow as Hrow <-.
    destruct row as [row|].
    + set (g1 := put_db _ _) in *. rewrite reg_bind.
      destruct (insert_or_load_handle row _ g1) as [r2 g2] eqn:Hload.
      destruct (insert_or_load_spec _ _ _ _ _ (gr_ok _ _ Hg1) Hload) as (Hg2 & Hdb2 & Hr2).
      assert (t_terminal_id row = id) as Hid.
      { unfold get_terminal in Hrow. destruct (tb_terminals (g_db g) !! id); [|done].
        by injection Hrow as <-. }
      rewrite Hid in Hr2.
      assert (grows g g2) as Hg by by eapply grows_trans.
      destruct r2 as [loc|e]; intros [= <- <-]; (split_and!; [done|done|..]); [apply Hr2| |apply Hr2].
      intros _. destruct Hr2 as (_ & Hbuilt). destruct (Hbuilt Hres) as (bytes & ? & ?). by exists row, bytes.
    + intros [= <- <-]. split_and!; done.
  - pose proof (db_call_grows _ _ _ _ Hok Hdb) as Hg1.
    apply db_call_inv in Hdb as (tb & fs & -> & ->). intros [= <- <-]. done.
Qed.

(** A stored terminal's columns agree with what its output rows hold. *)
Definition stored_repr (log : list byte) (earliest durable : N) (id : Uuid) (tb : Tables) : Prop :=
  output_repr log earliest durable (output_of tb id)
  ∧ ∃ c, tb_terminals tb !! id = Some c
      ∧ c_earliest_offset c = Z.of_N earliest ∧ c_durable_offset c = Z.of_N durable.

Lemma sliceN_dropN_takeN {A} (a b : N) (l : list A) : sliceN a b l = dropN a (takeN b l).
Proof. by rewrite dropN_takeN. Qed.

(** A handle built from a stored terminal is the terminal at its last commit. *)
Lemma stored_handle_repr log e d id tb row bytes capacity :
  stored_repr log e d id tb → get_terminal id tb = Some row →
  load_terminal_output id (t_earliest_offset row) tb = Ok bytes →
  let i := h_inner (term_from_row row capacity bytes) in
  term_repr (takeN d log) i ∧ i_next_offset i = d ∧ i_durable_offset i = d
  ∧ r_earliest (i_ring i) = window_start e (N.max capacity 1) (takeN d log).
Proof.
  intros (Ho & c & Hc & He & Hd) Hrow Hload. unfold get_terminal in Hrow. rewrite Hc in Hrow.
  injection Hrow as <-. pose proof Ho as (Hcov & Hdl & Hl). pose proof (covers_le _ _ _ _ Hcov).
  assert (t_earliest_offset (row_from_rec id c) = e) as He' by (cbn; rewrite He; unfold of_i64; lia).
  assert (t_durable_offset (row_from_rec id c) = d) as Hd' by (cbn; rewrite Hd; unfold of_i64; lia).
  rewrite He', (load_terminal_output_repr log e d) in Hload by done. injection Hload as <-.
  assert (len (takeN d log) = d) as Hlen by len_lia.
  rewrite sliceN_dropN_takeN, <- He'.
  destruct (term_from_row_repr (row_from_rec id c) capacity (takeN d log)) as (Hr & Hs & Hdur); [lia|lia|lia|].
  rewrite He' in Hs. cbv zeta in *. rewrite He' in *. split_and!; [done| |lia|done].
  destruct Hr as (_ & -> & _). lia.
Qed.

(** ** Loads side by side *)

Inductive LoadPc :=
| LpStart
| LpWait
| LpLocked
| LpChecked
| LpLoaded (retained : list byte)
| LpDone (loc : N)
| LpFailed.

(** One [insert_or_load_handle] call: its argument and where it stands. *)
Record LoadTask := mkLoadTask {
  lt_row : TerminalRow;
  lt_capacity : N;
  lt_pc : LoadPc;
}.

Record LoadSys := mkLoadSys {
  ls_reg : Registry;
  ls_lock : option nat;
  ls_tasks : gmap nat LoadTask;
  (** Terminals that left the resident set at some point. *)
  ls_left : gset Uuid;
}.

Definition lt_id (t : LoadTask) : Uuid := t_terminal_id (lt_row t).
Definition lt_to (t : LoadTask) (pc : LoadPc) : LoadTask := mkLoadTask (lt_row t) (lt_capacity t) pc.

Inductive load_step : LoadSys → LoadSys → Prop :=
(** A new call. *)
| ld_spawn g lock tasks gone tid row capacity :
    tasks !! tid = None →
    load_step (mkLoadSys g lock tasks gone)
      (mkLoadSys g lock (<[tid := mkLoadTask row capacity LpStart]> tasks) gone)
(** The first test, and the wait for the lock when it fails. *)
| ld_start g lock tasks gone tid t :
    tasks !! tid = Some t → lt_pc t = LpStart →
    load_step (mkLoadSys g lock tasks gone)
      (mkLoadSys g lock
         (<[tid := lt_to t (match resident (lt_id t) g with Some loc => LpDone loc | None => LpWait end)]>
            tasks) gone)
| ld_acquire g tasks gone tid t :
    tasks !! tid = Some t → lt_pc t = LpWait →
    load_step (mkLoadSys g None tasks gone) (mkLoadSys g (Some tid) (<[tid := lt_to t LpLocked]> tasks) gone)
(** The second test, under the lock; returning drops the guard. *)
| ld_recheck g lock tasks gone tid t :
    tasks !! tid = Some t → lt_pc t = LpLocked →
    load_step (mkLoadSys g lock tasks gone)
      (match resident (lt_id t) g with
       | Some loc => mkLoadSys g None (<[tid := lt_to t (LpDone loc)]> tasks) gone
       | None => mkLoadSys g lock (<[tid := lt_to t LpChecked]> tasks) gone
       end)
| ld_load g lock tasks gone tid t r g' :
    tasks !! tid = Some t → lt_pc t = LpChecked →
    load_output (lt_id t) (t_earliest_offset (lt_row t)) g = (r, g') →
    load_step (mkLoadSys g lock tasks gone)
      (match r with
       | Ok retained => mkLoadSys g' lock (<[tid := lt_to t (LpLoaded retained)]> tasks) gone
       | Err _ => mkLoadSys g' None (<[tid := lt_to t LpFailed]> tasks) gone
       end)
| ld_install g lock tasks gone tid t retained loc g' :
    tasks !! tid = Some t → lt_pc t = LpLoaded retained →
    install_handle (term_from_row (lt_row t) (lt_capacity t) retained) g = (loc, g') →
    load_step (mkLoadSys g lock tasks gone) (mkLoadSys g' None (<[tid := lt_to t (LpDone loc)]> tasks) gone)
(** Anything else: it never adds to the resident set, and may remove. *)
| ld_other g g' lock tasks gone gone' :
    g_terminals g' ⊆ g_terminals g →
    (∀ id, is_Some (g_terminals g !! id) → g_terminals g' !! id = None → id ∈ gone') → gone ⊆ gone' →
    load_step (mkLoadSys g lock tasks gone) (mkLoadSys g' lock tasks gone').

Definition holds_lock (pc : LoadPc) : bool :=
  match pc with LpLocked | LpChecked | LpLoaded _ => true | _ => false end.
Definition past_check (pc : LoadPc) : bool :=
  match pc with LpChecked | LpLoaded _ => true | _ => false end.

Record load_inv (s : LoadSys) : Prop := mkLoadInv {
  li_lock : ∀ tid t, ls_tasks s !! tid = Some t → holds_lock (lt_pc t) = true → ls_lock s = Some tid;
  li_absent : ∀ tid t, ls_tasks s !! tid = Some t → past_check (lt_pc t) = true →
    g_terminals (ls_reg s) !! lt_id t = None;
  li_done : ∀ tid t loc, ls_tasks s !! tid = Some t → lt_pc t = LpDone loc → lt_id t ∉ ls_left s →
    g_terminals (ls_reg s) !! lt_id t = Some loc;
}.

Lemma past_check_locked pc : past_check pc = true → holds_lock pc = true.
Proof. by destruct pc. Qed.

(** Moving one task that keeps its claims true. *)
Lemma load_inv_move g lock lock' tasks gone tid t pc :
  load_inv (mkLoadSys g lock tasks gone) → tasks !! tid = Some t →
  (holds_lock pc = true → lock' = Some tid) →
  (∀ tid' t', tid' ≠ tid → tasks !! tid' = Some t' → holds_lock (lt_pc t') = true → lock' = Some tid') →
  (past_check pc = true → g_terminals g !! lt_id t = None) →
  (∀ loc, pc = LpDone loc → g_terminals g !! lt_id t = Some loc) →
  load_inv (mkLoadSys g lock' (<[tid := lt_to t pc]> tasks) gone).
Proof.
  intros [H1 H2 H3] Ht Hl Hothers Hp Hd. split; cbn in *.
  - intros tid' t'. rewrite lookup_insert. case_decide; [intros [= <-]; subst; apply Hl|]. intros. by eapply Hothers.
  - intros tid' t'. rewrite lookup_insert. case_decide; [intros [= <-]; subst; apply Hp|]. apply H2.
  - intros tid' t' loc. rewrite lookup_insert. case_decide; [intros [= <-] ? _; subst; by apply Hd|]. apply H3.
Qed.

Lemma load_step_inv s s' : load_step s s' → load_inv s → load_inv s'.
Proof.
  destruct 1 as [g lock tasks gone tid row capacity Hnone|g lock tasks gone tid t Ht Hpc
    |g tasks gone tid t Ht Hpc|g lock tasks gone tid t Ht Hpc|g lock tasks gone tid t r g' Ht Hpc Hload
    |g lock tasks gone tid t retained loc g' Ht Hpc Hins|g g' lock tasks gone gone' Hsub Hleft Hgone];
    intros Hinv; pose proof Hinv as [H1 H2 H3]; cbn in H1, H2, H3.
  - split; cbn; intros tid' t'; rewrite lookup_insert; case_decide; try (by intros * [= <-]);
      [apply H1|apply H2|apply H3].
  - eapply load_inv_move; [done..| | | |]; unfold resident.
    + by destruct (g_terminals g !! lt_id t).
    + intros. by eapply H1.
    + by destruct (g_terminals g !! lt_id t).
    + intros loc. destruct (g_terminals g !! lt_id t); congruence.
  - eapply load_inv_move; [done..|done| |done|done]. intros tid' t' Hne Ht' Hh.
    by pose proof (H1 _ _ Ht' Hh).
  - assert (lock = Some tid) as -> by (apply (H1 tid t); [done|by rewrite Hpc]).
    unfold resident. destruct (g_terminals g !! lt_id t) as [loc|] eqn:Hres.
    + eapply load_inv_move; [done..|done| |done|congruence].
      intros tid' t' Hne Ht' Hh. pose proof (H1 _ _ Ht' Hh). congruence.
    + eapply load_inv_move; [done..|done| |done|done]. intros. by eapply H1.
  - assert (lock = Some tid) as -> by (apply (H1 tid t); [done|by rewrite Hpc]).
    assert (g_terminals g !! lt_id t = None) as Habs by (apply (H2 tid); [done|by rewrite Hpc]).
    apply db_call_inv in Hload as (tb & fs & -> & Hr).
    assert (load_inv (mkLoadSys (put_db tb (put_faults fs g)) (Some tid) tasks gone)) as Hinv'
      by (split; cbn; done).
    destruct r as [retained|e].
    + eapply load_inv_move; [done..|done| |done|done]. intros. by eapply H1.
    + eapply load_inv_move; [done..|done| |done|done].
      intros tid' t' Hne Ht' Hh. pose proof (H1 _ _ Ht' Hh). congruence.
  - assert (lock = Some tid) as -> by (apply (H1 tid t); [done|by rewrite Hpc]).
    assert (g_terminals g !! lt_id t = None) as Habs by (apply (H2 tid); [done|by rewrite Hpc]).
    assert (g_terminals g' = <[lt_id t := loc]> (g_terminals g)) as Hg'
      by (unfold install_handle in Hins; by injection Hins as <- <-).
    split; cbn; rewrite ?Hg'; intros tid' t'; rewrite lookup_insert; case_decide.
    + by intros [= <-].
    + intros Ht' Hh. pose proof (H1 _ _ Ht' Hh). congruence.
    + by intros [= <-].
    + intros Ht' Hh. pose proof (H1 _ _ Ht' (past_check_locked _ Hh)). congruence.
    + intros ? [= <-] [= <-] _. apply lookup_insert_eq.
    + intros loc' Ht' Hd Hl. pose proof (H3 _ _ _ Ht' Hd Hl) as Hres.
      rewrite lookup_insert_ne; [done|]. intros Heq. rewrite Heq in Habs. congruence.
  - split; cbn; [done| |].
    + intros tid t Ht Hp. pose proof (H2 _ _ Ht Hp). by eapply lookup_weaken_None.
    + intros tid t loc Ht Hd Hl. assert (g_terminals g !! lt_id t = Some loc) as Hres
        by (apply (H3 tid); [done|done|set_solver]).
      destruct (g_terminals g' !! lt_id t) as [loc'|] eqn:E.
      * by rewrite (lookup_weaken _ _ _ _ E Hsub) in Hres.
      * destruct Hl. by apply Hleft.
Qed.

(** ** Opening *)

Definition matches_ref (device_id : Uuid) (local_ref : text) (c : TerminalRec) : bool :=
  bool_decide (c_device_id c = device_id) && bool_decide (c_local_ref c = local_ref) && is_open c.

(** The schema's partial unique index. *)
Definition open_refs_unique (tb : Tables) : Prop :=
  ∀ id1 id2 c1 c2, tb_terminals tb !! id1 = Some c1 → tb_terminals tb !! id2 = Some c2 →
    is_open c1 = true → matches_ref (c_device_id c1) (c_local_ref c1) c2 = true → id1 = id2.

Lemma select_rows_elem p tb row :
  row ∈ select_rows p tb ↔ ∃ c, tb_terminals tb !! t_terminal_id row = Some c ∧ p c = true
                              ∧ row = row_from_rec (t_terminal_id row) c.
Proof.
  unfold select_rows. rewrite list_elem_of_fmap. split.
  - intros ([id c] & -> & [Hp Hin]%list_elem_of_filter). apply elem_of_map_to_list in Hin. by exists c.
  - intros (c & Hc & Hp & Hrow). exists (t_terminal_id row, c). split; [done|].
    apply list_elem_of_filter. split; [done|]. by apply elem_of_map_to_list.
Qed.

Lemma find_open_some device_id local_ref tb row :
  find_open_terminal_by_local_ref device_id local_ref tb = Some row →
  ∃ c, tb_terminals tb !! t_terminal_id row = Some c ∧ matches_ref device_id local_ref c = true
    ∧ row = row_from_rec (t_terminal_id row) c.
Proof.
  intros H. apply (select_rows_elem (matches_ref device_id local_ref)).
  unfold find_open_terminal_by_local_ref, matches_ref in *. destruct (select_rows _ tb); [done|].
  injection H as ->. by left.
Qed.

Lemma find_open_none device_id local_ref tb :
  find_open_terminal_by_local_ref device_id local_ref tb = None →
  ∀ id c, tb_terminals tb !! id = Some c → matches_ref device_id local_ref c = false.
Proof.
  intros H id c Hc. apply not_true_is_false. intros Hm.
  assert (row_from_rec id c ∈ select_rows (matches_ref device_id local_ref) tb) as Hin
    by (apply select_rows_elem; by exists c).
  unfold find_open_terminal_by_local_ref, matches_ref in *. destruct (select_rows _ tb); [|done].
  by apply not_elem_of_nil in Hin.
Qed.

Lemma matches_ref_true device_id local_ref c :
  matches_ref device_id local_ref c = true ↔
  c_device_id c = device_id ∧ c_local_ref c = local_ref ∧ is_open c = true.
Proof.
  unfold matches_ref. rewrite !andb_true_iff, !bool_decide_eq_true. naive_solver.
Qed.

(** Under the index a lookup finds the one row there is. *)
Lemma find_open_unique device_id local_ref tb id c :
  open_refs_unique tb → tb_terminals tb !! id = Some c → matches_ref device_id local_ref c = true →
  find_open_terminal_by_local_ref device_id local_ref tb = Some (row_from_rec id c).
Proof.
  intros Hu Hc Hm. destruct (find_open_terminal_by_local_ref device_id local_ref tb) as [row|] eqn:E.
  - destruct (find_open_some _ _ _ _ E) as (c' & Hc' & Hm' & Hrow).
    apply matches_ref_true in Hm as (<- & <- & Hopen).
    assert (id = t_terminal_id row) as -> by by eapply Hu.
    rewrite Hrow. f_equal. f_equal. congruence.
  - by rewrite (find_open_none _ _ _ E _ _ Hc) in Hm.
Qed.

Lemma insert_terminal_inv id now d ident ref label cols rows term pl acc origin req tb row tb' :
  insert_terminal id now d ident ref label cols rows term pl acc origin req tb = Ok (row, tb') →
  from_option (λ v, v < two32) True cols → from_option (λ v, v < two32) True rows →
  open_refs_unique tb →
  find_open_terminal_by_local_ref d ref tb = None
  ∧ t_terminal_id row = id ∧ t_durable_offset row = 0 ∧ t_earliest_offset row = 0
  ∧ open_refs_unique tb' ∧ find_open_terminal_by_local_ref d ref tb' = Some row
  ∧ tb_output tb' = tb_output tb
  ∧ tb_terminals tb !! id = None.
Proof.
  intros H Hcols Hrows Hu. unfold insert_terminal in H.
  case_bool_decide as Hid; [done|]. case_bool_decide as Href; [done|].
  apply eq_None_not_Some in Hid. apply eq_None_not_Some in Href. injection H as Hrow Htb.
  set (c := mkTerminalRec _ _ _ _ _ _ _ _ _ _ _ _ _ _ _ _ _ _) in Htb.
  assert (matches_ref d ref c = true) as Hm by by apply matches_ref_true.
  assert (row = row_from_rec id c) as Hrow'.
  { rewrite <- Hrow. unfold row_from_rec, c. cbn.
    assert (∀ o, from_option (λ v, v < two32) True o → as_u32 <$> (Z.of_N <$> o) = o) as Hu32.
    { intros [v|] Hv; [|done]. cbn in *. f_equal. unfold as_u32. rewrite Z.mod_small by lia. lia. }
    rewrite (Hu32 cols), (Hu32 rows) by done. by destruct acc. }
  assert (open_refs_unique tb') as Hu'.
  { rewrite <- Htb. intros id1 id2 c1 c2. cbn. rewrite !lookup_insert.
    pose proof (find_open_none _ _ _ Href) as Hnone.
    repeat case_decide; subst; try done.
    - intros [= <-] Hc2 _ Hm2. cbn in Hm2. by rewrite (Hnone _ _ Hc2) in Hm2.
    - intros Hc1 [= <-] Ho1 (He1 & He2 & _)%matches_ref_true. cbn in He1, He2.
      pose proof (Hnone _ _ Hc1) as Hf. apply not_true_iff_false in Hf. destruct Hf.
      by apply matches_ref_true.
    - apply Hu. }
  assert (tb_terminals tb' !! id = Some c) as Hc by (rewrite <- Htb; apply lookup_insert_eq).
  split_and!; [done|by rewrite <- Hrow..|done| |by rewrite <- Htb|done].
  rewrite Hrow'. by apply find_open_unique.
Qed.

Lemma open_row_spec id now d ident request max race tb row deduplicated tb' :
  open_row id now d ident request max race tb = Ok (row, deduplicated, tb') →
  open_refs_unique tb → open_refs_unique (race tb) →
  from_option (λ v, v < two32) True (or_cols request) → from_option (λ v, v < two32) True (or_rows request) →
  open_refs_unique tb'
  ∧ find_open_terminal_by_local_ref d (or_local_ref request) tb' = Some row
  ∧ (if deduplicated : bool then tb' = tb ∨ tb' = race tb
     else t_terminal_id row = id ∧ t_durable_offset row = 0 ∧ t_earliest_offset row = 0
          ∧ (count_open_terminals_for_device d tb < max)%Z
          ∧ tb_output tb' = tb_output (race tb) ∧ tb_terminals (race tb) !! id = None).
Proof.
  unfold open_row. intros H Hu Hur Hc Hr.
  destruct (find_open_terminal_by_local_ref d (or_local_ref request) tb) as [row0|] eqn:Hf.
  { injection H as <- <- <-. auto. }
  destruct (Z.leb_spec max (count_open_terminals_for_device d tb)); [done|].
  destruct (insert_terminal _ _ _ _ _ _ _ _ _ _ _ _ _ (race tb)) as [[row1 tb1]|e] eqn:Hins.
  - injection H as <- <- <-.
    destruct (insert_terminal_inv _ _ _ _ _ _ _ _ _ _ _ _ _ _ _ _ Hins Hc Hr Hur)
      as (_ & ? & ? & ? & ? & ? & ? & ?). done.
  - destruct (find_open_terminal_by_local_ref d (or_local_ref request) (race tb)) as [row1|] eqn:Hf1; [|done].
    injection H as <- <- <-. auto.
Qed.

(** ** Properties *)

(** Loading never yields two handles for one terminal. Whatever calls of
    [insert_or_load_handle] run side by side and whatever else happens to the
    registry between their awaits, a task about to install a handle finds none
    resident, and every finished call that was not followed by an eviction of
    its terminal answered the handle that is resident now - so any two of them
    answered the same one. *)
Theorem loading_never_replaces (g : Registry) (s : LoadSys) :
  rtc load_step (mkLoadSys g None ∅ ∅) s →
  (∀ tid t retained, ls_tasks s !! tid = Some t → lt_pc t = LpLoaded retained →
     resident (lt_id t) (ls_reg s) = None)
  ∧ (∀ tid t loc, ls_tasks s !! tid = Some t → lt_pc t = LpDone loc → lt_id t ∉ ls_left s →
     resident (lt_id t) (ls_reg s) = Some loc).
Proof.
  intros Hs. assert (load_inv s) as [H1 H2 H3].
  { assert (load_inv (mkLoadSys g None ∅ ∅)) as H0 by (by split).
    revert H0. induction Hs; eauto using load_step_inv. }
  split.
  - intros tid t retained Ht Hpc. apply (H2 tid); [done|by rewrite Hpc].
  - intros tid t loc Ht Hpc Hl. by apply (H3 tid).
Qed.

Definition example_rec : TerminalRec :=
  mkTerminalRec 1 (lit "alice") (lit "shell") (lit "main") "open" None None None None 1 "publisher" None
    0 0 None None 2 0.
Definition example_tables : Tables :=
  mkTables {[7 := example_rec]} {[7 := [mkOutputRow 0 2 [x61; x62]]]}.
Definition example_stored : Registry := registry_new example_tables [] snapshot_default.

Lemma loading_never_replaces_witness :
  let task := mkLoadTask (row_from_rec 7 example_rec) 4 LpStart in
  let s := mkLoadSys example_stored (Some 0%nat)
             {[0%nat := lt_to task LpLocked]} ∅ in
  (∀ tid t retained, ls_tasks s !! tid = Some t → lt_pc t = LpLoaded retained →
     resident (lt_id t) (ls_reg s) = None)
  ∧ (∀ tid t loc, ls_tasks s !! tid = Some t → lt_pc t = LpDone loc → lt_id t ∉ ls_left s →
     resident (lt_id t) (ls_reg s) = Some loc).
Proof.
  apply (loading_never_replaces example_stored).
  eapply rtc_l; [by apply (ld_spawn _ _ _ _ 0 (row_from_rec 7 example_rec) 4)|].
  eapply rtc_l; [by eapply (ld_start _ _ _ _ 0); [apply lookup_insert_eq|]|].
  rewrite insert_insert_eq. cbn [resident].
  eapply rtc_l; [by eapply (ld_acquire _ _ _ 0); [apply lookup_insert_eq|]|].
  rewrite insert_insert_eq. apply rtc_refl.
Defined.

(** A terminal survives a restart. When a terminal that is not resident is
    looked up and storage answers, the handle built from its rows is the
    terminal as of its last commit: it continues at [durable_offset], which
    every byte up to there counts towards, and it retains exactly the newest
    bytes that were stored and fit the capacity. *)
Theorem reload_restores_terminal (log : list byte) (earliest durable : N) (id : Uuid) (g : Registry) :
  handles_ok g → stored_repr log earliest durable id (g_db g) → g_terminals g !! id = None →
  g_faults g = [] →
  ∃ loc h g', get_or_load id g = (Ok (Some loc), g')
    ∧ g_terminals g' !! id = Some loc ∧ g_handles g' !! loc = Some h
    ∧ i_next_offset (h_inner h) = durable ∧ i_durable_offset (h_inner h) = durable
    ∧ term_repr (takeN durable log) (h_inner h)
    ∧ r_earliest (i_ring (h_inner h))
      = window_start earliest (N.max (replay_capacity (g_settings g)) 1) (takeN durable log).
Proof.
  intros Hok Hst Hres Hf. destruct (get_or_load id g) as [r g'] eqn:Hload.
  pose proof (get_or_load_spec _ _ _ _ Hok Hload) as (_ & _ & Hr).
  assert (∃ loc, r = Ok (Some loc)) as [loc ->].
  { pose proof Hst as (Ho & c & Hc & He & Hd).
    assert (of_i64 (c_earliest_offset c) = earliest) as Hearliest by (rewrite He; unfold of_i64; lia).
    revert Hload. unfold get_or_load. autorewrite with regm. unfold resident. rewrite Hres.
    autorewrite with regm. rewrite reg_bind. unfold db_read, db_call. rewrite Hf. cbn [mjoin head option_join].
    unfold get_terminal. rewrite Hc. cbn [fmap option_fmap option_map]. rewrite reg_bind.
    unfold insert_or_load_handle. autorewrite with regm. unfold resident.
    cbn [g_terminals put_db put_faults t_terminal_id row_from_rec]. rewrite Hres.
    autorewrite with regm. cbn [g_terminals put_db put_faults]. rewrite Hres, reg_bind.
    unfold load_output, db_call. cbn [g_faults put_db put_faults tail head mjoin option_join g_db].
    cbn [t_earliest_offset row_from_rec]. rewrite Hearliest, (load_terminal_output_repr log earliest durable) by done.
    cbn. intros [= <- _]. by eexists. }
  destruct Hr as (Ht & Hbuilt). destruct (Hbuilt Hres) as (row & bytes & Hrow & Hbytes & Hh).
  destruct (stored_handle_repr _ _ _ _ _ _ _ (replay_capacity (g_settings g)) Hst Hrow Hbytes)
    as (H1 & H2 & H3 & H4).
  by exists loc, (term_from_row row (replay_capacity (g_settings g)) bytes), g'.
Qed.

Lemma example_stored_repr : stored_repr [x61; x62] 0 2 7 example_tables.
Proof.
  split; [|by eexists]. split_and!; [|done|done]. by repeat split.
Qed.
Lemma example_stored_handles_ok : handles_ok example_stored.
Proof. by split. Qed.

Lemma reload_restores_terminal_witness :
  ∃ loc h g', get_or_load 7 example_stored = (Ok (Some loc), g')
    ∧ g_terminals g' !! 7 = Some loc ∧ g_handles g' !! loc = Some h
    ∧ i_next_offset (h_inner h) = 2 ∧ i_durable_offset (h_inner h) = 2
    ∧ term_repr [x61; x62] (h_inner h)
    ∧ r_earliest (i_ring (h_inner h))
      = window_start 0 (N.max (replay_capacity (g_settings example_stored)) 1) [x61; x62].
Proof.
  exact (reload_restores_terminal [x61; x62] 0 2 7 example_stored example_stored_handles_ok
           example_stored_repr eq_refl eq_refl).
Defined.

(** Opening is idempotent per device and [local_ref], even when another
    connection opens the same reference between the lookup and the insert.
    Whatever happens in between, a successful open answers the resident handle
    of the one open terminal stored under the reference; a new terminal starts
    at offset zero and was below the device's limit; a repeated open created
    nothing. *)
Theorem open_terminal_idempotent (id : Uuid) (now : N) (device_id : Uuid) (identity_id : text)
    (request : OpenRequest) (race : Tables → Tables) (g g' : Registry) (loc : N) (deduplicated : bool) :
  handles_ok g → open_refs_unique (g_db g) → open_refs_unique (race (g_db g)) →
  from_option (λ v, v < two32) True (or_cols request) → from_option (λ v, v < two32) True (or_rows request) →
  open_terminal id now device_id identity_id request (racing race) g = (Ok (loc, deduplicated), g') →
  ∃ row, find_open_terminal_by_local_ref device_id (or_local_ref request) (g_db g') = Some row
    ∧ g_terminals g' !! t_terminal_id row = Some loc
    ∧ open_refs_unique (g_db g')
    ∧ (if deduplicated then g_db g' = g_db g ∨ g_db g' = race (g_db g)
       else t_terminal_id row = id ∧ t_durable_offset row = 0
            ∧ (count_open_terminals_for_device device_id (g_db g)
               < sn_int keys.LIMITS_MAX_ACTIVE_TERMINALS_PER_DEVICE (g_settings g))%Z).
Proof.
  intros Hok Hu Hur Hc Hr. unfold open_terminal. cbn [racing mw_queued mw_race mw_stored].
  autorewrite with regm. rewrite reg_bind.
  destruct (db_call _ g) as [[[row dd]|e] g1] eqn:Hdb; [|done].
  pose proof (db_call_grows _ _ _ _ Hok Hdb) as Hg1.
  apply db_call_inv in Hdb as (tb & fs & -> & Hrow).
  destruct (open_row_spec _ _ _ _ _ _ _ _ _ _ _ Hrow Hu Hur Hc Hr) as (Hu' & Hfind & Hcase).
  autorewrite with regm. rewrite reg_bind. set (g1 := put_db _ _) in *.
  destruct (insert_or_load_handle row _ g1) as [[loc1|e] g2] eqn:Hload; [|done].
  destruct (insert_or_load_spec _ _ _ _ _ (gr_ok _ _ Hg1) Hload) as (_ & Hdb2 & Hres & _).
  autorewrite with regm. intros [= <- <- <-]. exists row.
  assert (∀ f l, g_db (on_handle l f g2) = tb) as Hg' by done.
  destruct dd; cbn [g_db on_handle put_handles g_terminals]; rewrite Hdb2; split_and!; try done; naive_solver.
Qed.

Definition example_request : OpenRequest :=
  mkOpenRequest (lit "main") (lit "shell") None None None None true OriginPublisher None.

Lemma example_tables_unique : open_refs_unique example_tables.
Proof.
  intros id1 id2 c1 c2 H1 H2 _ _. cbn in H1, H2.
  apply lookup_singleton_Some in H1 as [<- _]. by apply lookup_singleton_Some in H2 as [<- _].
Qed.
Lemma empty_tables_unique : open_refs_unique tb_empty.
Proof. intros id1 id2 c1 c2 H1. cbn in H1. by rewrite lookup_empty in H1. Qed.

(** The reference is opened by another connection after the lookup. *)
Lemma open_terminal_idempotent_witness :
  let race := λ _, example_tables in
  let g := registry_new tb_empty [] snapshot_default in
  let g' := (open_terminal 9 5 1 (lit "alice") example_request (racing race) g).2 in
  ∃ row, find_open_terminal_by_local_ref 1 (lit "main") (g_db g') = Some row
    ∧ g_terminals g' !! t_terminal_id row = Some 0
    ∧ open_refs_unique (g_db g')
    ∧ (g_db g' = g_db g ∨ g_db g' = race (g_db g)).
Proof.
  apply (open_terminal_idempotent 9 5 1 (lit "alice") example_request (λ _, example_tables)
           (registry_new tb_empty [] snapshot_default) _ 0 true).
  - by split.
  - exact empty_tables_unique.
  - exact example_tables_unique.
  - exact I.
  - exact I.
  - vm_compute. reflexivity.
Defined.

(** A subscriber's delivery goes to the current publisher connection's
    queue or nowhere: it is appended at the end of the queue of the slot's own
    channel, never beyond its bound and never to a connection that stopped
    reading; every refusal changes nothing and says whether a publisher is
    missing or full. *)
Theorem delivery_bounded_fifo (device_id : Uuid) (delivery : PublisherDelivery) (g : Registry) :
  let '(r, g') := deliver_to_publisher device_id delivery g in
  match r with
  | Ok _ => ∃ slot tx c, g_publishers g !! device_id = Some slot ∧ ps_input_tx slot = Some tx
      ∧ g_inputs g !! tx = Some c ∧ ic_rx_open c = true
      ∧ g_inputs g' = <[tx := mkInputChan (ic_queue c ++ [delivery]) (ic_capacity c) true]> (g_inputs g)
      ∧ len (ic_queue c ++ [delivery]) ≤ ic_capacity c ∧ g_publishers g' = g_publishers g
  | Err Backpressure => g' = g ∧ ∃ slot tx c, g_publishers g !! device_id = Some slot
      ∧ ps_input_tx slot = Some tx ∧ g_inputs g !! tx = Some c ∧ ic_capacity c ≤ len (ic_queue c)
  | Err NoPublisher => g' = g ∧ ∀ slot tx c, g_publishers g !! device_id = Some slot →
      ps_input_tx slot = Some tx → g_inputs g !! tx = Some c → ic_rx_open c = false
  end.
Proof.
  unfold deliver_to_publisher.
  destruct (g_publishers g !! device_id) as [slot|] eqn:Hs; cbn; [|by split; [|naive_solver]].
  destruct (ps_input_tx slot) as [tx|] eqn:Htx; [|split; [done|naive_solver]].
  destruct (g_inputs g !! tx) as [c|] eqn:Hc; [|split; [done|naive_solver]].
  destruct (ic_rx_open c) eqn:Hrx; cbn; [|split; [done|naive_solver]].
  case_N; [by split; [|exists slot, tx, c]|]. exists slot, tx, c. split_and!; try done. len_lia.
Qed.

(** A repeated open does not refresh what the terminal advertises: it writes the
    stored row's metadata back, not the request's. *)
Theorem repeated_open_keeps_metadata :
  let g := (open_terminal 9 5 1 (lit "alice") example_request (racing (λ tb, tb)) (registry_new tb_empty [] snapshot_default)).2 in
  let again := mkOpenRequest (lit "main") (lit "renamed") (Some 132) (Some 50) None None true OriginPublisher None in
  let '(r, g') := open_terminal 10 6 1 (lit "alice") again (racing (λ tb, tb)) g in
  match r with
  | Ok (loc, deduplicated) =>
      deduplicated = true
      ∧ (i_label ∘ h_inner <$> g_handles g' !! loc) = Some (lit "shell")
      ∧ (i_cols ∘ h_inner <$> g_handles g' !! loc) = Some None
  | Err _ => False
  end.
Proof. vm_compute. by split_and!. Qed.
