(* ===== verification/Flush.v ===== *)
(** * The checkpoint task ([server/src/relay/flush.rs])

    One checkpoint: collect what every resident terminal has to commit, commit
    it in one transaction with bounded retries, and only then advance the
    terminals' [durable_offset]s. The flush lock makes checkpoints sequential;
    every other task runs during the awaits, so [flush_once] takes [between],
    what the others do to the registry during each await. Durations and
    instants are in microseconds. *)

From S2P Require Export RegistryTerminals.

Open Scope N_scope.
Open Scope hype_scope.

Inductive FlushTrigger := TrInterval | TrDirtyBytes | TrMemoryPressure | TrTerminalClosing | TrRequested | TrShutdown.
Definition trigger_as_str (t : FlushTrigger) : string :=
  match t with
  | TrInterval => "interval"
  | TrDirtyBytes => "dirty_bytes"
  | TrMemoryPressure => "memory_pressure"
  | TrTerminalClosing => "terminal_closing"
  | TrRequested => "requested"
  | TrShutdown => "shutdown"
  end.

Definition ms (n : N) : N := n * 1000.

(** The head of the loop of [run]: why to flush now, if at all. *)
Definition choose_trigger (sn : Snapshot) (stats : DirtyStats) : option FlushTrigger :=
  let flush_interval := ms (sn_duration_ms keys.PERSISTENCE_FLUSH_INTERVAL_MS sn) in
  let flush_bytes := sn_u64 keys.PERSISTENCE_FLUSH_BYTES sn in
  let memory_pressure := sn_u64 keys.PERSISTENCE_MEMORY_PRESSURE_DIRTY_BYTES sn in
  if ds_has_pending_close stats then Some TrTerminalClosing
  else if memory_pressure <=? ds_total_dirty_bytes stats then Some TrMemoryPressure
  else if flush_bytes <=? ds_total_dirty_bytes stats then Some TrDirtyBytes
  else if from_option (λ age, flush_interval <=? age) false (ds_oldest_dirty stats) then Some TrInterval
  else None.

(** How long [run] sleeps otherwise. *)
Definition flush_wait (sn : Snapshot) (stats : DirtyStats) : N :=
  let flush_interval := ms (sn_duration_ms keys.PERSISTENCE_FLUSH_INTERVAL_MS sn) in
  match ds_oldest_dirty stats with
  | Some age => N.max (flush_interval - age) (ms 1)
  | None => flush_interval
  end.

Definition clone_batch (batch : list TerminalCheckpoint) : list TerminalCheckpoint :=
  (λ c, mkTerminalCheckpoint (k_terminal_id c) (k_chunk_start c) (k_chunk c) (k_earliest_offset c)
          (k_durable_offset c) (k_last_activity c) (k_close_reason c)) <$> batch.

(** The attempts of [commit_with_retry]: [remaining] are left, the next is
    number [attempt]. The list is the backoffs slept. *)
Fixpoint commit_attempts (between : nat → Registry → Registry) (now : N)
    (batch : list TerminalCheckpoint) (max_backoff : N) (remaining attempt : nat) (backoff : N)
    (last_error : option ApiError) (g : Registry) : (ApiResult N * list N) * Registry :=
  match remaining with
  | O => ((Err (default (api_storage_unavailable (lit "checkpoint commit failed")) last_error), []), g)
  | S remaining =>
      match db_call (commit_checkpoints now (clone_batch batch)) (between attempt g) with
      | (Ok rows, g) => ((Ok rows, []), g)
      | (Err e, g) =>
          match remaining with
          | O => commit_attempts between now batch max_backoff remaining (S attempt) backoff (Some e) g
          | S _ =>
              let '(r, slept, g) :=
                commit_attempts between now batch max_backoff remaining (S attempt)
                  (N.min (backoff * 2) max_backoff) (Some e) g in
              (r, backoff :: slept, g)
          end
      end
  end.

Definition commit_with_retry (between : nat → Registry → Registry) (now : N)
    (batch : list TerminalCheckpoint) (g : Registry) : (ApiResult N * list N) * Registry :=
  let sn := g_settings g in
  let max_attempts := N.max (sn_u32 keys.PERSISTENCE_COMMIT_RETRY_MAX_ATTEMPTS sn) 1 in
  let initial := ms (sn_duration_ms keys.PERSISTENCE_COMMIT_RETRY_INITIAL_MS sn) in
  let max_backoff := ms (sn_duration_ms keys.PERSISTENCE_COMMIT_RETRY_MAX_MS sn) in
  commit_attempts between now batch max_backoff (N.to_nat max_attempts) 0 initial None g.

Definition checkpoint_of_pending (p : PendingCheckpoint) : TerminalCheckpoint :=
  mkTerminalCheckpoint (pc_terminal_id p) (pc_chunk_start p) (pc_chunk p) (pc_earliest_offset p)
    (pc_durable_target p) (pc_last_activity p) (pc_close_reason p).

(** [take_checkpoint] of every resident handle that has work. *)
Definition take_pending (now : N) (g : Registry) : list PendingCheckpoint :=
  omap (λ loc, h ← g_handles g !! loc; term_take_checkpoint (h_terminal_id h) now (h_inner h))
    (resident_handles g).

(** Publish one committed checkpoint. *)
Definition publish_checkpoint (g : Registry) (p : PendingCheckpoint) : Registry :=
  match resident (pc_terminal_id p) g with
  | Some loc => on_handle loc (term_commit_durable (pc_durable_target p) (pc_close_reason p)) g
  | None => g
  end.

Definition batch_bytes (batch : list TerminalCheckpoint) : N :=
  foldr (λ c n, len (k_chunk c) + n) 0 batch.

Definition flush_once (between : nat → Registry → Registry) (now : N) (g : Registry) : N * Registry :=
  let pending := take_pending now g in
  if is_empty pending then (0, g)
  else
    let batch := checkpoint_of_pending <$> pending in
    match commit_with_retry between now batch g with
    | (Ok _, _, g) => (batch_bytes batch, set_storage_failing false (foldl publish_checkpoint g pending))
    | (Err _, _, g) => (0, set_storage_failing true g)
    end.

(** ** What a checkpoint carries *)

Lemma take_checkpoint_spec log id now i p :
  term_repr log i → term_take_checkpoint id now i = Some p →
  let k := checkpoint_of_pending p in
  k_terminal_id k = id ∧ checkpoint_for log (i_durable_offset i) k
  ∧ k_earliest_offset k = r_earliest (i_ring i) ∧ k_durable_offset k = len log
  ∧ k_close_reason k = match i_lifecycle i with Closing reason => Some reason | _ => None end.
Proof.
  intros (Hr & Hn & Hd) H. pose proof Hr as (_ & He & _). unfold term_take_checkpoint in H.
  destruct (negb _ && negb _); [done|]. injection H as <-. cbn. split_and!; [done| |done|done|done].
  unfold checkpoint_for. cbn. rewrite Hn. split_and!; [done| |done|done|done].
  destruct (N.ltb_spec (N.max (i_durable_offset i) (r_earliest (i_ring i))) (len log)) as [Hlt|Hge].
  - rewrite (ring_read_range_slice _ log) by done.
    rewrite (proj2 (N.leb_le _ _)), (proj2 (N.leb_le _ _)), (proj2 (N.leb_le _ _)) by lia. done.
  - by rewrite sliceN_nil.
Qed.

(** ** Memory and storage agree *)

(** Every resident terminal is its log, and what it calls durable is stored. *)
Record flush_inv (logs : gmap Uuid (list byte)) (g : Registry) : Prop := mkFlushInv {
  fl_handles : handles_ok g;
  fl_repr : ∀ id loc h, g_terminals g !! id = Some loc → g_handles g !! loc = Some h →
    ∃ log e, logs !! id = Some log ∧ term_repr log (h_inner h)
      ∧ e ≤ r_earliest (i_ring (h_inner h))
      ∧ stored_repr log e (i_durable_offset (h_inner h)) id (g_db g);
}.

(** What the other tasks may do while a checkpoint of the terminals [P] waits:
    anything that keeps the invariant, leaves those terminals resident and
    their stored output alone, and does not move their [durable_offset]. *)
Record others_ok (P : Uuid → Prop) (logs : gmap Uuid (list byte)) (g : Registry)
    (logs' : gmap Uuid (list byte)) (g' : Registry) : Prop := mkOthersOk {
  oo_inv : flush_inv logs' g';
  oo_handles : ∀ id loc h, P id → g_terminals g !! id = Some loc → g_handles g !! loc = Some h →
    g_terminals g' !! id = Some loc
    ∧ ∃ h' log data, g_handles g' !! loc = Some h' ∧ logs !! id = Some log ∧ logs' !! id = Some (log ++ data)
        ∧ i_durable_offset (h_inner h') = i_durable_offset (h_inner h)
        ∧ r_earliest (i_ring (h_inner h)) ≤ r_earliest (i_ring (h_inner h'));
  oo_stored : ∀ id log e d, P id → stored_repr log e d id (g_db g) → stored_repr log e d id (g_db g');
}.

Lemma others_ok_refl P logs g : flush_inv logs g → others_ok P logs g logs g.
Proof.
  intros Hinv. split; [done| |done]. intros id loc h _ Hid Hh. split; [done|].
  destruct (fl_repr _ _ Hinv _ _ _ Hid Hh) as (log & e & Hlog & _).
  exists h, log, []. rewrite app_nil_r. done.
Qed.

Lemma others_ok_trans P logs1 g1 logs2 g2 logs3 g3 :
  others_ok P logs1 g1 logs2 g2 → others_ok P logs2 g2 logs3 g3 → others_ok P logs1 g1 logs3 g3.
Proof.
  intros [_ H1 S1] [Hinv H2 S2]. split; [done| |auto].
  intros id loc h HP Hid Hh. destruct (H1 _ _ _ HP Hid Hh) as (Hid' & h' & log & data & Hh' & Hl & Hl' & Hd & He).
  destruct (H2 _ _ _ HP Hid' Hh') as (Hid'' & h'' & log' & data' & Hh'' & Hl2 & Hl2' & Hd' & He').
  split; [done|]. simplify_eq. exists h'', log, (data ++ data'). rewrite app_assoc.
  split_and!; [done..|congruence|lia].
Qed.

Lemma flush_inv_db logs g fs : flush_inv logs g → flush_inv logs (put_db (g_db g) (put_faults fs g)).
Proof. intros [[H1 H2] H3]. by split. Qed.

(** ** The transaction *)

Definition checkpoint_ready (tb : Tables) (k : TerminalCheckpoint) : Prop :=
  ∃ log e d, stored_repr log e d (k_terminal_id k) tb ∧ checkpoint_for log d k ∧ e ≤ k_earliest_offset k.

Lemma stored_repr_other log e d id tb tb' :
  output_of tb' id = output_of tb id → tb_terminals tb' !! id = tb_terminals tb !! id →
  stored_repr log e d id tb → stored_repr log e d id tb'.
Proof. unfold stored_repr. by intros -> ->. Qed.

Lemma commit_one_spec now k tb log e d :
  stored_repr log e d (k_terminal_id k) tb → checkpoint_for log d k → e ≤ k_earliest_offset k →
  ∃ n tb', commit_checkpoint now k tb = Ok (n, tb')
    ∧ stored_repr log (k_earliest_offset k) (k_durable_offset k) (k_terminal_id k) tb'
    ∧ ∀ id, id ≠ k_terminal_id k →
        output_of tb' id = output_of tb id ∧ tb_terminals tb' !! id = tb_terminals tb !! id.
Proof.
  intros (Ho & c & Hc & _) Hk He. pose proof Hk as (_ & _ & Hek & _ & Hdl). pose proof Ho as (_ & _ & Hl).
  destruct (commit_checkpoint_repr now log e d k c tb Hc Ho Hk He) as (n & tb' & Hcommit & Ho' & Ht & Hother).
  exists n, tb'. split_and!; [done| |].
  - split; [done|]. exists (checkpoint_rec k now c). rewrite Ht, lookup_insert_eq. split; [done|].
    unfold checkpoint_rec. destruct (k_close_reason k); cbn; rewrite !as_i64_small by lia; done.
  - intros id Hne. split; [by apply Hother|]. by rewrite Ht, lookup_insert_ne.
Qed.

Lemma commit_batch_spec now batch tb :
  NoDup (k_terminal_id <$> batch) → (∀ k, k ∈ batch → checkpoint_ready tb k) →
  ∃ n tb', commit_checkpoints now batch tb = Ok (n, tb')
    ∧ (∀ k log e d, k ∈ batch → stored_repr log e d (k_terminal_id k) tb → checkpoint_for log d k →
         e ≤ k_earliest_offset k →
         stored_repr log (k_earliest_offset k) (k_durable_offset k) (k_terminal_id k) tb')
    ∧ (∀ id, id ∉ (k_terminal_id <$> batch) →
         output_of tb' id = output_of tb id ∧ tb_terminals tb' !! id = tb_terminals tb !! id).
Proof.
  revert tb. induction batch as [|k batch IH]; intros tb Hnd Hready.
  { exists 0, tb. split_and!; [done| |done]. intros k ????%elem_of_nil. done. }
  rewrite fmap_cons, NoDup_cons in Hnd. destruct Hnd as [Hk Hnd]. cbn [commit_checkpoints].
  destruct (Hready k) as (log & e & d & Hst & Hck & He); [by left|].
  destruct (commit_one_spec now k tb log e d Hst Hck He) as (n & tb1 & Hone & _ & Hother).
  assert (∀ k', k' ∈ batch → k_terminal_id k' ≠ k_terminal_id k) as Hne.
  { intros k' Hk' Heq. apply Hk. rewrite <- Heq. by apply list_elem_of_fmap_2. }
  destruct (IH tb1 Hnd) as (m & tb' & Hrest & Hbatch & Hout).
  { intros k' Hk'. destruct (Hready k') as (log' & e' & d' & Hst' & ?); [by right|].
    exists log', e', d'. split; [|done]. by eapply stored_repr_other; [apply Hother, Hne..|]. }
  exists (n + m), tb'. rewrite Hone. cbn [res_bind]. rewrite Hrest. cbn [res_bind]. split_and!; [done| |].
  - intros k' log' e' d' [->|Hk']%elem_of_cons Hst' Hck' He'.
    + destruct (commit_one_spec now k tb log' e' d' Hst' Hck' He') as (n' & tb1' & Heq & Hst1 & _).
      rewrite Hone in Heq. simplify_eq.
      eapply stored_repr_other; [apply Hout..|]; done.
    + apply (Hbatch k' log' e' d'); [done| |done|done].
      by eapply stored_repr_other; [apply Hother, Hne..|].
  - rewrite fmap_cons. intros id [Hid1 Hid2]%not_elem_of_cons.
    destruct (Hout id Hid2) as [-> ->]. by apply Hother.
Qed.

Lemma clone_batch_id batch : clone_batch batch = batch.
Proof. unfold clone_batch. induction batch as [|[] batch IH]; [done|]. rewrite fmap_cons, IH. done. Qed.

(** The retries end in a commit of the batch as it was taken, or in nothing. *)
Lemma commit_attempts_spec P between now batch max_backoff remaining attempt backoff last_error logs g r slept g' :
  (∀ n logs g, flush_inv logs g → ∃ logs', others_ok P logs g logs' (between n g)) →
  flush_inv logs g →
  commit_attempts between now batch max_backoff remaining attempt backoff last_error g = (r, slept, g') →
  (length slept ≤ remaining)%nat ∧
  ∃ logs' gm fs, others_ok P logs g logs' gm
    ∧ match r with
      | Ok n => ∃ tb, commit_checkpoints now batch (g_db gm) = Ok (n, tb) ∧ g' = put_db tb (put_faults fs gm)
      | Err _ => g' = gm
      end.
Proof.
  intros Hbetween. revert attempt backoff last_error logs g r slept g'.
  induction remaining as [|remaining IH]; intros attempt backoff last_error logs g r slept g' Hinv; cbn [commit_attempts].
  { intros [= <- <- <-]. split; [done|]. exists logs, g, []. split; [by apply others_ok_refl|done]. }
  destruct (Hbetween attempt logs g Hinv) as (logs1 & Ho1). set (g1 := between attempt g) in *. clearbody g1.
  destruct (db_call _ g1) as [[n|e] g2] eqn:Hdb; apply db_call_inv in Hdb as (tb & fs & Hg2 & Hr).
  - rewrite clone_batch_id in Hr. intros [= <- <- <-]. split; [cbn; lia|].
    exists logs1, g1, fs. split; [done|]. by exists tb.
  - subst tb. assert (others_ok P logs g logs1 g2) as Ho2.
    { eapply others_ok_trans; [apply Ho1|]. subst g2. split; [apply flush_inv_db, Ho1| |done].
      intros id loc h HP Hid Hh. apply (others_ok_refl P _ _ (oo_inv _ _ _ _ _ Ho1)); done. }
    assert (∀ backoff r slept g', commit_attempts between now batch max_backoff remaining (S attempt) backoff (Some e) g2
       = (r, slept, g') → (length slept ≤ remaining)%nat ∧ ∃ logs' gm fs, others_ok P logs g logs' gm
        ∧ match r with
          | Ok n => ∃ tb, commit_checkpoints now batch (g_db gm) = Ok (n, tb) ∧ g' = put_db tb (put_faults fs gm)
          | Err _ => g' = gm
          end) as Hrest.
    { intros b r1 sl1 g3 Hc. destruct (IH _ _ _ _ _ _ _ _ (oo_inv _ _ _ _ _ Ho2) Hc) as (Hlen & l' & gm & fs' & Ho3 & Hres).
      split; [done|]. exists l', gm, fs'. split; [by eapply others_ok_trans|done]. }
    destruct remaining.
    + intros Hc. destruct (Hrest _ _ _ _ Hc) as [? ?]. split; [lia|done].
    + destruct (commit_attempts _ _ _ _ _ _ _ _ _) as [[r1 slept1] g3] eqn:Hc. intros [= <- <- <-].
      destruct (Hrest _ _ _ _ Hc) as [? ?]. split; [cbn; lia|done].
Qed.

(** ** Publishing *)

(** During publication the terminals in [todo] are stored further than their
    handles say. *)
Record publish_inv (logs : gmap Uuid (list byte)) (todo : list PendingCheckpoint) (g : Registry) : Prop :=
  mkPublishInv {
  pb_handles : handles_ok g;
  pb_repr : ∀ id loc h, g_terminals g !! id = Some loc → g_handles g !! loc = Some h →
    ∃ log e d, logs !! id = Some log ∧ term_repr log (h_inner h)
      ∧ e ≤ r_earliest (i_ring (h_inner h)) ∧ stored_repr log e d id (g_db g)
      ∧ i_durable_offset (h_inner h) ≤ d
      ∧ (∀ p, p ∈ todo → pc_terminal_id p = id → d = pc_durable_target p)
      ∧ (id ∉ (pc_terminal_id <$> todo) → d = i_durable_offset (h_inner h));
}.

Lemma commit_durable_repr log target closed i :
  term_repr log i → i_durable_offset i ≤ target → target ≤ len log →
  let i' := term_commit_durable target closed i in
  term_repr log i' ∧ i_durable_offset i' = target ∧ i_ring i' = i_ring i
  ∧ i_lifecycle i' = match closed with Some reason => Closed reason | None => i_lifecycle i end
  ∧ i_next_offset i' = i_next_offset i.
Proof.
  intros (Hr & Hn & Hd) Hle Ht. unfold term_commit_durable.
  set (i1 := if _ <? target then _ else i).
  assert (i_ring i1 = i_ring i ∧ i_next_offset i1 = i_next_offset i ∧ i_durable_offset i1 = target
    ∧ i_lifecycle i1 = i_lifecycle i) as (H1 & H2 & H3 & H4).
  { unfold i1. case_N; term_simpl; split_and!; try done. lia. }
  clearbody i1.
  set (i2 := if i_next_offset i1 <=? _ then _ else i1).
  assert (i_ring i2 = i_ring i ∧ i_next_offset i2 = i_next_offset i ∧ i_durable_offset i2 = target
    ∧ i_lifecycle i2 = i_lifecycle i) as (K1 & K2 & K3 & K4) by (unfold i2; case_N; done).
  clearbody i2. unfold term_repr.
  destruct closed; term_simpl; rewrite K1, K2, K3; split_and!; done.
Qed.

Lemma on_handle_handles_ok loc f g : handles_ok g → handles_ok (on_handle loc f g).
Proof.
  intros [H1 H2]. split; cbn.
  - intros id l (h & Hh & Hid)%H1. destruct (decide (loc = l)) as [->|].
    + rewrite lookup_alter_eq, Hh. by eexists.
    + rewrite lookup_alter_ne by done. by exists h.
  - intros l h. destruct (decide (loc = l)) as [->|].
    + rewrite lookup_alter_eq. intros (h' & ? & _)%fmap_Some. by eapply H2.
    + rewrite lookup_alter_ne by done. apply H2.
Qed.

(** Different terminals have different handles. *)
Lemma resident_inj g id id' loc :
  handles_ok g → g_terminals g !! id = Some loc → g_terminals g !! id' = Some loc → id = id'.
Proof.
  intros Hok H H'. destruct (hok_resident _ Hok _ _ H) as (h & ? & ?).
  destruct (hok_resident _ Hok _ _ H') as (h' & ? & ?). congruence.
Qed.

Lemma publish_step logs p todo g :
  publish_inv logs (p :: todo) g → NoDup (pc_terminal_id <$> p :: todo) →
  let g' := publish_checkpoint g p in
  publish_inv logs todo g' ∧ g_terminals g' = g_terminals g ∧ g_db g' = g_db g
  ∧ (∀ loc h, g_terminals g !! pc_terminal_id p = Some loc → g_handles g !! loc = Some h →
       ∃ h', g_handles g' !! loc = Some h' ∧ i_durable_offset (h_inner h') = pc_durable_target p
         ∧ i_next_offset (h_inner h') = i_next_offset (h_inner h)
         ∧ i_lifecycle (h_inner h') = match pc_close_reason p with
                                      | Some reason => Closed reason | None => i_lifecycle (h_inner h) end)
  ∧ (∀ id loc, id ≠ pc_terminal_id p → g_terminals g !! id = Some loc →
       g_handles g' !! loc = g_handles g !! loc).
Proof.
  intros [Hok Hrep] Hnd g'. rewrite fmap_cons, NoDup_cons in Hnd. destruct Hnd as [Hp Hnd].
  unfold g', publish_checkpoint, resident.
  destruct (g_terminals g !! pc_terminal_id p) as [loc|] eqn:Hres.
  2:{ split_and!; [|done|done|done|done]. split; [done|]. intros id l h Hid Hh.
      destruct (Hrep _ _ _ Hid Hh) as (log & e & d & ? & ? & ? & ? & ? & Ht & Hn). exists log, e, d.
      split_and!; [done..| |].
      - intros q Hq. apply Ht. by right.
      - intros Hnot. apply Hn. rewrite fmap_cons, not_elem_of_cons. split; [congruence|done]. }
  destruct (hok_resident _ Hok _ _ Hres) as (h & Hh & Hid).
  assert (∀ id l, id ≠ pc_terminal_id p → g_terminals g !! id = Some l → loc ≠ l) as Hne.
  { intros id l Hneq Hl ->. by rewrite (resident_inj _ _ _ _ Hok Hl Hres) in Hneq. }
  destruct (Hrep _ _ _ Hres Hh) as (log & e & d & Hlog & Hr & He & Hst & Hdur & Htarget & _).
  assert (d = pc_durable_target p) as -> by (apply Htarget; [by left|done]).
  assert (pc_durable_target p ≤ len log) as Hle by apply Hst.
  destruct (commit_durable_repr log _ (pc_close_reason p) _ Hr Hdur Hle) as (Hr' & Hd' & Hring & Hlife & Hnext).
  split_and!; [|done|done| |].
  - split; [by apply on_handle_handles_ok|]. intros id l h' Hl Hh'. cbn in Hl, Hh'.
    destruct (decide (id = pc_terminal_id p)) as [->|Hneq].
    + assert (l = loc) as -> by congruence. rewrite lookup_alter_eq, Hh in Hh'. injection Hh' as <-.
      exists log, e, (pc_durable_target p). cbn [h_inner]. rewrite Hring, Hd'.
      split_and!; [done..| |done]. intros q Hq Heq. destruct Hp. rewrite <- Heq. by apply list_elem_of_fmap_2.
    + rewrite lookup_alter_ne in Hh' by (by eapply Hne).
      destruct (Hrep _ _ _ Hl Hh') as (log' & e' & d' & ? & ? & ? & ? & ? & Ht & Hn). exists log', e', d'.
      split_and!; [done..| |].
      * intros q Hq. apply Ht. by right.
      * intros Hnot. apply Hn. rewrite fmap_cons, not_elem_of_cons. done.
  - intros l h' Hl Hh'. assert (l = loc) as -> by congruence. assert (h' = h) as -> by congruence.
    cbn. rewrite lookup_alter_eq, Hh. by eexists.
  - intros id l Hneq Hl. cbn. rewrite lookup_alter_ne; [done|by eapply Hne].
Qed.

Lemma publish_all logs todo g :
  publish_inv logs todo g → NoDup (pc_terminal_id <$> todo) →
  let g' := foldl publish_checkpoint g todo in
  publish_inv logs [] g' ∧ g_terminals g' = g_terminals g
  ∧ (∀ p loc h, p ∈ todo → g_terminals g !! pc_terminal_id p = Some loc → g_handles g !! loc = Some h →
       ∃ h', g_handles g' !! loc = Some h' ∧ i_durable_offset (h_inner h') = pc_durable_target p
         ∧ i_lifecycle (h_inner h') = match pc_close_reason p with
                                      | Some reason => Closed reason | None => i_lifecycle (h_inner h) end)
  ∧ (∀ id loc, id ∉ (pc_terminal_id <$> todo) → g_terminals g !! id = Some loc →
       g_handles g' !! loc = g_handles g !! loc).
Proof.
  revert g. induction todo as [|p todo IH]; intros g Hinv Hnd; cbn [foldl].
  { split_and!; [done|done| |done]. intros p ? ? ?%elem_of_nil. done. }
  destruct (publish_step _ _ _ _ Hinv Hnd) as (Hinv1 & Hterm & _ & Hthis & Hother).
  rewrite fmap_cons, NoDup_cons in Hnd. destruct Hnd as [Hp Hnd].
  destruct (IH _ Hinv1 Hnd) as (Hinv' & Hterm' & Hdone & Hrest).
  split_and!; [done|by rewrite Hterm'| |].
  - intros q loc h [->|Hq]%elem_of_cons Hloc Hh.
    + destruct (Hthis _ _ Hloc Hh) as (h' & Hh' & ? & _ & ?). exists h'. split; [|done].
      rewrite (Hrest (pc_terminal_id p)); [done|done|by rewrite Hterm].
    + assert (pc_terminal_id q ≠ pc_terminal_id p) as Hne.
      { intros Heq. apply Hp. rewrite <- Heq. by apply list_elem_of_fmap_2. }
      apply (Hdone q); [done|by rewrite Hterm|]. by rewrite (Hother (pc_terminal_id q)).
  - intros id loc. rewrite fmap_cons. intros [Hid1 Hid2]%not_elem_of_cons Hloc.
    rewrite (Hrest id); [by eapply Hother|done|by rewrite Hterm].
Qed.

(** ** What is pending *)

Definition is_pending (now : N) (g : Registry) (id : Uuid) : Prop :=
  ∃ p, p ∈ take_pending now g ∧ pc_terminal_id p = id.

Lemma take_checkpoint_id id now i p : term_take_checkpoint id now i = Some p → pc_terminal_id p = id.
Proof. unfold term_take_checkpoint. destruct (_ && _); [done|]. by intros [= <-]. Qed.

Lemma take_pending_elem now g p :
  p ∈ take_pending now g → handles_ok g →
  ∃ loc h, g_terminals g !! pc_terminal_id p = Some loc ∧ g_handles g !! loc = Some h
    ∧ term_take_checkpoint (pc_terminal_id p) now (h_inner h) = Some p.
Proof.
  intros Hp Hok. unfold take_pending, resident_handles in Hp.
  apply list_elem_of_omap in Hp as (loc & ([id loc'] & -> & Hin)%list_elem_of_fmap & Hp).
  apply elem_of_map_to_list in Hin. cbn in Hp.
  destruct (hok_resident _ Hok _ _ Hin) as (h & Hh & Hid). rewrite Hh in Hp. cbn in Hp.
  pose proof (take_checkpoint_id _ _ _ _ Hp) as Heq. rewrite Heq, Hid. exists loc', h.
  by rewrite <- Hid at 2.
Qed.

Lemma take_pending_nodup now g : handles_ok g → NoDup (pc_terminal_id <$> take_pending now g).
Proof.
  intros Hok. unfold take_pending, resident_handles.
  assert (∀ kv, kv ∈ map_to_list (g_terminals g) → g_terminals g !! kv.1 = Some kv.2) as Hin
    by (intros [id loc] H; by apply elem_of_map_to_list in H).
  pose proof (NoDup_fst_map_to_list (g_terminals g)) as Hnd.
  set (F := λ loc, h ← g_handles g !! loc; term_take_checkpoint (h_terminal_id h) now (h_inner h)).
  enough (∀ l, (∀ kv, kv ∈ l → g_terminals g !! kv.1 = Some kv.2) →
    sublist (pc_terminal_id <$> omap F l.*2) l.*1) as Hsub.
  { eapply sublist_NoDup; [done|by apply Hsub]. }
  intros l. induction l as [|[id loc] l IH]; intros Hl; [done|]. cbn.
  destruct (hok_resident _ Hok id loc) as (h & Hh & Hid); [apply (Hl (id, loc)); by left|].
  assert (sublist (pc_terminal_id <$> omap F l.*2) l.*1) as IH'
    by (apply IH; intros kv Hkv; apply Hl; by right).
  unfold F at 1. rewrite Hh. cbn. destruct (term_take_checkpoint _ _ _) as [p|] eqn:Hp.
  - apply take_checkpoint_id in Hp. cbn. rewrite Hp, Hid. by apply sublist_skip.
  - by apply sublist_cons.
Qed.

Lemma stored_repr_grow log data e d id tb :
  stored_repr log e d id tb → len (log ++ data) < two63 → stored_repr (log ++ data) e d id tb.
Proof.
  intros ((Hc & Hd & _) & Hrow) Hl. split; [|done]. split_and!; [by apply covers_grow|len_lia|done].
Qed.

Lemma checkpoint_of_pending_ids (ps : list PendingCheckpoint) : k_terminal_id <$> (checkpoint_of_pending <$> ps) = pc_terminal_id <$> ps.
Proof. by rewrite <- list_fmap_compose. Qed.

(** Storage has the batch, the handles do not know yet. *)
Lemma committed_publish_inv now g logs gm logs' tb fs n :
  flush_inv logs g → others_ok (is_pending now g) logs g logs' gm →
  commit_checkpoints now (checkpoint_of_pending <$> take_pending now g) (g_db gm) = Ok (n, tb) →
  publish_inv logs' (take_pending now g) (put_db tb (put_faults fs gm)).
Proof.
  intros Hinv [Hinv' Hres Hst] Hcommit. set (ps := take_pending now g) in *.
  pose proof (fl_handles _ _ Hinv) as Hok. pose proof (fl_handles _ _ Hinv') as Hok'.
  assert (∀ p, p ∈ ps → ∃ loc h log e, g_terminals g !! pc_terminal_id p = Some loc
    ∧ g_handles g !! loc = Some h ∧ logs !! pc_terminal_id p = Some log
    ∧ stored_repr log e (i_durable_offset (h_inner h)) (pc_terminal_id p) (g_db gm)
    ∧ checkpoint_for log (i_durable_offset (h_inner h)) (checkpoint_of_pending p)
    ∧ e ≤ pc_earliest_offset p ∧ pc_earliest_offset p = r_earliest (i_ring (h_inner h))) as Hpend.
  { intros p Hp. destruct (take_pending_elem _ _ _ Hp Hok) as (loc & h & Hloc & Hh & Htake).
    destruct (fl_repr _ _ Hinv _ _ _ Hloc Hh) as (log & e & Hlog & Hr & He & Hs).
    destruct (take_checkpoint_spec _ _ _ _ _ Hr Htake) as (_ & Hck & Hear & _). cbn in Hear.
    exists loc, h, log, e. split_and!; try done; [|lia]. apply Hst; [by exists p|done]. }
  destruct (commit_batch_spec now (checkpoint_of_pending <$> ps) (g_db gm)) as (n' & tb' & Heq & Hbatch & Hout).
  { rewrite checkpoint_of_pending_ids. by apply take_pending_nodup. }
  { intros k (p & -> & Hp)%list_elem_of_fmap. destruct (Hpend p Hp) as (loc & h & log & e & _ & _ & _ & ? & ? & ? & _).
    by exists log, e, (i_durable_offset (h_inner h)). }
  rewrite Hcommit in Heq. injection Heq as <- <-. rewrite checkpoint_of_pending_ids in Hout.
  split; [by split; apply Hok'|]. intros id loc h Hid Hh. cbn in Hid, Hh. cbn [g_db put_db].
  destruct (fl_repr _ _ Hinv' _ _ _ Hid Hh) as (log & e & Hlog & Hr & He & Hs).
  destruct (decide (id ∈ (pc_terminal_id <$> ps))) as [Hin|Hnot].
  - apply list_elem_of_fmap in Hin as (p & -> & Hp).
    destruct (Hpend p Hp) as (loc0 & h0 & log0 & e0 & Hloc0 & Hh0 & Hlog0 & Hs0 & Hck & He0 & Hear).
    destruct (Hres _ _ _ (ex_intro _ p (conj Hp eq_refl)) Hloc0 Hh0)
      as (Hloc & h1 & log1 & data & Hh1 & Hl1 & Hl1' & Hd1 & He1).
    assert (loc = loc0) as -> by congruence. assert (h1 = h) as -> by congruence.
    assert (log1 = log0) as -> by congruence. assert (log = log0 ++ data) as -> by congruence.
    exists (log0 ++ data), (pc_earliest_offset p), (pc_durable_target p).
    split_and!; [done|done|lia| | | |].
    + apply stored_repr_grow; [|by apply Hs].
      apply (Hbatch (checkpoint_of_pending p) log0 e0 (i_durable_offset (h_inner h0))); [|done..].
      by apply list_elem_of_fmap_2.
    + rewrite Hd1. apply Hck.
    + intros q Hq Hqid. assert (q = p) as ->; [|done].
      destruct (take_pending_elem _ _ _ Hq Hok) as (lq & hq & Hlq & Hhq & Htq).
      destruct (take_pending_elem _ _ _ Hp Hok) as (lp & hp & Hlp & Hhp & Htp). congruence.
    + intros Hnot. destruct Hnot. by apply list_elem_of_fmap_2.
  - exists log, e, (i_durable_offset (h_inner h)). split_and!; [done..| |done| |done].
    + by eapply stored_repr_other; [apply Hout..|].
    + intros p Hp Hpid. destruct Hnot. rewrite <- Hpid. by apply list_elem_of_fmap_2.
Qed.

(** ** Properties *)

(** One checkpoint, proved. *)
Lemma flush_once_agrees (between : nat → Registry → Registry) (now : N)
    (logs : gmap Uuid (list byte)) (g g' : Registry) (n : N) :
  flush_inv logs g →
  (∀ k logs g1, flush_inv logs g1 → ∃ logs', others_ok (is_pending now g) logs g1 logs' (between k g1)) →
  flush_once between now g = (n, g') →
  ∃ logs', flush_inv logs' g' ∧
    ∀ p, p ∈ take_pending now g → ∃ loc h h',
      g_terminals g !! pc_terminal_id p = Some loc ∧ g_handles g !! loc = Some h
      ∧ g_terminals g' !! pc_terminal_id p = Some loc ∧ g_handles g' !! loc = Some h'
      ∧ if g_storage_failing g'
        then i_durable_offset (h_inner h') = i_durable_offset (h_inner h)
        else i_durable_offset (h_inner h') = i_next_offset (h_inner h)
             ∧ (∀ reason, i_lifecycle (h_inner h) = Closing reason →
                  i_lifecycle (h_inner h') = Closed reason).
Proof.
  intros Hinv Hbetween. unfold flush_once. set (ps := take_pending now g) in *.
  pose proof (fl_handles _ _ Hinv) as Hok.
  destruct (is_empty ps) eqn:Hempty.
  { intros [= <- <-]. exists logs. split; [done|]. intros p Hp. destruct ps; [by apply not_elem_of_nil in Hp|done]. }
  unfold commit_with_retry.
  destruct (commit_attempts _ _ _ _ _ _ _ _ _) as [[r slept] g1] eqn:Hc.
  destruct (commit_attempts_spec (is_pending now g) _ _ _ _ _ _ _ _ logs _ _ _ _ Hbetween Hinv Hc)
    as (_ & logs' & gm & fs & Ho & Hr). clear Hc.
  destruct r as [m|e].
  - destruct Hr as (tb & Hcommit & ->).
    pose proof (committed_publish_inv _ _ _ _ _ _ fs _ Hinv Ho Hcommit) as Hpub.
    destruct (publish_all _ _ _ Hpub (take_pending_nodup _ _ Hok)) as (Hpub' & Hterm & Hdone & _).
    fold ps in Hpub', Hterm, Hdone. intros [= <- <-]. exists logs'. split.
    + split; [by destruct (pb_handles _ _ _ Hpub'); split|]. intros id loc h Hid Hh.
      destruct (pb_repr _ _ _ Hpub' _ _ _ Hid Hh) as (log & e & d & ? & ? & ? & Hs & _ & _ & Hd).
      exists log, e. rewrite <- Hd by apply not_elem_of_nil. done.
    + intros p Hp. destruct (take_pending_elem _ _ _ Hp Hok) as (loc & h & Hloc & Hh & Htake).
      destruct (fl_repr _ _ Hinv _ _ _ Hloc Hh) as (log & e & _ & Hrep & _).
      destruct (take_checkpoint_spec _ _ _ _ _ Hrep Htake) as (_ & _ & _ & Htarget & Hclose). cbn in Htarget, Hclose.
      destruct (oo_handles _ _ _ _ _ Ho _ _ _ (ex_intro _ p (conj Hp eq_refl)) Hloc Hh)
        as (Hloc1 & h1 & _ & _ & Hh1 & _).
      destruct (Hdone p loc h1 Hp Hloc1 Hh1) as (h' & Hh' & Hd & Hl).
      exists loc, h, h'. cbn. rewrite Hterm. split_and!; [done..| |].
      * rewrite Hd, Htarget. by destruct Hrep as (_ & -> & _).
      * intros reason Hreason. rewrite Hl, Hclose, Hreason. done.
  - subst g1. intros [= <- <-]. exists logs'. split.
    + destruct (oo_inv _ _ _ _ _ Ho) as [[H1 H2] H3]. by split.
    + intros p Hp. destruct (take_pending_elem _ _ _ Hp Hok) as (loc & h & Hloc & Hh & _).
      destruct (oo_handles _ _ _ _ _ Ho _ _ _ (ex_intro _ p (conj Hp eq_refl)) Hloc Hh)
        as (Hloc1 & h1 & _ & _ & Hh1 & _ & _ & Hd & _).
      by exists loc, h, h1.
Qed.

(** C10: a checkpoint acknowledges what it stored. Whatever the other tasks do
    while it runs and however often storage fails, memory and storage agree
    afterwards: a resident terminal's stored rows are exactly its output from
    the stored earliest offset, which is not after the start of its window, up
    to its [durable_offset]. Either the transaction committed, and every terminal
    that had work now calls exactly what was committed durable and a closing one
    is closed; or nothing was acknowledged and storage is marked failing. Output
    before the earliest offset is gone on both sides; that includes bytes that
    were never stored, when a window shrinks below what is dirty before the
    checkpoint, which then still moves [durable_offset] past them
    ([shrinking_skips_dirty_bytes]). *)
Theorem flush_once_sound (between : nat → Registry → Registry) (now : N)
    (logs : gmap Uuid (list byte)) (g g' : Registry) (n : N) :
  flush_inv logs g →
  (∀ k logs g1, flush_inv logs g1 → ∃ logs', others_ok (is_pending now g) logs g1 logs' (between k g1)) →
  flush_once between now g = (n, g') →
  ∃ logs', flush_inv logs' g' ∧
    ∀ p, p ∈ take_pending now g → ∃ loc h h',
      g_terminals g !! pc_terminal_id p = Some loc ∧ g_handles g !! loc = Some h
      ∧ g_terminals g' !! pc_terminal_id p = Some loc ∧ g_handles g' !! loc = Some h'
      ∧ if g_storage_failing g'
        then i_durable_offset (h_inner h') = i_durable_offset (h_inner h)
        else i_durable_offset (h_inner h') = i_next_offset (h_inner h)
             ∧ (∀ reason, i_lifecycle (h_inner h) = Closing reason →
                  i_lifecycle (h_inner h') = Closed reason).
Proof. by apply flush_once_agrees. Qed.

(** A resident terminal with one byte to commit. *)
Definition example_dirty : Registry :=
  let '(_, g) := get_or_load 7 example_stored in
  on_handle 0 (λ i, (term_append 5 2 [x63] 4 i).2) g.
Definition example_logs : gmap Uuid (list byte) := {[7 := [x61; x62; x63]]}.

Lemma example_dirty_inv : flush_inv example_logs example_dirty.
Proof.
  split; [split|].
  - intros id loc H.
    change (({[7 := 0]} : gmap N N) !! id = Some loc) in H. apply lookup_singleton_Some in H as [<- <-].
    eexists. split; [vm_compute; reflexivity|reflexivity].
  - intros loc h H. change (g_next_loc example_dirty) with 1.
    assert (loc = 0) as ->; [|done].
    assert (dom (g_handles example_dirty) = {[0]}) as Hd by (vm_compute; reflexivity).
    apply elem_of_dom_2 in H. rewrite Hd in H. set_solver.
  - intros id loc h H Hh.
    change (({[7 := 0]} : gmap N N) !! id = Some loc) in H. apply lookup_singleton_Some in H as [<- <-].
    vm_compute in Hh. injection Hh as <-.
    exists [x61; x62; x63], 0. split_and!; [reflexivity| |done|].
    + split_and!; [repeat split; vm_compute; congruence|done|done].
    + apply (stored_repr_grow [x61; x62] [x63] 0 2 7 example_tables example_stored_repr). done.
Qed.

Lemma flush_once_sound_witness :
  let g' := (flush_once (λ _ g, g) 9 example_dirty).2 in
  ∃ logs', flush_inv logs' g' ∧
    ∀ p, p ∈ take_pending 9 example_dirty → ∃ loc h h',
      g_terminals example_dirty !! pc_terminal_id p = Some loc ∧ g_handles example_dirty !! loc = Some h
      ∧ g_terminals g' !! pc_terminal_id p = Some loc ∧ g_handles g' !! loc = Some h'
      ∧ if g_storage_failing g'
        then i_durable_offset (h_inner h') = i_durable_offset (h_inner h)
        else i_durable_offset (h_inner h') = i_next_offset (h_inner h)
             ∧ (∀ reason, i_lifecycle (h_inner h) = Closing reason →
                  i_lifecycle (h_inner h') = Closed reason).
Proof.
  apply (flush_once_sound (λ _ g, g) 9 example_logs example_dirty _
           (flush_once (λ _ g, g) 9 example_dirty).1 example_dirty_inv); [|by destruct flush_once].
  intros _ logs g1 H. exists logs. by apply others_ok_refl.
Defined.

Lemma commit_attempts_retry now batch max_backoff errs attempt remaining backoff last_error g n tb fs :
  (length errs < remaining)%nat →
  g_faults g = (Some <$> errs) ++ fs → mjoin (head fs) = None →
  commit_checkpoints now batch (g_db g) = Ok (n, tb) →
  ∃ slept, commit_attempts (λ _ g, g) now batch max_backoff remaining attempt backoff last_error g
           = (Ok n, slept, put_db tb (put_faults (tail fs) g))
    ∧ length slept = length errs ∧ Forall (λ b, b ≤ N.max backoff max_backoff) slept.
Proof.
  revert attempt remaining backoff last_error g.
  induction errs as [|e errs IH]; intros attempt remaining backoff last_error g Hlt Hf Hfs Hc;
    (destruct remaining as [|remaining]; [cbn in Hlt; lia|]); cbn [commit_attempts]; unfold db_call; rewrite Hf.
  - cbn [fmap list_fmap app]. rewrite Hfs, clone_batch_id, Hc. by exists [].
  - cbn [fmap list_fmap app head mjoin option_join tail]. destruct remaining as [|remaining]; [cbn in Hlt; lia|].
    destruct (IH (S attempt) (S remaining) (N.min (backoff * 2) max_backoff) (Some e)
      (put_faults ((Some <$> errs) ++ fs) g)) as (slept & -> & Hlen & Hb); [cbn in Hlt; lia|done..|].
    exists (backoff :: slept). split_and!; [done|cbn; by rewrite Hlen|].
    constructor; [lia|]. eapply Forall_impl; [exact Hb|]. intros b Hle. cbn in *. lia.
Qed.

(** A transient storage failure is ridden out. If storage fails fewer
    times than there are attempts, the same batch commits on the next one, one
    backoff is slept per failure and none exceeds the configured bounds. *)
Theorem transient_failures_retried (now : N) (batch : list TerminalCheckpoint) (errs : list ApiError)
    (fs : list (option ApiError)) (g : Registry) (n : N) (tb : Tables) :
  N.of_nat (length errs) < sn_u32 keys.PERSISTENCE_COMMIT_RETRY_MAX_ATTEMPTS (g_settings g) →
  g_faults g = (Some <$> errs) ++ fs → mjoin (head fs) = None →
  commit_checkpoints now batch (g_db g) = Ok (n, tb) →
  ∃ slept, commit_with_retry (λ _ g, g) now batch g = (Ok n, slept, put_db tb (put_faults (tail fs) g))
    ∧ length slept = length errs
    ∧ Forall (λ b, b ≤ N.max (ms (sn_duration_ms keys.PERSISTENCE_COMMIT_RETRY_INITIAL_MS (g_settings g)))
                         (ms (sn_duration_ms keys.PERSISTENCE_COMMIT_RETRY_MAX_MS (g_settings g)))) slept.
Proof.
  intros Hlt Hf Hfs Hc. unfold commit_with_retry. eapply commit_attempts_retry; [lia|done..].
Qed.

Lemma transient_failures_retried_witness :
  let e := api_storage_unavailable (lit "busy") in
  let g := put_faults [Some e; Some e] example_dirty in
  let batch := checkpoint_of_pending <$> take_pending 9 example_dirty in
  ∃ slept, (commit_with_retry (λ _ g, g) 9 batch g).1 = (Ok 2, slept) ∧ length slept = 2%nat.
Proof.
  intros e g batch.
  destruct (commit_checkpoints 9 batch (g_db g)) as [[n tb]|] eqn:Hc; [|by vm_compute in Hc].
  assert (n = 2) as -> by (vm_compute in Hc; congruence).
  destruct (transient_failures_retried 9 batch [e; e] [] g 2 tb)
    as (slept & Hr & Hlen & _); [vm_compute; reflexivity|reflexivity|reflexivity|exact Hc|].
  exists slept. rewrite Hr. split; [reflexivity|exact Hlen].
Defined.

(** Dirty output is never left lying. When the loop decides not to flush,
    nothing is closing, the dirty total is below both byte thresholds and the
    oldest dirty byte is younger than the flush interval, and it sleeps at
    least a millisecond and no longer than until that byte reaches the
    interval (or a millisecond, if that is later). *)
Theorem idle_sleep_bounded (sn : Snapshot) (stats : DirtyStats) :
  choose_trigger sn stats = None →
  let interval := ms (sn_duration_ms keys.PERSISTENCE_FLUSH_INTERVAL_MS sn) in
  ds_has_pending_close stats = false
  ∧ ds_total_dirty_bytes stats < sn_u64 keys.PERSISTENCE_FLUSH_BYTES sn
  ∧ ds_total_dirty_bytes stats < sn_u64 keys.PERSISTENCE_MEMORY_PRESSURE_DIRTY_BYTES sn
  ∧ match ds_oldest_dirty stats with
    | Some age => age < interval ∧ ms 1 ≤ flush_wait sn stats
                  ∧ age + flush_wait sn stats ≤ N.max interval (age + ms 1)
    | None => flush_wait sn stats = interval
    end.
Proof.
  unfold choose_trigger, flush_wait. cbv zeta.
  set (interval := ms (sn_duration_ms _ sn)). clearbody interval.
  destruct (ds_has_pending_close stats); [done|].
  destruct (N.leb_spec (sn_u64 keys.PERSISTENCE_MEMORY_PRESSURE_DIRTY_BYTES sn) (ds_total_dirty_bytes stats)); [done|].
  destruct (N.leb_spec (sn_u64 keys.PERSISTENCE_FLUSH_BYTES sn) (ds_total_dirty_bytes stats)); [done|].
  destruct (ds_oldest_dirty stats) as [age|]; cbn [from_option]; [|done].
  destruct (N.leb_spec interval age); [done|]. intros _. split_and!; try done; lia.
Qed.

Lemma idle_sleep_bounded_witness :
  let stats := mkDirtyStats 10 (Some 1000) false 10 in
  ds_has_pending_close stats = false
  ∧ ds_total_dirty_bytes stats < sn_u64 keys.PERSISTENCE_FLUSH_BYTES snapshot_default
  ∧ ds_total_dirty_bytes stats < sn_u64 keys.PERSISTENCE_MEMORY_PRESSURE_DIRTY_BYTES snapshot_default
  ∧ (1000 < 5000000 ∧ ms 1 ≤ flush_wait snapshot_default stats
     ∧ 1000 + flush_wait snapshot_default stats ≤ N.max 5000000 (1000 + ms 1)).
Proof. exact (idle_sleep_bounded snapshot_default (mkDirtyStats 10 (Some 1000) false 10) eq_refl). Defined.
