(* ===== verification/StateMonad.v ===== *)
(** * State passing for the connection handlers

    [StM S A] is a computation on a connection's state; an early [return] in
    the source is the end of a branch here. *)

From S2P Require Export Prelude.

Definition StM (S A : Type) : Type := S → A * S.

#[export] Instance StM_ret {S} : MRet (StM S) := λ A a s, (a, s).
#[export] Instance StM_bind {S} : MBind (StM S) := λ A B k m s, let '(a, s) := m s in k a s.

Definition st_gets {S A} (f : S → A) : StM S A := λ s, (f s, s).
Definition st_modify {S} (f : S → S) : StM S () := λ s, ((), f s).

Create Rewrite HintDb stm.
Section laws.
Context {S A B : Type} (s : S).
Lemma st_bind (m : StM S A) (k : A → StM S B) : (m ≫= k) s = let '(a, s) := m s in k a s.
Proof. done. Qed.
Lemma st_bind_gets (f : S → A) (k : A → StM S B) : (st_gets f ≫= k) s = k (f s) s.
Proof. done. Qed.
Lemma st_bind_modify (f : S → S) (k : () → StM S B) : (st_modify f ≫= k) s = k () (f s).
Proof. done. Qed.
Lemma st_bind_ret (a : A) (k : A → StM S B) : ((mret a : StM S A) ≫= k) s = k a s.
Proof. done. Qed.
Lemma st_ret (a : A) : (mret a : StM S A) s = (a, s).
Proof. done. Qed.
End laws.
#[export] Hint Rewrite @st_bind_gets @st_bind_modify @st_bind_ret @st_ret : stm.

(** ** Parts of the state a computation leaves alone *)

Definition preserves {S A X} (f : S → X) (m : StM S A) : Prop := ∀ s r s', m s = (r, s') → f s' = f s.

Create HintDb preserves.
Section preserves.
Context {S X : Type} (f : S → X).
Lemma preserves_ret {A} (a : A) : preserves f (mret a).
Proof. by intros s r s' [= _ <-]. Qed.
Lemma preserves_gets {A} (h : S → A) : preserves f (st_gets h).
Proof. by intros s r s' [= _ <-]. Qed.
Lemma preserves_modify (h : S → S) : (∀ s, f (h s) = f s) → preserves f (st_modify h).
Proof. intros Hh s r s' [= _ <-]. apply Hh. Qed.
Lemma preserves_bind {A B} (m : StM S A) (k : A → StM S B) :
  preserves f m → (∀ a, preserves f (k a)) → preserves f (m ≫= k).
Proof.
  intros Hm Hk s r s'. rewrite st_bind. destruct (m s) as [a s1] eqn:E. intros E'.
  rewrite (Hk _ _ _ _ E'). by eapply Hm.
Qed.
End preserves.
#[export] Hint Resolve preserves_ret preserves_gets : preserves.
Ltac solve_preserves :=
  repeat first
    [ solve [auto with preserves]
    | apply preserves_bind; [|intros ?]
    | match goal with |- context [match ?x with _ => _ end] => destruct x eqn:? end ].
