(* ===== verification/Conversation.v ===== *)
(** * Talking to a peer

    Both connection handlers thread a state with a [WsWriter] in it.
    [HasWriter] is what they share: the sends of [wsio.rs] are defined on it,
    and so is a small logic for what a handler writes. [talks] says that a
    computation queues no close frame, [orderly_if goes] that it queues one
    only as its last message and only when it ends the connection. *)

From S2P Require Export StateMonad Wsio.

Open Scope N_scope.
Open Scope hype_scope.

Class HasWriter (S : Type) := {
  writer : S → WsWriter;
  with_writer : WsWriter → S → S;
}.
Class WriterLaws (S : Type) `{HasWriter S} := {
  writer_with : ∀ w s, writer (with_writer w s) = w;
}.

Section sends.
Context {S : Type} `{HasWriter S}.

Definition send (m : ServerMessage) : StM S bool := λ s,
  let '(w, ok) := w_send m (writer s) in (ok, with_writer w s).
Definition send_binary (bytes : list byte) : StM S bool := λ s,
  let '(w, ok) := w_send_binary bytes (writer s) in (ok, with_writer w s).
Definition send_ping : StM S bool := λ s,
  let '(w, ok) := w_ping (writer s) in (ok, with_writer w s).
Definition close_with (code : N) (reason : string) : StM S () :=
  st_modify (λ s, with_writer (w_close code reason (writer s)) s).
Definition fail_with (m : ServerMessage) (code : N) (reason : string) : StM S () :=
  st_modify (λ s, with_writer (w_fail m code reason (writer s)) s).
End sends.

(** ** What is said *)

(** A close frame is the last thing said, if it is said at all. *)
Definition close_last (ms : list WsOut) : Prop :=
  ∀ before o after, ms = before ++ o :: after → is_close o = true → after = [].
Definition no_close (ms : list WsOut) : Prop := Forall (λ o, is_close o = false) ms.

Lemma close_last_no_close ms : no_close ms → close_last ms.
Proof.
  intros H before o after -> Ho. apply Forall_app in H as [_ [H _]%Forall_cons]. congruence.
Qed.
Lemma close_last_app ms ms' : no_close ms → close_last ms' → close_last (ms ++ ms').
Proof.
  intros H H' before o after Heq Ho. revert before Heq. induction H as [|x ms Hx _ IH]; intros before Heq.
  - by eapply H'.
  - destruct before as [|y before]; injection Heq as -> Heq; [congruence|]. by eapply IH.
Qed.
Lemma close_last_single o : close_last [o].
Proof. intros [|? []] ? ? [= ? ?] ?; done. Qed.

Lemma w_fail_sent m code reason w :
  w_gone w = false → w_sent (w_fail m code reason w) = w_sent w ++ [OText m; OClose code reason].
Proof.
  destruct w as [sent gone]. cbn. intros ->. cbn. by rewrite <- app_assoc.
Qed.

Create HintDb talk.

Section logic.
Context {S : Type} `{WriterLaws S}.

(** The writer after some messages. *)
Definition said (ms : list WsOut) (s s' : S) : Prop :=
  w_gone (writer s') = w_gone (writer s) ∧ w_sent (writer s') = w_sent (writer s) ++ ms.

(** Every message satisfies [P]. *)
Definition says {A} (P : WsOut → Prop) (m : StM S A) : Prop :=
  ∀ s r s', m s = (r, s') → ∃ ms, said ms s s' ∧ Forall P ms.
Definition orderly_if {A} (goes : A → bool) (m : StM S A) : Prop :=
  ∀ s a s', m s = (a, s') → ∃ ms, said ms s s' ∧ if goes a then no_close ms else close_last ms.

Lemma said_nil s : said [] s s.
Proof. split; [done|by rewrite app_nil_r]. Qed.
Lemma said_same s s' : writer s' = writer s → said [] s s'.
Proof. intros E. unfold said. by rewrite E, app_nil_r. Qed.
Lemma said_app ms ms' s s1 s' : said ms s s1 → said ms' s1 s' → said (ms ++ ms') s s'.
Proof. intros [H1 H2] [H3 H4]. split; [congruence|]. by rewrite H4, H2, app_assoc. Qed.

Section says.
Context (P : WsOut → Prop).

Lemma says_silent {A} (m : StM S A) : (∀ s, writer (m s).2 = writer s) → says P m.
Proof.
  intros Hm s r s' E. exists []. split; [|constructor]. apply said_same. by rewrite <- (Hm s), E.
Qed.
Lemma says_ret {A} (a : A) : says P (mret a).
Proof. by apply says_silent. Qed.
Lemma says_gets {A} (f : S → A) : says P (st_gets f).
Proof. by apply says_silent. Qed.
Lemma says_modify (f : S → S) : (∀ s, writer (f s) = writer s) → says P (st_modify f).
Proof. intros Hf. apply says_silent, Hf. Qed.
Lemma says_bind {A B} (m : StM S A) (k : A → StM S B) :
  says P m → (∀ a, says P (k a)) → says P (m ≫= k).
Proof.
  intros Hm Hk s r s'. rewrite st_bind. destruct (m s) as [a s1] eqn:E. intros E'.
  destruct (Hm _ _ _ E) as (ms & Hs & Hc). destruct (Hk _ _ _ _ E') as (ms' & Hs' & Hc').
  exists (ms ++ ms'). split; [by eapply said_app|by apply Forall_app].
Qed.

(** Pushing onto the queue. *)
Lemma said_push o s :
  said (if w_gone (writer s) then [] else [o]) s (with_writer (w_push o (writer s)).1 s).
Proof.
  unfold said. rewrite writer_with. unfold w_push. destruct (w_gone (writer s)) eqn:Hg; cbn.
  - by rewrite Hg, app_nil_r.
  - done.
Qed.
Lemma says_push (o : WsOut) :
  P o → says P (λ s, let '(w, ok) := w_push o (writer s) in (ok, with_writer w s)).
Proof.
  intros Ho s r s'. pose proof (said_push o s) as Hs. destruct (w_push o (writer s)) as [w ok].
  intros [= _ <-]. eexists. split; [exact Hs|]. destruct (w_gone _); by repeat constructor.
Qed.
Lemma says_send m : P (OText m) → says P (send m).
Proof. apply (says_push (OText m)). Qed.
Lemma says_send_binary bytes : P (OBinary bytes) → says P (send_binary bytes).
Proof. apply (says_push (OBinary bytes)). Qed.
Lemma says_send_ping : P OPing → says P send_ping.
Proof. apply (says_push OPing). Qed.
Lemma says_close code reason : P (OClose code reason) → says P (close_with code reason).
Proof.
  intros Ho s r s' [= _ <-]. eexists. split; [apply said_push|]. destruct (w_gone _); by repeat constructor.
Qed.
Lemma said_fail m code reason s :
  said (if w_gone (writer s) then [] else [OText m; OClose code reason]) s
    (with_writer (w_fail m code reason (writer s)) s).
Proof.
  unfold said. rewrite writer_with. destruct (writer s) as [sent []]; cbn.
  - by rewrite app_nil_r.
  - by rewrite <- app_assoc.
Qed.
Lemma says_fail m code reason : P (OText m) → P (OClose code reason) → says P (fail_with m code reason).
Proof.
  intros Hm Ho s r s' [= _ <-]. eexists. split; [apply said_fail|]. destruct (w_gone _); by repeat constructor.
Qed.
End says.

Abbreviation talks := (says (λ o, is_close o = false)).

Section orderly.
Context {A : Type} (goes : A → bool).

Lemma orderly_talks m : talks m → orderly_if goes m.
Proof.
  intros Hm s a s' E. destruct (Hm _ _ _ E) as (ms & ? & ?). exists ms.
  destruct (goes a); auto using close_last_no_close.
Qed.
Lemma orderly_bind {B} (m : StM S B) (k : B → StM S A) :
  talks m → (∀ b, orderly_if goes (k b)) → orderly_if goes (m ≫= k).
Proof.
  intros Hm Hk s a s'. rewrite st_bind. destruct (m s) as [b s1] eqn:E. intros E'.
  destruct (Hm _ _ _ E) as (ms & Hs & Hc). destruct (Hk _ _ _ _ E') as (ms' & Hs' & Hc').
  exists (ms ++ ms'). split; [by eapply said_app|].
  destruct (goes a); [by apply Forall_app|by apply close_last_app].
Qed.
Lemma orderly_assoc {B C} (m : StM S B) (k : B → StM S C) (h : C → StM S A) :
  orderly_if goes (m ≫= λ b, k b ≫= h) → orderly_if goes ((m ≫= k) ≫= h).
Proof. intros Hm s a s' E. apply (Hm s). revert E. rewrite !st_bind. by destruct (m s). Qed.
(** Going on only after something that may have ended the connection. *)
Lemma orderly_then {B} (goes' : B → bool) (m : StM S B) (k : B → StM S A) :
  orderly_if goes' m →
  (∀ b, goes' b = true → orderly_if goes (k b)) →
  (∀ b s, goes' b = false → goes (k b s).1 = false ∧ writer (k b s).2 = writer s) →
  orderly_if goes (m ≫= k).
Proof.
  intros Hm Hk Hend s a s'. rewrite st_bind. destruct (m s) as [b s1] eqn:E. intros E'.
  destruct (Hm _ _ _ E) as (ms & Hs & Hc). destruct (goes' b) eqn:Hb.
  - destruct (Hk _ Hb _ _ _ E') as (ms' & Hs' & Hc'). exists (ms ++ ms'). split; [by eapply said_app|].
    destruct (goes a); [by apply Forall_app|by apply close_last_app].
  - destruct (Hend b s1 Hb) as [Hg Hw]. rewrite E' in Hg, Hw. cbn in Hg, Hw. exists ms.
    rewrite Hg. split; [|done]. destruct Hs as [H1 H2]. unfold said. by rewrite Hw.
Qed.

(** Closing ends the connection. *)
Lemma orderly_close code reason a : goes a = false → orderly_if goes (_ ← close_with code reason; mret a).
Proof.
  intros Ha s a' s' [= <- <-]. eexists. split; [apply said_push|]. rewrite Ha.
  destruct (w_gone _); [by intros [] ? ?|apply close_last_single].
Qed.
Lemma orderly_fail m code reason a : goes a = false → orderly_if goes (_ ← fail_with m code reason; mret a).
Proof.
  intros Ha s a' s' [= <- <-]. rewrite Ha. eexists. split; [apply said_fail|].
  destruct (w_gone _); [by intros [] ? ?|].
  intros [|? [|? []]] ? ? [= ? ?] ?; subst; done.
Qed.
End orderly.
End logic.
Abbreviation talks := (says (λ o, is_close o = false)).

(** Connections whose handlers answer whether to go on. *)
Abbreviation orderly := (orderly_if (λ b : bool, b)).

Lemma orderly_seq {S} `{WriterLaws S} (m k : StM S bool) :
  orderly m → orderly k → orderly (go_on ← m; if negb go_on then mret false else k).
Proof.
  intros Hm Hk. apply orderly_then with (λ b : bool, b); [done| |]; by intros [].
Qed.

#[export] Hint Extern 1 (says _ _) =>
  first [apply says_ret | apply says_gets | by apply says_send | by apply says_send_binary
        | by apply says_send_ping | by apply says_close | by apply says_fail] : talk.
#[export] Hint Extern 2 (orderly_if _ _) =>
  first [apply orderly_close; reflexivity | apply orderly_fail; reflexivity] : talk.
#[export] Hint Extern 5 (orderly_if _ _) => solve [apply orderly_talks; auto with talk] : talk.

(** Follow a handler's structure. *)
Ltac solve_says :=
  repeat first
    [ solve [auto with talk]
    | apply says_bind; [solve [auto with talk] | intros ?]
    | apply says_bind; [|intros ?]
    | case_goal ].
Ltac solve_orderly :=
  repeat first
    [ solve [auto with talk]
    | apply orderly_seq
    | apply orderly_bind; [solve [auto with talk] | intros ?]
    | apply orderly_bind; [solve [solve_says] | intros ?]
    | case_goal ].
