(* ===== verification/PublisherConn.v ===== *)
(** * The publisher connection ([server/src/relay/publisher.rs])

    [Session] is the state of one connection and [Conn] that state beside the
    shared registry. One definition per method of [impl Session]; the result is
    whether the connection goes on. Other tasks run while a method waits:
    [apply_backpressure] takes what they do to the registry during its wait.
    [pub_event] is one arm of the loop of [handle]. Metrics and tracing are
    left out. *)

From S2P Require Export Flush Conversation Frames.

Open Scope N_scope.
Open Scope hype_scope.

(** What the session uses of a [Device] row. *)
Record Device := mkDevice {
  dev_device_id : Uuid;
  dev_identity_id : text;
  dev_revoked_at : option N;
}.

Record NegotiatedLimits := mkNegotiatedLimits {
  nl_max_frame_bytes : N;
  nl_max_unacked_bytes : N;
  nl_max_control_bytes : N;
}.
Definition limits_from (sn : Snapshot) : NegotiatedLimits :=
  mkNegotiatedLimits (sn_u64 keys.LIMITS_MAX_OUTPUT_FRAME_BYTES sn)
    (sn_u64 keys.LIMITS_MAX_UNACKED_OUTPUT_BYTES sn) (sn_u64 keys.LIMITS_MAX_CONTROL_MESSAGE_BYTES sn).
Definition limits_effective (l : NegotiatedLimits) (sn : Snapshot) : NegotiatedLimits :=
  mkNegotiatedLimits
    (N.min (nl_max_frame_bytes l) (sn_u64 keys.LIMITS_MAX_OUTPUT_FRAME_BYTES sn))
    (N.min (nl_max_unacked_bytes l) (sn_u64 keys.LIMITS_MAX_UNACKED_OUTPUT_BYTES sn))
    (N.min (nl_max_control_bytes l) (sn_u64 keys.LIMITS_MAX_CONTROL_MESSAGE_BYTES sn)).

Definition OVERSIZE_STRIKES : N := 3.

Record Session := mkSession {
  se_device : Device;
  se_connection_id : text;
  se_writer : WsWriter;
  se_negotiated : NegotiatedLimits;
  se_version : ProtocolVersion;
  se_terminals : gmap Uuid N;
  se_ack_tasks : list N;
  se_oversize_strikes : N;
  se_bytes_in : N;
  se_frames_in : N;
}.

Definition upd_writer (v : WsWriter) (s : Session) : Session :=
  mkSession (se_device s) (se_connection_id s) v (se_negotiated s) (se_version s) (se_terminals
    s) (se_ack_tasks s) (se_oversize_strikes s) (se_bytes_in s) (se_frames_in s).
Definition upd_terminals (v : gmap Uuid N) (s : Session) : Session :=
  mkSession (se_device s) (se_connection_id s) (se_writer s) (se_negotiated s) (se_version s) v
    (se_ack_tasks s) (se_oversize_strikes s) (se_bytes_in s) (se_frames_in s).
Definition upd_ack_tasks (v : list N) (s : Session) : Session :=
  mkSession (se_device s) (se_connection_id s) (se_writer s) (se_negotiated s) (se_version s)
    (se_terminals s) v (se_oversize_strikes s) (se_bytes_in s) (se_frames_in s).
Definition upd_oversize_strikes (v : N) (s : Session) : Session :=
  mkSession (se_device s) (se_connection_id s) (se_writer s) (se_negotiated s) (se_version s)
    (se_terminals s) (se_ack_tasks s) v (se_bytes_in s) (se_frames_in s).
Definition upd_bytes_in (v : N) (s : Session) : Session :=
  mkSession (se_device s) (se_connection_id s) (se_writer s) (se_negotiated s) (se_version s)
    (se_terminals s) (se_ack_tasks s) (se_oversize_strikes s) v (se_frames_in s).
Definition upd_frames_in (v : N) (s : Session) : Session :=
  mkSession (se_device s) (se_connection_id s) (se_writer s) (se_negotiated s) (se_version s)
    (se_terminals s) (se_ack_tasks s) (se_oversize_strikes s) (se_bytes_in s) v.

Record Conn := mkConn {
  cn_session : Session;
  cn_reg : Registry;
}.
Abbreviation ConnM := (StM Conn).

Definition on_session (f : Session → Session) : ConnM () :=
  st_modify (λ c, mkConn (f (cn_session c)) (cn_reg c)).
Definition session_gets {A} (f : Session → A) : ConnM A := st_gets (λ c, f (cn_session c)).
Definition reg_gets {A} (f : Registry → A) : ConnM A := st_gets (λ c, f (cn_reg c)).
Definition on_reg (f : Registry → Registry) : ConnM () :=
  st_modify (λ c, mkConn (cn_session c) (f (cn_reg c))).
Definition reg_call {A} (m : Registry → A * Registry) : ConnM A := λ c,
  let '(a, g) := m (cn_reg c) in (a, mkConn (cn_session c) g).

#[export] Instance conn_writer : HasWriter Conn := {|
  writer c := se_writer (cn_session c);
  with_writer w c := mkConn (upd_writer w (cn_session c)) (cn_reg c);
|}.
#[export] Instance conn_writer_laws : WriterLaws Conn.
Proof. by split. Qed.

(** [principal_revoked]: [answer] is what [get_device] answers. *)
Definition principal_revoked (answer : ApiResult (option Device)) : bool :=
  match answer with
  | Ok (Some device) => bool_decide (is_Some (dev_revoked_at device))
  | Ok None => true
  | Err _ => false
  end.

Definition lookup (terminal_id : Uuid) : ConnM (option N) :=
  known ← session_gets (λ s, se_terminals s !! terminal_id);
  match known with
  | Some loc => mret (Some loc)
  | None =>
      loaded ← reg_call (get_or_load terminal_id);
      match loaded with
      | Ok (Some loc) =>
          owner ← reg_gets (λ g, h_device_id <$> handle_at loc g);
          mine ← session_gets (λ s, dev_device_id (se_device s));
          if negb (bool_decide (owner = Some mine)) then mret None
          else
            _ ← on_session (λ s, upd_terminals (<[terminal_id := loc]> (se_terminals s)) s);
            mret (Some loc)
      | Ok None | Err _ => mret None
      end
  end.

(** The headroom a frame needs below the window. *)
Definition target_dirty_headroom (payload_len capacity : N) (limits : NegotiatedLimits) : N :=
  if capacity <=? payload_len then 0
  else N.min (nl_max_unacked_bytes limits) capacity - payload_len.

(** [others] is what the other tasks do to the registry until the wait for
    durability ends. *)
Definition apply_backpressure (others : Registry → Registry) (loc : N) (terminal_id : Uuid)
    (payload_len capacity : N) (limits : NegotiatedLimits) : ConnM bool :=
  let headroom := target_dirty_headroom payload_len capacity limits in
  dirty ← reg_gets (dirty_at loc);
  if dirty <=? headroom then mret true
  else
    _ ← on_reg request_flush;
    _ ← on_reg others;
    dirty ← reg_gets (dirty_at loc);
    if dirty <=? headroom then mret true
    else
      failing ← reg_gets g_storage_failing;
      _ ← (if (failing : bool) then
             fail_with (msg_terminal_error STORAGE_UNAVAILABLE
                          (lit "durable storage is unavailable; output cannot be acknowledged") terminal_id)
               close.STORAGE_UNAVAILABLE "storage_unavailable"
           else
             fail_with (msg_terminal_error LIMIT_EXCEEDED
                          (lit "publisher exceeded its unacknowledged output window") terminal_id)
               close.LIMIT_EXCEEDED "limit_exceeded");
      mret false.

(** [handle.append] on the shared handle. *)
Definition append_at (now loc expected_offset : N) (payload : list byte) (capacity : N) (g : Registry)
    : AppendOutcome * Registry :=
  match inner_at loc g with
  | Some i =>
      let '(outcome, i') := term_append now expected_offset payload capacity i in
      (outcome, on_handle loc (λ _, i') g)
  | None => (NotOpen, g)
  end.

(** [on_binary] once the frame may be appended. *)
Definition append_frame (now loc : N) (frame : PublisherOutputFrame) (capacity : N) (sn : Snapshot)
    : ConnM bool :=
  outcome ← reg_call (append_at now loc (pof_expected_offset frame) (pof_payload frame) capacity);
  match outcome with
  | Accepted next_offset durable_offset =>
      _ ← on_session (λ s, upd_bytes_in (se_bytes_in s +₆₄ len (pof_payload frame))
                             (upd_frames_in (se_frames_in s +₆₄ 1) s));
      _ ← (if sn_u64 keys.PERSISTENCE_FLUSH_BYTES sn <=? next_offset - durable_offset
           then on_reg request_flush else mret ());
      mret true
  | OffsetMismatch next_offset durable_offset =>
      _ ← send (msg_offset_mismatch (pof_terminal_id frame) next_offset durable_offset);
      mret true
  | NotOpen =>
      _ ← send (msg_terminal_error TERMINAL_CLOSED
                  (lit "terminal is closed and cannot accept output") (pof_terminal_id frame));
      mret true
  end.

Definition on_binary (others : Registry → Registry) (now : N) (bytes : list byte) (sn : Snapshot)
    : ConnM bool :=
  match decode_publisher_frame bytes with
  | Err e =>
      let code := match e with TooShort => INVALID_MESSAGE | UnknownType _ => UNKNOWN_MESSAGE_TYPE end in
      _ ← fail_with (msg_error code (frame_error_text e)) close.PROTOCOL_ERROR "protocol_error";
      mret false
  | Ok frame =>
      negotiated ← session_gets se_negotiated;
      let limits := limits_effective negotiated sn in
      let payload_len := len (pof_payload frame) in
      if nl_max_frame_bytes limits <? payload_len then
        _ ← on_session (λ s, upd_oversize_strikes (se_oversize_strikes s + 1) s);
        let message := msg_terminal_error LIMIT_EXCEEDED
          (lit "output frame of " ++ num payload_len ++ lit " bytes exceeds the negotiated maximum of "
           ++ num (nl_max_frame_bytes limits) ++ lit " bytes") (pof_terminal_id frame) in
        strikes ← session_gets se_oversize_strikes;
        if OVERSIZE_STRIKES <=? strikes then
          _ ← fail_with message close.LIMIT_EXCEEDED "limit_exceeded"; mret false
        else _ ← send message; mret true
      else
        found ← lookup (pof_terminal_id frame);
        match found with
        | None =>
            _ ← send (msg_terminal_error TERMINAL_NOT_FOUND (lit "unknown terminal for this device")
                        (pof_terminal_id frame));
            mret true
        | Some loc =>
            let capacity := replay_capacity sn in
            go_on ← apply_backpressure others loc (pof_terminal_id frame) payload_len capacity limits;
            if negb go_on then mret false
            else
              append_frame now loc frame capacity sn
        end
  end.

(** ** Control messages *)

Definition out_of_range (max : N) (v : option N) : bool :=
  match v with Some v => (v =? 0) || (max <? v) | None => false end.

Definition validate_open (local_ref label : text) (cols rows : option N) (term : option text)
    (sn : Snapshot) : result text () :=
  if is_empty (trim local_ref) then Err (lit "local_ref must not be empty")
  else if sn_usize keys.LIMITS_MAX_LOCAL_REF_BYTES sn <? text_len local_ref then
    Err (lit "local_ref is too long")
  else if sn_usize keys.LIMITS_MAX_LABEL_BYTES sn <? text_len label then Err (lit "label is too long")
  else if from_option (λ t, sn_usize keys.LIMITS_MAX_TERM_BYTES sn <? text_len t) false term then
    Err (lit "term is too long")
  else if out_of_range (sn_u32 keys.LIMITS_MAX_TERMINAL_COLS sn) cols then Err (lit "cols is out of range")
  else if out_of_range (sn_u32 keys.LIMITS_MAX_TERMINAL_ROWS sn) rows then Err (lit "rows is out of range")
  else Ok ().

Definition sanitise_reason (reason : option text) : text :=
  let reason := default (lit "closed_by_publisher") reason in
  let cleaned := takeN 128 (filter (λ c, is_control c = false) reason) in
  if is_empty (trim cleaned) then lit "closed_by_publisher" else cleaned.

Definition request_refused (message : text) (request_id : option text) : ConnM bool :=
  _ ← send (msg_request_error VALIDATION_FAILED message request_id); mret true.

Definition resolve_open (in_reply_to : option text) (outcome : OpenOutcome) : ConnM () :=
  match in_reply_to with
  | None => mret ()
  | Some request_id =>
      device_id ← session_gets (λ s, dev_device_id (se_device s));
      _ ← reg_call (resolve_open_request device_id request_id outcome);
      mret ()
  end.

Definition stored_process_label (process_label : option text) (sn : Snapshot) : option text :=
  if sn_bool keys.TERMINAL_ALLOW_PROCESS_LABEL sn then
    p ← process_label;
    if text_len p <=? sn_usize keys.LIMITS_MAX_PROCESS_LABEL_BYTES sn then Some p else None
  else None.

(** [terminal_id], [now] and [mw] are those of [open_terminal]. *)
Definition on_open (terminal_id : Uuid) (now : N) (mw : Meanwhile)
    (request_id local_ref : text) (label : option text) (cols rows : option N)
    (term process_label : option text) (accepts_input : bool) (in_reply_to : option text)
    (sn : Snapshot) : ConnM bool :=
  let label := default [] label in
  version ← session_gets se_version;
  if accepts_input && negb (supports_input version) then
    request_refused (lit "accepts_input requires the terminal-relay.publisher.v2 subprotocol") (Some request_id)
  else if bool_decide (is_Some in_reply_to) && negb (supports_input version) then
    request_refused (lit "in_reply_to requires the terminal-relay.publisher.v2 subprotocol") (Some request_id)
  else
    device ← session_gets se_device;
    requested_by_principal ← reg_gets (λ g, id ← in_reply_to; open_request_principal (dev_device_id device) id g);
    let origin := if bool_decide (is_Some requested_by_principal) then OriginRequest else OriginPublisher in
    match validate_open local_ref label cols rows term sn with
    | Err detail =>
        _ ← resolve_open in_reply_to (Failed VALIDATION_FAILED detail);
        request_refused detail (Some request_id)
    | Ok _ =>
        let request := mkOpenRequest local_ref label cols rows term (stored_process_label process_label sn)
                         accepts_input origin requested_by_principal in
        opened ← reg_call (open_terminal terminal_id now (dev_device_id device) (dev_identity_id device)
                             request mw);
        _ ← on_reg (mw_loaded mw);
        match opened with
        | Ok (loc, deduplicated) =>
            h ← reg_gets (handle_at loc);
            match h with
            | None => mret true
            | Some h =>
                let offsets := term_offsets (h_inner h) in
                _ ← on_session (λ s, upd_ack_tasks (se_ack_tasks s ++ [loc])
                                       (upd_terminals (<[h_terminal_id h := loc]> (se_terminals s)) s));
                _ ← resolve_open in_reply_to (Opened (h_terminal_id h) deduplicated);
                _ ← send (TerminalOpened request_id (h_terminal_id h) local_ref (of_next_offset offsets)
                            (of_durable_offset offsets) (of_earliest_offset offsets) deduplicated
                            (i_accepts_input (h_inner h)));
                mret true
            end
        | Err e =>
            _ ← resolve_open in_reply_to (Failed LIMIT_EXCEEDED (ae_message e));
            _ ← send (msg_request_error LIMIT_EXCEEDED (ae_message e) (Some request_id));
            mret true
        end
    end.

Definition KNOWN_DECLINE_REASONS : list text :=
  [lit "not_permitted"; lit "unsupported"; lit "busy"; lit "limit_reached"; lit "internal_error"].

(** [&d[..d.len().min(200)]] of the [tracing::info!] call: slicing a [str]
    inside a character panics. The macro evaluates the slice only when the
    info level is enabled; the model has it enabled, which is the program's
    default. *)
Fixpoint is_char_boundary (n : N) (t : text) : bool :=
  if n =? 0 then true
  else match t with
       | [] => false
       | c :: t => (len_utf8 c <=? n) && is_char_boundary (n - len_utf8 c) t
       end.
Definition decline_detail_panics (detail : option text) : bool :=
  match detail with
  | Some d => negb (is_char_boundary (N.min (text_len d) 200) d)
  | None => false
  end.

(** [None] is the panic, which ends the connection's task. *)
Definition on_open_declined (in_reply_to reason : text) (detail : option text) : ConnM (option bool) :=
  let reason := if bool_decide (reason ∈ KNOWN_DECLINE_REASONS) then reason else lit "internal_error" in
  if decline_detail_panics detail then mret None
  else
    _ ← resolve_open (Some in_reply_to) (Declined reason);
    mret (Some true).

Definition on_capabilities (terminal_open_requests : bool) : ConnM bool :=
  version ← session_gets se_version;
  if terminal_open_requests && negb (supports_input version) then
    request_refused
      (lit "terminal_open_requests requires the terminal-relay.publisher.v2 subprotocol") None
  else
    device_id ← session_gets (λ s, dev_device_id (se_device s));
    connection_id ← session_gets se_connection_id;
    _ ← on_reg (set_publisher_open_requests device_id connection_id terminal_open_requests);
    mret true.

Definition not_found (terminal_id : Uuid) : ConnM bool :=
  _ ← send (msg_terminal_error TERMINAL_NOT_FOUND (lit "unknown terminal for this device") terminal_id);
  mret true.

Definition on_resize (now : N) (terminal_id : Uuid) (cols rows : N) (sn : Snapshot) : ConnM bool :=
  if (cols =? 0) || (rows =? 0) || (sn_u32 keys.LIMITS_MAX_TERMINAL_COLS sn <? cols)
     || (sn_u32 keys.LIMITS_MAX_TERMINAL_ROWS sn <? rows) then
    _ ← send (msg_terminal_error VALIDATION_FAILED (lit "terminal dimensions are out of range") terminal_id);
    mret true
  else
    found ← lookup terminal_id;
    match found with
    | None => not_found terminal_id
    | Some loc =>
        resized ← reg_call (update_at loc (term_resize now cols rows));
        if negb resized then
          _ ← send (msg_terminal_error TERMINAL_CLOSED (lit "terminal is closed") terminal_id);
          mret true
        else
          _ ← reg_call (db_call (λ tb, Ok ((), update_terminal_size terminal_id cols rows now tb)));
          mret true
    end.

Definition on_close (now : N) (terminal_id : Uuid) (reason : option text) : ConnM bool :=
  found ← lookup terminal_id;
  match found with
  | None => not_found terminal_id
  | Some loc =>
      let reason := sanitise_reason reason in
      closing ← reg_call (update_at loc (term_begin_close now reason));
      _ ← (if (closing : bool) then on_reg request_flush else mret ());
      mret true
  end.

Definition on_control (terminal_id : Uuid) (now : N) (mw : Meanwhile)
    (message : PublisherMessage) (sn : Snapshot) : ConnM (option bool) :=
  match message with
  | PPong => mret (Some true)
  | PCapabilities on => b ← on_capabilities on; mret (Some b)
  | POpen request_id local_ref label cols rows term process_label accepts_input in_reply_to =>
      b ← on_open terminal_id now mw request_id local_ref label cols rows term process_label
            (default false accepts_input) in_reply_to sn;
      mret (Some b)
  | POpenDeclined in_reply_to reason detail => on_open_declined in_reply_to reason detail
  | PResize terminal_id cols rows => b ← on_resize now terminal_id cols rows sn; mret (Some b)
  | PClose terminal_id reason => b ← on_close now terminal_id reason; mret (Some b)
  end.

Definition on_text `{JsonApi PublisherMessage} (terminal_id : Uuid) (now : N) (mw : Meanwhile)
    (txt : text) (sn : Snapshot) : ConnM (option bool) :=
  negotiated ← session_gets se_negotiated;
  if nl_max_control_bytes (limits_effective negotiated sn) <? text_len txt then
    _ ← fail_with (msg_error LIMIT_EXCEEDED (lit "control message exceeds the negotiated maximum size"))
          close.LIMIT_EXCEEDED "limit_exceeded";
    mret (Some false)
  else
    match classify txt with
    | Ignorable _ => mret (Some true)
    | Rejected detail =>
        _ ← fail_with (msg_error INVALID_MESSAGE detail) close.PROTOCOL_ERROR "protocol_error";
        mret (Some false)
    | Message message => on_control terminal_id now mw message sn
    end.

(** The acknowledgement task of [spawn_ack_task]: [seen] is the offsets and
    the retired flag it reads each time around, [sends n] whether its [n]-th
    send succeeds. The result is what it sends. *)
Fixpoint ack_task (terminal_id : Uuid) (sends : nat → bool) (acked : N) (seen : list (Offsets * bool))
    : list ServerMessage :=
  match seen with
  | [] => []
  | (offsets, retired) :: rest =>
      if acked <? of_durable_offset offsets then
        if sends 0%nat then
          OutputAck terminal_id (of_durable_offset offsets) (of_next_offset offsets)
            :: ack_task terminal_id (λ n, sends (S n)) (of_durable_offset offsets) rest
        else []
      else if retired && (of_durable_offset offsets <=? acked) then []
      else ack_task terminal_id sends acked rest
  end.

(** ** The connection loop *)

Definition ready_message (sn : Snapshot) (s : Session) : ServerMessage :=
  Ready (se_connection_id s) (publisher_subprotocol (se_version s)) (Some (dev_device_id (se_device s)))
    (mkPublisherLimits (nl_max_frame_bytes (se_negotiated s)) (nl_max_unacked_bytes (se_negotiated s))
       (nl_max_control_bytes (se_negotiated s)) (sn_u64 keys.LIMITS_MAX_ACTIVE_TERMINALS_PER_DEVICE sn)
       (replay_capacity sn) (sn_u64 keys.WEBSOCKET_HEARTBEAT_INTERVAL_SECONDS sn)
       (sn_u64 keys.WEBSOCKET_HEARTBEAT_TIMEOUT_SECONDS sn)
       (if supports_input (se_version s) then Some (sn_u64 keys.LIMITS_MAX_INPUT_FRAME_BYTES sn) else None))
    (sn_revision sn).

(** What wakes the select of [handle]. *)
Inductive PubEvent :=
| PeSuperseded
| PeShutdown (now : bool)
| PeRecheck (answer : ApiResult (option Device))
| PeDelivery (delivery : option PublisherDelivery)
| PeHeartbeat (expired : bool)
| PeBinary (others : Registry → Registry) (now : N) (bytes : list byte)
| PeText (terminal_id : Uuid) (now : N) (mw : Meanwhile) (txt : text)
| PePingPong
| PeClosed
(** Other tasks run between two turns. *)
| PeOthers (others : Registry → Registry).

Definition forward_delivery (delivery : PublisherDelivery) : ConnM bool :=
  match delivery with
  | PdInput terminal_id relay_sequence payload =>
      send_binary (encode_publisher_input_frame terminal_id relay_sequence payload)
  | PdResizeRequest terminal_id cols rows => send (TerminalResizeRequest terminal_id cols rows)
  | PdOpenRequest request_id label cols rows => send (TerminalOpenRequest request_id label cols rows)
  end.

(** One turn of the loop; [false] is [break]. *)
Definition pub_event `{JsonApi PublisherMessage} (e : PubEvent) : ConnM bool :=
  sn ← reg_gets g_settings;
  match e with
  | PeSuperseded =>
      _ ← fail_with (msg_error SUPERSEDED
             (lit "another publisher connection took over this device, or the device was revoked"))
            close.SUPERSEDED "superseded";
      mret false
  | PeShutdown true =>
      _ ← send (SNotice SERVER_SHUTDOWN
            (lit "server is shutting down; reconnect and resume from the offsets returned by terminal.opened"));
      _ ← close_with close.SERVER_SHUTDOWN "server_shutdown";
      mret false
  | PeShutdown false => mret true
  | PeRecheck answer =>
      if principal_revoked answer then
        _ ← fail_with (msg_error REVOKED (lit "device credential was revoked")) close.REVOKED "revoked";
        mret false
      else mret true
  | PeDelivery None => mret false
  | PeDelivery (Some delivery) => forward_delivery delivery
  | PeHeartbeat true => _ ← close_with close.HEARTBEAT_TIMEOUT "heartbeat_timeout"; mret false
  | PeHeartbeat false => send_ping
  | PeBinary others now bytes => on_binary others now bytes sn
  | PeText terminal_id now mw txt => b ← on_text terminal_id now mw txt sn; mret (default false b)
  | PePingPong => mret true
  | PeClosed => mret false
  | PeOthers others => _ ← on_reg others; mret true
  end.

Fixpoint pub_loop `{JsonApi PublisherMessage} (events : list PubEvent) : ConnM bool :=
  match events with
  | [] => mret true
  | e :: rest => go_on ← pub_event e; if (go_on : bool) then pub_loop rest else mret false
  end.

Definition session_new (device : Device) (connection_id : text) (version : ProtocolVersion)
    (sn : Snapshot) : Session :=
  mkSession device connection_id (mkWsWriter [] false) (limits_from sn) version ∅ [] 0 0 0.

(** [handle]: [ready], then the loop. *)
Definition pub_handle `{JsonApi PublisherMessage} (device : Device) (connection_id : text)
    (version : ProtocolVersion) (events : list PubEvent) (g : Registry) : bool * Conn :=
  let sn := g_settings g in
  let s := session_new device connection_id version sn in
  (_ ← send (ready_message sn s); pub_loop events) (mkConn s g).
