(* ===== verification/PublisherProps.v ===== *)
(** * What a publisher connection guarantees

    Backpressure keeps every byte that is not durable inside the retained
    window; a device publishes to its own terminals only; a frame above the
    limits in force never reaches a terminal; acknowledgements only ever repeat
    what is durable. The lemmas on answering whoever asked for a terminal are
    shared with [PublisherControl]. *)

From S2P Require Export PublisherConn.

Open Scope N_scope.
Open Scope hype_scope.

(** ** Computations that only touch terminals and storage *)

(** The part of the registry they leave alone. *)
Definition front (g : Registry) :=
  (g_publishers g, g_pending_opens g, g_watches g, g_inputs g, g_notifies g, g_connections g).

Definition keeps {A} (m : RegM A) : Prop := ∀ g r g', m g = (r, g') → front g' = front g.

Create HintDb keeps.

Lemma keeps_ret {A} (a : A) : keeps (mret a : RegM A).
Proof. by intros g r g' [= _ <-]. Qed.
Lemma keeps_gets {A} (f : Registry → A) : keeps (gets f).
Proof. by intros g r g' [= _ <-]. Qed.
Lemma keeps_bind {A B} (m : RegM A) (k : A → RegM B) : keeps m → (∀ a, keeps (k a)) → keeps (m ≫= k).
Proof.
  intros Hm Hk g r g'. rewrite reg_bind. destruct (m g) as [[a|e] g1] eqn:E.
  - intros H. rewrite (Hk _ _ _ _ H). by eapply Hm.
  - intros [= _ <-]. by eapply Hm.
Qed.
Lemma keeps_db_call {A} (f : Tables → ApiResult (A * Tables)) : keeps (db_call f).
Proof. by intros g r g' (tb & fs & -> & _)%db_call_inv. Qed.
Lemma keeps_install h : keeps (install h).
Proof. intros g r g'. unfold install, install_handle. by intros [= _ <-]. Qed.
Lemma keeps_modify (f : Registry → Registry) : (∀ g, front (f g) = front g) → keeps (modify f).
Proof. intros Hf g r g' [= _ <-]. apply Hf. Qed.
#[export] Hint Resolve keeps_ret keeps_gets keeps_db_call keeps_install keeps_modify : keeps.

(** Follow the computation's structure. *)
Ltac solve_keeps :=
  repeat first [solve [auto with keeps] | apply keeps_bind; [|intros ?] | case_goal].

Lemma keeps_insert_or_load row capacity : keeps (insert_or_load_handle row capacity).
Proof.
  unfold insert_or_load_handle, load_output.
  solve_keeps.
Qed.
#[export] Hint Resolve keeps_insert_or_load : keeps.

Lemma keeps_get_or_load id : keeps (get_or_load id).
Proof.
  unfold get_or_load, db_read.
  solve_keeps.
Qed.
#[export] Hint Resolve keeps_get_or_load : keeps.

(** ** Backpressure *)

(** At [loc] sits a terminal whose window still holds all that is not durable,
    with room for [extra] more bytes of offsets. *)
Definition kept (extra : N) (loc : N) (g : Registry) : Prop :=
  ∃ i log, inner_at loc g = Some i ∧ term_repr log i
    ∧ r_earliest (i_ring i) ≤ i_durable_offset i ∧ len log + extra < two63.

Lemma inner_at_on_handle loc f g i :
  inner_at loc g = Some i → inner_at loc (on_handle loc f g) = Some (f i).
Proof.
  unfold inner_at, handle_at. intros (h & Hh & ->)%fmap_Some. cbn. by rewrite lookup_alter_eq, Hh.
Qed.

(** An append with the headroom that backpressure leaves. *)
Lemma append_keeps_dirty log i now off payload capacity limits outcome i' :
  term_repr log i → r_earliest (i_ring i) ≤ i_durable_offset i → len log + len payload < two63 →
  term_dirty_bytes i ≤ target_dirty_headroom (len payload) capacity limits →
  term_append now off payload capacity i = (outcome, i') →
  ∃ log', term_repr log' i'
    ∧ (r_earliest (i_ring i') ≤ i_durable_offset i'
       ∨ (capacity ≤ len payload ∧ i_durable_offset i' + len payload = i_next_offset i')).
Proof.
  intros Hr Hcov Hl Hdirty Happ.
  pose proof (term_append_spec log i now off payload capacity Hr ltac:(len_lia)) as H. rewrite Happ in H.
  destruct outcome as [n d|n d|].
  - destruct H as (_ & _ & _ & _ & Hr' & He & _ & Hd). exists (log ++ payload). split; [done|].
    pose proof Hr as (Hring & Hn & Hle). pose proof Hr' as (_ & Hn' & _).
    unfold target_dirty_headroom, term_dirty_bytes in Hdirty. rewrite Hn in Hdirty.
    rewrite He, Hd, Hn'. unfold window_start. autorewrite with len.
    destruct (N.leb_spec capacity (len payload)); [right; lia|left; lia].
  - destruct H as (_ & _ & _ & _ & ->). exists log. by split; [|left].
  - destruct H as (_ & ->). exists log. by split; [|left].
Qed.

(** Sending touches the writer only. *)
Lemma send_reg m c : cn_reg (send m c).2 = cn_reg c.
Proof. unfold send. by destruct (w_send m _). Qed.
Lemma fail_with_reg m code reason c : cn_reg (fail_with m code reason c).2 = cn_reg c.
Proof. done. Qed.

Lemma backpressure_reg others loc id n capacity limits c :
  ∃ w, apply_backpressure others loc id n capacity limits c
    = (let headroom := target_dirty_headroom n capacity limits in
       let g' := others (request_flush (cn_reg c)) in
       if dirty_at loc (cn_reg c) <=? headroom then (true, c)
       else if dirty_at loc g' <=? headroom then (true, mkConn (cn_session c) g')
       else (false, mkConn (upd_writer w (cn_session c)) g')).
Proof.
  unfold apply_backpressure, reg_gets, on_reg. autorewrite with stm.
  case_goal; [by exists (se_writer (cn_session c))|]. autorewrite with stm. cbn [cn_reg cn_session].
  case_goal; [by exists (se_writer (cn_session c))|]. autorewrite with stm. cbn [cn_reg cn_session].
  rewrite st_bind. destruct (g_storage_failing _); eexists; reflexivity.
Qed.

Lemma lookup_known id loc c :
  se_terminals (cn_session c) !! id = Some loc → lookup id c = (Some loc, c).
Proof. intros H. unfold lookup, session_gets. autorewrite with stm. by rewrite H. Qed.

(** What holds of the terminal after a frame. *)
Definition kept_after (capacity payload_len loc : N) (g : Registry) : Prop :=
  ∃ i log, inner_at loc g = Some i ∧ term_repr log i
    ∧ (r_earliest (i_ring i) ≤ i_durable_offset i
       ∨ (capacity ≤ payload_len ∧ i_durable_offset i + payload_len = i_next_offset i)).

Lemma kept_weaken extra capacity n loc g : kept extra loc g → kept_after capacity n loc g.
Proof. intros (i & log & ? & ? & ? & _). exists i, log. auto. Qed.

Lemma send_then_reg m (b : bool) c r c' :
  ((_ ← send m; mret b) : ConnM bool) c = (r, c') → cn_reg c' = cn_reg c ∧ r = b.
Proof.
  rewrite st_bind. pose proof (send_reg m c) as H. destruct (send m c) as [ok c1]. by intros [= <- <-].
Qed.

Lemma append_frame_kept now loc frame capacity limits sn c b c' :
  kept (len (pof_payload frame)) loc (cn_reg c) →
  dirty_at loc (cn_reg c) ≤ target_dirty_headroom (len (pof_payload frame)) capacity limits →
  append_frame now loc frame capacity sn c = (b, c') →
  kept_after capacity (len (pof_payload frame)) loc (cn_reg c').
Proof.
  intros (i & log & Hi & Hr & Hcov & Hl) Hdirty. unfold append_frame. rewrite st_bind.
  unfold reg_call, append_at. unfold dirty_at in Hdirty. rewrite Hi in Hdirty |- *. cbn [from_option] in Hdirty.
  destruct (term_append now _ _ _ i) as [outcome i'] eqn:Happ.
  destruct (append_keeps_dirty _ _ _ _ _ _ _ _ _ Hr Hcov Hl Hdirty Happ) as (log' & Hr' & Hfinal).
  pose proof (inner_at_on_handle loc (λ _, i') (cn_reg c) i Hi) as Hi'.
  assert (kept_after capacity (len (pof_payload frame)) loc (on_handle loc (λ _, i') (cn_reg c))) as Hafter
    by (by exists i', log').
  destruct outcome.
  - unfold on_session. autorewrite with stm. rewrite st_bind. destruct (_ <=? _); by intros [= <- <-].
  - intros [Hreg _]%send_then_reg. by rewrite Hreg.
  - intros [Hreg _]%send_then_reg. by rewrite Hreg.
Qed.

(** A frame's whole way, once its terminal is known to the session. *)
Lemma on_binary_kept others now bytes sn c frame loc b c' :
  decode_publisher_frame bytes = Ok frame →
  se_terminals (cn_session c) !! pof_terminal_id frame = Some loc →
  kept (len (pof_payload frame)) loc (cn_reg c) →
  (∀ g, kept (len (pof_payload frame)) loc g → kept (len (pof_payload frame)) loc (others g)) →
  on_binary others now bytes sn c = (b, c') →
  kept_after (replay_capacity sn) (len (pof_payload frame)) loc (cn_reg c').
Proof.
  intros Hdec Hknown Hkept Hothers. unfold on_binary. rewrite Hdec.
  unfold session_gets, on_session. autorewrite with stm. cbv zeta. set (limits := limits_effective _ _).
  destruct (N.ltb_spec (nl_max_frame_bytes limits) (len (pof_payload frame))).
  { autorewrite with stm. case_goal; [|intros [Hreg _]%send_then_reg; rewrite Hreg; by eapply kept_weaken].
    intros [= <- <-]. by eapply kept_weaken. }
  rewrite st_bind, (lookup_known _ loc) by done. rewrite st_bind.
  destruct (backpressure_reg others loc (pof_terminal_id frame) (len (pof_payload frame)) (replay_capacity sn)
    limits c) as [w ->]. cbv zeta.
  assert (kept (len (pof_payload frame)) loc (others (request_flush (cn_reg c)))) as Hkept1
    by (apply Hothers; destruct Hkept as (i & log & Hi & ?); by exists i, log).
  case_N; [by apply append_frame_kept with limits|].
  case_N; [by apply append_frame_kept with limits|].
  intros [= <- <-]. by eapply kept_weaken.
Qed.

(** ** Ownership *)

(** Every terminal the session remembers is its device's. *)
Definition session_owns (c : Conn) : Prop :=
  ∀ id loc, se_terminals (cn_session c) !! id = Some loc →
    h_device_id <$> handle_at loc (cn_reg c) = Some (dev_device_id (se_device (cn_session c))).

Lemma lookup_spec id c r c' :
  handles_ok (cn_reg c) → session_owns c → lookup id c = (r, c') →
  session_owns c' ∧ se_device (cn_session c') = se_device (cn_session c)
  ∧ se_writer (cn_session c') = se_writer (cn_session c)
  ∧ handles_ok (cn_reg c')
  ∧ (∀ loc, r = Some loc → se_terminals (cn_session c') !! id = Some loc).
Proof.
  intros Hok Hown. unfold lookup, session_gets, reg_gets, on_session. autorewrite with stm.
  destruct (se_terminals (cn_session c) !! id) as [loc|] eqn:Hknown.
  { intros [= <- <-]. split_and!; try done. by intros ? [= <-]. }
  rewrite st_bind. unfold reg_call.
  destruct (get_or_load id (cn_reg c)) as [loaded g1] eqn:Hload.
  destruct (get_or_load_spec _ _ _ _ Hok Hload) as (Hgrow & _ & _).
  assert (session_owns (mkConn (cn_session c) g1)) as Hown1.
  { intros id' loc' H. cbn in *. specialize (Hown _ _ H). unfold handle_at in *.
    destruct (g_handles (cn_reg c) !! loc') as [h|] eqn:Hh; [|done].
    by rewrite (lookup_weaken _ _ _ _ Hh (gr_handles _ _ Hgrow)). }
  destruct loaded as [[loc|]|e].
  - autorewrite with stm. cbn [cn_reg cn_session]. case_bool_decide as Howner; cbn [negb].
    + autorewrite with stm. intros [= <- <-]. cbn. split_and!; [|done|done|apply Hgrow|].
      * intros id' loc'. cbn. rewrite lookup_insert. case_decide; [by intros [= <-]|]. apply Hown1.
      * intros ? [= <-]. apply lookup_insert_eq.
    + intros [= <- <-]. split_and!; [done|done|done|apply Hgrow|done].
  - intros [= <- <-]. split_and!; [done|done|done|apply Hgrow|done].
  - intros [= <- <-]. split_and!; [done|done|done|apply Hgrow|done].
Qed.

(** ** Acknowledgements *)

(** The offsets acknowledged, in order. *)
Definition acked_offsets (ms : list ServerMessage) : list N :=
  omap (λ m, match m with OutputAck _ durable_offset _ => Some durable_offset | _ => None end) ms.

Fixpoint increasing_from (a : N) (l : list N) : Prop :=
  match l with [] => True | x :: l => a < x ∧ increasing_from x l end.

Lemma ack_task_spec id sends acked seen :
  increasing_from acked (acked_offsets (ack_task id sends acked seen))
  ∧ (∀ m, m ∈ ack_task id sends acked seen → ∃ o retired, (o, retired) ∈ seen
       ∧ m = OutputAck id (of_durable_offset o) (of_next_offset o)).
Proof.
  revert sends acked. induction seen as [|[o retired] seen IH]; intros sends acked; cbn [ack_task].
  { split; [done|]. by intros m ?%elem_of_nil. }
  destruct (N.ltb_spec acked (of_durable_offset o)).
  - destruct (sends 0%nat); [|split; [done|by intros m ?%elem_of_nil]].
    destruct (IH (λ n, sends (S n)) (of_durable_offset o)) as [H1 H2]. split; [by split|].
    intros m [->|Hm]%elem_of_cons.
    + exists o, retired. split; [by left|done].
    + destruct (H2 m Hm) as (o' & b & ? & ?). exists o', b. split; [by right|done].
  - destruct (retired && _); [split; [done|by intros m ?%elem_of_nil]|].
    destruct (IH sends acked) as [H1 H2]. split; [done|].
    intros m Hm. destruct (H2 m Hm) as (o' & b & ? & ?). exists o', b. split; [by right|done].
Qed.

(** ** Answering whoever asked *)

Lemma resolve_open_spec id outcome c e :
  g_pending_opens (cn_reg c) !! (dev_device_id (se_device (cn_session c)), id) = Some e →
  ∃ c', resolve_open (Some id) outcome c = ((), c')
    ∧ g_watches (cn_reg c') = <[po_tx e := Some outcome]> (g_watches (cn_reg c))
    ∧ cn_session c' = cn_session c ∧ g_handles (cn_reg c') = g_handles (cn_reg c)
    ∧ g_db (cn_reg c') = g_db (cn_reg c) ∧ g_terminals (cn_reg c') = g_terminals (cn_reg c).
Proof.
  intros He. unfold resolve_open, session_gets. autorewrite with stm. rewrite st_bind.
  unfold reg_call, resolve_open_request. rewrite He. by eexists.
Qed.

(** What other tasks do between two steps of an open: handles stay alive. *)
Definition steady (f : Registry → Registry) : Prop :=
  ∀ g, handles_ok g → handles_ok (f g)
    ∧ ∀ loc h, g_handles g !! loc = Some h →
        ∃ h', g_handles (f g) !! loc = Some h' ∧ h_terminal_id h' = h_terminal_id h.

Lemma open_terminal_handle id now device_id identity_id request mw g r g' :
  steady (mw_queued mw) → steady (mw_stored mw) →
  handles_ok g → open_terminal id now device_id identity_id request mw g = (r, g') →
  handles_ok g' ∧
  match r with
  | Ok (loc, _) => ∃ h, g_handles g' !! loc = Some h ∧ g_terminals g' !! h_terminal_id h = Some loc
  | Err _ => True
  end.
Proof.
  intros Hq Hs [Hok _]%Hq. unfold open_terminal. autorewrite with regm. rewrite reg_bind.
  destruct (db_call _ _) as [[[row dd]|e] g0] eqn:Hdb; pose proof (db_call_grows _ _ _ _ Hok Hdb) as Hg0;
    [|intros [= <- <-]; split; [apply Hg0|done]].
  autorewrite with regm. rewrite reg_bind. destruct (Hs _ (gr_ok _ _ Hg0)) as [Hg1 _]. set (g1 := mw_stored mw g0) in *.
  destruct (insert_or_load_handle row _ g1) as [r1 g2] eqn:Hload.
  destruct (insert_or_load_spec _ _ _ _ _ Hg1 Hload) as (Hg2 & _ & Hres).
  destruct r1 as [loc1|e]; [|intros [= <- <-]; split; [apply Hg2|done]].
  destruct Hres as [Hres _]. destruct (hok_resident _ (gr_ok _ _ Hg2) _ _ Hres) as (h & Hh & Hid).
  autorewrite with regm. intros [= <- <-]. destruct dd.
  - split; [apply on_handle_handles_ok, Hg2|]. eexists. cbn. rewrite lookup_alter_eq, Hh. split; [done|].
    cbn. by rewrite Hid.
  - split; [apply Hg2|]. exists h. by rewrite Hid.
Qed.

(** ** Properties *)

(** C11: dirty bytes are never lost to eviction. Let a terminal's window hold
    all of its output that is not durable, and let whatever other tasks do
    while the frame waits keep that. Then processing any output frame keeps it
    too, whether the frame waits, is refused, closes the connection or is
    appended - except that a frame as large as the whole window is accepted
    only when everything before it is durable, and then only its own head can
    be missing. *)
Theorem backpressure_protects_dirty (others : Registry → Registry) (now : N) (bytes : list byte)
    (sn : Snapshot) (c c' : Conn) (frame : PublisherOutputFrame) (loc : N) (b : bool) :
  decode_publisher_frame bytes = Ok frame →
  se_terminals (cn_session c) !! pof_terminal_id frame = Some loc →
  kept (len (pof_payload frame)) loc (cn_reg c) →
  (∀ g, kept (len (pof_payload frame)) loc g → kept (len (pof_payload frame)) loc (others g)) →
  on_binary others now bytes sn c = (b, c') →
  ∃ i log, inner_at loc (cn_reg c') = Some i ∧ term_repr log i
    ∧ (r_earliest (i_ring i) ≤ i_durable_offset i
       ∨ (replay_capacity sn ≤ len (pof_payload frame)
          ∧ i_durable_offset i + len (pof_payload frame) = i_next_offset i)).
Proof. apply on_binary_kept. Qed.

Definition example_device : Device := mkDevice 1 (lit "alice") None.
Definition example_conn : Conn :=
  mkConn (upd_terminals {[7 := 0]}
            (session_new example_device (lit "c1") V2 snapshot_default)) example_dirty.

Lemma example_kept : kept 1 0 example_dirty.
Proof.
  eexists _, [x61; x62; x63]. split; [vm_compute; reflexivity|].
  split_and!; [repeat split; vm_compute; congruence|done|done].
Qed.

Lemma backpressure_protects_dirty_witness :
  let r := on_binary (λ g, g) 9 (encode_publisher_frame 7 3 [x64]) snapshot_default example_conn in
  ∃ i log, inner_at 0 (cn_reg r.2) = Some i ∧ term_repr log i
    ∧ (r_earliest (i_ring i) ≤ i_durable_offset i
       ∨ (replay_capacity snapshot_default ≤ 1 ∧ i_durable_offset i + 1 = i_next_offset i)).
Proof.
  intros r.
  apply (backpressure_protects_dirty (λ g, g) 9 (encode_publisher_frame 7 3 [x64]) snapshot_default
           example_conn r.2 (mkPublisherOutputFrame 7 3 [x64]) 0 r.1);
    [vm_compute; reflexivity|vm_compute; reflexivity|exact example_kept|done|].
  unfold r. by destruct on_binary.
Defined.

(** A publisher is held to the stricter of the limits it negotiated and
    the limits in force now. A frame above them never reaches a terminal: the
    registry stays as it is, the strike is counted, and the third strike ends
    the connection with a close frame after the error. *)
Theorem oversize_frame_rejected (others : Registry → Registry) (now : N) (bytes : list byte)
    (sn : Snapshot) (c : Conn) (frame : PublisherOutputFrame) :
  decode_publisher_frame bytes = Ok frame →
  N.min (nl_max_frame_bytes (se_negotiated (cn_session c)))
    (sn_u64 keys.LIMITS_MAX_OUTPUT_FRAME_BYTES sn) < len (pof_payload frame) →
  let strikes := se_oversize_strikes (cn_session c) + 1 in
  let '(go_on, c') := on_binary others now bytes sn c in
  go_on = (strikes <? OVERSIZE_STRIKES)
  ∧ cn_reg c' = cn_reg c ∧ se_oversize_strikes (cn_session c') = strikes
  ∧ (w_gone (se_writer (cn_session c)) = false → ∃ message,
       w_sent (se_writer (cn_session c')) = w_sent (se_writer (cn_session c)) ++
         OText (msg_terminal_error LIMIT_EXCEEDED message (pof_terminal_id frame)) ::
         (if strikes <? OVERSIZE_STRIKES then [] else [OClose close.LIMIT_EXCEEDED "limit_exceeded"])).
Proof.
  intros Hdec Hlt strikes. destruct (on_binary _ _ _ _ _) as [go_on c'] eqn:Hon. revert Hon.
  unfold on_binary. rewrite Hdec. unfold session_gets, on_session. autorewrite with stm. cbv zeta.
  cbn [nl_max_frame_bytes limits_effective]. rewrite (proj2 (N.ltb_lt _ _)) by done.
  autorewrite with stm. cbn [se_oversize_strikes upd_oversize_strikes cn_session]. fold strikes.
  destruct (N.leb_spec OVERSIZE_STRIKES strikes).
  - rewrite (proj2 (N.ltb_ge _ _)) by done. intros [= <- <-]. cbn. split_and!; [done..|].
    intros Hgone. eexists. by apply w_fail_sent.
  - rewrite (proj2 (N.ltb_lt _ _)) by done. rewrite st_bind. unfold send, w_send, w_push.
    cbn [writer with_writer conn_writer cn_session se_writer upd_oversize_strikes].
    destruct (w_gone (se_writer (cn_session c))) eqn:Hgone; intros [= <- <-]; cbn; split_and!; try done.
    intros _. by eexists.
Qed.

Lemma oversize_frame_rejected_witness :
  let sn := mkSnapshot 1 {[ keys.LIMITS_MAX_OUTPUT_FRAME_BYTES := VInt 0 ]} in
  let '(go_on, c') := on_binary (λ g, g) 9 (encode_publisher_frame 7 3 [x64]) sn example_conn in
  go_on = (1 <? OVERSIZE_STRIKES)
  ∧ cn_reg c' = cn_reg example_conn ∧ se_oversize_strikes (cn_session c') = 1
  ∧ (w_gone (se_writer (cn_session example_conn)) = false → ∃ message,
       w_sent (se_writer (cn_session c')) = [] ++
         OText (msg_terminal_error LIMIT_EXCEEDED message 7) ::
         (if 1 <? OVERSIZE_STRIKES then [] else [OClose close.LIMIT_EXCEEDED "limit_exceeded"])).
Proof.
  apply (oversize_frame_rejected (λ g, g) 9 (encode_publisher_frame 7 3 [x64])
           (mkSnapshot 1 {[ keys.LIMITS_MAX_OUTPUT_FRAME_BYTES := VInt 0 ]}) example_conn
           (mkPublisherOutputFrame 7 3 [x64])); vm_compute; reflexivity.
Defined.

(** A device publishes to its own terminals only. Whatever is resident or
    stored, resolving a terminal for a session answers only a handle of the
    session's device, and the session never remembers another. *)
Theorem lookup_own_terminals (id : Uuid) (c c' : Conn) (r : option N) :
  handles_ok (cn_reg c) → session_owns c → lookup id c = (r, c') →
  session_owns c'
  ∧ match r with
    | Some loc => h_device_id <$> handle_at loc (cn_reg c') = Some (dev_device_id (se_device (cn_session c)))
    | None => True
    end.
Proof.
  intros Hok Hown Hl. destruct (lookup_spec _ _ _ _ Hok Hown Hl) as (Hown' & Hdev & _ & _ & Hr).
  split; [done|]. destruct r as [loc|]; [|done]. rewrite <- Hdev. by apply (Hown' id), Hr.
Qed.

(** Another device's session asks for the terminal. *)
Definition example_stranger : Conn :=
  mkConn (session_new (mkDevice 2 (lit "bob") None) (lit "c2") V2 snapshot_default) example_stored.

Lemma lookup_own_terminals_witness :
  (lookup 7 example_stranger).1 = None ∧
  (session_owns (lookup 7 example_stranger).2
   ∧ match (lookup 7 example_stranger).1 with
     | Some loc => h_device_id <$> handle_at loc (cn_reg (lookup 7 example_stranger).2) = Some 2
     | None => True
     end).
Proof.
  split; [vm_compute; reflexivity|].
  apply (lookup_own_terminals 7 example_stranger (lookup 7 example_stranger).2 (lookup 7 example_stranger).1).
  - exact example_stored_handles_ok.
  - intros id loc H. cbn in H. by rewrite lookup_empty in H.
  - by destruct lookup.
Defined.
