(* ===== verification/PublisherControl.v ===== *)
(** * What a publisher's control messages can do

    Whoever waits for a terminal is told what became of the open, whatever the
    other tasks do while it is awaited; the relay and not the publisher says who asked; text that reaches other
    people's screens comes from a closed set or is bounded and stripped; an
    acknowledgement only ever repeats what is durable. *)

From S2P Require Export PublisherProps.

Open Scope N_scope.
Open Scope hype_scope.

(** ** Helpers *)

Lemma bind_reg_gets {A B} (f : Registry → A) (k : A → ConnM B) c : (reg_gets f ≫= k) c = k (f (cn_reg c)) c.
Proof. done. Qed.
Lemma bind_session_gets {A B} (f : Session → A) (k : A → ConnM B) c :
  (session_gets f ≫= k) c = k (f (cn_session c)) c.
Proof. done. Qed.
Lemma bind_on_session {B} (f : Session → Session) (k : () → ConnM B) c :
  (on_session f ≫= k) c = k () (mkConn (f (cn_session c)) (cn_reg c)).
Proof. done. Qed.
Lemma bind_on_reg {B} (f : Registry → Registry) (k : () → ConnM B) c :
  (on_reg f ≫= k) c = k () (mkConn (cn_session c) (f (cn_reg c))).
Proof. done. Qed.
#[export] Hint Rewrite @bind_reg_gets @bind_session_gets @bind_on_session @bind_on_reg : stm.

(** Resolving touches the watches only. *)
Lemma resolve_open_db in_reply_to outcome c :
  let c' := (resolve_open in_reply_to outcome c).2 in
  g_db (cn_reg c') = g_db (cn_reg c) ∧ cn_session c' = cn_session c.
Proof.
  destruct in_reply_to as [id|]; [|done]. cbn. unfold resolve_open. autorewrite with stm.
  rewrite st_bind. unfold reg_call, resolve_open_request. by destruct (g_pending_opens _ !! _).
Qed.

(** Sending a last message leaves the registry. *)
Lemma send_last_reg m (b : bool) c : cn_reg (((_ ← send m; mret b) : ConnM bool) c).2 = cn_reg c.
Proof. destruct ((_ ← send m; mret b) c) as [r c'] eqn:H. by apply send_then_reg in H as [? _]. Qed.

Lemma resolve_send_db in_reply_to outcome m (b : bool) c r c' :
  ((_ ← resolve_open in_reply_to outcome; _ ← send m; mret b) : ConnM bool) c = (r, c') →
  g_db (cn_reg c') = g_db (cn_reg c).
Proof.
  rewrite st_bind. pose proof (resolve_open_db in_reply_to outcome c) as [Hdb _].
  destruct (resolve_open in_reply_to outcome c) as [[] c2]. intros [-> _]%send_then_reg. exact Hdb.
Qed.

(** ** Attribution *)

(** A stored row is an old one, one another connection committed, or new. *)
Lemma open_row_recs id now d ident request max race tb r tb' id' rec :
  open_row id now d ident request max race tb = Ok (r, tb') →
  tb_terminals tb' !! id' = Some rec →
  tb_terminals tb !! id' = Some rec ∨ tb_terminals (race tb) !! id' = Some rec
  ∨ (id' = id ∧ c_device_id rec = d ∧ c_identity_id rec = ident
     ∧ c_origin rec = origin_as_str (or_origin request)
     ∧ c_requested_by_principal rec = or_requested_by_principal request).
Proof.
  unfold open_row. case_goal; [intros [= _ <-]; auto|]. case_goal; [done|].
  unfold insert_terminal. case_bool_decide.
  { case_goal; [intros [= _ <-]; auto|done]. }
  case_bool_decide.
  { case_goal; [intros [= _ <-]; auto|done]. }
  intros [= _ <-]. cbn. rewrite lookup_insert. case_decide; [|auto]. intros [= <-]. subst. auto 10.
Qed.

Lemma open_terminal_recs id now d ident request race g r g' id' rec :
  handles_ok g → open_terminal id now d ident request (racing race) g = (r, g') →
  tb_terminals (g_db g') !! id' = Some rec →
  tb_terminals (g_db g) !! id' = Some rec ∨ tb_terminals (race (g_db g)) !! id' = Some rec
  ∨ (id' = id ∧ c_device_id rec = d ∧ c_identity_id rec = ident
     ∧ c_origin rec = origin_as_str (or_origin request)
     ∧ c_requested_by_principal rec = or_requested_by_principal request).
Proof.
  intros Hok. unfold open_terminal. cbn [racing mw_queued mw_race mw_stored]. autorewrite with regm. rewrite reg_bind.
  destruct (db_call _ g) as [[[row dd]|e] g1] eqn:Hdb.
  - pose proof (db_call_grows _ _ _ _ Hok Hdb) as Hg1. apply db_call_inv in Hdb as (tb & fs & -> & Hrow).
    autorewrite with regm. rewrite reg_bind. destruct (insert_or_load_handle row _ _) as [r1 g2] eqn:Hload.
    destruct (insert_or_load_spec _ _ _ _ _ (gr_ok _ _ Hg1) Hload) as (_ & Hdb2 & _). cbn in Hdb2.
    destruct r1 as [loc1|e].
    + autorewrite with regm. intros [= <- <-] Hrec. eapply open_row_recs; [done|].
      rewrite <- Hdb2. by destruct dd.
    + intros [= <- <-] Hrec. eapply open_row_recs; [done|]. by rewrite <- Hdb2.
  - apply db_call_inv in Hdb as (tb & fs & -> & ->). intros [= <- <-]. auto.
Qed.

(** ** Opening on request *)

(** [g'] is [g] after a decision on a request was published: if the request is
    still pending in [g], its waiters' channel holds exactly [outcome]. *)
Definition answered (device_id : Uuid) (request_id : text) (outcome : OpenOutcome) (g g' : Registry) : Prop :=
  g_watches g' =
    match g_pending_opens g !! (device_id, request_id) with
    | Some e => <[po_tx e := Some outcome]> (g_watches g)
    | None => g_watches g
    end.

Lemma resolve_answers id outcome m (b : bool) c r c' :
  ((_ ← resolve_open (Some id) outcome; _ ← send m; mret b) : ConnM bool) c = (r, c') →
  answered (dev_device_id (se_device (cn_session c))) id outcome (cn_reg c) (cn_reg c').
Proof.
  rewrite st_bind. unfold answered. destruct (g_pending_opens _ !! _) as [e|] eqn:He.
  - destruct (resolve_open_spec id outcome c e He) as (c2 & -> & Hw & _). by intros [-> _]%send_then_reg.
  - unfold resolve_open. autorewrite with stm. rewrite st_bind. unfold reg_call, resolve_open_request.
    rewrite He. cbn. by intros [-> _]%send_then_reg.
Qed.

Section open.
Context (terminal_id : Uuid) (now : N) (mw : Meanwhile) (request_id local_ref : text)
  (label : option text) (cols rows : option N) (term process_label : option text)
  (accepts_input : bool) (sn : Snapshot).

Abbreviation opens in_reply_to c :=
  (on_open terminal_id now mw request_id local_ref label cols rows term process_label accepts_input
     in_reply_to sn c).

(** The open a connection asks the registry for, when it answers request [id]. *)
Definition requested (c : Conn) (id : text) : OpenRequest :=
  let asked := open_request_principal (dev_device_id (se_device (cn_session c))) id (cn_reg c) in
  mkOpenRequest local_ref (default [] label) cols rows term (stored_process_label process_label sn) accepts_input
    (if bool_decide (is_Some asked) then OriginRequest else OriginPublisher) asked.

(** What the waiters of request [id] must be told: the decision, and the
    registry as the other tasks have left it when the decision is made. *)
Definition decided (c : Conn) (id : text) (outcome : OpenOutcome) (g : Registry) : Prop :=
  let device := se_device (cn_session c) in
  match validate_open local_ref (default [] label) cols rows term sn with
  | Err detail => outcome = Failed VALIDATION_FAILED detail ∧ g = cn_reg c
  | Ok _ =>
      let '(r, opened) := open_terminal terminal_id now (dev_device_id device) (dev_identity_id device)
                            (requested c id) mw (cn_reg c) in
      g = mw_loaded mw opened
      ∧ match r with
        | Ok (loc, deduplicated) => ∃ h,
            handle_at loc opened = Some h ∧ resident (h_terminal_id h) opened = Some loc
            ∧ outcome = Opened (h_terminal_id h) deduplicated
        | Err e => outcome = Failed LIMIT_EXCEEDED (ae_message e)
        end
  end.

Lemma on_open_answers c id b c' :
  supports_input (se_version (cn_session c)) = true →
  steady (mw_queued mw) → steady (mw_stored mw) → steady (mw_loaded mw) →
  handles_ok (cn_reg c) →
  opens (Some id) c = (b, c') →
  ∃ outcome g, decided c id outcome g
    ∧ answered (dev_device_id (se_device (cn_session c))) id outcome g (cn_reg c').
Proof.
  intros Hv Hq Hs Hl Hok. unfold on_open, decided, request_refused. autorewrite with stm.
  rewrite Hv, !andb_false_r. autorewrite with stm.
  destruct (validate_open _ _ _ _ _ _) as [[]|detail];
    [|by intros H%resolve_answers; eexists _, _; split; [|exact H]].
  rewrite st_bind. unfold reg_call at 1. cbn [mbind option_bind].
  change (mkOpenRequest _ _ _ _ _ _ _ _ _) with (requested c id).
  destruct (open_terminal _ _ _ _ _ _ (cn_reg c)) as [r g1] eqn:Hopen.
  destruct (open_terminal_handle _ _ _ _ _ _ _ _ _ Hq Hs Hok Hopen) as [Hok1 Hr]. autorewrite with stm.
  destruct r as [[loc dd]|err].
  - destruct Hr as (h & Hh & Hres). destruct (Hl g1 Hok1) as [_ Hkeep].
    destruct (Hkeep loc h Hh) as (h' & Hh' & Hid). autorewrite with stm. unfold handle_at at 1.
    cbn [cn_reg cn_session]. rewrite Hh'.
    autorewrite with stm. rewrite Hid. intros H%resolve_answers. do 2 eexists. split; [split; [done|]|exact H].
    exists h. split_and!; done.
  - intros H%resolve_answers. do 2 eexists. split; [by split|exact H].
Qed.
End open.

Section records.
Context (terminal_id : Uuid) (now : N) (race : Tables → Tables) (request_id local_ref : text)
  (label : option text) (cols rows : option N) (term process_label : option text)
  (accepts_input : bool) (sn : Snapshot).

Abbreviation opens in_reply_to c :=
  (on_open terminal_id now (racing race) request_id local_ref label cols rows term process_label accepts_input
     in_reply_to sn c).

Lemma on_open_recs c in_reply_to b c' id' rec :
  handles_ok (cn_reg c) → opens in_reply_to c = (b, c') →
  tb_terminals (g_db (cn_reg c')) !! id' = Some rec →
  let asked : option text := id ← in_reply_to; open_request_principal (dev_device_id (se_device (cn_session c))) id (cn_reg c) in
  tb_terminals (g_db (cn_reg c)) !! id' = Some rec ∨ tb_terminals (race (g_db (cn_reg c))) !! id' = Some rec
  ∨ (id' = terminal_id ∧ c_device_id rec = dev_device_id (se_device (cn_session c))
     ∧ c_requested_by_principal rec = asked
     ∧ c_origin rec = (if bool_decide (is_Some asked) then "request" else "publisher")%string).
Proof.
  intros Hok Hon Hrec. cbv zeta. revert Hon. unfold on_open, request_refused. autorewrite with stm.
  set (asked := _ ≫= _).
  case_goal; [intros [Hr _]%send_then_reg; rewrite Hr in Hrec; auto|].
  case_goal; [intros [Hr _]%send_then_reg; rewrite Hr in Hrec; auto|]. autorewrite with stm. fold asked.
  destruct (validate_open _ _ _ _ _ _) as [[]|detail].
  - rewrite st_bind. unfold reg_call at 1.
    destruct (open_terminal _ _ _ _ _ _ (cn_reg c)) as [r g1] eqn:Hopen.
    intros H. assert (g_db (cn_reg c') = g_db g1) as Hdb.
    { revert H. destruct r as [[loc dd]|err].
      - autorewrite with stm. case_goal; [|by intros [= _ <-]]. autorewrite with stm. by intros ->%resolve_send_db.
      - by intros ->%resolve_send_db. }
    rewrite Hdb in Hrec.
    destruct (open_terminal_recs _ _ _ _ _ _ _ _ _ _ _ Hok Hopen Hrec) as [|[|(?&?&?&Ho&Hp)]]; [auto..|].
    right; right. split_and!; [done|done|exact Hp|]. 
    rewrite Ho. cbn.
    by case_bool_decide.
  - intros Hdb%resolve_send_db. left. by rewrite <- Hdb.
Qed.
End records.

(** ** Acknowledgements and validation *)

Lemma ack_task_covers id seen sends acked :
  (∀ n, sends n = true) → Forall (λ '(_, retired), retired = false) seen →
  ∀ o retired, (o, retired) ∈ seen →
    ∃ d, (d = acked ∨ d ∈ acked_offsets (ack_task id sends acked seen)) ∧ of_durable_offset o ≤ d.
Proof.
  intros Hs Hf. revert sends Hs acked. induction Hf as [|[o1 r1] seen -> _ IH]; intros sends Hs acked o r.
  { by intros ?%elem_of_nil. }
  cbn [ack_task]. rewrite (Hs 0%nat). cbn [andb]. intros [[= -> ->]|Hin]%elem_of_cons.
  - case_N; [|by exists acked; auto]. eexists. split; [right; by left|done].
  - case_N.
    + destruct (IH (λ n, sends (S n)) (λ n, Hs (S n)) (of_durable_offset o1) o r Hin) as (d & Hd & ?).
      exists d. split; [|done]. right. destruct Hd as [->|Hd]; [by left|by right].
    + by apply (IH sends Hs acked o r).
Qed.

Lemma out_of_range_false max v :
  out_of_range max v = false ↔ ∀ x, v = Some x → 0 < x ≤ max.
Proof.
  destruct v as [x|]; cbn; [|done]. rewrite orb_false_iff, N.eqb_neq, N.ltb_ge. split.
  - intros [? ?] ? [= <-]. lia.
  - intros H. specialize (H x eq_refl). lia.
Qed.

(** ** Properties *)

(** C28: whoever waits for a terminal learns what became of the open. When a
    version 2 publisher sends [terminal.open] in answer to a request, then
    whatever the other tasks do while the open is awaited - before, inside and
    after its storage call and its load - the decision is the code's own: the
    validation error when the open is invalid; when the registry opened the
    terminal, that terminal (resident at that point) with its deduplicated
    flag; otherwise [limit_exceeded] with the message of the refusal, whatever
    the refusal was. If the request is still pending at that point, its waiters'
    channel holds exactly that decision when the handler returns; if another
    task resolved and removed it meanwhile, no channel changes. (The two
    version 1 refusals come earlier and are for publishers that are never asked;
    a decline is another message, and its log line can panic first:
    [decline_detail_can_panic].) *)
Theorem open_answers_its_caller (terminal_id : Uuid) (now : N) (mw : Meanwhile)
    (request_id local_ref : text) (label : option text) (cols rows : option N)
    (term process_label : option text) (accepts_input : bool) (sn : Snapshot)
    (c : Conn) (id : text) :
  supports_input (se_version (cn_session c)) = true →
  steady (mw_queued mw) → steady (mw_stored mw) → steady (mw_loaded mw) →
  handles_ok (cn_reg c) →
  let c' := (on_open terminal_id now mw request_id local_ref label cols rows term process_label
               accepts_input (Some id) sn c).2 in
  ∃ outcome g,
    decided terminal_id now mw local_ref label cols rows term process_label accepts_input sn c id outcome g
    ∧ answered (dev_device_id (se_device (cn_session c))) id outcome g (cn_reg c').
Proof. intros Hv Hq Hs Hl Hok c'. by eapply on_open_answers; [..|apply surjective_pairing]. Qed.

(** Alice asked device 1 for a terminal, as request [r]. *)
Definition example_asked : Conn :=
  mkConn (session_new example_device (lit "c1") V2 snapshot_default)
    (begin_open_request 5 1 (lit "r") (lit "alice") 8 64 example_stored).2.

(** While her open is stored, Bob asks too. *)
Definition example_meanwhile : Meanwhile :=
  mkMeanwhile (λ g, g) (λ tb, tb) (λ g, (begin_open_request 6 1 (lit "s") (lit "bob") 8 64 g).2) (λ g, g).

Lemma steady_id : steady (λ g, g).
Proof. intros g Hok. split; [done|]. intros loc h Hh. by exists h. Qed.
Lemma steady_asks now device_id id principal a b :
  steady (λ g, (begin_open_request now device_id id principal a b g).2).
Proof.
  intros g [Hr Hf]. unfold begin_open_request. repeat case_goal; cbn; (split; [by split|naive_solver]) || idtac.
  split; [split; cbn; [done|]|naive_solver]. intros loc h Hh. specialize (Hf loc h Hh). lia.
Qed.

(** The new terminal's channel is answered, Bob's is not. *)
Lemma open_answers_its_caller_witness :
  let c' := (on_open 9 6 example_meanwhile (lit "q") (lit "shell") None (Some 80) (Some 24) None None true
               (Some (lit "r")) snapshot_default example_asked).2 in
  (∃ outcome g,
     decided 9 6 example_meanwhile (lit "shell") None (Some 80) (Some 24) None None true snapshot_default
       example_asked (lit "r") outcome g
     ∧ answered 1 (lit "r") outcome g (cn_reg c'))
  ∧ g_watches (cn_reg c') !! 0 = Some (Some (Opened 9 false))
  ∧ (g_watches (cn_reg c') !!.) ∘ po_tx <$> g_pending_opens (cn_reg c') !! (1, lit "s") = Some (Some None).
Proof.
  split; [|vm_compute; split; reflexivity].
  apply (open_answers_its_caller 9 6 example_meanwhile (lit "q") (lit "shell") None (Some 80) (Some 24) None
           None true snapshot_default example_asked (lit "r")); [reflexivity|apply steady_id|apply steady_asks|apply steady_id|].
  split; intros ?; vm_compute; done.
Defined.

(** The relay's own record says who asked for a terminal. After any
    [terminal.open] every stored terminal is one that was stored before, one
    another connection stored meanwhile, or the new one, which belongs to the
    session's device and carries as requester exactly the principal recorded
    with the pending request it answers; an answer nobody waits for yields an
    ordinary terminal of the publisher. *)
Theorem requests_attributed_by_relay (terminal_id : Uuid) (now : N) (race : Tables → Tables)
    (request_id local_ref : text) (label : option text) (cols rows : option N)
    (term process_label : option text) (accepts_input : bool) (sn : Snapshot)
    (in_reply_to : option text) (c : Conn) :
  handles_ok (cn_reg c) →
  let device_id := dev_device_id (se_device (cn_session c)) in
  let c' := (on_open terminal_id now (racing race) request_id local_ref label cols rows term process_label
               accepts_input in_reply_to sn c).2 in
  let asked : option text :=
    id ← in_reply_to; po_principal_id <$> g_pending_opens (cn_reg c) !! (device_id, id) in
  ∀ id rec, tb_terminals (g_db (cn_reg c')) !! id = Some rec →
    tb_terminals (g_db (cn_reg c)) !! id = Some rec ∨ tb_terminals (race (g_db (cn_reg c))) !! id = Some rec
    ∨ (id = terminal_id ∧ c_device_id rec = device_id ∧ c_requested_by_principal rec = asked
       ∧ c_origin rec = (if bool_decide (is_Some asked) then "request" else "publisher")%string).
Proof. intros Hok device_id c' asked id rec Hrec. by eapply on_open_recs; [|apply surjective_pairing|]. Qed.

(** A forged answer: nobody asked for [x]. *)
Lemma requests_attributed_by_relay_witness :
  let c' := (on_open 9 6 (racing (λ tb, tb)) (lit "q") (lit "shell") None None None None None true
               (Some (lit "x")) snapshot_default example_asked).2 in
  (c_requested_by_principal <$> tb_terminals (g_db (cn_reg c')) !! 9) = Some None
  ∧ ∀ id rec, tb_terminals (g_db (cn_reg c')) !! id = Some rec →
    tb_terminals (g_db (cn_reg example_asked)) !! id = Some rec
    ∨ tb_terminals (g_db (cn_reg example_asked)) !! id = Some rec
    ∨ (id = 9 ∧ c_device_id rec = 1 ∧ c_requested_by_principal rec = None ∧ c_origin rec = "publisher"%string).
Proof.
  split; [vm_compute; reflexivity|].
  apply (requests_attributed_by_relay 9 6 (λ tb, tb) (lit "q") (lit "shell") None None None None None true
           snapshot_default (Some (lit "x")) example_asked).
  split; intros ?; vm_compute; done.
Defined.

(** A publisher cannot write text onto a caller's screen by declining. The
    waiter of a declined request is told the publisher's reason when that is
    one of the five known ones and [internal_error] otherwise; the detail goes
    nowhere, provided it can be cut at 200 bytes. *)
Theorem decline_reason_closed (id reason : text) (detail : option text) (c : Conn) (e : PendingOpen) :
  g_pending_opens (cn_reg c) !! (dev_device_id (se_device (cn_session c)), id) = Some e →
  decline_detail_panics detail = false →
  let '(r, c') := on_open_declined id reason detail c in
  r = Some true ∧ ∃ told, told ∈ KNOWN_DECLINE_REASONS
    ∧ (reason ∈ KNOWN_DECLINE_REASONS → told = reason)
    ∧ (reason ∉ KNOWN_DECLINE_REASONS → told = lit "internal_error")
    ∧ g_watches (cn_reg c') !! po_tx e = Some (Some (Declined told)).
Proof.
  intros He Hd. unfold on_open_declined. rewrite Hd. rewrite st_bind.
  set (told := if bool_decide _ then _ else _).
  destruct (resolve_open_spec id (Declined told) c e He) as (c' & -> & Hw & _).
  split; [done|]. exists told. split_and!; [..|by rewrite Hw, lookup_insert_eq]; unfold told; case_bool_decide; try done.
  unfold KNOWN_DECLINE_REASONS. set_solver.
Qed.

Lemma decline_reason_closed_witness :
  let '(r, c') := on_open_declined (lit "r") (lit "call 555 now") (Some (lit "why")) example_asked in
  r = Some true ∧ ∃ told, told ∈ KNOWN_DECLINE_REASONS
    ∧ (lit "call 555 now" ∈ KNOWN_DECLINE_REASONS → told = lit "call 555 now")
    ∧ (lit "call 555 now" ∉ KNOWN_DECLINE_REASONS → told = lit "internal_error")
    ∧ g_watches (cn_reg c') !! 0 = Some (Some (Declined told)).
Proof.
  apply (decline_reason_closed (lit "r") (lit "call 555 now") (Some (lit "why")) example_asked
           (mkPendingOpen 0 (lit "alice") 5)); vm_compute; reflexivity.
Defined.

(** Two hundred and one bytes, the last two of them one character. *)
Definition example_detail : text := repeat 97 199 ++ [233].

(** A decline can also leave its caller unanswered. The handler cuts the
    detail at byte 200 for the log before it resolves the request; a detail
    with a character across that byte ends the connection's task there, and
    the waiter's channel still holds nothing. *)
Theorem decline_detail_can_panic :
  let '(r, c') := on_open_declined (lit "r") (lit "busy") (Some example_detail) example_asked in
  r = None ∧ g_watches (cn_reg c') !! 0 = Some None
  ∧ is_Some (g_pending_opens (cn_reg c') !! (1, lit "r")).
Proof. vm_compute. eauto. Qed.

(** Acknowledgements only repeat what is durable. Whatever states the
    acknowledgement task finds its terminal in, the offsets it sends strictly
    increase, each is the terminal's durable offset as it was when read, and
    while sends succeed the last one covers all that was durable before the
    terminal retired. *)
Theorem acks_repeat_durability (id : Uuid) (seen : list (Offsets * bool)) (sends : nat → bool) :
  let acks := ack_task id sends 0 seen in
  increasing_from 0 (acked_offsets acks)
  ∧ (∀ m, m ∈ acks → ∃ o retired, (o, retired) ∈ seen
       ∧ m = OutputAck id (of_durable_offset o) (of_next_offset o))
  ∧ ((∀ n, sends n = true) → Forall (λ '(_, retired), retired = false) seen →
     ∀ o retired, (o, retired) ∈ seen → ∃ d, (d = 0 ∨ d ∈ acked_offsets acks) ∧ of_durable_offset o ≤ d).
Proof. destruct (ack_task_spec id sends 0 seen). split_and!; [done..|]. by apply ack_task_covers. Qed.

(** An open request is valid exactly when its reference is not blank and
    every field is within the limits in force. *)
Theorem open_validation_exact (local_ref label : text) (cols rows : option N) (term : option text) (sn : Snapshot) :
  validate_open local_ref label cols rows term sn = Ok () ↔
    trim local_ref ≠ []
    ∧ text_len local_ref ≤ sn_usize keys.LIMITS_MAX_LOCAL_REF_BYTES sn
    ∧ text_len label ≤ sn_usize keys.LIMITS_MAX_LABEL_BYTES sn
    ∧ (∀ t, term = Some t → text_len t ≤ sn_usize keys.LIMITS_MAX_TERM_BYTES sn)
    ∧ (∀ v, cols = Some v → 0 < v ≤ sn_u32 keys.LIMITS_MAX_TERMINAL_COLS sn)
    ∧ (∀ v, rows = Some v → 0 < v ≤ sn_u32 keys.LIMITS_MAX_TERMINAL_ROWS sn).
Proof.
  unfold validate_open. split.
  - destruct (trim local_ref); [done|]. cbn [is_empty]. case_N; [done|]. case_N; [done|].
    destruct (from_option _ _ term) eqn:Ht; [done|].
    destruct (out_of_range _ cols) eqn:Hc; [done|]. destruct (out_of_range _ rows) eqn:Hr; [done|].
    intros _. split_and!; [done..| | |].
    + intros t ->. by apply N.ltb_ge.
    + by apply out_of_range_false.
    + by apply out_of_range_false.
  - intros (Hne & Hl & Hb & Ht & Hc%out_of_range_false & Hr%out_of_range_false).
    destruct (trim local_ref); [done|]. cbn [is_empty]. rewrite (proj2 (N.ltb_ge _ _) Hl), (proj2 (N.ltb_ge _ _) Hb).
    rewrite Hc, Hr. destruct term as [t|]; [|done]. cbn. by rewrite (proj2 (N.ltb_ge _ _) (Ht t eq_refl)).
Qed.

(** The close reason subscribers see is never blank, holds at most 128
    characters and no control character. *)
Theorem close_reason_sanitised (reason : option text) :
  let r := sanitise_reason reason in
  trim r ≠ [] ∧ len r ≤ 128 ∧ Forall (λ c, is_control c = false) r.
Proof.
  unfold sanitise_reason. cbv zeta. set (cleaned := takeN 128 _).
  destruct (trim cleaned) eqn:Ht; cbn [is_empty].
  - split_and!; [by vm_compute|by vm_compute|]. by repeat constructor.
  - rewrite Ht. split_and!; [done|unfold cleaned; len_lia|].
    apply Forall_forall. unfold cleaned, takeN. intros x Hx.
    eapply elem_of_submseteq in Hx; [|apply sublist_submseteq, sublist_take].
    by apply list_elem_of_filter in Hx as [? _].
Qed.
