(* ===== verification/PublisherSession.v ===== *)
(** * The publisher's conversation

    What one connection writes, over its whole life: [ready] first, no message
    after a close frame. The handlers are followed compositionally: [talks]
    says a computation writes no close frame, [orderly] that it closes only
    when it ends the connection. *)

From S2P Require Export PublisherControl.

Open Scope N_scope.
Open Scope hype_scope.

Lemma talks_session_gets {A} (f : Session → A) : talks (session_gets f).
Proof. apply says_gets. Qed.
Lemma talks_reg_gets {A} (f : Registry → A) : talks (reg_gets f).
Proof. apply says_gets. Qed.
Lemma talks_on_reg f : talks (on_reg f).
Proof. by apply says_modify. Qed.
Lemma talks_reg_call {A} (m : Registry → A * Registry) : talks (reg_call m).
Proof. apply says_silent. intros c. unfold reg_call. by destruct (m _). Qed.
Lemma talks_on_session f : (∀ s, se_writer (f s) = se_writer s) → talks (on_session f).
Proof. intros Hf. apply says_modify. intros c. apply Hf. Qed.
#[export] Hint Resolve talks_session_gets talks_reg_gets talks_on_reg talks_reg_call : talk.
#[export] Hint Extern 1 (says _ (on_session _)) => by apply talks_on_session : talk.

Lemma talks_lookup id : talks (lookup id).
Proof. unfold lookup. solve_says. Qed.
Lemma talks_resolve_open id outcome : talks (resolve_open id outcome).
Proof. unfold resolve_open. solve_says. Qed.
Lemma talks_request_refused message id : talks (request_refused message id).
Proof. unfold request_refused. solve_says. Qed.
#[export] Hint Resolve talks_lookup talks_resolve_open talks_request_refused : talk.

Lemma talks_on_open terminal_id now mw rid ref label cols rows term pl acc reply sn :
  talks (on_open terminal_id now mw rid ref label cols rows term pl acc reply sn).
Proof. unfold on_open. solve_says. Qed.
Lemma talks_on_open_declined id reason detail : talks (on_open_declined id reason detail).
Proof. unfold on_open_declined. solve_says. Qed.
Lemma talks_on_capabilities on : talks (on_capabilities on).
Proof. unfold on_capabilities. solve_says. Qed.
Lemma talks_not_found id : talks (not_found id).
Proof. unfold not_found. solve_says. Qed.
#[export] Hint Resolve talks_on_open talks_on_open_declined talks_on_capabilities talks_not_found : talk.
Lemma talks_on_resize now id cols rows sn : talks (on_resize now id cols rows sn).
Proof. unfold on_resize. solve_says. Qed.
Lemma talks_on_close now id reason : talks (on_close now id reason).
Proof. unfold on_close. solve_says. Qed.
#[export] Hint Resolve talks_on_resize talks_on_close : talk.
Lemma talks_on_control id now mw message sn : talks (on_control id now mw message sn).
Proof. unfold on_control. solve_says. Qed.
Lemma talks_append_frame now loc frame capacity sn : talks (append_frame now loc frame capacity sn).
Proof. unfold append_frame. solve_says. Qed.
Lemma talks_forward_delivery d : talks (forward_delivery d).
Proof. unfold forward_delivery. solve_says. Qed.
#[export] Hint Resolve talks_on_control talks_append_frame talks_forward_delivery : talk.

Lemma orderly_backpressure others loc id n capacity limits :
  orderly (apply_backpressure others loc id n capacity limits).
Proof. unfold apply_backpressure. solve_orderly. Qed.
#[export] Hint Resolve orderly_backpressure : talk.

Lemma orderly_on_binary others now bytes sn : orderly (on_binary others now bytes sn).
Proof. unfold on_binary. solve_orderly. Qed.

Lemma orderly_on_text `{JsonApi PublisherMessage} id now mw txt sn :
  orderly_if (default false) (on_text id now mw txt sn).
Proof.
  unfold on_text. apply orderly_bind; [auto with talk|]. intros negotiated.
  case_goal; [by apply orderly_fail|].
  destruct (classify txt); [apply orderly_talks; auto with talk..|by apply orderly_fail].
Qed.
#[export] Hint Resolve orderly_on_binary : talk.

Lemma orderly_pub_event `{JsonApi PublisherMessage} e : orderly (pub_event e).
Proof.
  unfold pub_event. apply orderly_bind; [auto with talk|]. intros sn.
  destruct e as [|[]|answer|[]|[]| |id now mw txt| | |]; try solve [solve_orderly].
  apply orderly_then with (default false); [apply orderly_on_text|intros b _; auto with talk|].
  by intros [[]|].
Qed.

Lemma orderly_pub_loop `{JsonApi PublisherMessage} events : orderly (pub_loop events).
Proof.
  induction events as [|e events IH]; cbn [pub_loop]; [auto with talk|].
  intros c b c' E. apply (orderly_seq (pub_event e) (pub_loop events) (orderly_pub_event e) IH c).
  revert E. rewrite !st_bind. by destruct (pub_event e c) as [[] c1].
Qed.

Lemma send_close_sent m code reason b c b' c' :
  w_gone (se_writer (cn_session c)) = false →
  ((_ ← send m; _ ← close_with code reason; mret b) : ConnM bool) c = (b', c') →
  b' = b ∧ cn_reg c' = cn_reg c
  ∧ w_sent (se_writer (cn_session c')) = w_sent (se_writer (cn_session c)) ++ [OText m; OClose code reason].
Proof.
  intros Hg H. pose proof (w_fail_sent m code reason _ Hg) as Hs.
  rewrite st_bind in H. destruct (send m c) as [ok c1] eqn:E. injection H as <- <-. split; [done|].
  unfold send in E. unfold w_fail in Hs. destruct (w_send m _) as [w ok']. by injection E as _ <-.
Qed.

(** ** Properties *)

(** A connection's conversation is well formed whatever happens on it. The
    first message is [ready] with the negotiated limits; no close frame is
    queued while the connection goes on; and when it ends, a close frame, if
    there is one, is the last thing queued. *)
Theorem publisher_conversation `{JsonApi PublisherMessage} (device : Device) (connection_id : text)
    (version : ProtocolVersion) (events : list PubEvent) (g : Registry) :
  let '(goes_on, c') := pub_handle device connection_id version events g in
  let sn := g_settings g in
  ∃ ms, w_sent (se_writer (cn_session c'))
        = OText (ready_message sn (session_new device connection_id version sn)) :: ms
    ∧ w_gone (se_writer (cn_session c')) = false
    ∧ if goes_on then no_close ms else close_last ms.
Proof.
  destruct (pub_handle _ _ _ _ _) as [b c'] eqn:E. unfold pub_handle in E. rewrite st_bind in E.
  destruct (send _ _) as [ok c1] eqn:Hs. injection Hs as _ <-.
  destruct (orderly_pub_loop _ _ _ _ E) as (ms & [Hgone Hsent] & Hms). exists ms. cbn in Hsent, Hgone. auto.
Qed.

(** The events that end a connection say why. A superseded, revoked or
    deleted publisher and one whose server is shutting down are told so by a
    close frame with the matching code and leave the loop; a database that
    cannot answer disconnects nobody. *)
Theorem ending_events `{JsonApi PublisherMessage} (answer : ApiResult (option Device)) (c : Conn) :
  w_gone (se_writer (cn_session c)) = false →
  let ends e code reason :=
    let '(goes_on, c') := pub_event e c in
    goes_on = false ∧ cn_reg c' = cn_reg c
    ∧ ∃ m, w_sent (se_writer (cn_session c')) = w_sent (se_writer (cn_session c)) ++ [OText m; OClose code reason] in
  ends PeSuperseded close.SUPERSEDED "superseded"%string
  ∧ ends (PeShutdown true) close.SERVER_SHUTDOWN "server_shutdown"%string
  ∧ match answer with
    | Ok (Some (mkDevice _ _ None)) | Err _ => pub_event (PeRecheck answer) c = (true, c)
    | _ => ends (PeRecheck answer) close.REVOKED "revoked"%string
    end.
Proof.
  intros Hgone ends.
  assert (∀ m code reason, ∃ m', w_sent (w_fail m code reason (se_writer (cn_session c)))
            = w_sent (se_writer (cn_session c)) ++ [OText m'; OClose code reason]) as Hfail
    by (intros; eexists; by apply w_fail_sent).
  unfold ends, pub_event. autorewrite with stm. split_and!.
  - split_and!; [done|done|apply Hfail].
  - match goal with |- context [let (_, _) := ?r in _] => destruct r as [b c'] eqn:E end.
    apply send_close_sent in E as (-> & -> & ->); [|done]. eauto.
  - destruct answer as [[[d i [t|]]|]|e]; cbn [principal_revoked dev_revoked_at]; rewrite ?st_bind, ?st_bind_gets;
      [split_and!; [done|done|apply Hfail]|done|split_and!; [done|done|apply Hfail]|done].
Qed.

(** A decoder that knows one message. *)
#[local] Instance pong_only : JsonApi PublisherMessage := {|
  Value := text;
  from_str := Ok;
  is_object _ := true;
  get v _ := Some v;
  as_str := Some;
  as_bool _ := None;
  from_value v := if bool_decide (v = lit "pong") then Ok PPong else Err (lit "unknown");
|}.

Lemma ending_events_witness :
  let '(goes_on, c') := pub_event (PeRecheck (Ok (Some (mkDevice 1 (lit "alice") (Some 5))))) example_conn in
  goes_on = false ∧ cn_reg c' = cn_reg example_conn
  ∧ ∃ m, w_sent (se_writer (cn_session c')) = [] ++ [OText m; OClose close.REVOKED "revoked"].
Proof.
  apply (ending_events (Ok (Some (mkDevice 1 (lit "alice") (Some 5)))) example_conn eq_refl).
Defined.
