(* ===== verification/Float64.v ===== *)
(** * Double-precision numbers and the input token bucket
      ([Bucket] of [server/src/relay/mirror.rs])

    An [f64] is a [spec_float] of precision 53 and exponent bound 1024, the
    binary64 format, with the IEEE operations the Standard Library computes
    on it. Durations are nanoseconds. *)

From S2P Require Export Prelude.
From Stdlib Require Import SpecFloat.

Open Scope N_scope.
Open Scope hype_scope.

Definition f64 : Type := spec_float.

(** [z as f64] *)
Definition f64_of_Z (z : Z) : f64 := binary_normalize 53 1024 z 0 false.
Definition f64_add (a b : f64) : f64 := SFadd 53 1024 a b.
Definition f64_sub (a b : f64) : f64 := SFsub 53 1024 a b.
Definition f64_mul (a b : f64) : f64 := SFmul 53 1024 a b.
Definition f64_div (a b : f64) : f64 := SFdiv 53 1024 a b.
Definition f64_abs (a : f64) : f64 := SFabs a.
Definition f64_lt (a b : f64) : bool := SFltb a b.
Definition f64_le (a b : f64) : bool := SFleb a b.
Definition f64_is_nan (a : f64) : bool := match a with S754_nan => true | _ => false end.
(** [f64::min]: the other argument when one is not a number. *)
Definition f64_min (a b : f64) : f64 :=
  if f64_is_nan a then b else if f64_is_nan b then a else if f64_lt b a then b else a.
(** [f64::EPSILON], 2^-52. *)
Definition f64_EPSILON : f64 := binary_normalize 53 1024 1 (-52) false.

(** [Duration::as_secs_f64] *)
Definition as_secs_f64 (ns : N) : f64 :=
  f64_add (f64_of_Z (Z.of_N (ns / 1000000000)))
    (f64_div (f64_of_Z (Z.of_N (ns mod 1000000000))) (f64_of_Z 1000000000)).

Record Bucket := mkBucket {
  b_tokens : f64;
  b_capacity : f64;
  b_refill_per_second : f64;
  b_last : N;
}.

Definition bucket_new (now : N) (per_minute : f64) : Bucket :=
  mkBucket per_minute per_minute (f64_div per_minute (f64_of_Z 60)) now.

(** [clock] is the two times the call reads: [elapsed], then [now]. *)
Definition bucket_take (clock : N * N) (amount per_minute : f64) (b : Bucket) : bool * Bucket :=
  let b :=
    if f64_lt f64_EPSILON (f64_abs (f64_sub per_minute (b_capacity b))) then
      mkBucket (f64_min (b_tokens b) per_minute) per_minute (f64_div per_minute (f64_of_Z 60)) (b_last b)
    else b in
  let elapsed := as_secs_f64 (clock.1 - b_last b) in
  let tokens :=
    f64_min (f64_add (b_tokens b) (f64_mul elapsed (b_refill_per_second b))) (b_capacity b) in
  if f64_le amount tokens then
    (true, mkBucket (f64_sub tokens amount) (b_capacity b) (b_refill_per_second b) clock.2)
  else (false, mkBucket tokens (b_capacity b) (b_refill_per_second b) clock.2).

(** A minute's allowance of two is spent by two calls, and half a minute earns
    one token back. *)
Example bucket_take_example :
  let m := f64_of_Z 2 in
  let one := f64_of_Z 1 in
  let b := bucket_new 0 m in
  let '(t1, b) := bucket_take (0, 0) one m b in
  let '(t2, b) := bucket_take (0, 0) one m b in
  let '(t3, b) := bucket_take (1000, 1000) one m b in
  let '(t4, b) := bucket_take (30000001000, 30000001000) one m b in
  (t1, t2, t3, t4) = (true, true, false, true).
Proof. vm_compute. reflexivity. Qed.
