(* ===== verification/MirrorConn.v ===== *)
(** * The mirror connection ([server/src/relay/mirror.rs])

    [Mirror] is what one subscriber's connection works on: its writer, its
    input state and the shared registry. [mirror_open] is the first half of
    [handle], up to the subscription; [mirror_event] is one turn of its loop;
    [mirror_handle] is the whole function. The terminal's handle is held for
    the whole connection: it is the location [loc]. What other tasks do while
    the connection waits is an event of its own or an argument [others].
    Metrics and tracing are left out. *)

From S2P Require Export Flush Conversation Frames Float64.

Open Scope N_scope.
Open Scope hype_scope.

Record MirrorContext := mkMirrorContext {
  mc_terminal_id : Uuid;
  mc_identity_id : text;
  mc_connection_id : text;
  mc_version : ProtocolVersion;
  mc_may_send_input : bool;
}.

(** Per-subscription input state. *)
Record InputState := mkInputState {
  is_expected_sequence : N;
  is_accepted_through : N;
  is_frames : Bucket;
  is_bytes : Bucket;
}.

Record Mirror := mkMirror {
  mn_writer : WsWriter;
  mn_input : InputState;
  mn_reg : Registry;
}.
Abbreviation MirM := (StM Mirror).
#[export] Instance mirror_writer : HasWriter Mirror := {|
  writer := mn_writer;
  with_writer w m := mkMirror w (mn_input m) (mn_reg m);
|}.
#[export] Instance mirror_writer_laws : WriterLaws Mirror.
Proof. by split. Qed.

Definition mreg_gets {A} (f : Registry → A) : MirM A := st_gets (λ m, f (mn_reg m)).
Definition on_mreg (f : Registry → Registry) : MirM () :=
  st_modify (λ m, mkMirror (mn_writer m) (mn_input m) (f (mn_reg m))).
Definition mreg_call {A} (f : Registry → A * Registry) : MirM A := λ m,
  let '(a, g) := f (mn_reg m) in (a, mkMirror (mn_writer m) (mn_input m) g).
Definition input_gets {A} (f : InputState → A) : MirM A := st_gets (λ m, f (mn_input m)).
Definition put_input (s : InputState) : MirM () :=
  st_modify (λ m, mkMirror (mn_writer m) s (mn_reg m)).

(** ** Input *)

(** The terminal a handle's getters read. *)
Definition accepts_input_at (loc : N) (g : Registry) : bool :=
  from_option i_accepts_input false (inner_at loc g).
Definition lifecycle_at (loc : N) (g : Registry) : Lifecycle :=
  from_option i_lifecycle Open (inner_at loc g).
Definition device_at (loc : N) (g : Registry) : Uuid := from_option h_device_id 0 (handle_at loc g).
Definition terminal_at (loc : N) (g : Registry) : Uuid := from_option h_terminal_id 0 (handle_at loc g).
Definition next_input_sequence_at (now loc : N) (g : Registry) : N * Registry :=
  match inner_at loc g with
  | Some i => let '(n, i') := term_next_input_sequence now i in (n, on_handle loc (λ _, i') g)
  | None => (0, g)
  end.

Definition input_currently_available (loc : N) (sn : Snapshot) (g : Registry) : bool :=
  sn_bool keys.FEATURES_INPUT_ENABLED sn && accepts_input_at loc g
  && publisher_accepts_input (device_at loc g) g.

(** [x.take(1.0, …) && y.take(len, …)]; the second bucket is only asked when the
    first one grants. *)
Definition take_both (clocks : (N * N) * (N * N)) (n : N) (sn : Snapshot) (s : InputState)
    : bool * InputState :=
  let '(ok, frames) :=
    bucket_take clocks.1 (f64_of_Z 1)
      (f64_of_Z (sn_int keys.RATELIMIT_INPUT_FRAMES_PER_MINUTE_PER_SUBSCRIBER sn)) (is_frames s) in
  let s := mkInputState (is_expected_sequence s) (is_accepted_through s) frames (is_bytes s) in
  if ok then
    let '(ok, bytes) :=
      bucket_take clocks.2 (f64_of_Z (Z.of_N n))
        (f64_of_Z (sn_int keys.RATELIMIT_INPUT_BYTES_PER_MINUTE_PER_SUBSCRIBER sn)) (is_bytes s) in
    (ok, mkInputState (is_expected_sequence s) (is_accepted_through s) (is_frames s) bytes)
  else (false, s).

(** The refusals that leave the subscription open, in the source's order. *)
Definition input_refusal (clocks : (N * N) * (N * N)) (may_send_input accepts_input : bool)
    (lifecycle : Lifecycle) (frame : MirrorInputFrame) (sn : Snapshot) (s : InputState)
    : option (error_code * text) * InputState :=
  if negb (sn_bool keys.FEATURES_INPUT_ENABLED sn) then
    (Some (INPUT_DISABLED, lit "terminal input is disabled by the operator"), s)
  else if negb may_send_input then
    (Some (INPUT_FORBIDDEN, lit "this subscription does not hold the terminals:input scope"), s)
  else if negb accepts_input then
    (Some (INPUT_NOT_ACCEPTED, lit "the publishing device did not opt in to terminal input"), s)
  else if negb (bool_decide (lifecycle = Open)) then
    (Some (TERMINAL_CLOSED, lit "terminal is closed"), s)
  else if is_empty (mif_payload frame) then
    (Some (INVALID_MESSAGE, lit "zero-length input frames must not be sent"), s)
  else if sn_u64 keys.LIMITS_MAX_INPUT_FRAME_BYTES sn <? len (mif_payload frame) then
    (Some (LIMIT_EXCEEDED, lit "input frame exceeds the negotiated maximum of "
             ++ num (sn_u64 keys.LIMITS_MAX_INPUT_FRAME_BYTES sn) ++ lit " bytes"), s)
  else if negb (mif_client_sequence frame =? is_expected_sequence s) then
    (Some (INPUT_SEQUENCE_MISMATCH, lit "expected client sequence " ++ num (is_expected_sequence s)), s)
  else
    let '(ok, s) := take_both clocks (len (mif_payload frame)) sn s in
    if ok then (None, s)
    else (Some (RATE_LIMITED, lit "input rate limit exceeded for this subscription"), s).

Definition handle_input_frame (now : N) (clocks : (N * N) * (N * N)) (bytes : list byte) (loc : N)
    (may_send_input : bool) : MirM bool :=
  terminal_id ← mreg_gets (terminal_at loc);
  sn ← mreg_gets g_settings;
  match decode_mirror_input_frame bytes with
  | Err e =>
      _ ← fail_with (msg_error INVALID_MESSAGE (frame_error_text e)) close.PROTOCOL_ERROR "protocol_error";
      mret false
  | Ok decoded =>
      accepts_input ← mreg_gets (accepts_input_at loc);
      lifecycle ← mreg_gets (lifecycle_at loc);
      state ← input_gets id;
      let '(refusal, state) :=
        input_refusal clocks may_send_input accepts_input lifecycle decoded sn state in
      _ ← put_input state;
      match refusal with
      | Some (code, message) => _ ← send (msg_terminal_error code message terminal_id); mret true
      | None =>
          relay_sequence ← mreg_call (next_input_sequence_at now loc);
          device_id ← mreg_gets (device_at loc);
          delivered ← mreg_call (deliver_to_publisher device_id
                                   (PdInput terminal_id relay_sequence (mif_payload decoded)));
          match delivered with
          | Ok _ =>
              _ ← put_input (mkInputState (is_expected_sequence state +₆₄ 1) (mif_client_sequence decoded)
                               (is_frames state) (is_bytes state));
              _ ← send (InputAck (mif_client_sequence decoded) relay_sequence);
              mret true
          | Err NoPublisher =>
              _ ← send (msg_terminal_error INPUT_UNDELIVERABLE
                          (lit "no version 2 publisher is connected for this terminal's device") terminal_id);
              mret true
          | Err Backpressure =>
              _ ← send (msg_terminal_error INPUT_BACKPRESSURE
                          (lit "the publisher is not keeping up with input; try again") terminal_id);
              mret true
          end
      end
  end.

Definition resize_refusal (cols rows : N) (version : ProtocolVersion) (may_send_input accepts_input : bool)
    (sn : Snapshot) : option text :=
  if negb (supports_input version) then
    Some (lit "resize requests require the terminal-relay.mirror.v2 subprotocol")
  else if negb (sn_bool keys.FEATURES_CLIENT_RESIZE_ENABLED sn) then
    Some (lit "client-initiated resize is disabled by the operator")
  else if negb may_send_input || negb accepts_input then
    Some (lit "this subscription may not drive this terminal")
  else if (cols =? 0) || (rows =? 0) || (sn_u32 keys.LIMITS_MAX_TERMINAL_COLS sn <? cols)
          || (sn_u32 keys.LIMITS_MAX_TERMINAL_ROWS sn <? rows) then
    Some (lit "requested terminal dimensions are out of range")
  else None.

Definition handle_resize_request (cols rows loc : N) (version : ProtocolVersion) (may_send_input : bool)
    : MirM () :=
  terminal_id ← mreg_gets (terminal_at loc);
  sn ← mreg_gets g_settings;
  accepts_input ← mreg_gets (accepts_input_at loc);
  match resize_refusal cols rows version may_send_input accepts_input sn with
  | Some message =>
      _ ← send (msg_terminal_error RESIZE_REFUSED message terminal_id); mret ()
  | None =>
      device_id ← mreg_gets (device_at loc);
      delivered ← mreg_call (deliver_to_publisher device_id (PdResizeRequest terminal_id cols rows));
      match delivered with
      | Ok _ => mret ()
      | Err _ =>
          _ ← send (msg_terminal_error INPUT_UNDELIVERABLE
                      (lit "no version 2 publisher is connected for this terminal's device") terminal_id);
          mret ()
      end
  end.

(** ** The handshake *)

(** What the socket yields; [InEnd] is the end of the stream or a failed read. *)
Inductive WsIn :=
| InText (txt : text)
| InBinary (bytes : list byte)
| InPingPong
| InClose
| InEnd.

Inductive Handshake := HsOffset (from_offset : option N) | HsFailed | HsTimeout.

(** [read_subscribe] under its timeout: the list is what arrives before the
    deadline. *)
Fixpoint read_subscribe `{JsonApi MirrorMessage} (sn : Snapshot) (incoming : list WsIn)
    : MirM Handshake :=
  match incoming with
  | [] => mret HsTimeout
  | InEnd :: _ => mret HsFailed
  | InText txt :: rest =>
      if sn_u64 keys.LIMITS_MAX_CONTROL_MESSAGE_BYTES sn <? text_len txt then
        _ ← fail_with (msg_error LIMIT_EXCEEDED (lit "control message exceeds the maximum size"))
              close.LIMIT_EXCEEDED "limit_exceeded";
        mret HsFailed
      else
        match classify txt with
        | Message (MSubscribe from_offset) => mret (HsOffset from_offset)
        | Message MPong | Message (MResizeRequest _ _) => read_subscribe sn rest
        | Ignorable _ => read_subscribe sn rest
        | Rejected detail =>
            _ ← fail_with (msg_error INVALID_MESSAGE detail) close.PROTOCOL_ERROR "protocol_error";
            mret HsFailed
        end
  | InBinary _ :: _ =>
      _ ← fail_with (msg_error INVALID_MESSAGE
             (lit "the first message must be a subscribe control message"))
            close.PROTOCOL_ERROR "protocol_error";
      mret HsFailed
  | InPingPong :: rest => read_subscribe sn rest
  | InClose :: _ => mret HsFailed
  end.

(** [handle.subscribe] on the shared handle. *)
Definition subscribe_at (loc : N) (requested : option N) (sn : Snapshot) (g : Registry)
    : option (result SubscribeError Subscription) * Registry :=
  match inner_at loc g with
  | Some i =>
      match term_subscribe requested (sn_usize keys.MIRROR_REPLAY_CHUNK_BYTES sn)
              (sn_usize keys.MIRROR_SUBSCRIBER_QUEUE_MESSAGES sn)
              (sn_u64 keys.MIRROR_SUBSCRIBER_QUEUE_BYTES sn) i with
      | Ok (sub, i') => (Some (Ok sub), on_handle loc (λ _, i') g)
      | Err e => (Some (Err e), g)
      end
  | None => (None, g)
  end.

Definition refuse_subscription (m : ServerMessage) (code : N) (reason : string)
    : MirM (option (N * option N * Subscription)) :=
  _ ← fail_with m code reason; mret None.

(** [handle] up to the subscription: where the handle is, what was requested
    and the subscription, unless the connection has been ended. *)
Definition mirror_open `{JsonApi MirrorMessage} (ctx : MirrorContext) (sn : Snapshot)
    (incoming : list WsIn) (others : Registry → Registry)
    : MirM (option (N * option N * Subscription)) :=
  handshake ← read_subscribe sn incoming;
  match handshake with
  | HsFailed => mret None
  | HsTimeout =>
      refuse_subscription
        (msg_error HANDSHAKE_TIMEOUT (lit "no subscribe message arrived before the handshake deadline"))
        close.HANDSHAKE_TIMEOUT "handshake_timeout"
  | HsOffset requested =>
      _ ← on_mreg others;
      loaded ← mreg_call (get_or_load (mc_terminal_id ctx));
      match loaded with
      | Ok None =>
          refuse_subscription (msg_error TERMINAL_NOT_FOUND (lit "terminal not found"))
            close.NOT_FOUND "not_found"
      | Err e =>
          refuse_subscription (msg_error STORAGE_UNAVAILABLE (ae_message e))
            close.STORAGE_UNAVAILABLE "storage_unavailable"
      | Ok (Some loc) =>
          owner ← mreg_gets (λ g, h_identity_id <$> handle_at loc g);
          if negb (bool_decide (owner = Some (mc_identity_id ctx))) then
            refuse_subscription (msg_error TERMINAL_NOT_FOUND (lit "terminal not found"))
              close.NOT_FOUND "not_found"
          else
            subscribed ← mreg_call (subscribe_at loc requested sn);
            match subscribed with
            | None => mret None
            | Some (Ok sub) => mret (Some (loc, requested, sub))
            | Some (Err (OffsetAhead next_offset durable_offset)) =>
                refuse_subscription
                  (SError OFFSET_AHEAD (lit "requested offset is beyond the terminal's next_offset")
                     (Some (mc_terminal_id ctx)) None (Some next_offset) (Some durable_offset))
                  close.OFFSET_AHEAD "offset_ahead"
            end
      end
  end.

(** ** Output *)

Definition unsubscribe_at (loc subscriber_id : N) : MirM () :=
  on_mreg (on_handle loc (term_unsubscribe subscriber_id)).

Fixpoint send_replay (replay : list (N * list byte)) : MirM bool :=
  match replay with
  | [] => mret true
  | (start_offset, payload) :: rest =>
      ok ← send_binary (encode_mirror_frame start_offset payload);
      if (ok : bool) then send_replay rest else mret false
  end.

Definition announce (ctx : MirrorContext) (sn : Snapshot) (loc : N) (requested : option N)
    (sub : Subscription) : MirM () :=
  let requested_offset := default (of_earliest_offset (sub_offsets sub)) requested in
  accepts ← mreg_gets (accepts_input_at loc);
  available ← mreg_gets (input_currently_available loc sn);
  _ ← send (subscribed_message (mc_terminal_id ctx) requested_offset sub
              (if supports_input (mc_version ctx)
               then Some (accepts, mc_may_send_input ctx && accepts && available) else None));
  match sub_gap sub with
  | Some (requested_from, available_from) =>
      _ ← send (Gap (mc_terminal_id ctx) requested_from available_from); mret ()
  | None => mret ()
  end.

Inductive Delivery := DeliveryContinue | DeliveryClosed | DeliveryFailed.

Definition sent_or_failed (ok : bool) : Delivery := if ok then DeliveryContinue else DeliveryFailed.
Definition deliver (terminal_id : Uuid) (event : MirrorEvent) : MirM Delivery :=
  match event with
  | EvOutput start_offset payload =>
      if is_empty payload then mret DeliveryContinue
      else ok ← send_binary (encode_mirror_frame start_offset payload); mret (sent_or_failed ok)
  | EvDurable durable_offset => ok ← send (Durable durable_offset); mret (sent_or_failed ok)
  | EvResize cols rows => ok ← send (TerminalResize terminal_id cols rows); mret (sent_or_failed ok)
  | EvClosed reason next_offset durable_offset =>
      ok ← send (TerminalClosed terminal_id reason next_offset durable_offset);
      mret (if (ok : bool) then DeliveryClosed else DeliveryFailed)
  end.

(** The subscription's channel, shared with the terminal. *)
Definition chan_at (loc subscriber_id : N) (g : Registry) : option Chan :=
  i ← inner_at loc g; i_channels i !! subscriber_id.
Definition put_chan (loc subscriber_id : N) (c : Chan) : Registry → Registry :=
  on_handle loc (λ i, set_channels (<[subscriber_id := c]> (i_channels i)) i).
Definition recv_at (loc subscriber_id : N) (g : Registry) : Recv * Registry :=
  match chan_at loc subscriber_id g with
  | Some c => let '(r, c') := chan_recv c in (r, put_chan loc subscriber_id c' g)
  | None => (RecvClosed, g)
  end.
Definition account_at (loc subscriber_id : N) (e : MirrorEvent) (g : Registry) : Registry :=
  match chan_at loc subscriber_id g with
  | Some c => put_chan loc subscriber_id (chan_account e c) g
  | None => g
  end.

(** Why the terminal dropped the sender. *)
Definition report_termination (loc subscriber_id : N) (terminal_id : Uuid) : MirM () :=
  termination ← mreg_gets (λ g, chan_at loc subscriber_id g ≫= ch_terminate);
  overflowed ← mreg_gets (λ g, from_option ch_overflowed false (chan_at loc subscriber_id g));
  if (overflowed : bool) then
    let t := termination_slow_consumer in
    fail_with (msg_terminal_error (tm_error_code t) (tm_message t) terminal_id) (tm_close_code t) "slow_consumer"
  else
    match termination with
    | Some t =>
        fail_with (msg_terminal_error (tm_error_code t) (tm_message t) terminal_id) (tm_close_code t) "terminated"
    | None => close_with close.GOING_AWAY "going_away"
    end.

(** ** The loop *)

(** [Broke] and [BrokeClosed] are [break], the latter with [closed_normally]. *)
Inductive Turn := Going | Broke | BrokeClosed.

Inductive MirEvent :=
| MeShutdown (now : bool)
(** The receiver yields; [others] run before the queued bytes are accounted. *)
| MeReceive (others : Registry → Registry)
| MeText (txt : text)
| MeBinary (now : N) (clocks : (N * N) * (N * N)) (bytes : list byte)
| MePingPong
| MeClosed
| MeHeartbeat (expired : bool)
| MeOthers (others : Registry → Registry).

Definition mirror_received (loc subscriber_id : N) (terminal_id : Uuid) (others : Registry → Registry)
    : MirM Turn :=
  received ← mreg_call (recv_at loc subscriber_id);
  match received with
  | RecvPending => mret Going
  | RecvEvent event =>
      _ ← on_mreg others;
      _ ← on_mreg (account_at loc subscriber_id event);
      delivery ← deliver terminal_id event;
      mret match delivery with
           | DeliveryContinue => Going
           | DeliveryClosed => BrokeClosed
           | DeliveryFailed => Broke
           end
  | RecvClosed => _ ← report_termination loc subscriber_id terminal_id; mret Broke
  end.

Definition mirror_event `{JsonApi MirrorMessage} (ctx : MirrorContext) (loc subscriber_id : N)
    (e : MirEvent) : MirM Turn :=
  match e with
  | MeShutdown true =>
      _ ← send (SNotice SERVER_SHUTDOWN
            (lit "server is shutting down; reconnect and resume from your last processed offset"));
      _ ← close_with close.SERVER_SHUTDOWN "server_shutdown";
      mret Broke
  | MeShutdown false => mret Going
  | MeReceive others => mirror_received loc subscriber_id (mc_terminal_id ctx) others
  | MeText txt =>
      match classify txt with
      | Message MPong => mret Going
      | Message (MResizeRequest cols rows) =>
          _ ← handle_resize_request cols rows loc (mc_version ctx) (mc_may_send_input ctx);
          mret Going
      | Message (MSubscribe _) =>
          _ ← fail_with (msg_error ALREADY_SUBSCRIBED (lit "this connection is already subscribed"))
                close.PROTOCOL_ERROR "protocol_error";
          mret Broke
      | Ignorable _ => mret Going
      | Rejected detail =>
          _ ← fail_with (msg_error INVALID_MESSAGE detail) close.PROTOCOL_ERROR "protocol_error";
          mret Broke
      end
  | MeBinary now clocks bytes =>
      if negb (supports_input (mc_version ctx)) then
        _ ← fail_with (msg_error INVALID_MESSAGE
               (lit "terminal-relay.mirror.v1 subscribers must not send binary frames"))
              close.PROTOCOL_ERROR "protocol_error";
        mret Broke
      else
        go_on ← handle_input_frame now clocks bytes loc (mc_may_send_input ctx);
        mret (if (go_on : bool) then Going else Broke)
  | MePingPong => mret Going
  | MeClosed => mret Broke
  | MeHeartbeat true => _ ← close_with close.HEARTBEAT_TIMEOUT "heartbeat_timeout"; mret Broke
  | MeHeartbeat false => ok ← send_ping; mret (if (ok : bool) then Going else Broke)
  | MeOthers others => _ ← on_mreg others; mret Going
  end.

Fixpoint mirror_loop `{JsonApi MirrorMessage} (ctx : MirrorContext) (loc subscriber_id : N)
    (events : list MirEvent) : MirM Turn :=
  match events with
  | [] => mret Going
  | e :: rest =>
      turn ← mirror_event ctx loc subscriber_id e;
      match turn with
      | Going => mirror_loop ctx loc subscriber_id rest
      | _ => mret turn
      end
  end.

Definition mirror_ready_message (ctx : MirrorContext) (sn : Snapshot) : ServerMessage :=
  Ready (mc_connection_id ctx) (mirror_subprotocol (mc_version ctx)) None
    (mkPublisherLimits (sn_u64 keys.MIRROR_REPLAY_CHUNK_BYTES sn) 0
       (sn_u64 keys.LIMITS_MAX_CONTROL_MESSAGE_BYTES sn) 1 (replay_capacity sn)
       (sn_u64 keys.WEBSOCKET_HEARTBEAT_INTERVAL_SECONDS sn)
       (sn_u64 keys.WEBSOCKET_HEARTBEAT_TIMEOUT_SECONDS sn)
       (if supports_input (mc_version ctx) then Some (sn_u64 keys.LIMITS_MAX_INPUT_FRAME_BYTES sn) else None))
    (sn_revision sn).

Definition input_state_new (now : N) (sn : Snapshot) : InputState :=
  mkInputState 1 0
    (bucket_new now (f64_of_Z (sn_int keys.RATELIMIT_INPUT_FRAMES_PER_MINUTE_PER_SUBSCRIBER sn)))
    (bucket_new now (f64_of_Z (sn_int keys.RATELIMIT_INPUT_BYTES_PER_MINUTE_PER_SUBSCRIBER sn))).

(** What follows the subscription; the answer is whether the connection is
    still open when the events run out. *)
Definition mirror_serve `{JsonApi MirrorMessage} (ctx : MirrorContext) (sn : Snapshot) (now : N)
    (events : list MirEvent) (loc : N) (requested : option N) (sub : Subscription) : MirM bool :=
  _ ← announce ctx sn loc requested sub;
  replayed ← send_replay (sub_replay sub);
  if negb replayed then _ ← unsubscribe_at loc (sub_subscriber_id sub); mret false
  else
    _ ← put_input (input_state_new now sn);
    turn ← mirror_loop ctx loc (sub_subscriber_id sub) events;
    match turn with
    | Going => mret true
    | Broke => _ ← unsubscribe_at loc (sub_subscriber_id sub); mret false
    | BrokeClosed =>
        _ ← unsubscribe_at loc (sub_subscriber_id sub);
        _ ← close_with close.NORMAL "terminal_closed";
        mret false
    end.

Definition mirror_handle `{JsonApi MirrorMessage} (ctx : MirrorContext) (incoming : list WsIn)
    (others : Registry → Registry) (now : N) (events : list MirEvent) (g : Registry) : bool * Mirror :=
  let sn := g_settings g in
  (_ ← send (mirror_ready_message ctx sn);
   opened ← mirror_open ctx sn incoming others;
   match opened with
   | Some (loc, requested, sub) => mirror_serve ctx sn now events loc requested sub
   | None => mret false
   end) (mkMirror (mkWsWriter [] false) (input_state_new now sn) g).
