(* ===== verification/MirrorProps.v ===== *)
(** * What a mirror connection guarantees

    Input reaches the publisher only when every condition holds at that
    moment, once and in the order of the client's sequence; a stranger cannot
    tell another identity's terminal from one that does not exist while loading
    does not fail; the
    replay and every event are forwarded in order and nothing follows a
    close. *)

From S2P Require Export MirrorConn RegistryTerminals.

Open Scope N_scope.
Open Scope hype_scope.

(** ** Helpers *)

Lemma bind_mreg_gets {A B} (f : Registry → A) (k : A → MirM B) m : (mreg_gets f ≫= k) m = k (f (mn_reg m)) m.
Proof. done. Qed.
Lemma bind_on_mreg {B} (f : Registry → Registry) (k : () → MirM B) m :
  (on_mreg f ≫= k) m = k () (mkMirror (mn_writer m) (mn_input m) (f (mn_reg m))).
Proof. done. Qed.
Lemma bind_input_gets {A B} (f : InputState → A) (k : A → MirM B) m :
  (input_gets f ≫= k) m = k (f (mn_input m)) m.
Proof. done. Qed.
Lemma bind_put_input {B} s (k : () → MirM B) m :
  (put_input s ≫= k) m = k () (mkMirror (mn_writer m) s (mn_reg m)).
Proof. done. Qed.
#[export] Hint Rewrite @bind_mreg_gets @bind_on_mreg @bind_input_gets @bind_put_input : stm.

(** A last message of a live connection. *)
Lemma msend_last {A} msg (a : A) m :
  w_gone (mn_writer m) = false →
  ((_ ← send msg; mret a) : MirM A) m
  = (a, mkMirror (mkWsWriter (w_sent (mn_writer m) ++ [OText msg]) false) (mn_input m) (mn_reg m)).
Proof. destruct m as [[sent gone] i g]. cbn. intros ->. done. Qed.

(** ** Input *)

(** A grant of the rate limiter moves the buckets only. *)
Lemma take_both_state clocks n sn s ok s' :
  take_both clocks n sn s = (ok, s') →
  is_expected_sequence s' = is_expected_sequence s ∧ is_accepted_through s' = is_accepted_through s.
Proof.
  unfold take_both. destruct (bucket_take clocks.1 _ _ _) as [[] frames].
  - destruct (bucket_take clocks.2 _ _ _) as [ok' bytes]. by intros [= _ <-].
  - by intros [= _ <-].
Qed.

(** The conditions a frame has to meet besides the rate limit. *)
Definition input_allowed (may_send_input accepts_input : bool) (lifecycle : Lifecycle)
    (frame : MirrorInputFrame) (sn : Snapshot) (s : InputState) : Prop :=
  sn_bool keys.FEATURES_INPUT_ENABLED sn = true ∧ may_send_input = true ∧ accepts_input = true
  ∧ lifecycle = Open ∧ 0 < len (mif_payload frame) ≤ sn_u64 keys.LIMITS_MAX_INPUT_FRAME_BYTES sn
  ∧ mif_client_sequence frame = is_expected_sequence s.

Lemma input_refusal_spec clocks may acc lifecycle frame sn s refusal s' :
  input_refusal clocks may acc lifecycle frame sn s = (refusal, s') →
  is_expected_sequence s' = is_expected_sequence s ∧ is_accepted_through s' = is_accepted_through s
  ∧ (refusal = None ↔ input_allowed may acc lifecycle frame sn s
       ∧ (take_both clocks (len (mif_payload frame)) sn s).1 = true).
Proof.
  unfold input_refusal, input_allowed.
  destruct (sn_bool keys.FEATURES_INPUT_ENABLED sn); cbn [negb];
    [|intros [= <- <-]; split_and!; [done..|naive_solver]].
  destruct may; cbn [negb]; [|intros [= <- <-]; split_and!; [done..|naive_solver]].
  destruct acc; cbn [negb]; [|intros [= <- <-]; split_and!; [done..|naive_solver]].
  case_bool_decide; cbn [negb]; [|intros [= <- <-]; split_and!; [done..|naive_solver]].
  destruct (mif_payload frame) as [|b payload] eqn:Hp; cbn [is_empty].
  { intros [= <- <-]. split_and!; [done..|]. split; [done|]. by intros [(_&_&_&_&[H0 _]&_) _]. }
  assert (0 < len (mif_payload frame)) as Hpos by (rewrite Hp; len_lia). rewrite <- Hp in *. clear Hp.
  destruct (N.ltb_spec (sn_u64 keys.LIMITS_MAX_INPUT_FRAME_BYTES sn) (len (mif_payload frame))).
  { intros [= <- <-]. split_and!; [done..|]. split; [done|]. intros [(_&_&_&_&[_ ?]&_) _]. lia. }
  destruct (N.eqb_spec (mif_client_sequence frame) (is_expected_sequence s)); cbn [negb];
    [|intros [= <- <-]; split_and!; [done..|naive_solver]].
  destruct (take_both _ _ _ _) as [ok s1] eqn:Ht. apply take_both_state in Ht as [H1 H2].
  destruct ok; intros [= <- <-]; (split_and!; [done|done|]); naive_solver.
Qed.

(** The channel a device's publisher can still take a delivery on. *)
Definition accepting_channel (device_id : Uuid) (g : Registry) : option (N * InputChan) :=
  tx ← (g_publishers g !! device_id ≫= ps_input_tx);
  c ← g_inputs g !! tx;
  if ic_rx_open c && (len (ic_queue c) <? ic_capacity c) then Some (tx, c) else None.
Definition queue_delivery (tx : N) (c : InputChan) (d : PublisherDelivery) (g : Registry) : Registry :=
  put_inputs (<[tx := mkInputChan (ic_queue c ++ [d]) (ic_capacity c) true]> (g_inputs g)) g.

Lemma deliver_to_publisher_spec device_id d g :
  ∃ e, deliver_to_publisher device_id d g
  = match accepting_channel device_id g with
    | Some (tx, c) => (Ok (), queue_delivery tx c d g)
    | None => (Err e, g)
    end.
Proof.
  unfold deliver_to_publisher, accepting_channel. destruct (g_publishers g !! device_id ≫= ps_input_tx) as [tx|];
    cbn; [|by eexists]. destruct (g_inputs g !! tx) as [c|]; cbn; [|by eexists].
  destruct (ic_rx_open c) eqn:Ho; cbn [negb andb]; [|by eexists].
  destruct (N.leb_spec (ic_capacity c) (len (ic_queue c))).
  - rewrite (proj2 (N.ltb_ge _ _)) by done. by eexists.
  - rewrite (proj2 (N.ltb_lt _ _)) by done. by exists NoPublisher.
Qed.

(** The frame was queued for the publisher, and the client told so. *)
Definition input_delivered (loc : N) (frame : MirrorInputFrame) (m m' : Mirror) : Prop :=
  ∃ i tx c, inner_at loc (mn_reg m) = Some i
    ∧ accepting_channel (device_at loc (mn_reg m)) (mn_reg m) = Some (tx, c)
    ∧ let seq := i_next_input_sequence i in
      g_inputs (mn_reg m')
        = g_inputs (queue_delivery tx c (PdInput (terminal_at loc (mn_reg m)) seq (mif_payload frame)) (mn_reg m))
      ∧ w_sent (mn_writer m') = w_sent (mn_writer m) ++ [OText (InputAck (mif_client_sequence frame) seq)]
      ∧ is_expected_sequence (mn_input m') = is_expected_sequence (mn_input m) +₆₄ 1
      ∧ is_accepted_through (mn_input m') = mif_client_sequence frame.
(** Nothing was queued; the client may try the same sequence again. *)
Definition input_refused (loc : N) (m m' : Mirror) : Prop :=
  g_inputs (mn_reg m') = g_inputs (mn_reg m)
  ∧ (∃ code message, w_sent (mn_writer m')
       = w_sent (mn_writer m) ++ [OText (msg_terminal_error code message (terminal_at loc (mn_reg m)))])
  ∧ is_expected_sequence (mn_input m') = is_expected_sequence (mn_input m)
  ∧ is_accepted_through (mn_input m') = is_accepted_through (mn_input m).

Lemma handle_input_frame_spec now clocks bytes loc may m frame b m' :
  decode_mirror_input_frame bytes = Ok frame →
  w_gone (mn_writer m) = false →
  handle_input_frame now clocks bytes loc may m = (b, m') →
  let sn := g_settings (mn_reg m) in
  let allowed := input_allowed may (accepts_input_at loc (mn_reg m)) (lifecycle_at loc (mn_reg m)) frame sn (mn_input m)
    ∧ (take_both clocks (len (mif_payload frame)) sn (mn_input m)).1 = true
    ∧ is_Some (accepting_channel (device_at loc (mn_reg m)) (mn_reg m)) in
  b = true ∧ w_gone (mn_writer m') = false
  ∧ ((allowed ∧ input_delivered loc frame m m') ∨ (¬ allowed ∧ input_refused loc m m')).
Proof.
  intros Hdec Hgone H sn allowed. revert H. unfold handle_input_frame. rewrite Hdec. autorewrite with stm.
  fold sn.
  destruct (input_refusal _ _ _ _ _ _ _) as [refusal s'] eqn:Href.
  apply input_refusal_spec in Href as (He & Ha & Hiff). cbn [id] in *.
  destruct refusal as [[code message]|].
  { autorewrite with stm. rewrite msend_last by done. intros [= <- <-]. split_and!; [done|done|right; split].
    - intros (H1 & H2 & _). pose proof (proj2 Hiff (conj H1 H2)) as [=].
    - split_and!; [done|by do 2 eexists|exact He|exact Ha]. }
  destruct (proj1 Hiff eq_refl) as [Hallow Hgrant].
  assert (∃ i, inner_at loc (mn_reg m) = Some i) as [i Hi].
  { destruct Hallow as (_ & _ & Hacc & _). unfold accepts_input_at in Hacc.
    destruct (inner_at loc (mn_reg m)) as [i|]; [by exists i|done]. }
  autorewrite with stm. rewrite st_bind. unfold mreg_call at 1, next_input_sequence_at. cbn [mn_reg]. rewrite Hi.
  cbn [term_next_input_sequence fst snd]. set (g1 := on_handle _ _ _).
  autorewrite with stm. rewrite st_bind. unfold mreg_call. cbn [mn_reg].
  edestruct deliver_to_publisher_spec as [err ->].
  assert (device_at loc g1 = device_at loc (mn_reg m)) as ->.
  { unfold device_at, handle_at, g1. cbn. rewrite lookup_alter_eq.
    unfold inner_at, handle_at in Hi. by destruct (g_handles (mn_reg m) !! loc). }
  change (accepting_channel (device_at loc (mn_reg m)) g1) with (accepting_channel (device_at loc (mn_reg m)) (mn_reg m)).
  destruct (accepting_channel _ (mn_reg m)) as [[tx c]|] eqn:Hchan.
  - autorewrite with stm. rewrite msend_last by done. intros [= <- <-]. split_and!; [done|done|left; split].
    + by split_and!.
    + exists i, tx, c. split_and!; [done|done|]. cbn. by rewrite He.
  - intros H.
    assert (b = true ∧ w_gone (mn_writer m') = false ∧ input_refused loc m m') as (-> & -> & Hr).
    { revert H. case_goal; rewrite msend_last by done; intros [= <- <-];
        (split_and!; [done|done|]); (split_and!; [done|by do 2 eexists|exact He|exact Ha]). }
    split_and!; [done|done|right]. split; [|done]. intros (_ & _ & [x Hx]). congruence.
Qed.

(** ** What else the connection does *)

Section silent.
Context (P : WsOut → Prop).
Lemma says_mreg_gets {A} (f : Registry → A) : says P (mreg_gets f).
Proof. apply says_gets. Qed.
Lemma says_input_gets {A} (f : InputState → A) : says P (input_gets f).
Proof. apply says_gets. Qed.
Lemma says_on_mreg f : says P (on_mreg f).
Proof. by apply says_modify. Qed.
Lemma says_put_input s : says P (put_input s).
Proof. by apply says_modify. Qed.
Lemma says_mreg_call {A} (f : Registry → A * Registry) : says P (mreg_call f).
Proof. apply says_silent. intros m. unfold mreg_call. by destruct (f _). Qed.
Lemma says_unsubscribe_at loc id : says P (unsubscribe_at loc id).
Proof. apply says_on_mreg. Qed.
End silent.
#[export] Hint Resolve says_mreg_gets says_input_gets says_on_mreg says_put_input says_mreg_call
  says_unsubscribe_at : talk.

Lemma orderly_handle_input_frame now clocks bytes loc may : orderly (handle_input_frame now clocks bytes loc may).
Proof. unfold handle_input_frame. solve_orderly. Qed.
Lemma says_handle_resize_request P cols rows loc version may :
  (∀ m, match m with SError _ _ _ _ _ _ => P (OText m) | _ => True end) →
  says P (handle_resize_request cols rows loc version may).
Proof.
  intros HP. assert (∀ code message id, P (OText (msg_terminal_error code message id))) as HP'
    by (intros; apply (HP (msg_terminal_error _ _ _))).
  unfold handle_resize_request. solve_says.
Qed.
Lemma talks_handle_resize_request cols rows loc version may : talks (handle_resize_request cols rows loc version may).
Proof. apply says_handle_resize_request. by intros []. Qed.
#[export] Hint Resolve orderly_handle_input_frame talks_handle_resize_request : talk.

(** The connection goes on, or ends so that it may still say goodbye. *)
Definition turn_open (t : Turn) : bool := match t with Broke => false | _ => true end.

Lemma talks_deliver id e : talks (deliver id e).
Proof. unfold deliver. solve_says. Qed.
#[export] Hint Resolve talks_deliver : talk.

Lemma orderly_report_termination loc sid id :
  orderly_if turn_open (_ ← report_termination loc sid id; mret Broke).
Proof.
  unfold report_termination. apply orderly_assoc, orderly_bind; [auto with talk|]. intros termination.
  apply orderly_assoc, orderly_bind; [auto with talk|]. intros [].
  - by apply orderly_fail.
  - destruct termination; [by apply orderly_fail|by apply orderly_close].
Qed.
#[export] Hint Resolve orderly_report_termination : talk.

Lemma orderly_mirror_received loc sid id others : orderly_if turn_open (mirror_received loc sid id others).
Proof. unfold mirror_received. solve_orderly. Qed.
#[export] Hint Resolve orderly_mirror_received : talk.

Lemma orderly_mirror_event `{JsonApi MirrorMessage} ctx loc sid e :
  orderly_if turn_open (mirror_event ctx loc sid e).
Proof.
  destruct e as [[]| | |now clocks bytes| | |[]|]; cbn [mirror_event]; try solve [solve_orderly].
  case_goal; [solve_orderly|]. apply orderly_then with (λ b : bool, b); [auto with talk|..].
  - intros b ->. auto with talk.
  - by intros b s ->.
Qed.

Lemma orderly_mirror_loop `{JsonApi MirrorMessage} ctx loc sid events :
  orderly_if turn_open (mirror_loop ctx loc sid events).
Proof.
  induction events as [|e events IH]; cbn [mirror_loop]; [auto with talk|].
  apply orderly_then with turn_open; [apply orderly_mirror_event| |by intros []].
  intros []; [done|done|auto with talk].
Qed.

Lemma orderly_read_subscribe `{JsonApi MirrorMessage} sn incoming :
  orderly_if (λ h, match h with HsFailed => false | _ => true end) (read_subscribe sn incoming).
Proof.
  induction incoming as [|[] incoming IH]; cbn [read_subscribe]; solve_orderly.
Qed.

Lemma orderly_mirror_open `{JsonApi MirrorMessage} ctx sn incoming others :
  orderly_if (λ r, match r with Some _ => true | None => false end) (mirror_open ctx sn incoming others).
Proof.
  unfold mirror_open, refuse_subscription.
  apply orderly_then with (λ h, match h with HsFailed => false | _ => true end);
    [apply orderly_read_subscribe| |by intros []].
  intros h _. solve_orderly.
Qed.

Lemma talks_announce ctx sn loc requested sub : talks (announce ctx sn loc requested sub).
Proof. unfold announce. solve_says. Qed.
Lemma talks_send_replay replay : talks (send_replay replay).
Proof. induction replay as [|[] replay IH]; cbn [send_replay]; solve_says. Qed.
#[export] Hint Resolve talks_announce talks_send_replay : talk.

Lemma orderly_mirror_serve `{JsonApi MirrorMessage} ctx sn now events loc requested sub :
  orderly (mirror_serve ctx sn now events loc requested sub).
Proof.
  unfold mirror_serve. apply orderly_bind; [auto with talk|]. intros _.
  apply orderly_bind; [auto with talk|]. intros []; cbn [negb]; [|solve_orderly].
  apply orderly_bind; [auto with talk|]. intros _.
  apply orderly_then with turn_open; [apply orderly_mirror_loop| |by intros []].
  intros []; [auto with talk|done|]. intros _. solve_orderly.
Qed.

(** ** Input acknowledgements *)

Definition acks (ms : list WsOut) : list N :=
  omap (λ o, match o with OText (InputAck accepted_through _) => Some accepted_through | _ => None end) ms.
Definition not_ack (o : WsOut) : Prop := match o with OText (InputAck _ _) => False | _ => True end.

(** The numbers from [a] on. *)
Fixpoint consecutive_from (a : N) (l : list N) : Prop :=
  match l with [] => True | x :: l => x = a ∧ consecutive_from (a + 1) l end.

Lemma acks_app ms ms' : acks (ms ++ ms') = acks ms ++ acks ms'.
Proof. apply omap_app. Qed.
Lemma not_ack_acks ms : Forall not_ack ms → acks ms = [].
Proof. induction 1 as [|[[]| | |] ms Ho _ IH]; done. Qed.

Lemma preserves_send msg : preserves mn_input (send msg : MirM bool).
Proof. intros m r m'. unfold send. destruct (w_send _ _). by intros [= _ <-]. Qed.
Lemma preserves_send_binary bytes : preserves mn_input (send_binary bytes : MirM bool).
Proof. intros m r m'. unfold send_binary. destruct (w_send_binary _ _). by intros [= _ <-]. Qed.
Lemma preserves_send_ping : preserves mn_input (send_ping : MirM bool).
Proof. intros m r m'. unfold send_ping. destruct (w_ping _). by intros [= _ <-]. Qed.
Lemma preserves_close code reason : preserves mn_input (close_with code reason : MirM ()).
Proof. by apply preserves_modify. Qed.
Lemma preserves_fail msg code reason : preserves mn_input (fail_with msg code reason : MirM ()).
Proof. by apply preserves_modify. Qed.
Lemma preserves_mreg_gets {A} (f : Registry → A) : preserves mn_input (mreg_gets f).
Proof. apply preserves_gets. Qed.
Lemma preserves_on_mreg f : preserves mn_input (on_mreg f).
Proof. by apply preserves_modify. Qed.
Lemma preserves_mreg_call {A} (f : Registry → A * Registry) : preserves mn_input (mreg_call f).
Proof. intros m r m'. unfold mreg_call. destruct (f _). by intros [= _ <-]. Qed.
#[export] Hint Resolve preserves_send preserves_send_binary preserves_send_ping preserves_close preserves_fail
  preserves_mreg_gets preserves_on_mreg preserves_mreg_call : preserves.

Lemma preserves_handle_resize_request cols rows loc version may :
  preserves mn_input (handle_resize_request cols rows loc version may).
Proof. unfold handle_resize_request. solve_preserves. Qed.
Lemma preserves_mirror_received loc sid id others : preserves mn_input (mirror_received loc sid id others).
Proof. unfold mirror_received, report_termination, deliver. solve_preserves. Qed.
#[export] Hint Resolve preserves_handle_resize_request preserves_mirror_received : preserves.

Lemma says_mirror_received_not_ack loc sid id others : says not_ack (mirror_received loc sid id others).
Proof. unfold mirror_received, report_termination, deliver. solve_says. Qed.
Lemma says_handle_resize_request_not_ack cols rows loc version may :
  says not_ack (handle_resize_request cols rows loc version may).
Proof. apply says_handle_resize_request. by intros []. Qed.
#[export] Hint Resolve says_mirror_received_not_ack says_handle_resize_request_not_ack : talk.

(** What one turn does to the client's sequence. *)
Definition ack_step (m m' : Mirror) : Prop :=
  ∃ ms, said ms m m' ∧
    ((acks ms = [] ∧ is_expected_sequence (mn_input m') = is_expected_sequence (mn_input m))
     ∨ (acks ms = [is_expected_sequence (mn_input m)]
        ∧ is_expected_sequence (mn_input m') = is_expected_sequence (mn_input m) +₆₄ 1)).

Lemma ack_step_quiet {A} (c : MirM A) m r m' :
  says not_ack c → preserves mn_input c → c m = (r, m') → ack_step m m'.
Proof.
  intros Hs Hp E. destruct (Hs _ _ _ E) as (ms & Hsaid & Hms). exists ms. split; [done|]. left.
  split; [by apply not_ack_acks|]. by rewrite (Hp _ _ _ E).
Qed.

Lemma ack_step_input now clocks bytes loc may m b m' :
  w_gone (mn_writer m) = false → handle_input_frame now clocks bytes loc may m = (b, m') → ack_step m m'.
Proof.
  intros Hgone H. destruct (decode_mirror_input_frame bytes) as [frame|e] eqn:Hdec.
  - destruct (handle_input_frame_spec _ _ _ _ _ _ _ _ _ Hdec Hgone H) as (_ & Hgone' & [[Hok Hyes]|[_ Hno]]).
    + destruct Hyes as (i & tx & c & _ & _ & _ & Hw & He & _). destruct Hok as [(_ & _ & _ & _ & _ & Hseq) _].
      eexists. split; [split; [exact (eq_trans Hgone' (eq_sym Hgone))|exact Hw]|]. right. cbn. by rewrite Hseq.
    + destruct Hno as (_ & (code & message & Hw) & He & _).
      eexists. split; [split; [exact (eq_trans Hgone' (eq_sym Hgone))|exact Hw]|]. by left.
  - revert H. unfold handle_input_frame. rewrite Hdec. autorewrite with stm. intros H.
    eapply ack_step_quiet; [| |exact H]; [solve_says|solve_preserves].
Qed.

Lemma ack_step_event `{JsonApi MirrorMessage} ctx loc sid e m t m' :
  w_gone (mn_writer m) = false → mirror_event ctx loc sid e m = (t, m') → ack_step m m'.
Proof.
  intros Hgone E.
  assert ((∃ now clocks bytes, e = MeBinary now clocks bytes)
          ∨ (says not_ack (mirror_event ctx loc sid e) ∧ preserves mn_input (mirror_event ctx loc sid e)))
    as [(now & clocks & bytes & ->)|[Hs Hp]].
  { destruct e; [right|right|right|left; eauto|right..]; cbn [mirror_event];
      (split; [solve_says|solve_preserves]). }
  - cbn [mirror_event] in E. destruct (negb _).
    + eapply ack_step_quiet; [| |exact E]; [solve_says|solve_preserves].
    + rewrite st_bind in E. destruct (handle_input_frame now clocks bytes loc _ m) as [b m1] eqn:Hin.
      injection E as _ <-. by eapply ack_step_input.
  - by eapply ack_step_quiet.
Qed.

Lemma mirror_loop_acks `{JsonApi MirrorMessage} ctx loc sid events m t m' :
  w_gone (mn_writer m) = false → mirror_loop ctx loc sid events m = (t, m') →
  is_expected_sequence (mn_input m) + len events < two64 →
  ∃ ms, said ms m m' ∧ consecutive_from (is_expected_sequence (mn_input m)) (acks ms)
    ∧ is_expected_sequence (mn_input m') = is_expected_sequence (mn_input m) + len (acks ms).
Proof.
  revert m. induction events as [|e events IH]; intros m Hgone; cbn [mirror_loop].
  { intros [= _ <-] _. exists []. split_and!; [apply said_nil|done|by rewrite N.add_0_r]. }
  rewrite st_bind. destruct (mirror_event ctx loc sid e m) as [t1 m1] eqn:E. rewrite len_cons.
  intros Hloop Hlt. destruct (ack_step_event _ _ _ _ _ _ _ Hgone E) as (ms & Hsaid & Hcase).
  assert (∃ ms', said ms' m1 m' ∧ consecutive_from (is_expected_sequence (mn_input m1)) (acks ms')
    ∧ is_expected_sequence (mn_input m') = is_expected_sequence (mn_input m1) + len (acks ms'))
    as (ms' & Hsaid' & Hc & Hn).
  { assert (m1 = m' ∨ mirror_loop ctx loc sid events m1 = (t, m')) as [->|Hl]
      by (destruct t1; [by right|left; by injection Hloop..]).
    - exists []. split_and!; [apply said_nil|done|by rewrite N.add_0_r].
    - apply IH; [|done|].
      + destruct Hsaid as [Hg _]. exact (eq_trans Hg Hgone).
      + destruct Hcase as [[_ ->]|[_ ->]]; [lia|]. rewrite wadd64_small; lia. }
  exists (ms ++ ms'). split; [by eapply said_app|]. rewrite acks_app, len_app.
  destruct Hcase as [[-> He]|[-> He]]; rewrite He in Hc, Hn.
  - split; [done|]. by rewrite Hn.
  - rewrite wadd64_small in Hc, Hn by lia. split; [by split|]. rewrite Hn, len_cons, len_nil. lia.
Qed.

(** ** Forwarding *)

Definition frames (ms : list WsOut) : list (list byte) :=
  omap (λ o, match o with OBinary bytes => Some bytes | _ => None end) ms.
Definition not_binary (o : WsOut) : Prop := match o with OBinary _ => False | _ => True end.
Lemma frames_app ms ms' : frames (ms ++ ms') = frames ms ++ frames ms'.
Proof. apply omap_app. Qed.
Lemma not_binary_frames ms : Forall not_binary ms → frames ms = [].
Proof. induction 1 as [|[] ms Ho _ IH]; done. Qed.

(** The frames an event is worth. *)
Definition wire (e : MirrorEvent) : list (list byte) :=
  match e with
  | EvOutput start_offset payload => if is_empty payload then [] else [encode_mirror_frame start_offset payload]
  | _ => []
  end.

(** The events a run takes off the subscription's channel. *)
Definition received_by (loc sid : N) (e : MirEvent) (m : Mirror) : list MirrorEvent :=
  match e with
  | MeReceive _ => match (recv_at loc sid (mn_reg m)).1 with RecvEvent ev => [ev] | _ => [] end
  | _ => []
  end.
Fixpoint received `{JsonApi MirrorMessage} (ctx : MirrorContext) (loc sid : N) (events : list MirEvent)
    (m : Mirror) : list MirrorEvent :=
  match events with
  | [] => []
  | e :: rest =>
      let '(turn, m') := mirror_event ctx loc sid e m in
      received_by loc sid e m ++ match turn with Going => received ctx loc sid rest m' | _ => [] end
  end.

Lemma said_frames_quiet {A} (c : MirM A) m r m' :
  says not_binary c → c m = (r, m') → ∃ ms, said ms m m' ∧ frames ms = [].
Proof. intros Hs E. destruct (Hs _ _ _ E) as (ms & ? & ?). exists ms. auto using not_binary_frames. Qed.

Lemma deliver_frames id e m r m' :
  w_gone (mn_writer m) = false → deliver id e m = (r, m') → ∃ ms, said ms m m' ∧ frames ms = wire e.
Proof.
  intros Hgone. destruct e as [start payload| | |]; cbn [deliver wire];
    [|apply said_frames_quiet; solve_says..].
  destruct (is_empty payload); [apply said_frames_quiet; solve_says|].
  rewrite st_bind. destruct m as [[sent gone] i g]. cbn in Hgone. subst gone. cbn. intros [= _ <-].
  by exists [OBinary (encode_mirror_frame start payload)].
Qed.

Lemma mirror_event_frames `{JsonApi MirrorMessage} ctx loc sid e m t m' :
  w_gone (mn_writer m) = false → mirror_event ctx loc sid e m = (t, m') →
  ∃ ms, said ms m m' ∧ frames ms = mjoin (wire <$> received_by loc sid e m).
Proof.
  intros Hgone E.
  assert ((∃ others, e = MeReceive others)
          ∨ (received_by loc sid e m = [] ∧ says not_binary (mirror_event ctx loc sid e))) as [[others ->]|[-> Hs]].
  { destruct e; [right|left; eauto|right..]; (split; [done|]);
      cbn [mirror_event]; unfold handle_resize_request, handle_input_frame; solve_says. }
  - cbn [mirror_event received_by] in *. unfold mirror_received in E. rewrite st_bind in E. unfold mreg_call in E.
    destruct (recv_at loc sid (mn_reg m)) as [r g1]. cbn [fst]. destruct r as [ev| |].
    + revert E. autorewrite with stm. rewrite st_bind. destruct (deliver _ ev _) as [d m1] eqn:Hd. intros [= _ <-].
      apply deliver_frames in Hd as (ms & Hsaid & Hms); [|done]. exists ms. split; [exact Hsaid|].
      cbn. by rewrite app_nil_r.
    + revert E. rewrite st_bind. destruct (report_termination _ _ _ _) as [u m1] eqn:Hr. intros [= _ <-].
      apply said_frames_quiet in Hr as (ms & Hsaid & Hms); [|unfold report_termination; solve_says].
      by exists ms.
    + injection E as _ <-. exists []. split; [|done]. split; [done|]. cbn. by rewrite app_nil_r.
  - by apply said_frames_quiet in E.
Qed.

Lemma mirror_loop_frames `{JsonApi MirrorMessage} ctx loc sid events m t m' :
  w_gone (mn_writer m) = false → mirror_loop ctx loc sid events m = (t, m') →
  ∃ ms, said ms m m' ∧ frames ms = mjoin (wire <$> received ctx loc sid events m).
Proof.
  revert m. induction events as [|e events IH]; intros m Hgone; cbn [mirror_loop received].
  { intros [= _ <-]. exists []. by split; [apply said_nil|]. }
  rewrite st_bind. destruct (mirror_event ctx loc sid e m) as [t1 m1] eqn:E.
  destruct (mirror_event_frames _ _ _ _ _ _ _ Hgone E) as (ms & Hsaid & Hms). intros Hloop.
  destruct t1; [|injection Hloop as _ <-; exists ms; by rewrite app_nil_r..].
  destruct (IH m1) as (ms' & Hsaid' & Hms'); [|done|].
  { destruct Hsaid as [Hg _]. exact (eq_trans Hg Hgone). }
  exists (ms ++ ms'). split; [by eapply said_app|]. by rewrite frames_app, Hms, Hms', fmap_app, join_app.
Qed.

Lemma send_replay_frames replay m r m' :
  w_gone (mn_writer m) = false → send_replay replay m = (r, m') →
  r = true ∧ mn_reg m' = mn_reg m
  ∧ ∃ ms, said ms m m' ∧ frames ms = (λ '(start, payload), encode_mirror_frame start payload) <$> replay.
Proof.
  revert m. induction replay as [|[start payload] replay IH]; intros m Hgone; cbn [send_replay].
  { intros [= <- <-]. split_and!; [done..|]. exists []. by split; [apply said_nil|]. }
  rewrite st_bind. destruct m as [[sent gone] i g]. cbn in Hgone. subst gone. cbn. intros E.
  apply IH in E as (-> & Hreg & ms & Hsaid & Hms); [|done]. split_and!; [done|done|].
  exists (OBinary (encode_mirror_frame start payload) :: ms). split.
  2:{ change (encode_mirror_frame start payload :: frames ms
        = encode_mirror_frame start payload :: ((λ '(start, payload), encode_mirror_frame start payload) <$> replay)).
      by rewrite Hms. }
  destruct Hsaid as [Hg Hw]. split; [done|]. cbn in Hw |- *. rewrite Hw. by rewrite <- app_assoc.
Qed.

(** Where the loop starts. *)
Definition mirror_serving (ctx : MirrorContext) (sn : Snapshot) (now loc : N) (requested : option N)
    (sub : Subscription) : MirM () :=
  _ ← announce ctx sn loc requested sub; _ ← send_replay (sub_replay sub); put_input (input_state_new now sn).

Lemma mirror_serve_frames `{JsonApi MirrorMessage} ctx sn now events loc requested sub m b m' :
  w_gone (mn_writer m) = false →
  mirror_serve ctx sn now events loc requested sub m = (b, m') →
  ∃ ms, said ms m m'
    ∧ frames ms = ((λ '(start, payload), encode_mirror_frame start payload) <$> sub_replay sub)
        ++ mjoin (wire <$> received ctx loc (sub_subscriber_id sub) events
                             (mirror_serving ctx sn now loc requested sub m).2).
Proof.
  intros Hgone. unfold mirror_serve, mirror_serving. rewrite !st_bind.
  destruct (announce ctx sn loc requested sub m) as [u m1] eqn:Ha.
  apply said_frames_quiet in Ha as (ms1 & Hs1 & Hf1); [|unfold announce; solve_says].
  assert (w_gone (mn_writer m1) = false) as Hg1 by exact (eq_trans (proj1 Hs1) Hgone).
  rewrite !st_bind. destruct (send_replay (sub_replay sub) m1) as [ok m2] eqn:Hr.
  apply send_replay_frames in Hr as (-> & _ & ms2 & Hs2 & Hf2); [|done]. cbn [negb].
  assert (w_gone (mn_writer m2) = false) as Hg2 by exact (eq_trans (proj1 Hs2) Hg1).
  autorewrite with stm. rewrite st_bind. cbn [snd put_input st_modify]. set (m3 := mkMirror _ _ _).
  destruct (mirror_loop _ _ _ _ m3) as [t m4] eqn:Hl.
  apply mirror_loop_frames in Hl as (ms3 & Hs3 & Hf3); [|done].
  intros E. assert (∃ ms4, said ms4 m4 m' ∧ frames ms4 = []) as (ms4 & Hs4 & Hf4).
  { destruct t; (eapply said_frames_quiet; [|exact E]); solve_says. }
  exists (ms1 ++ ms2 ++ ms3 ++ ms4). split.
  - eapply said_app; [exact Hs1|]. eapply said_app; [exact Hs2|]. by eapply said_app; [exact Hs3|].
  - by rewrite !frames_app, Hf1, Hf2, Hf3, Hf4, app_nil_r.
Qed.

(** ** Opening *)

(** The terminal is missing, or somebody else's. *)
Definition hidden (id : text) (r : ApiResult (option N)) (g : Registry) : Prop :=
  match r with
  | Ok None => True
  | Ok (Some loc) => h_identity_id <$> handle_at loc g ≠ Some id
  | Err _ => False
  end.

Lemma mirror_open_hidden `{JsonApi MirrorMessage} ctx sn incoming others requested m m1 r g :
  read_subscribe sn incoming m = (HsOffset requested, m1) →
  get_or_load (mc_terminal_id ctx) (others (mn_reg m1)) = (r, g) →
  hidden (mc_identity_id ctx) r g →
  mirror_open ctx sn incoming others m
  = (None, mkMirror (w_fail (msg_error TERMINAL_NOT_FOUND (lit "terminal not found"))
                       close.NOT_FOUND "not_found" (mn_writer m1)) (mn_input m1) g).
Proof.
  intros Hread Hload Hhid. unfold mirror_open, refuse_subscription. rewrite st_bind, Hread. autorewrite with stm.
  rewrite st_bind. unfold mreg_call at 1. cbn [mn_reg]. rewrite Hload.
  destruct r as [[loc|]|]; [|done|done]. autorewrite with stm. cbn in Hhid |- *.
  rewrite bool_decide_false by done. done.
Qed.

(** The load comes before the look at the owner: when it fails, whoever asks
    is told so. *)
Lemma mirror_open_failing `{JsonApi MirrorMessage} ctx sn incoming others requested m m1 e g :
  read_subscribe sn incoming m = (HsOffset requested, m1) →
  get_or_load (mc_terminal_id ctx) (others (mn_reg m1)) = (Err e, g) →
  mirror_open ctx sn incoming others m
  = (None, mkMirror (w_fail (msg_error STORAGE_UNAVAILABLE (ae_message e))
                       close.STORAGE_UNAVAILABLE "storage_unavailable" (mn_writer m1)) (mn_input m1) g).
Proof.
  intros Hread Hload. unfold mirror_open, refuse_subscription. rewrite st_bind, Hread. autorewrite with stm.
  rewrite st_bind. unfold mreg_call at 1. cbn [mn_reg]. by rewrite Hload.
Qed.

Lemma mirror_open_owner `{JsonApi MirrorMessage} ctx sn incoming others m loc requested sub m' :
  mirror_open ctx sn incoming others m = (Some (loc, requested, sub), m') →
  h_identity_id <$> handle_at loc (mn_reg m') = Some (mc_identity_id ctx).
Proof.
  unfold mirror_open, refuse_subscription. rewrite st_bind.
  destruct (read_subscribe sn incoming m) as [[from| |] m1]; [|done|done]. autorewrite with stm.
  rewrite st_bind. unfold mreg_call at 1. destruct (get_or_load _ _) as [[[loc1|]|e] g]; [|done|done].
  autorewrite with stm. cbn [mn_reg]. case_bool_decide as Howner; cbn [negb]; [|done].
  rewrite st_bind. unfold mreg_call, subscribe_at. cbn [mn_reg].
  destruct (inner_at loc1 g) as [i|]; [|done].
  destruct (term_subscribe _ _ _ _ i) as [[sub1 i']|[next durable]]; [|done].
  intros [= <- _ _ <-]. cbn. unfold handle_at, on_handle in *. cbn. rewrite lookup_alter_eq.
  by destruct (g_handles g !! loc1).
Qed.

(** ** Properties *)

(** C14: input reaches the publisher exactly when every condition holds at that
    moment: input is enabled, the subscription may send it, the terminal
    accepts it and is open, the frame is within its limits, carries the
    expected client sequence and fits the rate, and the device's publisher can
    take it. Then exactly this frame is queued, under the terminal's next relay
    sequence, acknowledged and counted; otherwise nothing is queued, the client
    is told, and may send the same sequence again. Either way the subscription
    stays. *)
Theorem input_reaches_publisher_exactly (now : N) (clocks : (N * N) * (N * N)) (bytes : list byte) (loc : N)
    (may_send_input : bool) (m m' : Mirror) (frame : MirrorInputFrame) (b : bool) :
  decode_mirror_input_frame bytes = Ok frame →
  w_gone (mn_writer m) = false →
  handle_input_frame now clocks bytes loc may_send_input m = (b, m') →
  let g := mn_reg m in
  let sn := g_settings g in
  let allowed :=
    input_allowed may_send_input (accepts_input_at loc g) (lifecycle_at loc g) frame sn (mn_input m)
    ∧ (take_both clocks (len (mif_payload frame)) sn (mn_input m)).1 = true
    ∧ is_Some (accepting_channel (device_at loc g) g) in
  b = true ∧ ((allowed ∧ input_delivered loc frame m m') ∨ (¬ allowed ∧ input_refused loc m m')).
Proof.
  intros Hdec Hgone H g sn allowed.
  destruct (handle_input_frame_spec _ _ _ _ _ _ _ _ _ Hdec Hgone H) as (? & _ & ?). done.
Qed.

(** A terminal that accepts input, its publisher connected with room for two
    deliveries. *)
Definition example_mirrored : Registry :=
  let g := (get_or_load 7 example_stored).2 in
  let g := on_handle 0 (set_accepts_input true) g in
  let g := put_settings (mkSnapshot 1 {[ keys.FEATURES_INPUT_ENABLED := VBool true ]}) g in
  let g := put_inputs {[50 := mkInputChan [] 2 true]} g in
  (attach_publisher 1 (lit "p") V2 (Some 50) g).2.
Definition example_mirror : Mirror :=
  mkMirror (mkWsWriter [] false) (input_state_new 0 (g_settings example_mirrored)) example_mirrored.
Definition example_keys : list byte := encode_mirror_input_frame 1 [x6c; x73].

Lemma input_reaches_publisher_exactly_witness :
  let r := handle_input_frame 5 ((0, 0), (0, 0)) example_keys 0 true example_mirror in
  ic_queue <$> (g_inputs (mn_reg r.2) !! 50) = Some [PdInput 7 1 [x6c; x73]]
  ∧ let g := mn_reg example_mirror in
    let allowed :=
      input_allowed true (accepts_input_at 0 g) (lifecycle_at 0 g) (mkMirrorInputFrame 1 [x6c; x73])
        (g_settings g) (mn_input example_mirror)
      ∧ (take_both ((0, 0), (0, 0)) 2 (g_settings g) (mn_input example_mirror)).1 = true
      ∧ is_Some (accepting_channel (device_at 0 g) g) in
    r.1 = true ∧ ((allowed ∧ input_delivered 0 (mkMirrorInputFrame 1 [x6c; x73]) example_mirror r.2)
                  ∨ (¬ allowed ∧ input_refused 0 example_mirror r.2)).
Proof.
  intros r. split; [vm_compute; reflexivity|].
  apply (input_reaches_publisher_exactly 5 ((0, 0), (0, 0)) example_keys 0 true example_mirror r.2
           (mkMirrorInputFrame 1 [x6c; x73]) r.1); [vm_compute; reflexivity|done|].
  unfold r. apply surjective_pairing.
Defined.

(** Input is accepted in the client's order, once. Whatever else happens on
    a subscription and beside it, the sequences it acknowledges are consecutive
    numbers from the one it expects, which afterwards is the one after the last. *)
Theorem input_accepted_in_order `{JsonApi MirrorMessage} (ctx : MirrorContext) (loc subscriber_id : N)
    (events : list MirEvent) (m m' : Mirror) (t : Turn) :
  w_gone (mn_writer m) = false →
  is_expected_sequence (mn_input m) + len events < two64 →
  mirror_loop ctx loc subscriber_id events m = (t, m') →
  ∃ ms, w_sent (mn_writer m') = w_sent (mn_writer m) ++ ms
    ∧ consecutive_from (is_expected_sequence (mn_input m)) (acks ms)
    ∧ is_expected_sequence (mn_input m') = is_expected_sequence (mn_input m) + len (acks ms).
Proof.
  intros Hgone Hlt E. destruct (mirror_loop_acks _ _ _ _ _ _ _ Hgone E Hlt) as (ms & [_ Hw] & Hc & He).
  by exists ms.
Qed.

(** A decoder that knows one message. *)
#[local] Instance mirror_pong_only : JsonApi MirrorMessage := {|
  Messages.Value := text;
  from_str := Ok;
  is_object _ := true;
  get v _ := Some v;
  as_str := Some;
  as_bool _ := None;
  from_value v := if bool_decide (v = lit "pong") then Ok MPong
                  else if bool_decide (v = lit "subscribe") then Ok (MSubscribe None) else Err (lit "unknown");
|}.

Definition example_ctx : MirrorContext := mkMirrorContext 7 (lit "alice") (lit "c9") V2 true.
(** The first frame, the same again, and the second. *)
Definition example_typing : list MirEvent :=
  [MeBinary 5 ((0, 0), (0, 0)) example_keys; MeBinary 6 ((0, 0), (0, 0)) example_keys;
   MeBinary 7 ((0, 0), (0, 0)) (encode_mirror_input_frame 2 [x0a])].

Lemma input_accepted_in_order_witness :
  let r := mirror_loop example_ctx 0 1 example_typing example_mirror in
  acks (w_sent (mn_writer r.2)) = [1; 2] ∧
  ∃ ms, w_sent (mn_writer r.2) = [] ++ ms
    ∧ consecutive_from 1 (acks ms) ∧ is_expected_sequence (mn_input r.2) = 1 + len (acks ms).
Proof.
  intros r. split; [vm_compute; reflexivity|].
  apply (input_accepted_in_order example_ctx 0 1 example_typing example_mirror r.2 r.1);
    [done|vm_compute; reflexivity|unfold r; apply surjective_pairing].
Defined.

(** C29: whoever is given a subscription owns the terminal, and while the
    terminal can be loaded a stranger cannot tell another identity's from one
    that does not exist: both are refused with the same two messages and no
    subscription. When the load fails whoever asks is told so, with the error's
    message, and is given no subscription either; the load comes before the look
    at the owner, and its second half, reading the stored output, is reached for
    terminals that exist only, so this handler alone does not hide a terminal
    then ([failing_load_tells]); the upgrade has confirmed the owner before. *)
Theorem only_the_owner_subscribes `{JsonApi MirrorMessage} (ctx : MirrorContext) (sn : Snapshot)
    (incoming : list WsIn) (others : Registry → Registry) (m m1 : Mirror) (requested : option N)
    (r : ApiResult (option N)) (g : Registry) :
  read_subscribe sn incoming m = (HsOffset requested, m1) →
  get_or_load (mc_terminal_id ctx) (others (mn_reg m1)) = (r, g) →
  let '(opened, m') := mirror_open ctx sn incoming others m in
  (hidden (mc_identity_id ctx) r g →
     opened = None ∧ mn_reg m' = g
     ∧ (w_gone (mn_writer m1) = false →
        w_sent (mn_writer m') = w_sent (mn_writer m1)
          ++ [OText (msg_error TERMINAL_NOT_FOUND (lit "terminal not found")); OClose close.NOT_FOUND "not_found"]))
  ∧ (∀ e, r = Err e →
     opened = None ∧ mn_reg m' = g
     ∧ (w_gone (mn_writer m1) = false →
        w_sent (mn_writer m') = w_sent (mn_writer m1)
          ++ [OText (msg_error STORAGE_UNAVAILABLE (ae_message e));
              OClose close.STORAGE_UNAVAILABLE "storage_unavailable"]))
  ∧ (∀ loc from sub, opened = Some (loc, from, sub) →
       h_identity_id <$> handle_at loc (mn_reg m') = Some (mc_identity_id ctx)).
Proof.
  intros Hread Hload. destruct (mirror_open _ _ _ _ _) as [opened m'] eqn:E. split_and!.
  - intros Hhid. rewrite (mirror_open_hidden _ _ _ _ _ _ _ _ _ Hread Hload Hhid) in E. injection E as <- <-.
    split_and!; [done|done|]. apply w_fail_sent.
  - intros e ->. rewrite (mirror_open_failing _ _ _ _ _ _ _ _ _ Hread Hload) in E. injection E as <- <-.
    split_and!; [done|done|]. apply w_fail_sent.
  - intros loc from sub ->. by eapply mirror_open_owner.
Qed.

Lemma only_the_owner_subscribes_witness :
  let '(opened, m') :=
    mirror_open (mkMirrorContext 7 (lit "mallory") (lit "c9") V2 true) snapshot_default
      [InText (lit "subscribe")] (λ g, g) example_mirror in
  (hidden (lit "mallory") (Ok (Some 0)) example_mirrored →
     opened = None ∧ mn_reg m' = example_mirrored
     ∧ (w_gone (mn_writer example_mirror) = false →
        w_sent (mn_writer m') = []
          ++ [OText (msg_error TERMINAL_NOT_FOUND (lit "terminal not found")); OClose close.NOT_FOUND "not_found"]))
  ∧ (∀ e, Ok (Some 0) = Err e →
     opened = None ∧ mn_reg m' = example_mirrored
     ∧ (w_gone (mn_writer example_mirror) = false →
        w_sent (mn_writer m') = []
          ++ [OText (msg_error STORAGE_UNAVAILABLE (ae_message e));
              OClose close.STORAGE_UNAVAILABLE "storage_unavailable"]))
  ∧ (∀ loc from sub, opened = Some (loc, from, sub) →
       h_identity_id <$> handle_at loc (mn_reg m') = Some (lit "mallory")).
Proof.
  apply (only_the_owner_subscribes (mkMirrorContext 7 (lit "mallory") (lit "c9") V2 true) snapshot_default
           [InText (lit "subscribe")] (λ g, g) example_mirror example_mirror None (Ok (Some 0)) example_mirrored).
  - vm_compute. reflexivity.
  - vm_compute. reflexivity.
Defined.

(** A stranger asks for terminal [id] while the second storage call of the
    load would fail. *)
Definition example_prying (id : N) : Mirror :=
  (mirror_open (mkMirrorContext id (lit "mallory") (lit "c9") V2 true) snapshot_default
     [InText (lit "subscribe")] (λ g, g)
     (mkMirror (mkWsWriter [] false) (input_state_new 0 snapshot_default)
        (put_faults [None; Some (api_storage_unavailable (lit "disk"))] example_stored))).2.

(** Terminal 7 is alice's, terminal 8 does not exist; mallory is told two
    different things. *)
Theorem failing_load_tells :
  w_sent (mn_writer (example_prying 7))
    = [OText (msg_error STORAGE_UNAVAILABLE (lit "disk")); OClose close.STORAGE_UNAVAILABLE "storage_unavailable"]
  ∧ w_sent (mn_writer (example_prying 8))
    = [OText (msg_error TERMINAL_NOT_FOUND (lit "terminal not found")); OClose close.NOT_FOUND "not_found"].
Proof. split; vm_compute; reflexivity. Qed.

(** A subscriber is sent the replay and then every output event taken off
    its channel, each once, in order and under its own offset; nothing else
    makes a binary frame, and an empty output makes none. *)
Theorem mirror_forwards_in_order `{JsonApi MirrorMessage} (ctx : MirrorContext) (sn : Snapshot) (now : N)
    (events : list MirEvent) (loc : N) (requested : option N) (sub : Subscription) (m m' : Mirror) (b : bool) :
  w_gone (mn_writer m) = false →
  mirror_serve ctx sn now events loc requested sub m = (b, m') →
  ∃ ms, w_sent (mn_writer m') = w_sent (mn_writer m) ++ ms
    ∧ frames ms = ((λ '(start, payload), encode_mirror_frame start payload) <$> sub_replay sub)
        ++ mjoin (wire <$> received ctx loc (sub_subscriber_id sub) events
                             (mirror_serving ctx sn now loc requested sub m).2).
Proof.
  intros Hgone E. destruct (mirror_serve_frames _ _ _ _ _ _ _ _ _ _ Hgone E) as (ms & [_ Hw] & Hf). by exists ms.
Qed.

(** Subscribed to [ab] from the start, then [c] is appended. *)
Definition example_subscribed : option (N * option N * Subscription) * Mirror :=
  mirror_open example_ctx snapshot_default [InText (lit "subscribe")] (λ g, g) example_mirror.
Definition example_sub : Subscription :=
  match example_subscribed.1 with Some (_, _, sub) => sub | None => mkSubscription 0 [] 0 (mkOffsets 0 0 0) None Open [] None None None end.
Definition example_output : list MirEvent :=
  [MeOthers (on_handle 0 (λ i, (term_append 9 2 [x63] 1024 i).2)); MeReceive (λ g, g)].

Lemma mirror_forwards_in_order_witness :
  let r := mirror_serve example_ctx snapshot_default 0 example_output 0 None example_sub example_subscribed.2 in
  frames (w_sent (mn_writer r.2)) = [encode_mirror_frame 0 [x61; x62]; encode_mirror_frame 2 [x63]] ∧
  ∃ ms, w_sent (mn_writer r.2) = w_sent (mn_writer example_subscribed.2) ++ ms
    ∧ frames ms = ((λ '(start, payload), encode_mirror_frame start payload) <$> sub_replay example_sub)
        ++ mjoin (wire <$> received example_ctx 0 (sub_subscriber_id example_sub) example_output
                     (mirror_serving example_ctx snapshot_default 0 0 None example_sub example_subscribed.2).2).
Proof.
  intros r. split; [vm_compute; reflexivity|].
  apply (mirror_forwards_in_order example_ctx snapshot_default 0 example_output 0 None example_sub
           example_subscribed.2 r.2 r.1); [vm_compute; reflexivity|unfold r; apply surjective_pairing].
Defined.

(** A mirror's conversation is well formed whatever happens on it: [ready]
    comes first, nothing follows a close frame, and none is queued while the
    connection is served. *)
Theorem mirror_conversation `{JsonApi MirrorMessage} (ctx : MirrorContext) (incoming : list WsIn)
    (others : Registry → Registry) (now : N) (events : list MirEvent) (g : Registry) :
  let '(open, m') := mirror_handle ctx incoming others now events g in
  ∃ ms, w_sent (mn_writer m') = OText (mirror_ready_message ctx (g_settings g)) :: ms
    ∧ if open then no_close ms else close_last ms.
Proof.
  destruct (mirror_handle _ _ _ _ _ _) as [open m'] eqn:E. unfold mirror_handle in E. rewrite st_bind in E.
  destruct (send _ _) as [ok m1] eqn:Hs. injection Hs as _ <-.
  match type of E with (?k ?s = _) => assert (orderly k) as Hk end.
  { apply orderly_then with (λ r, match r with Some _ => true | None => false end);
      [apply orderly_mirror_open| |by intros []].
    intros [[[loc requested] sub]|]; [|done]. intros _. apply orderly_mirror_serve. }
  destruct (Hk _ _ _ E) as (ms & [_ Hsent] & Hms). exists ms. cbn in Hsent. auto.
Qed.
