(* ===== verification/Stream.v ===== *)
(** * The publisher's outgoing stream
      ([publisher/src/stream.rs], the driver of [publisher/src/publish.rs])

    [Retained] and [Outgoing] are the two structs of [stream.rs] with one
    definition per method; [Drive] is what the loop of [drive] keeps, with the
    requests and notices it has sent. The loop's head is [drive_head], its two
    select arms are [drive_event] and [drive_owner]. A [u64] sum wraps. *)

From S2P Require Export Prelude.

Open Scope N_scope.
Open Scope hype_scope.

Record Retained := mkRetained {
  rt_start : N;
  rt_bytes : list byte;
}.

Definition retained_new : Retained := mkRetained 0 [].
Definition retained_end (r : Retained) : N := rt_start r +₆₄ len (rt_bytes r).
Definition retained_append (chunk : list byte) (r : Retained) : Retained :=
  mkRetained (rt_start r) (rt_bytes r ++ chunk).
Definition release_through (durable_offset : N) (r : Retained) : Retained :=
  if durable_offset <=? rt_start r then r
  else
    let drop_count := N.min (durable_offset - rt_start r) (len (rt_bytes r)) in
    mkRetained (rt_start r +₆₄ drop_count) (dropN drop_count (rt_bytes r)).
(** [Retained::from] *)
Definition retained_from (offset : N) (r : Retained) : option (list byte) :=
  if (offset <? rt_start r) || (retained_end r <? offset) then None
  else Some (dropN (offset - rt_start r) (rt_bytes r)).
Definition restart_at (offset : N) (r : Retained) : Retained := mkRetained offset [].

Inductive Resync :=
| Retransmit (start : N) (bytes : list byte)
| Nothing
| Unrecoverable.

Record Outgoing := mkOutgoing {
  og_retained : Retained;
  og_next_offset : N;
  og_positioned : bool;
  og_resync_target : option N;
  og_window : N;
}.

Definition CONSERVATIVE_WINDOW : N := 64 * 1024.

Definition outgoing_new : Outgoing := mkOutgoing retained_new 0 false None CONSERVATIVE_WINDOW.
Definition unacked (o : Outgoing) : N := og_next_offset o - rt_start (og_retained o).
Definition may_send (o : Outgoing) : bool := og_positioned o && (unacked o <? og_window o).
Definition set_window (window : N) (o : Outgoing) : Outgoing :=
  mkOutgoing (og_retained o) (og_next_offset o) (og_positioned o) (og_resync_target o)
    (N.max window CONSERVATIVE_WINDOW).
Definition detached (o : Outgoing) : Outgoing :=
  mkOutgoing (og_retained o) (og_next_offset o) false None (og_window o).

Definition attached (next_offset : N) (o : Outgoing) : Resync * Outgoing :=
  let retained :=
    if is_empty (rt_bytes (og_retained o)) && (rt_start (og_retained o) =? 0) && (og_next_offset o =? 0)
    then restart_at next_offset (og_retained o) else og_retained o in
  if next_offset <? rt_start retained then
    (Unrecoverable, mkOutgoing retained (og_next_offset o) true None (og_window o))
  else
    match retained_from next_offset retained with
    | Some bytes =>
        if is_empty bytes then (Nothing, mkOutgoing retained next_offset true None (og_window o))
        else (Retransmit next_offset bytes,
              mkOutgoing retained (next_offset +₆₄ len bytes) true None (og_window o))
    | None => (Nothing, mkOutgoing (restart_at next_offset retained) next_offset true None (og_window o))
    end.

Definition outgoing_send (chunk : list byte) (o : Outgoing) : option N * Outgoing :=
  if negb (og_positioned o) then (None, o)
  else
    (Some (og_next_offset o),
     mkOutgoing (retained_append chunk (og_retained o)) (og_next_offset o +₆₄ len chunk) (og_positioned o)
       (og_resync_target o) (og_window o)).

Definition acknowledge (durable_offset : N) (o : Outgoing) : Outgoing :=
  mkOutgoing (release_through durable_offset (og_retained o)) (og_next_offset o) (og_positioned o)
    (og_resync_target o) (og_window o).

Definition mismatch (authoritative : N) (o : Outgoing) : Resync * Outgoing :=
  if bool_decide (og_resync_target o = Some authoritative) then (Nothing, o)
  else
    match retained_from authoritative (og_retained o) with
    | Some bytes =>
        (if is_empty bytes then Nothing else Retransmit authoritative bytes,
         mkOutgoing (og_retained o) (authoritative +₆₄ len bytes) (og_positioned o) (Some authoritative)
           (og_window o))
    | None =>
        (Unrecoverable,
         mkOutgoing (og_retained o) (og_next_offset o) (og_positioned o) (Some authoritative) (og_window o))
    end.

(** ** The driver *)

Record Limits := mkLimits {
  lm_max_output_frame_bytes : N;
  lm_max_unacked_output_bytes : N;
}.

Inductive Event :=
| EvAttached (terminal_id : Uuid) (next_offset : N) (limits : Limits)
| EvAck (durable_offset : N)
| EvInput (bytes : list byte)
| EvResizeRequest (cols rows : N)
| EvMismatch (next_offset : N)
| EvDetached
| EvEnded (reason : text).

Inductive Request :=
| RqOutput (start_offset : N) (bytes : list byte)
| RqResize (cols rows : N)
| RqClose (reason : text).

Inductive Notice :=
| NtInput (bytes : list byte)
| NtResize (cols rows : N)
| NtEnded (reason : text).

Inductive FromOwner :=
| FoOutput (chunk : list byte)
| FoResize (cols rows : N).

Record Drive := mkDrive {
  dr_stream : Outgoing;
  dr_max_frame : N;
  dr_owner_gone : bool;
  dr_closed : bool;
  dr_waiting : option (list byte);
  (** What the transport was asked, and whether it still listens. *)
  dr_requests : list Request;
  dr_transport_open : bool;
  dr_notices : list Notice;
  (** The loop has returned. *)
  dr_done : bool;
}.

Definition with_stream (o : Outgoing) (d : Drive) : Drive :=
  mkDrive o (dr_max_frame d) (dr_owner_gone d) (dr_closed d) (dr_waiting d) (dr_requests d)
    (dr_transport_open d) (dr_notices d) (dr_done d).
Definition with_max_frame (n : N) (d : Drive) : Drive :=
  mkDrive (dr_stream d) n (dr_owner_gone d) (dr_closed d) (dr_waiting d) (dr_requests d)
    (dr_transport_open d) (dr_notices d) (dr_done d).
Definition with_owner_gone (d : Drive) : Drive :=
  mkDrive (dr_stream d) (dr_max_frame d) true (dr_closed d) (dr_waiting d) (dr_requests d)
    (dr_transport_open d) (dr_notices d) (dr_done d).
Definition with_closed (d : Drive) : Drive :=
  mkDrive (dr_stream d) (dr_max_frame d) (dr_owner_gone d) true (dr_waiting d) (dr_requests d)
    (dr_transport_open d) (dr_notices d) (dr_done d).
Definition with_waiting (w : option (list byte)) (d : Drive) : Drive :=
  mkDrive (dr_stream d) (dr_max_frame d) (dr_owner_gone d) (dr_closed d) w (dr_requests d)
    (dr_transport_open d) (dr_notices d) (dr_done d).
Definition finished (d : Drive) : Drive :=
  mkDrive (dr_stream d) (dr_max_frame d) (dr_owner_gone d) (dr_closed d) (dr_waiting d) (dr_requests d)
    (dr_transport_open d) (dr_notices d) true.

(** [requests.send(r).await]: it fails once the transport is gone. *)
Definition request (r : Request) (d : Drive) : bool * Drive :=
  if dr_transport_open d then
    (true, mkDrive (dr_stream d) (dr_max_frame d) (dr_owner_gone d) (dr_closed d) (dr_waiting d)
             (dr_requests d ++ [r]) (dr_transport_open d) (dr_notices d) (dr_done d))
  else (false, d).
(** [notices.try_send(n)]; [room] is whether it succeeds. *)
Definition notify (room : bool) (n : Notice) (d : Drive) : Drive :=
  if room then
    mkDrive (dr_stream d) (dr_max_frame d) (dr_owner_gone d) (dr_closed d) (dr_waiting d)
      (dr_requests d) (dr_transport_open d) (dr_notices d ++ [n]) (dr_done d)
  else d.

(** [bytes.chunks(n)]; the fuel is the length. *)
Fixpoint chunks_loop (fuel : nat) (n : N) (bytes : list byte) : list (list byte) :=
  match fuel, bytes with
  | S fuel, _ :: _ => takeN n bytes :: chunks_loop fuel n (dropN n bytes)
  | _, _ => []
  end.
Definition chunks (n : N) (bytes : list byte) : list (list byte) := chunks_loop (length bytes) n bytes.

Fixpoint send_slices (offset : N) (slices : list (list byte)) (d : Drive) : bool * Drive :=
  match slices with
  | [] => (true, d)
  | slice :: rest =>
      let '(ok, d) := request (RqOutput offset slice) d in
      if ok then send_slices (offset +₆₄ len slice) rest d else (false, d)
  end.
Definition send_output (start : N) (bytes : list byte) (d : Drive) : bool * Drive :=
  send_slices start (chunks (dr_max_frame d) bytes) d.

(** A send whose failure ends the loop. *)
Definition or_finish (r : bool * Drive) : Drive := let '(ok, d) := r in if ok then d else finished d.

Definition unrecoverable (room : bool) (d : Drive) : Drive :=
  let d := (request (RqClose (lit "publisher_desynchronised")) d).2 in
  finished (notify room (NtEnded (lit "the mirror lost its place in this terminal's output and stopped rather than show a gap")) d).

(** The start of an iteration. *)
Definition drive_head (d : Drive) : Drive :=
  let d :=
    match dr_waiting d with
    | None => d
    | Some chunk =>
        let d := with_waiting None d in
        if may_send (dr_stream d) then
          let '(start, o) := outgoing_send chunk (dr_stream d) in
          let d := with_stream o d in
          match start with
          | Some start => or_finish (send_output start chunk d)
          | None => with_waiting (Some chunk) d
          end
        else with_waiting (Some chunk) d
    end in
  if dr_done d then d
  else if dr_owner_gone d && negb (dr_closed d) && bool_decide (dr_waiting d = None)
          && (unacked (dr_stream d) =? 0)
  then (request (RqClose (lit "process_exited")) (with_closed d)).2
  else d.

Definition apply_limits (limits : Limits) (d : Drive) : Drive :=
  with_max_frame (N.max (lm_max_output_frame_bytes limits) 1024)
    (with_stream (set_window (lm_max_unacked_output_bytes limits) (dr_stream d)) d).

Definition resynchronise (room : bool) (r : Resync * Outgoing) (d : Drive) : Drive :=
  let d := with_stream r.2 d in
  match r.1 with
  | Retransmit start bytes => or_finish (send_output start bytes d)
  | Nothing => d
  | Unrecoverable => unrecoverable room d
  end.

(** The arm of [events.recv()]; [None] is the closed channel. [room] is whether
    the owner's notice queue takes one more. *)
Definition drive_event (room : bool) (e : option Event) (d : Drive) : Drive :=
  match e with
  | None => finished (notify room (NtEnded (lit "mirroring stopped")) d)
  | Some (EvAttached _ next_offset limits) =>
      let d := apply_limits limits d in
      resynchronise room (attached next_offset (dr_stream d)) d
  | Some (EvAck durable_offset) => with_stream (acknowledge durable_offset (dr_stream d)) d
  | Some (EvMismatch next_offset) => resynchronise room (mismatch next_offset (dr_stream d)) d
  | Some EvDetached => with_stream (detached (dr_stream d)) d
  | Some (EvInput bytes) => if room then notify room (NtInput bytes) d else finished d
  | Some (EvResizeRequest cols rows) => notify room (NtResize cols rows) d
  | Some (EvEnded reason) => finished (notify room (NtEnded reason) d)
  end.

(** The arm of [owner.recv()], which is only polled while [owner_ready]. *)
Definition owner_ready (d : Drive) : bool := negb (dr_owner_gone d) && bool_decide (dr_waiting d = None).
Definition drive_owner (m : option FromOwner) (d : Drive) : Drive :=
  match m with
  | Some (FoOutput chunk) =>
      if may_send (dr_stream d) then
        let '(start, o) := outgoing_send chunk (dr_stream d) in
        let d := with_stream o d in
        match start with
        | Some start => or_finish (send_output start chunk d)
        | None => with_waiting (Some chunk) d
        end
      else with_waiting (Some chunk) d
  | Some (FoResize cols rows) => or_finish (request (RqResize cols rows) d)
  | None => with_owner_gone d
  end.

Definition drive_new : Drive := mkDrive outgoing_new (64 * 1024) false false None [] true [] false.

(** ** Cutting into chunks *)

Lemma chunks_loop_concat fuel n bytes : 0 < n → (length bytes ≤ fuel)%nat → mjoin (chunks_loop fuel n bytes) = bytes.
Proof.
  intros Hn. revert bytes. induction fuel as [|fuel IH]; intros [|b bytes] Hf; cbn in Hf; [done|lia|done|].
  cbn [chunks_loop]. cbn [mjoin list_join]. rewrite IH; [apply takeN_dropN|].
  assert (len (dropN n (b :: bytes)) < len (b :: bytes)) by len_lia. unfold len in *. cbn in *. lia.
Qed.
Lemma chunks_concat n bytes : 0 < n → mjoin (chunks n bytes) = bytes.
Proof. intros. by apply chunks_loop_concat. Qed.
