(* ===== verification/Pipeline.v ===== *)
(** * From the shell to the relay's log

    The publisher's driver and the relay's terminal put together, over a
    network that may lose, repeat and reorder frames: whatever happens, the
    relay's log is a prefix of what the shell wrote. [Pipe] is both ends with
    what travels between them; [pp_handed] and [pp_log] record what the driver
    took from its owner and what the relay accepted. *)

From S2P Require Export Stream TerminalProps.

Open Scope N_scope.
Open Scope hype_scope.

(** ** The stream *)

(** What [Outgoing] holds once [hist] has been handed to it: everything from
    some offset on. *)
Definition stream_repr (hist : list byte) (o : Outgoing) : Prop :=
  rt_start (og_retained o) ≤ len hist
  ∧ rt_bytes (og_retained o) = dropN (rt_start (og_retained o)) hist
  ∧ og_next_offset o = len hist
  ∧ len hist < two64.

Lemma stream_repr_new : stream_repr [] outgoing_new.
Proof. by split_and!. Qed.

Section stream.
Context (hist : list byte) (o : Outgoing).
Context (Hrepr : stream_repr hist o).

Lemma retained_end_repr : retained_end (og_retained o) = len hist.
Proof.
  destruct Hrepr as (Hs & Hb & _ & Hl). unfold retained_end. rewrite Hb. rewrite wadd64_small; len_lia.
Qed.

Lemma retained_from_repr offset :
  rt_start (og_retained o) ≤ offset ≤ len hist →
  retained_from offset (og_retained o) = Some (dropN offset hist).
Proof.
  intros Ho. unfold retained_from. rewrite retained_end_repr.
  destruct (N.ltb_spec offset (rt_start (og_retained o))); [lia|].
  destruct (N.ltb_spec (len hist) offset); [lia|]. cbn [orb].
  destruct Hrepr as (_ & -> & _). rewrite dropN_dropN. do 2 f_equal. lia.
Qed.

Lemma outgoing_send_repr chunk start o' :
  len (hist ++ chunk) < two64 → outgoing_send chunk o = (Some start, o') →
  start = len hist ∧ stream_repr (hist ++ chunk) o' ∧ rt_start (og_retained o') = rt_start (og_retained o).
Proof.
  intros Hl. unfold outgoing_send. destruct (negb _); [done|]. intros [= <- <-].
  destruct Hrepr as (Hs & Hb & Hn & _). unfold stream_repr. cbn.
  split_and!; [done|len_lia| |rewrite Hn, wadd64_small; len_lia|done|done].
  by rewrite Hb, dropN_app_le.
Qed.

Lemma acknowledge_repr d :
  d ≤ len hist →
  stream_repr hist (acknowledge d o)
  ∧ rt_start (og_retained (acknowledge d o)) = N.max (rt_start (og_retained o)) d.
Proof.
  intros Hd. destruct Hrepr as (Hs & Hb & Hn & Hl). unfold acknowledge, release_through, stream_repr.
  destruct (N.leb_spec d (rt_start (og_retained o))); cbn [og_retained og_next_offset rt_start rt_bytes].
  - split; [by split_and!|lia].
  - assert (N.min (d - rt_start (og_retained o)) (len (rt_bytes (og_retained o))) = d - rt_start (og_retained o))
      as -> by (rewrite Hb; len_lia).
    rewrite wadd64_small by lia. replace (rt_start (og_retained o) + (d - rt_start (og_retained o))) with d by lia.
    rewrite Hb, dropN_dropN. replace (rt_start (og_retained o) + (d - rt_start (og_retained o))) with d by lia.
    split; [by split_and!|lia].
Qed.

(** The relay is somewhere in what is retained: the rest is sent again. *)
Definition resync_for (offset : N) : Resync :=
  if is_empty (dropN offset hist) then Nothing else Retransmit offset (dropN offset hist).

Lemma moved_repr offset target w :
  offset ≤ len hist →
  stream_repr hist (mkOutgoing (og_retained o) (offset +₆₄ len (dropN offset hist)) true target w).
Proof.
  intros Ho. destruct Hrepr as (Hs & Hb & _ & Hl). split_and!; [done|done| |done]. cbn.
  rewrite wadd64_small; len_lia.
Qed.

Lemma attached_repr offset :
  rt_start (og_retained o) ≤ offset ≤ len hist →
  ∃ o', attached offset o = (resync_for offset, o')
    ∧ stream_repr hist o' ∧ rt_start (og_retained o') = rt_start (og_retained o).
Proof.
  intros Ho. destruct Hrepr as (Hs & Hb & Hn & Hl). unfold attached, resync_for.
  assert ((if is_empty (rt_bytes (og_retained o)) && (rt_start (og_retained o) =? 0) && (og_next_offset o =? 0)
           then restart_at offset (og_retained o) else og_retained o) = og_retained o) as ->.
  { destruct (og_retained o) as [start bytes] eqn:Er. cbn in *. case_goal; [|done].
    apply andb_true_iff in Heqb as [[He Hz]%andb_true_iff Hnz]. apply N.eqb_eq in Hz, Hnz. subst start.
    rewrite Hn in Hnz. assert (offset = 0) as -> by lia. by destruct bytes. }
  destruct (N.ltb_spec offset (rt_start (og_retained o))); [lia|].
  rewrite retained_from_repr by done. destruct (is_empty (dropN offset hist)) eqn:Hemp; eexists; (split; [done|]).
  - split; [|done]. split_and!; [done|done| |done]. cbn.
    assert (dropN offset hist = []) as Hnil by by destruct (dropN offset hist).
    apply (f_equal len) in Hnil. autorewrite with len in Hnil. lia.
  - split; [|done]. apply moved_repr. lia.
Qed.

Lemma mismatch_repr offset :
  rt_start (og_retained o) ≤ offset ≤ len hist →
  ∃ r o', mismatch offset o = (r, o') ∧ (r = Nothing ∨ r = resync_for offset)
    ∧ stream_repr hist o' ∧ rt_start (og_retained o') = rt_start (og_retained o).
Proof.
  intros Ho. unfold mismatch, resync_for. case_bool_decide; [by exists Nothing, o; auto|].
  rewrite retained_from_repr by done. do 2 eexists. split; [done|]. split_and!; [by right| |done].
  destruct (moved_repr offset (Some offset) (og_window o)) as (? & ? & ? & ?); [lia|]. by split_and!.
Qed.
End stream.

(** ** Splitting into frames *)

(** Consecutive requests. *)
Fixpoint slice_requests (offset : N) (slices : list (list byte)) : list Request :=
  match slices with
  | [] => []
  | slice :: rest => RqOutput offset slice :: slice_requests (offset + len slice) rest
  end.

(** A request names bytes of the stream at their place. *)
Definition request_ok (hist : list byte) (r : Request) : Prop :=
  match r with
  | RqOutput start bytes => start + len bytes ≤ len hist ∧ bytes = sliceN start (start + len bytes) hist
  | RqResize _ _ => True
  | RqClose reason => reason ≠ lit "publisher_desynchronised"
  end.

Lemma request_ok_grow hist chunk r : request_ok hist r → request_ok (hist ++ chunk) r.
Proof.
  destruct r as [start bytes| |]; [|done|done]. intros [H1 H2]. split; [len_lia|]. by rewrite sliceN_app_l.
Qed.

Lemma slice_requests_ok hist start slices :
  start + len (mjoin slices) ≤ len hist →
  mjoin slices = sliceN start (start + len (mjoin slices)) hist →
  Forall (request_ok hist) (slice_requests start slices).
Proof.
  revert start. induction slices as [|slice slices IH]; intros start Hle Heq; [constructor|].
  cbn [slice_requests mjoin list_join] in *. rewrite len_app in *.
  rewrite <- (sliceN_split start (start + len slice)) in Heq by lia.
  apply app_inj_1 in Heq as [H1 H2].
  2:{ apply Nat2N.inj. change (len slice = len (sliceN start (start + len slice) hist)). rewrite len_sliceN. lia. }
  constructor; [split; [lia|done]|]. apply IH; rewrite <- N.add_assoc; [exact Hle|exact H2].
Qed.

(** ** The driver *)

Record drive_ok (hist : list byte) (d : Drive) : Prop := mkDriveOk {
  dk_stream : stream_repr hist (dr_stream d);
  dk_requests : Forall (request_ok hist) (dr_requests d);
  dk_frame : 0 < dr_max_frame d;
}.

(** What a step towards the transport leaves alone. *)
Definition same_stream (d d' : Drive) : Prop := dr_stream d' = dr_stream d ∧ dr_waiting d' = dr_waiting d.

Lemma request_step hist r d ok d' :
  drive_ok hist d → request_ok hist r → request r d = (ok, d') →
  drive_ok hist d' ∧ same_stream d d' ∧ dr_max_frame d' = dr_max_frame d.
Proof.
  intros [Hs Hr Hf] Hok. unfold request. destruct (dr_transport_open d); intros [= <- <-]; [|done].
  split; [|done]. split; cbn; [done| |done]. apply Forall_app. by repeat constructor.
Qed.

Lemma send_slices_step hist offset slices d ok d' :
  drive_ok hist d → Forall (request_ok hist) (slice_requests offset slices) →
  offset + len (mjoin slices) < two64 →
  send_slices offset slices d = (ok, d') →
  drive_ok hist d' ∧ same_stream d d'.
Proof.
  revert offset d. induction slices as [|slice slices IH]; intros offset d Hd Hall Hl; cbn [send_slices].
  { by intros [= <- <-]. }
  cbn [slice_requests mjoin list_join] in Hall, Hl. rewrite len_app in Hl. apply Forall_cons in Hall as [Hr Hall].
  destruct (request (RqOutput offset slice) d) as [ok1 d1] eqn:E.
  destruct (request_step _ _ _ _ _ Hd Hr E) as (Hd1 & [Hs1 Hw1] & _).
  destruct ok1; [|by intros [= <- <-]].
  rewrite wadd64_small by lia. intros E'.
  destruct (IH (offset + len slice) d1 Hd1 Hall) as (Hd' & Hs' & Hw'); [by rewrite <- N.add_assoc|done|].
  split; [done|]. split; congruence.
Qed.

Lemma send_output_step hist start bytes d :
  drive_ok hist d → start + len bytes ≤ len hist → bytes = sliceN start (start + len bytes) hist →
  drive_ok hist (or_finish (send_output start bytes d)) ∧ same_stream d (or_finish (send_output start bytes d)).
Proof.
  intros Hd Hle Heq. pose proof (chunks_concat (dr_max_frame d) bytes (dk_frame _ _ Hd)) as Hcat.
  unfold send_output. destruct (send_slices _ _ d) as [ok d'] eqn:E. unfold or_finish.
  apply (send_slices_step hist) in E as [Hd' Hs']; [|done| |].
  2:{ apply slice_requests_ok; by rewrite Hcat. }
  2:{ rewrite Hcat. destruct (dk_stream _ _ Hd) as (_ & _ & _ & ?). lia. }
  destruct ok; [done|]. destruct Hd' as [? ? ?]. by split; [split|].
Qed.

Lemma resynchronise_step hist room offset d r o' :
  drive_ok hist d → offset ≤ len hist → r = Nothing ∨ r = resync_for hist offset →
  stream_repr hist o' →
  drive_ok hist (resynchronise room (r, o') d)
  ∧ dr_stream (resynchronise room (r, o') d) = o' ∧ dr_waiting (resynchronise room (r, o') d) = dr_waiting d.
Proof.
  intros [Hs Hr Hf] Ho Hcase Ho'. assert (drive_ok hist (with_stream o' d)) as Hd' by done.
  destruct Hcase as [->| ->]; [done|]. unfold resync_for. destruct (is_empty _); [done|].
  cbn [resynchronise fst snd].
  destruct (send_output_step hist offset (dropN offset hist) _ Hd') as (H1 & H2 & H3); [len_lia| |by rewrite H2, H3].
  rewrite len_dropN. by rewrite sliceN_all by lia.
Qed.

(** What an event may say, given where the stream's retained bytes start. *)
Definition event_ok (start : N) (hist : list byte) (e : Event) : Prop :=
  match e with
  | EvAttached _ offset _ | EvMismatch offset => start ≤ offset ≤ len hist
  | EvAck durable => durable ≤ len hist
  | _ => True
  end.
Definition acked (start : N) (e : Event) : N := match e with EvAck durable => N.max start durable | _ => start end.

Lemma drive_event_step hist room e d :
  drive_ok hist d → event_ok (rt_start (og_retained (dr_stream d))) hist e →
  let d' := drive_event room (Some e) d in
  drive_ok hist d' ∧ dr_waiting d' = dr_waiting d
  ∧ rt_start (og_retained (dr_stream d')) = acked (rt_start (og_retained (dr_stream d))) e.
Proof.
  intros Hd He. pose proof Hd as [Hs Hr Hf]. destruct e as [id offset limits|durable|bytes|cols rows|offset| |reason];
    cbn [drive_event acked event_ok] in *.
  - assert (drive_ok hist (apply_limits limits d)) as Hd1.
    { split; [|done|cbn; lia]. destruct Hs as (? & ? & ? & ?). by split_and!. }
    destruct (attached_repr hist (dr_stream (apply_limits limits d)) (dk_stream _ _ Hd1) offset He) as (o' & -> & Ho' & Hst).
    destruct (resynchronise_step hist room offset (apply_limits limits d) _ o' Hd1 (proj2 He) (or_intror eq_refl) Ho')
      as (H1 & H2 & H3). split_and!; [done|by rewrite H3|by rewrite H2, Hst].
  - destruct (acknowledge_repr hist _ Hs _ He) as [Ho' Hst]. split_and!; [|done|done]. by split.
  - destruct room; [|done]. done.
  - by destruct room.
  - destruct (mismatch_repr hist _ Hs offset He) as (r & o' & -> & Hcase & Ho' & Hst).
    destruct (resynchronise_step hist room offset d r o' Hd (proj2 He) Hcase Ho') as (H1 & H2 & H3).
    split_and!; [done|done|by rewrite H2, Hst].
  - split_and!; [|done|done]. split; [|done|done]. destruct Hs as (? & ? & ? & ?). by split_and!.
  - by destruct room.
Qed.

(** Handing a chunk to the stream, or keeping it for later. *)
Lemma hand_over_step hist chunk d :
  drive_ok hist d → dr_waiting d = None → len (hist ++ chunk) < two64 →
  let d' :=
    if may_send (dr_stream d) then
      let '(start, o) := outgoing_send chunk (dr_stream d) in
      let d := with_stream o d in
      match start with
      | Some start => or_finish (send_output start chunk d)
      | None => with_waiting (Some chunk) d
      end
    else with_waiting (Some chunk) d in
  ∃ hist', hist' ++ default [] (dr_waiting d') = hist ++ chunk ∧ hist `prefix_of` hist' ∧ drive_ok hist' d'
    ∧ rt_start (og_retained (dr_stream d')) = rt_start (og_retained (dr_stream d)).
Proof.
  intros Hd Hw Hl. pose proof Hd as [Hs Hr Hf]. cbv zeta.
  assert (∃ hist', hist' ++ default [] (dr_waiting (with_waiting (Some chunk) d)) = hist ++ chunk
            ∧ hist `prefix_of` hist' ∧ drive_ok hist' (with_waiting (Some chunk) d)
            ∧ rt_start (og_retained (dr_stream (with_waiting (Some chunk) d)))
              = rt_start (og_retained (dr_stream d))) as Hwait by by exists hist.
  destruct (may_send (dr_stream d)) eqn:Hm; [|exact Hwait].
  destruct (outgoing_send chunk (dr_stream d)) as [[start|] o] eqn:E.
  - destruct (outgoing_send_repr _ _ Hs _ _ _ Hl E) as (-> & Ho & Hst). exists (hist ++ chunk).
    assert (drive_ok (hist ++ chunk) (with_stream o d)) as Hd'.
    { split; [done| |done]. eapply Forall_impl; [exact Hr|]. intros. by apply request_ok_grow. }
    destruct (send_output_step (hist ++ chunk) (len hist) chunk _ Hd') as (H1 & H2 & H3); [len_lia| |].
    { replace (len hist + len chunk) with (len (hist ++ chunk)) by len_lia. by rewrite sliceN_app_r. }
    rewrite H2, H3. cbn [dr_waiting with_stream]. rewrite Hw. cbn [default from_option id].
    split_and!; [by rewrite app_nil_r|by eexists|done|done].
  - unfold may_send in Hm. apply andb_true_iff in Hm as [Hp _]. unfold outgoing_send in E. by rewrite Hp in E.
Qed.

(** ** The loop *)

(** One turn: an arm, then the head of the next iteration unless it returned. *)
Definition drive_turn (arm : Drive → Drive) (d : Drive) : Drive :=
  let d := arm d in if dr_done d then d else drive_head d.

Definition handed_by (m : option FromOwner) : list byte :=
  match m with Some (FoOutput chunk) => chunk | _ => [] end.

(** What the driver has made of the bytes handed to it: a stream, and perhaps a
    chunk that still waits. *)
Definition drive_inv (handed hist : list byte) (d : Drive) : Prop :=
  handed = hist ++ default [] (dr_waiting d) ∧ drive_ok hist d ∧ len handed < two64.

Lemma drive_head_step handed hist d :
  drive_inv handed hist d →
  ∃ hist', hist `prefix_of` hist' ∧ drive_inv handed hist' (drive_head d)
    ∧ rt_start (og_retained (dr_stream (drive_head d))) = rt_start (og_retained (dr_stream d)).
Proof.
  intros (Hh & Hd & Hl). unfold drive_head.
  match goal with |- context [if dr_done ?x then _ else _] =>
    assert (∃ hist', hist `prefix_of` hist' ∧ drive_inv handed hist' x
      ∧ rt_start (og_retained (dr_stream x)) = rt_start (og_retained (dr_stream d))) as (hist' & Hp & Hinv & Hst);
    [|generalize dependent x; intros d1 Hinv Hst] end.
  - destruct (dr_waiting d) as [chunk|] eqn:Hw.
    + assert (drive_ok hist (with_waiting None d)) as Hd1 by (destruct Hd; done).
      cbn [default from_option id] in Hh. rewrite Hh in Hl.
      destruct (hand_over_step hist chunk (with_waiting None d) Hd1 eq_refl Hl) as (hist' & H1 & H2 & H3 & H4).
      exists hist'. split; [done|]. split; [|exact H4]. split; [by rewrite Hh, <- H1|]. by rewrite Hh.
    + exists hist. split_and!; [done| |done]. split; [by rewrite Hw|done].
  - exists hist'. split; [done|]. destruct (dr_done d1); [done|]. case_goal; [|done].
    destruct Hinv as (Hh1 & Hd1 & Hl1). assert (drive_ok hist' (with_closed d1)) as Hd2 by (destruct Hd1; done).
    destruct (request _ (with_closed d1)) as [ok d2] eqn:E.
    apply (request_step hist') in E as (Hd3 & [Hs3 Hw3] & _); [|done|vm_compute; congruence].
    cbn [snd]. rewrite Hs3. split; [|done]. split; [|done]. by rewrite Hw3.
Qed.

Lemma drive_turn_step handed' hist1 arm d :
  drive_inv handed' hist1 (arm d) →
  ∃ hist', hist1 `prefix_of` hist' ∧ drive_inv handed' hist' (drive_turn arm d)
    ∧ rt_start (og_retained (dr_stream (drive_turn arm d))) = rt_start (og_retained (dr_stream (arm d))).
Proof.
  intros Hinv. unfold drive_turn. destruct (dr_done (arm d)); [by exists hist1|].
  by apply drive_head_step.
Qed.

Lemma drive_owner_step handed hist m d :
  drive_inv handed hist d → owner_ready d = true → len (handed ++ handed_by m) < two64 →
  ∃ hist', hist `prefix_of` hist' ∧ drive_inv (handed ++ handed_by m) hist' (drive_owner m d)
    ∧ rt_start (og_retained (dr_stream (drive_owner m d))) = rt_start (og_retained (dr_stream d)).
Proof.
  intros (Hh & Hd & Hl) [_ Hw%bool_decide_eq_true]%andb_true_iff Hl'.
  rewrite Hw in Hh. cbn [default from_option] in Hh. rewrite app_nil_r in Hh. subst handed.
  destruct m as [[chunk|cols rows]|]; cbn [handed_by drive_owner] in *.
  - destruct (hand_over_step hist chunk d Hd Hw Hl') as (hist' & H1 & H2 & H3 & H4).
    exists hist'. split; [done|]. split; [|exact H4]. split; [by symmetry|done].
  - rewrite app_nil_r in *. exists hist. split; [done|].
    destruct (request _ d) as [ok d1] eqn:E.
    apply (request_step hist) in E as (Hd1 & [Hs1 Hw1] & _); [|done|done].
    assert (drive_inv hist hist d1) as Hinv by (split; [rewrite Hw1, Hw; cbn; by rewrite app_nil_r|done]).
    unfold or_finish. destruct ok; [by rewrite Hs1|]. destruct Hinv as (? & [? ? ?] & ?).
    split; [by split_and!|]. cbn. by rewrite Hs1.
  - rewrite app_nil_r in *. exists hist. split; [done|]. split; [|done]. destruct Hd.
    split; [cbn; rewrite Hw; cbn; by rewrite app_nil_r|]. done.
Qed.

(** ** Both ends *)

Record Pipe := mkPipe {
  pp_drive : Drive;
  pp_handed : list byte;
  pp_inbox : list Event;
  pp_terminal : TerminalInner;
  pp_log : list byte;
}.

(** What happens besides the owner. *)
Inductive wire_step : Pipe → Pipe → Prop :=
(** The driver takes the next event. *)
| ps_event d handed e inbox i log room :
    dr_done d = false →
    wire_step (mkPipe d handed (e :: inbox) i log) (mkPipe (drive_turn (drive_event room (Some e)) d) handed inbox i log)
(** An event is lost on the way. *)
| ps_lose d handed inbox e inbox' i log :
    wire_step (mkPipe d handed (inbox ++ e :: inbox') i log) (mkPipe d handed (inbox ++ inbox') i log)
(** The relay receives any frame that was ever sent, and complains when it must. *)
| ps_frame d handed inbox i log start bytes now capacity outcome i' :
    RqOutput start bytes ∈ dr_requests d →
    term_append now start bytes capacity i = (outcome, i') →
    wire_step (mkPipe d handed inbox i log)
      (mkPipe d handed
         (match outcome with OffsetMismatch next _ => inbox ++ [EvMismatch next] | _ => inbox end) i'
         (match outcome with Accepted _ _ => log ++ bytes | _ => log end))
(** A checkpoint commits. *)
| ps_commit d handed inbox i log target closed :
    target ≤ i_next_offset i →
    wire_step (mkPipe d handed inbox i log) (mkPipe d handed inbox (term_commit_durable target closed i) log)
(** The acknowledgement task sends. *)
| ps_ack d handed inbox i log :
    wire_step (mkPipe d handed inbox i log) (mkPipe d handed (inbox ++ [EvAck (i_durable_offset i)]) i log)
(** The terminal is opened again, on a new connection or the old one. *)
| ps_open d handed inbox i log id limits :
    wire_step (mkPipe d handed inbox i log)
      (mkPipe d handed (inbox ++ [EvAttached id (i_next_offset i) limits]) i log)
(** Whatever else the driver is told. *)
| ps_tell d handed inbox i log e :
    match e with EvInput _ | EvResizeRequest _ _ | EvDetached | EvEnded _ => True | _ => False end →
    wire_step (mkPipe d handed inbox i log) (mkPipe d handed (inbox ++ [e]) i log)
(** The relay restarts from what it committed. *)
| ps_restart d handed inbox i log i' :
    term_repr (takeN (i_durable_offset i) log) i' → i_durable_offset i' = i_durable_offset i →
    wire_step (mkPipe d handed inbox i log) (mkPipe d handed inbox i' (takeN (i_durable_offset i) log))
(** Any other change of the terminal. *)
| ps_other d handed inbox i log i' :
    term_repr log i' → i_durable_offset i' = i_durable_offset i →
    wire_step (mkPipe d handed inbox i log) (mkPipe d handed inbox i' log).

Inductive pipe_step : Pipe → Pipe → Prop :=
(** The owner writes, resizes or leaves. *)
| ps_owner d handed inbox i log m :
    owner_ready d = true → dr_done d = false → len (handed ++ handed_by m) < two63 →
    pipe_step (mkPipe d handed inbox i log)
      (mkPipe (drive_turn (drive_owner m) d) (handed ++ handed_by m) inbox i log)
| ps_wire p p' : wire_step p p' → pipe_step p p'.

(** What may be on its way to the driver: no offset is behind what was
    acknowledged before it. *)
Fixpoint inbox_ok (start durable top : N) (inbox : list Event) : Prop :=
  match inbox with
  | [] => True
  | e :: rest =>
      match e with
      | EvAttached _ offset _ | EvMismatch offset => start ≤ offset ≤ top
      | EvAck acked => acked ≤ durable
      | _ => True
      end ∧ inbox_ok (acked start e) durable top rest
  end.

Record pipe_inv (hist : list byte) (p : Pipe) : Prop := mkPipeInv {
  pi_drive : drive_inv (pp_handed p) hist (pp_drive p);
  pi_len : len (pp_handed p) < two63;
  pi_terminal : term_repr (pp_log p) (pp_terminal p);
  pi_prefix : pp_log p `prefix_of` hist;
  pi_start : rt_start (og_retained (dr_stream (pp_drive p))) ≤ i_durable_offset (pp_terminal p);
  pi_inbox : inbox_ok (rt_start (og_retained (dr_stream (pp_drive p)))) (i_durable_offset (pp_terminal p))
               (len hist) (pp_inbox p);
}.

Lemma inbox_ok_grow start durable durable' top top' inbox :
  durable ≤ durable' → top ≤ top' → inbox_ok start durable top inbox → inbox_ok start durable' top' inbox.
Proof.
  intros Hd Ht. revert start. induction inbox as [|e inbox IH]; intros start; cbn; [done|].
  intros [He Hin]. split; [|by apply IH]. destruct e; try done; lia.
Qed.
Lemma inbox_ok_start start start' durable top inbox :
  start' ≤ start → inbox_ok start durable top inbox → inbox_ok start' durable top inbox.
Proof.
  revert start start'. induction inbox as [|e inbox IH]; intros start start' Hs; cbn; [done|].
  intros [He Hin]. split; [destruct e; try done; lia|]. eapply IH; [|done]. destruct e; cbn; lia.
Qed.
Lemma inbox_ok_lose start durable top inbox e inbox' :
  inbox_ok start durable top (inbox ++ e :: inbox') → inbox_ok start durable top (inbox ++ inbox').
Proof.
  revert start. induction inbox as [|e1 inbox IH]; intros start; cbn.
  - intros [_ Hin]. eapply inbox_ok_start; [|done]. destruct e; cbn; lia.
  - intros [He Hin]. split; [done|]. by apply IH.
Qed.
(** What the relay says now is ahead of all it acknowledged. *)
Lemma inbox_ok_snoc start durable top inbox e :
  start ≤ durable → inbox_ok start durable top inbox →
  match e with
  | EvAttached _ offset _ | EvMismatch offset => durable ≤ offset ≤ top
  | EvAck acked => acked ≤ durable
  | _ => True
  end →
  inbox_ok start durable top (inbox ++ [e]).
Proof.
  revert start. induction inbox as [|e1 inbox IH]; intros start Hs; cbn.
  - intros _ He. split; [|done]. destruct e; try done; lia.
  - intros [He1 Hin] He. split; [done|]. apply IH; [|done|done]. destruct e1; cbn in *; lia.
Qed.

Lemma term_commit_repr log target closed i :
  term_repr log i → target ≤ len log →
  term_repr log (term_commit_durable target closed i)
  ∧ i_durable_offset i ≤ i_durable_offset (term_commit_durable target closed i).
Proof.
  intros (Hr & Hn & Hd) Ht. unfold term_commit_durable, term_repr.
  destruct (N.ltb_spec (i_durable_offset i) target); destruct closed; repeat case_goal; split_and!;
    repeat (autorewrite with term; cbn); first [done|lia].
Qed.

Lemma prefix_len (l1 l2 : list byte) : l1 `prefix_of` l2 → len l1 ≤ len l2.
Proof. intros [k ->]. len_lia. Qed.
(** What continues a prefix at its end continues it. *)
Lemma prefix_extend (log hist bytes : list byte) :
  log `prefix_of` hist → len log + len bytes ≤ len hist → bytes = sliceN (len log) (len log + len bytes) hist →
  log ++ bytes `prefix_of` hist.
Proof.
  intros [k ->] Hle ->. rewrite len_app in Hle. unfold sliceN. rewrite dropN_app_ge by done.
  rewrite N.sub_diag, dropN_0. apply prefix_app. eexists. symmetry. apply takeN_dropN.
Qed.
Lemma prefix_takeN n (l : list byte) : takeN n l `prefix_of` l.
Proof. eexists. symmetry. apply takeN_dropN. Qed.

(** The terminal moved without the driver noticing. *)
Lemma pipe_inv_terminal hist d handed inbox i log i' :
  pipe_inv hist (mkPipe d handed inbox i log) →
  term_repr log i' → i_durable_offset i ≤ i_durable_offset i' →
  pipe_inv hist (mkPipe d handed inbox i' log).
Proof.
  intros [Hd Hl Ht Hp Hs Hin] Ht' Hdur. cbn in *. split; cbn; [done..|lia|]. by eapply inbox_ok_grow.
Qed.

Lemma pipe_inv_say hist d handed inbox i log e :
  pipe_inv hist (mkPipe d handed inbox i log) →
  match e with
  | EvAttached _ offset _ | EvMismatch offset => offset = len log
  | EvAck acked => acked = i_durable_offset i
  | _ => True
  end →
  pipe_inv hist (mkPipe d handed (inbox ++ [e]) i log).
Proof.
  intros [Hd Hl Ht Hp Hs Hin] He. cbn in *. split; cbn; [done..|].
  apply inbox_ok_snoc; [done|done|]. destruct Ht as (_ & _ & Hdur). apply prefix_len in Hp.
  destruct e; try done; lia.
Qed.

(** The driver moved. *)
Lemma pipe_inv_drive hist hist' d d' handed handed' inbox inbox' i log :
  pipe_inv hist (mkPipe d handed inbox i log) →
  hist `prefix_of` hist' → drive_inv handed' hist' d' → len handed' < two63 →
  rt_start (og_retained (dr_stream d')) ≤ i_durable_offset i →
  inbox_ok (rt_start (og_retained (dr_stream d'))) (i_durable_offset i) (len hist') inbox' →
  pipe_inv hist' (mkPipe d' handed' inbox' i log).
Proof. intros [Hd Hl Ht Hp Hs Hin] Hpre Hd' Hl' Hs' Hin'. cbn in *. split; cbn; [done..| |done|done]. by etrans. Qed.

Lemma pipe_step_inv hist p p' :
  pipe_step p p' → pipe_inv hist p → ∃ hist', hist `prefix_of` hist' ∧ pipe_inv hist' p'.
Proof.
  intros Hstep Hinv. pose proof Hinv as [Hd Hl Ht Hp Hs Hin].
  destruct Hstep as [d handed inbox i log m Hready _ Hl'|_ _ [d handed e inbox i log room _|d handed inbox e inbox' i log
    |d handed inbox i log start bytes now capacity outcome i' Hreq Happ|d handed inbox i log target closed Htarget
    |d handed inbox i log|d handed inbox i log id limits|d handed inbox i log e He|d handed inbox i log i' Ht' Hdur
    |d handed inbox i log i' Ht' Hdur]]; cbn in *.
  - destruct (drive_owner_step _ _ m _ Hd Hready) as (hist1 & Hp1 & Hd1 & Hs1); [lia|].
    destruct (drive_turn_step _ _ _ _ Hd1) as (hist' & Hp' & Hd' & Hs'). exists hist'.
    assert (hist `prefix_of` hist') as Hpre by by etrans. split; [done|].
    eapply pipe_inv_drive; [done..| |]; rewrite Hs', Hs1; [done|].
    eapply inbox_ok_grow; [| |exact Hin]; [lia|by apply prefix_len].
  - destruct Hin as [He Hin]. destruct Hd as (Hh & Hd & Hlh).
    destruct Ht as (_ & _ & Hdur). pose proof (prefix_len _ _ Hp) as Hlog.
    destruct (drive_event_step hist room e d Hd) as (Hd1 & Hw1 & Hs1); [destruct e; cbn; try done; lia|].
    assert (drive_inv handed hist (drive_event room (Some e) d)) as Hinv1 by (split; [by rewrite Hw1|done]).
    destruct (drive_turn_step _ _ _ _ Hinv1) as (hist' & Hp' & Hd' & Hs'). exists hist'. split; [done|].
    eapply pipe_inv_drive; [done..| |]; rewrite Hs', Hs1; [destruct e; cbn in *; lia|].
    eapply inbox_ok_grow; [| |exact Hin]; [lia|by apply prefix_len].
  - exists hist. split; [done|]. eapply pipe_inv_drive; [done..|]. by eapply inbox_ok_lose.
  - exists hist. split; [done|]. pose proof Hd as (Hh & [Hst Hr Hf] & Hlh).
    rewrite Forall_forall in Hr. destruct (Hr _ Hreq) as [Hle Heq].
    assert (len hist ≤ len handed) by (rewrite Hh; len_lia). pose proof (prefix_len _ _ Hp) as Hlog.
    pose proof Ht as (_ & Hn & _).
    destruct (N.eq_dec start (len log)) as [->|Hne].
    + pose proof (term_append_spec log i now (len log) bytes capacity Ht ltac:(len_lia)) as Hspec. rewrite Happ in Hspec.
      destruct outcome as [next durable|next durable|].
      * destruct Hspec as (_ & _ & _ & _ & Ht' & _ & _ & Hdur'). split; cbn; [done|done|done| | |]; rewrite ?Hdur'; try done.
        by apply prefix_extend.
      * destruct Hspec as (_ & ? & _). done.
      * destruct Hspec as (_ & ->). done.
    + assert (outcome = NotOpen ∧ i' = i ∨ (∃ durable, outcome = OffsetMismatch (len log) durable) ∧ i' = i)
        as [[-> ->]|[[durable ->] ->]].
      { revert Happ. unfold term_append. case_goal; [intros [= <- <-]; by left|]. rewrite Hn.
        rewrite (proj2 (N.eqb_neq _ _) Hne). intros [= <- <-]. right. eauto. }
      * done.
      * by apply pipe_inv_say.
  - exists hist. split; [done|]. pose proof Ht as (_ & Hn & _). rewrite Hn in Htarget.
    destruct (term_commit_repr log target closed i Ht Htarget). by eapply pipe_inv_terminal.
  - exists hist. split; [done|]. by apply pipe_inv_say.
  - exists hist. split; [done|]. apply pipe_inv_say; [done|]. by destruct Ht as (_ & -> & _).
  - exists hist. split; [done|]. apply pipe_inv_say; [done|]. by destruct e.
  - exists hist. split; [done|]. split; cbn; [done|done|done| |lia|by rewrite Hdur].
    etrans; [apply prefix_takeN|done].
  - exists hist. split; [done|]. eapply pipe_inv_terminal; [done|done|lia].
Qed.

Lemma pipe_steps_inv hist p p' :
  rtc pipe_step p p' → pipe_inv hist p → ∃ hist', hist `prefix_of` hist' ∧ pipe_inv hist' p'.
Proof.
  intros Hsteps. revert hist. induction Hsteps as [p|p1 p2 p3 Hstep _ IH]; intros hist Hinv; [by exists hist|].
  destruct (pipe_step_inv _ _ _ Hstep Hinv) as (hist1 & Hp1 & Hinv1).
  destruct (IH _ Hinv1) as (hist' & Hp' & Hinv'). exists hist'. split; [by etrans|done].
Qed.

Definition pipe_new (i : TerminalInner) : Pipe := mkPipe drive_new [] [] i [].

Lemma pipe_new_inv i : term_repr [] i → pipe_inv [] (pipe_new i).
Proof.
  intros Ht. split; cbn; [|done|done|done| |done].
  - split_and!; [done| |done]. split; [apply stream_repr_new|constructor|done].
  - destruct Ht as (_ & _ & Hd). cbn. lia.
Qed.

(** ** Recovering after a reconnect *)

Lemma send_slices_open offset slices d :
  dr_transport_open d = true → offset + len (mjoin slices) < two64 →
  ∃ d', send_slices offset slices d = (true, d')
    ∧ dr_requests d' = dr_requests d ++ slice_requests offset slices
    ∧ dr_waiting d' = dr_waiting d ∧ dr_transport_open d' = true.
Proof.
  revert offset d. induction slices as [|slice slices IH]; intros offset d Hopen Hl; cbn [send_slices slice_requests].
  { exists d. by rewrite app_nil_r. }
  cbn [mjoin list_join] in Hl. rewrite len_app in Hl. unfold request at 1. rewrite Hopen. cbn [snd].
  rewrite wadd64_small by lia.
  edestruct (IH (offset + len slice)) as (d' & -> & Hr & Hw & Ho); [| |exists d'; split_and!; [done| |exact Hw|exact Ho]].
  - reflexivity.
  - by rewrite <- N.add_assoc.
  - rewrite Hr. cbn. by rewrite <- app_assoc.
Qed.

(** The relay receives frames one after the other; [None] when it refuses one. *)
Fixpoint receive_all (now capacity : N) (requests : list Request) (i : TerminalInner) : option TerminalInner :=
  match requests with
  | [] => Some i
  | RqOutput start bytes :: rest =>
      match term_append now start bytes capacity i with
      | (Accepted _ _, i') => receive_all now capacity rest i'
      | _ => None
      end
  | _ :: rest => receive_all now capacity rest i
  end.

Lemma receive_slices now capacity slices log i :
  term_repr log i → i_lifecycle i = Open → len (log ++ mjoin slices) < two63 →
  ∃ i', receive_all now capacity (slice_requests (len log) slices) i = Some i'
    ∧ term_repr (log ++ mjoin slices) i' ∧ i_lifecycle i' = Open.
Proof.
  revert log i. induction slices as [|slice slices IH]; intros log i Ht Ho Hl; cbn [slice_requests receive_all].
  { exists i. cbn. by rewrite app_nil_r. }
  cbn [mjoin list_join] in *. rewrite app_assoc in Hl.
  pose proof (term_append_spec log i now (len log) slice capacity Ht ltac:(len_lia)) as H.
  destruct (term_append _ _ _ _ _) as [[next durable|next durable|] i1].
  - destruct H as (_ & _ & _ & _ & Ht1 & _ & Ho1 & _). rewrite <- len_app, app_assoc. by apply IH.
  - by destruct H as (_ & ? & _).
  - by destruct H as [? _].
Qed.

Lemma drive_attached_requests hist d i log id limits room :
  drive_ok hist d → dr_transport_open d = true → term_repr log i → log `prefix_of` hist →
  rt_start (og_retained (dr_stream d)) ≤ len log →
  ∃ slices,
    let d' := drive_event room (Some (EvAttached id (len log) limits)) d in
    dr_requests d' = dr_requests d ++ slice_requests (len log) slices
    ∧ mjoin slices = dropN (len log) hist ∧ dr_waiting d' = dr_waiting d.
Proof.
  intros [Hst Hr Hf] Hopen Ht Hp Hs. pose proof (prefix_len _ _ Hp) as Hle. cbn [drive_event].
  assert (stream_repr hist (dr_stream (apply_limits limits d))) as Hst'.
  { destruct Hst as (? & ? & ? & ?). by split_and!. }
  destruct (attached_repr hist _ Hst' (len log)) as (o' & -> & _ & _); [split; [exact Hs|done]|].
  unfold resync_for, resynchronise. cbn [fst snd]. destruct (is_empty (dropN (len log) hist)) eqn:He.
  - exists []. cbn. rewrite app_nil_r. split_and!; [done| |done]. by destruct (dropN (len log) hist).
  - cbn [fst]. unfold send_output.
    assert (mjoin (chunks (dr_max_frame (with_stream o' (apply_limits limits d))) (dropN (len log) hist))
            = dropN (len log) hist) as Hcat by (apply chunks_concat; cbn; lia).
    destruct Hst as (_ & _ & _ & Hlt).
    edestruct (send_slices_open (len log) (chunks (dr_max_frame (with_stream o' (apply_limits limits d)))
      (dropN (len log) hist)) (with_stream o' (apply_limits limits d))) as (d' & -> & Hreq & Hw & _); [done| |].
    { rewrite Hcat. len_lia. }
    eexists. split_and!; [exact Hreq|exact Hcat|exact Hw].
Qed.

(** ** Properties *)

(** C1: the relay's log is always what the shell wrote. Whatever the network
    loses, repeats or reorders, however often the connection breaks and the
    relay restarts from what it committed: what the relay accepted is a prefix
    of the bytes handed to the driver, the driver still holds every byte that
    is not durable, and it never has to give the terminal up. *)
Theorem relay_log_is_shell_prefix (i : TerminalInner) (p : Pipe) :
  term_repr [] i → rtc pipe_step (pipe_new i) p →
  term_repr (pp_log p) (pp_terminal p)
  ∧ pp_log p `prefix_of` pp_handed p
  ∧ (let r := og_retained (dr_stream (pp_drive p)) in
     rt_start r ≤ i_durable_offset (pp_terminal p)
     ∧ rt_bytes r ++ default [] (dr_waiting (pp_drive p)) = dropN (rt_start r) (pp_handed p))
  ∧ RqClose (lit "publisher_desynchronised") ∉ dr_requests (pp_drive p).
Proof.
  intros Ht Hsteps. destruct (pipe_steps_inv [] _ _ Hsteps (pipe_new_inv i Ht)) as (hist & _ & Hinv).
  destruct Hinv as [(Hh & [(Hs & Hb & _ & _) Hr _] & _) _ Ht' Hp Hst _]. cbv zeta. split_and!; [done| |done| |].
  - rewrite Hh. etrans; [done|]. by eexists.
  - rewrite Hh, Hb. by rewrite dropN_app_le.
  - intros Hin. rewrite Forall_forall in Hr. by apply Hr in Hin.
Qed.

(** A terminal at the start. *)
Definition example_fresh : TerminalInner :=
  h_inner (term_new_open (mkTerminalRow 7 1 (lit "alice") (lit "shell") (lit "r") StOpen None None None None true
             0 0 None None 0 0) 1024).
Lemma example_fresh_repr : term_repr [] example_fresh.
Proof. vm_compute. repeat split; congruence. Qed.

Definition example_limits : Limits := mkLimits 4096 65536.
(** Opened; the shell writes [ab], of which a frame arrives. *)
Definition example_drive : Drive :=
  drive_turn (drive_owner (Some (FoOutput [x61; x62])))
    (drive_turn (drive_event true (Some (EvAttached 1 (i_next_offset example_fresh) example_limits))) drive_new).
Definition example_terminal : TerminalInner := (term_append 9 0 [x61; x62] 1024 example_fresh).2.
Definition example_pipe : Pipe := mkPipe example_drive [x61; x62] [] example_terminal [x61; x62].

Lemma example_pipe_steps : rtc pipe_step (pipe_new example_fresh) example_pipe.
Proof.
  eapply rtc_l; [apply ps_wire, (ps_open _ _ _ _ _ 1 example_limits)|].
  eapply rtc_l; [by apply ps_wire, (ps_event _ _ _ _ _ _ true)|].
  eapply rtc_l; [apply (ps_owner _ _ _ _ _ (Some (FoOutput [x61; x62]))); vm_compute; reflexivity|].
  eapply rtc_l; [|apply rtc_refl].
  apply ps_wire. refine (ps_frame _ [x61; x62] [] example_fresh [] 0 [x61; x62] 9 1024 (Accepted 2 0) _ _ _);
    [vm_compute; left|vm_compute; reflexivity].
Qed.

Lemma relay_log_is_shell_prefix_witness :
  term_repr (pp_log example_pipe) (pp_terminal example_pipe)
  ∧ pp_log example_pipe `prefix_of` pp_handed example_pipe
  ∧ (let r := og_retained (dr_stream (pp_drive example_pipe)) in
     rt_start r ≤ i_durable_offset (pp_terminal example_pipe)
     ∧ rt_bytes r ++ default [] (dr_waiting (pp_drive example_pipe)) = dropN (rt_start r) (pp_handed example_pipe))
  ∧ RqClose (lit "publisher_desynchronised") ∉ dr_requests (pp_drive example_pipe).
Proof. exact (relay_log_is_shell_prefix example_fresh example_pipe example_fresh_repr example_pipe_steps). Defined.

(** C5: a reconnect completes the log. In any reachable state of an open
    terminal, once the driver learns where the relay is, the frames it sends
    are each accepted when they arrive in order, and then the relay has
    everything the driver took from the shell but the chunk that still waits. *)
Theorem reconnect_completes_the_log (i : TerminalInner) (p : Pipe) (id : Uuid) (limits : Limits)
    (room : bool) (now capacity : N) :
  term_repr [] i → rtc pipe_step (pipe_new i) p →
  i_lifecycle (pp_terminal p) = Open → dr_transport_open (pp_drive p) = true →
  let d' := drive_event room (Some (EvAttached id (i_next_offset (pp_terminal p)) limits)) (pp_drive p) in
  ∃ sent i' log', dr_requests d' = dr_requests (pp_drive p) ++ sent
    ∧ receive_all now capacity sent (pp_terminal p) = Some i'
    ∧ term_repr log' i' ∧ pp_handed p = log' ++ default [] (dr_waiting d').
Proof.
  intros Ht Hsteps Hopen Htr. destruct (pipe_steps_inv [] _ _ Hsteps (pipe_new_inv i Ht)) as (hist & _ & Hinv).
  destruct Hinv as [(Hh & Hd & _) Hl Ht' Hp Hst _]. pose proof Ht' as (_ & Hn & Hdur). rewrite Hn. cbv zeta.
  destruct (drive_attached_requests hist (pp_drive p) (pp_terminal p) (pp_log p) id limits room Hd Htr Ht' Hp)
    as (slices & Hreq & Hcat & Hw); [lia|].
  assert (pp_log p ++ mjoin slices = hist) as Hall.
  { rewrite Hcat. destruct Hp as [k ->]. by rewrite dropN_app_ge, N.sub_diag, dropN_0. }
  destruct (receive_slices now capacity slices (pp_log p) (pp_terminal p) Ht' Hopen) as (i' & Hrec & Hrepr & _).
  { rewrite Hall. rewrite Hh in Hl. len_lia. }
  exists (slice_requests (len (pp_log p)) slices), i', hist. rewrite Hall in Hrepr. split_and!; [done|done|done|].
  by rewrite Hw.
Qed.

(** The relay restarts before it committed anything. *)
Definition example_restarted : Pipe := mkPipe example_drive [x61; x62] [] example_fresh [].
Lemma example_restarted_steps : rtc pipe_step (pipe_new example_fresh) example_restarted.
Proof.
  etrans; [exact example_pipe_steps|]. eapply rtc_l; [|apply rtc_refl].
  assert (i_durable_offset example_terminal = 0) as Hd by (vm_compute; reflexivity).
  pose proof (ps_restart example_drive [x61; x62] [] example_terminal [x61; x62] example_fresh) as H.
  rewrite Hd in H. apply ps_wire, H; [exact example_fresh_repr|vm_compute; reflexivity].
Qed.

Lemma reconnect_completes_the_log_witness :
  let d' := drive_event true (Some (EvAttached 1 (i_next_offset (pp_terminal example_restarted)) example_limits))
              (pp_drive example_restarted) in
  ∃ sent i' log', dr_requests d' = dr_requests (pp_drive example_restarted) ++ sent
    ∧ receive_all 9 1024 sent (pp_terminal example_restarted) = Some i'
    ∧ term_repr log' i' ∧ pp_handed example_restarted = log' ++ default [] (dr_waiting d').
Proof.
  assert (i_lifecycle (pp_terminal example_restarted) = Open) as Hopen by (vm_compute; reflexivity).
  assert (dr_transport_open (pp_drive example_restarted) = true) as Htr by (vm_compute; reflexivity).
  pose proof (reconnect_completes_the_log example_fresh example_restarted 1 example_limits true 9 1024
                example_fresh_repr example_restarted_steps Hopen Htr) as H.
  exact H.
Defined.
