(* ===== verification/Json.v ===== *)
(** * JSON values

    What [serde_json::json!] builds: a [serde_json::Value] as a tree. Printing
    one ([to_string]) and parsing text are library calls; a message the code
    sends is represented by the value it prints. The fields of an object are
    kept in the order they are written, a later insertion of the same key
    replaces the field. *)

From S2P Require Export Prelude.

Open Scope N_scope.

#[warnings="-register-all"]
Inductive json :=
| JNull
| JBool (b : bool)
| JNum (z : Z)
| JStr (t : text)
| JArr (l : list json)
| JObj (fields : list (string * json)).

Fixpoint json_eqb (a b : json) : bool :=
  match a, b with
  | JNull, JNull => true
  | JBool a, JBool b => eqb a b
  | JNum a, JNum b => Z.eqb a b
  | JStr a, JStr b => bool_decide (a = b)
  | JArr a, JArr b =>
      (fix go (a b : list json) : bool :=
         match a, b with [], [] => true | v :: a, w :: b => json_eqb v w && go a b | _, _ => false end) a b
  | JObj a, JObj b =>
      (fix go (a b : list (string * json)) : bool :=
         match a, b with
         | [], [] => true
         | (k, v) :: a, (l, w) :: b => bool_decide (k = l) && json_eqb v w && go a b
         | _, _ => false
         end) a b
  | _, _ => false
  end.
Fixpoint json_eqb_eq (a b : json) : json_eqb a b = true → a = b.
Proof.
  destruct a as [|a|a|a|a|a], b as [|b|b|b|b|b]; cbn; try done.
  - by intros ->%eqb_prop.
  - by intros ->%Z.eqb_eq.
  - by intros ->%bool_decide_eq_true.
  - intros E. f_equal. revert b E. induction a as [|v a IH]; intros [|w b]; try done.
    by intros [->%json_eqb_eq ->%IH]%andb_true_iff.
  - intros E. f_equal. revert b E. induction a as [|[k v] a IH]; intros [|[l w] b]; try done.
    by intros [[->%bool_decide_eq_true ->%json_eqb_eq]%andb_true_iff ->%IH]%andb_true_iff.
Qed.

Definition jstr (s : string) : json := JStr (lit s).
Definition jnat (n : N) : json := JNum (Z.of_N n).

Fixpoint field_get (k : string) (fields : list (string * json)) : option json :=
  match fields with
  | [] => None
  | (k', v) :: rest => if bool_decide (k = k') then Some v else field_get k rest
  end.
(** [Value::get] *)
Definition jget (k : string) (j : json) : option json :=
  match j with JObj fields => field_get k fields | _ => None end.
Definition jas_str (j : json) : option text := match j with JStr t => Some t | _ => None end.
Definition jas_i64 (j : json) : option Z := match j with JNum z => Some z | _ => None end.
Definition jas_bool (j : json) : option bool := match j with JBool b => Some b | _ => None end.

(** [serde_json::to_string] and [from_str] on a [Value]. *)
Class JsonText := {
  json_to_string : json → text;
  json_from_str : text → option json;
}.

(** [Map::insert] *)
Fixpoint field_insert (k : string) (v : json) (fields : list (string * json)) : list (string * json) :=
  match fields with
  | [] => [(k, v)]
  | (k', v') :: rest => if bool_decide (k = k') then (k, v) :: rest else (k', v') :: field_insert k v rest
  end.

Lemma field_get_insert k k' v fields :
  field_get k (field_insert k' v fields) = if bool_decide (k = k') then Some v else field_get k fields.
Proof.
  induction fields as [|[k1 v1] fields IH]; [done|].
  cbn [field_insert]. repeat case_bool_decide; subst; cbn [field_get]; repeat case_bool_decide; congruence.
Qed.

(** The message type a text frame announces. *)
Definition jtype (j : json) : option text := jget "type" j ≫= jas_str.
