(* ===== verification/Utf8.v ===== *)
(** * UTF-8

    [str::as_bytes], [String::from_utf8_lossy] and [String::from_utf8] over
    texts as lists of code points. The lossy decoder replaces each maximal
    invalid prefix by U+FFFD, as the standard library does. *)

From S2P Require Export Prelude.

Open Scope N_scope.

(** A Unicode scalar value, which is what a [char] holds. *)
Definition scalar (c : N) : Prop := c < 55296 ∨ 57344 ≤ c < 1114112.
Abbreviation valid_text := (Forall scalar).

Definition utf8_char (c : N) : list byte :=
  if c <? 128 then [byte_of_N c]
  else if c <? 2048 then [byte_of_N (192 + c / 64); byte_of_N (128 + c mod 64)]
  else if c <? 65536 then
    [byte_of_N (224 + c / 4096); byte_of_N (128 + c / 64 mod 64); byte_of_N (128 + c mod 64)]
  else
    [byte_of_N (240 + c / 262144); byte_of_N (128 + c / 4096 mod 64);
     byte_of_N (128 + c / 64 mod 64); byte_of_N (128 + c mod 64)].
(** [str::as_bytes] *)
Definition utf8 (t : text) : list byte := mjoin (utf8_char <$> t).

Definition REPLACEMENT : N := 65533.
Definition within (lo n hi : N) : bool := (lo <=? n) && (n <=? hi).
Definition is_cont (b : byte) : bool := within 128 (Byte.to_N b) 191.
(** The second byte of a sequence of three, of four. *)
Definition second3 (n1 n2 : N) : bool :=
  (n1 =? 224) && within 160 n2 191 || within 225 n1 236 && within 128 n2 191
  || (n1 =? 237) && within 128 n2 159 || within 238 n1 239 && within 128 n2 191.
Definition second4 (n1 n2 : N) : bool :=
  (n1 =? 240) && within 144 n2 191 || within 241 n1 243 && within 128 n2 191
  || (n1 =? 244) && within 128 n2 143.

(** [String::from_utf8_lossy] *)
Fixpoint utf8_lossy (l : list byte) : text :=
  match l with
  | [] => []
  | b1 :: r1 =>
      let n1 := Byte.to_N b1 in
      if n1 <? 128 then n1 :: utf8_lossy r1
      else if within 194 n1 223 then
        match r1 with
        | b2 :: r2 =>
            if is_cont b2 then ((n1 - 192) * 64 + (Byte.to_N b2 - 128)) :: utf8_lossy r2
            else REPLACEMENT :: utf8_lossy r1
        | [] => [REPLACEMENT]
        end
      else if within 224 n1 239 then
        match r1 with
        | b2 :: r2 =>
            if second3 n1 (Byte.to_N b2) then
              match r2 with
              | b3 :: r3 =>
                  if is_cont b3 then
                    ((n1 - 224) * 4096 + (Byte.to_N b2 - 128) * 64 + (Byte.to_N b3 - 128)) :: utf8_lossy r3
                  else REPLACEMENT :: utf8_lossy r2
              | [] => [REPLACEMENT]
              end
            else REPLACEMENT :: utf8_lossy r1
        | [] => [REPLACEMENT]
        end
      else if within 240 n1 244 then
        match r1 with
        | b2 :: r2 =>
            if second4 n1 (Byte.to_N b2) then
              match r2 with
              | b3 :: r3 =>
                  if is_cont b3 then
                    match r3 with
                    | b4 :: r4 =>
                        if is_cont b4 then
                          ((n1 - 240) * 262144 + (Byte.to_N b2 - 128) * 4096 + (Byte.to_N b3 - 128) * 64
                           + (Byte.to_N b4 - 128)) :: utf8_lossy r4
                        else REPLACEMENT :: utf8_lossy r3
                    | [] => [REPLACEMENT]
                    end
                  else REPLACEMENT :: utf8_lossy r2
              | [] => [REPLACEMENT]
              end
            else REPLACEMENT :: utf8_lossy r1
        | [] => [REPLACEMENT]
        end
      else REPLACEMENT :: utf8_lossy r1
  end.
(** [String::from_utf8]: bytes are valid when decoding and encoding them gives
    them back. *)
Definition from_utf8 (l : list byte) : option text :=
  if bool_decide (utf8 (utf8_lossy l) = l) then Some (utf8_lossy l) else None.

Lemma to_of_byte_small n : n < 256 → Byte.to_N (byte_of_N n) = n.
Proof. intros Hn. rewrite to_of_byte. by apply N.mod_small. Qed.
Lemma mod64_lt n : n mod 64 < 64.
Proof. by apply N.mod_lt. Qed.
(** The base-64 digits of a code point. *)
Lemma digits2 c : c = c / 64 * 64 + c mod 64.
Proof. rewrite N.mul_comm. apply N.div_mod'. Qed.
Lemma digits3 c : c = c / 4096 * 4096 + c / 64 mod 64 * 64 + c mod 64.
Proof. pose proof (digits2 c). pose proof (digits2 (c / 64)). rewrite N.Div0.div_div in *. change (64 * 64) with 4096 in *. lia. Qed.
Lemma digits4 c : c = c / 262144 * 262144 + c / 4096 mod 64 * 4096 + c / 64 mod 64 * 64 + c mod 64.
Proof.
  pose proof (digits3 c). pose proof (digits2 (c / 4096)). rewrite N.Div0.div_div in *.
  change (4096 * 64) with 262144 in *. lia.
Qed.

Lemma within_true lo n hi : lo ≤ n ≤ hi → within lo n hi = true.
Proof. intros [H1 H2]. unfold within. apply andb_true_iff. by rewrite !N.leb_le. Qed.
Lemma within_above lo n hi : hi < n → within lo n hi = false.
Proof. intros H. unfold within. by rewrite (proj2 (N.leb_gt n hi) H), andb_false_r. Qed.
Lemma cont_of n : n < 64 → is_cont (byte_of_N (128 + n)) = true.
Proof. intros H. unfold is_cont. rewrite to_of_byte_small by lia. apply within_true. lia. Qed.
Lemma second3_ok a b :
  a < 16 → b < 64 → (a = 0 → 32 ≤ b) → (a = 13 → b < 32) → second3 (224 + a) (128 + b) = true.
Proof.
  intros Ha Hb H0 H13. unfold second3.
  destruct (decide (a = 0)) as [->|]; [rewrite (within_true 160) by lia; done|].
  destruct (decide (a = 13)) as [->|]; [rewrite (within_true 128 _ 159) by lia; by rewrite !orb_true_r|].
  rewrite (within_true 128 _ 191) by lia. destruct (decide (a < 13)).
  - rewrite (within_true 225) by lia. by rewrite !orb_true_r.
  - rewrite (within_true 238) by lia. by rewrite !orb_true_r.
Qed.
Lemma second4_ok a b :
  a < 5 → b < 64 → (a = 0 → 16 ≤ b) → (a = 4 → b < 16) → second4 (240 + a) (128 + b) = true.
Proof.
  intros Ha Hb H0 H4. unfold second4.
  destruct (decide (a = 0)) as [->|]; [rewrite (within_true 144) by lia; done|].
  destruct (decide (a = 4)) as [->|]; [rewrite (within_true 128 _ 143) by lia; by rewrite !orb_true_r|].
  rewrite (within_true 128 _ 191), (within_true 241) by lia. by rewrite !orb_true_r.
Qed.

Lemma utf8_lossy_char c rest : scalar c → utf8_lossy (utf8_char c ++ rest) = c :: utf8_lossy rest.
Proof.
  unfold scalar. intros Hc. unfold utf8_char.
  pose proof (mod64_lt c) as Hm. pose proof (mod64_lt (c / 64)) as Hm2. pose proof (mod64_lt (c / 4096)) as Hm3.
  destruct (N.ltb_spec c 128) as [H1|H1]; [|destruct (N.ltb_spec c 2048) as [H2|H2];
    [|destruct (N.ltb_spec c 65536) as [H3|H3]]].
  - cbn [app utf8_lossy]. rewrite to_of_byte_small by lia. by rewrite (proj2 (N.ltb_lt _ _) H1).
  - pose proof (digits2 c) as Hd. set (a := c / 64) in *. set (b := c mod 64) in *. clearbody a b.
    cbn [app utf8_lossy]. rewrite !to_of_byte_small by lia. rewrite (proj2 (N.ltb_ge (192 + a) 128)) by lia.
    rewrite within_true, cont_of by lia. f_equal. lia.
  - pose proof (digits3 c) as Hd. set (a := c / 4096) in *. set (b := c / 64 mod 64) in *. set (d := c mod 64) in *.
    clearbody a b d. cbn [app utf8_lossy]. rewrite !to_of_byte_small by lia.
    rewrite (proj2 (N.ltb_ge (224 + a) 128)), (within_above 194), (within_true 224) by lia.
    rewrite second3_ok, cont_of by lia. f_equal. lia.
  - pose proof (digits4 c) as Hd. set (a := c / 262144) in *. set (b := c / 4096 mod 64) in *.
    set (d := c / 64 mod 64) in *. set (e := c mod 64) in *.
    clearbody a b d e. cbn [app utf8_lossy]. rewrite !to_of_byte_small by lia.
    rewrite (proj2 (N.ltb_ge (240 + a) 128)), (within_above 194), (within_above 224), (within_true 240) by lia.
    rewrite second4_ok, !cont_of by lia. f_equal. lia.
Qed.

Lemma utf8_cons c t : utf8 (c :: t) = utf8_char c ++ utf8 t.
Proof. done. Qed.
Lemma utf8_lossy_utf8 t : valid_text t → utf8_lossy (utf8 t) = t.
Proof.
  induction 1 as [|c t Hc Ht IH]; [done|]. by rewrite utf8_cons, utf8_lossy_char, IH.
Qed.
Lemma utf8_inj t t' : valid_text t → valid_text t' → utf8 t = utf8 t' → t = t'.
Proof. intros Ht Ht' E. rewrite <- (utf8_lossy_utf8 t), <- (utf8_lossy_utf8 t') by done. by rewrite E. Qed.
Lemma from_utf8_utf8 t : valid_text t → from_utf8 (utf8 t) = Some t.
Proof. intros Ht. unfold from_utf8. by rewrite utf8_lossy_utf8, bool_decide_eq_true_2. Qed.

(** Literals are ASCII. *)
Lemma scalar_ascii a : scalar (Ascii.N_of_ascii a).
Proof. left. pose proof (Ascii.N_ascii_bounded a). lia. Qed.
Lemma valid_lit s : valid_text (lit s).
Proof. apply Forall_fmap, Forall_forall. intros a _. apply scalar_ascii. Qed.
#[export] Hint Resolve valid_lit : core.
