(* ===== verification/Crypto.v ===== *)
(** * Keys, signing inputs and tokens
      ([server/src/util.rs], [server/src/crypto.rs], [publisher/src/crypto.rs],
      the signing half of [publisher/src/api.rs])

    Hashing, signatures, encryption and base64 are library code: the interface
    [CryptoLib]. Length-prefixed encoding, identifiers, key parsing, signing
    inputs, sealed secrets and access tokens are the source's own. Strings are
    bytes through [utf8]. A length is a [u32]: [be_bytes 4] keeps its low bits. *)

From S2P Require Export Utf8 Errors Json.

Open Scope N_scope.
Open Scope hype_scope.

(** ** Shared helpers ([util.rs]) *)

(** [LengthPrefixed] *)
Definition lp_field (bytes buf : list byte) : list byte := buf ++ be_bytes 4 (len bytes) ++ bytes.
Definition lp_field_str (s : text) : list byte → list byte := lp_field (utf8 s).
Definition lp_field_u64 (v : N) : list byte → list byte := lp_field (be_bytes 8 v).

(** [parse_length_prefixed]: the fields read so far, and what is left. Every
    field takes four bytes at least, so the fuel is the length. *)
Definition MAX_FIELDS : N := 64.
Fixpoint parse_fields (fuel : nat) (fields : list (list byte)) (bytes : list byte) : option (list (list byte)) :=
  match fuel with
  | O => Some fields
  | S fuel =>
      if is_empty bytes then Some fields
      else if len bytes <? 4 then None
      else
        let length := be_combine (takeN 4 bytes) in
        let bytes := dropN 4 bytes in
        if len bytes <? length then None
        else
          let fields := fields ++ [takeN length bytes] in
          if MAX_FIELDS <? len fields then None
          else parse_fields fuel fields (dropN length bytes)
  end.
Definition parse_length_prefixed (bytes : list byte) : option (list (list byte)) :=
  parse_fields (S (length bytes)) [] bytes.

(** [ct_eq]: the differences of all pairs are accumulated. *)
Definition byte_xor (a b : byte) : N := N.lxor (Byte.to_N a) (Byte.to_N b).
Definition ct_eq (a b : list byte) : bool :=
  if negb (len a =? len b) then false
  else foldl (λ diff '(x, y), N.lor diff (byte_xor x y)) 0 (zip a b) =? 0.

(** [hex] *)
Definition hex_of (n : N) : N := if n <? 10 then 48 + n else 87 + n.
Definition hex (bytes : list byte) : text :=
  mjoin ((λ b, [hex_of (Byte.to_N b / 16); hex_of (Byte.to_N b mod 16)]) <$> bytes).

(** [new_ulid], from the clock in milliseconds and the ten random bytes. *)
Definition CROCKFORD : text := lit "0123456789ABCDEFGHJKMNPQRSTVWXYZ".
Fixpoint ulid_digits (k : nat) (value : N) : text :=
  match k with
  | O => []
  | S k => ulid_digits k (N.shiftr value 5) ++ [nth (N.to_nat (N.land value 31)) CROCKFORD 0]
  end.
Definition ulid_value (millis : N) (random : list byte) : N :=
  N.lor (N.shiftl millis 80 mod two128) (be_combine random).
Definition new_ulid (millis : N) (random : list byte) : text := ulid_digits 26 (ulid_value millis random).

(** [u8::to_ascii_lowercase] and [eq_ignore_ascii_case] *)
Definition ascii_lower (c : N) : N := if (65 <=? c) && (c <=? 90) then c + 32 else c.
Definition to_ascii_lowercase (t : text) : text := ascii_lower <$> t.
Definition eq_ignore_ascii_case (a b : text) : bool :=
  bool_decide (to_ascii_lowercase a = to_ascii_lowercase b).
(** [str::split] at a character. *)
Fixpoint split_at (sep : N) (t : text) : list text :=
  match t with
  | [] => [[]]
  | c :: t =>
      let rest := split_at sep t in
      if c =? sep then [] :: rest
      else match rest with w :: ws => (c :: w) :: ws | [] => [[c]] end
  end.

(** ** Roles, operations, principals *)

Inductive DeviceRole := RPublisher | RClient | RBoth.
#[export] Instance DeviceRole_eq_dec : EqDecision DeviceRole.
Proof. solve_decision. Defined.
Definition role_as_str (r : DeviceRole) : string :=
  match r with RPublisher => "publisher" | RClient => "client" | RBoth => "both" end.
Definition role_parse (s : text) : option DeviceRole :=
  if bool_decide (s = lit "publisher") then Some RPublisher
  else if bool_decide (s = lit "client") then Some RClient
  else if bool_decide (s = lit "both") then Some RBoth
  else None.
Definition may_publish (r : DeviceRole) : bool := match r with RPublisher | RBoth => true | RClient => false end.
Definition may_mirror (r : DeviceRole) : bool := match r with RClient | RBoth => true | RPublisher => false end.

Inductive Operation := RegisterIdentity | AuthenticateIdentity | RegisterDevice | AuthenticateDevice.
#[export] Instance Operation_eq_dec : EqDecision Operation.
Proof. solve_decision. Defined.
Definition op_as_str (o : Operation) : string :=
  match o with
  | RegisterIdentity => "register_identity"
  | AuthenticateIdentity => "authenticate_identity"
  | RegisterDevice => "register_device"
  | AuthenticateDevice => "authenticate_device"
  end.
Definition op_parse (s : text) : option Operation :=
  if bool_decide (s = lit "register_identity") then Some RegisterIdentity
  else if bool_decide (s = lit "authenticate_identity") then Some AuthenticateIdentity
  else if bool_decide (s = lit "register_device") then Some RegisterDevice
  else if bool_decide (s = lit "authenticate_device") then Some AuthenticateDevice
  else None.

Inductive PrincipalKind := KIdentity | KDevice.
#[export] Instance PrincipalKind_eq_dec : EqDecision PrincipalKind.
Proof. solve_decision. Defined.
Definition kind_as_str (k : PrincipalKind) : string := match k with KIdentity => "identity" | KDevice => "device" end.

(** [scope] *)
Definition DEVICES_READ : string := "devices:read".
Definition DEVICES_WRITE : string := "devices:write".
Definition TERMINALS_READ : string := "terminals:read".
Definition TERMINALS_MIRROR : string := "terminals:mirror".
Definition TERMINALS_INPUT : string := "terminals:input".
Definition TERMINALS_CREATE : string := "terminals:create".
Definition TERMINALS_WRITE : string := "terminals:write".
Definition TERMINALS_PUBLISH : string := "terminals:publish".
Definition IDENTITY_ALLOWED : list string :=
  [DEVICES_READ; DEVICES_WRITE; TERMINALS_READ; TERMINALS_MIRROR; TERMINALS_INPUT; TERMINALS_CREATE].
Definition PUBLISHER_ALLOWED : list string := [TERMINALS_WRITE; TERMINALS_PUBLISH].
Definition CLIENT_ALLOWED : list string :=
  [DEVICES_READ; TERMINALS_READ; TERMINALS_MIRROR; TERMINALS_INPUT; TERMINALS_CREATE].

Definition IDENTITY_FINGERPRINT_CONTEXT : string := "terminal-relay-identity-v1".
Definition CHALLENGE_SIGNATURE_CONTEXT : string := "terminal-relay-challenge-v1".
Definition ALGORITHM_ED25519 : string := "ed25519".

(** ** Library code *)

Class CryptoLib := {
  sha256 : list byte → list byte;
  (** The URL-safe alphabet, without and with padding. *)
  b64_encode : list byte → text;
  b64_decode_bare : text → option (list byte);
  b64_decode_padded : text → option (list byte);
  (** [VerifyingKey::from_bytes] succeeds; [verify_strict]; a seed's public
      key and signature. *)
  ed25519_valid : list byte → bool;
  ed25519_verify : list byte → list byte → list byte → bool;
  ed25519_public : list byte → list byte;
  ed25519_sign : list byte → list byte → list byte;
  hmac_sha256 : list byte → list byte → list byte;
  (** [ChaCha20Poly1305]: key, nonce, text. *)
  aead_encrypt : list byte → list byte → list byte → list byte;
  aead_decrypt : list byte → list byte → list byte → option (list byte);
}.

Section crypto.
Context `{CryptoLib}.

Definition b64_decode (s : text) : option (list byte) :=
  match b64_decode_bare s with Some v => Some v | None => b64_decode_padded s end.
Definition sha256_hex (bytes : list byte) : text := hex (sha256 bytes).

(** ** Keys *)

Record PublicKey := mkPublicKey {
  pk_algorithm : text;
  pk_bytes : list byte;
}.

Definition unsupported_algorithm (algorithm : text) : ApiError :=
  api_new 422 "unsupported_algorithm" (lit "unsupported key algorithm: " ++ algorithm).

(** [PublicKey::parse] *)
Definition key_parse (algorithm encoded : text) (supported : list text) : ApiResult PublicKey :=
  let algorithm := to_ascii_lowercase (trim algorithm) in
  if negb (existsb (λ a, eq_ignore_ascii_case a algorithm) supported) then Err (unsupported_algorithm algorithm)
  else
    match b64_decode encoded with
    | None => Err (api_invalid (lit "public_key must be base64url-encoded"))
    | Some bytes =>
        if bool_decide (algorithm = lit ALGORITHM_ED25519) then
          if negb (len bytes =? 32) then
            Err (api_validation (lit "ed25519 public keys must be 32 bytes, got " ++ num (len bytes)))
          else if negb (ed25519_valid bytes) then Err (api_validation (lit "not a valid ed25519 public key"))
          else Ok (mkPublicKey algorithm bytes)
        else Err (unsupported_algorithm algorithm)
    end.

Definition fingerprint_input (algorithm : text) (key : list byte) : list byte :=
  lp_field key (lp_field_str algorithm (lp_field_str (lit IDENTITY_FINGERPRINT_CONTEXT) [])).
Definition key_fingerprint (k : PublicKey) : text :=
  b64_encode (sha256 (fingerprint_input (pk_algorithm k) (pk_bytes k))).

(** [PublicKey::verify] *)
Definition key_verify (k : PublicKey) (message signature : list byte) : bool :=
  if bool_decide (pk_algorithm k = lit ALGORITHM_ED25519) then
    (len (pk_bytes k) =? 32) && ed25519_valid (pk_bytes k) && (len signature =? 64)
    && ed25519_verify (pk_bytes k) message signature
  else false.

Record SigningInput := mkSigningInput {
  si_origin : text;
  si_challenge_id : text;
  si_challenge : list byte;
  si_operation : Operation;
  si_key_fingerprint : text;
  si_owner_identity_id : text;
  si_device_key_fingerprint : text;
  si_expires_at_unix_ms : N;
}.
Definition signing_encode (i : SigningInput) : list byte :=
  lp_field_u64 (si_expires_at_unix_ms i)
    (lp_field_str (si_device_key_fingerprint i)
      (lp_field_str (si_owner_identity_id i)
        (lp_field_str (si_key_fingerprint i)
          (lp_field_str (lit (op_as_str (si_operation i)))
            (lp_field (si_challenge i)
              (lp_field_str (si_challenge_id i)
                (lp_field_str (si_origin i)
                  (lp_field_str (lit CHALLENGE_SIGNATURE_CONTEXT) [])))))))).

(** ** Sealed secrets; the box's key and the nonce drawn are arguments. *)

Definition box_open (key nonce ciphertext : list byte) : option (list byte) :=
  if negb (len nonce =? 12) then None else aead_decrypt key nonce ciphertext.
Definition seal_to_string (key nonce : list byte) (plaintext : text) : text :=
  lit "enc:v1:" ++ b64_encode (nonce ++ aead_encrypt key nonce (utf8 plaintext)).
Definition strip_lit (prefix : string) (t : text) : option text :=
  let p := lit prefix in
  if bool_decide (take (length p) t = p) then Some (drop (length p) t) else None.
Definition open_from_string (key : list byte) (s : text) : option text :=
  rest ← strip_lit "enc:v1:" s;
  joined ← b64_decode rest;
  if len (joined : list byte) <? 12 then None
  else plain ← box_open key (takeN 12 joined) (dropN 12 joined); from_utf8 plain.

(** ** Access tokens *)

Definition TOKEN_PREFIX : string := "v1".

Record TokenClaims := mkTokenClaims {
  tc_jti : text;
  tc_sub : text;
  tc_principal : PrincipalKind;
  tc_identity_id : text;
  tc_iss : text;
  tc_aud : text;
  tc_iat : Z;
  tc_exp : Z;
  tc_scopes : list text;
  tc_kid : text;
}.
Definition has_scope (scopes : list text) (scope : string) : bool := existsb (λ s, bool_decide (s = lit scope)) scopes.

Record SigningKey := mkSigningKey {
  sk_kid : text;
  sk_secret : list byte;
}.

(** [serde_json::to_vec] and [from_slice] on claims. *)
Context (claims_to_vec : TokenClaims → list byte) (claims_from_slice : list byte → option TokenClaims).

Definition mint_token (key : SigningKey) (claims : TokenClaims) : text :=
  let signing_input := lit TOKEN_PREFIX ++ lit "." ++ b64_encode (claims_to_vec claims) in
  signing_input ++ lit "." ++ b64_encode (hmac_sha256 (sk_secret key) (utf8 signing_input)).

Definition verify_token (token : text) (keys : list SigningKey) (expected_issuer expected_audience : text)
    (now_unix max_skew_seconds : Z) : ApiResult TokenClaims :=
  match split_at 46 token with
  | [version; payload_b64; tag_b64] =>
      if negb (bool_decide (version = lit TOKEN_PREFIX)) then
        Err (api_unauthorized (lit "unsupported access token version"))
      else
        match b64_decode payload_b64, b64_decode tag_b64 with
        | Some payload, Some tag =>
            match claims_from_slice payload with
            | None => Err (api_unauthorized (lit "malformed access token"))
            | Some claims =>
                let signing_input := version ++ lit "." ++ payload_b64 in
                match find (λ k, bool_decide (sk_kid k = tc_kid claims)) keys with
                | None => Err (api_unauthorized (lit "access token signed by an unknown key"))
                | Some key =>
                    if negb (ct_eq (hmac_sha256 (sk_secret key) (utf8 signing_input)) tag) then
                      Err (api_unauthorized (lit "access token signature is invalid"))
                    else if negb (bool_decide (tc_iss claims = expected_issuer)
                                  && bool_decide (tc_aud claims = expected_audience)) then
                      Err (api_unauthorized (lit "access token issuer or audience mismatch"))
                    else if Z.ltb (tc_exp claims + max_skew_seconds) now_unix then
                      Err (api_unauthorized (lit "access token has expired"))
                    else if Z.ltb (now_unix + max_skew_seconds) (tc_iat claims) then
                      Err (api_unauthorized (lit "access token is not yet valid"))
                    else Ok claims
                end
            end
        | _, _ => Err (api_unauthorized (lit "malformed access token"))
        end
  | _ => Err (api_unauthorized (lit "malformed access token"))
  end.

(** [new_ticket], from its random bytes: the ticket and what is stored. *)
Definition hash_ticket (raw : text) : text := b64_encode (sha256 (utf8 raw)).
Definition new_ticket (random : list byte) : text * text :=
  let raw := b64_encode random in (raw, hash_ticket raw).
Definition hash_operator_token (raw : text) : text := b64_encode (sha256 (utf8 raw)).

(** ** The publisher's half; a key pair is its seed. *)

Definition pub_fingerprint (public_key : list byte) : text :=
  b64_encode (sha256 (fingerprint_input (lit ALGORITHM_ED25519) public_key)).
Definition pair_fingerprint (seed : list byte) : text := pub_fingerprint (ed25519_public seed).
Definition pair_sign (seed message : list byte) : text := b64_encode (ed25519_sign seed message).

(** [api::ApiError]; its texts quote fields with [{:?}], [debug]. *)
Inductive ClientError :=
| CeTransport (detail : text)
| CeRelay (status : N) (code message : text)
| CeMalformed (detail : text).

Definition verify_binding (debug : text → text) (signing_input : list byte) (seed : list byte)
    (expected_operation : text) (expected_owner_identity : option text) : result ClientError () :=
  match parse_length_prefixed signing_input with
  | None => Err (CeMalformed (lit "signing_input is not length-prefixed"))
  | Some fields =>
      if negb (len fields =? 9) then
        Err (CeMalformed (lit "signing_input has " ++ num (len fields) ++ lit " fields, expected 9"))
      else
        let field (index : nat) := utf8_lossy (nth index fields []) in
        if negb (bool_decide (field 0%nat = lit CHALLENGE_SIGNATURE_CONTEXT)) then
          Err (CeMalformed (lit "signing_input is for " ++ debug (field 0%nat) ++ lit ", not this protocol"))
        else if negb (bool_decide (field 4%nat = expected_operation)) then
          Err (CeMalformed (lit "the relay offered a " ++ debug (field 4%nat) ++ lit " challenge when "
                            ++ debug expected_operation ++ lit " was asked for"))
        else if negb (bool_decide (field 5%nat = pair_fingerprint seed)) then
          Err (CeMalformed (lit "the challenge is bound to a different key than the one signing it"))
        else
          match expected_owner_identity with
          | Some expected =>
              if bool_decide (field 6%nat = expected) then Ok ()
              else Err (CeMalformed (lit "the challenge is bound to a different owning identity"))
          | None => Ok ()
          end
  end.

Definition sign_challenge (debug : text → text) (signing_input : text) (seed : list byte)
    (expected_operation : text) (expected_owner_identity : option text) : result ClientError text :=
  match b64_decode signing_input with
  | None => Err (CeMalformed (lit "signing_input is not base64url"))
  | Some bytes =>
      let? _ := verify_binding debug bytes seed expected_operation expected_owner_identity in
      Ok (pair_sign seed bytes)
  end.
End crypto.
