(* ===== verification/CryptoProps.v ===== *)
(** * Properties of keys, signing inputs and tokens

    The length-prefixed encoding is exact, so a signing input determines what
    it binds; the publisher signs what the server verifies and nothing that
    says something else; a token is accepted exactly when a known key made it
    and its window and audience fit. *)

From S2P Require Export Crypto.

Open Scope N_scope.
Open Scope hype_scope.

(** ** Length-prefixed fields *)

Definition encode_field (bytes : list byte) : list byte := be_bytes 4 (len bytes) ++ bytes.
Definition encode_fields (fields : list (list byte)) : list byte := mjoin (encode_field <$> fields).
Definition field_fits (bytes : list byte) : Prop := len bytes < two32.

Lemma encode_fields_cons f fs : encode_fields (f :: fs) = encode_field f ++ encode_fields fs.
Proof. done. Qed.
Lemma len_encode_field f : len (encode_field f) = 4 + len f.
Proof. unfold encode_field. len_lia. Qed.

Lemma parse_fields_encode fs acc fuel :
  Forall field_fits fs → len acc + len fs ≤ MAX_FIELDS → (length (encode_fields fs) < fuel)%nat →
  parse_fields fuel acc (encode_fields fs) = Some (acc ++ fs).
Proof.
  intros Hf. revert acc fuel. induction Hf as [|f fs Hff Hf IH]; intros acc [|fuel] Hl Hn; try lia.
  { cbn. by rewrite app_nil_r. }
  rewrite encode_fields_cons in *. cbn [parse_fields].
  pose proof (len_encode_field f) as Hlf. rewrite length_app in Hn.
  destruct (encode_field f ++ encode_fields fs) as [|b bs] eqn:E.
  { apply (f_equal len) in E. rewrite len_app in E. change (len []) with 0 in E. lia. }
  cbn [is_empty]. rewrite <- E. clear E b bs.
  case_N; [len_lia|]. unfold encode_field. rewrite <- app_assoc.
  rewrite takeN_app_le, takeN_ge, dropN_app_ge by len_lia. rewrite len_be_bytes.
  change (dropN (4 - N.of_nat 4)) with (@dropN byte 0). rewrite dropN_0.
  rewrite be_combine_bytes by done. case_N; [len_lia|].
  rewrite takeN_app_le, takeN_ge by lia. case_N; [len_lia|].
  rewrite dropN_app_ge, N.sub_diag, dropN_0 by lia. rewrite IH; [by rewrite <- app_assoc|len_lia|].
  unfold len in Hlf. lia.
Qed.

Lemma parse_fields_inv fuel acc bytes r :
  parse_fields fuel acc bytes = Some r → (length bytes < fuel)%nat → len acc ≤ MAX_FIELDS →
  ∃ fs, r = acc ++ fs ∧ bytes = encode_fields fs ∧ Forall field_fits fs ∧ len r ≤ MAX_FIELDS.
Proof.
  revert acc bytes. induction fuel as [|fuel IH]; intros acc bytes; [lia|]. cbn [parse_fields].
  destruct (is_empty bytes) eqn:E0.
  { intros [= <-] _ Ha. exists []. destruct bytes; [|done]. by rewrite app_nil_r. }
  case_N; [done|]. cbn zeta. case_N; [done|]. case_N; [done|]. intros Hp Hl Ha.
  apply IH in Hp as (fs & -> & Hd & Hf & Hr); [|unfold dropN; rewrite !length_drop; unfold len in *; lia|done].
  set (n := be_combine (takeN 4 bytes)) in *. set (f := takeN n (dropN 4 bytes)) in *.
  assert (len f = n) as Hlf by (subst f; len_lia).
  exists (f :: fs). split_and!; [by rewrite <- app_assoc| |constructor; [|done]|done].
  - rewrite encode_fields_cons, <- Hd. unfold encode_field. rewrite Hlf. subst n.
    rewrite be_bytes_combine by (apply Nat2N.inj; fold (len (takeN 4 bytes)); len_lia).
    subst f. rewrite <- app_assoc, takeN_dropN. by rewrite takeN_dropN.
  - unfold field_fits. rewrite Hlf. subst n. pose proof (be_combine_lt (takeN 4 bytes)) as Hb.
    replace (len (takeN 4 bytes)) with 4 in Hb by len_lia. exact Hb.
Qed.

Lemma length_prefixed_parse bytes fields :
  parse_length_prefixed bytes = Some fields ↔
    bytes = encode_fields fields ∧ Forall field_fits fields ∧ len fields ≤ MAX_FIELDS.
Proof.
  unfold parse_length_prefixed. split.
  - intros Hp. apply parse_fields_inv in Hp as (fs & -> & -> & Hf & Hr); [by rewrite app_nil_l in *|lia|done].
  - intros (-> & Hf & Hl). rewrite parse_fields_encode; [done|done|done|lia].
Qed.

(** Length-prefixed text is read exactly. The publisher's parser succeeds on
    bytes exactly when they are the encoding of some fields, sixty-four at most,
    each shorter than four gigabytes, and it returns those fields: no two lists
    of fields have one encoding, and a cut or padded encoding is refused. *)
Theorem length_prefixed_exact (bytes : list byte) (fields : list (list byte)) :
  parse_length_prefixed bytes = Some fields ↔
    bytes = encode_fields fields ∧ Forall field_fits fields ∧ len fields ≤ MAX_FIELDS.
Proof. apply length_prefixed_parse. Qed.

Lemma encode_fields_inj fs fs' :
  Forall field_fits fs → Forall field_fits fs' → len fs ≤ MAX_FIELDS → len fs' ≤ MAX_FIELDS →
  encode_fields fs = encode_fields fs' → fs = fs'.
Proof.
  intros Hf Hf' Hl Hl' E.
  assert (parse_length_prefixed (encode_fields fs) = Some fs) as H1 by by apply length_prefixed_parse.
  assert (parse_length_prefixed (encode_fields fs') = Some fs') as H2 by by apply length_prefixed_parse.
  rewrite E in H1. congruence.
Qed.

(** ** What a signature binds *)

Definition signing_fields (i : SigningInput) : list (list byte) :=
  [utf8 (lit CHALLENGE_SIGNATURE_CONTEXT); utf8 (si_origin i); utf8 (si_challenge_id i); si_challenge i;
   utf8 (lit (op_as_str (si_operation i))); utf8 (si_key_fingerprint i); utf8 (si_owner_identity_id i);
   utf8 (si_device_key_fingerprint i); be_bytes 8 (si_expires_at_unix_ms i)].
Lemma signing_encode_fields i : signing_encode i = encode_fields (signing_fields i).
Proof.
  unfold signing_encode, lp_field_u64, lp_field_str, lp_field, signing_fields, encode_fields, encode_field.
  cbn [fmap list_fmap mjoin list_join]. by rewrite !app_nil_r, !app_nil_l, <- !app_assoc.
Qed.

(** A signing input whose strings are texts and whose fields fit. *)
Record signing_ok (i : SigningInput) : Prop := mkSigningOk {
  so_texts : valid_text (si_origin i) ∧ valid_text (si_challenge_id i) ∧ valid_text (si_key_fingerprint i)
             ∧ valid_text (si_owner_identity_id i) ∧ valid_text (si_device_key_fingerprint i);
  so_fit : Forall field_fits (signing_fields i);
  so_expiry : si_expires_at_unix_ms i < two64;
}.

Lemma op_as_str_inj o o' : op_as_str o = op_as_str o' → o = o'.
Proof. by destruct o, o'. Qed.
Lemma lit_inj s s' : lit s = lit s' → s = s'.
Proof.
  assert (∀ s, fmap Ascii.ascii_of_N (lit s) = String.list_ascii_of_string s) as Hl.
  { intros u. unfold lit. induction (String.list_ascii_of_string u) as [|a l IH]; [done|].
    cbn. by rewrite Ascii.ascii_N_embedding, IH. }
  intros E. apply (f_equal (fmap Ascii.ascii_of_N)) in E. rewrite !Hl in E.
  rewrite <- (String.string_of_list_ascii_of_string s), <- (String.string_of_list_ascii_of_string s'). by rewrite E.
Qed.

Lemma signing_encode_inj i i' : signing_ok i → signing_ok i' → signing_encode i = signing_encode i' → i = i'.
Proof.
  intros [(Ho & Hc & Hk & Hw & Hd) Hf He] [(Ho' & Hc' & Hk' & Hw' & Hd') Hf' He'].
  rewrite !signing_encode_fields. intros E. apply encode_fields_inj in E; [|done..].
  pose proof (λ n, f_equal (λ l, nth n l []) E) as En. clear E.
  destruct i as [o c b p k w d e], i' as [o' c' b' p' k' w' d' e']. unfold signing_fields in En.
  pose proof (En 1%nat) as E1. pose proof (En 2%nat) as E2. pose proof (En 3%nat) as E3. pose proof (En 4%nat) as E4.
  pose proof (En 5%nat) as E5. pose proof (En 6%nat) as E6. pose proof (En 7%nat) as E7. pose proof (En 8%nat) as E8.
  clear En. cbn [nth si_origin si_challenge_id si_challenge si_operation si_key_fingerprint si_owner_identity_id
                 si_device_key_fingerprint si_expires_at_unix_ms] in *.
  apply utf8_inj in E1, E2, E4, E5, E6, E7; try done; try apply valid_lit.
  apply lit_inj, op_as_str_inj in E4.
  apply (f_equal be_combine) in E8. rewrite !be_combine_bytes in E8 by done. congruence.
Qed.

(** ** Library laws *)

(** What the source relies on: base64 decodes what it encoded, to texts of
    ASCII without a dot or a space, at most six bytes for two; a signature verifies under its own key. *)
Class CryptoLaws `{CryptoLib} := {
  b64_round_trip b : b64_decode_bare (b64_encode b) = Some b;
  b64_ascii b : Forall (λ c, c < 128) (b64_encode b);
  b64_no_dot b : 46 ∉ b64_encode b;
  b64_no_space b : Forall (λ c, is_whitespace c = false) (b64_encode b);
  b64_len b : len (b64_encode b) ≤ 2 * len b + 4;
  sha256_len b : len (sha256 b) = 32;
  ed25519_key_ok seed : len seed = 32 → len (ed25519_public seed) = 32 ∧ ed25519_valid (ed25519_public seed) = true;
  ed25519_own seed message :
    len seed = 32 → len (ed25519_sign seed message) = 64
                    ∧ ed25519_verify (ed25519_public seed) message (ed25519_sign seed message) = true;
}.

Section laws.
Context `{CryptoLaws}.

Lemma b64_decode_encode b : b64_decode (b64_encode b) = Some b.
Proof. unfold b64_decode. by rewrite b64_round_trip. Qed.
Lemma valid_b64 b : valid_text (b64_encode b).
Proof. eapply Forall_impl; [apply b64_ascii|]. intros c Hc. left. cbn in Hc. lia. Qed.

Lemma pair_key_fingerprint seed :
  key_fingerprint (mkPublicKey (lit ALGORITHM_ED25519) (ed25519_public seed)) = pair_fingerprint seed.
Proof. done. Qed.

Lemma own_key_verifies seed message :
  len seed = 32 →
  key_verify (mkPublicKey (lit ALGORITHM_ED25519) (ed25519_public seed)) message (ed25519_sign seed message) = true.
Proof.
  intros Hs. unfold key_verify. cbn [pk_algorithm pk_bytes]. rewrite bool_decide_eq_true_2 by done.
  destruct (ed25519_key_ok seed Hs) as [-> ->], (ed25519_own seed message Hs) as [-> ->]. done.
Qed.

Lemma parse_signing i : signing_ok i → parse_length_prefixed (signing_encode i) = Some (signing_fields i).
Proof.
  intros [_ Hf _]. apply length_prefixed_parse. rewrite signing_encode_fields. split_and!; [done|done|]. done.
Qed.

Lemma verify_binding_signing debug i seed operation owner :
  signing_ok i →
  verify_binding debug (signing_encode i) seed operation owner = Ok () ↔
    operation = lit (op_as_str (si_operation i)) ∧ si_key_fingerprint i = pair_fingerprint seed
    ∧ ∀ o, owner = Some o → o = si_owner_identity_id i.
Proof.
  intros Hi. pose proof Hi as [(Ho & Hc & Hk & Hw & Hd) _ _]. unfold verify_binding. rewrite parse_signing by done.
  change (negb (len (signing_fields i) =? 9)) with false. cbn match. cbn zeta.
  unfold signing_fields. cbn [nth]. rewrite !utf8_lossy_utf8 by (done || apply valid_lit).
  rewrite (bool_decide_eq_true_2 (lit CHALLENGE_SIGNATURE_CONTEXT = _)) by done. cbn [negb].
  case_bool_decide as H1; cbn [negb]; [|naive_solver]. case_bool_decide as H2; cbn [negb]; [|naive_solver].
  destruct owner as [o|]; [case_bool_decide as H3|]; naive_solver.
Qed.

(** The publisher signs what the server verifies, and nothing that says
    something else. Offered the server's signing input, the publisher signs it
    exactly when it is for the operation it asked for, bound to its own key, and
    to the owning identity it expects; and then the server's check of that
    signature against its own derivation succeeds. *)
Theorem publisher_signs_what_it_means (debug : text → text) (i : SigningInput) (seed : list byte) (operation : text)
    (owner : option text) :
  signing_ok i → len seed = 32 →
  let key := mkPublicKey (lit ALGORITHM_ED25519) (ed25519_public seed) in
  ((∃ s, sign_challenge debug (b64_encode (signing_encode i)) seed operation owner = Ok s) ↔
     operation = lit (op_as_str (si_operation i)) ∧ si_key_fingerprint i = key_fingerprint key
     ∧ ∀ o, owner = Some o → o = si_owner_identity_id i)
  ∧ ∀ s, sign_challenge debug (b64_encode (signing_encode i)) seed operation owner = Ok s →
      ∃ signature, b64_decode s = Some signature ∧ key_verify key (signing_encode i) signature = true.
Proof.
  intros Hi Hs key. subst key. rewrite pair_key_fingerprint, <- (verify_binding_signing debug i seed operation owner Hi).
  unfold sign_challenge. rewrite b64_decode_encode.
  destruct (verify_binding debug (signing_encode i) seed operation owner) as [[]|e]; cbn [res_bind].
  - split; [split; [done|eauto]|]. intros s [= <-]. exists (ed25519_sign seed (signing_encode i)).
    unfold pair_sign. rewrite b64_decode_encode. split; [done|by apply own_key_verifies].
  - split; [|done]. split; [by intros [s ?]|done].
Qed.
End laws.

(** A library that satisfies the laws: base64 is hexadecimal, a signature is
    the first bytes of what it signs. *)
Definition unhex1 (c : N) : N := if c <? 58 then c - 48 else c - 87.
Fixpoint unhex (t : text) : option (list byte) :=
  match t with
  | [] => Some []
  | a :: b :: t => cons (byte_of_N (unhex1 a * 16 + unhex1 b)) <$> unhex t
  | _ => None
  end.
Definition pad_to (n : nat) (l : list byte) : list byte := take n (l ++ repeat x00 n).
Definition toy_lib : CryptoLib := {|
  sha256 := λ b, pad_to 32 (rev b);
  b64_encode := hex;
  b64_decode_bare := unhex;
  b64_decode_padded := λ _, None;
  ed25519_valid := λ _, true;
  ed25519_verify := λ _ message signature, bool_decide (signature = pad_to 64 message);
  ed25519_public := λ seed, seed;
  ed25519_sign := λ _ message, pad_to 64 message;
  hmac_sha256 := λ secret message, pad_to 32 (secret ++ message);
  aead_encrypt := λ _ _ plain, plain;
  aead_decrypt := λ _ _ cipher, Some cipher;
|}.

Lemma len_pad_to n l : len (pad_to n l) = N.of_nat n.
Proof. unfold pad_to, len. rewrite length_take, length_app, repeat_length. f_equal. lia. Qed.
Lemma hex_cons b bs : hex (b :: bs) = [hex_of (Byte.to_N b / 16); hex_of (Byte.to_N b mod 16)] ++ hex bs.
Proof. done. Qed.
Lemma hex_digits_ok b :
  byte_of_N (unhex1 (hex_of (Byte.to_N b / 16)) * 16 + unhex1 (hex_of (Byte.to_N b mod 16))) = b
  ∧ hex_of (Byte.to_N b / 16) < 128 ∧ hex_of (Byte.to_N b mod 16) < 128
  ∧ hex_of (Byte.to_N b / 16) ≠ 46 ∧ hex_of (Byte.to_N b mod 16) ≠ 46.
Proof. by destruct b. Qed.
Lemma unhex_hex bs : unhex (hex bs) = Some bs.
Proof.
  induction bs as [|b bs IH]; [done|]. rewrite hex_cons. cbn [app unhex]. rewrite IH. cbn.
  f_equal. f_equal. apply hex_digits_ok.
Qed.
Lemma hex_ascii bs : Forall (λ c, c < 128) (hex bs).
Proof.
  induction bs as [|b bs IH]; [constructor|]. rewrite hex_cons. destruct (hex_digits_ok b) as (_ & H1 & H2 & _).
  by repeat constructor.
Qed.
Lemma hex_no_dot bs : 46 ∉ hex bs.
Proof.
  induction bs as [|b bs IH]; [apply not_elem_of_nil|]. rewrite hex_cons.
  destruct (hex_digits_ok b) as (_ & _ & _ & H1 & H2). cbn [app]. by rewrite !not_elem_of_cons.
Qed.
Lemma hex_no_space bs : Forall (λ c, is_whitespace c = false) (hex bs).
Proof.
  induction bs as [|b bs IH]; [constructor|]. rewrite hex_cons. cbn [app].
  assert (is_whitespace (hex_of (Byte.to_N b / 16)) = false ∧ is_whitespace (hex_of (Byte.to_N b mod 16)) = false)
    as [? ?] by by destruct b.
  by repeat constructor.
Qed.
Lemma len_hex bs : len (hex bs) = 2 * len bs.
Proof. induction bs as [|b bs IH]; [done|]. rewrite hex_cons. unfold len in *. rewrite length_app. cbn [length]. lia. Qed.
#[export] Instance toy_laws : @CryptoLaws toy_lib.
Proof.
  constructor.
  - apply unhex_hex.
  - apply hex_ascii.
  - apply hex_no_dot.
  - apply hex_no_space.
  - intros b. cbn. rewrite len_hex. lia.
  - intros b. apply len_pad_to.
  - intros seed Hs. by split.
  - intros seed message _. split; [apply len_pad_to|by apply bool_decide_eq_true_2].
Defined.

Definition example_seed : list byte := repeat x07 32.
Definition example_signing : SigningInput :=
  mkSigningInput (lit "https://relay") (lit "01") [x01; x02] RegisterDevice
    (key_fingerprint (H := toy_lib) (mkPublicKey (lit ALGORITHM_ED25519) example_seed)) (lit "owner")
    (key_fingerprint (H := toy_lib) (mkPublicKey (lit ALGORITHM_ED25519) example_seed)) 1700000000000.
Lemma example_signing_ok : signing_ok example_signing.
Proof.
  constructor.
  - split_and!; try apply valid_lit; apply (valid_b64 (H := toy_lib)).
  - repeat constructor; vm_compute; reflexivity.
  - reflexivity.
Qed.

Lemma publisher_signs_what_it_means_witness :
  let key := mkPublicKey (lit ALGORITHM_ED25519) example_seed in
  ((∃ s, sign_challenge (H := toy_lib) id (hex (signing_encode example_signing)) example_seed
           (lit "register_device") (Some (lit "owner")) = Ok s) ↔
     lit "register_device" = lit (op_as_str (si_operation example_signing))
     ∧ si_key_fingerprint example_signing = key_fingerprint (H := toy_lib) key
     ∧ ∀ o, Some (lit "owner") = Some o → o = si_owner_identity_id example_signing)
  ∧ ∀ s, sign_challenge (H := toy_lib) id (hex (signing_encode example_signing)) example_seed
           (lit "register_device") (Some (lit "owner")) = Ok s →
      ∃ signature, b64_decode (H := toy_lib) s = Some signature
                   ∧ key_verify (H := toy_lib) key (signing_encode example_signing) signature = true.
Proof.
  apply (publisher_signs_what_it_means (H := toy_lib) id example_signing example_seed (lit "register_device")
           (Some (lit "owner"))).
  - exact example_signing_ok.
  - reflexivity.
Defined.

(** ** Tokens *)

Lemma lxor_0 a b : N.lxor a b = 0 → a = b.
Proof. apply N.lxor_eq. Qed.
Lemma ct_eq_spec a b : ct_eq a b = true ↔ a = b.
Proof.
  assert (∀ l d, foldl (λ diff '(x, y), N.lor diff (byte_xor x y)) d l = 0 ↔
                 d = 0 ∧ Forall (λ '(x, y), x = y) l) as Hf.
  { induction l as [|[x y] l IH]; intros d; cbn [foldl].
    - split; [by intros ->|by intros [-> _]].
    - rewrite IH, Forall_cons, N.lor_eq_0_iff. unfold byte_xor. split.
      + intros [[-> Hx%lxor_0] Hl]. split_and!; [done| |done].
        rewrite <- (of_to_byte x), <- (of_to_byte y). by rewrite Hx.
      + intros (-> & -> & Hl). by rewrite N.lxor_nilpotent. }
  unfold ct_eq. destruct (N.eqb_spec (len a) (len b)) as [Hl|Hl]; cbn [negb].
  - rewrite N.eqb_eq, Hf. split.
    + intros [_ Hall]. revert b Hl Hall. induction a as [|x a IH]; intros [|y b] Hl Hall; try done;
        rewrite ?len_cons, ?len_nil in Hl; try lia.
      cbn in Hall. apply Forall_cons in Hall as [-> Hall]. f_equal. apply IH; [lia|done].
    + intros ->. split; [done|]. clear. induction b as [|x b IH]; cbn; by constructor.
  - split; [done|]. by intros ->.
Qed.

Lemma split_at_no_sep sep t : sep ∉ t → split_at sep t = [t].
Proof.
  induction t as [|c t IH]; [done|]. intros [Hc Ht]%not_elem_of_cons. cbn [split_at]. rewrite (IH Ht).
  destruct (N.eqb_spec c sep); congruence.
Qed.
Lemma split_at_sep sep a t : sep ∉ a → split_at sep (a ++ sep :: t) = a :: split_at sep t.
Proof.
  induction a as [|c a IH]; intros Ha; cbn [app split_at].
  - by rewrite N.eqb_refl.
  - apply not_elem_of_cons in Ha as [Hc Ha]. rewrite (IH Ha). destruct (N.eqb_spec c sep); congruence.
Qed.
Lemma split_at_inv sep t :
  match split_at sep t with
  | [] => False
  | [w] => t = w ∧ (sep ∉ w)
  | w :: ws => ∃ t', t = w ++ sep :: t' ∧ (sep ∉ w) ∧ split_at sep t' = ws
  end.
Proof.
  induction t as [|c t IH]; cbn [split_at]; [split; [done|apply not_elem_of_nil]|].
  destruct (N.eqb_spec c sep) as [->|Hc].
  - destruct (split_at sep t) as [|w ws] eqn:E; [done|]. exists t.
    split_and!; [done|apply not_elem_of_nil|done].
  - destruct (split_at sep t) as [|w [|w' ws]] eqn:E; [done| |].
    + destruct IH as [-> Hw]. split; [done|]. by apply not_elem_of_cons.
    + destruct IH as (t' & -> & Hw & Ht). exists t'. split_and!; [done|by apply not_elem_of_cons|done].
Qed.
Lemma split_three sep t a b c :
  split_at sep t = [a; b; c] ↔ t = a ++ sep :: b ++ sep :: c ∧ (sep ∉ a) ∧ (sep ∉ b) ∧ (sep ∉ c).
Proof.
  split.
  - intros E. pose proof (split_at_inv sep t) as H1. rewrite E in H1. destruct H1 as (t1 & -> & Ha & E1).
    pose proof (split_at_inv sep t1) as H2. rewrite E1 in H2. destruct H2 as (t2 & -> & Hb & E2).
    pose proof (split_at_inv sep t2) as H3. rewrite E2 in H3. by destruct H3 as [-> Hc].
  - intros (-> & Ha & Hb & Hc). by rewrite !split_at_sep, split_at_no_sep by done.
Qed.

Section tokens.
Context `{CryptoLaws} (claims_to_vec : TokenClaims → list byte) (claims_from_slice : list byte → option TokenClaims).
Abbreviation mint := (mint_token claims_to_vec).
Abbreviation verify := (verify_token claims_from_slice).

(** What a token says: its payload and tag, and the key that made it. *)
Definition signed_by (token : text) (keys : list SigningKey) (claims : TokenClaims) : Prop :=
  ∃ payload_b64 tag_b64 payload key,
    token = lit "v1." ++ payload_b64 ++ lit "." ++ tag_b64
    ∧ (46 ∉ payload_b64) ∧ (46 ∉ tag_b64)
    ∧ b64_decode payload_b64 = Some payload ∧ claims_from_slice payload = Some claims
    ∧ find (λ k, bool_decide (sk_kid k = tc_kid claims)) keys = Some key
    ∧ b64_decode tag_b64 = Some (hmac_sha256 (sk_secret key) (utf8 (lit "v1." ++ payload_b64))).
(** Its audience and its window. *)
Definition claims_current (claims : TokenClaims) (issuer audience : text) (now skew : Z) : Prop :=
  tc_iss claims = issuer ∧ tc_aud claims = audience
  ∧ (now ≤ tc_exp claims + skew)%Z ∧ (tc_iat claims ≤ now + skew)%Z.

Lemma no_dot_v1 : 46 ∉ lit "v1".
Proof. by apply (bool_decide_unpack (46 ∉ lit "v1")). Qed.

Lemma verify_token_spec token keys issuer audience now skew claims :
  verify token keys issuer audience now skew = Ok claims ↔
    signed_by token keys claims ∧ claims_current claims issuer audience now skew.
Proof.
  unfold verify_token, signed_by, claims_current. split.
  - destruct (split_at 46 token) as [|v [|p [|t [|]]]] eqn:E; try done. apply split_three in E as (-> & Hv & Hp & Ht).
    case_bool_decide as Hpre; [subst v|done]. cbn [negb].
    destruct (b64_decode p) as [payload|] eqn:Ep, (b64_decode t) as [tag|] eqn:Et; try done.
    destruct (claims_from_slice payload) as [c|] eqn:Ec; [|done].
    destruct (find _ keys) as [key|] eqn:Ek; [|done].
    destruct (ct_eq _ tag) eqn:Em; [|done]. apply ct_eq_spec in Em as <-. cbn [negb].
    case_bool_decide as Hi; [|done]. case_bool_decide as Ha; [|done]. cbn [andb negb].
    destruct (Z.ltb_spec (tc_exp c + skew) now); [done|]. destruct (Z.ltb_spec (now + skew) (tc_iat c)); [done|].
    intros [= <-]. split; [|done]. exists p, t, payload, key. by rewrite Et.
  - intros [(p & t & payload & key & -> & Hp & Ht & Ep & Ec & Ek & Et) (<- & <- & He & Hi)].
    assert (split_at 46 (lit "v1." ++ p ++ lit "." ++ t) = [lit "v1"; p; t]) as ->.
    { apply split_three. split_and!; [done|apply no_dot_v1|done|done]. }
    rewrite Ep, Et. rewrite bool_decide_eq_true_2 by done. cbn [negb]. rewrite Ec, Ek.
    change (lit "v1" ++ lit "." ++ p) with (lit "v1." ++ p). rewrite (proj2 (ct_eq_spec _ _) eq_refl). cbn [negb].
    rewrite !bool_decide_eq_true_2 by done. cbn [andb negb].
    by rewrite (proj2 (Z.ltb_ge _ _)), (proj2 (Z.ltb_ge _ _)) by done.
Qed.

Lemma mint_signed key keys claims :
  claims_from_slice (claims_to_vec claims) = Some claims →
  find (λ k, bool_decide (sk_kid k = tc_kid claims)) keys = Some key →
  signed_by (mint key claims) keys claims.
Proof.
  intros Hj Hk. unfold mint_token, signed_by.
  exists (b64_encode (claims_to_vec claims)),
    (b64_encode (hmac_sha256 (sk_secret key) (utf8 (lit "v1." ++ b64_encode (claims_to_vec claims))))),
    (claims_to_vec claims), key.
  split_and!; [|apply b64_no_dot|apply b64_no_dot|apply b64_decode_encode|apply Hj|done|apply b64_decode_encode].
  change (lit TOKEN_PREFIX ++ lit "." ++ ?x) with (lit "v1." ++ x). by rewrite <- app_assoc.
Qed.
End tokens.

(** ** Identifiers *)

(** Lexicographic order, as strings sort. *)
Fixpoint text_lt (a b : text) : Prop :=
  match a, b with
  | [], _ :: _ => True
  | x :: a, y :: b => x < y ∨ x = y ∧ text_lt a b
  | _, [] => False
  end.

Lemma text_lt_app_same a b c d : length a = length b → text_lt a b → text_lt (a ++ c) (b ++ d).
Proof.
  revert b. induction a as [|x a IH]; intros [|y b] Hl; cbn in *; try done; try lia.
  intros [Hx|[-> Ht]]; [by left|right]. split; [done|]. apply IH; [lia|done].
Qed.
Lemma text_lt_app_eq a c d : text_lt c d → text_lt (a ++ c) (a ++ d).
Proof. induction a; [done|]. cbn. auto. Qed.
Lemma length_ulid k v : length (ulid_digits k v) = k.
Proof. revert v. induction k as [|k IH]; intros v; [done|]. cbn. rewrite length_app, IH. cbn. lia. Qed.
Lemma crockford_sorted i j : i < j → j < 32 → nth (N.to_nat i) CROCKFORD 0 < nth (N.to_nat j) CROCKFORD 0.
Proof.
  intros Hi Hj.
  assert (forallb (λ j, forallb (λ i, negb (N.of_nat i <? N.of_nat j)
    || (nth i CROCKFORD 0 <? nth j CROCKFORD 0)) (seq 0 32)) (seq 0 32) = true) as Hall by by vm_compute.
  rewrite forallb_forall in Hall. specialize (Hall (N.to_nat j)). rewrite forallb_forall in Hall.
  specialize (Hall ltac:(apply in_seq; lia) (N.to_nat i) ltac:(apply in_seq; lia)).
  rewrite !N2Nat.id in Hall. rewrite (proj2 (N.ltb_lt i j)) in Hall by done. cbn [negb orb] in Hall. by apply N.ltb_lt.
Qed.
Lemma low_digit v : v = N.shiftr v 5 * 32 + N.land v 31 ∧ N.land v 31 < 32.
Proof.
  change 31 with (N.ones 5). rewrite N.land_ones, N.shiftr_div_pow2. change (2 ^ 5) with 32.
  split; [|by apply N.mod_lt]. rewrite N.mul_comm. apply N.div_mod'.
Qed.
Lemma ulid_digits_sorted k v w : v < w → w < 32 ^ N.of_nat k → text_lt (ulid_digits k v) (ulid_digits k w).
Proof.
  revert v w. induction k as [|k IH]; intros v w Hv Hw; [cbn in Hw; lia|]. cbn [ulid_digits].
  destruct (low_digit v) as [Ev Lv], (low_digit w) as [Ew Lw].
  rewrite Nat2N.inj_succ, N.pow_succ_r' in Hw.
  destruct (decide (N.shiftr v 5 < N.shiftr w 5)) as [Hlt|Hge].
  - apply text_lt_app_same; [by rewrite !length_ulid|]. apply IH; [done|]. lia.
  - assert (N.shiftr v 5 = N.shiftr w 5) as -> by lia. apply text_lt_app_eq. cbn. left. apply crockford_sorted; lia.
Qed.
Lemma ulid_value_sum m random :
  len random = 10 → m < 2 ^ 48 → ulid_value m random = m * 2 ^ 80 + be_combine random ∧ be_combine random < 2 ^ 80.
Proof.
  intros Hr Hm. pose proof (be_combine_lt random) as Hb. rewrite Hr in Hb. change (256 ^ 10) with (2 ^ 80) in Hb.
  split; [|done]. unfold ulid_value. rewrite N.mod_small; [|rewrite N.shiftl_mul_pow2; change two128 with (2 ^ 48 * 2 ^ 80); nia].
  assert (N.land (N.shiftl m 80) (be_combine random) = 0) as Hland.
  { apply N.bits_inj_0. intros i. rewrite N.land_spec. destruct (decide (i < 80)) as [Hi|Hi].
    - by rewrite N.shiftl_spec_low.
    - rewrite <- (N.mod_small (be_combine random) (2 ^ 80)) by done.
      rewrite N.mod_pow2_bits_high by lia. apply andb_false_r. }
  rewrite <- N.lxor_lor by done. rewrite <- N.add_nocarry_lxor by done. by rewrite N.shiftl_mul_pow2.
Qed.

(** Identifiers sort by the time they were made. An identifier is
    twenty-six characters, and one made in a later millisecond sorts after one
    made earlier, whatever their random parts, until the year 10889. *)
Theorem ulids_sort_by_time (millis millis' : N) (random random' : list byte) :
  len random = 10 → len random' = 10 → millis < millis' → millis' < 2 ^ 48 →
  text_lt (new_ulid millis random) (new_ulid millis' random')
  ∧ length (new_ulid millis random) = 26%nat.
Proof.
  intros Hr Hr' Hlt Hb. split; [|apply length_ulid].
  destruct (ulid_value_sum millis random Hr ltac:(lia)) as [E1 L1], (ulid_value_sum millis' random' Hr' Hb) as [E2 L2].
  apply ulid_digits_sorted; rewrite E1 || rewrite E2; [rewrite E2|]; [nia|].
  change (32 ^ N.of_nat 26) with (2 ^ 130). nia.
Qed.

Lemma ulids_sort_by_time_witness :
  text_lt (new_ulid 1700000000000 (repeat xff 10)) (new_ulid 1700000000001 (repeat x00 10))
  ∧ length (new_ulid 1700000000000 (repeat xff 10)) = 26%nat.
Proof. apply (ulids_sort_by_time 1700000000000 1700000000001 (repeat xff 10) (repeat x00 10)); reflexivity. Defined.
