(* ===== verification/FileSystem.v ===== *)
(** * Files and environment variables

    What the programs see of the file system: a file is its permission bits and
    its bytes; every system call may fail, a write after any number of bytes, so
    that an interrupted save is a save with a failing call. A program over files
    answers or stops with an error of its own type. Paths are texts with [/]
    between components; [Path::join], [parent], [file_name], [with_extension]. *)

From S2P Require Export Crypto.

Open Scope N_scope.
Open Scope hype_scope.

Record FileEntry := mkFileEntry {
  fe_mode : N;
  fe_bytes : list byte;
}.
(** A failing call: its error's text, and for a write how many bytes got out. *)
Definition Fault : Type := text * N.
(** [fs_faults]: the calls to come, [None] when they succeed. *)
Record Files := mkFiles {
  fs_entries : gmap text FileEntry;
  fs_faults : list (option Fault);
}.
Definition put_entries (v : gmap text FileEntry) (s : Files) : Files := mkFiles v (fs_faults s).

Definition FilesM (E A : Type) : Type := Files → result E A * Files.
#[export] Instance FilesM_ret {E : Type} : MRet (FilesM E) := λ A a s, (Ok a, s).
#[export] Instance FilesM_bind {E : Type} : MBind (FilesM E) := λ A B k m s,
  match m s with (Ok a, s) => k a s | (Err e, s) => (Err e, s) end.
Definition stop {E A : Type} (e : E) : FilesM E A := λ s, (Err e, s).
(** The outcome of the next call. *)
Definition next_fault {E : Type} : FilesM E (option Fault) := λ s,
  (Ok (mjoin (head (fs_faults s))), mkFiles (fs_entries s) (tail (fs_faults s))).
Definition edit {E : Type} (f : gmap text FileEntry → gmap text FileEntry) : FilesM E () := λ s, (Ok (), put_entries (f (fs_entries s)) s).
Definition entry_at {E : Type} (path : text) : FilesM E (option FileEntry) := λ s, (Ok (fs_entries s !! path), s).

(** [Path::exists]: an error counts as no. *)
Definition path_exists {E : Type} (path : text) : FilesM E bool :=
  fault ← next_fault;
  f ← entry_at path;
  mret (negb (bool_decide (is_Some fault)) && bool_decide (is_Some f)).
(** One look at a path's existence, and what it answered. *)
Lemma path_exists_run {E : Type} path s :
  path_exists (E := E) path s
  = (Ok (negb (bool_decide (is_Some (mjoin (head (fs_faults s))))) && bool_decide (is_Some (fs_entries s !! path))),
     mkFiles (fs_entries s) (tail (fs_faults s))).
Proof. done. Qed.

(** [Path::parent], [Path::with_extension("tmp")] *)
Definition split_last (c : N) (t : text) : option (text * text) :=
  match split_at c (reverse t) with
  | name :: rest =>
      if is_empty rest then None else Some (reverse (dropN (len name + 1) (reverse t)), reverse name)
  | [] => None
  end.
Definition file_name (path : text) : text := match split_last 47 path with Some (_, name) => name | None => path end.
Definition parent (path : text) : option text :=
  match split_last 47 path with
  | Some (dir, _) => Some (if is_empty dir then lit "/" else dir)
  | None => if is_empty path then None else Some []
  end.
Definition file_stem (name : text) : text :=
  match split_last 46 name with Some (stem, _) => if is_empty stem then name else stem | None => name end.
Definition with_extension_tmp (path : text) : text :=
  let name := file_name path in
  if is_empty name || bool_decide (name = lit "..") then path
  else takeN (len path - len name) path ++ file_stem name ++ lit ".tmp".
(** [Path::join] of one relative component. *)
Definition join_path (base : text) (part : string) : text :=
  if is_empty base then lit part
  else if bool_decide (last base = Some 47) then base ++ lit part
  else base ++ lit "/" ++ lit part.
