(* ===== verification/Net.v ===== *)
(** * Addresses and networks ([server/src/settings/mod.rs], [http/context.rs])

    What the server uses of [std::net]: [IpAddr] and [SocketAddr], their
    parsers and [Display]; and its own CIDR blocks. A parser takes the text
    that is left and gives a value with the rest of it, as [core::net]'s does;
    a failed attempt leaves the text alone. *)

From S2P Require Export Prelude.

Open Scope N_scope.
Open Scope hype_scope.

(** ** Addresses: four octets, or eight segments of sixteen bits. *)

Inductive IpAddr :=
| V4 (octets : list N)
| V6 (segments : list N).
#[export] Instance IpAddr_eq_dec : EqDecision IpAddr.
Proof. solve_decision. Defined.

Definition ip_ok (a : IpAddr) : Prop :=
  match a with
  | V4 o => length o = 4%nat ∧ Forall (λ n, n < 256) o
  | V6 s => length s = 8%nat ∧ Forall (λ n, n < 65536) s
  end.
Definition is_ipv4 (a : IpAddr) : bool := match a with V4 _ => true | V6 _ => false end.
Definition octets (a : IpAddr) : list N :=
  match a with V4 o => o | V6 s => mjoin ((λ n, [n / 256; n mod 256]) <$> s) end.
Definition to_ipv4_mapped (segments : list N) : option IpAddr :=
  match segments with
  | [0; 0; 0; 0; 0; 65535; a; b] => Some (V4 [a / 256; a mod 256; b / 256; b mod 256])
  | _ => None
  end.
Definition is_loopback (a : IpAddr) : bool :=
  match a with
  | V4 o => bool_decide (head o = Some 127)
  | V6 s => bool_decide (s = [0; 0; 0; 0; 0; 0; 0; 1])
  end.

(** ** The parser of [core::net] *)

Definition Parse (A : Type) : Type := text → option (A * text).
#[export] Instance Parse_ret : MRet Parse := λ A a t, Some (a, t).
#[export] Instance Parse_bind : MBind Parse := λ A B k m t,
  match m t with Some (a, t) => k a t | None => None end.

Definition given_char (c : N) : Parse () := λ t,
  match t with c' :: t => if c' =? c then Some ((), t) else None | [] => None end.
Definition to_digit (radix c : N) : option N :=
  let d :=
    if (48 <=? c) && (c <=? 57) then Some (c - 48)
    else if (97 <=? c) && (c <=? 122) then Some (c - 87)
    else if (65 <=? c) && (c <=? 90) then Some (c - 55)
    else None in
  match d with Some d => if d <? radix then Some d else None | None => None end.
(** The digits at the front, most significant first. *)
Fixpoint digits (radix : N) (t : text) : list N * text :=
  match t with
  | c :: t' =>
      match to_digit radix c with
      | Some d => let '(ds, rest) := digits radix t' in (d :: ds, rest)
      | None => ([], t)
      end
  | [] => ([], t)
  end.
Definition digits_value (radix : N) (ds : list N) : N := foldl (λ n d, n * radix + d) 0 ds.
(** [read_number]; [limit] is the first value the type cannot hold. *)
Definition read_number (radix : N) (max_digits : option N) (allow_zero_prefix : bool) (limit : N) : Parse N := λ t,
  let '(ds, rest) := digits radix t in
  let n := digits_value radix ds in
  if is_empty ds then None
  else if from_option (λ m, m <? len ds) false max_digits then None
  else if negb allow_zero_prefix && bool_decide (head ds = Some 0) && (1 <? len ds) then None
  else if limit <=? n then None
  else Some (n, rest).
(** [read_separator]: no separator before the first. *)
Definition separated {A} (sep : N) (i : nat) (p : Parse A) : Parse A :=
  match i with O => p | S _ => _ ← given_char sep; p end.

Definition read_ipv4_addr : Parse IpAddr :=
  a ← read_number 10 (Some 3) false 256;
  b ← separated 46 1 (read_number 10 (Some 3) false 256);
  c ← separated 46 2 (read_number 10 (Some 3) false 256);
  d ← separated 46 3 (read_number 10 (Some 3) false 256);
  mret (V4 [a; b; c; d]).

(** [read_groups]: [left] slots are free, [i] are filled; the groups read, and
    whether they end in an IPv4 address. *)
Fixpoint read_groups (left : nat) (i : nat) (t : text) : (list N * bool) * text :=
  match left with
  | O => (([], false), t)
  | S left' =>
      let embedded := match left' with O => None | S _ => separated 58 i read_ipv4_addr t end in
      match embedded with
      | Some (V4 [a; b; c; d], rest) => (([a * 256 + b; c * 256 + d], true), rest)
      | _ =>
          match separated 58 i (read_number 16 (Some 4) true 65536) t with
          | Some (g, rest) =>
              let '((gs, v4), rest) := read_groups left' (S i) rest in ((g :: gs, v4), rest)
          | None => (([], false), t)
          end
      end
  end.
(** What follows [::]. *)
Definition read_back (front : list N) : Parse IpAddr := λ t,
  let '((back, _), t) := read_groups (7 - length front) 0 t in
  Some (V6 (front ++ repeat 0 (8 - length front - length back) ++ back), t).
Definition read_ipv6_addr : Parse IpAddr := λ t,
  let '((front, front_v4), t) := read_groups 8 0 t in
  if bool_decide (length front = 8%nat) then Some (V6 front, t)
  else if front_v4 then None
  else (_ ← given_char 58; _ ← given_char 58; read_back front : Parse IpAddr) t.

Definition orelse {A} (p q : Parse A) : Parse A := λ t, match p t with Some r => Some r | None => q t end.
Definition read_ip_addr : Parse IpAddr := orelse read_ipv4_addr read_ipv6_addr.
Definition whole {A} (p : Parse A) (t : text) : option A :=
  match p t with Some (a, []) => Some a | _ => None end.
Definition ip_parse : text → option IpAddr := whole read_ip_addr.

Definition read_port : Parse N := _ ← given_char 58; read_number 10 None true 65536.
Definition read_socket_addr_v4 : Parse (IpAddr * N) :=
  ip ← read_ipv4_addr; port ← read_port; mret (ip, port).
Definition read_scope_id : Parse N := _ ← given_char 37; read_number 10 None true 4294967296.
Definition read_socket_addr_v6 : Parse (IpAddr * N) :=
  _ ← given_char 91;
  ip ← read_ipv6_addr;
  _ ← orelse read_scope_id (mret 0);
  _ ← given_char 93;
  port ← read_port;
  mret (ip, port).
Definition socket_addr_parse : text → option (IpAddr * N) := whole (orelse read_socket_addr_v4 read_socket_addr_v6).

(** ** [Display] *)

Definition hex_digit (d : N) : N := if d <? 10 then 48 + d else 87 + d.
(** [{:x}] of a segment. *)
Definition hex16 (n : N) : text :=
  let ds := [n / 4096; n / 256 mod 16; n / 16 mod 16; n mod 16] in
  hex_digit <$> (if n <? 16 then drop 3 ds else if n <? 256 then drop 2 ds else if n <? 4096 then drop 1 ds else ds).
Definition joined (sep : text) (parts : list text) : text :=
  match parts with [] => [] | p :: parts => p ++ mjoin ((λ q, sep ++ q) <$> parts) end.
(** The first of the longest runs of zero segments: where, and how long. *)
Fixpoint zero_run (s : list N) : nat := match s with 0 :: s => S (zero_run s) | _ => O end.
Fixpoint longest_zeros (i : nat) (s : list N) (best : nat * nat) : nat * nat :=
  match s with
  | [] => best
  | _ :: s' => longest_zeros (S i) s' (if (best.2 <? zero_run s)%nat then (i, zero_run s) else best)
  end.
Definition ipv4_text (o : list N) : text := joined (lit ".") (num <$> o).
Definition ip_text (a : IpAddr) : text :=
  match a with
  | V4 o => ipv4_text o
  | V6 s =>
      match to_ipv4_mapped s with
      | Some (V4 o) => lit "::ffff:" ++ ipv4_text o
      | _ =>
          let '(start, n) := longest_zeros 0 s (O, O) in
          if (1 <? n)%nat then
            joined (lit ":") (hex16 <$> take start s) ++ lit "::" ++ joined (lit ":") (hex16 <$> drop (start + n) s)
          else joined (lit ":") (hex16 <$> s)
      end
  end.

Example ip_v4 : ip_parse (lit "127.0.0.1") = Some (V4 [127; 0; 0; 1]).
Proof. reflexivity. Qed.
Example ip_v4_zero : ip_parse (lit "127.00.0.1") = None.
Proof. reflexivity. Qed.
Example ip_v6 : ip_parse (lit "fe80::1:10.0.0.1") = Some (V6 [65152; 0; 0; 0; 0; 1; 2560; 1]).
Proof. reflexivity. Qed.
Example ip_v6_text : ip_text (V6 [65152; 0; 0; 0; 0; 1; 2560; 1]) = lit "fe80::1:a00:1".
Proof. reflexivity. Qed.
Example ip_any : ip_parse (lit "::") = Some (V6 [0; 0; 0; 0; 0; 0; 0; 0]).
Proof. reflexivity. Qed.
Example ip_mapped : ip_text (V6 [0; 0; 0; 0; 0; 65535; 2560; 1]) = lit "::ffff:10.0.0.1".
Proof. reflexivity. Qed.
Example socket_v6 : socket_addr_parse (lit "[::1%2]:8080") = Some (V6 [0; 0; 0; 0; 0; 0; 0; 1], 8080).
Proof. reflexivity. Qed.
Example socket_v4 : socket_addr_parse (lit "0.0.0.0:8080") = Some (V4 [0; 0; 0; 0], 8080).
Proof. reflexivity. Qed.

(** ** CIDR blocks *)

(** [str::split_once] at a character. *)
Fixpoint split_once (sep : N) (t : text) : option (text * text) :=
  match t with
  | [] => None
  | c :: t =>
      if c =? sep then Some ([], t)
      else match split_once sep t with Some (a, b) => Some (c :: a, b) | None => None end
  end.
(** [str::parse::<u8>] *)
Definition parse_u8 (t : text) : option N :=
  let t := match t with 43 :: (_ :: _) as t' => t' | _ => t end in
  match digits 10 t with
  | ((_ :: _) as ds, []) => if digits_value 10 ds <? 256 then Some (digits_value 10 ds) else None
  | _ => None
  end.

Definition parse_cidr (s : text) : option (IpAddr * N) :=
  match split_once 47 s with
  | None => None
  | Some (addr, prefix) =>
      match ip_parse (trim addr), parse_u8 (trim prefix) with
      | Some ip, Some bits =>
          let max := if is_ipv4 ip then 32 else 128 in
          if max <? bits then None else Some (ip, bits)
      | _, _ => None
      end
  end.

(** A byte shifted left by [n], [0xff << n] in a [u8]. *)
Definition shl8 (b n : N) : N := N.land (N.shiftl b n) 255.
Definition cidr_contains (network : IpAddr) (prefix : N) (candidate : IpAddr) : bool :=
  let same_family (candidate : IpAddr) : bool :=
    if negb (eqb (is_ipv4 network) (is_ipv4 candidate)) then false
    else
      let net := octets network in
      let cand := octets candidate in
      let full := prefix / 8 in
      if negb (bool_decide (takeN full net = takeN full cand)) then false
      else
        let remainder := prefix mod 8 in
        if remainder =? 0 then true
        else
          let mask := shl8 255 (8 - remainder) in
          N.land (nth (N.to_nat full) net 0) mask =? N.land (nth (N.to_nat full) cand 0) mask in
  match network, candidate with
  | V4 _, V6 v6 => match to_ipv4_mapped v6 with Some v4 => same_family v4 | None => false end
  | _, _ => same_family candidate
  end.

(** [in_networks] of [context.rs] *)
Definition in_networks (networks : list text) (candidate : IpAddr) : bool :=
  existsb (λ '(network, prefix), cidr_contains network prefix candidate) (omap parse_cidr networks).

(** ** Membership is equality of the leading bits *)

Definition bytes_value (l : list N) : N := digits_value 256 l.
(** How many bits an address has, and their value. *)
Definition ip_width (a : IpAddr) : N := if is_ipv4 a then 32 else 128.
Definition ip_value (a : IpAddr) : N := bytes_value (octets a).
(** A candidate in the network's family: an IPv4-mapped one is unwrapped. *)
Definition as_family_of (network candidate : IpAddr) : option IpAddr :=
  match network, candidate with
  | V4 _, V4 _ | V6 _, V6 _ => Some candidate
  | V4 _, V6 s => to_ipv4_mapped s
  | V6 _, V4 _ => None
  end.
(** The reference: the first [prefix] bits agree. *)
Definition in_block (network : IpAddr) (prefix : N) (candidate : IpAddr) : Prop :=
  ∃ c, as_family_of network candidate = Some c
       ∧ N.shiftr (ip_value network) (ip_width network - prefix) = N.shiftr (ip_value c) (ip_width network - prefix).

Abbreviation byte_list := (Forall (λ n, n < 256)).

Lemma foldl_digits radix ds n :
  foldl (λ n d, n * radix + d) n ds = n * radix ^ len ds + digits_value radix ds.
Proof.
  unfold digits_value. revert n. induction ds as [|d ds IH]; intros n; cbn [foldl].
  - rewrite len_nil, N.pow_0_r. lia.
  - rewrite IH, (IH (0 * radix + d)), len_cons, N.pow_add_r, N.pow_1_r. lia.
Qed.
Lemma bytes_value_cons b l : bytes_value (b :: l) = b * 256 ^ len l + bytes_value l.
Proof. unfold bytes_value at 1, digits_value. cbn [foldl]. by rewrite foldl_digits. Qed.
Lemma bytes_value_lt l : byte_list l → bytes_value l < 256 ^ len l.
Proof.
  induction 1 as [|b l Hb Hl IH]; [by vm_compute|].
  rewrite bytes_value_cons, len_cons, N.pow_add_r, N.pow_1_r. nia.
Qed.

Lemma shift_head b l r :
  byte_list l → r ≤ 8 → N.shiftr (bytes_value (b :: l)) (8 * len l + r) = N.shiftr b r.
Proof.
  intros Hl Hr. rewrite bytes_value_cons, <- N.shiftr_shiftr, !N.shiftr_div_pow2.
  rewrite (N.pow_mul_r 2 8). change (2 ^ 8) with 256.
  rewrite N.div_add_l by (by apply N.pow_nonzero).
  rewrite (N.div_small (bytes_value l)) by (by apply bytes_value_lt). by rewrite N.add_0_r.
Qed.

Lemma masked b r : b < 256 → 0 < r < 8 → N.land b (shl8 255 (8 - r)) = N.shiftr b (8 - r) * 2 ^ (8 - r).
Proof.
  intros Hb Hr.
  assert (forallb (λ r, forallb (λ b, N.land (N.of_nat b) (shl8 255 (8 - N.of_nat r))
    =? N.shiftr (N.of_nat b) (8 - N.of_nat r) * 2 ^ (8 - N.of_nat r)) (seq 0 256)) (seq 1 7) = true) as Hall
    by by vm_compute.
  rewrite forallb_forall in Hall. specialize (Hall (N.to_nat r) ltac:(apply in_seq; lia)).
  rewrite forallb_forall in Hall. specialize (Hall (N.to_nat b) ltac:(apply in_seq; lia)).
  rewrite !N2Nat.id in Hall. by apply N.eqb_eq.
Qed.

(** The comparison of [cidr_contains] on two lists of octets. *)
Definition prefix_agrees (prefix : N) (net cand : list N) : bool :=
  if negb (bool_decide (takeN (prefix / 8) net = takeN (prefix / 8) cand)) then false
  else if prefix mod 8 =? 0 then true
  else
    let mask := shl8 255 (8 - prefix mod 8) in
    N.land (nth (N.to_nat (prefix / 8)) net 0) mask =? N.land (nth (N.to_nat (prefix / 8)) cand 0) mask.

Lemma takeN_cons_8 p (b : N) (l : list N) : 8 ≤ p → takeN (p / 8) (b :: l) = b :: takeN ((p - 8) / 8) l.
Proof.
  intros Hp. replace (p / 8) with (1 + (p - 8) / 8).
  - unfold takeN. by replace (N.to_nat (1 + (p - 8) / 8)) with (S (N.to_nat ((p - 8) / 8))) by lia.
  - replace p with (1 * 8 + (p - 8)) at 2 by lia. by rewrite N.div_add_l.
Qed.
Lemma prefix_agrees_cons p a b l k :
  8 ≤ p → prefix_agrees p (a :: l) (b :: k) = bool_decide (a = b) && prefix_agrees (p - 8) l k.
Proof.
  intros Hp. unfold prefix_agrees. rewrite !takeN_cons_8 by done.
  assert (p / 8 = 1 + (p - 8) / 8 ∧ p mod 8 = (p - 8) mod 8) as [Hd Hm].
  { assert (p = (p - 8) + 1 * 8) as E by lia. rewrite E at 1 3.
    rewrite N.div_add, N.Div0.mod_add by done. split; [apply N.add_comm|done]. }
  rewrite <- Hm.
  replace (nth (N.to_nat (p / 8)) (a :: l) 0) with (nth (N.to_nat ((p - 8) / 8)) l 0)
    by (rewrite Hd; by replace (N.to_nat (1 + (p - 8) / 8)) with (S (N.to_nat ((p - 8) / 8))) by lia).
  replace (nth (N.to_nat (p / 8)) (b :: k) 0) with (nth (N.to_nat ((p - 8) / 8)) k 0)
    by (rewrite Hd; by replace (N.to_nat (1 + (p - 8) / 8)) with (S (N.to_nat ((p - 8) / 8))) by lia).
  destruct (decide (a = b)) as [->|Hab].
  - rewrite (bool_decide_eq_true_2 (b = b)) by done. cbn [andb].
    by rewrite (bool_decide_ext (b :: _ = b :: _) (takeN ((p - 8) / 8) l = takeN ((p - 8) / 8) k))
      by (split; [by intros [= E]|by intros ->]).
  - rewrite (bool_decide_eq_false_2 (a = b)) by done. by rewrite bool_decide_eq_false_2 by (by intros [= E _]).
Qed.

Lemma prefix_agrees_spec p net cand :
  byte_list net → byte_list cand → length net = length cand → p ≤ 8 * len net →
  prefix_agrees p net cand = true ↔
    N.shiftr (bytes_value net) (8 * len net - p) = N.shiftr (bytes_value cand) (8 * len net - p).
Proof.
  intros Hn. revert p cand. induction Hn as [|a l Ha Hl IH]; intros p [|b k] Hc He Hp; try done.
  { change (len []) with 0 in Hp. by replace p with 0 by lia. }
  apply Forall_cons in Hc as [Hb Hk]. injection He as He. assert (len l = len k) as Hlk by (unfold len; lia).
  rewrite len_cons in Hp |- *. destruct (N.le_gt_cases 8 p) as [H8|H8].
  - rewrite prefix_agrees_cons by done.
    replace (8 * (1 + len l) - p) with (8 * len l - (p - 8)) by lia.
    rewrite andb_true_iff, bool_decide_eq_true, (IH (p - 8) k) by (done || lia).
    set (s := 8 * len l - (p - 8)). rewrite !bytes_value_cons, <- Hlk, !N.shiftr_div_pow2.
    pose proof (bytes_value_lt l Hl) as Hvl. pose proof (bytes_value_lt k Hk) as Hvk. rewrite <- Hlk in Hvk.
    assert (256 ^ len l = 2 ^ (8 * len l - s) * 2 ^ s) as E.
    { change 256 with (2 ^ 8). rewrite <- N.pow_mul_r, <- N.pow_add_r. f_equal. lia. }
    assert (2 ^ s ≠ 0) as Hs by (by apply N.pow_nonzero).
    assert (∀ x v, (x * 256 ^ len l + v) / 2 ^ s = x * 2 ^ (8 * len l - s) + v / 2 ^ s) as Ed.
    { intros x v. by rewrite E, N.mul_assoc, N.div_add_l. }
    rewrite !Ed.
    assert (∀ v, v < 256 ^ len l → v / 2 ^ s < 2 ^ (8 * len l - s)) as Hd.
    { intros v Hv. apply N.Div0.div_lt_upper_bound. rewrite N.mul_comm, <- E. done. }
    pose proof (Hd _ Hvl). pose proof (Hd _ Hvk). split; [by intros [-> ->]|].
    intros Heq. apply (N.div_mod_unique (2 ^ (8 * len l - s))); [done|done|lia].
  - unfold prefix_agrees. rewrite N.div_small, N.mod_small by lia.
    change (takeN 0 ?x) with (@nil N). rewrite bool_decide_eq_true_2 by done. cbn [negb N.to_nat nth].
    replace (8 * (1 + len l) - p) with (8 * len l + (8 - p)) by lia.
    rewrite shift_head by (done || lia). rewrite Hlk. rewrite shift_head by (done || lia). destruct (N.eqb_spec p 0) as [->|H0].
    + split; [intros _|done]. change (8 - 0) with 8. rewrite !N.shiftr_div_pow2. by rewrite !N.div_small.
    + cbn zeta. change (N.to_nat 0) with O. cbn match. rewrite (masked a), (masked b) by lia. rewrite N.eqb_eq.
      assert (2 ^ (8 - p) ≠ 0) by (by apply N.pow_nonzero). split; [nia|by intros ->].
Qed.

Lemma octets_ok a : ip_ok a → byte_list (octets a) ∧ 8 * len (octets a) = ip_width a.
Proof.
  destruct a as [o|s]; cbn [ip_ok octets].
  - intros [Hl Hf]. split; [done|]. unfold len. by rewrite Hl.
  - intros [Hl Hf]. split.
    + clear Hl. induction Hf as [|n s Hn Hf IH]; [constructor|]. cbn.
      constructor; [apply N.Div0.div_lt_upper_bound; lia|]. constructor; [by apply N.mod_lt|done].
    + do 8 (destruct s as [|? s]; [done|]). destruct s; done.
Qed.
Lemma mapped_ok s c : ip_ok (V6 s) → to_ipv4_mapped s = Some c → ip_ok c ∧ is_ipv4 c = true.
Proof.
  intros [Hl Hf] E. do 8 (destruct s as [|?n s]; [done|]). destruct s; [|done].
  unfold to_ipv4_mapped in E.
  repeat match type of E with context [match ?x with _ => _ end] => destruct x; try done end.
  injection E as <-. repeat (apply Forall_cons in Hf as [? Hf]). split; [|done]. split; [done|].
  repeat constructor; first [by apply N.mod_lt|apply N.Div0.div_lt_upper_bound; lia].
Qed.

(** A block holds exactly the addresses whose leading bits are the
    network's. Read as one number of 32 or 128 bits, an address of the
    network's family, or an IPv4 address mapped into IPv6, is in the block
    exactly when its first [prefix] bits are the network's, for every prefix
    length; an address of the other family never is. *)
Theorem cidr_contains_is_prefix (network candidate : IpAddr) (prefix : N) :
  ip_ok network → ip_ok candidate → prefix ≤ ip_width network →
  cidr_contains network prefix candidate = true ↔ in_block network prefix candidate.
Proof.
  intros Hn Hc Hp. destruct (octets_ok network Hn) as [Hbn Hwn].
  assert (∀ c, ip_ok c → is_ipv4 network = is_ipv4 c →
    prefix_agrees prefix (octets network) (octets c) = true ↔
    N.shiftr (ip_value network) (ip_width network - prefix) = N.shiftr (ip_value c) (ip_width network - prefix)) as Hs.
  { intros c Hok Hf. destruct (octets_ok c Hok) as [Hbc Hwc]. unfold ip_value. rewrite <- Hwn.
    apply prefix_agrees_spec; [done|done| |lia]. unfold ip_width in *. rewrite <- Hf in Hwc. unfold len in *. lia. }
  unfold in_block. destruct network as [o|s], candidate as [o'|s']; cbn [as_family_of].
  - rewrite (Hs (V4 o') Hc eq_refl : prefix_agrees _ _ _ = true ↔ _). naive_solver.
  - unfold cidr_contains. destruct (to_ipv4_mapped s') as [c|] eqn:E; [|naive_solver].
    destruct (mapped_ok _ _ Hc E) as [Hok Hf]. rewrite Hf. cbn [is_ipv4 eqb negb].
    rewrite (Hs c Hok (eq_sym Hf) : prefix_agrees _ _ _ = true ↔ _). naive_solver.
  - split; [done|]. by intros (? & ? & _).
  - rewrite (Hs (V6 s') Hc eq_refl : prefix_agrees _ _ _ = true ↔ _). naive_solver.
Qed.

Lemma cidr_contains_is_prefix_witness :
  cidr_contains (V4 [192; 168; 1; 128]) 25 (V6 [0; 0; 0; 0; 0; 65535; 49320; 456]) = true
  ↔ in_block (V4 [192; 168; 1; 128]) 25 (V6 [0; 0; 0; 0; 0; 65535; 49320; 456]).
Proof.
  apply (cidr_contains_is_prefix (V4 [192; 168; 1; 128]) (V6 [0; 0; 0; 0; 0; 65535; 49320; 456]) 25).
  - split; [done|]. by repeat constructor.
  - split; [done|]. by repeat constructor.
  - by vm_compute.
Defined.
