(* ===== verification/SettingsStore.v ===== *)
(** * The settings store ([server/src/settings/store.rs], the rest of
      [settings/mod.rs])

    Values as JSON, cross-setting validation, and the store: the rows, the
    revision and the audit log in the database, and the snapshot that is
    published to the readers. The text of JSON, the clock's text and the file
    system's answer are parameters. A call to the database takes the next fault
    of an oracle; what other instances commit meanwhile is an argument. *)

From S2P Require Export Settings Net Crypto Json StateMonad.

Open Scope N_scope.
Open Scope hype_scope.

(** ** Values as JSON *)

Definition value_to_json (v : Value) : json :=
  match v with
  | VBool b => JBool b
  | VInt i => JNum i
  | VStr s => JStr s
  | VList l => JArr (JStr <$> l)
  end.

(** [as_i64] answers only for a number that fits. *)
Definition json_i64 (j : json) : option Z :=
  match jas_i64 j with
  | Some z => if bool_decide (-9223372036854775808 ≤ z < 9223372036854775808)%Z then Some z else None
  | None => None
  end.
Definition expects {A} (d : SettingDef) (what : string) (o : option A) : result text A :=
  match o with Some a => Ok a | None => Err (lit (d_name d) ++ lit " expects " ++ lit what) end.
(** [Value::from_json] *)
Definition value_from_json (d : SettingDef) (j : json) : result text Value :=
  match d_kind d with
  | KBool => expects d "a boolean" (VBool <$> jas_bool j)
  | KInt => expects d "an integer" (VInt <$> json_i64 j)
  | KStr | KEnum | KSecret => expects d "a string" (VStr <$> jas_str j)
  | KList =>
      expects d "an array of strings"
        (match j with JArr items => VList <$> mapM jas_str items | _ => None end)
  end.

(** [str::starts_with], [ends_with] a character *)
Definition starts_with (prefix : string) (t : text) : bool := bool_decide (is_Some (strip_lit prefix t)).
Definition ends_with (c : N) (t : text) : bool := bool_decide (last t = Some c).

(** [str::parse::<i64>]: a sign and digits. *)
Definition parse_i64 (t : text) : option Z :=
  let '(sign, t) :=
    match t with 43 :: (_ :: _) as t' => (1%Z, t') | 45 :: (_ :: _) as t' => ((-1)%Z, t') | _ => (1%Z, t) end in
  match digits 10 t with
  | ((_ :: _) as ds, []) =>
      let z := (sign * Z.of_N (digits_value 10 ds))%Z in
      if bool_decide (-9223372036854775808 ≤ z < 9223372036854775808)%Z then Some z else None
  | _ => None
  end.

(** ** Cross-setting validation *)

Abbreviation Values := (gmap string Value).
Definition cv_int (values : Values) (name : string) : Z :=
  match values !! name with
  | Some (VInt i) => i
  | _ => match find_def name with Some d => match d_default d with DInt i => i | _ => 0%Z end | None => 0%Z end
  end.
Definition cv_boolean (values : Values) (name : string) : bool := bool_decide (values !! name = Some (VBool true)).
Definition cv_text (values : Values) (name : string) : text :=
  match values !! name with Some (VStr s) => s | _ => [] end.
Definition cv_list (values : Values) (name : string) : list text :=
  match values !! name with Some (VList l) => l | _ => [] end.

Definition ALL_SCOPES : list string :=
  [DEVICES_READ; DEVICES_WRITE; TERMINALS_READ; TERMINALS_MIRROR; TERMINALS_INPUT; TERMINALS_CREATE;
   TERMINALS_WRITE; TERMINALS_PUBLISH].
Definition contains (scopes : list string) (s : text) : bool := existsb (λ a, bool_decide (s = lit a)) scopes.

(** An error when the condition holds. *)
Definition complain (b : bool) (message : text) : list text := if b then [message] else [].
Definition says (name : string) (words : string) (other : string) : text :=
  lit name ++ lit words ++ lit other.

Definition limit_errors (values : Values) : list text :=
  let int := cv_int values in
  complain (REPLAY_CAPACITY_HARD_MAX <? int keys.TERMINAL_REPLAY_CAPACITY_BYTES)%Z
    (lit keys.TERMINAL_REPLAY_CAPACITY_BYTES ++ lit " must not exceed the specification ceiling of 1500000 bytes")
  ++ complain (int keys.LIMITS_MAX_UNACKED_OUTPUT_BYTES <? int keys.PERSISTENCE_FLUSH_BYTES)%Z
       (says keys.PERSISTENCE_FLUSH_BYTES " must not exceed " keys.LIMITS_MAX_UNACKED_OUTPUT_BYTES)
  ++ complain (int keys.LIMITS_MAX_UNACKED_OUTPUT_BYTES <? int keys.LIMITS_MAX_OUTPUT_FRAME_BYTES)%Z
       (says keys.LIMITS_MAX_OUTPUT_FRAME_BYTES " must not exceed " keys.LIMITS_MAX_UNACKED_OUTPUT_BYTES)
  ++ complain (int keys.PERSISTENCE_MEMORY_PRESSURE_DIRTY_BYTES <? int keys.PERSISTENCE_FLUSH_BYTES)%Z
       (says keys.PERSISTENCE_MEMORY_PRESSURE_DIRTY_BYTES " must be at least " keys.PERSISTENCE_FLUSH_BYTES)
  ++ complain (int keys.PERSISTENCE_COMMIT_RETRY_MAX_MS <? int keys.PERSISTENCE_COMMIT_RETRY_INITIAL_MS)%Z
       (says keys.PERSISTENCE_COMMIT_RETRY_MAX_MS " must be at least " keys.PERSISTENCE_COMMIT_RETRY_INITIAL_MS)
  ++ complain (int keys.LIMITS_MAX_PAGE_SIZE <? int keys.LIMITS_DEFAULT_PAGE_SIZE)%Z
       (says keys.LIMITS_DEFAULT_PAGE_SIZE " must not exceed " keys.LIMITS_MAX_PAGE_SIZE)
  ++ complain (int keys.WEBSOCKET_HEARTBEAT_TIMEOUT_SECONDS <=? int keys.WEBSOCKET_HEARTBEAT_INTERVAL_SECONDS)%Z
       (says keys.WEBSOCKET_HEARTBEAT_TIMEOUT_SECONDS " must exceed " keys.WEBSOCKET_HEARTBEAT_INTERVAL_SECONDS).

Definition is_socket_addr (t : text) : bool := bool_decide (is_Some (socket_addr_parse t)).
(** [readable path] is [std::fs::metadata(path).is_ok()]. *)
Definition tls_path_errors (readable : text → bool) (values : Values) (key : string) : list text :=
  let path := cv_text values key in
  if is_empty path then [lit key ++ lit " is required when " ++ lit keys.SERVER_TLS_ENABLED ++ lit " is true"]
  else complain (negb (readable path)) (lit key ++ lit " points at an unreadable path: " ++ path).
Definition network_errors (readable : text → bool) (values : Values) : list text :=
  let listen := cv_text values keys.SERVER_LISTEN_ADDRESS in
  let health_listen := cv_text values keys.SERVER_HEALTH_LISTEN_ADDRESS in
  let origin := cv_text values keys.SERVER_PUBLIC_ORIGIN in
  complain (negb (is_socket_addr listen))
    (lit keys.SERVER_LISTEN_ADDRESS ++ lit " must be a socket address such as 0.0.0.0:8080")
  ++ (if is_empty health_listen then []
      else if negb (is_socket_addr health_listen) then
        [lit keys.SERVER_HEALTH_LISTEN_ADDRESS ++ lit " must be empty or a socket address"]
      else complain (bool_decide (health_listen = listen))
             (says keys.SERVER_HEALTH_LISTEN_ADDRESS " must differ from " keys.SERVER_LISTEN_ADDRESS))
  ++ complain (negb (starts_with "http://" origin || starts_with "https://" origin))
       (lit keys.SERVER_PUBLIC_ORIGIN ++ lit " must start with http:// or https://")
  ++ complain (ends_with 47 origin) (lit keys.SERVER_PUBLIC_ORIGIN ++ lit " must not end with a slash")
  ++ (if cv_boolean values keys.SERVER_TLS_ENABLED then
        tls_path_errors readable values keys.SERVER_TLS_CERTIFICATE_PATH
        ++ tls_path_errors readable values keys.SERVER_TLS_PRIVATE_KEY_PATH
      else [])
  ++ mjoin ((λ cidr, complain (negb (bool_decide (is_Some (parse_cidr cidr))))
               (lit keys.SECURITY_TRUSTED_PROXY_NETWORKS ++ lit " contains an invalid CIDR block: " ++ cidr))
            <$> cv_list values keys.SECURITY_TRUSTED_PROXY_NETWORKS).

Definition algorithm_errors (values : Values) : list text :=
  let algorithms := cv_list values keys.AUTH_SUPPORTED_KEY_ALGORITHMS in
  let key := lit keys.AUTH_SUPPORTED_KEY_ALGORITHMS in
  complain (is_empty algorithms) (key ++ lit " must list at least one algorithm")
  ++ mjoin ((λ a, complain (negb (bool_decide (a = lit ALGORITHM_ED25519)))
               (key ++ lit " contains an algorithm this build cannot verify: " ++ a)) <$> algorithms)
  ++ complain (negb (existsb (λ a, bool_decide (a = lit ALGORITHM_ED25519)) algorithms))
       (key ++ lit " must include ed25519, which the specification requires").

Definition scope_errors (values : Values) (setting : string) (allowed : list string) (description : string)
    : list text :=
  mjoin ((λ scope,
    if negb (contains ALL_SCOPES scope) then [lit setting ++ lit " contains an unknown scope: " ++ scope]
    else complain (negb (contains allowed scope))
           (lit setting ++ lit " must not include " ++ scope ++ lit ", which " ++ lit description
            ++ lit " may never hold")) <$> cv_list values setting).

Definition validate_combination (readable : text → bool) (values : Values) : result (list text) () :=
  let errors :=
    limit_errors values ++ network_errors readable values ++ algorithm_errors values
    ++ scope_errors values keys.AUTH_IDENTITY_TOKEN_SCOPES IDENTITY_ALLOWED "an identity"
    ++ scope_errors values keys.AUTH_DEVICE_TOKEN_SCOPES PUBLISHER_ALLOWED "a publisher-role device"
    ++ scope_errors values keys.AUTH_CLIENT_TOKEN_SCOPES CLIENT_ALLOWED "a client-role device" in
  if is_empty errors then Ok () else Err errors.

(** ** The tables *)

Record AuditRow := mkAuditRow {
  au_revision : Z;
  au_at : text;
  au_operator : text;
  au_setting : string;
  au_old_hash : option text;
  au_new_hash : option text;
  au_outcome : string;
  au_detail : option text;
}.
(** [schema_meta] is only the schema version here; a row of [settings] is its
    [value_json] and [updated_at]; [settings_state] has at most one row. *)
Record SettingsTables := mkSettingsTables {
  ss_version : option text;
  ss_rows : gmap string (text * text);
  ss_state : option (Z * text);
  ss_audit : list AuditRow;
}.
Definition put_rows (rows : gmap string (text * text)) (t : SettingsTables) : SettingsTables :=
  mkSettingsTables (ss_version t) rows (ss_state t) (ss_audit t).
Definition put_state (s : option (Z * text)) (t : SettingsTables) : SettingsTables :=
  mkSettingsTables (ss_version t) (ss_rows t) s (ss_audit t).
Definition put_version (v : option text) (t : SettingsTables) : SettingsTables :=
  mkSettingsTables v (ss_rows t) (ss_state t) (ss_audit t).
Definition put_audit (rows : list AuditRow) (t : SettingsTables) : SettingsTables :=
  mkSettingsTables (ss_version t) (ss_rows t) (ss_state t) rows.

Definition joined_with (sep : string) (parts : list text) : text :=
  match parts with [] => [] | p :: parts => p ++ mjoin ((λ q, lit sep ++ q) <$> parts) end.

Section store.
Context `{CryptoLib, JsonText} (readable : text → bool).

(** [Snapshot::string] *)
Definition sn_string (name : string) (sn : Snapshot) : text :=
  match snapshot_get name sn with VStr s => s | other => json_to_string (value_to_json other) end.
(** [resolve_secret]: [env] and [file] are what the environment and the file
    system answer; [Snapshot::secret]; [secret_form]. *)
Definition nonempty (t : text) : option text := if is_empty t then None else Some t.
Definition resolve_secret (env file : text → option text) (key : list byte) (raw : text) : option text :=
  if is_empty raw then None
  else
    match strip_lit "env:" raw with
    | Some var => env var ≫= nonempty
    | None =>
        match strip_lit "file:" raw with
        | Some path => (trim <$> file path) ≫= nonempty
        | None => open_from_string key raw
        end
    end.
Definition sn_secret (env file : text → option text) (key : list byte) (name : string) (sn : Snapshot) : option text :=
  resolve_secret env file key (sn_string name sn).
Definition secret_form (name : string) (sn : Snapshot) : string :=
  let raw := sn_string name sn in
  if is_empty raw then "unset"
  else if starts_with "env:" raw then "environment_reference"
  else if starts_with "file:" raw then "file_reference"
  else if starts_with "enc:v1:" raw then "encrypted_inline"
  else "invalid".

Definition audit_hash (v : Value) : text := sha256_hex (utf8 (json_to_string (value_to_json v))).
Definition hash_secret_for_audit (v : Value) : text :=
  match v with
  | VStr s => if is_empty s then sha256_hex (utf8 (lit "unset")) else sha256_hex (utf8 (lit "secret:" ++ s))
  | other => audit_hash other
  end.
Definition value_hash (d : SettingDef) (v : Value) : text :=
  if d_secret d then hash_secret_for_audit v else audit_hash v.

(** [read_rows]: the first row that cannot be read stops it. *)
Fixpoint read_row_list (rows : list (string * (text * text))) (out : Values) : ApiResult Values :=
  match rows with
  | [] => Ok out
  | (name, (raw, _)) :: rest =>
      match find_def name with
      | None => read_row_list rest out
      | Some d =>
          match json_from_str raw with
          | None => Err (api_internal (lit "stored setting " ++ lit name ++ lit " is not valid JSON"))
          | Some j =>
              match value_from_json d j with
              | Err e => Err (api_internal (lit "stored setting is invalid: " ++ e))
              | Ok v => read_row_list rest (<[name := v]> out)
              end
          end
      end
  end.
Definition read_rows (t : SettingsTables) : ApiResult Values := read_row_list (map_to_list (ss_rows t)) ∅.

(** [resolve] *)
Definition resolve (stored : Values) : Values :=
  foldl (λ out d, <[d_name d := default (default_value d) (stored !! d_name d)]> out) ∅ DEFS.

(** The per-value checks of [load]. *)
Fixpoint check_values (defs : list SettingDef) (values : Values) : ApiResult () :=
  match defs with
  | [] => Ok ()
  | d :: rest =>
      match validate_value d (default (VInt 0) (values !! d_name d)) with
      | Err e => Err (api_internal (lit "stored setting is invalid, refusing to serve: " ++ e))
      | Ok _ => check_values rest values
      end
  end.
Definition load (t : SettingsTables) : ApiResult Snapshot :=
  match ss_state t with
  | None => Err (api_internal (lit "cannot read settings revision"))
  | Some (revision, _) =>
      let? stored := read_rows t in
      let values := resolve stored in
      let? _ := check_values DEFS values in
      match validate_combination readable values with
      | Err errors =>
          Err (api_internal (lit "stored settings form an invalid combination, refusing to serve: "
                             ++ joined_with "; " errors))
      | Ok _ => Ok (mkSnapshot revision values)
      end
  end.

(** ** Patching *)

Record Staged := mkStaged {
  sg_name : string;
  sg_stored : Value;
  sg_previous : option Value;
  sg_hash : text;
}.

(** A secret is stored as a reference, or sealed under a fresh nonce. *)
Definition stored_form (key nonce : list byte) (d : SettingDef) (parsed : Value) : Value :=
  if d_secret d then
    match parsed with
    | VStr s =>
        if is_empty s then VStr []
        else if starts_with "env:" s || starts_with "file:" s || starts_with "enc:v1:" s then VStr s
        else VStr (seal_to_string key nonce s)
    | other => other
    end
  else parsed.

Record Draft := mkDraft {
  dr_effective : Values;
  dr_staged : list Staged;
  dr_errors : list text;
}.
Definition draft_error (e : text) (dr : Draft) : Draft :=
  mkDraft (dr_effective dr) (dr_staged dr) (dr_errors dr ++ [e]).
(** One update of the loop; [nonce] is what sealing this setting draws. *)
Definition stage_update (key : list byte) (nonce : string → list byte) (dr : Draft) (update : string * json) : Draft :=
  let '(name, j) := update in
  match find_def name with
  | None => draft_error (lit "unknown setting: " ++ lit name) dr
  | Some d =>
      match value_from_json d j with
      | Err e => draft_error e dr
      | Ok parsed =>
          match validate_value d parsed with
          | Err e => draft_error e dr
          | Ok _ =>
              mkDraft (<[name := parsed]> (dr_effective dr))
                (dr_staged dr ++ [mkStaged name (stored_form key (nonce name) d parsed) (dr_effective dr !! name)
                                    (value_hash d parsed)])
                (dr_errors dr)
          end
      end
  end.
Definition stage_updates (key : list byte) (nonce : string → list byte) (stored : Values)
    (updates : list (string * json)) : Draft :=
  foldl (stage_update key nonce) (mkDraft (resolve stored) [] []) updates.

Definition is_unchanged (sg : Staged) : bool :=
  match find_def (sg_name sg), sg_previous sg with
  | Some d, Some previous => bool_decide (value_hash d previous = sg_hash sg)
  | _, _ => false
  end.
Definition audit_applied (revision : Z) (at_ operator : text) (sg : Staged) : AuditRow :=
  mkAuditRow revision at_ operator (sg_name sg)
    (match find_def (sg_name sg), sg_previous sg with
     | Some d, Some previous => Some (value_hash d previous) | _, _ => None end)
    (Some (sg_hash sg)) "applied" (Some (lit (if is_unchanged sg then "value unchanged" else "value changed"))).
(** [UPDATE settings ... WHERE name]: a row that is not there is not made. *)
Definition write_staged (revision : Z) (at_ operator : text) (t : SettingsTables) (sg : Staged) : SettingsTables :=
  put_audit (ss_audit t ++ [audit_applied revision at_ operator sg])
    (put_rows (alter (λ _, (json_to_string (value_to_json (sg_stored sg)), at_)) (sg_name sg) (ss_rows t)) t).

Definition revision_conflict (expected current : Z) : ApiError :=
  api_new 409 "settings_revision_conflict"
    (lit "settings revision " ++ lit (pretty.pretty expected) ++ lit " is stale; current revision is "
     ++ lit (pretty.pretty current)).
Definition settings_invalid (errors : list text) : ApiError :=
  api_new 422 "settings_invalid" (joined_with "; " errors).

(** The transaction of [patch]. *)
Definition patch_txn (key : list byte) (nonce : string → list byte) (now operator : text) (expected : Z)
    (updates : list (string * json)) (t : SettingsTables) : ApiResult (list string * SettingsTables) :=
  match ss_state t with
  | None => Err (api_database_error (lit "Query returned no rows"))
  | Some (current, _) =>
      if negb (Z.eqb current expected) then Err (revision_conflict expected current)
      else
        let? stored := read_rows t in
        let dr := stage_updates key nonce stored updates in
        let errors :=
          if is_empty (dr_errors dr) then
            match validate_combination readable (dr_effective dr) with Err e => e | Ok _ => [] end
          else dr_errors dr in
        if negb (is_empty errors) then Err (settings_invalid errors)
        else
          let new_revision := (current + 1)%Z in
          let t := foldl (write_staged new_revision now operator) t (dr_staged dr) in
          Ok (sg_name <$> filter (λ sg, is_unchanged sg = false) (dr_staged dr),
              put_state (Some (new_revision, now)) t)
  end.

(** ** The store *)

Record Store := mkStore {
  sr_tables : SettingsTables;
  sr_snapshot : Snapshot;
  sr_faults : list (option ApiError);
}.
Definition put_tables (t : SettingsTables) (s : Store) : Store := mkStore t (sr_snapshot s) (sr_faults s).
(** [tx.send_replace] *)
Definition publish (sn : Snapshot) (s : Store) : Store := mkStore (sr_tables s) sn (sr_faults s).

(** The next call to the database: [self.db.conn()], or what runs on it. *)
Definition next_fault : StM Store (option ApiError) := λ s,
  (mjoin (head (sr_faults s)), mkStore (sr_tables s) (sr_snapshot s) (tail (sr_faults s))).
Definition run_db {A} (f : SettingsTables → ApiResult (A * SettingsTables)) : StM Store (ApiResult A) := λ s,
  match f (sr_tables s) with Ok (a, t) => (Ok a, put_tables t s) | Err e => (Err e, s) end.
Definition on_db {A} (f : SettingsTables → ApiResult (A * SettingsTables)) : StM Store (ApiResult A) :=
  fault ← next_fault;
  match fault with Some e => mret (Err e) | None => run_db f end.
(** What other instances of the server do to the tables. *)
Definition interfere (others : SettingsTables → SettingsTables) : StM Store () :=
  st_modify (λ s, put_tables (others (sr_tables s)) s).

Definition rejected_row (revision : Z) (at_ operator : text) (detail : text) (name : string) : AuditRow :=
  mkAuditRow revision at_ operator name None None "rejected" (Some detail).
(** [record_rejection]: a row is its own statement, the first failure stops. *)
Fixpoint record_rows (rows : list AuditRow) : StM Store () :=
  match rows with
  | [] => mret ()
  | row :: rest =>
      written ← on_db (λ t, Ok ((), put_audit (ss_audit t ++ [row]) t));
      match written with Ok _ => record_rows rest | Err _ => mret () end
  end.
Definition record_rejection (now operator : text) (names : list string) (detail : text) : StM Store () :=
  conn ← on_db (λ t, Ok ((), t));
  match conn with
  | Err _ => mret ()
  | Ok _ =>
      revision ← on_db (λ t,
        match ss_state t with Some (r, _) => Ok (r, t)
        | None => Err (api_database_error (lit "Query returned no rows")) end);
      match revision with
      | Err _ => mret ()
      | Ok revision => record_rows (rejected_row revision now operator detail <$> names)
      end
  end.

(** [SettingsStore::patch]; the fields of [PatchOutcome] are a pair. *)
Definition patch (key : list byte) (nonce : string → list byte) (now operator : text) (expected : Z)
    (updates : list (string * json)) (others : SettingsTables → SettingsTables)
    : StM Store (ApiResult (Snapshot * list string)) :=
  if is_empty updates then mret (Err (api_invalid (lit "no settings supplied")))
  else
    conn ← on_db (λ t, Ok ((), t));
    match conn with
    | Err e => mret (Err e)
    | Ok _ =>
        result ← on_db (patch_txn key nonce now operator expected updates);
        _ ← interfere others;
        match result with
        | Ok changed =>
            fresh ← on_db (λ t, match load t with Ok sn => Ok (sn, t) | Err e => Err e end);
            match fresh with
            | Err e => mret (Err e)
            | Ok fresh => _ ← st_modify (publish fresh); mret (Ok (fresh, changed))
            end
        | Err err => _ ← record_rejection now operator updates.*1 (ae_message err); mret (Err err)
        end
    end.

(** [SettingsStore::reload] and [verify_loadable] *)
Definition reload : StM Store (ApiResult Snapshot) :=
  conn ← on_db (λ t, Ok ((), t));
  match conn with
  | Err e => mret (Err e)
  | Ok _ =>
      fresh ← on_db (λ t, match load t with Ok sn => Ok (sn, t) | Err e => Err e end);
      match fresh with
      | Err e => mret (Err e)
      | Ok fresh =>
          current ← st_gets sr_snapshot;
          _ ← (if Z.eqb (sn_revision fresh) (sn_revision current) then mret () else st_modify (publish fresh));
          mret (Ok fresh)
      end
  end.
Definition verify_loadable : StM Store (ApiResult Z) :=
  conn ← on_db (λ t, Ok ((), t));
  match conn with
  | Err e => mret (Err e)
  | Ok _ => on_db (λ t, match load t with Ok sn => Ok (sn_revision sn, t) | Err e => Err e end)
  end.
(** A turn of the propagation watcher. *)
Definition propagate : StM Store () :=
  conn ← on_db (λ t, Ok ((), t));
  match conn with
  | Err _ => mret ()
  | Ok _ =>
      committed ← on_db (λ t,
        match ss_state t with Some (r, _) => Ok (r, t)
        | None => Err (api_database_error (lit "Query returned no rows")) end);
      match committed with
      | Err _ => mret ()
      | Ok committed =>
          current ← st_gets sr_snapshot;
          if Z.eqb committed (sn_revision current) then mret () else _ ← reload; mret ()
      end
  end.

(** ** Seeding *)

Definition SETTINGS_SCHEMA_VERSION : Z := 1.
(** [SettingsStore::initialize]: a default for every setting without a row. *)
Definition seed_row (now : text) (rows : gmap string (text * text)) (d : SettingDef) : gmap string (text * text) :=
  match rows !! d_name d with
  | Some _ => rows
  | None => <[d_name d := (json_to_string (value_to_json (default_value d)), now)]> rows
  end.
Definition declared (name : string) : Prop := name ∈ d_name <$> DEFS.

(** [seed_operator_token]; the token written to the file when it is generated,
    from its random bytes. *)
Definition operator_token_set (t : SettingsTables) : bool :=
  match ss_rows t !! keys.AUTH_OPERATOR_TOKEN_HASH with
  | Some (raw, _) => from_option (λ s, negb (is_empty s)) false (json_from_str raw ≫= jas_str)
  | None => false
  end.
Definition seed_operator_token (key nonce random : list byte) (now : text) (seed : option text) (t : SettingsTables)
    : option text * SettingsTables :=
  if operator_token_set t then (None, t)
  else
    let token := match seed with Some t => t | None => b64_encode random end in
    let stored := seal_to_string key nonce (hash_operator_token token) in
    (match seed with Some _ => None | None => Some token end,
     put_rows (alter (λ _, (json_to_string (JStr stored), now)) keys.AUTH_OPERATOR_TOKEN_HASH (ss_rows t)) t).

Definition initialize_txn (key nonce random : list byte) (now : text) (seed : option text)
    (t : SettingsTables) : ApiResult (option text * SettingsTables) :=
  let? t :=
    match ss_version t with
    | None => Ok (put_version (Some (lit (pretty.pretty SETTINGS_SCHEMA_VERSION))) t)
    | Some v =>
        let parsed := default (-1)%Z (parse_i64 v) in
        if Z.eqb parsed SETTINGS_SCHEMA_VERSION then Ok t
        else Err (api_internal (lit "database settings schema version " ++ lit (pretty.pretty parsed)
                                ++ lit " is not supported by this build (expected "
                                ++ lit (pretty.pretty SETTINGS_SCHEMA_VERSION) ++ lit ")"))
    end in
  let t := put_rows (foldl (seed_row now) (ss_rows t) DEFS) t in
  let t := put_rows (filter (λ '(name, _), declared name) (ss_rows t)) t in
  let '(token, t) := seed_operator_token key nonce random now seed t in
  Ok (token, put_state (match ss_state t with Some s => Some s | None => Some (1%Z, now) end) t).
(** The transaction, then the first snapshot: the store, and the token that is
    written to the operator's file. *)
Definition initialize (key nonce random : list byte) (now : text) (seed : option text)
    (faults : list (option ApiError)) (t : SettingsTables) : ApiResult (Store * option text) :=
  let call (k : nat) : ApiResult () := match mjoin (nth_error faults k) with Some e => Err e | None => Ok () end in
  let? _ := call 0%nat in
  let? _ := call 1%nat in
  let? (token, t) := initialize_txn key nonce random now seed t in
  let? _ := call 2%nat in
  let? sn := load t in
  Ok (mkStore t sn (drop 3 faults), token).
End store.
