(* ===== verification/StoreProps.v ===== *)
(** * Properties of the settings store

    What is served is always typed, in range and a valid combination; a patch
    applies entirely or not at all; an accepted patch can be loaded again. *)

From S2P Require Export SettingsStore CryptoProps.

Open Scope N_scope.
Open Scope hype_scope.

Lemma res_bind_ok {E A B} (r : result E A) (k : A → result E B) b :
  res_bind r k = Ok b → ∃ a, r = Ok a ∧ k a = Ok b.
Proof. destruct r; [eauto|done]. Qed.

Lemma Forall2_pick {A B} (P : A → B → Prop) l k x : Forall2 P l k → x ∈ l → ∃ y, y ∈ k ∧ P x y.
Proof.
  induction 1 as [|a b l k Hab _ IH]; [by intros ?%elem_of_nil|]. intros [->|Hx]%elem_of_cons.
  - exists b. split; [left|done].
  - destruct (IH Hx) as (y & ? & ?). exists y. split; [by right|done].
Qed.

(** ** Snapshots *)

(** The type of a value. *)
Definition has_kind (k : Kind) (v : Value) : Prop :=
  match k, v with
  | KBool, VBool _ | KInt, VInt _ | KStr, VStr _ | KEnum, VStr _ | KList, VList _ | KSecret, VStr _ => True
  | _, _ => False
  end.
Lemma validated_kind d v : validate_value d v = Ok () → has_kind (d_kind d) v.
Proof. unfold validate_value. by destruct (d_kind d), v. Qed.

(** Every declared setting has a value that passes its declaration, and the
    values pass together. *)
Record values_sound (readable : text → bool) (values : Values) : Prop := mkValuesSound {
  vs_each d : d ∈ DEFS → ∃ v, values !! d_name d = Some v ∧ validate_value d v = Ok ();
  vs_together : validate_combination readable values = Ok ();
}.

Lemma find_def_in d : d ∈ DEFS → find_def (d_name d) = Some d.
Proof.
  intros Hin. pose proof (proj1 (Forall_forall _ _) defs_ok d Hin) as Hok. unfold def_ok in Hok.
  apply andb_prop in Hok as [[H1 _]%andb_prop _]. by apply bool_decide_eq_true in H1.
Qed.
Lemma default_valid d : d ∈ DEFS → validate_value d (default_value d) = Ok ().
Proof.
  intros Hin. pose proof (proj1 (Forall_forall _ _) defs_ok d Hin) as Hok. unfold def_ok in Hok.
  apply andb_prop in Hok as [[_ H2]%andb_prop _]. by apply bool_decide_eq_true in H2.
Qed.
Lemma same_name d d' : d ∈ DEFS → d' ∈ DEFS → d_name d = d_name d' → d = d'.
Proof. intros H%find_def_in H'%find_def_in E. rewrite E in H. congruence. Qed.

Lemma resolve_lookup stored d :
  d ∈ DEFS → resolve stored !! d_name d = Some (default (default_value d) (stored !! d_name d)).
Proof.
  unfold resolve. intros Hin.
  assert (∀ l (out : Values), d ∉ l → (∀ d', d' ∈ l → d' ∈ DEFS) →
    foldl (λ out d', <[d_name d' := default (default_value d') (stored !! d_name d')]> out) out l !! d_name d
    = out !! d_name d) as Hout.
  { induction l as [|d' l IH]; intros out Hd Hl; [done|]. cbn [foldl]. apply not_elem_of_cons in Hd as [Hd Hdl].
    rewrite IH; [|done|intros; apply Hl; by right]. apply lookup_insert_ne. intros E. apply Hd. symmetry.
    apply same_name; [apply Hl; left|done|done]. }
  assert (∀ l (out : Values), d ∈ l → (∀ d', d' ∈ l → d' ∈ DEFS) →
    foldl (λ out d', <[d_name d' := default (default_value d') (stored !! d_name d')]> out) out l !! d_name d
    = Some (default (default_value d) (stored !! d_name d))) as Hi; [|by apply Hi].
  induction l as [|d' l IH]; intros out Hd Hl; [by apply elem_of_nil in Hd|]. cbn [foldl].
  destruct (decide (d ∈ l)) as [Hdl|Hdl]; [apply IH; [done|intros; apply Hl; by right]|].
  apply elem_of_cons in Hd as [->|]; [|done].
  rewrite Hout; [|done|intros; apply Hl; by right]. apply lookup_insert_eq.
Qed.

Lemma resolve_undeclared stored name : find_def name = None → resolve stored !! name = None.
Proof.
  unfold resolve. intros Hn.
  assert (∀ l (out : Values), (∀ d, d ∈ l → d ∈ DEFS) →
    foldl (λ out d, <[d_name d := default (default_value d) (stored !! d_name d)]> out) out l !! name = out !! name)
    as Hout; [|by rewrite Hout].
  induction l as [|d l IH]; intros out Hl; [done|]. cbn [foldl]. rewrite IH by (intros; apply Hl; by right).
  apply lookup_insert_ne. intros <-. by rewrite find_def_in in Hn by (apply Hl; left).
Qed.

Lemma check_values_spec defs values :
  check_values defs values = Ok () ↔
    ∀ d, d ∈ defs → validate_value d (default (VInt 0) (values !! d_name d)) = Ok ().
Proof.
  induction defs as [|d defs IH]; cbn [check_values].
  - split; [|done]. intros _ d ?%elem_of_nil. done.
  - destruct (validate_value d _) as [[]|e] eqn:E.
    + rewrite IH. split.
      * intros Hd d' [->|]%elem_of_cons; auto.
      * intros Hd d' ?. apply Hd. by right.
    + split; [done|]. intros Hd. rewrite (Hd d) in E by left. done.
Qed.

(** The cross-setting rules read no secret. *)
Lemma combination_agree readable v1 v2 :
  (∀ name, name ≠ keys.AUTH_OPERATOR_TOKEN_HASH → v1 !! name = v2 !! name) →
  validate_combination readable v1 = validate_combination readable v2.
Proof.
  intros Ha.
  assert (∀ name, name ≠ keys.AUTH_OPERATOR_TOKEN_HASH → cv_int v1 name = cv_int v2 name) as Hi
    by (intros name Hn; unfold cv_int; by rewrite Ha).
  assert (∀ name, name ≠ keys.AUTH_OPERATOR_TOKEN_HASH → cv_text v1 name = cv_text v2 name) as Ht
    by (intros name Hn; unfold cv_text; by rewrite Ha).
  assert (∀ name, name ≠ keys.AUTH_OPERATOR_TOKEN_HASH → cv_list v1 name = cv_list v2 name) as Hl
    by (intros name Hn; unfold cv_list; by rewrite Ha).
  assert (∀ name, name ≠ keys.AUTH_OPERATOR_TOKEN_HASH → cv_boolean v1 name = cv_boolean v2 name) as Hb
    by (intros name Hn; unfold cv_boolean; by rewrite Ha).
  unfold validate_combination, limit_errors, network_errors, algorithm_errors, scope_errors, tls_path_errors.
  cbv zeta. rewrite !Hi, !Ht, !Hl, Hb by done. reflexivity.
Qed.

Lemma combination_errors readable values e : validate_combination readable values = Err e → e ≠ [].
Proof. unfold validate_combination. destruct (is_empty _) eqn:E; [done|]. intros [= <-] Hn. by rewrite Hn in E. Qed.

(** What valid values may grant each kind of principal. *)
Lemma scope_errors_nil values setting allowed description :
  scope_errors values setting allowed description = [] →
  ∀ scope, scope ∈ cv_list values setting → contains allowed scope = true.
Proof.
  unfold scope_errors. induction (cv_list values setting) as [|s l IH]; [by intros _ scope ?%elem_of_nil|].
  rewrite fmap_cons. intros E scope. apply app_nil in E as [E1 E2].
  destruct (negb (contains ALL_SCOPES s)); [done|]. destruct (contains allowed s) eqn:Ec; [|done].
  intros [->|Hs]%elem_of_cons; [done|by apply IH].
Qed.
Lemma valid_scopes readable values :
  validate_combination readable values = Ok () →
  (∀ s, s ∈ cv_list values keys.AUTH_IDENTITY_TOKEN_SCOPES → contains IDENTITY_ALLOWED s = true)
  ∧ (∀ s, s ∈ cv_list values keys.AUTH_DEVICE_TOKEN_SCOPES → contains PUBLISHER_ALLOWED s = true)
  ∧ (∀ s, s ∈ cv_list values keys.AUTH_CLIENT_TOKEN_SCOPES → contains CLIENT_ALLOWED s = true).
Proof.
  unfold validate_combination. destruct (is_empty _) eqn:E; [|done]. intros _.
  destruct (limit_errors values ++ _) eqn:E'; [|done].
  repeat match goal with H : _ ++ _ = [] |- _ => apply app_nil in H as [? ?] end.
  split_and!; eapply scope_errors_nil; eassumption.
Qed.

#[local] Opaque resolve DEFS validate_combination.

Section store.
Context `{CryptoLib, JsonText} (readable : text → bool).
Abbreviation load := (load readable).
Abbreviation sound := (values_sound readable).

Lemma load_spec t sn :
  load t = Ok sn ↔
    ∃ revision at_ stored, ss_state t = Some (revision, at_) ∧ read_rows t = Ok stored
                       ∧ sn = mkSnapshot revision (resolve stored) ∧ sound (resolve stored).
Proof.
  unfold SettingsStore.load. split.
  - destruct (ss_state t) as [[revision at_]|]; [|done]. destruct (read_rows t) as [stored|]; [|done]. cbn [res_bind].
    destruct (check_values DEFS (resolve stored)) as [[]|] eqn:Ec; [|done]. cbn [res_bind].
    destruct (validate_combination readable (resolve stored)) as [[]|] eqn:Ev; [|done]. intros [= <-].
    exists revision, at_, stored. do 3 (split; [reflexivity|]). constructor; [|exact Ev]. intros d Hd. eexists.
    split; [by apply resolve_lookup|]. rewrite check_values_spec in Ec. specialize (Ec d Hd).
    by rewrite resolve_lookup in Ec.
  - intros (revision & at_ & stored & -> & -> & -> & [He Ht]). cbn [res_bind].
    assert (check_values DEFS (resolve stored) = Ok ()) as ->.
    { apply check_values_spec. intros d Hd. destruct (He d Hd) as (v & -> & Hv). done. }
    cbn [res_bind]. by rewrite Ht.
Qed.

(** ** What is served *)

(** Everything that happens to a store once it is initialised. *)
Inductive StoreOp :=
| OpPatch (key : list byte) (nonce : string → list byte) (now operator : text) (expected : Z)
    (updates : list (string * json)) (others : SettingsTables → SettingsTables)
| OpReload
| OpPropagate
| OpOthers (others : SettingsTables → SettingsTables).
Definition store_step (s : Store) (op : StoreOp) : Store :=
  match op with
  | OpPatch key nonce now operator expected updates others =>
      (patch readable key nonce now operator expected updates others s).2
  | OpReload => (reload readable s).2
  | OpPropagate => (propagate readable s).2
  | OpOthers others => (interfere others s).2
  end.

Definition serves_sound (s : Store) : Prop := sound (sn_values (sr_snapshot s)).

(** A computation that publishes nothing but what [load] gave. *)
Definition keeps_sound {A} (m : StM Store A) : Prop := ∀ s r s', m s = (r, s') → serves_sound s → serves_sound s'.
Lemma stays_ret {A} (a : A) : keeps_sound (mret a).
Proof. by intros s r s' [= _ <-]. Qed.
Lemma stays_bind {A B} (m : StM Store A) (k : A → StM Store B) :
  keeps_sound m → (∀ a, keeps_sound (k a)) → keeps_sound (m ≫= k).
Proof.
  intros Hm Hk s r s'. rewrite st_bind. destruct (m s) as [a s1] eqn:E. intros E' Hs.
  eapply Hk; [done|]. by eapply Hm.
Qed.
Lemma on_db_snapshot {A} (f : SettingsTables → ApiResult (A * SettingsTables)) s r s' :
  on_db f s = (r, s') → sr_snapshot s' = sr_snapshot s.
Proof.
  unfold on_db, run_db. rewrite st_bind. unfold next_fault. destruct (mjoin (head (sr_faults s))).
  - by intros [= _ <-].
  - cbn. destruct (f (sr_tables s)) as [[a t]|e]; by intros [= _ <-].
Qed.
Lemma keeps_on_db {A} (f : SettingsTables → ApiResult (A * SettingsTables)) : keeps_sound (on_db f).
Proof. intros s r s' E. unfold serves_sound. by rewrite (on_db_snapshot f s r s' E). Qed.
Lemma stays_gets {A} (f : Store → A) : keeps_sound (st_gets f).
Proof. by intros s r s' [= _ <-]. Qed.
Lemma keeps_interfere others : keeps_sound (interfere others).
Proof. by intros s r s' [= _ <-]. Qed.
Lemma keeps_publish sn : sound (sn_values sn) → keeps_sound (st_modify (publish sn)).
Proof. by intros Hsn s r s' [= _ <-] _. Qed.

(** What [on_db] answers comes from its query. *)
Lemma on_db_ok {A} (f : SettingsTables → ApiResult (A * SettingsTables)) s a s' :
  on_db f s = (Ok a, s') → f (sr_tables s) = Ok (a, sr_tables s').
Proof.
  unfold on_db, run_db. rewrite st_bind. unfold next_fault. destruct (mjoin (head (sr_faults s))); [done|].
  cbn. destruct (f (sr_tables s)) as [[a' t]|e]; by intros [= -> <-].
Qed.
Lemma keeps_load_then {B} (k : ApiResult Snapshot → StM Store B) :
  (∀ sn, sound (sn_values sn) → keeps_sound (k (Ok sn))) → (∀ e, keeps_sound (k (Err e))) →
  keeps_sound (on_db (λ t, match load t with Ok sn => Ok (sn, t) | Err e => Err e end) ≫= k).
Proof.
  intros Hok Herr s r s'. rewrite st_bind.
  destruct (on_db _ s) as [[sn|e] s1] eqn:E; intros E' Hs; pose proof (keeps_on_db _ _ _ _ E Hs).
  - pose proof (on_db_ok _ _ _ _ E) as Hl. cbn in Hl. destruct (load (sr_tables s)) as [sn'|] eqn:El; [|done].
    injection Hl as -> _. apply load_spec in El as (? & ? & ? & _ & _ & -> & Hv).
    by eapply (Hok (mkSnapshot _ _)).
  - by eapply Herr.
Qed.

Create HintDb keeps.
#[local] Hint Resolve stays_ret keeps_on_db stays_gets keeps_interfere keeps_publish : keeps.
Ltac solve_keeps :=
  repeat first
    [ progress cbn beta match
    | solve [auto with keeps]
    | apply keeps_load_then; [intros ? ?|intros ?]
    | apply stays_bind; [|intros ?]
    | match goal with |- context [match ?x with _ => _ end] => destruct x eqn:? end ].

Lemma keeps_record_rows rows : keeps_sound (record_rows rows).
Proof. induction rows as [|row rows IH]; cbn [record_rows]; [apply stays_ret|]. solve_keeps. Qed.
#[local] Hint Resolve keeps_record_rows : keeps.
Lemma keeps_record_rejection now operator names detail : keeps_sound (record_rejection now operator names detail).
Proof. unfold record_rejection. solve_keeps. Qed.
#[local] Hint Resolve keeps_record_rejection : keeps.
Lemma keeps_reload : keeps_sound (reload readable).
Proof. unfold reload. solve_keeps. Qed.
#[local] Hint Resolve keeps_reload : keeps.
Lemma keeps_patch key nonce now operator expected updates others :
  keeps_sound (patch readable key nonce now operator expected updates others).
Proof. unfold patch. solve_keeps. Qed.
Lemma keeps_propagate : keeps_sound (propagate readable).
Proof. unfold propagate. solve_keeps. Qed.
Lemma keeps_second {A} (m : StM Store A) s : keeps_sound m → serves_sound s → serves_sound (m s).2.
Proof. intros Hm. destruct (m s) as [r s'] eqn:E. by eapply Hm. Qed.
Lemma keeps_step s op : serves_sound s → serves_sound (store_step s op).
Proof.
  destruct op; cbn [store_step]; apply keeps_second.
  - apply keeps_patch.
  - apply keeps_reload.
  - apply keeps_propagate.
  - apply keeps_interfere.
Qed.
Lemma keeps_run ops s : serves_sound s → serves_sound (foldl store_step s ops).
Proof. revert s. induction ops as [|op ops IH]; intros s Hs; [done|]. apply IH. by apply keeps_step. Qed.

Lemma initialize_sound key nonce random now seed faults t s token :
  initialize readable key nonce random now seed faults t = Ok (s, token) → serves_sound s.
Proof.
  unfold initialize. intros ([] & _ & E)%res_bind_ok. apply res_bind_ok in E as ([] & _ & E).
  apply res_bind_ok in E as ([tok t'] & _ & E). apply res_bind_ok in E as ([] & _ & E).
  apply res_bind_ok in E as (sn & E & [= <- <-]).
  apply load_spec in E as (? & ? & ? & _ & _ & -> & Hv). exact Hv.
Qed.

Lemma sound_typed sn d :
  sound (sn_values sn) → d ∈ DEFS → has_kind (d_kind d) (snapshot_get (d_name d) sn)
                                    ∧ validate_value d (snapshot_get (d_name d) sn) = Ok ().
Proof.
  intros [He _] Hd. destruct (He d Hd) as (v & Hv & Hok). unfold snapshot_get. rewrite Hv.
  split; [by eapply validated_kind|done].
Qed.

(** C21: what is served is always well typed. From a first start on any stored
    tables, through any patches, reloads and revisions committed by other
    instances, any of them failing, the published snapshot gives every declared
    setting a value of its declared type that passes its own bounds, and the
    values pass the cross-setting rules together. *)
Theorem served_settings_typed key nonce random now seed faults t s token (ops : list StoreOp) :
  initialize readable key nonce random now seed faults t = Ok (s, token) →
  let sn := sr_snapshot (foldl store_step s ops) in
  (∀ d, d ∈ DEFS → has_kind (d_kind d) (snapshot_get (d_name d) sn)
                   ∧ validate_value d (snapshot_get (d_name d) sn) = Ok ())
  ∧ validate_combination readable (sn_values sn) = Ok ().
Proof.
  intros Hi sn. pose proof (keeps_run ops s (initialize_sound _ _ _ _ _ _ _ _ _ Hi)) as Hs.
  split; [intros d; by apply sound_typed|apply Hs].
Qed.

(** ** A patch applies entirely or not at all *)

(** What an accepted update stages. *)
Definition update_staged (key : list byte) (nonce : string → list byte) (update : string * json) (sg : Staged) : Prop :=
  ∃ d parsed, find_def update.1 = Some d ∧ value_from_json d update.2 = Ok parsed
              ∧ validate_value d parsed = Ok ()
              ∧ sg_name sg = update.1 ∧ sg_stored sg = stored_form key (nonce update.1) d parsed.
Definition parsed_of (update : string * json) : option Value :=
  d ← find_def update.1; match value_from_json d update.2 with Ok v => Some v | Err _ => None end.

Lemma stage_update_spec key nonce dr update :
  dr_errors (stage_update key nonce dr update) = [] →
  dr_errors dr = [] ∧ ∃ sg v, dr_staged (stage_update key nonce dr update) = dr_staged dr ++ [sg]
    ∧ update_staged key nonce update sg ∧ parsed_of update = Some v
    ∧ dr_effective (stage_update key nonce dr update) = <[update.1 := v]> (dr_effective dr).
Proof.
  destruct update as [name j]. unfold stage_update, update_staged, parsed_of, draft_error. cbn [fst snd].
  destruct (find_def name) as [d|] eqn:Ed; [|by intros []%app_nil].
  destruct (value_from_json d j) as [v|] eqn:Ej; [|by intros []%app_nil].
  destruct (validate_value d v) as [[]|] eqn:Ev; [|by intros []%app_nil].
  cbn [dr_errors dr_staged dr_effective]. intros Herr. split; [done|]. eexists _, v.
  split; [reflexivity|]. split; [|split; [|reflexivity]].
  - exists d, v. done.
  - cbn. by rewrite Ej.
Qed.

Lemma stage_updates_spec key nonce updates dr :
  let dr' := foldl (stage_update key nonce) dr updates in
  dr_errors dr' = [] →
  dr_errors dr = [] ∧ ∃ staged, dr_staged dr' = dr_staged dr ++ staged
    ∧ Forall2 (update_staged key nonce) updates staged
    ∧ (∀ name, name ∉ updates.*1 → dr_effective dr' !! name = dr_effective dr !! name)
    ∧ (NoDup updates.*1 → ∀ u, u ∈ updates → dr_effective dr' !! u.1 = parsed_of u).
Proof.
  revert dr. induction updates as [|u updates IH]; intros dr dr' Herr; subst dr'; cbn [foldl] in *.
  { split; [done|]. exists []. rewrite app_nil_r. split_and!; [done|constructor|done|].
    by intros _ u ?%elem_of_nil. }
  destruct (IH _ Herr) as (H1 & staged & Hst & Hf & Hout & Hin).
  destruct (stage_update_spec _ _ _ _ H1) as (Hz & sg & v & Hsg & Hu & Hv & He). split; [done|].
  exists (sg :: staged). rewrite Hst, Hsg, <- app_assoc. split_and!; [done|by constructor| |].
  - intros name Hn. rewrite fmap_cons, not_elem_of_cons in Hn. destruct Hn as [Hn1 Hn2].
    rewrite Hout, He by done. by apply lookup_insert_ne.
  - rewrite fmap_cons. intros [Hnu Hnd]%NoDup_cons u' [->|Hu']%elem_of_cons; [|by apply Hin].
    rewrite Hout, He, Hv by done. apply lookup_insert_eq.
Qed.

(** What the statements of the transaction leave in the rows. *)
Lemma write_staged_spec revision at_ operator staged t :
  let t' := foldl (write_staged revision at_ operator) t staged in
  ss_version t' = ss_version t ∧ ss_state t' = ss_state t
  ∧ ss_audit t' = ss_audit t ++ (audit_applied revision at_ operator <$> staged)
  ∧ (∀ name, name ∉ sg_name <$> staged → ss_rows t' !! name = ss_rows t !! name)
  ∧ (NoDup (sg_name <$> staged) → ∀ sg, sg ∈ staged →
       ss_rows t' !! sg_name sg = (λ _, (json_to_string (value_to_json (sg_stored sg)), at_)) <$> ss_rows t !! sg_name sg).
Proof.
  revert t. induction staged as [|sg staged IH]; intros t t'; subst t'; cbn [foldl].
  { rewrite app_nil_r. split_and!; [done..|]. by intros _ sg ?%elem_of_nil. }
  destruct (IH (write_staged revision at_ operator t sg)) as (H1 & H2 & H3 & H4 & H5).
  rewrite H1, H2, H3. cbn [write_staged put_audit put_rows ss_version ss_state ss_audit ss_rows].
  rewrite <- app_assoc. split_and!; [done..| |].
  - intros name Hn. rewrite fmap_cons, not_elem_of_cons in Hn. destruct Hn as [Hn1 Hn2].
    rewrite H4 by done. by apply lookup_alter_ne.
  - rewrite fmap_cons. intros [Hns Hnd]%NoDup_cons sg' [->|Hsg]%elem_of_cons.
    + rewrite H4 by done. apply lookup_alter_eq.
    + rewrite H5 by done. cbn. rewrite lookup_alter_ne; [done|]. intros E. apply Hns. rewrite E.
      apply list_elem_of_fmap. eauto.
Qed.

(** An applied patch: one revision, every update stored in its form, nothing
    else changed, and an audit row for each. *)
Record patch_applied (key : list byte) (nonce : string → list byte) (now operator : text) (expected : Z)
    (updates : list (string * json)) (t t' : SettingsTables) : Prop := mkPatchApplied {
  pa_revision : fst <$> ss_state t = Some expected ∧ ss_state t' = Some ((expected + 1)%Z, now);
  pa_version : ss_version t' = ss_version t;
  pa_valid : Forall (λ u, ∃ d v, find_def u.1 = Some d ∧ value_from_json d u.2 = Ok v ∧ validate_value d v = Ok ()) updates;
  pa_others name : name ∉ updates.*1 → ss_rows t' !! name = ss_rows t !! name;
  pa_updates : NoDup updates.*1 → ∀ u d v, u ∈ updates → find_def u.1 = Some d → value_from_json d u.2 = Ok v →
    ss_rows t' !! u.1 = (λ _, (json_to_string (value_to_json (stored_form key (nonce u.1) d v)), now)) <$> ss_rows t !! u.1;
  pa_audit : ∃ rows, ss_audit t' = ss_audit t ++ rows
    ∧ Forall2 (λ u row, au_setting row = u.1 ∧ au_outcome row = "applied"%string ∧ au_revision row = (expected + 1)%Z
                        ∧ au_operator row = operator) updates rows;
}.

(** What the transaction read and staged. *)
Lemma patch_txn_inv key nonce now operator expected updates t changed t' :
  patch_txn readable key nonce now operator expected updates t = Ok (changed, t') →
  ∃ at_ stored dr, ss_state t = Some (expected, at_) ∧ read_rows t = Ok stored
    ∧ dr = stage_updates key nonce stored updates ∧ dr_errors dr = []
    ∧ validate_combination readable (dr_effective dr) = Ok ()
    ∧ t' = put_state (Some ((expected + 1)%Z, now)) (foldl (write_staged (expected + 1) now operator) t (dr_staged dr)).
Proof.
  unfold patch_txn. destruct (ss_state t) as [[current at_]|]; [|done].
  destruct (Z.eqb_spec current expected) as [->|]; [|done]. cbn [negb].
  intros (stored & Hr & E)%res_bind_ok. exists at_, stored, (stage_updates key nonce stored updates).
  destruct (dr_errors (stage_updates key nonce stored updates)) as [|e es] eqn:Ee; [|done]. cbn [is_empty] in E.
  destruct (validate_combination readable _) as [[]|errors] eqn:Ev; [|destruct errors; [by apply combination_errors in Ev|done]].
  cbn [is_empty negb] in E. injection E as _ <-. done.
Qed.

Lemma patch_txn_applied key nonce now operator expected updates t changed t' :
  patch_txn readable key nonce now operator expected updates t = Ok (changed, t') →
  patch_applied key nonce now operator expected updates t t'.
Proof.
  intros (at_ & stored & dr & Hs & Hr & Hdr & He & Hv & ->)%patch_txn_inv. unfold stage_updates in Hdr. subst dr.
  destruct (stage_updates_spec _ _ _ _ He) as (_ & staged & Hst & Hf & _ & _).
  cbn [dr_staged] in Hst. rewrite app_nil_l in Hst. rewrite Hst. clear Hst He Hv.
  destruct (write_staged_spec (expected + 1) now operator staged t) as (H1 & H2 & H3 & H4 & H5).
  assert (sg_name <$> staged = updates.*1) as Hn.
  { clear -Hf. induction Hf as [|u sg us sgs (d & v & _ & _ & _ & Hn & _) Hf IH]; [done|]. cbn. by rewrite Hn, IH. }
  constructor; cbn [put_state ss_state ss_version ss_rows ss_audit].
  - by rewrite Hs.
  - done.
  - clear -Hf. induction Hf as [|u sg us sgs (d & v & H1 & H2 & H3 & _) Hf IH]; [constructor|].
    constructor; [|done]. by exists d, v.
  - intros name. rewrite <- Hn. apply H4.
  - intros Hnd u d v Hu Hd Hj. destruct (Forall2_pick _ _ _ _ Hf Hu) as (sg & Hsg & d' & v' & Hd' & Hj' & _ & Hname & Hstored).
    rewrite Hn in H5. specialize (H5 Hnd sg Hsg). rewrite Hname, Hstored in H5.
    rewrite Hd' in Hd. injection Hd as <-. rewrite Hj' in Hj. injection Hj as <-. exact H5.
  - eexists. split; [exact H3|]. apply Forall2_fmap_r. eapply Forall2_impl; [exact Hf|].
    intros u sg (d & v & _ & _ & _ & Hname & _). by rewrite <- Hname.
Qed.

(** Only rows of rejections were added. *)
Definition untouched (t t' : SettingsTables) : Prop :=
  ∃ rows, Forall (λ row, au_outcome row = "rejected"%string) rows ∧ t' = put_audit (ss_audit t ++ rows) t.
Lemma untouched_refl t : untouched t t.
Proof. exists []. split; [constructor|]. rewrite app_nil_r. by destruct t. Qed.
Lemma untouched_trans t1 t2 t3 : untouched t1 t2 → untouched t2 t3 → untouched t1 t3.
Proof.
  intros (r1 & H1 & ->) (r2 & H2 & ->). exists (r1 ++ r2). split; [by apply Forall_app|].
  cbn. by rewrite <- app_assoc.
Qed.

Lemma on_db_tables {A} (f : SettingsTables → ApiResult (A * SettingsTables)) s r s' :
  on_db f s = (r, s') →
  (∃ e, r = Err e ∧ sr_tables s' = sr_tables s) ∨ (∃ a, r = Ok a ∧ f (sr_tables s) = Ok (a, sr_tables s')).
Proof.
  unfold on_db, run_db. rewrite st_bind. unfold next_fault. destruct (mjoin (head (sr_faults s))).
  - intros [= <- <-]. left. eauto.
  - cbn. destruct (f (sr_tables s)) as [[a t]|e]; intros [= <- <-]; [right|left]; eauto.
Qed.
Lemma on_db_reads {A} (f : SettingsTables → ApiResult (A * SettingsTables)) s r s' :
  (∀ t a t', f t = Ok (a, t') → t' = t) → on_db f s = (r, s') → sr_tables s' = sr_tables s.
Proof. intros Hf [(e & _ & H1)|(a & _ & Ha%Hf)]%on_db_tables; congruence. Qed.

Lemma record_rows_untouched rows s r s' :
  Forall (λ row, au_outcome row = "rejected"%string) rows → record_rows rows s = (r, s') →
  untouched (sr_tables s) (sr_tables s').
Proof.
  intros Hr. revert s. induction Hr as [|row rows Hrow Hr IH]; intros s; cbn [record_rows].
  { intros [= _ <-]. apply untouched_refl. }
  rewrite st_bind. destruct (on_db _ s) as [w s1] eqn:E.
  apply on_db_tables in E as [(e & -> & Et)|([] & -> & [= Et])].
  - intros [= _ <-]. rewrite Et. apply untouched_refl.
  - intros E'. eapply untouched_trans; [|by eapply IH]. rewrite <- Et. exists [row].
    split; [by constructor|done].
Qed.
Lemma record_rejection_untouched now operator names detail s r s' :
  record_rejection now operator names detail s = (r, s') → untouched (sr_tables s) (sr_tables s').
Proof.
  unfold record_rejection. rewrite st_bind. destruct (on_db _ s) as [[[]|e] s1] eqn:E1;
    apply on_db_reads in E1 as <-; try by (intros ??? [=]; congruence).
  2: { intros [= _ <-]. apply untouched_refl. }
  rewrite st_bind. destruct (on_db _ s1) as [[rev|e] s2] eqn:E2;
    apply on_db_reads in E2 as <-; try by (intros t ??; destruct (ss_state t) as [[]|]; intros [=]; congruence).
  2: { intros [= _ <-]. apply untouched_refl. }
  apply record_rows_untouched. apply Forall_fmap, Forall_true. done.
Qed.

Lemma preserves_on_db {A} (f : SettingsTables → ApiResult (A * SettingsTables)) : preserves sr_snapshot (on_db f).
Proof. intros s r s'. apply on_db_snapshot. Qed.
#[local] Hint Resolve preserves_on_db : preserves.
Lemma record_rows_snapshot rows : preserves sr_snapshot (record_rows rows).
Proof. induction rows as [|row rows IH]; cbn [record_rows]; [apply preserves_ret|]. solve_preserves. Qed.
#[local] Hint Resolve record_rows_snapshot : preserves.
Lemma record_rejection_snapshot now operator names detail :
  preserves sr_snapshot (record_rejection now operator names detail).
Proof. unfold record_rejection. solve_preserves. Qed.

(** How a patch ends: refused, or committed with what was read back. *)
Lemma patch_inv key nonce now operator expected updates (others : SettingsTables → SettingsTables) s r s' :
  patch readable key nonce now operator expected updates others s = (r, s') →
  (∃ e t0, r = Err e ∧ (t0 = sr_tables s ∨ t0 = others (sr_tables s)) ∧ untouched t0 (sr_tables s')
           ∧ sr_snapshot s' = sr_snapshot s)
  ∨ ∃ changed t1, patch_txn readable key nonce now operator expected updates (sr_tables s) = Ok (changed, t1)
          ∧ sr_tables s' = others t1
          ∧ match r with
            | Ok (fresh, _) => sr_snapshot s' = fresh ∧ load (others t1) = Ok fresh
            | Err _ => sr_snapshot s' = sr_snapshot s
            end.
Proof.
  unfold patch. destruct (is_empty updates).
  { intros [= <- <-]. left. exists (api_invalid (lit "no settings supplied")), (sr_tables s).
    split_and!; [done|by left|apply untouched_refl|done]. }
  rewrite st_bind. destruct (on_db _ s) as [[[]|e] s1] eqn:E1;
    pose proof (on_db_snapshot _ _ _ _ E1) as Hn1; apply on_db_reads in E1; try by (intros ??? [=]; congruence).
  2: { intros [= <- <-]. left. exists e, (sr_tables s). rewrite E1. split_and!; [done|by left|apply untouched_refl|done]. }
  rewrite st_bind. destruct (on_db _ s1) as [res s2] eqn:E2. pose proof (on_db_snapshot _ _ _ _ E2) as Hn2.
  unfold interfere. rewrite st_bind_modify. apply on_db_tables in E2 as [(e & -> & Et)|(changed & -> & Ht)].
  - cbn match. rewrite st_bind. destruct (record_rejection _ _ _ _ _) as [[] s3] eqn:E3. intros [= <- <-]. left.
    exists e, (others (sr_tables s)). split_and!; [done|by right| |].
    + apply record_rejection_untouched in E3. cbn in E3. by rewrite Et, E1 in E3.
    + transitivity (sr_snapshot s2); [|congruence].
      by apply (record_rejection_snapshot _ _ _ _ _ _ _ E3).
  - rewrite E1 in Ht.
    cbn match. rewrite st_bind. destruct (on_db _ _) as [fresh s3] eqn:E3. pose proof (on_db_snapshot _ _ _ _ E3) as Hn3.
    cbn in Hn3. apply on_db_tables in E3 as [(e & -> & Et)|(sn & -> & Hl)].
    + intros [= <- <-]. right. exists changed, (sr_tables s2). split_and!; [done|by rewrite Et|congruence].
    + cbn in Hl. destruct (load (others (sr_tables s2))) as [sn'|] eqn:El; [|done]. injection Hl as -> Hl.
      cbn. intros [= <- <-]. right. exists changed, (sr_tables s2). cbn. by rewrite El, Hl.
Qed.

(** C22: a settings patch applies entirely or not at all. Whatever fails and
    whatever other instances commit meanwhile: either the settings and the
    revision are left alone and at most rejections are recorded, or the revision
    the operator named was current and becomes the next one, every update is
    valid and stored in its form, no other setting changes and each update has
    its audit row; success is reported only then, with the snapshot that is
    served from then on. *)
Theorem patch_all_or_nothing key nonce now operator expected updates (others : SettingsTables → SettingsTables) s r s' :
  patch readable key nonce now operator expected updates others s = (r, s') →
  (∃ e t0, r = Err e ∧ (t0 = sr_tables s ∨ t0 = others (sr_tables s)) ∧ untouched t0 (sr_tables s')
           ∧ sr_snapshot s' = sr_snapshot s)
  ∨ ∃ t1, patch_applied key nonce now operator expected updates (sr_tables s) t1 ∧ sr_tables s' = others t1
          ∧ match r with
            | Ok (fresh, _) => sr_snapshot s' = fresh ∧ load (others t1) = Ok fresh
            | Err _ => sr_snapshot s' = sr_snapshot s
            end.
Proof.
  intros [H1|(changed & t1 & Ht & H1)]%patch_inv; [by left|right]. exists t1. split; [by eapply patch_txn_applied|done].
Qed.

(** ** An accepted patch can be loaded *)

(** What a row says. *)
Definition row_value (name : string) (row : text * text) : option Value :=
  d ← find_def name; j ← json_from_str row.1;
  match value_from_json d j with Ok v => Some v | Err _ => None end.
Definition row_fine (name : string) (row : text * text) : Prop :=
  find_def name = None ∨ is_Some (row_value name row).

Lemma read_row_list_fine rows out stored :
  read_row_list rows out = Ok stored → ∀ name row, (name, row) ∈ rows → row_fine name row.
Proof.
  revert out. induction rows as [|[name [raw at_]] rows IH]; intros out; cbn [read_row_list];
    [by intros _ name row ?%elem_of_nil|].
  unfold row_fine, row_value. destruct (find_def name) as [d|] eqn:Ed.
  - destruct (json_from_str raw) as [j|] eqn:Ej; [|done]. destruct (value_from_json d j) as [v|] eqn:Ev; [|done].
    intros Hr n row [[= -> ->]|Hin]%elem_of_cons; [|by eapply IH]. right. rewrite Ed. cbn. rewrite Ej. cbn. by rewrite Ev.
  - intros Hr n row [[= -> ->]|Hin]%elem_of_cons; [by left|by eapply IH].
Qed.
Lemma read_row_list_lookup rows out :
  NoDup rows.*1 → (∀ name row, (name, row) ∈ rows → row_fine name row) →
  ∃ stored, read_row_list rows out = Ok stored
    ∧ ∀ name, stored !! name = match (list_to_map rows : gmap string (text * text)) !! name ≫= row_value name with
                               | Some v => Some v | None => out !! name end.
Proof.
  revert out. induction rows as [|[name [raw at_]] rows IH]; intros out Hnd Hf; cbn [read_row_list]; [by eexists|].
  rewrite fmap_cons in Hnd. apply NoDup_cons in Hnd as [Hn Hnd].
  assert (∀ n row, (n, row) ∈ rows → row_fine n row) as Hf' by (intros; apply Hf; by right).
  pose proof (Hf name (raw, at_) ltac:(left)) as [E|[v E]].
  - rewrite E. destruct (IH out Hnd Hf') as (stored & -> & Hl). eexists. split; [done|]. intros n.
    rewrite Hl, list_to_map_cons. destruct (decide (n = name)) as [->|Hne].
    + rewrite not_elem_of_list_to_map_1, lookup_insert_eq by done. cbn. unfold row_value. by rewrite E.
    + by rewrite lookup_insert_ne.
  - unfold row_value in E. cbn in E. destruct (find_def name) as [d|] eqn:Ed; [|done]. cbn in E.
    destruct (json_from_str raw) as [j|] eqn:Ej; [|done]. cbn in E.
    destruct (value_from_json d j) as [v'|] eqn:Ev; [|done]. injection E as ->.
    destruct (IH (<[name := v]> out) Hnd Hf') as (stored & -> & Hl). eexists. split; [done|]. intros n.
    rewrite Hl, list_to_map_cons. destruct (decide (n = name)) as [->|Hne].
    + rewrite not_elem_of_list_to_map_1, !lookup_insert_eq by done. cbn. unfold row_value. rewrite Ed. cbn. rewrite Ej. cbn.
      by rewrite Ev.
    + by rewrite !lookup_insert_ne.
Qed.
Lemma read_rows_spec t stored :
  read_rows t = Ok stored ↔
    (∀ name row, ss_rows t !! name = Some row → row_fine name row)
    ∧ ∀ name, stored !! name = ss_rows t !! name ≫= row_value name.
Proof.
  unfold read_rows. split.
  - intros Hr. pose proof (read_row_list_fine _ _ _ Hr) as Hf.
    destruct (read_row_list_lookup (map_to_list (ss_rows t)) ∅ (NoDup_fst_map_to_list _) Hf) as (stored' & Hr' & Hl).
    rewrite Hr in Hr'. injection Hr' as <-. split.
    + intros name row Hrow. apply Hf. by apply elem_of_map_to_list.
    + intros name. rewrite Hl, list_to_map_to_list. by destruct (ss_rows t !! name ≫= row_value name).
  - intros [Hf Hs].
    destruct (read_row_list_lookup (map_to_list (ss_rows t)) ∅ (NoDup_fst_map_to_list _)) as (stored' & -> & Hl).
    { intros name row. rewrite elem_of_map_to_list. apply Hf. }
    f_equal. apply map_eq. intros name. rewrite Hl, Hs, list_to_map_to_list.
    by destruct (ss_rows t !! name ≫= row_value name).
Qed.

Definition omap_rows (t : SettingsTables) : Values := map_imap row_value (ss_rows t).
Lemma omap_rows_lookup t name : omap_rows t !! name = ss_rows t !! name ≫= row_value name.
Proof. apply map_lookup_imap. Qed.

(** What the source relies on of [serde_json]. *)
Class JsonTextLaws := { json_round_trip v : json_from_str (json_to_string (value_to_json v)) = Some (value_to_json v) }.
Context {laws : JsonTextLaws}.

Lemma mapM_jas_str l : mapM jas_str (JStr <$> l) = Some l.
Proof. induction l as [|x l IH]; [done|]. cbn. by rewrite IH. Qed.
Lemma value_reads_back d v : d ∈ DEFS → validate_value d v = Ok () → value_from_json d (value_to_json v) = Ok v.
Proof.
  intros Hd Hv. pose proof (validated_kind _ _ Hv) as Hk. unfold value_from_json.
  destruct (d_kind d) eqn:Ek, v as [b|i|x|l]; try done; cbn [value_to_json jas_bool jas_str expects fmap option_fmap option_map].
  - pose proof (proj1 (Forall_forall _ _) defs_ok d Hd) as Hok. unfold def_ok in Hok. rewrite Ek in Hok.
    apply andb_prop in Hok as [_ Hb]. apply andb_prop in Hb as [[Hmn Hmx]%andb_prop Hb].
    apply bool_decide_eq_true in Hmn as [mn Hmn], Hmx as [mx Hmx], Hb. unfold validate_value in Hv.
    rewrite Ek, Hmn, Hmx in Hv. rewrite Hmn, Hmx in Hb. cbn in Hv, Hb.
    destruct (Z.ltb_spec i mn); [done|]. destruct (Z.ltb_spec mx i); [done|].
    unfold json_i64. cbn. by rewrite bool_decide_eq_true_2 by lia.
  - by rewrite mapM_jas_str.
Qed.

(** Only the operator's credential is secret, and any string may stand for it. *)
Definition secret_ok (d : SettingDef) : bool :=
  negb (d_secret d) || (bool_decide (d_kind d = KSecret) && bool_decide (d_name d = keys.AUTH_OPERATOR_TOKEN_HASH)).
Lemma secrets_ok d : d ∈ DEFS → d_secret d = true → d_kind d = KSecret ∧ d_name d = keys.AUTH_OPERATOR_TOKEN_HASH.
Proof.
  assert (Forall (λ d, secret_ok d = true) DEFS) as Hall
    by (apply (bool_decide_unpack (Forall (λ d, secret_ok d = true) DEFS)); by vm_compute).
  intros Hd Hs. pose proof (proj1 (Forall_forall _ _) Hall d Hd) as Hok. unfold secret_ok in Hok. rewrite Hs in Hok.
  cbn [negb orb] in Hok. apply andb_prop in Hok as [Ha%bool_decide_eq_true Hb%bool_decide_eq_true]. done.
Qed.
Lemma stored_form_valid key nonce d v :
  d ∈ DEFS → validate_value d v = Ok () → validate_value d (stored_form key nonce d v) = Ok ().
Proof.
  intros Hd Hv. unfold stored_form. destruct (d_secret d) eqn:Es; [|done].
  destruct (secrets_ok d Hd Es) as [Hk _]. pose proof (validated_kind _ _ Hv) as Hkind. rewrite Hk in Hkind.
  destruct v as [b|i|x|l]; try done. unfold validate_value. rewrite Hk.
  destruct (is_empty x); [done|]. by destruct (_ || _).
Qed.

(** Every declared setting has its row, as seeding leaves it. *)
Definition rows_complete (t : SettingsTables) : Prop := ∀ d, d ∈ DEFS → is_Some (ss_rows t !! d_name d).

Lemma find_def_name name d : find_def name = Some d → d ∈ DEFS ∧ d_name d = name.
Proof. apply find_def_elem. Qed.

(** What the rows of an applied patch say. *)
Lemma patched_row key nonce now operator expected updates t t' u d v :
  patch_applied key nonce now operator expected updates t t' → rows_complete t → NoDup updates.*1 →
  u ∈ updates → find_def u.1 = Some d → value_from_json d u.2 = Ok v → validate_value d v = Ok () →
  ∃ row, ss_rows t' !! u.1 = Some row ∧ row_value u.1 row = Some (stored_form key (nonce u.1) d v).
Proof.
  intros Ha Hc Hnd Hu Hd Hj Hv. destruct (find_def_name _ _ Hd) as [Hin Hname].
  destruct (Hc d Hin) as [row Hrow]. rewrite Hname in Hrow.
  eexists. split; [by rewrite (pa_updates _ _ _ _ _ _ _ _ Ha Hnd u d v Hu Hd Hj), Hrow|].
  unfold row_value. rewrite Hd. cbn. rewrite json_round_trip. cbn.
  by rewrite value_reads_back by (done || by apply stored_form_valid).
Qed.

Lemma patched_rows_read key nonce now operator expected updates t t' stored :
  patch_applied key nonce now operator expected updates t t' → rows_complete t → NoDup updates.*1 →
  read_rows t = Ok stored →
  ∃ stored', read_rows t' = Ok stored'
    ∧ (∀ name, name ∉ updates.*1 → stored' !! name = stored !! name)
    ∧ ∀ u d v, u ∈ updates → find_def u.1 = Some d → value_from_json d u.2 = Ok v →
        stored' !! u.1 = Some (stored_form key (nonce u.1) d v).
Proof.
  intros Ha Hc Hnd Hr. apply read_rows_spec in Hr as [Hf Hs].
  pose proof (proj1 (Forall_forall _ _) (pa_valid _ _ _ _ _ _ _ _ Ha)) as Hval.
  assert (∀ name row, ss_rows t' !! name = Some row → row_fine name row) as Hf'.
  { intros name row Hrow. destruct (decide (name ∈ updates.*1)) as [Hin|Hin].
    - apply list_elem_of_fmap in Hin as (u & -> & Hu). destruct (Hval u Hu) as (d & v & Hd & Hj & Hv).
      destruct (patched_row _ _ _ _ _ _ _ _ _ _ _ Ha Hc Hnd Hu Hd Hj Hv) as (row' & Hrow' & Hv').
      right. rewrite Hrow in Hrow'. injection Hrow' as <-. by eexists.
    - apply Hf. by rewrite <- (pa_others _ _ _ _ _ _ _ _ Ha name Hin). }
  exists (omap_rows t'). split; [|split].
  - apply read_rows_spec. split; [done|]. intros name. apply omap_rows_lookup.
  - intros name Hn. rewrite omap_rows_lookup, Hs. by rewrite (pa_others _ _ _ _ _ _ _ _ Ha name Hn).
  - intros u d v Hu Hd Hj. destruct (Hval u Hu) as (d' & v' & Hd' & Hj' & Hv').
    rewrite Hd in Hd'. injection Hd' as <-. rewrite Hj in Hj'. injection Hj' as <-.
    destruct (patched_row _ _ _ _ _ _ _ _ _ _ _ Ha Hc Hnd Hu Hd Hj Hv') as (row & Hrow & E).
    by rewrite omap_rows_lookup, Hrow.
Qed.

Lemma applied_complete key nonce now operator expected updates t t' :
  patch_applied key nonce now operator expected updates t t' → rows_complete t → NoDup updates.*1 → rows_complete t'.
Proof.
  intros Ha Hc Hnd d Hd. destruct (decide (d_name d ∈ updates.*1)) as [Hin|Hin].
  - apply list_elem_of_fmap in Hin as (u & Hname & Hu).
    destruct (proj1 (Forall_forall _ _) (pa_valid _ _ _ _ _ _ _ _ Ha) u Hu) as (d' & v & Hd' & Hj & Hv).
    destruct (patched_row _ _ _ _ _ _ _ _ _ _ _ Ha Hc Hnd Hu Hd' Hj Hv) as (row & Hrow & _).
    rewrite Hname. by eexists.
  - rewrite (pa_others _ _ _ _ _ _ _ _ Ha _ Hin). by apply Hc.
Qed.

(** An accepted patch cannot lock the server out. When the tables can be
    loaded and every setting has its row, what a committed patch leaves in them
    loads again: the snapshot has the next revision, gives every updated setting
    the value that was stored for it and every other setting its value of
    before, and every setting still has its row. *)
Theorem accepted_patch_loads key nonce now operator expected updates t sn0 changed t' :
  load t = Ok sn0 → rows_complete t → NoDup updates.*1 →
  patch_txn readable key nonce now operator expected updates t = Ok (changed, t') →
  ∃ sn, load t' = Ok sn ∧ sn_revision sn = (expected + 1)%Z ∧ rows_complete t'
    ∧ (∀ u d v, u ∈ updates → find_def u.1 = Some d → value_from_json d u.2 = Ok v →
         sn_values sn !! u.1 = Some (stored_form key (nonce u.1) d v))
    ∧ ∀ name, name ∉ updates.*1 → sn_values sn !! name = sn_values sn0 !! name.
Proof.
  intros Hl Hc Hnd Ht. pose proof (patch_txn_applied _ _ _ _ _ _ _ _ _ Ht) as Ha.
  apply load_spec in Hl as (rev0 & at0 & stored0 & _ & Hr0 & -> & [Heach _]).
  apply patch_txn_inv in Ht as (at_ & stored & dr & Hst & Hr & -> & He & Hcomb & _).
  rewrite Hr in Hr0. injection Hr0 as <-. unfold stage_updates in He.
  destruct (stage_updates_spec _ _ _ _ He) as (_ & staged & _ & _ & Hout & Hin).
  fold (stage_updates key nonce stored updates) in Hout, Hin. cbn [dr_effective] in Hout.
  destruct (patched_rows_read _ _ _ _ _ _ _ _ _ Ha Hc Hnd Hr) as (stored' & Hr' & Hs1 & Hs2).
  pose proof (proj1 (Forall_forall _ _) (pa_valid _ _ _ _ _ _ _ _ Ha)) as Hval.
  assert (∀ u d v, u ∈ updates → find_def u.1 = Some d → value_from_json d u.2 = Ok v →
    resolve stored' !! u.1 = Some (stored_form key (nonce u.1) d v)) as Hupd.
  { intros u d v Hu Hd Hj. destruct (find_def_name _ _ Hd) as [Hd' Hname].
    pose proof (resolve_lookup stored' d Hd') as E. rewrite Hname in E. by rewrite E, (Hs2 u d v). }
  assert (∀ name, name ∉ updates.*1 → resolve stored' !! name = resolve stored !! name) as Hkeep.
  { intros name Hn. destruct (find_def name) as [d|] eqn:Ed; [|by rewrite !resolve_undeclared].
    destruct (find_def_name _ _ Ed) as [Hd <-]. by rewrite !resolve_lookup, Hs1. }
  assert (validate_combination readable (resolve stored') = Ok ()) as Hcomb'.
  { rewrite <- Hcomb. apply combination_agree. intros name Hn. destruct (decide (name ∈ updates.*1)) as [Hu|Hu].
    - apply list_elem_of_fmap in Hu as (u & -> & Hu). destruct (Hval u Hu) as (d & v & Hd & Hj & Hv).
      rewrite (Hupd u d v Hu Hd Hj), (Hin Hnd u Hu). unfold parsed_of. rewrite Hd. cbn. rewrite Hj.
      unfold stored_form. destruct (d_secret d) eqn:Es; [|done]. destruct (find_def_name _ _ Hd) as [Hd' Hname].
      destruct (secrets_ok d Hd' Es) as [_ Hop]. congruence.
    - by rewrite Hkeep, Hout. }
  exists (mkSnapshot (expected + 1)%Z (resolve stored')). split; [|split; [done|split; [by eapply applied_complete|split]]].
  - apply load_spec. exists (expected + 1)%Z, now, stored'. split; [apply Ha|]. split; [done|]. split; [done|].
    constructor; [|done]. intros d Hd. destruct (decide (d_name d ∈ updates.*1)) as [Hu|Hu].
    + apply list_elem_of_fmap in Hu as (u & Hname & Hu). destruct (Hval u Hu) as (d' & v & Hd' & Hj & Hv).
      rewrite Hname, (Hupd u d' v Hu Hd' Hj). assert (d' = d) as ->.
      { apply find_def_in in Hd. rewrite Hname in Hd. congruence. }
      eexists. split; [done|]. by apply stored_form_valid.
    + rewrite Hkeep by done. by apply Heach.
  - exact Hupd.
  - exact Hkeep.
Qed.
End store.

(** ** Concrete stores *)

(** A printer and parser that satisfy the law: a tag, and the length before a
    string of an array. *)
Definition toy_item (j : json) : text := match j with JStr s => len s :: s | _ => [] end.
Definition toy_print (j : json) : text :=
  match j with
  | JBool b => [0; if b then 1 else 0]
  | JNum z => [1; if Z.leb 0 z then 2 * Z.to_N z else 2 * Z.to_N (- z) + 1]
  | JStr s => 2 :: s
  | JArr items => 3 :: mjoin (toy_item <$> items)
  | _ => []
  end.
Fixpoint toy_items (fuel : nat) (t : text) : list json :=
  match fuel, t with
  | S fuel, n :: t => JStr (takeN n t) :: toy_items fuel (dropN n t)
  | _, _ => []
  end.
Definition toy_parse (t : text) : option json :=
  match t with
  | [0; n] => Some (JBool (n =? 1))
  | [1; n] => Some (JNum (if N.even n then Z.of_N (n / 2) else - Z.of_N (n / 2)))
  | 2 :: s => Some (JStr s)
  | 3 :: t => Some (JArr (toy_items (length t) t))
  | _ => None
  end.
#[export] Instance toy_json : JsonText := {| json_to_string := toy_print; json_from_str := toy_parse |}.

Lemma toy_items_print l fuel :
  (length (mjoin (toy_item <$> (JStr <$> l))) ≤ fuel)%nat → toy_items fuel (mjoin (toy_item <$> (JStr <$> l))) = JStr <$> l.
Proof.
  revert fuel. induction l as [|s l IH]; intros [|fuel] Hf; cbn in *; try done; [lia|].
  rewrite length_app in Hf. rewrite takeN_app_le, takeN_ge, dropN_app_ge, N.sub_diag, dropN_0 by lia.
  rewrite IH; [done|]. unfold mjoin in *. lia.
Qed.
#[export] Instance toy_json_laws : JsonTextLaws.
Proof.
  constructor. intros [b|z|s|l]; cbn [value_to_json json_to_string json_from_str toy_json toy_print toy_parse].
  - by destruct b.
  - f_equal. f_equal. destruct (Z.leb_spec 0 z).
    + rewrite N.even_mul. cbn [N.even orb]. rewrite N.mul_comm, N.div_mul by done. lia.
    + rewrite N.even_add, N.even_mul. cbn [N.even orb eqb].
      rewrite N.mul_comm, N.div_add_l by done. change (1 / 2) with 0. lia.
  - done.
  - f_equal. f_equal. by rewrite toy_items_print.
Defined.

Definition no_tables : SettingsTables := mkSettingsTables None ∅ None [].
Definition toy_initialize : ApiResult (Store * option text) :=
  initialize (H := toy_lib) (λ _, false) [] [] [x01] (lit "t0") None [] no_tables.
Definition started : Store * option text := res_value (mkStore no_tables (mkSnapshot 0 ∅) [], None) toy_initialize.
Definition example_store : Store := started.1.
Definition example_token : option text := started.2.
Lemma toy_initialize_ok : res_ok toy_initialize = true.
Proof. vm_cast_no_check (eq_refl true). Qed.
Lemma example_started : toy_initialize = Ok (example_store, example_token).
Proof.
  rewrite (res_ok_value (mkStore no_tables (mkSnapshot 0 ∅) [], None) toy_initialize toy_initialize_ok).
  by rewrite (surjective_pairing (res_value _ _)).
Qed.
Definition example_updates : list (string * json) :=
  [(keys.LIMITS_MAX_PAGE_SIZE, JNum 500); (keys.AUTH_OPERATOR_TOKEN_HASH, jstr "secret")].
Definition toy_patch (expected : Z) (s : Store) : ApiResult (Snapshot * list string) * Store :=
  patch (H := toy_lib) (λ _, false) [] (λ _, []) (lit "t1") (lit "operator") expected example_updates id s.

Lemma served_settings_typed_witness :
  let sn := sr_snapshot (foldl (store_step (H := toy_lib) (λ _, false)) example_store
    [OpPatch [] (λ _, []) (lit "t1") (lit "operator") 1 example_updates id; OpReload]) in
  (∀ d, d ∈ DEFS → has_kind (d_kind d) (snapshot_get (d_name d) sn)
                   ∧ validate_value d (snapshot_get (d_name d) sn) = Ok ())
  ∧ validate_combination (λ _, false) (sn_values sn) = Ok ().
Proof.
  apply (served_settings_typed (H := toy_lib) (λ _, false) [] [] [x01] (lit "t0") None [] no_tables example_store example_token).
  exact example_started.
Defined.

Lemma patch_all_or_nothing_witness :
  (∃ e t0, (toy_patch 1 example_store).1 = Err e ∧ (t0 = sr_tables example_store ∨ t0 = id (sr_tables example_store))
           ∧ untouched t0 (sr_tables (toy_patch 1 example_store).2)
           ∧ sr_snapshot (toy_patch 1 example_store).2 = sr_snapshot example_store)
  ∨ ∃ t1, patch_applied (H := toy_lib) [] (λ _, []) (lit "t1") (lit "operator") 1 example_updates (sr_tables example_store) t1
          ∧ sr_tables (toy_patch 1 example_store).2 = id t1
          ∧ match (toy_patch 1 example_store).1 with
            | Ok (fresh, _) => sr_snapshot (toy_patch 1 example_store).2 = fresh
                               ∧ load (λ _, false) (id t1) = Ok fresh
            | Err _ => sr_snapshot (toy_patch 1 example_store).2 = sr_snapshot example_store
            end.
Proof.
  apply (patch_all_or_nothing (H := toy_lib) (λ _, false) [] (λ _, []) (lit "t1") (lit "operator") 1 example_updates id
           example_store).
  unfold toy_patch. by destruct (patch _ _ _ _ _ _ _ _ _).
Defined.

(** It is the second case, and the same revision is stale afterwards. *)
Definition told (first : ApiResult (Snapshot * list string) * Store) : option (Z * list string * Z * string) :=
  match first with
  | (Ok (sn, changed), s) =>
      match (toy_patch 1 s).1 with
      | Err e => Some (sn_revision sn, changed, sn_int keys.LIMITS_MAX_PAGE_SIZE sn, ae_code e)
      | Ok _ => None
      end
  | _ => None
  end.
Example patch_example :
  told (toy_patch 1 example_store) = Some (2%Z, [keys.LIMITS_MAX_PAGE_SIZE; keys.AUTH_OPERATOR_TOKEN_HASH], 500%Z,
                      "settings_revision_conflict"%string).
Proof. apply (bool_decide_unpack _). vm_cast_no_check I. Qed.

Definition toy_txn : ApiResult (list string * SettingsTables) :=
  patch_txn (H := toy_lib) (λ _, false) [] (λ _, []) (lit "t1") (lit "operator") 1 example_updates (sr_tables example_store).
Definition committed : ApiResult (list string * SettingsTables) → list string * SettingsTables := res_value ([], no_tables).
Lemma toy_txn_ok : res_ok toy_txn = true.
Proof. vm_cast_no_check (eq_refl true). Qed.
Lemma example_committed : toy_txn = Ok ((committed toy_txn).1, (committed toy_txn).2).
Proof. rewrite <- (surjective_pairing (committed toy_txn)). by apply res_ok_value, toy_txn_ok. Qed.
Lemma initialize_loaded `{CryptoLib, JsonText} readable key nonce random now seed faults t s token :
  initialize readable key nonce random now seed faults t = Ok (s, token) → load readable (sr_tables s) = Ok (sr_snapshot s).
Proof.
  unfold initialize. repeat (match goal with |- res_bind ?x _ = _ → _ => destruct x as [|] eqn:? end; cbn [res_bind]; [|done]; try case_match).
  all: by intros [= <- <-].
Qed.
Lemma example_loads : load (λ _, false) (sr_tables example_store) = Ok (sr_snapshot example_store).
Proof. eapply initialize_loaded, example_started. Qed.
Lemma example_complete : rows_complete (sr_tables example_store).
Proof.
  assert (forallb (λ d, bool_decide (is_Some (ss_rows (sr_tables example_store) !! d_name d))) DEFS = true) as Hall
    by (vm_cast_no_check (eq_refl true)).
  intros d Hd. rewrite forallb_forall in Hall. apply list_elem_of_In, Hall in Hd. by apply bool_decide_eq_true in Hd.
Qed.

Lemma accepted_patch_loads_witness :
  ∃ sn, load (λ _, false) (committed toy_txn).2 = Ok sn ∧ sn_revision sn = 2%Z ∧ rows_complete (committed toy_txn).2
    ∧ (∀ u d v, u ∈ example_updates → find_def u.1 = Some d → value_from_json d u.2 = Ok v →
         sn_values sn !! u.1 = Some (stored_form (H := toy_lib) [] [] d v))
    ∧ ∀ name, name ∉ example_updates.*1 → sn_values sn !! name = sn_values (sr_snapshot example_store) !! name.
Proof.
  apply (accepted_patch_loads (H := toy_lib) (λ _, false) [] (λ _, []) (lit "t1") (lit "operator") 1 example_updates
           (sr_tables example_store) (sr_snapshot example_store) (committed toy_txn).1).
  - exact example_loads.
  - exact example_complete.
  - by apply (bool_decide_unpack (NoDup example_updates.*1)).
  - exact example_committed.
Defined.
