(* ===== verification/Accounts.v ===== *)
(** * Accounts ([server/src/db/repo.rs], [schema.sql])

    The tables beside the terminals: identities, devices, token cutoffs,
    challenges, tickets, signing keys, idempotency records and registration
    events, with the constraints the schema declares, and one definition per
    query. A [DateTime] is nanoseconds in [N]; a timestamp column holds its text,
    written and read by [ChronoLib], and SQL compares texts. A query that calls
    [now()] takes the times it reads. *)

From stdpp Require Export sorting.
From S2P Require Export Crypto Net Repo.

Open Scope N_scope.
Open Scope hype_scope.

(** ** Library code *)

(** [chrono]: [to_rfc3339_opts(Micros, true)] and [parse_from_rfc3339]. *)
Class ChronoLib := {
  to_rfc3339 : N → text;
  parse_rfc3339 : text → option N;
}.
(** [uuid]: [to_string] and [parse_str]; [Uuid::default()] is nil. *)
Class UuidLib := {
  uuid_text : Uuid → text;
  uuid_parse : text → option Uuid;
}.
Definition NIL_UUID : Uuid := 0.

(** SQLite's BINARY order on texts, the order of their code points. *)
Fixpoint text_ltb (a b : text) : bool :=
  match a, b with
  | [], [] => false
  | [], _ :: _ => true
  | x :: a, y :: b => (x <? y) || ((x =? y) && text_ltb a b)
  | _ :: _, [] => false
  end.

(** [join(" ")] and [split_whitespace] *)
Definition join_space (parts : list text) : text := joined (lit " ") parts.
Fixpoint split_words (t : text) : list text :=
  match t with
  | [] => [[]]
  | c :: t =>
      let rest := split_words t in
      if is_whitespace c then [] :: rest
      else match rest with w :: ws => (c :: w) :: ws | [] => [[c]] end
  end.
Definition split_whitespace (t : text) : list text := filter (λ w, w ≠ []) (split_words t).

Definition NANOS : N := 1000000000.
Definition HOUR : N := 3600 * NANOS.

(** ** The tables *)

Record IdentityRec := mkIdentityRec {
  ir_algorithm : text;
  ir_public_key : list byte;
  ir_created_at : text;
}.
Record DeviceRec := mkDeviceRec {
  dc_identity_id : text;
  dc_algorithm : text;
  dc_public_key : list byte;
  dc_key_fingerprint : text;
  dc_name : text;
  dc_role : text;
  dc_created_at : text;
  dc_last_seen_at : option text;
  dc_revoked_at : option text;
}.
Record ChallengeRec := mkChallengeRec {
  cr_operation : text;
  cr_algorithm : text;
  cr_public_key : list byte;
  cr_key_fingerprint : text;
  cr_owner_identity_id : option text;
  cr_device_key_fingerprint : option text;
  cr_challenge : list byte;
  cr_created_at : text;
  cr_expires_at : text;
  cr_consumed_at : option text;
}.
Record TicketRec := mkTicketRec {
  tr_principal_kind : text;
  tr_principal_id : text;
  tr_identity_id : text;
  tr_path : text;
  tr_scopes : text;
  tr_created_at : text;
  tr_expires_at : text;
  tr_consumed_at : option text;
}.
Record SigningKeyRec := mkSigningKeyRec {
  kr_nonce : list byte;
  kr_ciphertext : list byte;
  kr_created_at : text;
  kr_active : Z;
  kr_not_after : option text;
}.
Record IdempotencyRec := mkIdempotencyRec {
  er_principal_id : text;
  er_method : text;
  er_path : text;
  er_request_hash : text;
  er_status : Z;
  er_response_body : text;
  er_created_at : text;
}.
(** A table is stored under its primary key; a device's is its UUID. *)
Record Accounts := mkAccounts {
  ac_identities : gmap text IdentityRec;
  ac_devices : gmap Uuid DeviceRec;
  ac_cutoffs : gmap text text;
  ac_challenges : gmap text ChallengeRec;
  ac_tickets : gmap text TicketRec;
  ac_signing_keys : gmap text SigningKeyRec;
  ac_idempotency : gmap text IdempotencyRec;
  ac_registrations : list (text * text);
}.
Definition ac_empty : Accounts := mkAccounts ∅ ∅ ∅ ∅ ∅ ∅ ∅ [].
Definition set_identities v (a : Accounts) : Accounts :=
  mkAccounts v (ac_devices a) (ac_cutoffs a) (ac_challenges a) (ac_tickets a) (ac_signing_keys a) (ac_idempotency a)
    (ac_registrations a).
Definition set_devices v (a : Accounts) : Accounts :=
  mkAccounts (ac_identities a) v (ac_cutoffs a) (ac_challenges a) (ac_tickets a) (ac_signing_keys a)
    (ac_idempotency a) (ac_registrations a).
Definition set_cutoffs v (a : Accounts) : Accounts :=
  mkAccounts (ac_identities a) (ac_devices a) v (ac_challenges a) (ac_tickets a) (ac_signing_keys a)
    (ac_idempotency a) (ac_registrations a).
Definition set_challenges v (a : Accounts) : Accounts :=
  mkAccounts (ac_identities a) (ac_devices a) (ac_cutoffs a) v (ac_tickets a) (ac_signing_keys a)
    (ac_idempotency a) (ac_registrations a).
Definition set_tickets v (a : Accounts) : Accounts :=
  mkAccounts (ac_identities a) (ac_devices a) (ac_cutoffs a) (ac_challenges a) v (ac_signing_keys a)
    (ac_idempotency a) (ac_registrations a).
Definition set_signing_keys v (a : Accounts) : Accounts :=
  mkAccounts (ac_identities a) (ac_devices a) (ac_cutoffs a) (ac_challenges a) (ac_tickets a) v
    (ac_idempotency a) (ac_registrations a).
Definition set_idempotency v (a : Accounts) : Accounts :=
  mkAccounts (ac_identities a) (ac_devices a) (ac_cutoffs a) (ac_challenges a) (ac_tickets a) (ac_signing_keys a)
    v (ac_registrations a).
Definition set_registrations v (a : Accounts) : Accounts :=
  mkAccounts (ac_identities a) (ac_devices a) (ac_cutoffs a) (ac_challenges a) (ac_tickets a) (ac_signing_keys a)
    (ac_idempotency a) v.

Definition constraint_failed (what : string) : ApiError := api_database_error (lit what).

(** [ORDER BY created_at, device_id], on texts. *)
Abbreviation SortKey := (text * text)%type.
Definition key_ltb (k1 k2 : SortKey) : bool :=
  text_ltb k1.1 k2.1 || (bool_decide (k1.1 = k2.1) && text_ltb k1.2 k2.2).
Definition key_le (k1 k2 : SortKey) : Prop := key_ltb k2 k1 = false.
#[export] Instance key_le_dec k1 k2 : Decision (key_le k1 k2).
Proof. unfold key_le. apply _. Defined.

Section queries.
Context `{CryptoLib, ChronoLib, UuidLib}.

(** A column that should hold a time: [parse_rfc3339(..).unwrap_or_else(now)]. *)
Definition time_or (now : N) (t : text) : N := default now (parse_rfc3339 t).

(** ** Identities *)

Record Identity := mkIdentity {
  id_identity_id : text;
  id_created_at : N;
}.

Definition upsert_identity (now : N) (key : PublicKey) (a : Accounts) : ApiResult ((Identity * bool) * Accounts) :=
  let identity_id := key_fingerprint key in
  match ac_identities a !! identity_id with
  | Some r => Ok ((mkIdentity identity_id (time_or now (ir_created_at r)), false), a)
  | None =>
      if existsb (λ '(_, r), bool_decide (ir_algorithm r = pk_algorithm key)
                             && bool_decide (ir_public_key r = pk_bytes key)) (map_to_list (ac_identities a)) then
        Err (constraint_failed "UNIQUE constraint failed: identities.algorithm, identities.public_key")
      else
        Ok ((mkIdentity identity_id now, true),
            set_identities (<[identity_id := mkIdentityRec (pk_algorithm key) (pk_bytes key) (to_rfc3339 now)]>
              (ac_identities a)) a)
  end.
Definition identity_exists (identity_id : text) (a : Accounts) : bool :=
  bool_decide (is_Some (ac_identities a !! identity_id)).

(** ** Devices *)

Record Device := mkDevice {
  dv_device_id : Uuid;
  dv_identity_id : text;
  dv_algorithm : text;
  dv_public_key : list byte;
  dv_key_fingerprint : text;
  dv_name : text;
  dv_created_at : N;
  dv_last_seen_at : option N;
  dv_revoked_at : option N;
  dv_role : DeviceRole;
}.
(** [Device::from_row] *)
Definition device_from_rec (now : N) (id : Uuid) (r : DeviceRec) : Device :=
  mkDevice id (dc_identity_id r) (dc_algorithm r) (dc_public_key r) (dc_key_fingerprint r) (dc_name r)
    (time_or now (dc_created_at r)) (dc_last_seen_at r ≫= parse_rfc3339) (dc_revoked_at r ≫= parse_rfc3339)
    (default RPublisher (role_parse (dc_role r))).

Definition find_device (p : DeviceRec → bool) (a : Accounts) : option (Uuid * DeviceRec) :=
  head (filter (λ '(_, r), p r = true) (map_to_list (ac_devices a))).

Definition insert_device (device_id : Uuid) (now : N) (identity_id : text) (key : PublicKey) (name : text)
    (role : DeviceRole) (a : Accounts) : ApiResult (Device * Accounts) :=
  let fingerprint := key_fingerprint key in
  if bool_decide (is_Some (ac_devices a !! device_id)) then
    Err (constraint_failed "UNIQUE constraint failed: devices.device_id")
  else if bool_decide (is_Some (find_device (λ r, bool_decide (dc_key_fingerprint r = fingerprint)) a)) then
    Err (constraint_failed "UNIQUE constraint failed: devices.key_fingerprint")
  else if negb (identity_exists identity_id a) then Err (constraint_failed "FOREIGN KEY constraint failed")
  else
    Ok (mkDevice device_id identity_id (pk_algorithm key) (pk_bytes key) fingerprint name now None None role,
        set_devices (<[device_id :=
          mkDeviceRec identity_id (pk_algorithm key) (pk_bytes key) fingerprint name (lit (role_as_str role))
            (to_rfc3339 now) None None]> (ac_devices a)) a).

Definition active_of (identity_id : text) (r : DeviceRec) : bool :=
  bool_decide (dc_identity_id r = identity_id) && bool_decide (dc_revoked_at r = None).
Definition count_active_devices (identity_id : text) (a : Accounts) : Z :=
  Z.of_nat (length (filter (λ '(_, r), active_of identity_id r = true) (map_to_list (ac_devices a)))).

Definition get_owned_device (now : N) (identity_id : text) (device_id : Uuid) (a : Accounts) : option Device :=
  match ac_devices a !! device_id with
  | Some r => if bool_decide (dc_identity_id r = identity_id) then Some (device_from_rec now device_id r) else None
  | None => None
  end.
Definition get_device (now : N) (device_id : Uuid) (a : Accounts) : option Device :=
  device_from_rec now device_id <$> ac_devices a !! device_id.
Definition get_device_by_fingerprint (now : N) (fingerprint : text) (a : Accounts) : option Device :=
  (λ '(id, r), device_from_rec now id r) <$> find_device (λ r, bool_decide (dc_key_fingerprint r = fingerprint)) a.

(** [Cursor] *)
Record Cursor := mkCursor {
  cu_timestamp : text;
  cu_id : text;
}.
Definition cursor_encode (timestamp id : text) : text := b64_encode (utf8 (timestamp ++ lit "|" ++ id)).
Definition malformed_cursor : ApiError := api_invalid (lit "malformed cursor").
Definition cursor_decode (raw : text) : ApiResult Cursor :=
  match b64_decode raw with
  | None => Err malformed_cursor
  | Some bytes =>
      match from_utf8 bytes with
      | None => Err malformed_cursor
      | Some t =>
          match split_once 124 t with
          | None => Err malformed_cursor
          | Some (timestamp, id) => Ok (mkCursor timestamp id)
          end
      end
  end.

Definition sort_key (row : Uuid * DeviceRec) : SortKey := (dc_created_at row.2, uuid_text row.1).
Definition row_le (r1 r2 : Uuid * DeviceRec) : Prop := key_le (sort_key r1) (sort_key r2).
#[export] Instance row_le_dec r1 r2 : Decision (row_le r1 r2).
Proof. unfold row_le. apply _. Defined.
Definition after_cursor (cursor : option Cursor) (row : Uuid * DeviceRec) : bool :=
  match cursor with
  | None => true
  | Some c => key_ltb (cu_timestamp c, cu_id c) (sort_key row)
  end.
Definition sorted_devices (identity_id : text) (a : Accounts) : list (Uuid * DeviceRec) :=
  merge_sort row_le (filter (λ '(_, r), active_of identity_id r = true) (map_to_list (ac_devices a))).
Definition list_devices (now : N) (identity_id : text) (cursor : option Cursor) (limit : Z) (a : Accounts) : list Device :=
  let rows := filter (λ row, after_cursor cursor row = true) (sorted_devices identity_id a) in
  (λ '(id, r), device_from_rec now id r) <$> (if (limit <? 0)%Z then rows else take (Z.to_nat limit) rows).

Definition revoke_rec (at_ : text) (r : DeviceRec) : DeviceRec :=
  mkDeviceRec (dc_identity_id r) (dc_algorithm r) (dc_public_key r) (dc_key_fingerprint r) (dc_name r) (dc_role r)
    (dc_created_at r) (dc_last_seen_at r) (Some (default at_ (dc_revoked_at r))).
(** The three statements of [revoke_device]; [changed] is the rows updated. *)
Definition revoke_device (now : N) (device_id : Uuid) (a : Accounts) : bool * Accounts :=
  let at_ := to_rfc3339 now in
  let changed := match ac_devices a !! device_id with Some r => bool_decide (dc_revoked_at r = None) | None => false end in
  let principal := uuid_text device_id in
  (changed,
   set_tickets (filter (λ '(_, t), ¬ (tr_principal_id t = principal ∧ tr_consumed_at t = None)) (ac_tickets a))
     (set_cutoffs (<[principal := at_]> (ac_cutoffs a))
        (set_devices (alter (revoke_rec at_) device_id (ac_devices a)) a))).
Definition token_cutoff (principal_id : text) (a : Accounts) : option N :=
  ac_cutoffs a !! principal_id ≫= parse_rfc3339.
Definition seen_rec (at_ : text) (r : DeviceRec) : DeviceRec :=
  mkDeviceRec (dc_identity_id r) (dc_algorithm r) (dc_public_key r) (dc_key_fingerprint r) (dc_name r) (dc_role r)
    (dc_created_at r) (Some at_) (dc_revoked_at r).
Definition touch_device (now : N) (device_id : Uuid) (a : Accounts) : Accounts :=
  set_devices (alter (seen_rec (to_rfc3339 now)) device_id (ac_devices a)) a.

(** ** Challenges *)

Record ChallengeRecord := mkChallengeRecord {
  ch_challenge_id : text;
  ch_operation : Operation;
  ch_key : PublicKey;
  ch_key_fingerprint : text;
  ch_owner_identity_id : option text;
  ch_device_key_fingerprint : option text;
  ch_challenge : list byte;
  ch_expires_at : N;
}.
Definition insert_challenge (now : N) (challenge_id : text) (operation : Operation) (key : PublicKey)
    (owner_identity_id device_key_fingerprint : option text) (challenge : list byte) (expires_at : N) (a : Accounts)
    : ApiResult (() * Accounts) :=
  if bool_decide (is_Some (ac_challenges a !! challenge_id)) then
    Err (constraint_failed "UNIQUE constraint failed: challenges.challenge_id")
  else
    Ok ((), set_challenges (<[challenge_id :=
      mkChallengeRec (lit (op_as_str operation)) (pk_algorithm key) (pk_bytes key) (key_fingerprint key)
        owner_identity_id device_key_fingerprint challenge (to_rfc3339 now) (to_rfc3339 expires_at) None]>
      (ac_challenges a)) a).

Inductive ChallengeClaim := Claimed (record : ChallengeRecord) | AlreadyConsumed | ExpiredClaim | UnknownClaim.
Definition consume_rec (at_ : text) (r : ChallengeRec) : ChallengeRec :=
  mkChallengeRec (cr_operation r) (cr_algorithm r) (cr_public_key r) (cr_key_fingerprint r) (cr_owner_identity_id r)
    (cr_device_key_fingerprint r) (cr_challenge r) (cr_created_at r) (cr_expires_at r) (Some at_).
(** [now] is when the challenge is marked, [later] when its expiry is read. *)
Definition claim_challenge (now later : N) (challenge_id : text) (a : Accounts) : ChallengeClaim * Accounts :=
  match ac_challenges a !! challenge_id with
  | None => (UnknownClaim, a)
  | Some r =>
      match cr_consumed_at r with
      | Some _ => (AlreadyConsumed, a)
      | None =>
          let a := set_challenges (<[challenge_id := consume_rec (to_rfc3339 now) r]> (ac_challenges a)) a in
          let expires_at := time_or later (cr_expires_at r) in
          if expires_at <? later then (ExpiredClaim, a)
          else
            match op_parse (cr_operation r) with
            | None => (UnknownClaim, a)
            | Some operation =>
                (Claimed (mkChallengeRecord challenge_id operation (mkPublicKey (cr_algorithm r) (cr_public_key r))
                   (cr_key_fingerprint r) (cr_owner_identity_id r) (cr_device_key_fingerprint r) (cr_challenge r)
                   expires_at), a)
            end
      end
  end.
Definition delete_expired_challenges (now : N) (a : Accounts) : N * Accounts :=
  let gone (r : ChallengeRec) : bool := text_ltb (cr_expires_at r) (to_rfc3339 (now - HOUR)) in
  (len (filter (λ '(_, r), gone r = true) (map_to_list (ac_challenges a))),
   set_challenges (filter (λ '(_, r), gone r = false) (ac_challenges a)) a).

(** ** Tickets *)

Record TicketRecord := mkTicketRecord {
  ti_principal_kind : PrincipalKind;
  ti_principal_id : text;
  ti_identity_id : text;
  ti_scopes : list text;
}.
Definition insert_ticket (now : N) (ticket_hash : text) (kind : PrincipalKind) (principal_id identity_id path : text)
    (scopes : list text) (expires_at : N) (a : Accounts) : ApiResult (() * Accounts) :=
  if bool_decide (is_Some (ac_tickets a !! ticket_hash)) then
    Err (constraint_failed "UNIQUE constraint failed: websocket_tickets.ticket_hash")
  else
    Ok ((), set_tickets (<[ticket_hash :=
      mkTicketRec (lit (kind_as_str kind)) principal_id identity_id path (join_space scopes) (to_rfc3339 now)
        (to_rfc3339 expires_at) None]> (ac_tickets a)) a).
Definition use_rec (at_ : text) (r : TicketRec) : TicketRec :=
  mkTicketRec (tr_principal_kind r) (tr_principal_id r) (tr_identity_id r) (tr_path r) (tr_scopes r) (tr_created_at r)
    (tr_expires_at r) (Some at_).
Definition consume_ticket (now later : N) (ticket_hash path : text) (a : Accounts) : option TicketRecord * Accounts :=
  match ac_tickets a !! ticket_hash with
  | None => (None, a)
  | Some r =>
      match tr_consumed_at r with
      | Some _ => (None, a)
      | None =>
          let a := set_tickets (<[ticket_hash := use_rec (to_rfc3339 now) r]> (ac_tickets a)) a in
          if negb (bool_decide (tr_path r = path)) then (None, a)
          else if from_option (λ t, t <? later) true (parse_rfc3339 (tr_expires_at r)) then (None, a)
          else
            (Some (mkTicketRecord (if bool_decide (tr_principal_kind r = lit "device") then KDevice else KIdentity)
               (tr_principal_id r) (tr_identity_id r) (split_whitespace (tr_scopes r))), a)
      end
  end.
Definition delete_expired_tickets (now : N) (a : Accounts) : N * Accounts :=
  let gone (r : TicketRec) : bool := text_ltb (tr_expires_at r) (to_rfc3339 (now - HOUR)) in
  (len (filter (λ '(_, r), gone r = true) (map_to_list (ac_tickets a))),
   set_tickets (filter (λ '(_, r), gone r = false) (ac_tickets a)) a).

(** ** Signing keys *)

Record StoredSigningKey := mkStoredSigningKey {
  st_kid : text;
  st_nonce : list byte;
  st_ciphertext : list byte;
  st_created_at : N;
  st_active : bool;
  st_not_after : option N;
}.
Definition key_newer (k1 k2 : text * SigningKeyRec) : Prop := text_ltb (kr_created_at k1.2) (kr_created_at k2.2) = false.
#[export] Instance key_newer_dec k1 k2 : Decision (key_newer k1 k2).
Proof. unfold key_newer. apply _. Defined.
Definition load_signing_keys (now : N) (a : Accounts) : list StoredSigningKey :=
  (λ '(kid, r), mkStoredSigningKey kid (kr_nonce r) (kr_ciphertext r) (time_or now (kr_created_at r))
                  (negb (Z.eqb (kr_active r) 0)) (kr_not_after r ≫= parse_rfc3339))
  <$> merge_sort key_newer (map_to_list (ac_signing_keys a)).
Definition retire_rec (not_after : text) (r : SigningKeyRec) : SigningKeyRec :=
  if Z.eqb (kr_active r) 1 then mkSigningKeyRec (kr_nonce r) (kr_ciphertext r) (kr_created_at r) 0 (Some not_after) else r.
(** [now] is when the old keys are retired, [later] when the new one is made. *)
Definition insert_signing_key (now later : N) (kid : text) (nonce ciphertext : list byte) (overlap_seconds : Z)
    (a : Accounts) : ApiResult (() * Accounts) :=
  if bool_decide (is_Some (ac_signing_keys a !! kid)) then
    Err (constraint_failed "UNIQUE constraint failed: signing_keys.kid")
  else
    let not_after := to_rfc3339 (now + Z.to_N overlap_seconds * NANOS) in
    Ok ((), set_signing_keys (<[kid := mkSigningKeyRec nonce ciphertext (to_rfc3339 later) 1 None]>
              (retire_rec not_after <$> ac_signing_keys a)) a).
Definition prunable (now : N) (r : SigningKeyRec) : bool :=
  Z.eqb (kr_active r) 0 && from_option (λ t, text_ltb t (to_rfc3339 now)) false (kr_not_after r).
Definition prune_signing_keys (now : N) (a : Accounts) : N * Accounts :=
  (len (filter (λ '(_, r), prunable now r = true) (map_to_list (ac_signing_keys a))),
   set_signing_keys (filter (λ '(_, r), prunable now r = false) (ac_signing_keys a)) a).

(** ** Idempotency *)

Record IdempotentResponse := mkIdempotentResponse {
  ie_request_hash : text;
  ie_status : N;
  ie_body : text;
}.
(** [status as u16] *)
Definition as_u16 (z : Z) : N := Z.to_N (z mod 65536).
Definition get_idempotent (key_hash principal_id : text) (a : Accounts) : option IdempotentResponse :=
  match ac_idempotency a !! key_hash with
  | Some r =>
      if bool_decide (er_principal_id r = principal_id) then
        Some (mkIdempotentResponse (er_request_hash r) (as_u16 (er_status r)) (er_response_body r))
      else None
  | None => None
  end.
(** [ON CONFLICT (key_hash) DO NOTHING] *)
Definition put_idempotent (now : N) (key_hash principal_id method path request_hash : text) (status : N) (body : text)
    (a : Accounts) : Accounts :=
  match ac_idempotency a !! key_hash with
  | Some _ => a
  | None =>
      set_idempotency (<[key_hash :=
        mkIdempotencyRec principal_id method path request_hash (Z.of_N status) body (to_rfc3339 now)]>
        (ac_idempotency a)) a
  end.
Definition delete_expired_idempotency (now : N) (retention_seconds : Z) (a : Accounts) : N * Accounts :=
  let cutoff := to_rfc3339 (now - Z.to_N retention_seconds * NANOS) in
  let gone (r : IdempotencyRec) : bool := text_ltb (er_created_at r) cutoff in
  (len (filter (λ '(_, r), gone r = true) (map_to_list (ac_idempotency a))),
   set_idempotency (filter (λ '(_, r), gone r = false) (ac_idempotency a)) a).

(** ** Registration events *)

Definition record_registration (now : N) (source : text) (a : Accounts) : Accounts :=
  set_registrations (ac_registrations a ++ [(source, to_rfc3339 now)]) a.
Definition count_registrations_since (source : text) (since : N) (a : Accounts) : Z :=
  Z.of_nat (length (filter (λ '(s, at_), s = source ∧ text_ltb at_ (to_rfc3339 since) = false) (ac_registrations a))).
Definition delete_old_registration_events (now : N) (a : Accounts) : N * Accounts :=
  let gone (e : text * text) : bool := text_ltb e.2 (to_rfc3339 (now - 48 * HOUR)) in
  (len (filter (λ e, gone e = true) (ac_registrations a)),
   set_registrations (filter (λ e, gone e = false) (ac_registrations a)) a).
End queries.
