(* ===== verification/AccountsProps.v ===== *)
(** * Theorems about the account tables

    The laws of the library code the tables rely on, with a toy instance that
    the examples evaluate; the operations on the tables as data ([AccountOp],
    [apply_op]); on any sequence of operations a challenge or a ticket is
    accepted at most once. *)

From S2P Require Export Accounts CryptoProps.

Open Scope N_scope.
Open Scope hype_scope.

(** ** Laws of the library code *)

(** The year 10000; a text keeps microseconds. *)
Definition MAX_TIME : N := 253402300800 * NANOS.
Class ChronoLaws `{ChronoLib} := {
  rfc3339_reads t : t < MAX_TIME → parse_rfc3339 (to_rfc3339 t) = Some (t / 1000 * 1000);
  rfc3339_micros t : t < MAX_TIME → to_rfc3339 (t / 1000 * 1000) = to_rfc3339 t;
  rfc3339_valid t : t < MAX_TIME → valid_text (to_rfc3339 t);
  rfc3339_no_bar t : t < MAX_TIME → 124 ∉ to_rfc3339 t;
}.
Class UuidLaws `{UuidLib} := {
  uuid_reads u : uuid_parse (uuid_text u) = Some u;
  uuid_valid u : valid_text (uuid_text u);
}.
#[export] Instance uuid_text_inj `{UuidLaws} : Inj (=) (=) uuid_text.
Proof. intros u v E. pose proof (uuid_reads u) as Hu. rewrite E, uuid_reads in Hu. by injection Hu. Qed.

(** ** A toy instance: digits in base 2{^15}, from code point 1000 *)

Fixpoint toy_digits (k : nat) (n : N) : text :=
  match k with O => [] | S k => toy_digits k (n / 32768) ++ [1000 + n mod 32768] end.
Definition toy_value (t : text) : N := foldl (λ acc c, acc * 32768 + (c - 1000)) 0 t.
Lemma toy_value_digits k n : n < 32768 ^ N.of_nat k → toy_value (toy_digits k n) = n.
Proof.
  revert n. induction k as [|k IH]; intros n; [cbn; lia|].
  rewrite Nat2N.inj_succ, N.pow_succ_r'. intros Hn. cbn [toy_digits]. unfold toy_value in *.
  rewrite foldl_app, IH by (apply N.Div0.div_lt_upper_bound; lia). cbn [foldl].
  rewrite (N.add_comm 1000), N.add_sub. symmetry. rewrite (N.mul_comm _ 32768). by apply N.div_mod.
Qed.
Lemma toy_digits_code k n : Forall (λ c, 1000 ≤ c < 33768) (toy_digits k n).
Proof.
  revert n. induction k as [|k IH]; intros n; cbn; [constructor|]. apply Forall_app. split; [done|].
  constructor; [|constructor]. pose proof (N.mod_lt n 32768 ltac:(done)). generalize dependent (n mod 32768). lia.
Qed.
Lemma toy_digits_valid k n : valid_text (toy_digits k n).
Proof. eapply Forall_impl; [apply toy_digits_code|]. cbn. unfold scalar. lia. Qed.
Lemma toy_digits_no_bar k n : 124 ∉ toy_digits k n.
Proof. intros H. pose proof (proj1 (Forall_forall _ _) (toy_digits_code k n) _ H). cbn in *. lia. Qed.

Definition toy_chrono : ChronoLib := {|
  to_rfc3339 t := toy_digits 5 (t / 1000);
  parse_rfc3339 s := if bool_decide (length s = 5%nat) then Some (toy_value s * 1000) else None;
|}.
Definition toy_uuid : UuidLib := {|
  uuid_text u := toy_digits (N.to_nat (N.size u)) u;
  uuid_parse s := Some (toy_value s);
|}.
Lemma length_toy_digits k n : length (toy_digits k n) = k.
Proof. revert n. induction k as [|k IH]; intros n; cbn; [done|]. rewrite length_app, IH. cbn. lia. Qed.
#[export] Instance toy_chrono_laws : @ChronoLaws toy_chrono.
Proof.
  constructor; unfold parse_rfc3339, to_rfc3339, toy_chrono; intros t Ht.
  - rewrite bool_decide_eq_true_2 by apply length_toy_digits. rewrite toy_value_digits; [done|].
    apply N.Div0.div_lt_upper_bound. etransitivity; [exact Ht|reflexivity].
  - by rewrite N.div_mul.
  - apply toy_digits_valid.
  - apply toy_digits_no_bar.
Defined.
#[export] Instance toy_uuid_laws : @UuidLaws toy_uuid.
Proof.
  constructor; unfold uuid_parse, uuid_text, toy_uuid; intros u; [|apply toy_digits_valid].
  rewrite toy_value_digits; [done|]. rewrite N2Nat.id. apply N.lt_le_trans with (2 ^ N.size u); [apply N.size_gt|].
  by apply N.pow_le_mono_l.
Defined.

(** ** The operations on the tables *)

Inductive AccountOp :=
| OpUpsertIdentity (now : N) (key : PublicKey)
| OpInsertDevice (id : Uuid) (now : N) (identity_id : text) (key : PublicKey) (name : text) (role : DeviceRole)
| OpRevokeDevice (now : N) (id : Uuid)
| OpTouchDevice (now : N) (id : Uuid)
| OpInsertChallenge (now : N) (id : text) (operation : Operation) (key : PublicKey) (owner device_key : option text)
    (challenge : list byte) (expires_at : N)
| OpClaimChallenge (now later : N) (id : text)
| OpDeleteChallenges (now : N)
| OpInsertTicket (now : N) (hash : text) (kind : PrincipalKind) (principal identity_id path : text) (scopes : list text)
    (expires_at : N)
| OpConsumeTicket (now later : N) (hash path : text)
| OpDeleteTickets (now : N)
| OpInsertSigningKey (now later : N) (kid : text) (nonce ciphertext : list byte) (overlap : Z)
| OpPruneSigningKeys (now : N)
| OpPutIdempotent (now : N) (hash principal method path request_hash : text) (status : N) (body : text)
| OpDeleteIdempotency (now : N) (retention : Z)
| OpRecordRegistration (now : N) (source : text)
| OpDeleteRegistrations (now : N).

Section ops.
Context `{CryptoLib, ChronoLib, UuidLib}.

(** A failed statement changes nothing. *)
Definition committed_or {A} (a : Accounts) (r : ApiResult (A * Accounts)) : Accounts :=
  match r with Ok (_, a') => a' | Err _ => a end.
Definition apply_op (op : AccountOp) (a : Accounts) : Accounts :=
  match op with
  | OpUpsertIdentity now key => committed_or a (upsert_identity now key a)
  | OpInsertDevice id now identity key name role => committed_or a (insert_device id now identity key name role a)
  | OpRevokeDevice now id => (revoke_device now id a).2
  | OpTouchDevice now id => touch_device now id a
  | OpInsertChallenge now id operation key owner device_key challenge expires_at =>
      committed_or a (insert_challenge now id operation key owner device_key challenge expires_at a)
  | OpClaimChallenge now later id => (claim_challenge now later id a).2
  | OpDeleteChallenges now => (delete_expired_challenges now a).2
  | OpInsertTicket now hash kind principal identity path scopes expires_at =>
      committed_or a (insert_ticket now hash kind principal identity path scopes expires_at a)
  | OpConsumeTicket now later hash path => (consume_ticket now later hash path a).2
  | OpDeleteTickets now => (delete_expired_tickets now a).2
  | OpInsertSigningKey now later kid nonce ciphertext overlap =>
      committed_or a (insert_signing_key now later kid nonce ciphertext overlap a)
  | OpPruneSigningKeys now => (prune_signing_keys now a).2
  | OpPutIdempotent now hash principal method path request_hash status body =>
      put_idempotent now hash principal method path request_hash status body a
  | OpDeleteIdempotency now retention => (delete_expired_idempotency now retention a).2
  | OpRecordRegistration now source => record_registration now source a
  | OpDeleteRegistrations now => (delete_old_registration_events now a).2
  end.

(** ** Single use *)

(** Whether an operation is a claim of the challenge, or a use of the ticket,
    that succeeds. *)
Definition claims_now (id : text) (op : AccountOp) (a : Accounts) : bool :=
  match op with
  | OpClaimChallenge now later id' =>
      bool_decide (id' = id) && match (claim_challenge now later id' a).1 with Claimed _ => true | _ => false end
  | _ => false
  end.
Definition uses_now (hash : text) (op : AccountOp) (a : Accounts) : bool :=
  match op with
  | OpConsumeTicket now later hash' path =>
      bool_decide (hash' = hash) && bool_decide (is_Some (consume_ticket now later hash' path a).1)
  | _ => false
  end.
(** How often that happens on a sequence of operations. *)
Fixpoint times (p : AccountOp → Accounts → bool) (ops : list AccountOp) (a : Accounts) : nat :=
  match ops with
  | [] => 0
  | op :: rest => (if p op a then 1 else 0) + times p rest (apply_op op a)
  end%nat.
Definition inserts_challenge (id : text) (op : AccountOp) : bool :=
  match op with OpInsertChallenge _ id' _ _ _ _ _ _ => bool_decide (id' = id) | _ => false end.
Definition inserts_ticket (hash : text) (op : AccountOp) : bool :=
  match op with OpInsertTicket _ hash' _ _ _ _ _ _ => bool_decide (hash' = hash) | _ => false end.

(** Consumed or gone. *)
Definition challenge_spent (id : text) (a : Accounts) : Prop :=
  ∀ r, ac_challenges a !! id = Some r → cr_consumed_at r ≠ None.
Definition ticket_spent (hash : text) (a : Accounts) : Prop :=
  ∀ r, ac_tickets a !! hash = Some r → tr_consumed_at r ≠ None.

Lemma claim_spends now later id a : challenge_spent id (claim_challenge now later id a).2.
Proof.
  unfold challenge_spent, claim_challenge. intros r'.
  destruct (ac_challenges a !! id) as [r|] eqn:E; cbn; [|congruence].
  destruct (cr_consumed_at r) eqn:Ec; [cbn; congruence|].
  destruct (_ <? _); [|destruct (op_parse _)]; cbn; rewrite lookup_insert_eq; intros [= <-]; done.
Qed.
Lemma use_spends now later hash path a : ticket_spent hash (consume_ticket now later hash path a).2.
Proof.
  unfold ticket_spent, consume_ticket. intros r'.
  destruct (ac_tickets a !! hash) as [r|] eqn:E; cbn; [|congruence].
  destruct (tr_consumed_at r) eqn:Ec; [cbn; congruence|].
  repeat case_match; cbn; rewrite lookup_insert_eq; intros [= <-]; done.
Qed.
(** An operation of another table leaves this one. *)
Ltac other_table :=
  unfold committed_or, upsert_identity, insert_device, insert_challenge, insert_ticket, insert_signing_key, put_idempotent,
    claim_challenge, consume_ticket, revoke_device, touch_device;
  repeat case_match; cbn;
  repeat match goal with E : _ = Ok _ |- _ => injection E as <- <- | E : Err _ = Ok _ |- _ => discriminate E end;
  cbn; solve [eauto].

(** A row of challenges or tickets after an operation is the row before it,
    unless it was consumed or inserted. *)
Lemma apply_challenges op a id r' :
  inserts_challenge id op = false → ac_challenges (apply_op op a) !! id = Some r' →
  ∃ r, ac_challenges a !! id = Some r ∧ (r' = r ∨ cr_consumed_at r' ≠ None).
Proof.
  destruct op; cbn [apply_op inserts_challenge]; intros Hi; try other_table.
  - unfold committed_or, insert_challenge. apply bool_decide_eq_false in Hi. repeat case_match; simplify_eq; [|eauto].
    cbn. rewrite lookup_insert_ne by done. eauto.
  - unfold claim_challenge. destruct (ac_challenges a !! id0) as [r|] eqn:E; cbn; [|eauto].
    destruct (cr_consumed_at r) eqn:Ec; [cbn; eauto|].
    destruct (decide (id0 = id)) as [->|Hne].
    + repeat case_match; cbn; rewrite lookup_insert_eq; intros [= <-]; eauto.
    + repeat case_match; cbn; rewrite lookup_insert_ne by done; eauto.
  - cbn. intros [E _]%map_lookup_filter_Some. eauto.
Qed.
Lemma apply_tickets op a hash r' :
  inserts_ticket hash op = false → ac_tickets (apply_op op a) !! hash = Some r' →
  ∃ r, ac_tickets a !! hash = Some r ∧ (r' = r ∨ tr_consumed_at r' ≠ None).
Proof.
  destruct op; cbn [apply_op inserts_ticket]; intros Hi; try other_table.
  - cbn. intros [E _]%map_lookup_filter_Some. eauto.
  - unfold committed_or, insert_ticket. apply bool_decide_eq_false in Hi. repeat case_match; simplify_eq; [|eauto].
    cbn. rewrite lookup_insert_ne by done. eauto.
  - unfold consume_ticket. destruct (ac_tickets a !! hash0) as [r|] eqn:E; cbn; [|eauto].
    destruct (tr_consumed_at r) eqn:Ec; [cbn; eauto|].
    destruct (decide (hash0 = hash)) as [->|Hne].
    + repeat case_match; cbn; rewrite lookup_insert_eq; intros [= <-]; eauto.
    + repeat case_match; cbn; rewrite lookup_insert_ne by done; eauto.
  - cbn. intros [E _]%map_lookup_filter_Some. eauto.
Qed.
Lemma stays_spent id hash op a :
  (inserts_challenge id op = false → challenge_spent id a → challenge_spent id (apply_op op a))
  ∧ (inserts_ticket hash op = false → ticket_spent hash a → ticket_spent hash (apply_op op a)).
Proof.
  split; intros Hi Hs r' Hr'.
  - destruct (apply_challenges _ _ _ _ Hi Hr') as (r & Hr & [->|?]); eauto.
  - destruct (apply_tickets _ _ _ _ Hi Hr') as (r & Hr & [->|?]); eauto.
Qed.
Lemma spent_not_accepted id hash op a :
  (challenge_spent id a → claims_now id op a = false) ∧ (ticket_spent hash a → uses_now hash op a = false).
Proof.
  split; intros Hs; destruct op as [| | | | |now later id'| | |now later hash' path| | | | | | |]; try done; cbn.
  - destruct (decide (id' = id)) as [->|]; [|by rewrite bool_decide_eq_false_2].
    rewrite bool_decide_eq_true_2 by done. unfold claim_challenge.
    destruct (ac_challenges a !! id) as [r|] eqn:E; [|done]. pose proof (Hs r E). by destruct (cr_consumed_at r).
  - destruct (decide (hash' = hash)) as [->|]; [|by rewrite bool_decide_eq_false_2].
    rewrite bool_decide_eq_true_2 by done. unfold consume_ticket.
    destruct (ac_tickets a !! hash) as [r|] eqn:E; [|by rewrite bool_decide_eq_false_2 by (by intros [])].
    pose proof (Hs r E). destruct (tr_consumed_at r); [|done]. by rewrite bool_decide_eq_false_2 by (by intros []).
Qed.
(** A predicate that, once false, stays false holds at most once if it ends itself. *)
Lemma times_at_most_once p (spent : Accounts → Prop) (fresh : AccountOp → bool) ops a :
  (∀ op a, spent a → p op a = false) →
  (∀ op a, fresh op = true → p op a = true → spent (apply_op op a)) →
  (∀ op a, fresh op = true → spent a → spent (apply_op op a)) →
  forallb fresh ops = true → (times p ops a ≤ 1)%nat ∧ (spent a → times p ops a = 0)%nat.
Proof.
  intros Ha Hb Hc. revert a. induction ops as [|op ops IH]; intros a; cbn; [lia|].
  intros [Hop Hops]%andb_true_iff. destruct (IH (apply_op op a) Hops) as [IHle IHz]. split.
  - destruct (p op a) eqn:E; [rewrite IHz; [done|by apply Hb]|done].
  - intros Hs. rewrite Ha, IHz by auto. done.
Qed.

(** C25: on any sequence of operations on the tables in which an identifier is
    not issued again, a challenge is claimed at most once, however often and
    whenever it is tried, and a ticket is accepted at most once. *)
Theorem single_use id hash ops a :
  forallb (λ op, negb (inserts_challenge id op) && negb (inserts_ticket hash op)) ops = true →
  (times (claims_now id) ops a ≤ 1)%nat ∧ (times (uses_now hash) ops a ≤ 1)%nat.
Proof.
  intros Hf. split.
  - apply (times_at_most_once (claims_now id) (challenge_spent id) _ ops a) in Hf as [? _]; [done|..].
    + intros op b. apply (spent_not_accepted id hash).
    + intros op b _. destruct op; try done. cbn. intros [->%bool_decide_eq_true _]%andb_true_iff. apply claim_spends.
    + intros op b [Hc _]%andb_true_iff. apply (stays_spent id hash). by destruct (inserts_challenge id op).
  - apply (times_at_most_once (uses_now hash) (ticket_spent hash) _ ops a) in Hf as [? _]; [done|..].
    + intros op b. apply (spent_not_accepted id hash).
    + intros op b _. destruct op; try done. cbn. intros [->%bool_decide_eq_true _]%andb_true_iff. apply use_spends.
    + intros op b [_ Hc]%andb_true_iff. apply (stays_spent id hash). by destruct (inserts_ticket hash op).
Qed.

(** ** Reachable tables *)

Definition run_ops (ops : list AccountOp) (a : Accounts) : Accounts := foldl (λ a op, apply_op op a) a ops.
(** The tables some sequence of operations makes of [a0]. *)
Definition reaches (a0 a : Accounts) : Prop := ∃ ops, a = run_ops ops a0.
Lemma reaches_refl a : reaches a a.
Proof. by exists []. Qed.
Lemma reaches_op a0 a op : reaches a0 a → reaches a0 (apply_op op a).
Proof. intros [ops ->]. exists (ops ++ [op]). unfold run_ops. by rewrite foldl_app. Qed.
Lemma reaches_trans a b c : reaches a b → reaches b c → reaches a c.
Proof. intros [ops1 ->] [ops2 ->]. exists (ops1 ++ ops2). unfold run_ops. by rewrite foldl_app. Qed.
Lemma reaches_ind_from (J : Accounts → Prop) a0 a :
  J a0 → (∀ op b, J b → J (apply_op op b)) → reaches a0 a → J a.
Proof.
  intros H0' Hs [ops ->]. revert a0 H0'. induction ops as [|op ops IH]; intros a0 H0'; [done|]. apply IH. auto.
Qed.

(** ** What the rows say of their keys *)

Definition identity_key (r : IdentityRec) : PublicKey := mkPublicKey (ir_algorithm r) (ir_public_key r).
Definition device_key (r : DeviceRec) : PublicKey := mkPublicKey (dc_algorithm r) (dc_public_key r).
Definition challenge_key (r : ChallengeRec) : PublicKey := mkPublicKey (cr_algorithm r) (cr_public_key r).

(** An identity is named by its key; a device has a known owner and role, and a
    key no other device has; a challenge names its key and a known operation. *)
Record accounts_wf (a : Accounts) : Prop := {
  wf_identities id r : ac_identities a !! id = Some r → id = key_fingerprint (identity_key r);
  wf_owner id r : ac_devices a !! id = Some r → is_Some (ac_identities a !! dc_identity_id r);
  wf_devices id r : ac_devices a !! id = Some r →
    dc_key_fingerprint r = key_fingerprint (device_key r) ∧ is_Some (role_parse (dc_role r));
  wf_unique id1 id2 r1 r2 : ac_devices a !! id1 = Some r1 → ac_devices a !! id2 = Some r2 →
    dc_key_fingerprint r1 = dc_key_fingerprint r2 → id1 = id2;
  wf_challenges id r : ac_challenges a !! id = Some r →
    cr_key_fingerprint r = key_fingerprint (challenge_key r) ∧ is_Some (op_parse (cr_operation r));
}.

Lemma role_parse_str role : role_parse (lit (role_as_str role)) = Some role.
Proof. by destruct role. Qed.
Lemma op_parse_str o : op_parse (lit (op_as_str o)) = Some o.
Proof. by destruct o. Qed.
Lemma find_device_none p a id r : find_device p a = None → ac_devices a !! id = Some r → p r = false.
Proof.
  unfold find_device. intros Hn Hr. destruct (p r) eqn:E; [|done]. exfalso.
  apply elem_of_map_to_list in Hr.
  assert ((id, r) ∈ filter (λ '(_, r), p r = true) (map_to_list (ac_devices a))) as Hin by by apply list_elem_of_filter.
  destruct (filter _ _); [by apply elem_of_nil in Hin|done].
Qed.
Lemma find_device_some p a id r : find_device p a = Some (id, r) → ac_devices a !! id = Some r ∧ p r = true.
Proof.
  unfold find_device. intros E. rewrite <- elem_of_map_to_list.
  assert ((id, r) ∈ filter (λ '(_, r), p r = true) (map_to_list (ac_devices a))) as Hin.
  { destruct (filter _ _); [done|]. injection E as ->. by left. }
  by apply list_elem_of_filter in Hin as [? ?].
Qed.
(** The fields [accounts_wf] reads of a device are not the ones an update
    writes. *)
Definition same_device (r r' : DeviceRec) : Prop :=
  dc_identity_id r' = dc_identity_id r ∧ dc_key_fingerprint r' = dc_key_fingerprint r
  ∧ device_key r' = device_key r ∧ dc_role r' = dc_role r.
Lemma wf_same a a' :
  ac_identities a' = ac_identities a →
  (∀ id r', ac_devices a' !! id = Some r' → ∃ r, ac_devices a !! id = Some r ∧ same_device r r') →
  (∀ id r', ac_challenges a' !! id = Some r' → ∃ r, ac_challenges a !! id = Some r
     ∧ cr_key_fingerprint r' = cr_key_fingerprint r ∧ challenge_key r' = challenge_key r ∧ cr_operation r' = cr_operation r) →
  accounts_wf a → accounts_wf a'.
Proof.
  intros Hi Hd Hc [Wi Wo Wd Wu Wc]. split.
  - intros id r. rewrite Hi. apply Wi.
  - intros id r' (r & Hr & E & _)%Hd. rewrite Hi, E. by eapply Wo.
  - intros id r' (r & Hr & _ & E1 & E2 & E3)%Hd. rewrite E1, E2, E3. by eapply Wd.
  - intros id1 id2 r1' r2' (r1 & Hr1 & _ & E1 & _)%Hd (r2 & Hr2 & _ & E2 & _)%Hd. rewrite E1, E2. by apply Wu.
  - intros id r' (r & Hr & E1 & E2 & E3)%Hc. rewrite E1, E2, E3. by eapply Wc.
Qed.
Lemma wf_altered a f id :
  (∀ r, same_device r (f r)) → accounts_wf a → accounts_wf (set_devices (alter f id (ac_devices a)) a).
Proof.
  intros Hf. apply wf_same; [done| |cbn; eauto 6]. cbn. intros id' r'. destruct (decide (id = id')) as [<-|Hne].
  - rewrite lookup_alter_eq. destruct (ac_devices a !! id); [|done]. intros [= <-]. eauto.
  - rewrite lookup_alter_ne by done. intros Hr. exists r'. by repeat split.
Qed.
Lemma wf_identity a key r :
  identity_key r = key → accounts_wf a →
  accounts_wf (set_identities (<[key_fingerprint key := r]> (ac_identities a)) a).
Proof.
  intros <- [Wi Wo Wd Wu Wc]. split; cbn; try done.
  - intros id r'. destruct (decide (id = key_fingerprint (identity_key r))) as [->|Hne].
    + by rewrite lookup_insert_eq; intros [= <-].
    + rewrite lookup_insert_ne by done. apply Wi.
  - intros id r' Hr'. apply lookup_insert_is_Some'. right. by eapply Wo.
Qed.
Lemma wf_device a id r :
  is_Some (ac_identities a !! dc_identity_id r) → dc_key_fingerprint r = key_fingerprint (device_key r) →
  is_Some (role_parse (dc_role r)) → (∀ id' r', ac_devices a !! id' = Some r' → dc_key_fingerprint r' ≠ dc_key_fingerprint r) →
  accounts_wf a → accounts_wf (set_devices (<[id := r]> (ac_devices a)) a).
Proof.
  intros Ho Hk Hrole Hu [Wi Wo Wd Wu Wc]. split; cbn; try done.
  - intros id' r' [[<- <-]|[_ ?]]%lookup_insert_Some; [done|by eapply Wo].
  - intros id' r' [[<- <-]|[_ ?]]%lookup_insert_Some; [done|by eapply Wd].
  - intros id1 id2 r1 r2 [[<- <-]|[_ H1']]%lookup_insert_Some [[<- <-]|[_ H2']]%lookup_insert_Some E; [done|..].
    + by destruct (Hu _ _ H2').
    + by destruct (Hu _ _ H1').
    + by eapply Wu.
Qed.
Lemma wf_challenge a id r :
  cr_key_fingerprint r = key_fingerprint (challenge_key r) → is_Some (op_parse (cr_operation r)) →
  accounts_wf a → accounts_wf (set_challenges (<[id := r]> (ac_challenges a)) a).
Proof.
  intros Hk Ho [Wi Wo Wd Wu Wc]. split; cbn; try done.
  intros id' r' [[<- <-]|[_ ?]]%lookup_insert_Some; [done|by eapply Wc].
Qed.

Lemma wf_rest a a' :
  accounts_wf a → ac_identities a' = ac_identities a → ac_devices a' = ac_devices a → ac_challenges a' = ac_challenges a →
  accounts_wf a'.
Proof.
  intros Hw Ei Ed Ec. revert Hw. apply wf_same; [done|rewrite Ed|rewrite Ec]; intros id r Hr; exists r; by repeat split.
Qed.
Lemma same_revoked at_ r : same_device r (revoke_rec at_ r).
Proof. by repeat split. Qed.
Lemma same_seen at_ r : same_device r (seen_rec at_ r).
Proof. by repeat split. Qed.
Lemma wf_insert_device id now identity key name role a :
  accounts_wf a → accounts_wf (committed_or a (insert_device id now identity key name role a)).
Proof.
  intros Hw. unfold insert_device. destruct (bool_decide _); [done|].
  destruct (find_device _ a) as [d|] eqn:Ef; [done|]. rewrite bool_decide_eq_false_2 by (by intros []).
  destruct (identity_exists identity a) eqn:Ei; [|done]. apply wf_device; cbn; [|by destruct key|by rewrite role_parse_str| |done].
  - by apply bool_decide_eq_true in Ei.
  - intros id' r' Hr'. pose proof (find_device_none _ _ _ _ Ef Hr') as Hn. by apply bool_decide_eq_false in Hn.
Qed.
Lemma wf_claim now later id a : accounts_wf a → accounts_wf (claim_challenge now later id a).2.
Proof.
  intros Hw. unfold claim_challenge. destruct (ac_challenges a !! id) as [r|] eqn:E; [|done].
  destruct (cr_consumed_at r); [done|]. destruct (wf_challenges _ Hw _ _ E) as [Hk Ho].
  assert (accounts_wf (set_challenges (<[id := consume_rec (to_rfc3339 now) r]> (ac_challenges a)) a)) by by apply wf_challenge.
  by repeat case_match.
Qed.

Lemma wf_apply op a : accounts_wf a → accounts_wf (apply_op op a).
Proof.
  intros Hw. destruct op; cbn [apply_op]; try (apply (wf_rest _ _ Hw); reflexivity).
  - unfold upsert_identity. repeat case_match; try done. apply wf_identity; [by destruct key|done].
  - by apply wf_insert_device.
  - apply (wf_rest (set_devices (alter (revoke_rec (to_rfc3339 now)) id (ac_devices a)) a)); [|done..].
    apply wf_altered; [apply same_revoked|done].
  - apply wf_altered; [apply same_seen|done].
  - unfold insert_challenge. case_match; [done|]. apply wf_challenge; [by destruct key|cbn; by rewrite op_parse_str|done].
  - by apply wf_claim.
  - revert Hw. apply wf_same; [done| |].
    + intros id' r' Hr. exists r'. by repeat split.
    + cbn. intros id' r' [Hr _]%map_lookup_filter_Some. eauto 6.
  - unfold insert_ticket. by case_match; [|apply (wf_rest a)].
  - unfold consume_ticket. repeat case_match; try done; by apply (wf_rest a).
  - unfold insert_signing_key. by case_match; [|apply (wf_rest a)].
  - unfold put_idempotent. by case_match; [|apply (wf_rest a)].
Qed.

(** C26: every operation keeps the tables sound: an identity is named by the
    fingerprint of its key; a device has a registered owner, a known role and a
    key of its own, which no second device has; a challenge is stored with the
    fingerprint of its key and a known operation. The empty tables are sound. *)
Theorem accounts_stay_wf op a : accounts_wf ac_empty ∧ (accounts_wf a → accounts_wf (apply_op op a)).
Proof.
  split; [split; cbn; intros *; rewrite ?lookup_empty; done|].
  apply wf_apply.
Qed.
(** ** Revocation *)

Definition revoked_rec (r : DeviceRec) : Prop := is_Some (dc_revoked_at r ≫= parse_rfc3339).
Definition revoked (id : Uuid) (a : Accounts) : Prop := ∃ r, ac_devices a !! id = Some r ∧ revoked_rec r.

(** A device with this property is stored. *)
Definition has_device (P : DeviceRec → Prop) (id : Uuid) (a : Accounts) : Prop := ∃ r, ac_devices a !! id = Some r ∧ P r.
(** What revoking a device and seeing it again leave. *)
Definition lasting (P : DeviceRec → Prop) : Prop :=
  ∀ at_ r, P r → P (revoke_rec at_ r) ∧ P (seen_rec at_ r).
Lemma device_alter P id id' f a :
  (∀ r, P r → P (f r)) → has_device P id a → has_device P id (set_devices (alter f id' (ac_devices a)) a).
Proof.
  intros Hf (r & Hr & Hv). destruct (decide (id' = id)) as [->|Hne].
  - exists (f r). cbn. rewrite lookup_alter_eq, Hr. auto.
  - exists r. cbn. by rewrite lookup_alter_ne.
Qed.
(** No operation removes a device or rewrites it otherwise. *)
Lemma device_apply P id op a : lasting P → has_device P id a → has_device P id (apply_op op a).
Proof.
  intros HP Hr. assert (∀ a', ac_devices a' = ac_devices a → has_device P id a') as Hsame 
    by (intros a' E; destruct Hr as (r & ? & ?); exists r; by rewrite E).
  destruct op; cbn [apply_op]; try (apply Hsame; reflexivity).
  - unfold upsert_identity. repeat case_match; try done; by apply Hsame.
  - unfold insert_device. destruct (bool_decide (is_Some (ac_devices a !! id0))) eqn:Ed; [done|].
    repeat case_match; simplify_eq/=; try done. apply bool_decide_eq_false in Ed. destruct Hr as (r & Hr & Hv).
    exists r. cbn. rewrite lookup_insert_ne; [done|]. intros ->. eauto.
  - apply (device_alter P id id0 (revoke_rec (to_rfc3339 now))) in Hr; [exact Hr|]. intros r Hp. by apply HP.
  - apply (device_alter P id id0 (seen_rec (to_rfc3339 now))) in Hr; [exact Hr|]. intros r Hp. by apply HP.
  - unfold insert_challenge. case_match; [done|by apply Hsame].
  - apply Hsame. unfold claim_challenge. by repeat case_match.
  - unfold insert_ticket. case_match; [done|by apply Hsame].
  - apply Hsame. unfold consume_ticket. by repeat case_match.
  - unfold insert_signing_key. case_match; [done|by apply Hsame].
  - apply Hsame. unfold put_idempotent. by case_match.
Qed.
Lemma revoke_revokes `{!ChronoLaws} id now r a :
  now < MAX_TIME → ac_devices a !! id = Some r → dc_revoked_at r = None → revoked id (revoke_device now id a).2.
Proof.
  intros Hn Hr Ho. exists (revoke_rec (to_rfc3339 now) r). cbn. rewrite lookup_alter_eq, Hr. split; [done|].
  unfold revoked_rec. cbn. rewrite Ho. cbn. by rewrite rfc3339_reads.
Qed.
Lemma reaches_device P id a0 a : lasting P → has_device P id a0 → reaches a0 a → has_device P id a.
Proof. intros HP Hr. apply reaches_ind_from; [done|]. intros op b. by apply device_apply. Qed.
(** So no operation restores a revoked device. *)
Lemma reaches_revoked id a0 a : revoked id a0 → reaches a0 a → revoked id a.
Proof.
  apply reaches_device. intros at_ r. unfold revoked_rec. cbn. destruct (dc_revoked_at r); cbn; [done|by intros []].
Qed.
End ops.

(** ** Examples, on the toy library *)

#[local] Existing Instances toy_lib toy_chrono toy_uuid.
Definition example_key : PublicKey := mkPublicKey (lit ALGORITHM_ED25519) example_seed.
Definition example_ops : list AccountOp :=
  [OpClaimChallenge 10 11 (lit "c"); OpConsumeTicket 12 13 (lit "t") (lit "/p"); OpDeleteChallenges 14;
   OpClaimChallenge 15 16 (lit "c"); OpConsumeTicket 17 18 (lit "t") (lit "/p")].
Definition example_tables : Accounts :=
  run_ops [OpUpsertIdentity 1 example_key;
           OpInsertChallenge 2 (lit "c") AuthenticateIdentity example_key None None [x01] (60 * NANOS);
           OpInsertTicket 3 (lit "t") KIdentity (lit "who") (lit "who") (lit "/p") [lit TERMINALS_MIRROR] (60 * NANOS)]
    ac_empty.

Lemma single_use_witness :
  (times (claims_now (lit "c")) example_ops example_tables = 1
   ∧ times (uses_now (lit "t")) example_ops example_tables = 1)%nat
  ∧ ((times (claims_now (lit "c")) example_ops example_tables ≤ 1)%nat
     ∧ (times (uses_now (lit "t")) example_ops example_tables ≤ 1)%nat).
Proof. split; [by vm_compute|]. apply (single_use (lit "c") (lit "t") example_ops example_tables). by vm_compute. Defined.

Lemma accounts_stay_wf_witness :
  accounts_wf (apply_op (OpUpsertIdentity 1 example_key) ac_empty).
Proof. destruct (accounts_stay_wf (OpUpsertIdentity 1 example_key) ac_empty) as [He Hs]. exact (Hs He). Defined.
