(* ===== verification/Server.v ===== *)
(** * The server's shared state ([server/src/app.rs], the parts of
      [http/context.rs], [http/idempotency.rs] and [http/extract.rs] a handler
      runs through)

    [World] is what the handlers share: the account tables, the registry, the
    token signing keys and the rate limiter's buckets. A handler is a
    computation of [AppM] over [App], which beside the world holds what the
    outside does: the readings of the clocks, and what other tasks do to the
    world whenever the handler awaits the database. A statement or transaction
    takes the next fault of the registry's oracle, so a theorem about a handler
    holds for every pattern of failures and interference. *)

From S2P Require Export Accounts SettingsStore Registry Float64.

Open Scope N_scope.
Open Scope hype_scope.

(** ** State *)

Record KeyEntry := mkKeyEntry {
  ke_key : SigningKey;
  ke_created_at : N;
  ke_active : bool;
}.
Record RlBucket := mkRlBucket {
  rb_tokens : f64;
  rb_last_refill : N;
}.
Record World := mkWorld {
  wo_accounts : Accounts;
  wo_reg : Registry;
  wo_keys : list KeyEntry;
  wo_buckets : gmap text RlBucket;
}.
Definition put_accounts (v : Accounts) (w : World) : World := mkWorld v (wo_reg w) (wo_keys w) (wo_buckets w).
Definition put_reg (v : Registry) (w : World) : World := mkWorld (wo_accounts w) v (wo_keys w) (wo_buckets w).
Definition put_keys (v : list KeyEntry) (w : World) : World := mkWorld (wo_accounts w) (wo_reg w) v (wo_buckets w).
Definition put_buckets (v : gmap text RlBucket) (w : World) : World :=
  mkWorld (wo_accounts w) (wo_reg w) (wo_keys w) v.

(** [ap_clock] and [ap_instants]: what [now()] and [Instant::now()] answer next;
    the last answer is repeated. *)
Record App := mkApp {
  ap_world : World;
  ap_others : list (World → World);
  ap_now : N;
  ap_clock : list N;
  ap_instant : N;
  ap_instants : list N;
}.
Definition put_world (v : World) (s : App) : App :=
  mkApp v (ap_others s) (ap_now s) (ap_clock s) (ap_instant s) (ap_instants s).
Definition accounts (s : App) : Accounts := wo_accounts (ap_world s).

Definition AppM (A : Type) : Type := App → ApiResult A * App.
#[export] Instance AppM_ret : MRet AppM := λ A a s, (Ok a, s).
#[export] Instance AppM_bind : MBind AppM := λ A B k m s,
  match m s with (Ok a, s) => k a s | (Err e, s) => (Err e, s) end.
Definition fail {A} (e : ApiError) : AppM A := λ s, (Err e, s).
Definition lift {A} (r : ApiResult A) : AppM A := λ s, (r, s).
(** [if cond { return Err(e) }] *)
Definition refuse_if (b : bool) (e : ApiError) : AppM () := if b then fail e else mret ().
Definition some_or {A} (o : option A) (e : ApiError) : AppM A := match o with Some a => mret a | None => fail e end.
Definition app_gets {A} (f : World → A) : AppM A := λ s, (Ok (f (ap_world s)), s).
Definition app_modify (f : World → World) : AppM () := λ s, (Ok (), put_world (f (ap_world s)) s).
Definition reg_do {A} (f : Registry → A * Registry) : AppM A := λ s,
  let '(a, g) := f (wo_reg (ap_world s)) in (Ok a, put_world (put_reg g (ap_world s)) s).

(** [now()], [Instant::now()] *)
Definition read_clock : AppM N := λ s,
  match ap_clock s with
  | t :: ts => (Ok t, mkApp (ap_world s) (ap_others s) t ts (ap_instant s) (ap_instants s))
  | [] => (Ok (ap_now s), s)
  end.
Definition read_instant : AppM N := λ s,
  match ap_instants s with
  | t :: ts => (Ok t, mkApp (ap_world s) (ap_others s) (ap_now s) (ap_clock s) t ts)
  | [] => (Ok (ap_instant s), s)
  end.

(** Awaiting: other tasks run. *)
Definition await : AppM () := λ s,
  match ap_others s with
  | f :: fs => (Ok (), mkApp (f (ap_world s)) fs (ap_now s) (ap_clock s) (ap_instant s) (ap_instants s))
  | [] => (Ok (), s)
  end.
Definition take_fault : AppM () := λ s,
  let g := wo_reg (ap_world s) in
  let s' := put_world (put_reg (put_faults (tail (g_faults g)) g) (ap_world s)) s in
  match mjoin (head (g_faults g)) with Some e => (Err e, s') | None => (Ok (), s') end.
(** A statement or transaction on the accounts: it may find that others ran, it
    may fail, and when it fails it changes nothing. *)
Definition run_accounts {A} (f : Accounts → ApiResult (A * Accounts)) : AppM A := λ s,
  match f (accounts s) with
  | Ok (a, acc) => (Ok a, put_world (put_accounts acc (ap_world s)) s)
  | Err e => (Err e, s)
  end.
Definition acc_call {A} (f : Accounts → ApiResult (A * Accounts)) : AppM A :=
  _ ← await; _ ← take_fault; run_accounts f.
Definition acc_update {A} (f : Accounts → A * Accounts) : AppM A := acc_call (λ a, Ok (f a)).
Definition acc_read {A} (f : Accounts → A) : AppM A := acc_call (λ a, Ok (f a, a)).
(** A query of the terminals. *)
Definition terminal_read {A} (f : Tables → A) : AppM A :=
  _ ← await; _ ← take_fault; app_gets (λ w, f (g_db (wo_reg w))).

(** Errors that are dropped: [let _ = ...]. *)
Definition ignore {A} (m : AppM A) : AppM () := λ s, (Ok (), (m s).2).

(** ** Rate limiting ([RateLimiter]) *)

Definition composite_key (scope : string) (key : text) : text := lit scope ++ [1] ++ key.
(** [check_window], from the instants it reads: a new bucket's, [elapsed]'s, the
    refill's. *)
Definition take_token (i0 i1 i2 : N) (capacity window_seconds : Z) (b : option RlBucket) : bool * RlBucket :=
  let capacity := f64_of_Z capacity in
  let refill_per_second := f64_div capacity (f64_of_Z window_seconds) in
  let b := default (mkRlBucket capacity i0) b in
  let elapsed := as_secs_f64 (i1 - rb_last_refill b) in
  let tokens := f64_min (f64_add (rb_tokens b) (f64_mul elapsed refill_per_second)) capacity in
  if f64_le (f64_of_Z 1) tokens then (true, mkRlBucket (f64_sub tokens (f64_of_Z 1)) i2)
  else (false, mkRlBucket tokens i2).
Definition check_window (scope : string) (key : text) (capacity window_seconds : Z) : AppM bool :=
  if (capacity <=? 0)%Z || (window_seconds <=? 0)%Z then mret false
  else
    let composite := composite_key scope key in
    existing ← app_gets (λ w, wo_buckets w !! composite);
    i0 ← (match existing with Some _ => mret 0 | None => read_instant end);
    i1 ← read_instant;
    i2 ← read_instant;
    let '(ok, b) := take_token i0 i1 i2 capacity window_seconds existing in
    _ ← app_modify (λ w, put_buckets (<[composite := b]> (wo_buckets w)) w);
    mret ok.
Definition rate_check (scope : string) (key : text) (per_minute : Z) : AppM bool := check_window scope key per_minute 60.
Definition rate_sweep (now : N) (w : World) : World :=
  put_buckets (filter (λ '(_, b), now - rb_last_refill b < 600 * NANOS) (wo_buckets w)) w.

(** ** Tokens ([TokenService]) *)

Section tokens.
Context `{CryptoLib, ChronoLib, UuidLib, JsonText}.
Context (claims_to_vec : TokenClaims → list byte) (claims_from_slice : list byte → option TokenClaims).

Definition signing_keys (w : World) : list SigningKey := ke_key <$> wo_keys w.
Definition active_key (w : World) : option SigningKey := ke_key <$> find ke_active (wo_keys w).
Definition no_active_key : ApiError := api_internal (lit "no active token signing key").
Definition with_kid (kid : text) (c : TokenClaims) : TokenClaims :=
  mkTokenClaims (tc_jti c) (tc_sub c) (tc_principal c) (tc_identity_id c) (tc_iss c) (tc_aud c) (tc_iat c) (tc_exp c)
    (tc_scopes c) kid.
(** [mint] *)
Definition mint (claims : TokenClaims) : AppM text :=
  key ← app_gets active_key;
  key ← some_or key no_active_key;
  mret (mint_token claims_to_vec key (with_kid (sk_kid key) claims)).
(** [DateTime::timestamp] *)
Definition timestamp (t : N) : Z := Z.of_N (t / NANOS).
Definition timestamp_millis (t : N) : N := t / 1000000.
(** [verify] *)
Definition verify (token : text) (sn : Snapshot) : AppM TokenClaims :=
  keys_ ← app_gets signing_keys;
  now ← read_clock;
  let origin := sn_string keys.SERVER_PUBLIC_ORIGIN sn in
  lift (verify_token claims_from_slice token keys_ origin origin (timestamp now)
          (sn_int keys.AUTH_MAX_CLOCK_SKEW_SECONDS sn)).

(** [build_claims]; [random] is the identifier's bytes. *)
Definition seconds (z : Z) : N := Z.to_N z * NANOS.
Definition build_claims (issued : N) (random : list byte) (sn : Snapshot) (principal : PrincipalKind)
    (subject identity_id : text) (scopes : list text) : TokenClaims :=
  let origin := sn_string keys.SERVER_PUBLIC_ORIGIN sn in
  mkTokenClaims (b64_encode random) subject principal identity_id origin origin (timestamp issued)
    (timestamp (issued + seconds (sn_int keys.AUTH_ACCESS_TOKEN_TTL_SECONDS sn))) scopes [].

(** What drawing a signing key draws: its identifier's bytes, its secret, the
    nonce of its box; [box] is the bootstrap key. *)
Record KeyDraw := mkKeyDraw {
  kd_ulid : list byte;
  kd_secret : list byte;
  kd_nonce : list byte;
}.
Definition undecryptable : ApiError :=
  api_internal (lit "a stored token signing key could not be decrypted with the supplied bootstrap key material").
(** The loop of [refresh]: a retired key whose overlap has ended is left out. *)
Fixpoint open_keys (box : list byte) (stored : list StoredSigningKey) (entries : list KeyEntry)
    : AppM (list KeyEntry) :=
  match stored with
  | [] => mret entries
  | k :: rest =>
      expired ← (match st_active k, st_not_after k with
                 | false, Some t => now ← read_clock; mret (t <? now)
                 | _, _ => mret false
                 end);
      if (expired : bool) then open_keys box rest entries
      else
        match box_open box (st_nonce k) (st_ciphertext k) with
        | Some secret =>
            open_keys box rest (entries ++ [mkKeyEntry (mkSigningKey (st_kid k) secret) (st_created_at k) (st_active k)])
        | None => fail undecryptable
        end
  end.
(** [sort_by]: the active first, then the newest. *)
Definition entry_before (e1 e2 : KeyEntry) : Prop :=
  if ke_active e1 then (if ke_active e2 then ke_created_at e2 ≤ ke_created_at e1 else True)
  else (if ke_active e2 then False else ke_created_at e2 ≤ ke_created_at e1).
#[export] Instance entry_before_dec e1 e2 : Decision (entry_before e1 e2).
Proof. unfold entry_before. destruct (ke_active e1), (ke_active e2); apply _. Defined.
Definition idle_entry (e : KeyEntry) : KeyEntry := mkKeyEntry (ke_key e) (ke_created_at e) false.
(** [self.db.conn()] *)
Definition connection : AppM () := _ ← await; take_fault.
Definition draw_key (box : list byte) (draw : KeyDraw) (sn : Snapshot) : AppM SigningKey :=
  millis ← read_clock;
  let kid := new_ulid (timestamp_millis millis) (kd_ulid draw) in
  now ← read_clock;
  later ← read_clock;
  _ ← acc_call (insert_signing_key now later kid (kd_nonce draw) (aead_encrypt box (kd_nonce draw) (kd_secret draw))
                  (sn_int keys.AUTH_SIGNING_KEY_OVERLAP_SECONDS sn));
  mret (mkSigningKey kid (kd_secret draw)).
Definition refresh (box : list byte) (draw : KeyDraw) (sn : Snapshot) : AppM () :=
  _ ← connection;
  now ← read_clock;
  stored ← acc_read (load_signing_keys now);
  entries ← open_keys box stored [];
  entries ← (if existsb ke_active entries then mret entries
             else
               key ← draw_key box draw sn;
               created ← read_clock;
               mret (mkKeyEntry key created true :: (idle_entry <$> entries)));
  app_modify (put_keys (merge_sort entry_before entries)).
(** [rotate_if_needed]; a second key is drawn by [refresh] only if there is none. *)
Definition rotate_if_needed (box : list byte) (draw draw' : KeyDraw) (sn : Snapshot) : AppM bool :=
  active ← app_gets (λ w, find ke_active (wo_keys w));
  due ← (match active with
         | Some e =>
             now ← read_clock;
             mret (Z.of_N (seconds (sn_int keys.AUTH_SIGNING_KEY_ROTATION_SECONDS sn)) <? Z.of_N now - Z.of_N (ke_created_at e))%Z
         | None => mret true
         end);
  if negb due then mret false
  else
    _ ← connection;
    _ ← draw_key box draw sn;
    _ ← refresh box draw' sn;
    mret true.
End tokens.

(** ** A request's context *)

Record RequestContext := mkRequestContext {
  rc_client_ip : IpAddr;
  rc_secure : bool;
  rc_snapshot : Snapshot;
  rc_idempotency_key : option text;
}.
Definition client_key (c : RequestContext) : text := ip_text (rc_client_ip c).

(** A header's value by its name, when it is text. *)
Abbreviation Headers := (text → option text).

Section context.
Context `{JsonText}.

(** [resolve_client]; [conn] is the peer and whether TLS ended here. *)
Definition resolve_client (headers : Headers) (conn : option (IpAddr * bool)) (sn : Snapshot) : IpAddr * bool :=
  let peer_ip := from_option fst (V4 [0; 0; 0; 0]) conn in
  let tls := from_option snd false conn in
  if negb (sn_bool keys.SECURITY_TRUSTED_PROXY_ENABLED sn) then (peer_ip, tls)
  else if negb (in_networks (sn_list keys.SECURITY_TRUSTED_PROXY_NETWORKS sn) peer_ip) then (peer_ip, tls)
  else
    let first (v : text) : text := trim (default [] (head (split_at 44 v))) in
    let client_ip :=
      default peer_ip (v ← headers (sn_string keys.SECURITY_FORWARDED_FOR_HEADER sn); ip_parse (first v)) in
    let secure :=
      tls || from_option (λ v, eq_ignore_ascii_case (first v) (lit "https")) false
               (headers (sn_string keys.SECURITY_FORWARDED_PROTO_HEADER sn)) in
    (client_ip, secure).

Definition insecure_transport : ApiError :=
  api_new 403 "insecure_transport"
    (lit "this endpoint requires TLS; enable server.tls_enabled or run behind a trusted TLS-terminating proxy").
Definition enforce_transport (c : RequestContext) : ApiResult () :=
  let sn := rc_snapshot c in
  if rc_secure c then Ok ()
  else if negb (sn_bool keys.SECURITY_REQUIRE_SECURE_TRANSPORT sn) then Ok ()
  else if in_networks (sn_list keys.SECURITY_TLS_TERMINATED_BY_NETWORKS sn) (rc_client_ip c) then Ok ()
  else if sn_bool keys.SECURITY_ALLOW_INSECURE_LOOPBACK sn && is_loopback (rc_client_ip c) then Ok ()
  else Err insecure_transport.
End context.

(** [str::parse::<u64>] of the content length *)
Definition parse_u64 (t : text) : option N :=
  let t := match t with 43 :: (_ :: _) as t' => t' | _ => t end in
  match digits 10 t with
  | ((_ :: _) as ds, []) => if digits_value 10 ds <? two64 then Some (digits_value 10 ds) else None
  | _ => None
  end.
Definition enforce_body_limit (headers : Headers) (sn : Snapshot) : ApiResult () :=
  let limit := sn_u64 keys.LIMITS_MAX_REQUEST_BODY_BYTES sn in
  match headers (lit "content-length") ≫= parse_u64 with
  | Some length =>
      if limit <? length then
        Err (api_new 413 "payload_too_large"
               (lit "request body of " ++ num length ++ lit " bytes exceeds the " ++ num limit ++ lit " byte limit"))
      else Ok ()
  | None => Ok ()
  end.

(** What a handler answers. *)
Record Response := mkResponse {
  rs_status : N;
  rs_body : json;
  rs_location : option text;
}.
Definition respond (status : N) (body : json) : Response := mkResponse status body None.

(** ** Idempotency ([http/idempotency.rs]) *)

Section idempotency.
Context `{CryptoLib, ChronoLib, UuidLib, JsonText}.

Definition idempotency_extract (headers : Headers) (enabled : bool) : option text :=
  if negb enabled then None
  else
    v ← trim <$> headers (lit "idempotency-key");
    if is_empty v || (255 <? text_len v) then None else Some v.
Definition key_hash (scope method path key : text) : text :=
  sha256_hex (utf8 (scope ++ [1] ++ method ++ [1] ++ path ++ [1] ++ key)).

Definition idempotency_conflict : ApiError :=
  api_new 409 "idempotency_key_conflict"
    (lit "this Idempotency-Key was already used with a different request body").
(** A status below 100 or above 999 is no [StatusCode]. *)
Definition status_or_ok (n : N) : N := if (100 <=? n) && (n <? 1000) then n else 200.
Definition idempotency_lookup (context : RequestContext) (scope method path : text) (body : list byte) : AppM (option Response) :=
  match rc_idempotency_key context with
  | None => mret None
  | Some key =>
      existing ← acc_read (get_idempotent (key_hash scope method path key) scope);
      match existing with
      | None => mret None
      | Some existing =>
          if negb (bool_decide (ie_request_hash existing = sha256_hex body)) then fail idempotency_conflict
          else mret (Some (respond (status_or_ok (ie_status existing)) (default JNull (json_from_str (ie_body existing)))))
      end
  end.
Definition idempotency_store (context : RequestContext) (scope method path : text) (body : list byte) (status : N) (response : json)
    : AppM () :=
  match rc_idempotency_key context with
  | None => mret ()
  | Some key =>
      now ← read_clock;
      acc_update (λ a, ((), put_idempotent now (key_hash scope method path key) scope method path (sha256_hex body)
                              status (json_to_string response) a))
  end.
End idempotency.

(** ** Rejections ([http/extract.rs]) *)

(** [&t[..n]] on bytes: [None] when byte [n] is inside a character. *)
Fixpoint slice_to (n : N) (t : text) : option text :=
  match t with
  | [] => if n =? 0 then Some [] else None
  | c :: t' => if n =? 0 then Some [] else if n <? len_utf8 c then None else cons c <$> slice_to (n - len_utf8 c) t'
  end.
(** [clean]; [None] is a panic. *)
Definition clean (t : text) : option text :=
  let single := (λ c, if c =? 10 then 32 else c) <$> t in
  let trimmed := trim single in
  if 300 <? text_len trimmed then (λ s, s ++ [8230]) <$> slice_to 300 trimmed else Some trimmed.
