(* ===== verification/AppLogic.v ===== *)
(** * Reasoning about handlers

    [holds I m Q]: started in a world that satisfies [I], while the other tasks
    keep [I], the handler [m] keeps it too, and an answer of [m] satisfies [Q].
    [quiet]: nothing fails and nobody else runs, so a handler is a function of
    its world and its clocks; the equations [*_quiet] compute it. *)

From S2P Require Export Server.

Open Scope N_scope.
Open Scope hype_scope.

(** ** Handlers among other tasks *)

(** An invariant of the world that does not look at the fault oracle or at the
    limiter's buckets. *)
Class Framed (I : World → Prop) := {
  framed_faults fs w : I w → I (put_reg (put_faults fs (wo_reg w)) w);
  framed_buckets b w : I w → I (put_buckets b w);
}.

Definition among (I : World → Prop) (s : App) : Prop :=
  I (ap_world s) ∧ Forall (λ f : World → World, ∀ w, I w → I (f w)) (ap_others s).

Definition holds {A} (I : World → Prop) (m : AppM A) (Q : A → Prop) : Prop :=
  ∀ s, among I s → among I (m s).2 ∧ ∀ a, (m s).1 = Ok a → Q a.

Create HintDb handlers.

Section rules.
Context (I : World → Prop) `{!Framed I}.

Lemma among_world s w : among I s → I w → among I (put_world w s).
Proof. by intros [_ ?]. Qed.
Lemma holds_ret {A} (a : A) (Q : A → Prop) : Q a → holds I (mret a) Q.
Proof. intros HQ s Hs. split; [done|]. cbv. by intros a' [= <-]. Qed.
Lemma holds_bind {A B} (m : AppM A) (k : A → AppM B) (P : A → Prop) Q :
  holds I m P → (∀ a, P a → holds I (k a) Q) → holds I (m ≫= k) Q.
Proof.
  intros Hm Hk s Hs. destruct (Hm s Hs) as [Hs' HP].
  unfold mbind, AppM_bind. destruct (m s) as [[a|e] s']; cbn in *; [|done]. apply (Hk a); [by apply HP|done].
Qed.
Lemma holds_weaken {A} (m : AppM A) (P Q : A → Prop) : holds I m P → (∀ a, P a → Q a) → holds I m Q.
Proof. intros Hm HPQ s Hs. destruct (Hm s Hs) as [? HP]. split; [done|]. intros a Ha. by apply HPQ, HP. Qed.
Lemma holds_fail {A} e (Q : A → Prop) : holds I (fail e) Q.
Proof. by intros s Hs. Qed.
Lemma holds_lift {A} (r : ApiResult A) (Q : A → Prop) : (∀ a, r = Ok a → Q a) → holds I (lift r) Q.
Proof. by intros HQ s Hs. Qed.
Lemma holds_refuse_if b e (Q : () → Prop) : (b = false → Q ()) → holds I (refuse_if b e) Q.
Proof. intros HQ. destruct b; [apply holds_fail|by apply holds_ret, HQ]. Qed.
Lemma holds_some_or {A} (o : option A) e (Q : A → Prop) : (∀ a, o = Some a → Q a) → holds I (some_or o e) Q.
Proof. intros HQ. destruct o; [by apply holds_ret, HQ|apply holds_fail]. Qed.
Lemma holds_gets {A} (f : World → A) (Q : A → Prop) : (∀ w, I w → Q (f w)) → holds I (app_gets f) Q.
Proof. intros HQ s Hs. split; [done|]. intros a [= <-]. apply HQ, Hs. Qed.
Lemma holds_modify f (Q : () → Prop) : (∀ w, I w → I (f w)) → Q () → holds I (app_modify f) Q.
Proof. intros Hf HQ s Hs. split; [apply among_world, Hf, Hs; done|]. by intros [] _. Qed.
Lemma holds_reg_do {A} (f : Registry → A * Registry) (Q : A → Prop) :
  (∀ w a g, I w → f (wo_reg w) = (a, g) → I (put_reg g w) ∧ Q a) → holds I (reg_do f) Q.
Proof.
  intros Hf s Hs. unfold reg_do. destruct (f _) as [a g] eqn:E. destruct (Hf _ _ _ (proj1 Hs) E) as [HI HQ].
  split; [by apply among_world|]. by intros a' [= <-].
Qed.
Lemma holds_clock (Q : N → Prop) : (∀ t, Q t) → holds I read_clock Q.
Proof. intros HQ s Hs. unfold read_clock. destruct (ap_clock s); (split; [done|]); intros; apply HQ. Qed.
Lemma holds_instant (Q : N → Prop) : (∀ t, Q t) → holds I read_instant Q.
Proof. intros HQ s Hs. unfold read_instant. destruct (ap_instants s); (split; [done|]); intros; apply HQ. Qed.
Lemma holds_await (Q : () → Prop) : Q () → holds I await Q.
Proof.
  intros HQ s [Hw Ho]. unfold await. destruct (ap_others s) as [|f fs] eqn:E.
  - split; [by split; [|cbn; rewrite E]|]. by intros [] _.
  - inversion Ho; subst. split; [split; cbn; auto|]. by intros [] _.
Qed.
Lemma holds_take_fault (Q : () → Prop) : Q () → holds I take_fault Q.
Proof.
  intros HQ s Hs. unfold take_fault.
  assert (among I (put_world (put_reg (put_faults (tail (g_faults (wo_reg (ap_world s)))) (wo_reg (ap_world s)))
            (ap_world s)) s)) by (by apply among_world, framed_faults, Hs).
  destruct (mjoin _); (split; [done|]); [done|by intros [] _].
Qed.
Lemma holds_run_accounts {A} (f : Accounts → ApiResult (A * Accounts)) (Q : A → Prop) :
  (∀ w a acc, I w → f (wo_accounts w) = Ok (a, acc) → I (put_accounts acc w) ∧ Q a) → holds I (run_accounts f) Q.
Proof.
  intros Hf s Hs. unfold run_accounts. destruct (f (accounts s)) as [[a acc]|e] eqn:E; [|done].
  destruct (Hf _ _ _ (proj1 Hs) E) as [HI HQ]. split; [by apply among_world|]. by intros a' [= <-].
Qed.
Lemma holds_acc_call {A} (f : Accounts → ApiResult (A * Accounts)) (Q : A → Prop) :
  (∀ w a acc, I w → f (wo_accounts w) = Ok (a, acc) → I (put_accounts acc w) ∧ Q a) → holds I (acc_call f) Q.
Proof.
  intros Hf. apply holds_bind with (λ _, True); [by apply holds_await|]. intros _ _.
  apply holds_bind with (λ _, True); [by apply holds_take_fault|]. intros _ _. by apply holds_run_accounts.
Qed.
Lemma holds_acc_update {A} (f : Accounts → A * Accounts) (Q : A → Prop) :
  (∀ w a acc, I w → f (wo_accounts w) = (a, acc) → I (put_accounts acc w) ∧ Q a) → holds I (acc_update f) Q.
Proof. intros Hf. apply holds_acc_call. intros w a acc Hw [= E]. by eapply Hf. Qed.
Lemma put_accounts_same w : put_accounts (wo_accounts w) w = w.
Proof. by destruct w. Qed.
Lemma holds_acc_read {A} (f : Accounts → A) (Q : A → Prop) :
  (∀ w, I w → Q (f (wo_accounts w))) → holds I (acc_read f) Q.
Proof. intros Hf. apply holds_acc_call. intros w a acc Hw [= <- <-]. rewrite put_accounts_same. auto. Qed.
Lemma holds_terminal_read {A} (f : Tables → A) (Q : A → Prop) :
  (∀ w, I w → Q (f (g_db (wo_reg w)))) → holds I (terminal_read f) Q.
Proof.
  intros Hf. apply holds_bind with (λ _, True); [by apply holds_await|]. intros _ _.
  apply holds_bind with (λ _, True); [by apply holds_take_fault|]. intros _ _. by apply holds_gets.
Qed.
Lemma holds_ignore {A} (m : AppM A) (Q : () → Prop) : holds I m (λ _, True) → Q () → holds I (ignore m) Q.
Proof. intros Hm HQ s Hs. split; [by apply Hm|]. by intros [] _. Qed.
Lemma holds_check_window scope key capacity window (Q : bool → Prop) :
  (∀ b, Q b) → holds I (check_window scope key capacity window) Q.
Proof.
  intros HQ. unfold check_window. destruct (_ || _); [by apply holds_ret|].
  apply holds_bind with (λ _, True); [by apply holds_gets|]. intros existing _.
  apply holds_bind with (λ _, True); [destruct existing; [by apply holds_ret|by apply holds_instant]|]. intros i0 _.
  apply holds_bind with (λ _, True); [by apply holds_instant|]. intros i1 _.
  apply holds_bind with (λ _, True); [by apply holds_instant|]. intros i2 _.
  destruct (take_token _ _ _ _ _ _) as [ok b].
  apply holds_bind with (λ _, True); [by apply holds_modify; [intros; by apply framed_buckets|]|]. intros _ _.
  by apply holds_ret.
Qed.
Lemma holds_rate_check scope key per_minute (Q : bool → Prop) :
  (∀ b, Q b) → holds I (rate_check scope key per_minute) Q.
Proof. apply holds_check_window. Qed.
(** The limiter's guard of most handlers. *)
Lemma holds_if_check (c : bool) scope key n (Q : bool → Prop) :
  (∀ b, Q b) → holds I (if c then rate_check scope key n else mret true) Q.
Proof. intros HQ. destruct c; [by apply holds_rate_check|by apply holds_ret]. Qed.
End rules.

#[export] Instance framed_true : Framed (λ _, True).
Proof. done. Qed.
(** What the tables of accounts satisfy. *)
#[export] Instance framed_accounts (J : Accounts → Prop) : Framed (λ w, J (wo_accounts w)).
Proof. split; by destruct w. Qed.
(** What the terminals' tables satisfy. *)
#[export] Instance framed_tables (J : Tables → Prop) : Framed (λ w, J (g_db (wo_reg w))).
Proof. split; by destruct w as [? [] ? ?]. Qed.
Lemma alone_true s : among (λ _, True) s.
Proof. split; [done|]. apply Forall_forall. done. Qed.

(** A step that tells nothing about its answer. *)
Ltac holds_step :=
  match goal with
  | |- holds _ (read_clock) _ => apply holds_clock; [..]
  | |- holds _ (acc_read _) _ => apply holds_acc_read
  | |- holds _ (terminal_read _) _ => apply holds_terminal_read
  | |- holds _ (if _ then rate_check _ _ _ else mret true) _ => apply holds_if_check
  | |- holds _ (lift _) _ => apply holds_lift
  | |- holds _ (refuse_if _ _) _ => apply holds_refuse_if
  | |- holds _ (some_or _ _) _ => apply holds_some_or
  | |- holds _ (app_gets _) _ => apply holds_gets
  | |- holds _ (mret _) _ => apply holds_ret
  | |- holds _ (fail _) _ => apply holds_fail
  end.
(** The next statement of a handler, with what its rule says about its answer. *)
Tactic Notation "next_with" uconstr(P) := eapply (holds_bind _ _ _ P).
Ltac skip_next := eapply (holds_bind _ _ _ (λ _, True)); [try holds_step; try match goal with |- Framed _ => apply _ end; auto|intros ? _].

(** The branches of a conditional statement. *)
Ltac split_if :=
  match goal with
  | |- holds _ (if ?b then _ else _) _ => destruct b eqn:?
  | |- holds _ (match ?o with _ => _ end) _ => destruct o eqn:?
  end.

(** ** Handlers alone *)

Definition quiet (s : App) : Prop := ap_others s = [] ∧ g_faults (wo_reg (ap_world s)) = [].

Lemma quiet_world w s : quiet s → g_faults (wo_reg w) = [] → quiet (put_world w s).
Proof. by intros [? ?]. Qed.
Lemma quiet_accounts acc s : quiet s → quiet (put_world (put_accounts acc (ap_world s)) s).
Proof. by intros [? ?]. Qed.
Lemma put_faults_nil g : g_faults g = [] → put_faults (tail (g_faults g)) g = g.
Proof. destruct g; cbn. by intros ->. Qed.
Lemma put_reg_same w : put_reg (wo_reg w) w = w.
Proof. by destruct w. Qed.
Lemma put_world_same s : put_world (ap_world s) s = s.
Proof. by destruct s. Qed.
Lemma await_quiet s : quiet s → await s = (Ok (), s).
Proof. intros [E _]. unfold await. by rewrite E. Qed.
Lemma take_fault_quiet s : quiet s → take_fault s = (Ok (), s).
Proof.
  intros [_ E]. unfold take_fault. rewrite put_faults_nil by done. rewrite E, put_reg_same, put_world_same. done.
Qed.
Lemma acc_call_quiet {A} (f : Accounts → ApiResult (A * Accounts)) s : quiet s → acc_call f s = run_accounts f s.
Proof.
  intros Hq. unfold acc_call, mbind, AppM_bind. rewrite await_quiet by done. by rewrite take_fault_quiet.
Qed.
Lemma acc_read_quiet {A} (f : Accounts → A) s : quiet s → acc_read f s = (Ok (f (accounts s)), s).
Proof.
  intros Hq. unfold acc_read. rewrite acc_call_quiet by done. unfold run_accounts, accounts.
  by rewrite put_accounts_same, put_world_same.
Qed.
Lemma acc_update_quiet {A} (f : Accounts → A * Accounts) s :
  quiet s → acc_update f s = (Ok (f (accounts s)).1, put_world (put_accounts (f (accounts s)).2 (ap_world s)) s).
Proof.
  intros Hq. unfold acc_update. rewrite acc_call_quiet by done. unfold run_accounts. by destruct (f (accounts s)).
Qed.
Lemma bind_ok {A B} (m : AppM A) (k : A → AppM B) s a s' : m s = (Ok a, s') → (m ≫= k) s = k a s'.
Proof. unfold mbind, AppM_bind. by intros ->. Qed.
Lemma bind_err {A B} (m : AppM A) (k : A → AppM B) s e s' : m s = (Err e, s') → (m ≫= k) s = (Err e, s').
Proof. unfold mbind, AppM_bind. by intros ->. Qed.
(** The state left when the clock has been read [n] times. *)
Definition ticked (s : App) : App := (read_clock s).2.
Definition tick (s : App) : N := default (ap_now s) (head (ap_clock s)).
Lemma read_clock_tick s : read_clock s = (Ok (tick s), ticked s).
Proof. unfold read_clock, tick, ticked, read_clock. by destruct (ap_clock s). Qed.
Lemma ticked_world s : ap_world (ticked s) = ap_world s.
Proof. unfold ticked, read_clock. by destruct (ap_clock s). Qed.
Lemma ticked_quiet s : quiet s → quiet (ticked s).
Proof. unfold quiet, ticked, read_clock. by destruct (ap_clock s). Qed.
Lemma ticked_put w s : ticked (put_world w s) = put_world w (ticked s).
Proof. by destruct s as [w0 ? ? [] ? ?]. Qed.
Lemma tick_put w s : tick (put_world w s) = tick s.
Proof. done. Qed.

(** ** Handlers that succeed *)

Definition succeeds {A} (m : AppM A) (s : App) (Q : A → App → Prop) : Prop := ∃ a s', m s = (Ok a, s') ∧ Q a s'.

Lemma succeeds_ret {A} (a : A) s (Q : A → App → Prop) : Q a s → succeeds (mret a) s Q.
Proof. intros HQ. by exists a, s. Qed.
Lemma succeeds_bind {A B} (m : AppM A) (k : A → AppM B) s P Q :
  succeeds m s P → (∀ a s', P a s' → succeeds (k a) s' Q) → succeeds (m ≫= k) s Q.
Proof.
  intros (a & s' & E & HP) Hk. destruct (Hk a s' HP) as (b & s'' & E' & HQ). exists b, s''. by erewrite bind_ok.
Qed.
Lemma succeeds_lift {A B} (r : ApiResult A) a (k : A → AppM B) s Q :
  r = Ok a → succeeds (k a) s Q → succeeds (x ← lift r; k x) s Q.
Proof. by intros ->. Qed.
Lemma succeeds_some {A B} (o : option A) e a (k : A → AppM B) s Q :
  o = Some a → succeeds (k a) s Q → succeeds (x ← some_or o e; k x) s Q.
Proof. by intros ->. Qed.
Lemma succeeds_pass {B} b e (k : () → AppM B) s Q : b = false → succeeds (k ()) s Q → succeeds (x ← refuse_if b e; k x) s Q.
Proof. by intros ->. Qed.
Lemma succeeds_gets {A B} (f : World → A) (k : A → AppM B) s Q :
  succeeds (k (f (ap_world s))) s Q → succeeds (x ← app_gets f; k x) s Q.
Proof. done. Qed.

(** A quiet state for examples: these tables, default settings, time 0. *)
Definition example_app (a : Accounts) : App :=
  mkApp (mkWorld a (registry_new tb_empty [] (mkSnapshot 1 ∅)) [] ∅) [] 0 [] 0 [].
