(* ===== verification/Auth.v ===== *)
(** * Authentication ([server/src/http/auth.rs])

    Extracting a principal from a request, challenges and their verification,
    identities, tokens, tickets and the authentication of a WebSocket upgrade,
    as computations over the server's state. Random bytes are arguments; the
    body of a request is parsed by [FromSlice], or by the framework before the
    handler runs. Metrics and logging are left out. *)

From S2P Require Export Server.

Open Scope N_scope.
Open Scope hype_scope.

(** [serde_json::from_slice] of a request type. *)
Class FromSlice (T : Type) := from_slice : list byte → result text T.
Definition parse_body {T} `{FromSlice T} (body : list byte) : ApiResult T :=
  match from_slice body with
  | Ok request => Ok request
  | Err e => Err (api_invalid (lit "malformed JSON: " ++ e))
  end.

(** ** Principals *)

Record Auth := mkAuth {
  a_kind : PrincipalKind;
  a_principal_id : text;
  a_identity_id : text;
  a_scopes : list text;
  a_jti : text;
}.
Definition require_scope (scope : string) (auth : Auth) : ApiResult () :=
  if has_scope (a_scopes auth) scope then Ok ()
  else Err (api_insufficient_scope (lit "this operation requires the " ++ lit scope ++ lit " scope")).
Definition require_identity (auth : Auth) : ApiResult () :=
  match a_kind auth with
  | KIdentity => Ok ()
  | KDevice => Err (api_insufficient_scope (lit "this operation requires an identity token"))
  end.
Definition is_ok {E A} (r : result E A) : bool := match r with Ok _ => true | Err _ => false end.

(** [bearer_token], from the request's query and its Authorization header. *)
Definition names_credential (query : text) (forbidden : string) : bool :=
  existsb (λ pair, eq_ignore_ascii_case (default [] (head (split_at 61 pair))) (lit forbidden)) (split_at 38 query).
Definition bearer_prefix (v : text) : option text :=
  match strip_lit "Bearer " v with Some t => Some t | None => strip_lit "bearer " v end.
Definition bearer_token (query authorization : option text) : ApiResult text :=
  if from_option (λ q, existsb (names_credential q) ["access_token"; "token"; "ticket"; "bearer"]%string) false query then
    Err (api_invalid (lit "credentials must not be supplied in the query string; use the Authorization header"))
  else
    match authorization with
    | None => Err (api_unauthorized (lit "missing Authorization header"))
    | Some header =>
        match bearer_prefix header with
        | None => Err (api_unauthorized (lit "Authorization header must use the Bearer scheme"))
        | Some token => Ok (trim token)
        end
    end.

Section auth.
Context `{CryptoLib, ChronoLib, UuidLib, JsonText}.
Context (claims_to_vec : TokenClaims → list byte) (claims_from_slice : list byte → option TokenClaims).

Definition device_revoked : ApiError := with_code "device_revoked" (api_unauthorized (lit "credential has been revoked")).
Definition rate_limited (sn : Snapshot) : ApiError := api_rate_limited (sn_u64 keys.RATELIMIT_RETRY_AFTER_SECONDS sn).
Definition auth_of (claims : TokenClaims) : Auth :=
  mkAuth (tc_principal claims) (tc_sub claims) (tc_identity_id claims) (tc_scopes claims) (tc_jti claims).

(** The database's view of a token: its cutoff, and its device. *)
Definition credential_revoked (claims : TokenClaims) : AppM bool :=
  cutoff ← acc_read (token_cutoff (tc_sub claims));
  if from_option (λ c, (tc_iat claims <=? timestamp c)%Z) false cutoff then mret true
  else
    match tc_principal claims with
    | KDevice =>
        now ← read_clock;
        device ← acc_read (get_device now (default NIL_UUID (uuid_parse (tc_sub claims))));
        mret (match device with Some d => bool_decide (is_Some (dv_revoked_at d)) | None => true end)
    | KIdentity => mret false
    end.

(** [Auth::from_request_parts] *)
Definition authenticate (context : RequestContext) (query authorization : option text) : AppM Auth :=
  let sn := rc_snapshot context in
  token ← lift (bearer_token query authorization);
  claims ← verify claims_from_slice token sn;
  revoked ← credential_revoked claims;
  _ ← refuse_if revoked device_revoked;
  allowed ← (if sn_bool keys.RATELIMIT_ENABLED sn then
               rate_check "principal" (tc_sub claims) (sn_int keys.RATELIMIT_REQUESTS_PER_MINUTE_PER_PRINCIPAL sn)
             else mret true);
  _ ← refuse_if (negb allowed) (rate_limited sn);
  mret (auth_of claims).

(** [OperatorAuth::from_request_parts]: the operator's name; [env] and [file]
    answer for the secret's source, [box] is the bootstrap key. *)
Definition authenticate_operator (env file : text → option text) (box : list byte) (sn : Snapshot)
    (query authorization : option text) : ApiResult text :=
  match bearer_token query authorization with
  | Err _ => Err (api_unauthorized (lit "operator authentication required"))
  | Ok token =>
      match sn_secret env file box keys.AUTH_OPERATOR_TOKEN_HASH sn with
      | None => Err (api_internal (lit "no operator credential is configured"))
      | Some expected =>
          let presented := hash_operator_token token in
          if negb (ct_eq (utf8 presented) (utf8 expected)) then
            Err (api_unauthorized (lit "operator authentication failed"))
          else Ok (lit "operator:" ++ takeN 12 presented)
      end
  end.

(** ** Challenges *)

Record KeyInput := mkKeyInput {
  ki_algorithm : text;
  ki_public_key : text;
}.
Record ChallengeRequest := mkChallengeRequest {
  cq_operation : text;
  cq_key : KeyInput;
  cq_owner_identity_id : option text;
}.
Record ChallengeResponse := mkChallengeResponse {
  cs_challenge_id : text;
  cs_challenge : text;
  cs_signature_context : string;
  cs_signing_input : text;
  cs_expires_at : text;
  cs_key_fingerprint : text;
}.
Definition feature_disabled (m : string) : ApiError := api_new 403 "feature_disabled" (lit m).

(** The limiter's two questions before a challenge. *)
Definition challenge_limits (context : RequestContext) (fingerprint : text) : AppM () :=
  let sn := rc_snapshot context in
  if sn_bool keys.RATELIMIT_ENABLED sn then
    source_ok ← rate_check "challenge_source" (client_key context) (sn_int keys.RATELIMIT_CHALLENGES_PER_MINUTE_PER_SOURCE sn);
    _ ← refuse_if (negb source_ok) (rate_limited sn);
    key_ok ← rate_check "challenge_fingerprint" fingerprint (sn_int keys.RATELIMIT_CHALLENGES_PER_MINUTE_PER_FINGERPRINT sn);
    refuse_if (negb key_ok) (rate_limited sn)
  else mret ().
Definition challenge_feature (sn : Snapshot) (operation : Operation) : ApiResult () :=
  match operation with
  | RegisterIdentity =>
      if sn_bool keys.FEATURES_IDENTITY_REGISTRATION_ENABLED sn then Ok ()
      else Err (feature_disabled "identity registration is disabled")
  | RegisterDevice =>
      if sn_bool keys.FEATURES_DEVICE_REGISTRATION_ENABLED sn then Ok ()
      else Err (feature_disabled "device registration is disabled")
  | _ => Ok ()
  end.
(** A device registration names its owner. *)
Definition challenge_owner (request : ChallengeRequest) (operation : Operation) : AppM (option text) :=
  match operation with
  | RegisterDevice =>
      owner ← some_or (cq_owner_identity_id request)
                (api_validation (lit "owner_identity_id is required for register_device"));
      exists_ ← acc_read (identity_exists owner);
      _ ← refuse_if (negb exists_) (api_validation (lit "owner_identity_id is not a registered identity"));
      mret (Some owner)
  | _ => mret None
  end.
(** The fields a signature binds, as they are issued and as they are recomputed. *)
Definition signing_input (sn : Snapshot) (r : ChallengeRecord) : SigningInput :=
  mkSigningInput (sn_string keys.SERVER_PUBLIC_ORIGIN sn) (ch_challenge_id r) (ch_challenge r) (ch_operation r)
    (ch_key_fingerprint r) (default [] (ch_owner_identity_id r)) (default [] (ch_device_key_fingerprint r))
    (timestamp_millis (ch_expires_at r)).

(** [create_challenge], [random] being [random_bytes] and [ulid] the random part
    of the identifier. *)
Definition create_challenge (random : N → list byte) (ulid : list byte) (context : RequestContext)
    (request : ChallengeRequest) : AppM ChallengeResponse :=
  let sn := rc_snapshot context in
  operation ← some_or (op_parse (cq_operation request))
                (api_validation (lit "unknown operation: " ++ cq_operation request));
  key ← lift (key_parse (ki_algorithm (cq_key request)) (ki_public_key (cq_key request))
                (sn_list keys.AUTH_SUPPORTED_KEY_ALGORITHMS sn));
  let fingerprint := key_fingerprint key in
  _ ← challenge_limits context fingerprint;
  _ ← lift (challenge_feature sn operation);
  owner ← challenge_owner request operation;
  let challenge_bytes := random (sn_usize keys.AUTH_CHALLENGE_BYTES sn) in
  millis ← read_clock;
  let challenge_id := new_ulid (timestamp_millis millis) ulid in
  now ← read_clock;
  let expires_at := now + seconds (sn_int keys.AUTH_CHALLENGE_TTL_SECONDS sn) in
  let device_fingerprint := match operation with RegisterDevice => Some fingerprint | _ => None end in
  let input := signing_encode (signing_input sn
    (mkChallengeRecord challenge_id operation key fingerprint owner device_fingerprint challenge_bytes expires_at)) in
  created ← read_clock;
  _ ← acc_call (insert_challenge created challenge_id operation key owner device_fingerprint challenge_bytes expires_at);
  mret (mkChallengeResponse challenge_id (b64_encode challenge_bytes) CHALLENGE_SIGNATURE_CONTEXT (b64_encode input)
          (to_rfc3339 expires_at) fingerprint).

Record SignedRequest := mkSignedRequest {
  sq_challenge_id : text;
  sq_signature : text;
}.
Definition challenge_invalid (m : text) : ApiError := api_new 401 "challenge_invalid" m.
Definition claim_error (claim : ChallengeClaim) : ApiResult ChallengeRecord :=
  match claim with
  | Claimed record => Ok record
  | AlreadyConsumed => Err (api_new 401 "challenge_consumed" (lit "this challenge has already been used"))
  | ExpiredClaim => Err (api_new 401 "challenge_expired" (lit "this challenge has expired"))
  | UnknownClaim => Err (challenge_invalid (lit "unknown challenge"))
  end.
Definition issued_for (operation : Operation) : ApiError :=
  challenge_invalid (lit "challenge was issued for " ++ lit (op_as_str operation)).
(** The claim of a challenge, in its transaction. *)
Definition take_challenge (challenge_id : text) : AppM ChallengeRecord :=
  now ← read_clock;
  later ← read_clock;
  claim ← acc_update (claim_challenge now later challenge_id);
  lift (claim_error claim).
(** [verify_challenge] *)
Definition verify_challenge (sn : Snapshot) (challenge_id signature_b64 : text) (expected : list Operation)
    : AppM ChallengeRecord :=
  signature ← some_or (b64_decode signature_b64) (api_invalid (lit "signature must be base64url-encoded"));
  record ← take_challenge challenge_id;
  _ ← refuse_if (negb (bool_decide (ch_operation record ∈ expected))) (issued_for (ch_operation record));
  _ ← refuse_if (negb (key_verify (ch_key record) (signing_encode (signing_input sn record)) signature))
        (api_new 401 "signature_invalid" (lit "signature does not verify against the challenge"));
  mret record.

(** ** Identities *)

Definition over_registrations (context : RequestContext) (source : text) : AppM () :=
  let sn := rc_snapshot context in
  if sn_bool keys.RATELIMIT_ENABLED sn then
    now ← read_clock;
    count ← acc_read (count_registrations_since source (now - HOUR));
    refuse_if (sn_int keys.RATELIMIT_IDENTITY_REGISTRATIONS_PER_HOUR_PER_SOURCE sn <=? count)%Z (rate_limited sn)
  else mret ().
Definition identity_json (who : Identity) : json :=
  JObj [("identity_id"%string, JStr (id_identity_id who)); ("created_at"%string, JStr (to_rfc3339 (id_created_at who)))].
Definition register_identity `{FromSlice SignedRequest} (context : RequestContext) (body : list byte) : AppM Response :=
  let sn := rc_snapshot context in
  _ ← refuse_if (negb (sn_bool keys.FEATURES_IDENTITY_REGISTRATION_ENABLED sn))
        (feature_disabled "identity registration is disabled");
  request ← lift (parse_body body);
  let scope := lit "source:" ++ client_key context in
  replayed ← idempotency_lookup context scope (lit "POST") (lit "/v1/identities") body;
  match replayed with
  | Some response => mret response
  | None =>
      let source := client_key context in
      _ ← over_registrations context source;
      record ← verify_challenge sn (sq_challenge_id request) (sq_signature request) [RegisterIdentity];
      now ← read_clock;
      result ← acc_call (upsert_identity now (ch_key record));
      let '(registered, created) := (result : Identity * bool) in
      _ ← (if (created : bool) then
             at_ ← read_clock; acc_update (λ a, ((), record_registration at_ source a))
           else mret ());
      let body_json := identity_json registered in
      let status := if created then 201 else 200 in
      _ ← idempotency_store context scope (lit "POST") (lit "/v1/identities") body status body_json;
      mret (respond status body_json)
  end.

(** ** Tokens *)

Record TokenResponse := mkTokenResponse {
  tk_access_token : text;
  tk_expires_in : Z;
  tk_scopes : list text;
  tk_principal : string;
  tk_principal_id : text;
}.
(** What a device's role gives its token. *)
Definition device_scopes (sn : Snapshot) (role : DeviceRole) : list text :=
  match role with
  | RPublisher => sn_list keys.AUTH_DEVICE_TOKEN_SCOPES sn
  | RClient => sn_list keys.AUTH_CLIENT_TOKEN_SCOPES sn
  | RBoth =>
      foldl (λ scopes scope, if bool_decide (scope ∈ scopes) then scopes else scopes ++ [scope])
        (sn_list keys.AUTH_DEVICE_TOKEN_SCOPES sn) (sn_list keys.AUTH_CLIENT_TOKEN_SCOPES sn)
  end.
Record Grant := mkGrant {
  gr_kind : PrincipalKind;
  gr_principal_id : text;
  gr_identity_id : text;
  gr_scopes : list text;
}.
Definition grant_for (sn : Snapshot) (record : ChallengeRecord) : AppM Grant :=
  match ch_operation record with
  | AuthenticateIdentity =>
      let identity_id := key_fingerprint (ch_key record) in
      exists_ ← acc_read (identity_exists identity_id);
      _ ← refuse_if (negb exists_) (api_unauthorized (lit "this key is not a registered identity"));
      mret (mkGrant KIdentity identity_id identity_id (sn_list keys.AUTH_IDENTITY_TOKEN_SCOPES sn))
  | AuthenticateDevice =>
      now ← read_clock;
      device ← acc_read (get_device_by_fingerprint now (ch_key_fingerprint record));
      device ← some_or device (api_unauthorized (lit "this key is not a registered device"));
      _ ← refuse_if (bool_decide (is_Some (dv_revoked_at device)))
            (with_code "device_revoked" (api_unauthorized (lit "this device has been revoked")));
      at_ ← read_clock;
      _ ← ignore (acc_update (λ a, ((), touch_device at_ (dv_device_id device) a)));
      mret (mkGrant KDevice (uuid_text (dv_device_id device)) (dv_identity_id device) (device_scopes sn (dv_role device)))
  | other => fail (issued_for other)
  end.
(** [jti] is the random identifier of the token. *)
Definition create_token (jti : list byte) (context : RequestContext) (request : SignedRequest) : AppM TokenResponse :=
  let sn := rc_snapshot context in
  record ← verify_challenge sn (sq_challenge_id request) (sq_signature request) [AuthenticateIdentity; AuthenticateDevice];
  allowed ← (if sn_bool keys.RATELIMIT_ENABLED sn then
               rate_check "token_fingerprint" (ch_key_fingerprint record)
                 (sn_int keys.RATELIMIT_TOKEN_REQUESTS_PER_MINUTE_PER_FINGERPRINT sn)
             else mret true);
  _ ← refuse_if (negb allowed) (rate_limited sn);
  grant ← grant_for sn record;
  issued ← read_clock;
  let claims := build_claims issued jti sn (gr_kind grant) (gr_principal_id grant) (gr_identity_id grant) (gr_scopes grant) in
  access_token ← mint claims_to_vec claims;
  mret (mkTokenResponse access_token (tc_exp claims - tc_iat claims) (gr_scopes grant) (kind_as_str (gr_kind grant))
          (gr_principal_id grant)).

(** ** Tickets *)

Inductive WsPath := WsRelay (device_id : Uuid) | WsMirror (terminal_id : Uuid).
Fixpoint trim_slashes (t : text) : text := match t with 47 :: t' => trim_slashes t' | _ => t end.
Definition parse_ws_path (path : text) : option WsPath :=
  match split_at 47 (trim_slashes path) with
  | [v1; kind; id; action] =>
      if negb (bool_decide (v1 = lit "v1")) then None
      else if bool_decide (kind = lit "devices") && bool_decide (action = lit "relay") then WsRelay <$> uuid_parse id
      else if bool_decide (kind = lit "terminals") && bool_decide (action = lit "mirror") then WsMirror <$> uuid_parse id
      else None
  | _ => None
  end.
Record TicketResponse := mkTicketResponse {
  tt_ticket : text;
  tt_path : text;
  tt_expires_at : text;
}.
Definition authorised_for (auth : Auth) (path : WsPath) : AppM bool :=
  match path with
  | WsRelay device_id =>
      mret (is_ok (require_scope TERMINALS_PUBLISH auth) && bool_decide (a_kind auth = KDevice)
            && bool_decide (a_principal_id auth = uuid_text device_id))
  | WsMirror terminal_id =>
      if negb (is_ok (require_scope TERMINALS_MIRROR auth)) then mret false
      else
        terminal ← terminal_read (get_terminal terminal_id);
        mret (from_option (λ t, bool_decide (t_identity_id t = a_identity_id auth)) false terminal)
  end.
Definition create_websocket_ticket (random : list byte) (context : RequestContext) (auth : Auth) (request_path : text)
    : AppM TicketResponse :=
  let sn := rc_snapshot context in
  let path := trim request_path in
  match parse_ws_path path with
  | None =>
      fail (api_validation (lit "path must be /v1/devices/{device_id}/relay or /v1/terminals/{terminal_id}/mirror"))
  | Some ws =>
      authorised ← authorised_for auth ws;
      _ ← refuse_if (negb authorised) api_not_found;
      let '(ticket, ticket_hash) := new_ticket random in
      now ← read_clock;
      let expires_at := now + seconds (sn_int keys.AUTH_WEBSOCKET_TICKET_TTL_SECONDS sn) in
      created ← read_clock;
      _ ← acc_call (insert_ticket created ticket_hash (a_kind auth) (a_principal_id auth) (a_identity_id auth) path
                      (a_scopes auth) expires_at);
      mret (mkTicketResponse ticket path (to_rfc3339 expires_at))
  end.

(** [cookie_value] *)
Definition cookie_value (headers : Headers) (name : string) : option text :=
  v ← headers (lit "cookie");
  (λ '(_, value), trim value)
    <$> find (λ '(key, _), bool_decide (key = lit name)) (omap (λ pair, split_once 61 (trim pair)) (split_at 59 v)).

Definition upgrade_credential (headers : Headers) : option text :=
  match headers (lit "authorization") ≫= bearer_prefix with
  | Some token => Some (trim token)
  | None => cookie_value headers "relay_session"
  end.
(** [authenticate_upgrade] *)
Definition authenticate_upgrade (sn : Snapshot) (headers : Headers) (path : text) : AppM Auth :=
  let raw := match headers (lit "x-relay-ticket") with Some t => Some t | None => cookie_value headers "relay_ticket" end in
  match raw with
  | Some raw =>
      now ← read_clock;
      later ← read_clock;
      record ← acc_update (consume_ticket now later (hash_ticket raw) path);
      record ← some_or record
        (api_unauthorized (lit "websocket ticket is invalid, expired, already used, or not valid for this path"));
      mret (mkAuth (ti_principal_kind record) (ti_principal_id record) (ti_identity_id record) (ti_scopes record) [])
  | None =>
      token ← some_or (upgrade_credential headers)
        (api_unauthorized (lit "websocket upgrade requires a bearer token, session cookie, or ticket"));
      claims ← verify claims_from_slice token sn;
      revoked ← credential_revoked claims;
      _ ← refuse_if revoked device_revoked;
      mret (auth_of claims)
  end.
End auth.
