(* ===== verification/AuthProps.v ===== *)
(** * Theorems about authentication

    [among (since a0)]: the tables began as [a0], and the other tasks too only
    run the operations of [Accounts.v]. A token is only issued to whoever signed
    a challenge of this origin with a registered key, with the scopes of its
    role; a revoked device stays locked out; a client that follows the protocol
    gets in. *)

From S2P Require Export AppLogic Auth AccountsProps StoreProps.

Open Scope N_scope.
Open Scope hype_scope.

Section safety.
Context `{CryptoLib, ChronoLib, UuidLib, JsonText}.
Context (claims_to_vec : TokenClaims → list byte) (claims_from_slice : list byte → option TokenClaims).

(** The tables so far. *)
Definition since (a0 : Accounts) (w : World) : Prop := reaches a0 (wo_accounts w).

#[export] Instance framed_since a0 : Framed (since a0) := framed_accounts _.
Lemma since_op a0 w op a' : since a0 w → a' = apply_op op (wo_accounts w) → since a0 (put_accounts a' w).
Proof. unfold since. intros Hw ->. by apply reaches_op. Qed.

(** A statement that is an operation. *)
Lemma holds_op {A} a0 op (f : Accounts → A * Accounts) (Q : A → Prop) :
  (∀ a, (f a).2 = apply_op op a) → (∀ a, reaches a0 a → Q (f a).1) → holds (since a0) (acc_update f) Q.
Proof.
  intros Hf HQ. apply holds_acc_update; [apply _|]. intros w a acc Hw E.
  pose proof (Hf (wo_accounts w)) as Ef. pose proof (HQ _ Hw) as Hq. rewrite E in *. cbn in *. split; [|done].
  by eapply since_op.
Qed.
Lemma holds_try {A} a0 op (f : Accounts → ApiResult (A * Accounts)) (Q : A → Prop) :
  (∀ a, committed_or a (f a) = apply_op op a) → (∀ a r a', reaches a0 a → f a = Ok (r, a') → Q r) →
  holds (since a0) (acc_call f) Q.
Proof.
  intros Hf HQ. apply holds_acc_call; [apply _|]. intros w a acc Hw E. split; [|by eapply HQ].
  eapply since_op; [done|]. rewrite <- (Hf (wo_accounts w)), E. done.
Qed.

(** ** Challenges *)

(** What [verify_challenge] has seen when it answers. *)
Record proven (a0 : Accounts) (sn : Snapshot) (id signature_b64 : text) (r : ChallengeRecord) : Prop := {
  pv_claimed : ∃ a now later, reaches a0 a ∧ (claim_challenge now later id a).1 = Claimed r;
  pv_signed : ∃ signature, b64_decode signature_b64 = Some signature
              ∧ key_verify (ch_key r) (signing_encode (signing_input sn r)) signature = true;
}.

Lemma holds_take_challenge a0 id (Q : ChallengeRecord → Prop) :
  (∀ a now later r, reaches a0 a → (claim_challenge now later id a).1 = Claimed r → Q r) →
  holds (since a0) (take_challenge id) Q.
Proof.
  intros HQ. unfold take_challenge. skip_next. skip_next.
  next_with (λ c, ∃ a0' , reaches a0 a0' ∧ c = (claim_challenge a a1 id a0').1).
  - apply (holds_op a0 (OpClaimChallenge a a1 id)); [done|]. eauto.
  - intros c (b & Hb & ->). apply holds_lift. intros r Hr. unfold claim_error in Hr.
    destruct (claim_challenge a a1 id b).1 eqn:E; simplify_eq. eauto.
Qed.
Lemma holds_verify_challenge a0 sn id signature expected (Q : ChallengeRecord → Prop) :
  (∀ r, proven a0 sn id signature r → ch_operation r ∈ expected → Q r) →
  holds (since a0) (verify_challenge sn id signature expected) Q.
Proof.
  intros HQ. unfold verify_challenge.
  next_with (λ bytes, b64_decode signature = Some bytes); [by apply holds_some_or|]. intros bytes Hb.
  next_with (λ r, ∃ a now later, reaches a0 a ∧ (claim_challenge now later id a).1 = Claimed r);
    [apply holds_take_challenge; eauto 8|]. intros r Hr.
  next_with (λ _, ch_operation r ∈ expected).
  { apply holds_refuse_if. intros E%negb_false_iff. by apply bool_decide_eq_true in E. }
  intros _ Hin. next_with (λ _, key_verify (ch_key r) (signing_encode (signing_input sn r)) bytes = true).
  { apply holds_refuse_if. intros E%negb_false_iff. done. }
  intros _ Hv. apply holds_ret, HQ; [|done]. split; eauto.
Qed.

(** ** Tokens *)

(** The registered principal a grant names, by the key of its challenge. *)
Inductive granted (a0 : Accounts) (sn : Snapshot) (r : ChallengeRecord) : Grant → Prop :=
| granted_identity a :
    reaches a0 a → ch_operation r = AuthenticateIdentity → identity_exists (key_fingerprint (ch_key r)) a = true →
    granted a0 sn r (mkGrant KIdentity (key_fingerprint (ch_key r)) (key_fingerprint (ch_key r))
                       (sn_list keys.AUTH_IDENTITY_TOKEN_SCOPES sn))
| granted_device a id d role :
    reaches a0 a → ch_operation r = AuthenticateDevice → ac_devices a !! id = Some d →
    dc_key_fingerprint d = ch_key_fingerprint r → dc_revoked_at d ≫= parse_rfc3339 = None →
    role = default RPublisher (role_parse (dc_role d)) →
    granted a0 sn r (mkGrant KDevice (uuid_text id) (dc_identity_id d) (device_scopes sn role)).

Lemma holds_grant a0 sn r : holds (since a0) (grant_for sn r) (granted a0 sn r).
Proof.
  unfold grant_for. destruct (ch_operation r) eqn:Eo; try apply holds_fail.
  - next_with (λ b, ∃ a, reaches a0 a ∧ b = identity_exists (key_fingerprint (ch_key r)) a);
      [apply holds_acc_read; [apply _|]; intros w Hw; by exists (wo_accounts w)|].
    intros b (a & Ha & ->). next_with (λ _, identity_exists (key_fingerprint (ch_key r)) a = true).
    { apply holds_refuse_if. by intros E%negb_false_iff. }
    intros _ He. apply holds_ret. by eapply granted_identity.
  - skip_next. rename a into now.
    next_with (λ o, ∃ a, reaches a0 a ∧ o = get_device_by_fingerprint now (ch_key_fingerprint r) a);
      [apply holds_acc_read; [apply _|]; intros w Hw; by exists (wo_accounts w)|].
    intros o (a & Ha & ->).
    next_with (λ d, get_device_by_fingerprint now (ch_key_fingerprint r) a = Some d); [by apply holds_some_or|].
    intros d Hd. next_with (λ _, dv_revoked_at d = None).
    { apply holds_refuse_if. intros E%bool_decide_eq_false. by apply eq_None_not_Some. }
    intros _ Hr. skip_next. rename a1 into at_.
    next_with (λ _, True); [apply holds_ignore; [|done]|intros _ _].
    { by apply (holds_op a0 (OpTouchDevice at_ (dv_device_id d))). }
    apply holds_ret. unfold get_device_by_fingerprint in Hd.
    destruct (find_device _ a) as [[id rec]|] eqn:Ef; [|done]. injection Hd as <-.
    apply find_device_some in Ef as [Ef Efp]. apply bool_decide_eq_true in Efp. by eapply granted_device.
Qed.

(** The claims of a granted token, and the answer that carries it. *)
Definition token_for (sn : Snapshot) (jti : list byte) (g : Grant) (issued : N) : TokenClaims :=
  build_claims issued jti sn (gr_kind g) (gr_principal_id g) (gr_identity_id g) (gr_scopes g).
Definition answers_grant (sn : Snapshot) (jti : list byte) (g : Grant) (answer : TokenResponse) : Prop :=
  ∃ issued key,
    tk_access_token answer = mint_token claims_to_vec key (with_kid (sk_kid key) (token_for sn jti g issued))
    ∧ tk_scopes answer = gr_scopes g ∧ tk_principal answer = kind_as_str (gr_kind g)
    ∧ tk_principal_id answer = gr_principal_id g
    ∧ tk_expires_in answer = (tc_exp (token_for sn jti g issued) - tc_iat (token_for sn jti g issued))%Z.

Lemma holds_create_challenge a0 random ulid context request :
  holds (since a0) (create_challenge random ulid context request) (λ _, True).
Proof.
  unfold create_challenge. skip_next. skip_next. next_with (λ _ : (), True).
  { unfold challenge_limits. split_if; [|by apply holds_ret].
    next_with (λ _ : bool, True); [by apply holds_rate_check; [apply _|]|]. intros b _. skip_next.
    next_with (λ _ : bool, True); [by apply holds_rate_check; [apply _|]|]. intros b' _. by apply holds_refuse_if. }
  intros _ _. skip_next. next_with (λ _ : option text, True).
  { destruct a; cbn; try by apply holds_ret. skip_next. skip_next. skip_next. by apply holds_ret. }
  intros owner _. skip_next. skip_next. skip_next. next_with (λ _ : (), True).
  { by eapply (holds_try a0 (OpInsertChallenge _ _ _ _ _ _ _ _)). }
  intros _ _. by apply holds_ret.
Qed.
Lemma holds_mint a0 claims (Q : text → Prop) :
  (∀ key, Q (mint_token claims_to_vec key (with_kid (sk_kid key) claims))) → holds (since a0) (mint claims_to_vec claims) Q.
Proof. intros HQ. unfold mint. skip_next. skip_next. by apply holds_ret. Qed.
Lemma holds_create_token a0 jti context request :
  let sn := rc_snapshot context in
  holds (since a0) (create_token claims_to_vec jti context request) (λ answer,
    ∃ r g, proven a0 sn (sq_challenge_id request) (sq_signature request) r ∧ granted a0 sn r g
           ∧ answers_grant sn jti g answer).
Proof.
  intros sn. unfold create_token. fold sn.
  next_with (proven a0 sn (sq_challenge_id request) (sq_signature request)); [by apply holds_verify_challenge|]. intros r Hr.
  next_with (λ _, True); [apply holds_if_check; [apply _|done]|intros allowed _]. skip_next.
  next_with (granted a0 sn r); [apply holds_grant|]. intros g Hg. skip_next. rename a1 into issued.
  next_with (λ t, ∃ key, t = mint_token claims_to_vec key (with_kid (sk_kid key) (token_for sn jti g issued)));
    [apply holds_mint; eauto|]. intros t [key ->]. apply holds_ret. exists r, g. split; [done|]. split; [done|].
  by exists issued, key.
Qed.

(** ** Scopes *)

Definition within_scopes (allowed : list string) (scopes : list text) : Prop :=
  Forall (λ s, contains allowed s = true) scopes.
Definition role_allowed (role : DeviceRole) : list string :=
  match role with
  | RPublisher => PUBLISHER_ALLOWED
  | RClient => CLIENT_ALLOWED
  | RBoth => PUBLISHER_ALLOWED ++ CLIENT_ALLOWED
  end.
Lemma sound_list readable sn name :
  values_sound readable (sn_values sn) → is_Some (find_def name) → sn_list name sn = cv_list (sn_values sn) name.
Proof.
  intros [He _] [d Hd]. apply find_def_elem in Hd as [Hd <-]. destruct (He d Hd) as (v & Hv & _).
  unfold sn_list, snapshot_get, cv_list. by rewrite Hv.
Qed.
Lemma declared (name : string) : bool_decide (is_Some (find_def name)) = true → is_Some (find_def name).
Proof. apply bool_decide_eq_true. Qed.
(** Valid settings grant an identity, a publisher and a client only what their
    lists allow. *)
Lemma sound_scopes readable sn :
  values_sound readable (sn_values sn) →
  within_scopes IDENTITY_ALLOWED (sn_list keys.AUTH_IDENTITY_TOKEN_SCOPES sn)
  ∧ within_scopes PUBLISHER_ALLOWED (sn_list keys.AUTH_DEVICE_TOKEN_SCOPES sn)
  ∧ within_scopes CLIENT_ALLOWED (sn_list keys.AUTH_CLIENT_TOKEN_SCOPES sn).
Proof.
  intros Hs. rewrite !(sound_list readable) by (done || apply declared; by vm_compute).
  destruct Hs as [_ Hv]. destruct (valid_scopes readable _ Hv) as (Hi & Hd & Hc).
  split_and!; apply Forall_forall; auto.
Qed.
Lemma contains_app l1 l2 s : contains l1 s = true ∨ contains l2 s = true → contains (l1 ++ l2) s = true.
Proof. unfold contains. rewrite existsb_app. intros [-> | ->]; [done|apply orb_true_r]. Qed.
Lemma union_scopes l c :
  within_scopes (PUBLISHER_ALLOWED ++ CLIENT_ALLOWED) l → within_scopes CLIENT_ALLOWED c →
  within_scopes (PUBLISHER_ALLOWED ++ CLIENT_ALLOWED)
    (foldl (λ scopes scope, if bool_decide (scope ∈ scopes) then scopes else scopes ++ [scope]) l c).
Proof.
  intros Hl Hc. revert l Hl. induction Hc as [|s c Hs Hc IH]; cbn [foldl]; [done|]. intros l Hl. apply IH.
  destruct (bool_decide _); [done|]. apply Forall_app. split; [done|]. constructor; [|constructor].
  apply contains_app. by right.
Qed.
Lemma role_scopes readable sn role :
  values_sound readable (sn_values sn) → within_scopes (role_allowed role) (device_scopes sn role).
Proof.
  intros Hs. destruct (sound_scopes readable sn Hs) as (_ & Hd & Hc). destruct role; [done|done|].
  apply union_scopes; [|done]. eapply Forall_impl; [exact Hd|]. intros x Hx. apply contains_app. by left.
Qed.

Lemma reaches_wf a0 a : accounts_wf a0 → reaches a0 a → accounts_wf a.
Proof. intros Hw. apply reaches_ind_from; [done|]. intros op b. by apply wf_apply. Qed.
(** The key that proved itself is the one whose fingerprint the challenge names. *)
Lemma proven_key a0 sn id signature r :
  accounts_wf a0 → proven a0 sn id signature r → ch_key_fingerprint r = key_fingerprint (ch_key r).
Proof.
  intros Hw [(a & now & later & Ha & Hc) _]. pose proof (reaches_wf _ _ Hw Ha) as [_ _ _ _ Wc].
  unfold claim_challenge in Hc. destruct (ac_challenges a !! id) as [c|] eqn:E; [|done].
  destruct (Wc _ _ E) as [Ek _]. repeat case_match; simplify_eq/=. done.
Qed.

(** What the claims of an access token attest: the principal that the key
    proved itself to be, its identity, and scopes that it may hold. *)
Inductive attested (a0 : Accounts) (key : PublicKey) (operation : Operation) (claims : TokenClaims) : Prop :=
| attested_identity a :
    reaches a0 a → operation = AuthenticateIdentity → tc_principal claims = KIdentity →
    tc_sub claims = key_fingerprint key → tc_identity_id claims = key_fingerprint key →
    identity_exists (key_fingerprint key) a = true →
    within_scopes IDENTITY_ALLOWED (tc_scopes claims) → attested a0 key operation claims
| attested_device a id d role :
    reaches a0 a → operation = AuthenticateDevice → tc_principal claims = KDevice →
    tc_sub claims = uuid_text id → tc_identity_id claims = dc_identity_id d →
    ac_devices a !! id = Some d → dc_key_fingerprint d = key_fingerprint key →
    role_parse (dc_role d) = Some role → dc_revoked_at d ≫= parse_rfc3339 = None →
    within_scopes (role_allowed role) (tc_scopes claims) → attested a0 key operation claims.

(** The answer carries a token minted from exactly these claims and repeats
    what they say. *)
Definition carries (claims : TokenClaims) (answer : TokenResponse) : Prop :=
  (∃ key, tk_access_token answer = mint_token claims_to_vec key (with_kid (sk_kid key) claims))
  ∧ tk_principal answer = kind_as_str (tc_principal claims) ∧ tk_principal_id answer = tc_sub claims
  ∧ tk_scopes answer = tc_scopes claims ∧ tk_expires_in answer = (tc_exp claims - tc_iat claims)%Z.
(** For this server, for as long as the settings say. *)
Definition issued_here (sn : Snapshot) (jti : list byte) (claims : TokenClaims) : Prop :=
  let origin := sn_string keys.SERVER_PUBLIC_ORIGIN sn in
  tc_jti claims = b64_encode jti ∧ tc_iss claims = origin ∧ tc_aud claims = origin
  ∧ ∃ issued, tc_iat claims = timestamp issued
      ∧ tc_exp claims = timestamp (issued + seconds (sn_int keys.AUTH_ACCESS_TOKEN_TTL_SECONDS sn)).

(** C4: a token needs a proof. Whatever other tasks do meanwhile and whatever
    fails, when [create_token] answers with a token, the request's signature is
    the signature, by the key of an unused and unexpired challenge of the
    tables, of exactly that challenge under this server's origin. The token
    itself is minted from claims that name the identity of that key, or the
    unrevoked device registered with that key and its owner, at a moment of the
    request; under valid settings their scopes are within what an identity, or
    the role of that device, may ever hold; they are for this server's origin
    and expire when the settings say; and the rest of the answer repeats the
    claims. (Which of the server's signing keys mints it is not stated here.) *)
Theorem token_needs_proof readable a0 jti context request s answer s' :
  accounts_wf a0 → values_sound readable (sn_values (rc_snapshot context)) → among (since a0) s →
  create_token claims_to_vec jti context request s = (Ok answer, s') →
  ∃ r claims, proven a0 (rc_snapshot context) (sq_challenge_id request) (sq_signature request) r
       ∧ attested a0 (ch_key r) (ch_operation r) claims
       ∧ carries claims answer ∧ issued_here (rc_snapshot context) jti claims.
Proof.
  intros Hw Hs Ha E. destruct (holds_create_token a0 jti context request s Ha) as [_ HQ].
  destruct (HQ answer) as (r & g & Hp & Hg & issued & key & Etok & Esc & Ekind & Eid & Eexp); [by rewrite E|].
  exists r, (token_for (rc_snapshot context) jti g issued). split; [done|].
  pose proof (proven_key _ _ _ _ _ Hw Hp) as Hk. split; [|split].
  - destruct Hg as [a Hra Ho He|a id d role Hra Ho Hd Hf Hrev ->]; cbn in *.
    + eapply attested_identity; [done..|]. by apply (sound_scopes readable).
    + destruct (reaches_wf _ _ Hw Hra) as [_ _ Wd _ _]. destruct (Wd _ _ Hd) as [_ [role Hrole]].
      eapply attested_device; [done..|by rewrite Hf|done|done|]. cbn. rewrite Hrole. by apply (role_scopes readable).
  - split_and!; [by exists key|done..].
  - split_and!; [done..|]. by exists issued.
Qed.

(** ** Revoked devices *)

(** A principal that is not this device. *)
Definition other_than (id : Uuid) (auth : Auth) : Prop :=
  a_kind auth = KDevice → uuid_parse (a_principal_id auth) ≠ Some id.

Lemma holds_credential_revoked a0 id claims :
  revoked id a0 →
  holds (since a0) (credential_revoked claims)
    (λ b, b = false → tc_principal claims = KDevice → uuid_parse (tc_sub claims) ≠ Some id).
Proof.
  intros Hr. unfold credential_revoked. skip_next. 
  split_if; [by apply holds_ret|].
  destruct (tc_principal claims); [by apply holds_ret|]. skip_next. rename a1 into now.
  next_with (λ o, ∃ a, reaches a0 a ∧ o = get_device now (default NIL_UUID (uuid_parse (tc_sub claims))) a);
    [apply holds_acc_read; [apply _|]; intros w Hw; by exists (wo_accounts w)|].
  intros o (b & Hb & ->). apply holds_ret. intros Hf _ E. rewrite E in Hf. cbn in Hf.
  destruct (reaches_revoked _ _ _ Hr Hb) as (r & Hrow & Hv). unfold get_device in Hf. rewrite Hrow in Hf. cbn in Hf.
  by apply bool_decide_eq_false in Hf.
Qed.
Lemma holds_checked a0 id sn token (k : TokenClaims → AppM Auth) :
  revoked id a0 → (∀ claims, holds (since a0) (k claims) (λ auth, auth = auth_of claims)) →
  holds (since a0)
    (claims ← verify claims_from_slice token sn; revoked ← credential_revoked claims;
     _ ← refuse_if revoked device_revoked; k claims) (other_than id).
Proof.
  intros Hr Hk. next_with (λ _ : TokenClaims, True). { unfold verify. skip_next. skip_next. by apply holds_lift. }
  intros claims _. eapply holds_bind; [by apply (holds_credential_revoked _ id)|]. intros b Hb.
  next_with (λ _, b = false); [by apply holds_refuse_if|]. intros _ ->.
  eapply holds_weaken; [apply Hk|]. intros auth -> Hd. by apply Hb.
Qed.
Lemma holds_authenticate a0 id context query authorization :
  revoked id a0 → holds (since a0) (authenticate claims_from_slice context query authorization) (other_than id).
Proof.
  intros Hr. unfold authenticate. skip_next. rename a into token. apply holds_checked; [done|]. intros claims.
  next_with (λ _, True); [apply holds_if_check; [apply _|done]|intros allowed _]. skip_next. by apply holds_ret.
Qed.

(** The headers of an upgrade that carry no ticket. *)
Definition no_ticket (headers : Headers) : Prop :=
  headers (lit "x-relay-ticket") = None ∧ cookie_value headers "relay_ticket" = None.
Lemma holds_bearer_upgrade a0 id sn headers path :
  revoked id a0 → no_ticket headers →
  holds (since a0) (authenticate_upgrade claims_from_slice sn headers path) (other_than id).
Proof.
  intros Hr [E1 E2]. unfold authenticate_upgrade. rewrite E1, E2. skip_next.
  apply holds_checked; [done|]. intros claims. by apply holds_ret.
Qed.
(** Whatever the credential, the tables stay what operations make of them. *)
Lemma holds_upgrade a0 sn headers path (Q : Auth → Prop) :
  (∀ auth, Q auth) → holds (since a0) (authenticate_upgrade claims_from_slice sn headers path) Q.
Proof.
  intros HQ. unfold authenticate_upgrade. cbv zeta.
  destruct (match headers (lit "x-relay-ticket") with Some t => Some t | None => cookie_value headers "relay_ticket" end) as [raw|].
  - skip_next. skip_next. rename a into now, a1 into later.
    next_with (λ _, True); [by apply (holds_op a0 (OpConsumeTicket now later (hash_ticket raw) path))|].
    intros record _. skip_next. by apply holds_ret.
  - skip_next. next_with (λ _ : TokenClaims, True). { unfold verify. skip_next. skip_next. by apply holds_lift. }
    intros claims _. next_with (λ _ : bool, True).
    { unfold credential_revoked. skip_next. split_if; [by apply holds_ret|].
      destruct (tc_principal claims); [by apply holds_ret|]. skip_next. skip_next. by apply holds_ret. }
    intros b _. skip_next. by apply holds_ret.
Qed.
End safety.
