(* ===== verification/Login.v ===== *)
(** * A client that follows the protocol gets in

    [create_challenge], the publisher's [sign_challenge], [create_token] and
    [authenticate] in sequence, for a registered identity or device, on a quiet
    server whose clock goes forward. *)

From S2P Require Export AuthProps.

Open Scope N_scope.
Open Scope hype_scope.

(** ** A clock that goes forward, until [t1] *)

Fixpoint ascending (lo hi : N) (l : list N) : Prop :=
  match l with [] => lo ≤ hi | t :: l => lo ≤ t ∧ ascending t hi l end.
Definition steady (t1 : N) (s : App) : Prop := ascending (ap_now s) t1 (ap_clock s).
Lemma ascending_le lo hi l : ascending lo hi l → lo ≤ hi.
Proof. revert lo. induction l as [|t l IH]; intros lo; cbn; [done|]. intros [? ?%IH]. lia. Qed.
Lemma steady_tick t1 s : steady t1 s → ap_now s ≤ tick s ≤ t1 ∧ ap_now (ticked s) = tick s ∧ steady t1 (ticked s).
Proof.
  unfold steady, tick, ticked, read_clock. destruct (ap_clock s) as [|t l] eqn:E; cbn.
  - rewrite E. cbn. intros ?. by split_and!.
  - intros [? Ha]. pose proof (ascending_le _ _ _ Ha). by split_and!.
Qed.

(** [s'] comes after [s]: nothing but the accounts and the clock has changed. *)
Record later (t1 : N) (s s' : App) : Prop := mkLater {
  lt_quiet : quiet s';
  lt_steady : steady t1 s';
  lt_keys : wo_keys (ap_world s') = wo_keys (ap_world s);
  lt_now : ap_now s ≤ ap_now s';
}.
Lemma later_refl t1 s : quiet s → steady t1 s → later t1 s s.
Proof. by split. Qed.
Lemma later_trans t1 s s' s'' : later t1 s s' → later t1 s' s'' → later t1 s s''.
Proof. intros [] []. split; [done|done|congruence|lia]. Qed.
Lemma later_tick t1 s s' : later t1 s s' → later t1 s (ticked s') ∧ ap_now s ≤ tick s' ≤ t1 ∧ accounts (ticked s') = accounts s'.
Proof.
  intros [Hq Hs Hk Hn]. pose proof (steady_tick _ _ Hs) as (Ht & En & Hst). unfold accounts. rewrite ticked_world.
  split_and!; [|lia|lia|done]. split; [by apply ticked_quiet|done|by rewrite ticked_world|lia].
Qed.
Lemma later_put t1 s s' a : later t1 s s' → later t1 s (put_world (put_accounts a (ap_world s')) s').
Proof. by intros [Hq Hs Hk Hn]. Qed.

(** ** Handlers that succeed while time goes on *)

Section runs.
Context (t1 : N) (s0 : App).

Lemma succeeds_clock {B} s (k : N → AppM B) Q :
  later t1 s0 s →
  (∀ t s', later t1 s0 s' → ap_now s ≤ t ≤ t1 → ap_now s' = t → accounts s' = accounts s → succeeds (k t) s' Q) →
  succeeds (t ← read_clock; k t) s Q.
Proof.
  intros Hl Hk. pose proof Hl as [Hq Hs Hks Hn]. pose proof (steady_tick _ _ Hs) as (Ht & En & Hst).
  destruct (later_tick t1 s0 s) as (Hl' & _ & Ha); [done|].
  destruct (Hk (tick s) (ticked s)) as (b & s' & E & HQ); [done..|].
  exists b, s'. split; [|done]. by erewrite bind_ok by apply read_clock_tick.
Qed.
Lemma succeeds_read {A B} s (f : Accounts → A) (k : A → AppM B) Q :
  later t1 s0 s → succeeds (k (f (accounts s))) s Q → succeeds (a ← acc_read f; k a) s Q.
Proof.
  intros [Hq _ _ _] (b & s' & E & HQ). exists b, s'. split; [|done]. by erewrite bind_ok by by apply acc_read_quiet.
Qed.
Lemma succeeds_call {A B} s (f : Accounts → ApiResult (A * Accounts)) r a' (k : A → AppM B) Q :
  later t1 s0 s → f (accounts s) = Ok (r, a') →
  (∀ s', later t1 s0 s' → ap_now s' = ap_now s → accounts s' = a' → succeeds (k r) s' Q) →
  succeeds (a ← acc_call f; k a) s Q.
Proof.
  intros Hl E Hk. pose proof Hl as [Hq _ _ _].
  destruct (Hk (put_world (put_accounts a' (ap_world s)) s)) as (b & s' & E' & HQ); [by apply later_put|done..|].
  exists b, s'. split; [|done]. erewrite bind_ok; [done|]. rewrite acc_call_quiet by done. unfold run_accounts. by rewrite E.
Qed.
Lemma succeeds_update {A B} s (f : Accounts → A * Accounts) r a' (k : A → AppM B) Q :
  later t1 s0 s → f (accounts s) = (r, a') →
  (∀ s', later t1 s0 s' → ap_now s' = ap_now s → accounts s' = a' → succeeds (k r) s' Q) →
  succeeds (a ← acc_update f; k a) s Q.
Proof. intros Hl E. apply succeeds_call; [done|]. by rewrite E. Qed.
Lemma succeeds_ignore {A B} s (f : Accounts → A * Accounts) r a' (k : () → AppM B) Q :
  later t1 s0 s → f (accounts s) = (r, a') →
  (∀ s', later t1 s0 s' → ap_now s' = ap_now s → accounts s' = a' → succeeds (k ()) s' Q) →
  succeeds (a ← ignore (acc_update f); k a) s Q.
Proof.
  intros Hl E Hk. pose proof Hl as [Hq _ _ _].
  destruct (Hk (put_world (put_accounts a' (ap_world s)) s)) as (b & s' & E' & HQ); [by apply later_put|done..|].
  exists b, s'. split; [|done]. erewrite bind_ok; [exact E'|]. unfold ignore. rewrite acc_update_quiet by done. by rewrite E.
Qed.
End runs.

(** ** What a signing input holds fits *)

Lemma len_utf8_ascii t : Forall (λ c, c < 128) t → len (utf8 t) = len t.
Proof.
  induction 1 as [|c t Hc Ht IH]; [done|]. rewrite utf8_cons. unfold len in *. rewrite length_app. cbn [length].
  assert (length (utf8_char c) = 1%nat) as ->; [|lia]. unfold utf8_char. by destruct (N.ltb_spec c 128); [|lia].
Qed.
Lemma ulid_ascii k v : Forall (λ c, c < 128) (ulid_digits k v).
Proof.
  revert v. induction k as [|k IH]; intros v; cbn [ulid_digits]; [constructor|]. apply Forall_app. split; [done|].
  constructor; [|constructor]. assert (Forall (λ c, c < 128) CROCKFORD) as Hc by by (apply (bool_decide_unpack _); vm_compute).
  destruct (nth_in_or_default (N.to_nat (N.land v 31)) CROCKFORD 0) as [Hin|E]; [|rewrite E; lia].
  rewrite Forall_forall in Hc. apply Hc. by apply list_elem_of_In.
Qed.
Lemma ascii_valid t : Forall (λ c, c < 128) t → valid_text t.
Proof. intros Ht. eapply Forall_impl; [exact Ht|]. intros c Hc. left. cbn in Hc. lia. Qed.

Section login.
Context `{CryptoLaws, !ChronoLib, !ChronoLaws, !UuidLib, !UuidLaws, !JsonText}.
Context (claims_to_vec : TokenClaims → list byte) (claims_from_slice : list byte → option TokenClaims).
Context (claims_read_back : ∀ c, claims_from_slice (claims_to_vec c) = Some c).

Lemma len_fingerprint k : len (key_fingerprint k) ≤ 68.
Proof. unfold key_fingerprint. etransitivity; [apply b64_len|]. by rewrite sha256_len. Qed.

(** The settings of the server: unlimited rates, Ed25519, an origin that fits. *)
Record login_settings (sn : Snapshot) : Prop := {
  ls_unlimited : sn_bool keys.RATELIMIT_ENABLED sn = false;
  ls_ed25519 : existsb (λ a, eq_ignore_ascii_case a (lit ALGORITHM_ED25519)) (sn_list keys.AUTH_SUPPORTED_KEY_ALGORITHMS sn) = true;
  ls_origin : valid_text (sn_string keys.SERVER_PUBLIC_ORIGIN sn) ∧ len (utf8 (sn_string keys.SERVER_PUBLIC_ORIGIN sn)) < two32;
  ls_skew : (0 ≤ sn_int keys.AUTH_MAX_CLOCK_SKEW_SECONDS sn)%Z;
}.

Definition seed_key (seed : list byte) : PublicKey := mkPublicKey (lit ALGORITHM_ED25519) (ed25519_public seed).
Lemma key_parse_own seed supported :
  len seed = 32 → existsb (λ a, eq_ignore_ascii_case a (lit ALGORITHM_ED25519)) supported = true →
  key_parse (lit ALGORITHM_ED25519) (b64_encode (ed25519_public seed)) supported = Ok (seed_key seed).
Proof.
  intros Hs Hl. unfold key_parse. change (to_ascii_lowercase (trim (lit ALGORITHM_ED25519))) with (lit ALGORITHM_ED25519).
  rewrite Hl. cbn [negb]. rewrite b64_decode_encode, bool_decide_eq_true_2 by done.
  by destruct (ed25519_key_ok seed Hs) as [-> ->].
Qed.

(** The record of an authentication challenge. *)
Definition auth_record (id : text) (operation : Operation) (seed challenge : list byte) (expires_at : N) : ChallengeRecord :=
  mkChallengeRecord id operation (seed_key seed) (key_fingerprint (seed_key seed)) None None challenge expires_at.
Lemma auth_record_ok sn millis random operation seed challenge expires_at :
  login_settings sn → len challenge < two32 → expires_at < MAX_TIME →
  signing_ok (signing_input sn (auth_record (new_ulid millis random) operation seed challenge expires_at)).
Proof.
  intros [_ _ [Ho Hlo] _] Hc He.
  assert (∀ t n, Forall (λ c, c < 128) t → len t ≤ n → n < two32 → len (utf8 t) < two32) as Hfit
    by (intros t n Ht Hn Hlt; rewrite len_utf8_ascii by done; lia).
  assert (Forall (λ c, c < 128) (new_ulid millis random) ∧ len (new_ulid millis random) ≤ 26) as [Hid Hidl]
    by (split; [apply ulid_ascii|unfold len, new_ulid; by rewrite length_ulid]).
  generalize dependent (new_ulid millis random). intros id Hid Hidl. constructor; cbn.
  - split_and!; [done|by apply ascii_valid|apply valid_b64|constructor|constructor].
  - repeat constructor; unfold field_fits; cbn; try done.
    + by apply (Hfit _ 26).
    + by destruct operation.
    + apply (Hfit _ 68); [apply b64_ascii|apply len_fingerprint|done].
  - unfold timestamp_millis. apply N.Div0.div_lt_upper_bound. etransitivity; [exact He|]. by vm_compute.
Qed.

(** ** The challenge *)

Definition login_request (operation : Operation) (seed : list byte) : ChallengeRequest :=
  mkChallengeRequest (lit (op_as_str operation)) (mkKeyInput (lit ALGORITHM_ED25519) (b64_encode (ed25519_public seed))) None.
Definition authenticates (operation : Operation) : Prop := operation = AuthenticateIdentity ∨ operation = AuthenticateDevice.
(** The stored row of an authentication challenge, unused. *)
Definition auth_row (r : ChallengeRecord) (created : N) : ChallengeRec :=
  mkChallengeRec (lit (op_as_str (ch_operation r))) (pk_algorithm (ch_key r)) (pk_bytes (ch_key r)) (ch_key_fingerprint r)
    None None (ch_challenge r) (to_rfc3339 created) (to_rfc3339 (ch_expires_at r)) None.
Definition with_challenge (id : text) (row : ChallengeRec) (a : Accounts) : Accounts :=
  set_challenges (<[id := row]> (ac_challenges a)) a.

(** The answer to a request for a challenge, and what it leaves. *)
Record offered (t1 : N) (s0 : App) (sn : Snapshot) (operation : Operation) (seed challenge : list byte) (a : Accounts)
    (lo : N) (answer : ChallengeResponse) (s : App) : Prop := {
  of_later : later t1 s0 s;
  of_row : ∃ millis random expires_at created,
    cs_challenge_id answer = new_ulid millis random
    ∧ lo + seconds (sn_int keys.AUTH_CHALLENGE_TTL_SECONDS sn) ≤ expires_at
      ≤ t1 + seconds (sn_int keys.AUTH_CHALLENGE_TTL_SECONDS sn)
    ∧ let r := auth_record (new_ulid millis random) operation seed challenge expires_at in
      cs_signing_input answer = b64_encode (signing_encode (signing_input sn r))
      ∧ accounts s = with_challenge (cs_challenge_id answer) (auth_row r created) a;
}.
Lemma create_succeeds t1 s0 random ulid context operation seed s :
  let sn := rc_snapshot context in
  login_settings sn → authenticates operation → len seed = 32 → later t1 s0 s →
  (∀ t, ac_challenges (accounts s) !! new_ulid (timestamp_millis t) ulid = None) →
  succeeds (create_challenge random ulid context (login_request operation seed)) s
    (offered t1 s0 sn operation seed (random (sn_usize keys.AUTH_CHALLENGE_BYTES sn)) (accounts s) (ap_now s)).
Proof.
  intros sn [Hrate Hed _ _] Hop Hs Hl Hfresh. unfold create_challenge. fold sn.
  eapply succeeds_some; [apply op_parse_str|]. eapply succeeds_lift; [by apply key_parse_own|].
  assert (challenge_limits context (key_fingerprint (seed_key seed)) = mret ()) as ->
    by (unfold challenge_limits; fold sn; by rewrite Hrate).
  assert (challenge_feature sn operation = Ok ()) as Hf by by destruct Hop as [-> | ->].
  assert (challenge_owner (login_request operation seed) operation = mret None) as -> by by destruct Hop as [-> | ->].
  assert (match operation with RegisterDevice => Some (key_fingerprint (seed_key seed)) | _ => None end = None) as ->
    by by destruct Hop as [-> | ->].
  eapply succeeds_bind; [by apply (succeeds_ret () s (λ _ s', s' = s))|]. intros _ s1 ->.
  eapply succeeds_lift; [done|].
  eapply succeeds_bind; [by apply (succeeds_ret None s (λ o s', o = None ∧ s' = s))|]. intros o s1 [-> ->].
  apply (succeeds_clock t1 s0); [done|]. intros millis s2 Hl2 Hm En2 Ea2.
  apply (succeeds_clock t1 s0); [done|]. intros now s3 Hl3 Hn En3 Ea3.
  apply (succeeds_clock t1 s0); [done|]. intros created s4 Hl4 Hc En4 Ea4.
  assert (accounts s4 = accounts s) as Ea by congruence.
  eapply succeeds_call; [done| |].
  { unfold insert_challenge. rewrite Ea, bool_decide_eq_false_2; [done|]. rewrite Hfresh. by intros []. }
  intros s5 Hl5 En5 Ea5. apply succeeds_ret. split; [done|].
  exists (timestamp_millis millis), ulid, (now + seconds (sn_int keys.AUTH_CHALLENGE_TTL_SECONDS sn)), created.
  cbn. split; [done|]. split; [lia|]. split; [done|]. by rewrite Ea5.
Qed.

(** The client's signature of an offer. *)
Lemma sign_succeeds debug sn millis random operation seed challenge expires_at :
  let r := auth_record (new_ulid millis random) operation seed challenge expires_at in
  login_settings sn → len challenge < two32 → expires_at < MAX_TIME →
  sign_challenge debug (b64_encode (signing_encode (signing_input sn r))) seed (lit (op_as_str operation)) None
  = Ok (pair_sign seed (signing_encode (signing_input sn r))).
Proof.
  intros r Hsn Hc He. unfold sign_challenge. rewrite b64_decode_encode.
  assert (verify_binding debug (signing_encode (signing_input sn r)) seed (lit (op_as_str operation)) None = Ok ()) as ->.
  { apply verify_binding_signing; [by apply auth_record_ok|]. by split_and!. }
  done.
Qed.

(** ** The claim *)

Lemma verify_succeeds t1 s0 sn r created signature s :
  let id := ch_challenge_id r in
  let seed_signs := b64_encode signature in
  ch_key_fingerprint r = key_fingerprint (ch_key r) → ch_owner_identity_id r = None → ch_device_key_fingerprint r = None →
  later t1 s0 s → ac_challenges (accounts s) !! id = Some (auth_row r created) →
  t1 + 1000 ≤ ch_expires_at r → ch_expires_at r < MAX_TIME → authenticates (ch_operation r) →
  key_verify (ch_key r) (signing_encode (signing_input sn r)) signature = true →
  succeeds (verify_challenge sn id seed_signs [AuthenticateIdentity; AuthenticateDevice]) s (λ r' s',
    later t1 s0 s' ∧ ap_now s ≤ ap_now s' ∧ ch_operation r' = ch_operation r ∧ ch_key r' = ch_key r
    ∧ ch_key_fingerprint r' = ch_key_fingerprint r
    ∧ (accounts_wf (accounts s) → accounts_wf (accounts s'))
    ∧ ∃ row, accounts s' = with_challenge id row (accounts s)).
Proof.
  intros id seed_signs Hfp Hown Hdk Hl Hrow Ht He Hop Hv. unfold verify_challenge.
  eapply succeeds_some; [apply b64_decode_encode|].
  set (r' := mkChallengeRecord id (ch_operation r) (ch_key r) (ch_key_fingerprint r) None None (ch_challenge r)
               (ch_expires_at r / 1000 * 1000)).
  apply (succeeds_bind _ _ _ (λ x s', x = r' ∧ later t1 s0 s' ∧ ap_now s ≤ ap_now s'
                                    ∧ (accounts_wf (accounts s) → accounts_wf (accounts s'))
                                    ∧ ∃ row, accounts s' = with_challenge id row (accounts s))).
  { unfold take_challenge. apply (succeeds_clock t1 s0); [done|]. intros now s2 Hl2 Hn En2 Ea2.
    apply (succeeds_clock t1 s0); [done|]. intros at_ s3 Hl3 Hn3 En3 Ea3.
    pose proof (wf_claim now at_ id (accounts s)) as Hwf. revert Hwf.
    assert (claim_challenge now at_ id (accounts s)
            = (Claimed r', with_challenge id (consume_rec (to_rfc3339 now) (auth_row r created)) (accounts s))) as Ec.
    { unfold claim_challenge. rewrite Hrow. cbn. rewrite op_parse_str.
      unfold time_or. rewrite rfc3339_reads by done. cbn.
      destruct (N.ltb_spec (ch_expires_at r / 1000 * 1000) at_) as [Hlt|_]; [|unfold r'; by destruct (ch_key r)].
      pose proof (N.Div0.div_mod (ch_expires_at r) 1000) as Hd. pose proof (N.mod_lt (ch_expires_at r) 1000 ltac:(done)).
      exfalso. generalize dependent (ch_expires_at r mod 1000). generalize dependent (ch_expires_at r / 1000).
      intros q Hlt Hq m Hm. lia. }
    rewrite Ec. cbn [snd]. intros Hwf.
    eapply (succeeds_update t1 s0); [done|by rewrite Ea3, Ea2|].
    intros s4 Hl4 En4 Ea4. exists r', s4. split; [done|].
    split_and!; [done|done|lia|by rewrite Ea4|]. by eexists. }
  intros x s2 (-> & Hl2 & Hn2 & Hwf & Hrow2).
  assert (signing_input sn r' = signing_input sn r) as Ei.
  { unfold signing_input, r'. cbn. rewrite Hown, Hdk. cbn. f_equal. unfold timestamp_millis.
    change 1000000 with (1000 * 1000). by rewrite <- !N.Div0.div_div, N.div_mul. }
  eapply succeeds_pass; [apply negb_false_iff, bool_decide_eq_true_2; destruct Hop as [E|E]; cbn; rewrite E; set_solver|].
  eapply succeeds_pass; [by rewrite Ei; apply negb_false_iff|]. by apply succeeds_ret.
Qed.

(** ** The grant *)

(** A registered principal of a key, never revoked, and what it is granted. *)
Inductive registered (a : Accounts) (sn : Snapshot) (key : PublicKey) : Operation → Grant → Prop :=
| registered_identity :
    identity_exists (key_fingerprint key) a = true → ac_cutoffs a !! key_fingerprint key = None →
    registered a sn key AuthenticateIdentity
      (mkGrant KIdentity (key_fingerprint key) (key_fingerprint key) (sn_list keys.AUTH_IDENTITY_TOKEN_SCOPES sn))
| registered_device id d role :
    ac_devices a !! id = Some d → dc_key_fingerprint d = key_fingerprint key → dc_revoked_at d = None →
    role_parse (dc_role d) = Some role → ac_cutoffs a !! uuid_text id = None →
    registered a sn key AuthenticateDevice (mkGrant KDevice (uuid_text id) (dc_identity_id d) (device_scopes sn role)).

Lemma find_own_device id d a fp :
  accounts_wf a → ac_devices a !! id = Some d → dc_key_fingerprint d = fp →
  find_device (λ r, bool_decide (dc_key_fingerprint r = fp)) a = Some (id, d).
Proof.
  intros [_ _ _ Wu _] Hd Hf. destruct (find_device _ a) as [[id' d']|] eqn:E.
  - apply find_device_some in E as [Hd' Hf'%bool_decide_eq_true]. assert (id' = id) as -> by (eapply Wu; [done..|congruence]).
    congruence.
  - pose proof (find_device_none _ _ _ _ E Hd) as Hn. by apply bool_decide_eq_false in Hn.
Qed.
(** What a login keeps of the tables. *)
Lemma registered_challenge a sn key operation g id row :
  registered a sn key operation g → registered (with_challenge id row a) sn key operation g.
Proof. intros [Hi Hc|i d role Hd Hf Hr Hrole Hc]; by econstructor. Qed.
Lemma registered_touch a sn key operation g at_ id :
  registered a sn key operation g → registered (touch_device at_ id a) sn key operation g.
Proof.
  intros [Hi Hc|i d role Hd Hf Hr Hrole Hc]; [by constructor|]. unfold touch_device. destruct (decide (id = i)) as [->|Hne].
  - apply (registered_device _ sn key i (seen_rec (to_rfc3339 at_) d) role); cbn; try done. by rewrite lookup_alter_eq, Hd.
  - apply (registered_device _ sn key i d role); cbn; try done. by rewrite lookup_alter_ne.
Qed.
Lemma grant_succeeds t1 s0 sn r g s :
  later t1 s0 s → accounts_wf (accounts s) → ch_key_fingerprint r = key_fingerprint (ch_key r) →
  registered (accounts s) sn (ch_key r) (ch_operation r) g →
  succeeds (grant_for sn r) s (λ g' s', g' = g ∧ later t1 s0 s' ∧ ap_now s ≤ ap_now s'
                                        ∧ registered (accounts s') sn (ch_key r) (ch_operation r) g).
Proof.
  intros Hl Hw Hfp Hg. pose proof Hg as Hg'. unfold grant_for. destruct Hg as [Hi Hc|id d role Hd Hf Hr Hrole Hc].
  - apply (succeeds_read t1 s0); [done|]. rewrite Hi. eapply succeeds_pass; [done|]. apply succeeds_ret. by split_and!.
  - apply (succeeds_clock t1 s0); [done|]. intros now s2 Hl2 Hn En2 Ea2.
    apply (succeeds_read t1 s0); [done|]. unfold get_device_by_fingerprint.
    rewrite Ea2, (find_own_device id d) by (congruence || done). cbn [fmap option_fmap option_map].
    eapply succeeds_some; [done|]. cbn. rewrite Hr. eapply succeeds_pass; [by apply bool_decide_eq_false_2; intros []|].
    apply (succeeds_clock t1 s0); [done|]. intros at_ s3 Hl3 Hn3 En3 Ea3.
    eapply (succeeds_ignore t1 s0); [done..|]. intros s4 Hl4 En4 Ea4. apply succeeds_ret. rewrite Hrole. cbn.
    split_and!; [done|done|lia|]. rewrite Ea4, Ea3, Ea2. by apply registered_touch.
Qed.

(** ** The token *)

(** The active key is the one its identifier finds. *)
Definition active_is (key : SigningKey) (w : World) : Prop :=
  active_key w = Some key ∧ find (λ k, bool_decide (sk_kid k = sk_kid key)) (signing_keys w) = Some key.
Lemma active_later t1 s0 s key : active_is key (ap_world s0) → later t1 s0 s → active_is key (ap_world s).
Proof. intros Ha [_ _ Hk _]. unfold active_is, active_key, signing_keys in *. by rewrite Hk. Qed.

(** A token that was issued. *)
Record issued (t1 : N) (s0 : App) (sn : Snapshot) (jti : list byte) (key : SigningKey) (pk : PublicKey) (operation : Operation)
    (g : Grant) (lo : N) (answer : TokenResponse) (s : App) : Prop := {
  is_later : later t1 s0 s;
  is_registered : registered (accounts s) sn pk operation g;
  is_answer : ∃ at_, lo ≤ at_ ≤ ap_now s
    ∧ tk_access_token answer = mint_token claims_to_vec key (with_kid (sk_kid key) (token_for sn jti g at_))
    ∧ tk_scopes answer = gr_scopes g ∧ tk_principal_id answer = gr_principal_id g;
}.
Lemma token_succeeds t1 s0 jti context r created signature key g s :
  let sn := rc_snapshot context in
  login_settings sn → active_is key (ap_world s0) →
  ch_key_fingerprint r = key_fingerprint (ch_key r) → ch_owner_identity_id r = None → ch_device_key_fingerprint r = None →
  later t1 s0 s → accounts_wf (accounts s) → ac_challenges (accounts s) !! ch_challenge_id r = Some (auth_row r created) →
  t1 + 1000 ≤ ch_expires_at r → ch_expires_at r < MAX_TIME → authenticates (ch_operation r) →
  key_verify (ch_key r) (signing_encode (signing_input sn r)) signature = true →
  registered (accounts s) sn (ch_key r) (ch_operation r) g →
  succeeds (create_token claims_to_vec jti context (mkSignedRequest (ch_challenge_id r) (b64_encode signature))) s
    (issued t1 s0 sn jti key (ch_key r) (ch_operation r) g (ap_now s)).
Proof.
  intros sn Hsn Hkey Hfp Hown Hdk Hl Hw Hrow Ht He Hop Hv Hg. unfold create_token. fold sn.
  eapply succeeds_bind; [by eapply (verify_succeeds t1 s0 sn r)|].
  intros r' s2 (Hl2 & Hn2 & Eo & Ek & Ef & Hw2 & row & Ea2).
  rewrite (ls_unlimited _ Hsn). eapply (succeeds_bind _ _ _ (λ b s', b = true ∧ s' = s2)); [by apply succeeds_ret|].
  intros b s3 [-> ->]. eapply succeeds_pass; [done|].
  assert (registered (accounts s2) sn (ch_key r') (ch_operation r') g) as Hg2
    by (rewrite Ea2, Eo, Ek; by apply registered_challenge).
  eapply succeeds_bind; [apply (grant_succeeds t1 s0 sn r' g); [done|by apply Hw2|congruence|done]|].
  intros g' s4 (-> & Hl4 & Hn4 & Hg4). apply (succeeds_clock t1 s0); [done|]. intros at_ s5 Hl5 Hn5 En5 Ea5.
  destruct (active_later _ _ _ _ Hkey Hl5) as [Ha _]. unfold mint.
  eapply succeeds_bind.
  { apply succeeds_gets. rewrite Ha. eapply succeeds_some; [done|].
    by apply (succeeds_ret _ _ (λ t s', t = mint_token claims_to_vec key (with_kid (sk_kid key) (token_for sn jti g at_)) ∧ s' = s5)). }
  intros t s6 [-> ->]. apply succeeds_ret. split; [done|by rewrite Ea5, <- Ek, <- Eo|].
  exists at_. cbn. split; [lia|]. done.
Qed.

(** ** The request *)

Lemma strip_lit_app p t : strip_lit p (lit p ++ t) = Some t.
Proof. unfold strip_lit. rewrite take_app_length, bool_decide_eq_true_2 by done. by rewrite drop_app_length. Qed.
Lemma token_no_space key claims : Forall (λ c, is_whitespace c = false) (mint_token claims_to_vec key claims).
Proof.
  unfold mint_token. repeat (apply Forall_app; split); try apply b64_no_space; by (apply (bool_decide_unpack _); vm_compute).
Qed.
Lemma bearer_of key claims :
  bearer_token None (Some (lit "Bearer " ++ mint_token claims_to_vec key claims)) = Ok (mint_token claims_to_vec key claims).
Proof. unfold bearer_token, bearer_prefix. cbn [from_option]. by rewrite strip_lit_app, trim_none by apply token_no_space. Qed.

Lemma timestamp_mono a b : a ≤ b → (timestamp a ≤ timestamp b)%Z.
Proof. intros Hab. unfold timestamp. apply N2Z.inj_le, N.Div0.div_le_mono, Hab. Qed.
Lemma issued_verifies sn jti key g at_ now keys_ :
  find (λ k, bool_decide (sk_kid k = sk_kid key)) keys_ = Some key → (0 ≤ sn_int keys.AUTH_MAX_CLOCK_SKEW_SECONDS sn)%Z →
  at_ ≤ now ≤ at_ + seconds (sn_int keys.AUTH_ACCESS_TOKEN_TTL_SECONDS sn) →
  let claims := with_kid (sk_kid key) (token_for sn jti g at_) in
  let origin := sn_string keys.SERVER_PUBLIC_ORIGIN sn in
  verify_token claims_from_slice (mint_token claims_to_vec key claims) keys_ origin origin (timestamp now)
    (sn_int keys.AUTH_MAX_CLOCK_SKEW_SECONDS sn) = Ok claims.
Proof.
  intros Hk Hskew [Hlo Hhi] claims origin. apply (verify_token_spec claims_from_slice). split.
  - by apply mint_signed.
  - unfold claims_current, claims, token_for, build_claims. cbn. split_and!; [done|done|..].
    + apply timestamp_mono in Hhi. lia.
    + apply timestamp_mono in Hlo. lia.
Qed.
Lemma not_revoked t1 s0 sn pk operation g claims s :
  later t1 s0 s → registered (accounts s) sn pk operation g → tc_principal claims = gr_kind g → tc_sub claims = gr_principal_id g →
  succeeds (credential_revoked claims) s (λ b s', b = false).
Proof.
  intros Hl Hg Ek Es. unfold credential_revoked. apply (succeeds_read t1 s0); [done|]. unfold token_cutoff. rewrite Es, Ek.
  destruct Hg as [Hi Hc|id d role Hd Hf Hr Hrole Hc]; cbn; rewrite Hc; cbn.
  - by apply succeeds_ret.
  - apply (succeeds_clock t1 s0); [done|]. intros now s2 Hl2 _ _ Ea2. apply (succeeds_read t1 s0); [done|].
    apply succeeds_ret. rewrite uuid_reads. unfold get_device. rewrite Ea2. cbn. rewrite Hd. cbn. by rewrite Hr.
Qed.
Definition auth_for (jti : list byte) (g : Grant) : Auth :=
  mkAuth (gr_kind g) (gr_principal_id g) (gr_identity_id g) (gr_scopes g) (b64_encode jti).
Lemma authenticate_succeeds t1 s0 context jti key pk operation g answer s lo :
  let sn := rc_snapshot context in
  login_settings sn → active_is key (ap_world s0) → t1 ≤ lo + seconds (sn_int keys.AUTH_ACCESS_TOKEN_TTL_SECONDS sn) →
  issued t1 s0 sn jti key pk operation g lo answer s →
  succeeds (authenticate claims_from_slice context None (Some (lit "Bearer " ++ tk_access_token answer))) s
    (λ auth s', auth = auth_for jti g).
Proof.
  intros sn Hsn Hkey Ht [Hl Hg (at_ & Hat & Etok & _)]. unfold authenticate. fold sn. rewrite Etok.
  eapply succeeds_lift; [apply bearer_of|].
  apply (succeeds_bind _ _ _ (λ c s', c = with_kid (sk_kid key) (token_for sn jti g at_) ∧ later t1 s0 s' ∧ accounts s' = accounts s)).
  { unfold verify. apply succeeds_gets. apply (succeeds_clock t1 s0); [done|]. intros now s2 Hl2 Hn _ Ea2.
    eexists _, s2. unfold lift. rewrite issued_verifies; [by split_and!|by apply (active_later _ _ _ _ Hkey Hl)|apply Hsn|lia]. }
  intros c s2 (-> & Hl2 & Ea2).
  eapply succeeds_bind; [eapply not_revoked; [exact Hl2|by rewrite Ea2|done|done]|]. intros b s3 ->.
  eapply succeeds_pass; [done|]. rewrite (ls_unlimited _ Hsn).
  apply (succeeds_bind _ _ _ (λ b s', b = true)); [by apply succeeds_ret|]. intros b s4 ->.
  eapply succeeds_pass; [done|]. by apply succeeds_ret.
Qed.

Lemma wf_auth_row id r created a :
  ch_key_fingerprint r = key_fingerprint (ch_key r) → accounts_wf a → accounts_wf (with_challenge id (auth_row r created) a).
Proof.
  intros Hf Hw. apply wf_challenge; [|cbn; by rewrite op_parse_str|done]. cbn. rewrite Hf. unfold challenge_key. cbn. by destruct (ch_key r).
Qed.

(** C12: a client that follows the protocol gets in. On a quiet server whose
    clock goes forward, under settings that accept Ed25519 keys and do not limit
    rates, take an identity or device whose key is the public key of the
    client's secret, registered and never revoked. The challenge it asks for is
    created; [sign_challenge], which refuses to sign a challenge that is not
    about its own key and this operation, signs it; the server accepts the
    signature and issues a token; and the token in an Authorization header
    authenticates as exactly that principal, with the scopes it was granted:
    if all of this happens before the challenge, taken a millisecond early
    because its expiry is stored in whole microseconds, and the token expire. *)
Theorem login_works random ulid jti debug context operation seed key g t1 s :
  let sn := rc_snapshot context in
  login_settings sn → authenticates operation → len seed = 32 →
  quiet s → steady t1 s → accounts_wf (accounts s) → active_is key (ap_world s) →
  registered (accounts s) sn (seed_key seed) operation g →
  (∀ t, ac_challenges (accounts s) !! new_ulid (timestamp_millis t) ulid = None) →
  len (random (sn_usize keys.AUTH_CHALLENGE_BYTES sn)) < two32 →
  t1 + 1000 ≤ ap_now s + seconds (sn_int keys.AUTH_CHALLENGE_TTL_SECONDS sn) →
  t1 + seconds (sn_int keys.AUTH_CHALLENGE_TTL_SECONDS sn) < MAX_TIME →
  t1 ≤ ap_now s + seconds (sn_int keys.AUTH_ACCESS_TOKEN_TTL_SECONDS sn) →
  ∃ offer s1 signature answer s2 s3,
    create_challenge random ulid context (login_request operation seed) s = (Ok offer, s1)
    ∧ sign_challenge debug (cs_signing_input offer) seed (lit (op_as_str operation)) None = Ok signature
    ∧ create_token claims_to_vec jti context (mkSignedRequest (cs_challenge_id offer) signature) s1 = (Ok answer, s2)
    ∧ authenticate claims_from_slice context None (Some (lit "Bearer " ++ tk_access_token answer)) s2
      = (Ok (auth_for jti g), s3).
Proof.
  intros sn Hsn Hop Hs Hq Hst Hw Hkey Hg Hfresh Hlen Ht1 Ht2 Ht3.
  pose proof (later_refl t1 s Hq Hst) as Hl.
  destruct (create_succeeds t1 s random ulid context operation seed s Hsn Hop Hs Hl Hfresh)
    as (offer & s1 & Ec & [Hl1 (millis & rand & exp & created & Eid & Hexp & Ein & Ea1)]).
  fold sn in Hexp, Ein, Ea1. set (r := auth_record _ operation seed _ exp) in *.
  destruct (token_succeeds t1 s jti context r created (ed25519_sign seed (signing_encode (signing_input sn r))) key g s1)
    as (answer & s2 & Et & Hi); try done; try (unfold r; cbn; lia).
  { rewrite Ea1. by apply wf_auth_row. }
  { rewrite Ea1, Eid. apply lookup_insert_eq. }
  { by apply own_key_verifies. }
  { rewrite Ea1. by apply registered_challenge. }
  destruct (authenticate_succeeds t1 s context jti key (ch_key r) (ch_operation r) g answer s2 (ap_now s1))
    as (auth & s3 & Eu & ->); [done..| |exact Hi|].
  { pose proof (lt_now _ _ _ Hl1). fold sn. lia. }
  exists offer, s1, (pair_sign seed (signing_encode (signing_input sn r))), answer, s2, s3. split_and!; [done|..|exact Eu].
  - rewrite Ein. apply sign_succeeds; [done|done|lia].
  - by rewrite Eid.
Qed.
End login.

(** ** Example: an identity logs in *)

#[local] Existing Instances toy_lib toy_chrono toy_uuid.
(** Claims as texts. *)
Definition claims_texts (c : TokenClaims) : list text :=
  [tc_jti c; tc_sub c; [match tc_principal c with KIdentity => 0 | KDevice => 1 end]; tc_identity_id c; tc_iss c; tc_aud c;
   [N.pos (encode (tc_iat c)); N.pos (encode (tc_exp c))]; tc_kid c] ++ tc_scopes c.
Definition texts_claims (l : list text) : option TokenClaims :=
  match l with
  | jti :: sub :: [kind] :: identity_id :: iss :: aud :: [iat; exp] :: kid :: scopes =>
      iat ← decode (N.succ_pos (N.pred iat));
      exp ← decode (N.succ_pos (N.pred exp));
      Some (mkTokenClaims jti sub (if kind =? 0 then KIdentity else KDevice) identity_id iss aud iat exp scopes kid)
  | _ => None
  end.
Lemma claims_texts_back c : texts_claims (claims_texts c) = Some c.
Proof.
  assert (∀ p, N.succ_pos (N.pred (N.pos p)) = p) as Hp by (intros p; by rewrite N.pos_pred_spec, N.succ_pos_spec || lia).
  destruct c as [? ? [] ? ? ? ? ? ? ?]; cbn -[N.succ_pos N.pred]; by rewrite !Hp, !decode_encode.
Qed.
(** A toy writing of values: the bits of their code. *)
Fixpoint toy_bits (p : positive) : list byte :=
  match p with xH => [] | xO p => x00 :: toy_bits p | xI p => x01 :: toy_bits p end.
Fixpoint toy_code (l : list byte) : positive :=
  match l with [] => xH | x00 :: l => xO (toy_code l) | _ :: l => xI (toy_code l) end.
Lemma toy_code_bits p : toy_code (toy_bits p) = p.
Proof. induction p as [p IH|p IH|]; cbn; congruence. Qed.
Definition toy_to_vec (c : TokenClaims) : list byte := toy_bits (encode (claims_texts c)).
Definition toy_from_slice (l : list byte) : option TokenClaims := decode (toy_code l) ≫= texts_claims.
Lemma toy_claims_read_back c : toy_from_slice (toy_to_vec c) = Some c.
Proof. unfold toy_from_slice, toy_to_vec. rewrite toy_code_bits, decode_encode. apply claims_texts_back. Qed.

Definition login_example_settings : Snapshot :=
  mkSnapshot 1 (list_to_map
    [(keys.RATELIMIT_ENABLED, VBool false);
     (keys.AUTH_SUPPORTED_KEY_ALGORITHMS, VList [lit "ed25519"]);
     (keys.SERVER_PUBLIC_ORIGIN, VStr (lit "https://relay"));
     (keys.AUTH_MAX_CLOCK_SKEW_SECONDS, VInt 30);
     (keys.AUTH_CHALLENGE_BYTES, VInt 2);
     (keys.AUTH_CHALLENGE_TTL_SECONDS, VInt 60);
     (keys.AUTH_ACCESS_TOKEN_TTL_SECONDS, VInt 900);
     (keys.AUTH_IDENTITY_TOKEN_SCOPES, VList [lit DEVICES_READ])]).
Definition login_example_context : RequestContext :=
  mkRequestContext (V4 [127; 0; 0; 1]) true login_example_settings None.
Definition login_example_key : SigningKey := mkSigningKey (lit "k1") (repeat x05 32).
Definition login_example_grant : Grant :=
  mkGrant KIdentity (key_fingerprint (seed_key example_seed)) (key_fingerprint (seed_key example_seed)) [lit DEVICES_READ].
Definition login_example_tables : Accounts := run_ops [OpUpsertIdentity 1 (seed_key example_seed)] ac_empty.
(** A second passes at each reading of the clock. *)
Definition login_example_app : App :=
  mkApp (mkWorld login_example_tables (registry_new tb_empty [] login_example_settings)
           [mkKeyEntry login_example_key 0 true] ∅) [] (1000 * NANOS) [1001 * NANOS; 1002 * NANOS; 1003 * NANOS] 0 [].
Lemma login_example_ok : login_settings login_example_settings.
Proof. split; [done|done| |done]. split; [apply valid_lit|done]. Qed.
Lemma login_example_wf : accounts_wf login_example_tables.
Proof. apply wf_apply. by split. Qed.
Lemma login_example_registered :
  registered (accounts login_example_app) login_example_settings (seed_key example_seed) AuthenticateIdentity login_example_grant.
Proof. by apply registered_identity. Qed.

Lemma login_works_witness :
  ∃ offer s1 signature answer s2 s3,
    create_challenge (λ n, repeat x02 (N.to_nat n)) [x05] login_example_context (login_request AuthenticateIdentity example_seed)
      login_example_app = (Ok offer, s1)
    ∧ sign_challenge id (cs_signing_input offer) example_seed (lit (op_as_str AuthenticateIdentity)) None = Ok signature
    ∧ create_token toy_to_vec [x09] login_example_context (mkSignedRequest (cs_challenge_id offer) signature) s1 = (Ok answer, s2)
    ∧ authenticate toy_from_slice login_example_context None (Some (lit "Bearer " ++ tk_access_token answer)) s2
      = (Ok (auth_for [x09] login_example_grant), s3).
Proof.
  apply (login_works toy_to_vec toy_from_slice toy_claims_read_back (λ n, repeat x02 (N.to_nat n)) [x05] [x09] id
           login_example_context AuthenticateIdentity example_seed login_example_key login_example_grant (1010 * NANOS)
           login_example_app login_example_ok).
  - by constructor.
  - done.
  - done.
  - by vm_compute.
  - apply login_example_wf.
  - done.
  - apply login_example_registered.
  - done.
  - done.
  - done.
  - done.
  - done.
Defined.

(** ** Example: the token of a login, under the default settings *)

Definition served_context : RequestContext := mkRequestContext (V4 [127; 0; 0; 1]) true (sr_snapshot example_store) None.
Definition offered_run : ApiResult ChallengeResponse * App :=
  create_challenge (λ n, repeat x02 (N.to_nat n)) [x05] served_context (login_request AuthenticateIdentity example_seed)
    login_example_app.
Definition offered_answer : ChallengeResponse :=
  res_value (mkChallengeResponse [] [] EmptyString [] [] []) offered_run.1.
Definition offered_signature : text :=
  match sign_challenge id (cs_signing_input offered_answer) example_seed (lit (op_as_str AuthenticateIdentity)) None with
  | Ok signature => signature
  | Err _ => []
  end.
Definition offered_request : SignedRequest := mkSignedRequest (cs_challenge_id offered_answer) offered_signature.
Definition token_run : ApiResult TokenResponse * App :=
  create_token toy_to_vec [x09] served_context offered_request offered_run.2.
Definition token_answer : TokenResponse :=
  res_value (mkTokenResponse [] 0 [] EmptyString []) token_run.1.
Lemma token_run_ok : res_ok token_run.1 = true.
Proof. vm_cast_no_check (eq_refl true). Qed.
Lemma token_answered :
  create_token toy_to_vec [x09] served_context offered_request offered_run.2 = (Ok token_answer, token_run.2).
Proof. exact (ran_ok (mkTokenResponse [] 0 [] EmptyString []) token_run token_run_ok). Qed.
Lemma token_kind : tk_principal token_answer = kind_as_str KIdentity.
Proof. apply (bool_decide_unpack _). vm_cast_no_check I. Qed.
Lemma offered_others : ap_others offered_run.2 = [].
Proof.
  assert (is_empty (ap_others offered_run.2) = true) as E by vm_cast_no_check (eq_refl true).
  by destruct (ap_others offered_run.2).
Qed.
Lemma among_since s : ap_others s = [] → among (since (accounts s)) s.
Proof. intros E. split; [apply reaches_refl|by rewrite E]. Qed.
Lemma offered_wf : accounts_wf (accounts offered_run.2).
Proof.
  destruct (holds_create_challenge login_example_tables (λ n, repeat x02 (N.to_nat n)) [x05] served_context
              (login_request AuthenticateIdentity example_seed) login_example_app) as [[Hr _] _]; [by apply (among_since login_example_app)|].
  eapply reaches_wf; [apply login_example_wf|exact Hr].
Qed.
Lemma served_sound : values_sound (λ _, false) (sn_values (rc_snapshot served_context)).
Proof. pose proof example_loads as (revision & at_ & stored & _ & _ & E & Hs)%load_spec. cbn [served_context rc_snapshot]. by rewrite E. Qed.

Lemma token_needs_proof_witness :
  tk_principal token_answer = kind_as_str KIdentity
  ∧ ∃ r claims, proven (accounts offered_run.2) (sr_snapshot example_store) (cs_challenge_id offered_answer) offered_signature r
         ∧ attested (accounts offered_run.2) (ch_key r) (ch_operation r) claims
         ∧ carries toy_to_vec claims token_answer ∧ issued_here (sr_snapshot example_store) [x09] claims.
Proof.
  split; [exact token_kind|].
  exact (token_needs_proof toy_to_vec (λ _, false) (accounts offered_run.2) [x09] served_context offered_request offered_run.2
           token_answer token_run.2 offered_wf served_sound (among_since _ offered_others) token_answered).
Defined.
