(* ===== verification/Handlers.v ===== *)
(** * Resource handlers ([server/src/http/devices.rs], [ws.rs], [terminals.rs],
      the terminal list of [db/repo.rs])

    Registering, listing, reading and revoking devices; reading terminals and
    asking a device to open one; the two WebSocket upgrades. A task the source
    spawns is part of the answer. *)

From S2P Require Export Auth MirrorConn.

Open Scope N_scope.
Open Scope hype_scope.

Section handlers.
Context `{CryptoLib, ChronoLib, UuidLib, JsonText}.
Context (claims_to_vec : TokenClaims → list byte) (claims_from_slice : list byte → option TokenClaims).

Definition jopt {A} (f : A → json) (o : option A) : json := from_option f JNull o.
Definition juuid (id : Uuid) : json := JStr (uuid_text id).

(** ** Devices *)

Definition device_json (sn : Snapshot) (device : Device) (g : Registry) : json :=
  let id := dv_device_id device in
  JObj [("publisher_connected", JBool (publisher_connected id g));
        ("terminal_open_supported",
         JBool (sn_bool keys.FEATURES_TERMINAL_CREATE_ENABLED sn && publisher_supports_open_request id g));
        ("device_id", juuid id); ("identity_id", JStr (dv_identity_id device)); ("name", JStr (dv_name device));
        ("role", jstr (role_as_str (dv_role device)));
        ("key", JObj [("algorithm", JStr (dv_algorithm device)); ("fingerprint", JStr (dv_key_fingerprint device))]);
        ("created_at", JStr (to_rfc3339 (dv_created_at device)));
        ("last_seen_at", jopt (JStr ∘ to_rfc3339) (dv_last_seen_at device));
        ("revoked_at", jopt (JStr ∘ to_rfc3339) (dv_revoked_at device))]%string.
Definition device_view (sn : Snapshot) (device : Device) : AppM json :=
  app_gets (λ w, device_json sn device (wo_reg w)).

Record RegisterDeviceRequest := mkRegisterDeviceRequest {
  rd_name : text;
  rd_key : KeyInput;
  rd_challenge_id : text;
  rd_device_signature : text;
  rd_role : option text;
}.
Definition requested_role (role : option text) : ApiResult DeviceRole :=
  match role with
  | None => Ok RPublisher
  | Some raw =>
      match role_parse raw with
      | Some r => Ok r
      | None => Err (api_validation (lit "role must be publisher, client, or both"))
      end
  end.
(** What the challenge of a registration must say. *)
Definition registration_bound (auth : Auth) (fingerprint : text) (record : ChallengeRecord) : ApiResult () :=
  if negb (bool_decide (ch_operation record = RegisterDevice)) then
    Err (challenge_invalid (lit "challenge was not issued for register_device"))
  else if negb (bool_decide (ch_owner_identity_id record = Some (a_identity_id auth))) then
    Err (challenge_invalid (lit "challenge is bound to a different owner identity"))
  else if negb (bool_decide (ch_device_key_fingerprint record = Some fingerprint))
          || negb (bool_decide (ch_key_fingerprint record = fingerprint)) then
    Err (challenge_invalid (lit "challenge is bound to a different device key"))
  else Ok ().
(** The three statements that add the device; other connections may write
    between them. *)
Definition add_device (device_id : Uuid) (max_devices : Z) (identity_id : text) (key : PublicKey) (name : text)
    (role : DeviceRole) : AppM Device :=
  now ← read_clock;
  existing ← acc_read (get_device_by_fingerprint now (key_fingerprint key));
  _ ← (match existing with
       | Some d => fail (api_conflict (lit "this device key is already registered as device " ++ uuid_text (dv_device_id d)))
       | None => mret ()
       end);
  count ← acc_read (count_active_devices identity_id);
  _ ← refuse_if (max_devices <=? count)%Z
        (api_limit_exceeded (lit "identity already owns " ++ lit (pretty.pretty count) ++ lit " devices, the limit is "
                             ++ lit (pretty.pretty max_devices)));
  created ← read_clock;
  acc_call (insert_device device_id created identity_id key name role).
(** [register]; [device_id] is the new device's random UUID. *)
Definition register `{FromSlice RegisterDeviceRequest} (device_id : Uuid) (context : RequestContext) (auth : Auth)
    (body : list byte) : AppM Response :=
  let sn := rc_snapshot context in
  _ ← lift (require_identity auth);
  _ ← lift (require_scope DEVICES_WRITE auth);
  _ ← refuse_if (negb (sn_bool keys.FEATURES_DEVICE_REGISTRATION_ENABLED sn))
        (feature_disabled "device registration is disabled");
  replayed ← idempotency_lookup context (a_identity_id auth) (lit "POST") (lit "/v1/devices") body;
  match replayed with
  | Some response => mret response
  | None =>
      request ← lift (parse_body body);
      let name := trim (rd_name request) in
      _ ← refuse_if (is_empty name || (sn_usize keys.LIMITS_MAX_DEVICE_NAME_BYTES sn <? text_len name))
            (api_validation (lit "name must be non-empty and within the configured length"));
      role ← lift (requested_role (rd_role request));
      key ← lift (key_parse (ki_algorithm (rd_key request)) (ki_public_key (rd_key request))
                    (sn_list keys.AUTH_SUPPORTED_KEY_ALGORITHMS sn));
      signature ← some_or (b64_decode (rd_device_signature request))
                    (api_invalid (lit "device_signature must be base64url-encoded"));
      record ← take_challenge (rd_challenge_id request);
      _ ← lift (registration_bound auth (key_fingerprint key) record);
      _ ← refuse_if (negb (key_verify key (signing_encode (signing_input sn record)) signature))
            (api_new 401 "signature_invalid" (lit "device_signature does not verify against the challenge"));
      device ← add_device device_id (sn_int keys.LIMITS_MAX_DEVICES_PER_IDENTITY sn) (a_identity_id auth) key name role;
      response ← device_view sn device;
      _ ← idempotency_store context (a_identity_id auth) (lit "POST") (lit "/v1/devices") body 201 response;
      mret (respond 201 response)
  end.

Definition resolve_limit (requested : option Z) (sn : Snapshot) : ApiResult Z :=
  let max := sn_int keys.LIMITS_MAX_PAGE_SIZE sn in
  match requested with
  | None => Ok (Z.min (sn_int keys.LIMITS_DEFAULT_PAGE_SIZE sn) max)
  | Some limit =>
      if ((1 <=? limit) && (limit <=? max))%Z then Ok limit
      else Err (api_validation (lit "limit must be between 1 and " ++ lit (pretty.pretty max)))
  end.
Definition decode_cursor (cursor : option text) : ApiResult (option Cursor) :=
  match cursor with
  | None => Ok None
  | Some raw => match cursor_decode raw with Ok c => Ok (Some c) | Err e => Err e end
  end.
(** One row more than the page tells whether there is another. *)
Definition page_of {A} (limit : Z) (cursor_of : A → text) (rows : list A) : list A * option text :=
  if (limit <? Z.of_nat (length rows))%Z then
    let page := take (Z.to_nat limit) rows in (page, cursor_of <$> last page)
  else (rows, None).
Definition device_cursor (d : Device) : text := cursor_encode (to_rfc3339 (dv_created_at d)) (uuid_text (dv_device_id d)).
(** [list]: the page's devices and the next cursor; a device is rendered by
    [device_json]. *)
Definition list_page (context : RequestContext) (auth : Auth) (cursor : option text) (limit : option Z)
    : AppM (list Device * option text) :=
  _ ← lift (require_scope DEVICES_READ auth);
  limit ← lift (resolve_limit limit (rc_snapshot context));
  cursor ← lift (decode_cursor cursor);
  now ← read_clock;
  devices ← acc_read (list_devices now (a_identity_id auth) cursor (limit + 1));
  mret (page_of limit device_cursor devices).
Definition list_all (context : RequestContext) (auth : Auth) (cursor : option text) (limit : option Z) : AppM Response :=
  page ← list_page context auth cursor limit;
  let '(devices, next_cursor) := (page : list Device * option text) in
  view ← app_gets (λ w, (λ d, device_json (rc_snapshot context) d (wo_reg w)) <$> devices);
  mret (respond 200 (JObj [("devices"%string, JArr view); ("next_cursor"%string, jopt JStr next_cursor)])).

Definition get (context : RequestContext) (auth : Auth) (device_id : Uuid) : AppM Response :=
  _ ← lift (require_identity auth);
  _ ← lift (require_scope DEVICES_READ auth);
  now ← read_clock;
  device ← acc_read (get_owned_device now (a_identity_id auth) device_id);
  device ← some_or device api_not_found;
  view ← device_view (rc_snapshot context) device;
  mret (respond 200 view).

(** [revoke]: the answer, and the device whose revocation a spawned task
    enforces on the registry. *)
Definition enforcement (now : N) (device_id : Uuid) (w : World) : World :=
  put_reg (enforce_device_revocation now device_id (wo_reg w)) w.
Definition revoke (auth : Auth) (device_id : Uuid) : AppM (Response * Uuid) :=
  _ ← lift (require_identity auth);
  _ ← lift (require_scope DEVICES_WRITE auth);
  now ← read_clock;
  device ← acc_read (get_owned_device now (a_identity_id auth) device_id);
  device ← some_or device api_not_found;
  at_ ← read_clock;
  _ ← acc_update (revoke_device at_ device_id);
  answered ← read_clock;
  mret (respond 200 (JObj [("device_id"%string, juuid (dv_device_id device));
                           ("revoked_at"%string, JStr (to_rfc3339 (default answered (dv_revoked_at device))))]),
        device_id).

(** ** Terminals *)

(** [list_terminals]: a row's time is in microseconds there. *)
Record TerminalFilters := mkTerminalFilters {
  tf_device_id : option Uuid;
  tf_state : option TerminalState;
}.
Definition terminal_key (row : TerminalRow) : SortKey := (to_rfc3339 (t_created_at row * 1000), uuid_text (t_terminal_id row)).
Definition terminal_le (r1 r2 : TerminalRow) : Prop := key_le (terminal_key r1) (terminal_key r2).
#[export] Instance terminal_le_dec r1 r2 : Decision (terminal_le r1 r2).
Proof. unfold terminal_le. apply _. Defined.
Definition terminal_matches (identity_id : text) (filters : TerminalFilters) (c : TerminalRec) : bool :=
  bool_decide (c_identity_id c = identity_id)
  && from_option (λ id, bool_decide (c_device_id c = id)) true (tf_device_id filters)
  && from_option (λ s, bool_decide (c_state c = state_as_str s)) true (tf_state filters).
Definition list_terminals (identity_id : text) (filters : TerminalFilters) (cursor : option Cursor) (limit : Z)
    (tb : Tables) : list TerminalRow :=
  let rows := merge_sort terminal_le (select_rows (terminal_matches identity_id filters) tb) in
  let rows := filter (λ row, from_option (λ c, key_ltb (cu_timestamp c, cu_id c) (terminal_key row)) true cursor = true) rows in
  if (limit <? 0)%Z then rows else take (Z.to_nat limit) rows.

Definition offsets_for (row : TerminalRow) (g : Registry) : Offsets :=
  match resident (t_terminal_id row) g ≫= (λ loc, inner_at loc g) with
  | Some i => term_offsets i
  | None => mkOffsets (t_earliest_offset row) (t_durable_offset row) (t_durable_offset row)
  end.
Definition live_state (row : TerminalRow) (g : Registry) : string :=
  match resident (t_terminal_id row) g with
  | Some loc => lifecycle_as_str (lifecycle_at loc g)
  | None => state_as_str (t_state row)
  end.
Definition terminal_json (sn : Snapshot) (row : TerminalRow) (detailed : bool) (g : Registry) : json :=
  let offsets := offsets_for row g in
  let fields : list (string * json) :=
    [("terminal_id", juuid (t_terminal_id row)); ("device_id", juuid (t_device_id row));
     ("identity_id", JStr (t_identity_id row)); ("label", JStr (t_label row)); ("local_ref", JStr (t_local_ref row));
     ("state", jstr (live_state row g)); ("cols", jopt jnat (t_cols row)); ("rows", jopt jnat (t_rows row));
     ("term", jopt JStr (t_term row)); ("created_at", JStr (to_rfc3339 (t_created_at row * 1000)));
     ("last_activity_at", JStr (to_rfc3339 (t_last_activity_at row * 1000)));
     ("closed_at", jopt (λ t, JStr (to_rfc3339 (t * 1000))) (t_closed_at row));
     ("close_reason", jopt JStr (t_close_reason row)); ("accepts_input", JBool (t_accepts_input row));
     ("earliest_offset", jnat (of_earliest_offset offsets)); ("next_offset", jnat (of_next_offset offsets));
     ("durable_offset", jnat (of_durable_offset offsets)); ("retained_bytes", jnat (retained_bytes offsets))]%string in
  let details : list (string * json) :=
    match t_process_label row with Some l => [("process_label"%string, JStr l)] | None => [] end
    ++ [("replay_capacity_bytes"%string, jnat (replay_capacity sn))] in
  JObj (fields ++ if detailed then details else []).

(** [list] of the terminals: the page's rows and the next cursor. *)
Definition terminal_cursor (row : TerminalRow) : text :=
  cursor_encode (to_rfc3339 (t_created_at row * 1000)) (uuid_text (t_terminal_id row)).
Definition state_filter (state : option text) : ApiResult (option TerminalState) :=
  match state with
  | None => Ok None
  | Some raw =>
      if bool_decide (raw = lit "open") then Ok (Some StOpen)
      else if bool_decide (raw = lit "closed") then Ok (Some StClosed)
      else Err (api_validation (lit "state must be open or closed"))
  end.
Definition terminal_page (context : RequestContext) (auth : Auth) (device_id : option Uuid) (state cursor : option text)
    (limit : option Z) : AppM (list TerminalRow * option text) :=
  _ ← lift (require_scope TERMINALS_READ auth);
  limit ← lift (resolve_limit limit (rc_snapshot context));
  cursor ← lift (decode_cursor cursor);
  state ← lift (state_filter state);
  rows ← terminal_read (list_terminals (a_identity_id auth) (mkTerminalFilters device_id state) cursor (limit + 1));
  mret (page_of limit terminal_cursor rows).

(** [get] of a terminal. *)
Definition terminal_view (context : RequestContext) (auth : Auth) (terminal_id : Uuid) : AppM Response :=
  _ ← lift (require_scope TERMINALS_READ auth);
  row ← terminal_read (get_terminal terminal_id);
  row ← some_or row api_not_found;
  _ ← refuse_if (negb (bool_decide (t_identity_id row = a_identity_id auth))) api_not_found;
  view ← app_gets (λ w, terminal_json (g_settings (wo_reg w)) row true (wo_reg w));
  mret (respond 200 view).

(** ** Asking a device to open a terminal *)

Record CreateTerminalRequest := mkCreateTerminalRequest {
  ct_label : option text;
  ct_cols : option N;
  ct_rows : option N;
}.
Definition validate_label (label : text) (max_bytes : N) : result text () :=
  if max_bytes <? text_len label then Err (lit "label exceeds " ++ num max_bytes ++ lit " bytes")
  else if forallb is_whitespace label then Err (lit "label must not be blank")
  else if existsb (λ c, is_control c || ((128 <=? c) && (c <=? 159))) label then
    Err (lit "label must not contain control characters")
  else Ok ().
Definition dimension_error (name : string) (value : option N) : ApiResult () :=
  match value with
  | Some v => if (v =? 0) || (10000 <? v) then Err (api_validation (lit name ++ lit " is out of range")) else Ok ()
  | None => Ok ()
  end.
Definition validate_create (sn : Snapshot) (request : CreateTerminalRequest) : ApiResult () :=
  let? _ := match ct_label request with
            | Some label =>
                match validate_label label (sn_usize keys.LIMITS_MAX_LABEL_BYTES sn) with
                | Ok _ => Ok () | Err m => Err (api_validation m) end
            | None => Ok ()
            end in
  let? _ := dimension_error "cols" (ct_cols request) in
  dimension_error "rows" (ct_rows request).

(** Both buckets, the second only after the first. *)
Definition create_limits (sn : Snapshot) (auth : Auth) (device_id : Uuid) : AppM () :=
  if sn_bool keys.RATELIMIT_ENABLED sn then
    principal_ok ← check_window "terminal_create_principal" (a_principal_id auth)
      (sn_int keys.RATELIMIT_TERMINAL_CREATES_PER_HOUR_PER_PRINCIPAL sn) 3600;
    device_ok ← (if (principal_ok : bool) then
                   check_window "terminal_create_device" (uuid_text device_id)
                     (sn_int keys.RATELIMIT_TERMINAL_CREATES_PER_HOUR_PER_DEVICE sn) 3600
                 else mret false);
    refuse_if (negb device_ok) (api_rate_limited 60)
  else mret ().

(** Waiting on the request's answer: each turn other tasks run and the receiver
    looks again; the deadline, or the loss of the sender, ends it. *)
Fixpoint wait_outcome (turns : nat) (watch : N) : AppM (option OpenOutcome) :=
  outcome ← app_gets (λ w, mjoin (g_watches (wo_reg w) !! watch));
  match outcome, turns with
  | Some o, _ => mret (Some o)
  | None, O => mret None
  | None, S turns => _ ← await; wait_outcome turns watch
  end.
Definition unavailable (m : string) : ApiError := api_publisher_unavailable (lit m).
(** Registering the request: its watch, and whether this call owns it. A request
    that cannot be delivered is resolved at once. *)
Definition begin_create (now : N) (device_id : Uuid) (request_id : text) (sn : Snapshot) (auth : Auth)
    (request : CreateTerminalRequest) : AppM (N * bool) :=
  begun ← reg_do (begin_open_request now device_id request_id (a_principal_id auth)
                    (sn_usize keys.LIMITS_MAX_PENDING_OPEN_REQUESTS_PER_DEVICE sn)
                    (sn_usize keys.LIMITS_MAX_PENDING_OPEN_REQUESTS_TOTAL sn));
  begun ← lift begun;
  match begun with
  | Registry.Joined watch => mret (watch, false)
  | Registry.Fresh watch =>
      delivered ← reg_do (deliver_to_publisher device_id
                            (PdOpenRequest request_id (ct_label request) (ct_cols request) (ct_rows request)));
      match delivered with
      | Ok _ => mret (watch, true)
      | Err _ =>
          _ ← reg_do (resolve_open_request device_id request_id Unavailable);
          fail (unavailable "that device could not be reached")
      end
  end.
(** [retire] *)
Definition retire (owns : bool) (device_id : Uuid) (request_id : text) : AppM () :=
  if owns then app_modify (λ w, put_reg (finish_open_request device_id request_id (wo_reg w)) w) else mret ().
(** The terminal of a positive answer, or the error of a negative one. *)
Definition opened_terminal (owns : bool) (device_id : Uuid) (request_id : text) (outcome : option OpenOutcome)
    : AppM (Uuid * bool) :=
  match outcome with
  | None => fail (api_publisher_timeout (lit "the device did not answer in time; retry with the same Idempotency-Key"))
  | Some (Opened terminal_id deduplicated) => mret (terminal_id, deduplicated)
  | Some (Declined reason) =>
      _ ← retire owns device_id request_id;
      fail (api_publisher_declined (lit "the device declined to open a terminal: " ++ reason))
  | Some (Failed code message) =>
      _ ← retire owns device_id request_id; fail (api_new 409 (error_code_str code) message)
  | Some Unavailable =>
      _ ← retire owns device_id request_id; fail (unavailable "that device disconnected before answering")
  end.
Definition terminals_path (device_id : Uuid) : text := lit "/v1/devices/" ++ uuid_text device_id ++ lit "/terminals".
Definition create_gate (sn : Snapshot) (context : RequestContext) (auth : Auth) : ApiResult text :=
  let? _ := require_scope TERMINALS_CREATE auth in
  if negb (sn_bool keys.FEATURES_TERMINAL_CREATE_ENABLED sn) then
    Err (feature_disabled "terminal creation is disabled on this deployment")
  else
    match rc_idempotency_key context with
    | None => Err (api_idempotency_key_required (lit "Idempotency-Key is required when asking a device to open a terminal"))
    | Some key => Ok key
    end.
(** The device a request may name: owned, not revoked, publishing. *)
Definition open_device (auth : Auth) (device_id : Uuid) : AppM Device :=
  now ← read_clock;
  device ← acc_read (get_owned_device now (a_identity_id auth) device_id);
  match device with
  | Some d => if bool_decide (dv_revoked_at d = None) && may_publish (dv_role d) then mret d else fail api_not_found
  | None => fail api_not_found
  end.
(** [serde_json::from_slice] with the error's own text. *)
Definition parse_create `{FromSlice CreateTerminalRequest} (body : list byte) : ApiResult CreateTerminalRequest :=
  match from_slice body with Ok r => Ok r | Err e => Err (api_invalid e) end.
(** What a successful request ends with, and whether this call owns it. *)
Record OpenAnswer := mkOpenAnswer {
  oa_terminal_id : Uuid;
  oa_status : N;
  oa_value : json;
  oa_owns : bool;
  oa_device_id : Uuid;
}.
(** The body of [create_for_device] between its idempotency lookup and store;
    [turns] is how often the wait is woken before its deadline. *)
Definition ask_device `{FromSlice CreateTerminalRequest} (turns : nat) (sn : Snapshot) (auth : Auth) (device_id : Uuid)
    (request_id : text) (body : list byte) : AppM OpenAnswer :=
  request ← lift (parse_create body);
  _ ← lift (validate_create sn request);
  device ← open_device auth device_id;
  _ ← create_limits sn auth (dv_device_id device);
  supported ← app_gets (λ w, publisher_supports_open_request (dv_device_id device) (wo_reg w));
  _ ← refuse_if (negb supported) (unavailable "that device is not currently accepting terminal-open requests");
  now ← read_instant;
  begun ← begin_create now (dv_device_id device) request_id sn auth request;
  let '(watch, owns) := (begun : N * bool) in
  outcome ← wait_outcome turns watch;
  opened ← opened_terminal owns (dv_device_id device) request_id outcome;
  let '(terminal_id, deduplicated) := (opened : Uuid * bool) in
  row ← terminal_read (get_terminal terminal_id);
  row ← some_or row (api_internal (lit "the opened terminal could not be read back"));
  value ← app_gets (λ w, terminal_json (g_settings (wo_reg w)) row true (wo_reg w));
  let value := match value with
               | JObj fields => JObj (field_insert "deduplicated" (JBool deduplicated) fields) | v => v end in
  mret (mkOpenAnswer terminal_id (if deduplicated then 200 else 201) value owns (dv_device_id device)).
(** [create_for_device] *)
Definition create_for_device `{FromSlice CreateTerminalRequest} (turns : nat) (context : RequestContext) (auth : Auth)
    (device_id : Uuid) (body : list byte) : AppM Response :=
  let sn := rc_snapshot context in
  key ← lift (create_gate sn context auth);
  let path := terminals_path device_id in
  replayed ← idempotency_lookup context (a_identity_id auth) (lit "POST") path body;
  match replayed with
  | Some response => mret response
  | None =>
      let request_id := key_hash (a_identity_id auth) (lit "POST") path key in
      answer ← ask_device turns sn auth device_id request_id body;
      _ ← idempotency_store context (a_identity_id auth) (lit "POST") path body (oa_status answer) (oa_value answer);
      _ ← retire (oa_owns answer) (oa_device_id answer) request_id;
      mret (mkResponse (oa_status answer) (oa_value answer)
              (Some (lit "/v1/terminals/" ++ uuid_text (oa_terminal_id answer))))
  end.

(** ** WebSocket upgrades *)

Definition negotiate_upgrade (headers : Headers) (v1 v2 : text) : ApiResult ProtocolVersion :=
  match negotiate (default [] (headers (lit "sec-websocket-protocol"))) v1 v2 with
  | Some v => Ok v
  | None => Err (api_invalid (lit "this endpoint requires the " ++ v1 ++ lit " or " ++ v2 ++ lit " WebSocket subprotocol"))
  end.
Definition shutting_down_error : ApiError :=
  api_new 503 "not_ready" (lit "server is shutting down and is not accepting new connections").
(** [check_connection_limits]; success holds a permit of the principal. *)
Definition check_connection_limits (sn : Snapshot) (principal : text) : AppM () :=
  allowed ← (if sn_bool keys.RATELIMIT_ENABLED sn then
               rate_check "ws_connect" principal (sn_int keys.RATELIMIT_WEBSOCKET_CONNECTIONS_PER_MINUTE_PER_PRINCIPAL sn)
             else mret true);
  _ ← refuse_if (negb allowed) (rate_limited sn);
  acquired ← reg_do (acquire_connection principal (sn_usize keys.LIMITS_MAX_CONNECTIONS_PER_PRINCIPAL sn));
  refuse_if (negb acquired)
    (api_limit_exceeded (lit "this principal already has the maximum number of open connections")).

(** The channel of a publisher that receives input; its location. *)
Definition new_input_chan (capacity : N) (g : Registry) : N * Registry :=
  let loc := g_next_loc g in
  (loc, put_next_loc (loc + 1) (put_inputs (<[loc := mkInputChan [] capacity true]> (g_inputs g)) g)).

(** What [publisher::handle] is started with. *)
Record RelayConnection := mkRelayConnection {
  ry_device : Device;
  ry_connection_id : text;
  ry_version : ProtocolVersion;
  ry_input_rx : option N;
  ry_lease : PublisherLease;
}.
(** [ulid] is the random part of the connection's identifier. *)
Definition relay_upgrade (ulid : list byte) (context : RequestContext) (device_id : Uuid) (headers : Headers)
    : AppM RelayConnection :=
  let sn := rc_snapshot context in
  _ ← refuse_if (negb (sn_bool keys.FEATURES_PUBLISH_ENABLED sn)) (feature_disabled "publishing is disabled");
  shutting_down ← app_gets (λ w, g_shutting_down (wo_reg w));
  _ ← refuse_if shutting_down shutting_down_error;
  version ← lift (negotiate_upgrade headers SUBPROTOCOL_PUBLISHER_V1 SUBPROTOCOL_PUBLISHER_V2);
  let path := lit "/v1/devices/" ++ uuid_text device_id ++ lit "/relay" in
  auth ← authenticate_upgrade claims_from_slice sn headers path;
  _ ← refuse_if (negb (bool_decide (a_kind auth = KDevice)) || negb (bool_decide (a_principal_id auth = uuid_text device_id)))
        api_not_found;
  _ ← lift (require_scope TERMINALS_PUBLISH auth);
  now ← read_clock;
  device ← acc_read (get_device now device_id);
  device ← some_or device api_not_found;
  _ ← refuse_if (bool_decide (is_Some (dv_revoked_at device)))
        (with_code "device_revoked" (api_unauthorized (lit "this device has been revoked")));
  _ ← refuse_if (negb (may_publish (dv_role device)))
        (api_insufficient_scope (lit "this device's role does not permit publishing"));
  _ ← check_connection_limits sn (a_principal_id auth);
  millis ← read_clock;
  let connection_id := new_ulid (timestamp_millis millis) ulid in
  input ← (if supports_input version then
             loc ← reg_do (new_input_chan (N.max (sn_usize keys.LIMITS_MAX_INPUT_QUEUE_FRAMES sn) 1)); mret (Some loc)
           else mret None);
  lease ← reg_do (attach_publisher device_id connection_id version input);
  at_ ← read_clock;
  _ ← ignore (acc_update (λ a, ((), touch_device at_ device_id a)));
  mret (mkRelayConnection device connection_id version input lease).

(** What [mirror::handle] is started with, and the principal of its permit. *)
Definition mirror_upgrade (ulid : list byte) (context : RequestContext) (terminal_id : Uuid) (headers : Headers)
    : AppM (MirrorContext * text) :=
  let sn := rc_snapshot context in
  _ ← refuse_if (negb (sn_bool keys.FEATURES_MIRROR_ENABLED sn)) (feature_disabled "mirroring is disabled");
  shutting_down ← app_gets (λ w, g_shutting_down (wo_reg w));
  _ ← refuse_if shutting_down shutting_down_error;
  version ← lift (negotiate_upgrade headers SUBPROTOCOL_MIRROR_V1 SUBPROTOCOL_MIRROR_V2);
  let path := lit "/v1/terminals/" ++ uuid_text terminal_id ++ lit "/mirror" in
  auth ← authenticate_upgrade claims_from_slice sn headers path;
  _ ← (match a_kind auth with
       | KDevice =>
           now ← read_clock;
           device ← acc_read (get_device now (default NIL_UUID (uuid_parse (a_principal_id auth))));
           device ← some_or device api_not_found;
           refuse_if (negb (may_mirror (dv_role device)) || negb (bool_decide (dv_identity_id device = a_identity_id auth)))
             api_not_found
       | KIdentity => mret ()
       end);
  _ ← lift (require_scope TERMINALS_MIRROR auth);
  row ← terminal_read (get_terminal terminal_id);
  row ← some_or row api_not_found;
  _ ← refuse_if (negb (bool_decide (t_identity_id row = a_identity_id auth))) api_not_found;
  _ ← check_connection_limits sn (a_principal_id auth);
  millis ← read_clock;
  mret (mkMirrorContext terminal_id (a_identity_id auth) (new_ulid (timestamp_millis millis) ulid) version
          (supports_input version && is_ok (require_scope TERMINALS_INPUT auth)),
        a_principal_id auth).
End handlers.
