(* ===== verification/HandlersProps.v ===== *)
(** * Theorems about the resource handlers

    A revoked device is refused by every door; a terminal is shown and opened
    only to its owner; a device is added only with its key and its owner's
    consent; the pages of a list cover it exactly once; a retried request is
    answered from its record. *)

From S2P Require Export AuthProps Handlers.

Open Scope N_scope.
Open Scope hype_scope.

Section safety.
Context `{CryptoLib, ChronoLib, UuidLib, JsonText}.
Context (claims_to_vec : TokenClaims → list byte) (claims_from_slice : list byte → option TokenClaims).

(** ** Revocation *)

Lemma holds_relay_refused a0 id ulid context headers :
  revoked id a0 → holds (since a0) (relay_upgrade claims_from_slice ulid context id headers) (λ _, False).
Proof.
  intros Hr. unfold relay_upgrade. skip_next. skip_next. skip_next. skip_next.
  next_with (λ _ : Auth, True); [by apply holds_upgrade|intros auth _]. skip_next. skip_next. skip_next. rename a6 into now.
  next_with (λ o, ∃ b, reaches a0 b ∧ o = get_device now id b);
    [apply holds_acc_read; [apply _|]; intros w Hw; by exists (wo_accounts w)|].
  intros o (b & Ha & ->). next_with (λ d, get_device now id b = Some d); [by apply holds_some_or|].
  intros d Hd. next_with (λ _, dv_revoked_at d = None).
  { apply holds_refuse_if. intros E%bool_decide_eq_false. by apply eq_None_not_Some. }
  intros _ Hn. exfalso. destruct (reaches_revoked _ _ _ Hr Ha) as (r & Hrow & Hv).
  unfold get_device in Hd. rewrite Hrow in Hd. injection Hd as <-. cbn in Hn.
  unfold revoked_rec in Hv. rewrite Hn in Hv. by destruct Hv.
Qed.

(** C6: revocation is final. Once a device is revoked, whatever operations
    anyone runs on the tables and at any point between a handler's statements:
    no bearer token authenticates a request or an upgrade as that device, no
    token is issued to it, and it cannot connect as a publisher, not even with a
    ticket. *)
Theorem revocation_is_final `{!UuidLaws} a0 id s :
  revoked id a0 → among (since a0) s →
  (∀ context query authorization auth,
     (authenticate claims_from_slice context query authorization s).1 = Ok auth → other_than id auth)
  ∧ (∀ sn headers path auth, no_ticket headers →
       (authenticate_upgrade claims_from_slice sn headers path s).1 = Ok auth → other_than id auth)
  ∧ (∀ jti context request answer, (create_token claims_to_vec jti context request s).1 = Ok answer →
       tk_principal answer = kind_as_str KDevice → tk_principal_id answer ≠ uuid_text id)
  ∧ (∀ ulid context headers connection,
       (relay_upgrade claims_from_slice ulid context id headers s).1 ≠ Ok connection).
Proof.
  intros Hr Ha. split_and!.
  - intros * E. by eapply holds_authenticate.
  - intros * Hn E. by eapply holds_bearer_upgrade.
  - intros * E Hd. destruct (holds_create_token claims_to_vec a0 jti context request s Ha) as [_ HQ].
    destruct (HQ _ E) as (r & g & _ & Hg & issued & key & _ & _ & Ek & Eid & _). rewrite Eid.
    destruct Hg as [|a id' d role Hra _ Hd' _ Hv _]; cbn in *; [by rewrite Ek in Hd|].
    intros ->%(inj uuid_text). destruct (reaches_revoked _ _ _ Hr Hra) as (d' & Hd'' & Hv').
    rewrite Hd' in Hd''. injection Hd'' as ->. unfold revoked_rec in Hv'. rewrite Hv in Hv'. by destruct Hv'.
  - intros * E. by destruct (holds_relay_refused a0 id ulid context headers Hr s Ha) as [_ HQ]; apply HQ in E.
Qed.

(** ** Whose terminals *)

(** An invariant of the terminals' tables, which no statement on accounts
    touches. *)
Definition on_tables (J : Tables → Prop) (w : World) : Prop := J (g_db (wo_reg w)).
#[local] Instance framed_on_tables J : Framed (on_tables J) := framed_tables J.

Lemma tables_acc {A} J (f : Accounts → ApiResult (A * Accounts)) (Q : A → Prop) :
  (∀ a, Q a) → holds (on_tables J) (acc_call f) Q.
Proof. intros HQ. apply holds_acc_call; [apply _|]. intros w a acc Hw _. by split. Qed.
Lemma tables_verify J token sn (Q : TokenClaims → Prop) :
  (∀ c, Q c) → holds (on_tables J) (verify claims_from_slice token sn) Q.
Proof. intros HQ. unfold verify. skip_next. skip_next. by apply holds_lift. Qed.
Lemma tables_revoked J claims (Q : bool → Prop) : (∀ b, Q b) → holds (on_tables J) (credential_revoked claims) Q.
Proof.
  intros HQ. unfold credential_revoked. skip_next. split_if; [by apply holds_ret|].
  destruct (tc_principal claims); [by apply holds_ret|]. skip_next. skip_next. by apply holds_ret.
Qed.
Lemma tables_upgrade J sn headers path (Q : Auth → Prop) :
  (∀ auth, Q auth) → holds (on_tables J) (authenticate_upgrade claims_from_slice sn headers path) Q.
Proof.
  intros HQ. unfold authenticate_upgrade. cbv zeta.
  destruct (match headers (lit "x-relay-ticket") with Some t => Some t | None => cookie_value headers "relay_ticket" end) as [raw|].
  - skip_next. skip_next. next_with (λ _ : option TicketRecord, True); [by apply tables_acc|].
    intros record _. skip_next. by apply holds_ret.
  - skip_next. next_with (λ _ : TokenClaims, True); [by apply tables_verify|]. intros claims _.
    next_with (λ _ : bool, True); [by apply tables_revoked|]. intros b _. skip_next. by apply holds_ret.
Qed.
Lemma tables_limits J sn principal (Q : () → Prop) : Q () → holds (on_tables J) (check_connection_limits sn principal) Q.
Proof.
  intros HQ. unfold check_connection_limits. next_with (λ _ : bool, True); [apply holds_if_check; [apply _|done]|].
  intros allowed _. skip_next. next_with (λ _ : bool, True).
  { apply holds_reg_do. intros w b g Hw E. split; [|done]. unfold acquire_connection in E.
    repeat case_match; simplify_eq/=; done. }
  intros b _. by apply holds_refuse_if.
Qed.

(** A row of the tables that the principal's identity owns. *)
Definition owned_row (J : Tables → Prop) (terminal_id : Uuid) (identity_id : text) : Prop :=
  ∃ tb row, J tb ∧ get_terminal terminal_id tb = Some row ∧ t_identity_id row = identity_id.
Lemma holds_owned_row {B} J terminal_id identity_id (k : TerminalRow → AppM B) (Q : B → Prop) :
  (∀ row, owned_row J terminal_id identity_id → holds (on_tables J) (k row) Q) →
  holds (on_tables J)
    (row ← terminal_read (get_terminal terminal_id); row ← some_or row api_not_found;
     _ ← refuse_if (negb (bool_decide (t_identity_id row = identity_id))) api_not_found; k row) Q.
Proof.
  intros Hk. next_with (λ o, ∃ tb, J tb ∧ o = get_terminal terminal_id tb);
    [apply holds_terminal_read; [apply _|]; intros w Hw; by exists (g_db (wo_reg w))|].
  intros o (tb & Htb & ->). next_with (λ row, get_terminal terminal_id tb = Some row); [by apply holds_some_or|].
  intros row Hrow. next_with (λ _, t_identity_id row = identity_id).
  { apply holds_refuse_if. intros E%negb_false_iff. by apply bool_decide_eq_true in E. }
  intros _ Ho. apply Hk. by exists tb, row.
Qed.
Lemma take_forall {A} (P : A → Prop) n l : Forall P l → Forall P (take n l).
Proof. intros Hl. rewrite <- (take_drop n l) in Hl. by apply Forall_app in Hl as [? _]. Qed.
Lemma list_terminals_owned identity filters cursor limit tb :
  Forall (λ row, t_identity_id row = identity) (list_terminals identity filters cursor limit tb).
Proof.
  assert (∀ row, row ∈ merge_sort terminal_le (select_rows (terminal_matches identity filters) tb) →
                 t_identity_id row = identity) as Hs.
  { intros row Hin. rewrite (merge_sort_Permutation terminal_le) in Hin. unfold select_rows in Hin.
    apply list_elem_of_fmap in Hin as ([id c] & -> & [Hm _]%list_elem_of_filter). unfold terminal_matches in Hm. cbn.
    apply andb_true_iff in Hm as [[Hm _]%andb_true_iff _]. by apply bool_decide_eq_true in Hm. }
  unfold list_terminals. cbv zeta.
  assert (∀ p : TerminalRow → bool, Forall (λ row, t_identity_id row = identity) (filter (λ row, p row = true)
            (merge_sort terminal_le (select_rows (terminal_matches identity filters) tb)))) as Hf.
  { intros p. apply Forall_forall. intros row [_ Hin]%list_elem_of_filter. by apply Hs. }
  destruct (limit <? 0)%Z; [apply Hf|]. apply take_forall, Hf.
Qed.

Lemma holds_terminal_page J context auth device_id state cursor limit :
  holds (on_tables J) (terminal_page context auth device_id state cursor limit)
    (λ page, Forall (λ row, t_identity_id row = a_identity_id auth) page.1).
Proof.
  unfold terminal_page. skip_next. skip_next. skip_next. skip_next. rename a2 into st.
  next_with (Forall (λ row, t_identity_id row = a_identity_id auth));
    [apply holds_terminal_read; [apply _|]; intros w _; apply list_terminals_owned|].
  intros l Hl. apply holds_ret. unfold page_of. destruct (_ <? _)%Z; [|done]. by apply take_forall.
Qed.
Lemma holds_terminal_view J context auth id :
  holds (on_tables J) (terminal_view context auth id) (λ _, owned_row J id (a_identity_id auth)).
Proof. unfold terminal_view. skip_next. apply holds_owned_row. intros row Ho. skip_next. by apply holds_ret. Qed.
Lemma holds_mirror_ticket J random context auth path id :
  parse_ws_path (trim path) = Some (WsMirror id) →
  holds (on_tables J) (create_websocket_ticket random context auth path) (λ _, owned_row J id (a_identity_id auth)).
Proof.
  intros Hp. unfold create_websocket_ticket. cbv zeta. rewrite Hp.
  next_with (λ b, b = true → owned_row J id (a_identity_id auth)).
  { unfold authorised_for. split_if; [by apply holds_ret|].
    next_with (λ o, ∃ tb, J tb ∧ o = get_terminal id tb);
      [apply holds_terminal_read; [apply _|]; intros w Hw; by exists (g_db (wo_reg w))|].
    intros o (tb & Htb & ->). apply holds_ret. destruct (get_terminal id tb) as [row|] eqn:Er; [|done].
    intros Hb%bool_decide_eq_true. by exists tb, row. }
  intros b Hb. next_with (λ _, b = true); [apply holds_refuse_if; by intros ?%negb_false_iff|]. intros _ Hbt.
  destruct (new_ticket random) as [tk hash]. skip_next. skip_next.
  next_with (λ _ : (), True); [by apply tables_acc|]. intros _ _. apply holds_ret. auto.
Qed.
Lemma holds_mirror_upgrade J ulid context id headers :
  holds (on_tables J) (mirror_upgrade claims_from_slice ulid context id headers)
    (λ p, owned_row J id (mc_identity_id p.1)).
Proof.
  unfold mirror_upgrade. skip_next. skip_next. skip_next. skip_next.
  next_with (λ _ : Auth, True); [by apply tables_upgrade|]. intros auth _.
  next_with (λ _ : (), True).
  { destruct (a_kind auth); [by apply holds_ret|]. skip_next. skip_next. skip_next. by apply holds_refuse_if. }
  intros _ _. skip_next. apply holds_owned_row. intros row Ho.
  next_with (λ _ : (), True); [by apply tables_limits|]. intros _ _. skip_next. by apply holds_ret.
Qed.

(** C7: a terminal is only its owner's. Whatever other tasks do, as long as
    they keep an invariant of the terminals' tables: a page of the list holds
    only terminals of the caller's identity; and when a terminal's page, a ticket
    for its mirror or the upgrade of a mirror socket is granted, then the terminal
    was in tables that satisfy the invariant and belongs to the caller's
    identity, which is the identity the mirror connection then acts for. *)
Theorem terminals_only_for_owner J s :
  among (on_tables J) s →
  (∀ context auth device_id state cursor limit rows next,
     (terminal_page context auth device_id state cursor limit s).1 = Ok (rows, next) →
     Forall (λ row, t_identity_id row = a_identity_id auth) rows)
  ∧ (∀ context auth id response, (terminal_view context auth id s).1 = Ok response → owned_row J id (a_identity_id auth))
  ∧ (∀ random context auth path id ticket, parse_ws_path (trim path) = Some (WsMirror id) →
       (create_websocket_ticket random context auth path s).1 = Ok ticket → owned_row J id (a_identity_id auth))
  ∧ (∀ ulid context id headers mirror principal,
       (mirror_upgrade claims_from_slice ulid context id headers s).1 = Ok (mirror, principal) →
       owned_row J id (mc_identity_id mirror)).
Proof.
  intros Ha. split_and!.
  - intros * E. exact (proj2 (holds_terminal_page J context auth device_id state cursor limit s Ha) _ E).
  - intros * E. exact (proj2 (holds_terminal_view J context auth id s Ha) _ E).
  - intros * Hp E. exact (proj2 (holds_mirror_ticket J random context auth path id Hp s Ha) _ E).
  - intros * E. exact (proj2 (holds_mirror_upgrade J ulid context id headers s Ha) _ E).
Qed.

(** ** Registering a device *)

(** The other tasks only run operations on the tables of accounts, and a
    statement that was executed moves between such states. *)
Definition operating (s : App) : Prop :=
  Forall (λ f : World → World, ∀ w, reaches (wo_accounts w) (wo_accounts (f w))) (ap_others s).
Definition moves (s s' : App) : Prop := operating s → operating s' ∧ reaches (accounts s) (accounts s').

Lemma moves_refl s : moves s s.
Proof. intros Ho. split; [done|apply reaches_refl]. Qed.
Lemma moves_trans s1 s2 s3 : moves s1 s2 → moves s2 s3 → moves s1 s3.
Proof. intros H12 H23 [Ho1 R1]%H12. apply H23 in Ho1 as [Ho3 R3]. split; [done|by eapply reaches_trans]. Qed.
Lemma moves_clock s a s' : read_clock s = (a, s') → moves s s'.
Proof. unfold read_clock. destruct (ap_clock s); intros [= <- <-] Ho; (split; [exact Ho|apply reaches_refl]). Qed.

Lemma bind_inv {A B} (m : AppM A) (k : A → AppM B) s b s' :
  (m ≫= k) s = (Ok b, s') → ∃ a s1, m s = (Ok a, s1) ∧ k a s1 = (Ok b, s').
Proof. unfold mbind, AppM_bind. destruct (m s) as [[a|e] s1]; [by eauto|done]. Qed.
Lemma lift_inv {A} (r : ApiResult A) s a s' : lift r s = (Ok a, s') → r = Ok a ∧ s' = s.
Proof. by intros [= -> ->]. Qed.
Lemma refuse_inv b e s a s' : refuse_if b e s = (Ok a, s') → b = false ∧ s' = s.
Proof. destruct b; [done|]. by intros [= _ ->]. Qed.
Lemma some_inv {A} (o : option A) e s a s' : some_or o e s = (Ok a, s') → o = Some a ∧ s' = s.
Proof. destruct o; [|done]. by intros [= -> ->]. Qed.
(** A statement runs on tables the others have led to, and commits there. *)
Lemma acc_call_inv {A} (f : Accounts → ApiResult (A * Accounts)) s r s' :
  acc_call f s = (Ok r, s') → operating s →
  operating s' ∧ ∃ a, reaches (accounts s) a ∧ f a = Ok (r, accounts s').
Proof.
  unfold acc_call. intros (u & s1 & E1 & E)%bind_inv Ho. apply bind_inv in E as (v & s2 & E2 & E3).
  assert (operating s1 ∧ reaches (accounts s) (accounts s1)) as [Ho1 Hr1].
  { unfold await in E1. destruct s as [w [|g fs] ? ? ? ?]; injection E1 as <- <-; [split; [done|apply reaches_refl]|].
    inversion Ho as [|? ? Hg Hfs]; subst. split; [exact Hfs|apply Hg]. }
  assert (operating s2 ∧ accounts s2 = accounts s1) as [Ho2 Ea2].
  { unfold take_fault in E2. destruct (mjoin _); [done|]. injection E2 as <- <-. by destruct s1 as [[] ? ? ? ? ?]. }
  unfold run_accounts in E3. destruct (f (accounts s2)) as [[a acc]|e] eqn:Ef; [|done]. injection E3 as <- <-.
  split; [exact Ho2|]. exists (accounts s1). split; [done|]. rewrite <- Ea2. by destruct s2 as [[] ? ? ? ? ?].
Qed.
Lemma acc_read_moves {A} (f : Accounts → A) s r s' : acc_read f s = (Ok r, s') → moves s s'.
Proof. intros E Ho. apply (acc_call_inv _ _ _ _ E) in Ho as (Ho & a & Hr & [= _ ->]). done. Qed.
Lemma take_challenge_inv id s r s' :
  take_challenge id s = (Ok r, s') → operating s →
  operating s' ∧ ∃ a now later, reaches (accounts s) a ∧ claim_challenge now later id a = (Claimed r, accounts s').
Proof.
  unfold take_challenge. intros (now & s1 & E1 & E)%bind_inv Ho. apply bind_inv in E as (later & s2 & E2 & E).
  apply bind_inv in E as (c & s3 & E3 & [Ec ->]%lift_inv).
  destruct (moves_trans _ _ _ (moves_clock _ _ _ E1) (moves_clock _ _ _ E2) Ho) as [Ho2 Hr2].
  destruct (acc_call_inv _ _ _ _ E3 Ho2) as (Ho3 & a & Hr & [= Hc]). split; [done|].
  exists a, now, later. split; [by eapply reaches_trans|]. rewrite Hc. by destruct c; cbn in Ec; simplify_eq.
Qed.
Lemma add_device_inv id max_devices identity key name role s d s' :
  add_device id max_devices identity key name role s = (Ok d, s') → operating s →
  operating s' ∧ ∃ a now, reaches (accounts s) a ∧ insert_device id now identity key name role a = Ok (d, accounts s').
Proof.
  unfold add_device. intros (now & s1 & E1 & E)%bind_inv Ho. apply bind_inv in E as (existing & s2 & E2 & E).
  apply bind_inv in E as (u & s3 & E3 & E). apply bind_inv in E as (count & s4 & E4 & E).
  apply bind_inv in E as (v & s5 & [_ ->]%refuse_inv & E). apply bind_inv in E as (created & s6 & E6 & E).
  assert (s3 = s2) as -> by (destruct existing; [done|by injection E3 as _ ->]).
  apply moves_clock in E1, E6. apply acc_read_moves in E2, E4.
  destruct (moves_trans _ _ _ E1 (moves_trans _ _ _ E2 (moves_trans _ _ _ E4 E6)) Ho) as [Ho6 Hr6].
  destruct (acc_call_inv _ _ _ _ E Ho6) as (Ho' & a & Hr & Hd). split; [done|]. exists a, created.
  split; [by eapply reaches_trans|done].
Qed.
Lemma idempotency_lookup_moves context scope method path body s r s' :
  idempotency_lookup context scope method path body s = (Ok r, s') → moves s s'.
Proof.
  unfold idempotency_lookup. destruct (rc_idempotency_key context); [|intros [= _ ->]; apply moves_refl].
  intros (existing & s1 & E1 & E)%bind_inv. apply acc_read_moves in E1.
  assert (s' = s1) as ->; [|done]. destruct existing as [e|]; [|by injection E as _ ->].
  destruct (negb _); [done|]. by injection E as _ ->.
Qed.
Lemma idempotency_store_moves context scope method path body status response s r s' :
  idempotency_store context scope method path body status response s = (Ok r, s') → moves s s'.
Proof.
  unfold idempotency_store. destruct (rc_idempotency_key context) as [key|]; [|intros [= _ ->]; apply moves_refl].
  intros (now & s1 & E1 & E)%bind_inv. apply moves_clock in E1. eapply moves_trans; [exact E1|]. intros Ho.
  destruct (acc_call_inv _ _ _ _ E Ho) as (Ho' & a & Hr & [= <- Ha]). split; [done|]. rewrite <- Ha.
  by apply (reaches_op _ _ (OpPutIdempotent now _ _ _ _ _ _ _)).
Qed.

(** What a registration has seen when it adds the device. *)
Record registration (sn : Snapshot) (auth : Auth) (request : RegisterDeviceRequest) (key : PublicKey) (role : DeviceRole)
    (r : ChallengeRecord) : Prop := {
  rg_identity : a_kind auth = KIdentity ∧ has_scope (a_scopes auth) DEVICES_WRITE = true;
  rg_key : key_parse (ki_algorithm (rd_key request)) (ki_public_key (rd_key request))
             (sn_list keys.AUTH_SUPPORTED_KEY_ALGORITHMS sn) = Ok key;
  rg_role : requested_role (rd_role request) = Ok role;
  rg_bound : ch_operation r = RegisterDevice ∧ ch_owner_identity_id r = Some (a_identity_id auth)
    ∧ ch_device_key_fingerprint r = Some (key_fingerprint key) ∧ ch_key_fingerprint r = key_fingerprint key;
  rg_signed : ∃ signature, b64_decode (rd_device_signature request) = Some signature
    ∧ key_verify key (signing_encode (signing_input sn r)) signature = true;
}.
Lemma registration_bound_spec auth fp r :
  registration_bound auth fp r = Ok () →
  ch_operation r = RegisterDevice ∧ ch_owner_identity_id r = Some (a_identity_id auth)
  ∧ ch_device_key_fingerprint r = Some fp ∧ ch_key_fingerprint r = fp.
Proof. unfold registration_bound. repeat (case_bool_decide; cbn; [|done]). done. Qed.

(** What was written, in this order among the others' operations: the challenge
    is consumed, the device inserted where neither its identifier nor its key
    existed. *)
Record registered_device (s : App) (id : Uuid) (request : RegisterDeviceRequest) (auth : Auth) (key : PublicKey)
    (role : DeviceRole) (r : ChallengeRecord) (s' : App) : Prop := {
  rd_writes : ∃ before claimed free stored now later created d,
    reaches (accounts s) before
    ∧ claim_challenge now later (rd_challenge_id request) before = (Claimed r, claimed)
    ∧ reaches claimed free
    ∧ ac_devices free !! id = None ∧ (∀ id' d', ac_devices free !! id' = Some d' → dc_key_fingerprint d' ≠ key_fingerprint key)
    ∧ insert_device id created (a_identity_id auth) key (trim (rd_name request)) role free = Ok (d, stored)
    ∧ reaches stored (accounts s');
  rd_row : has_device (λ d, device_key d = key ∧ dc_identity_id d = a_identity_id auth ∧ dc_role d = lit (role_as_str role))
             id (accounts s');
}.
Lemma insert_device_inv id now identity key name role a d a' :
  insert_device id now identity key name role a = Ok (d, a') →
  ac_devices a !! id = None ∧ (∀ id' r, ac_devices a !! id' = Some r → dc_key_fingerprint r ≠ key_fingerprint key)
  ∧ has_device (λ d, device_key d = key ∧ dc_identity_id d = identity ∧ dc_role d = lit (role_as_str role)) id a'.
Proof.
  unfold insert_device. case_bool_decide as E1; [done|].
  destruct (find_device _ a) as [x|] eqn:E2; [by rewrite bool_decide_eq_true_2|]. rewrite bool_decide_eq_false_2 by by intros [].
  destruct (identity_exists identity a); [|done]. intros [= _ <-]. split_and!.
  - by apply eq_None_not_Some.
  - intros id' r Hrow. pose proof (find_device_none _ _ _ _ E2 Hrow) as Hn. by apply bool_decide_eq_false in Hn.
  - eexists. cbn. rewrite lookup_insert_eq. split; [done|]. by destruct key.
Qed.

(** C13: a device is added only with both consents. When [register] answers and
    the answer is not the stored one of an earlier request with the same
    idempotency key, the caller was an identity that may write devices; the
    request's challenge was unused, issued for registering a device, for this
    owner and for exactly this key; the device's own key signed it under this
    origin. By then the challenge was consumed and after that the device
    inserted, where neither its identifier nor its key existed; and in the
    tables the request leaves, whatever operations other tasks ran in between,
    the device is stored under that identifier with that owner, key and role. *)
Theorem registration_needs_both `{FromSlice RegisterDeviceRequest} id context auth body s response s' :
  operating s → register id context auth body s = (Ok response, s') →
  idempotency_lookup context (a_identity_id auth) (lit "POST") (lit "/v1/devices") body s = (Ok (Some response), s')
  ∨ ∃ request key role r,
      from_slice body = Ok request ∧ registration (rc_snapshot context) auth request key role r
      ∧ registered_device s id request auth key role r s'.
Proof.
  intros Ho. unfold register. intros (u1 & t1 & [Hi ->]%lift_inv & E)%bind_inv.
  apply bind_inv in E as (u2 & t2 & [Hs ->]%lift_inv & E). apply bind_inv in E as (u3 & t3 & [_ ->]%refuse_inv & E).
  apply bind_inv in E as (replayed & t4 & E4 & E). destruct replayed as [stored|]; [injection E as <- <-; by left|right].
  destruct (idempotency_lookup_moves _ _ _ _ _ _ _ _ E4 Ho) as [Ho4 Hr4].
  apply bind_inv in E as (request & t5 & [Hreq ->]%lift_inv & E). apply bind_inv in E as (u6 & t6 & [_ ->]%refuse_inv & E).
  apply bind_inv in E as (role & t7 & [Hrole ->]%lift_inv & E). apply bind_inv in E as (key & t8 & [Hkey ->]%lift_inv & E).
  apply bind_inv in E as (signature & t9 & [Hsig ->]%some_inv & E). apply bind_inv in E as (r & t10 & E10 & E).
  destruct (take_challenge_inv _ _ _ _ E10 Ho4) as (Ho10 & a & now & later & Ha & Hc).
  apply bind_inv in E as (u11 & t11 & [Hb ->]%lift_inv & E). apply bind_inv in E as (u12 & t12 & [Hv%negb_false_iff ->]%refuse_inv & E).
  apply bind_inv in E as (d & t13 & E13 & E). destruct (add_device_inv _ _ _ _ _ _ _ _ _ E13 Ho10) as (Ho13 & b & created & Hb' & Hd).
  apply bind_inv in E as (view & t14 & E14 & E). injection E14 as _ <-. apply bind_inv in E as (u15 & t15 & E15 & E).
  injection E as _ <-. destruct (idempotency_store_moves _ _ _ _ _ _ _ _ _ _ E15 Ho13) as [_ Hr15].
  destruct (insert_device_inv _ _ _ _ _ _ _ _ _ Hd) as (Hfree & Hkeys & Hrow).
  exists request, key, role, r. split_and!.
  - unfold parse_body in Hreq. destruct (from_slice body); [by injection Hreq as ->|done].
  - destruct u11. split; [|done|done|by apply registration_bound_spec|by exists signature].
    unfold require_identity in Hi. unfold require_scope in Hs. destruct (a_kind auth), (has_scope _ _); done.
  - split.
    + exists a, (accounts t10), b, (accounts t13), now, later, created, d. split_and!; try done. by eapply reaches_trans.
    + eapply reaches_device; [|exact Hrow|done]. intros at_ x. by destruct x.
Qed.
End safety.
