(* ===== verification/Pages.v ===== *)
(** * Listing in pages

    SQLite's order on texts is a strict total order; a cursor reads back; a
    client that follows the cursors of a list sees every row once, in order. *)

From S2P Require Export AuthProps Handlers.

Open Scope N_scope.
Open Scope hype_scope.

(** ** The order of rows *)

Lemma text_ltb_irrefl a : text_ltb a a = false.
Proof. induction a as [|x a IH]; cbn; [done|]. by rewrite N.ltb_irrefl, N.eqb_refl, IH. Qed.
Lemma text_ltb_cons x a y b : text_ltb (x :: a) (y :: b) = true ↔ x < y ∨ x = y ∧ text_ltb a b = true.
Proof. cbn. by rewrite orb_true_iff, andb_true_iff, N.ltb_lt, N.eqb_eq. Qed.
Lemma text_ltb_trans a b c : text_ltb a b = true → text_ltb b c = true → text_ltb a c = true.
Proof.
  revert b c. induction a as [|x a IH]; intros [|y b] [|z c]; try done.
  rewrite !text_ltb_cons. intros [?|[-> Hab]] [?|[-> Hbc]]; [left; lia|by left|by left|right]. split; [done|]. by eapply IH.
Qed.
Lemma text_ltb_total a b : text_ltb a b = false → text_ltb b a = false → a = b.
Proof.
  revert b. induction a as [|x a IH]; intros [|y b]; cbn; try done.
  intros [E1 E2]%orb_false_iff [E3 E4]%orb_false_iff. apply N.ltb_ge in E1, E3. assert (x = y) as -> by lia.
  rewrite N.eqb_refl in *. f_equal. by apply IH.
Qed.
Lemma key_ltb_irrefl k : key_ltb k k = false.
Proof. unfold key_ltb. by rewrite !text_ltb_irrefl, andb_false_r. Qed.
Lemma key_ltb_spec k1 k2 :
  key_ltb k1 k2 = true ↔ text_ltb k1.1 k2.1 = true ∨ k1.1 = k2.1 ∧ text_ltb k1.2 k2.2 = true.
Proof. unfold key_ltb. by rewrite orb_true_iff, andb_true_iff, bool_decide_eq_true. Qed.
Lemma key_ltb_trans k1 k2 k3 : key_ltb k1 k2 = true → key_ltb k2 k3 = true → key_ltb k1 k3 = true.
Proof.
  rewrite !key_ltb_spec. intros [H1|[E1 H1]] [H2|[E2 H2]].
  - left. by eapply text_ltb_trans.
  - left. by rewrite <- E2.
  - left. by rewrite E1.
  - right. split; [by rewrite E1|]. by eapply text_ltb_trans.
Qed.
Lemma key_ltb_total k1 k2 : key_ltb k1 k2 = false → key_ltb k2 k1 = false → k1 = k2.
Proof.
  destruct k1 as [a1 b1], k2 as [a2 b2]. unfold key_ltb. cbn.
  intros [E1 E2]%orb_false_iff [E3 E4]%orb_false_iff. assert (a1 = a2) as -> by by apply text_ltb_total.
  rewrite bool_decide_eq_true_2 in E2, E4 by done. f_equal. by apply text_ltb_total.
Qed.
Lemma key_le_cases k1 k2 : key_le k1 k2 ↔ key_ltb k1 k2 = true ∨ k1 = k2.
Proof.
  unfold key_le. split.
  - intros E. destruct (key_ltb k1 k2) eqn:E'; [by left|right]. by apply key_ltb_total.
  - intros [E| ->]; [|apply key_ltb_irrefl]. destruct (key_ltb k2 k1) eqn:E'; [|done].
    pose proof (key_ltb_trans _ _ _ E E') as Hc. by rewrite key_ltb_irrefl in Hc.
Qed.
#[export] Instance key_le_total : Total key_le.
Proof. intros k1 k2. unfold key_le. destruct (key_ltb k2 k1) eqn:E; [right|by left]. apply key_le_cases. by left. Qed.
#[export] Instance key_le_trans : Transitive key_le.
Proof.
  intros k1 k2 k3. rewrite !key_le_cases. intros [H1| ->] [H2| ->]; eauto. left. by eapply key_ltb_trans.
Qed.

(** ** Following cursors *)

Section pages.
Context {A : Type} (key : A → SortKey).

Definition rows_le (r1 r2 : A) : Prop := key_le (key r1) (key r2).
#[local] Instance rows_le_dec r1 r2 : Decision (rows_le r1 r2).
Proof. unfold rows_le. apply _. Defined.
#[local] Instance rows_le_total : Total rows_le.
Proof. intros r1 r2. apply key_le_total. Qed.
#[local] Instance rows_le_trans : Transitive rows_le.
Proof. intros r1 r2 r3. apply key_le_trans. Qed.

Lemma filter_none (P : A → Prop) `{∀ x, Decision (P x)} (l : list A) : (∀ x, x ∈ l → ¬ P x) → filter P l = [].
Proof.
  intros Hn. destruct (filter P l) as [|x l'] eqn:E; [done|].
  assert (x ∈ filter P l) as [HP Hx]%list_elem_of_filter by (rewrite E; by left). by destruct (Hn x Hx).
Qed.
Lemma filter_all (P : A → Prop) `{∀ x, Decision (P x)} (l : list A) : (∀ x, x ∈ l → P x) → filter P l = l.
Proof.
  induction l as [|x l IH]; intros HP; [done|]. rewrite filter_cons_True by (apply HP; by left).
  f_equal. apply IH. intros y Hy. apply HP. by right.
Qed.
(** The rows after a key, of a sorted list without equal keys. *)
Lemma rows_after l1 x l2 :
  Sorted rows_le (l1 ++ x :: l2) → NoDup (key <$> l1 ++ x :: l2) →
  filter (λ r, key_ltb (key x) (key r) = true) (l1 ++ x :: l2) = l2.
Proof.
  intros Hs Hn. apply Sorted_StronglySorted in Hs; [|apply _].
  rewrite fmap_app, fmap_cons in Hn. apply NoDup_app in Hn as (_ & _ & [Hx _]%NoDup_cons).
  apply StronglySorted_app in Hs as (Hle & _ & [_ Hx2]%StronglySorted_inv).
  rewrite filter_app, filter_cons_False by (by rewrite key_ltb_irrefl).
  rewrite filter_none, filter_all; [done|..].
  - intros r Hr. assert (rows_le x r) as [?|E]%key_le_cases by by eapply Forall_forall in Hx2. 
    + done.
    + destruct Hx. rewrite E. by apply list_elem_of_fmap_2.
  - intros r Hr E. assert (rows_le r x) as Hrx by (apply (Hle r x Hr); by left).
    unfold rows_le, key_le in Hrx. by rewrite E in Hrx.
Qed.

(** What a page shows of a row, and a row's cursor. *)
Context {B : Type} (show : A → B) (cursor_of : B → text).

(** The page that starts after the rows [l1]: [length l1] rows were seen. *)
Lemma page_after limit l2 :
  (1 ≤ limit)%Z →
  page_of limit cursor_of (show <$> take (Z.to_nat (limit + 1)) l2)
  = if decide (length l2 ≤ Z.to_nat limit)%nat then (show <$> l2, None)
    else (show <$> take (Z.to_nat limit) l2, cursor_of ∘ show <$> last (take (Z.to_nat limit) l2)).
Proof.
  intros Hl. unfold page_of. rewrite length_fmap, length_take. destruct (decide _) as [Hle|Hgt].
  - destruct (Z.ltb_spec limit (Z.of_nat (Z.to_nat (limit + 1) `min` length l2))); [lia|].
    rewrite take_ge by lia. done.
  - destruct (Z.ltb_spec limit (Z.of_nat (Z.to_nat (limit + 1) `min` length l2))); [|lia].
    rewrite <- fmap_take, take_take, Nat.min_l by lia. by rewrite fmap_last, <- option_fmap_compose.
Qed.
End pages.

(** ** Cursors *)

Section cursors.
Context `{CryptoLaws, !ChronoLib, !ChronoLaws, !UuidLib, !UuidLaws}.

Lemma split_once_at c l r : c ∉ l → split_once c (l ++ c :: r) = Some (l, r).
Proof.
  induction l as [|x l IH]; cbn; [by rewrite N.eqb_refl|]. intros [Hx Hl]%not_elem_of_cons.
  rewrite (proj2 (N.eqb_neq _ _)) by done. by rewrite IH.
Qed.
Lemma cursor_reads ts id :
  valid_text ts → valid_text id → 124 ∉ ts → cursor_decode (cursor_encode ts id) = Ok (mkCursor ts id).
Proof.
  intros Ht Hi Hb. unfold cursor_decode, cursor_encode. rewrite b64_decode_encode, from_utf8_utf8.
  - change (lit "|") with [124]. cbn [app]. by rewrite split_once_at.
  - apply Forall_app. split; [done|]. apply Forall_app. split; [apply valid_lit|done].
Qed.
End cursors.

(** ** The device list *)

Section devices.
Context `{CryptoLaws, !ChronoLib, !ChronoLaws, !UuidLib, !UuidLaws, !JsonText}.

(** A row whose creation time is one the server wrote. *)
Definition written_row (row : Uuid * DeviceRec) : Prop := ∃ t, t < MAX_TIME ∧ dc_created_at row.2 = to_rfc3339 t.

Lemma micros_lt t : t < MAX_TIME → t / 1000 * 1000 < MAX_TIME.
Proof. intros Ht. pose proof (N.Div0.mul_div_le t 1000). lia. Qed.
Lemma written_time now row : written_row row → to_rfc3339 (time_or now (dc_created_at row.2)) = dc_created_at row.2.
Proof. intros (t & Ht & ->). unfold time_or. rewrite rfc3339_reads by done. cbn. by apply rfc3339_micros. Qed.
Definition show_device (now : N) (row : Uuid * DeviceRec) : Device := device_from_rec now row.1 row.2.
Lemma device_cursor_reads now row :
  written_row row →
  decode_cursor (Some (device_cursor (show_device now row))) = Ok (Some (mkCursor (sort_key row).1 (sort_key row).2)).
Proof.
  intros Hw. unfold device_cursor, show_device. cbn. rewrite written_time by done.
  destruct Hw as (t & Ht & ->). by rewrite cursor_reads; [|apply rfc3339_valid|apply uuid_valid|apply rfc3339_no_bar].
Qed.
(** What a row shows does not depend on when it is read. *)
Lemma show_device_at now row : written_row row → show_device now row = show_device 0 row.
Proof.
  intros (t & Ht & E). unfold show_device, device_from_rec, time_or. rewrite E, rfc3339_reads by done. done.
Qed.

(** A client that asks for a page and follows its cursor, up to [n] times. *)
Fixpoint walk_devices (n : nat) (context : RequestContext) (auth : Auth) (cursor : option text) (limit : option Z)
    : AppM (list Device) :=
  page ← list_page context auth cursor limit;
  match (page : list Device * option text) with
  | (devices, None) => mret devices
  | (devices, Some next) =>
      match n with
      | O => mret devices
      | S n => rest ← walk_devices n context auth (Some next) limit; mret (devices ++ rest)
      end
  end.

Lemma sorted_devices_sorted identity a : Sorted (rows_le sort_key) (sorted_devices identity a).
Proof.
  pose proof (rows_le_total sort_key : Total row_le). apply (Sorted_merge_sort row_le).
Qed.
Lemma NoDup_fmap_via {A B C} (f : A → B) (g : A → C) (l : list A) :
  (∀ x y, f x = f y → g x = g y) → NoDup (g <$> l) → NoDup (f <$> l).
Proof.
  intros Hfg. induction l as [|x l IH]; cbn; [constructor|]. intros [Hx Hl]%NoDup_cons. constructor; [|auto].
  intros (y & E & Hy)%list_elem_of_fmap. apply Hx. rewrite (Hfg x y E). by apply list_elem_of_fmap_2.
Qed.
Lemma sorted_devices_perm identity a :
  sorted_devices identity a ≡ₚ filter (λ '(_, r), active_of identity r = true) (map_to_list (ac_devices a)).
Proof. apply merge_sort_Permutation. Qed.
Lemma sorted_devices_nodup identity a : NoDup (sort_key <$> sorted_devices identity a).
Proof.
  apply (NoDup_fmap_via _ fst).
  - intros [i r] [j q]. unfold sort_key. cbn. by intros [= _ E%(inj uuid_text)].
  - rewrite sorted_devices_perm. apply (sublist_NoDup _ (fst <$> map_to_list (ac_devices a)));
      [apply NoDup_fst_map_to_list|apply fmap_sublist, sublist_filter].
Qed.

(** The cursor after the rows [l1]. *)
Definition at_cursor (now : N) (l1 : list (Uuid * DeviceRec)) (cursor : option text) : Prop :=
  cursor = device_cursor ∘ show_device now <$> last l1.
Lemma rows_from now l1 l2 cursor identity a :
  sorted_devices identity a = l1 ++ l2 → Forall written_row l1 → at_cursor now l1 cursor →
  ∃ c, decode_cursor cursor = Ok c
       ∧ filter (λ row, after_cursor c row = true) (sorted_devices identity a) = l2.
Proof.
  intros E Hw ->. destruct (last l1) as [x|] eqn:Ex.
  - apply last_Some in Ex as [l ->]. rewrite <- app_assoc in E. cbn [app] in E. apply Forall_app in Hw as [_ Hx].
    apply Forall_cons in Hx as [Hx _]. exists (Some (mkCursor (sort_key x).1 (sort_key x).2)).
    split; [exact (device_cursor_reads now x Hx)|]. cbn [after_cursor cu_timestamp cu_id]. rewrite <- surjective_pairing.
    pose proof (sorted_devices_sorted identity a) as Hs. pose proof (sorted_devices_nodup identity a) as Hn.
    rewrite E in Hs, Hn |- *. by apply (rows_after sort_key).
  - apply last_None in Ex as ->. exists None. split; [done|]. cbn in E. rewrite E. by apply filter_all.
Qed.
Lemma list_page_quiet context auth cursor limit lim c s :
  quiet s → require_scope DEVICES_READ auth = Ok () → resolve_limit limit (rc_snapshot context) = Ok lim →
  (1 ≤ lim)%Z → decode_cursor cursor = Ok c →
  list_page context auth cursor limit s
  = (Ok (page_of lim device_cursor (show_device (tick s) <$> take (Z.to_nat (lim + 1))
           (filter (λ row, after_cursor c row = true) (sorted_devices (a_identity_id auth) (accounts s))))), ticked s).
Proof.
  intros Hq Hs Hl Hlim Hc. unfold list_page, mbind, AppM_bind, lift. rewrite Hs, Hl, Hc. cbn.
  rewrite read_clock_tick, acc_read_quiet by by apply ticked_quiet. unfold accounts. rewrite ticked_world.
  unfold list_devices. destruct (Z.ltb_spec (lim + 1) 0); [lia|]. cbn. 
  erewrite (list_fmap_ext _ (show_device (tick s))); [done|]. by intros ? [? ?] ?.
Qed.

(** The first page from a cursor, and the cursor it ends with. *)
Lemma first_page lim (l1 l2 : list (Uuid * DeviceRec)) :
  (1 ≤ lim)%Z → (Z.to_nat lim < length l2)%nat →
  ∃ page x rest, take (Z.to_nat lim) l2 = page ∧ last page = Some x ∧ l2 = page ++ rest
                 ∧ last (l1 ++ page) = Some x ∧ (length rest < length l2)%nat.
Proof.
  intros Hlim Hgt. set (page := take (Z.to_nat lim) l2). assert (length page = Z.to_nat lim) as Hp
    by (unfold page; rewrite length_take; lia).
  destruct (last page) as [x|] eqn:Ex; [|apply last_None in Ex; rewrite Ex in Hp; cbn in Hp; lia].
  exists page, x, (drop (Z.to_nat lim) l2).
  split_and!; [done|done|by unfold page; rewrite take_drop|by rewrite last_app, Ex|rewrite length_drop; lia].
Qed.
Lemma walk_from context auth limit lim n s l1 l2 cursor now :
  quiet s → require_scope DEVICES_READ auth = Ok () → resolve_limit limit (rc_snapshot context) = Ok lim → (1 ≤ lim)%Z →
  sorted_devices (a_identity_id auth) (accounts s) = l1 ++ l2 → Forall written_row (l1 ++ l2) → at_cursor now l1 cursor →
  (length l2 ≤ n)%nat →
  (walk_devices n context auth cursor limit s).1 = Ok (show_device 0 <$> l2).
Proof.
  intros Hq Hs Hl Hlim. revert s l1 l2 cursor now Hq. induction n as [|n IH]; intros s l1 l2 cursor now Hq E Hw Hc Hn.
  all: pose proof Hw as [Hw1 Hw2]%Forall_app.
  all: destruct (rows_from now l1 l2 cursor _ _ E Hw1 Hc) as (c & Hdc & Hrows).
  all: cbn [walk_devices]; erewrite bind_ok by by eapply list_page_quiet.
  all: rewrite Hrows, page_after by done.
  all: assert (∀ l, Forall written_row l → show_device (tick s) <$> l = show_device 0 <$> l) as Hshow
    by (intros l Hwl; apply Forall_fmap_ext_1; eapply Forall_impl; [exact Hwl|]; intros; by apply show_device_at).
  - rewrite decide_True by lia. cbn. by rewrite Hshow.
  - destruct (decide _) as [Hle|Hgt]; [cbn; by rewrite Hshow|].
    destruct (first_page lim l1 l2) as (page & x & rest & -> & Ex & -> & Ex' & Hlen); [done|lia|].
    apply Forall_app in Hw2 as [Hwp _]. rewrite app_assoc in E, Hw. rewrite Ex. cbn [fmap option_fmap option_map].
    pose proof (IH (ticked s) (l1 ++ page) rest (Some ((device_cursor ∘ show_device (tick s)) x)) (tick s) (ticked_quiet _ Hq)) as Hi.
    unfold accounts in Hi, E. rewrite ticked_world in Hi. specialize (Hi E Hw). unfold at_cursor in Hi. rewrite Ex' in Hi.
    specialize (Hi eq_refl ltac:(lia)). destruct (walk_devices n _ _ _ _ (ticked s)) as [r s'] eqn:Ew. cbn in Hi. subst r.
    erewrite bind_ok by done. cbn. by rewrite Hshow, fmap_app.
Qed.

(** C27: the pages of the device list cover it exactly once. In a world nobody
    else changes, a client that may read devices and follows the cursors it is
    given, with any page size the settings allow, reaches the last page after at
    most as many steps as there are devices, and what it has seen is every
    active device of its identity, each once, in the order of their creation
    times and identifiers. *)
Theorem pages_cover_the_list context auth limit lim s n :
  quiet s → require_scope DEVICES_READ auth = Ok () → resolve_limit limit (rc_snapshot context) = Ok lim → (1 ≤ lim)%Z →
  (∀ id r, ac_devices (accounts s) !! id = Some r → written_row (id, r)) →
  let rows := sorted_devices (a_identity_id auth) (accounts s) in
  (length rows ≤ n)%nat →
  (walk_devices n context auth None limit s).1 = Ok (show_device 0 <$> rows)
  ∧ Sorted (λ r1 r2, key_le (sort_key r1) (sort_key r2)) rows ∧ NoDup (fst <$> rows)
  ∧ ∀ id r, (id, r) ∈ rows ↔ ac_devices (accounts s) !! id = Some r ∧ dc_identity_id r = a_identity_id auth
                                                  ∧ dc_revoked_at r = None.
Proof.
  intros Hq Hs Hl Hlim Hw rows Hn. 
  assert (∀ id r, (id, r) ∈ rows ↔ ac_devices (accounts s) !! id = Some r ∧ active_of (a_identity_id auth) r = true) as Hin.
  { intros id r. unfold rows. rewrite sorted_devices_perm, list_elem_of_filter, elem_of_map_to_list. tauto. }
  split_and!.
  - eapply (walk_from _ _ _ lim n s [] rows None 0); try done. apply Forall_forall. intros [id r] [Hr _]%Hin. by apply Hw.
  - apply sorted_devices_sorted.
  - unfold rows. rewrite sorted_devices_perm.
    apply (sublist_NoDup _ (fst <$> map_to_list (ac_devices (accounts s))));
      [apply NoDup_fst_map_to_list|apply fmap_sublist, sublist_filter].
  - intros id r. rewrite Hin. unfold active_of. by rewrite andb_true_iff, !bool_decide_eq_true.
Qed.
End devices.

(** ** Example: three devices, one per page *)

#[local] Existing Instances toy_lib toy_chrono toy_uuid.
Definition device_seed (b : byte) : PublicKey := mkPublicKey (lit ALGORITHM_ED25519) (repeat b 32).
Definition example_devices : Accounts :=
  let owner := key_fingerprint example_key in
  run_ops [OpUpsertIdentity 1000 example_key;
           OpInsertDevice 7 5000 owner (device_seed x01) (lit "laptop") RPublisher;
           OpInsertDevice 3 5000 owner (device_seed x02) (lit "phone") RClient;
           OpInsertDevice 9 2000 owner (device_seed x03) (lit "desk") RBoth;
           OpInsertDevice 4 3000 owner (device_seed x04) (lit "old") RBoth;
           OpRevokeDevice 8000 4] ac_empty.
Definition example_auth : Auth :=
  mkAuth KIdentity (key_fingerprint example_key) (key_fingerprint example_key) [lit DEVICES_READ] [].
Definition example_context : RequestContext := mkRequestContext (V4 [127; 0; 0; 1]) true (mkSnapshot 1 ∅) None.

Lemma pages_cover_the_list_witness :
  dv_device_id <$> (show_device 0 <$> sorted_devices (key_fingerprint example_key) example_devices) = [9; 7; 3]
  ∧ (walk_devices 3 example_context example_auth None (Some 1%Z) (example_app example_devices)).1
    = Ok (show_device 0 <$> sorted_devices (key_fingerprint example_key) example_devices).
Proof.
  split; [by vm_compute|].
  apply (pages_cover_the_list example_context example_auth (Some 1%Z) 1%Z (example_app example_devices) 3).
  - done.
  - by vm_compute.
  - by vm_compute.
  - done.
  - intros id r Hr%elem_of_map_to_list.
    assert (forallb (λ row, existsb (λ t, bool_decide (t < MAX_TIME) && bool_decide (dc_created_at row.2 = to_rfc3339 t))
              [2000; 3000; 5000]) (map_to_list (ac_devices example_devices)) = true) as Hf by by vm_compute.
    rewrite forallb_forall in Hf. apply list_elem_of_In, Hf, existsb_exists in Hr as (t & _ & [Ht E]%andb_true_iff).
    exists t. by rewrite !bool_decide_eq_true in *.
  - by vm_compute; lia.
Defined.
