(* ===== verification/Retries.v ===== *)
(** * Retried requests

    What [create_for_device] leaves behind when it has opened a terminal: the
    record of its answer, which outlives everything but its retention. A retry
    under the same key is answered from it and reaches no device. *)

From S2P Require Export HandlersProps.

Open Scope N_scope.
Open Scope hype_scope.

Lemma holds_ok {A} I (m : AppM A) Q s a s1 : holds I m Q → among I s → m s = (Ok a, s1) → among I s1 ∧ Q a.
Proof. intros Hm Hs E. destruct (Hm s Hs) as [H1 H2]. rewrite E in *. auto. Qed.

Section retries.
Context `{CryptoLib, ChronoLib, UuidLib, JsonText, FromSlice CreateTerminalRequest}.

(** ** Asking a device writes no account *)

Definition on_accounts (J : Accounts → Prop) (w : World) : Prop := J (wo_accounts w).
#[local] Instance framed_on_accounts J : Framed (on_accounts J) := framed_accounts J.

Lemma accounts_reg_do {A} J (f : Registry → A * Registry) (Q : A → Prop) :
  (∀ a, Q a) → holds (on_accounts J) (reg_do f) Q.
Proof. intros HQ. apply holds_reg_do. auto. Qed.
Lemma accounts_retire J owns device_id request_id (Q : () → Prop) :
  Q () → holds (on_accounts J) (retire owns device_id request_id) Q.
Proof. intros HQ. unfold retire. destruct owns; [by apply holds_modify|by apply holds_ret]. Qed.
Lemma accounts_wait J turns watch : holds (on_accounts J) (wait_outcome turns watch) (λ _, True).
Proof.
  induction turns as [|n IH]; cbn [wait_outcome]; (skip_next; destruct a; [by apply holds_ret|]).
  - by apply holds_ret.
  - next_with (λ _ : (), True); [by apply holds_await|auto].
Qed.
Lemma accounts_begin J now device_id request_id sn auth request :
  holds (on_accounts J) (begin_create now device_id request_id sn auth request) (λ _, True).
Proof.
  unfold begin_create. next_with (λ _ : ApiResult BeginOpen, True); [by apply accounts_reg_do|]. intros begun _.
  skip_next. destruct a as [watch|watch]; [|by apply holds_ret].
  next_with (λ _ : result InputDeliveryError (), True); [by apply accounts_reg_do|]. intros delivered _.
  destruct delivered; [by apply holds_ret|].
  eapply (holds_bind _ _ _ (λ _, True)); [by apply accounts_reg_do|]. intros _ _. apply holds_fail.
Qed.
Lemma accounts_opened J owns device_id request_id outcome :
  holds (on_accounts J) (opened_terminal owns device_id request_id outcome) (λ _, True).
Proof.
  destruct outcome as [[terminal_id deduplicated|reason|code message|]|]; cbn [opened_terminal];
    try (by apply holds_ret); try apply holds_fail;
    (next_with (λ _ : (), True); [by apply accounts_retire|intros _ _; apply holds_fail]).
Qed.
Lemma accounts_ask J turns sn auth device_id request_id body :
  holds (on_accounts J) (ask_device turns sn auth device_id request_id body) (λ a, oa_status a = 200 ∨ oa_status a = 201).
Proof.
  unfold ask_device. skip_next. skip_next.
  next_with (λ _ : Device, True).
  { unfold open_device. skip_next. skip_next. destruct a2; [|apply holds_fail].
    destruct (_ && _); [by apply holds_ret|apply holds_fail]. }
  intros device _. next_with (λ _ : (), True).
  { unfold create_limits. destruct (sn_bool _ _); [|by apply holds_ret].
    next_with (λ _ : bool, True); [by apply holds_check_window; [apply _|]|]. intros ok _.
    next_with (λ _ : bool, True); [destruct ok; [by apply holds_check_window; [apply _|]|by apply holds_ret]|].
    intros ok' _. by apply holds_refuse_if. }
  intros _ _. skip_next. skip_next. next_with (λ _ : N, True); [by apply holds_instant|]. intros now _.
  next_with (λ _ : N * bool, True); [apply accounts_begin|]. intros [watch owns] _.
  next_with (λ _ : option OpenOutcome, True); [apply accounts_wait|]. intros outcome _.
  next_with (λ _ : Uuid * bool, True); [apply accounts_opened|]. intros [terminal_id deduplicated] _.
  skip_next. skip_next. skip_next. apply holds_ret. cbn. destruct deduplicated; auto.
Qed.

(** ** The record *)

(** An operation that is not the retention of records. *)
Definition no_retention (op : AccountOp) : bool := match op with OpDeleteIdempotency _ _ => false | _ => true end.
Lemma record_stays hash r op a :
  no_retention op = true → ac_idempotency a !! hash = Some r → ac_idempotency (apply_op op a) !! hash = Some r.
Proof.
  intros Hn Hr. destruct op; try done; cbn [apply_op];
    unfold committed_or, upsert_identity, insert_device, insert_challenge, insert_ticket, insert_signing_key,
      claim_challenge, consume_ticket; repeat case_match; simplify_eq/=; try done.
  unfold put_idempotent. destruct (ac_idempotency a !! hash0) eqn:E; [done|]. cbn.
  rewrite lookup_insert_ne; [done|]. intros ->. congruence.
Qed.
Lemma record_stays_run hash r ops a :
  forallb no_retention ops = true → ac_idempotency a !! hash = Some r → ac_idempotency (run_ops ops a) !! hash = Some r.
Proof.
  revert a. induction ops as [|op ops IH]; intros a; [done|]. cbn. intros [Hop Hops]%andb_true_iff Hr.
  apply IH; [done|]. by apply record_stays.
Qed.

(** No record of the request yet. *)
Definition unrecorded (hash : text) : World → Prop := on_accounts (λ a, ac_idempotency a !! hash = None).
Lemma store_records context scope method path body status value s s' key :
  rc_idempotency_key context = Some key → among (unrecorded (key_hash scope method path key)) s →
  idempotency_store context scope method path body status value s = (Ok (), s') →
  ∃ r, ac_idempotency (accounts s') !! key_hash scope method path key = Some r
       ∧ er_principal_id r = scope ∧ er_request_hash r = sha256_hex body ∧ er_status r = Z.of_N status
       ∧ er_response_body r = json_to_string value.
Proof.
  intros Hk Hs. unfold idempotency_store. rewrite Hk. intros (now & s1 & E1 & E)%bind_inv.
  apply (holds_ok (unrecorded (key_hash scope method path key)) _ (λ _, True)) in E1 as [Hs1 _];
    [|by apply holds_clock|done].
  unfold acc_update, acc_call in E. apply bind_inv in E as ([] & s2 & E2 & E).
  apply (holds_ok (unrecorded (key_hash scope method path key)) _ (λ _, True)) in E2 as [Hs2 _];
    [|by apply holds_await|done].
  apply bind_inv in E as ([] & s3 & E3 & E).
  apply (holds_ok (unrecorded (key_hash scope method path key)) _ (λ _, True)) in E3 as [[Hs3 _] _];
    [|apply holds_take_fault; [apply framed_on_accounts|done]|done].
  unfold run_accounts, put_idempotent in E. unfold unrecorded, on_accounts in Hs3. unfold accounts in *. rewrite Hs3 in E.
  injection E as <-. cbn. rewrite lookup_insert_eq. eexists. by split_and!.
Qed.
Lemma replays context scope method path key r body s v :
  rc_idempotency_key context = Some key → quiet s →
  ac_idempotency (accounts s) !! key_hash scope method path key = Some r → er_principal_id r = scope →
  json_from_str (er_response_body r) = Some v →
  idempotency_lookup context scope method path body s
  = (if bool_decide (er_request_hash r = sha256_hex body) then Ok (Some (respond (status_or_ok (as_u16 (er_status r))) v))
     else Err idempotency_conflict, s).
Proof.
  intros Hk Hq Hr Hp Hv. unfold idempotency_lookup. rewrite Hk. erewrite bind_ok by by apply acc_read_quiet.
  unfold get_idempotent. rewrite Hr, bool_decide_eq_true_2 by done. cbn.
  destruct (bool_decide (er_request_hash r = sha256_hex body)); cbn; [|done]. by rewrite Hv.
Qed.

Lemma unrecorded_lookup context scope method path body key :
  rc_idempotency_key context = Some key →
  holds (unrecorded (key_hash scope method path key)) (idempotency_lookup context scope method path body) (λ o, o = None).
Proof.
  intros Hk. unfold idempotency_lookup. rewrite Hk. next_with (λ o, o = None).
  - apply holds_acc_read; [apply framed_on_accounts|]. intros w Hw. unfold get_idempotent. by rewrite Hw.
  - intros o ->. by apply holds_ret.
Qed.
(** What an answered request has left behind. *)
Lemma create_records turns context auth device_id body s answer s1 key :
  rc_idempotency_key context = Some key →
  let hash := key_hash (a_identity_id auth) (lit "POST") (terminals_path device_id) key in
  among (unrecorded hash) s →
  create_for_device turns context auth device_id body s = (Ok answer, s1) →
  create_gate (rc_snapshot context) context auth = Ok key ∧ (rs_status answer = 200 ∨ rs_status answer = 201)
  ∧ ∃ r, ac_idempotency (accounts s1) !! hash = Some r ∧ er_principal_id r = a_identity_id auth
     ∧ er_request_hash r = sha256_hex body ∧ er_status r = Z.of_N (rs_status answer)
     ∧ er_response_body r = json_to_string (rs_body answer).
Proof.
  intros Hk hash Hs. unfold create_for_device. intros (key' & s2 & Eg & E)%bind_inv.
  injection Eg as Eg <-. assert (key' = key) as ->.
  { revert Eg. unfold create_gate. destruct (require_scope _ _); [|done]. cbn. destruct (negb _); [done|].
    rewrite Hk. by intros [= ->]. }
  apply bind_inv in E as (replayed & s2 & E1 & E).
  apply (holds_ok _ _ _ _ _ _ (unrecorded_lookup context _ _ _ _ key Hk) Hs) in E1 as [Hs2 ->].
  apply bind_inv in E as (oa & s3 & E2 & E).
  apply (holds_ok _ _ _ _ _ _ (accounts_ask _ _ _ _ _ _ _) Hs2) in E2 as [Hs3 Hst].
  apply bind_inv in E as ([] & s4 & E3 & E). apply (store_records _ _ _ _ _ _ _ _ _ _ Hk Hs3) in E3 as (r & Hr & Hrec).
  apply bind_inv in E as ([] & s5 & E4 & E). injection E as <- <-. cbn. split; [done|]. split; [done|].
  exists r. split; [|done]. rewrite <- Hr. unfold retire in E4. destruct (oa_owns oa); by injection E4 as <-.
Qed.

(** C24: a retry opens no second terminal. Suppose a request under an
    Idempotency-Key was answered with a terminal, whatever other tasks did
    meanwhile except answering the same key. Then, until its retention removes
    the record, and whatever other operations run on the tables, the same
    request is answered with the same status and body from the record alone: the
    retry changes nothing at all, so no device is asked again; and the same key
    with a body of another hash is refused as a conflict. *)
Theorem retry_opens_nothing turns context auth device_id body s answer s1 key :
  rc_idempotency_key context = Some key →
  let hash := key_hash (a_identity_id auth) (lit "POST") (terminals_path device_id) key in
  among (unrecorded hash) s →
  create_for_device turns context auth device_id body s = (Ok answer, s1) →
  json_from_str (json_to_string (rs_body answer)) = Some (rs_body answer) →
  ∀ ops s2, forallb no_retention ops = true → accounts s2 = run_ops ops (accounts s1) → quiet s2 →
  ∀ turns' body',
    create_for_device turns' context auth device_id body' s2
    = (if bool_decide (sha256_hex body = sha256_hex body') then Ok (respond (rs_status answer) (rs_body answer))
       else Err idempotency_conflict, s2).
Proof.
  intros Hk hash Hs E Hj ops s2 Hops Hacc Hq turns' body'.
  apply (create_records _ _ _ _ _ _ _ _ _ Hk Hs) in E as (Hg & Hst & r & Hr & Hp & Hh & Hrs & Hrb).
  unfold create_for_device. erewrite bind_ok by (unfold lift; by rewrite Hg).
  pose proof (replays context (a_identity_id auth) (lit "POST") (terminals_path device_id) key r body' s2 (rs_body answer)
    Hk Hq) as Hl. fold hash in Hl. rewrite Hacc, Hrb, Hh in Hl. specialize (Hl (record_stays_run _ _ _ _ Hops Hr) Hp Hj).
  assert (status_or_ok (as_u16 (er_status r)) = rs_status answer) as Es by (rewrite Hrs; by destruct Hst as [-> | ->]).
  rewrite Es in Hl. destruct (bool_decide (sha256_hex body = sha256_hex body')).
  - by erewrite bind_ok by exact Hl.
  - by erewrite bind_err by exact Hl.
Qed.
End retries.

(** ** Example: a device opens a terminal for a request *)

(** A toy text of JSON: tags and lengths. *)
Definition toy_name (s : string) : text := N.of_nat (String.length s) :: lit s.
Fixpoint toy_write (v : json) : text :=
  match v with
  | JNull => [0]
  | JBool b => [1; if b then 1 else 0]
  | JNum z => [2; if (z <? 0)%Z then 1 else 0; Z.to_N (Z.abs z)]
  | JStr t => 3 :: len t :: t
  | JArr l => 4 :: len l :: mjoin (toy_write <$> l)
  | JObj fields => 5 :: len fields :: mjoin ((λ '(name, v), toy_name name ++ toy_write v) <$> fields)
  end.
Fixpoint toy_read (fuel : nat) (named : bool) (count : N) (t : text) : option (list (string * json) * text) :=
  if count =? 0 then Some ([], t)
  else
    match fuel with
    | O => None
    | S fuel =>
        '(name, t) ← (if named then
                        match t with
                        | n :: t => Some (String.string_of_list_ascii (Ascii.ascii_of_N <$> takeN n t), dropN n t)
                        | [] => None
                        end
                      else Some (EmptyString, t));
        '(v, t) ← match t with
                  | 0 :: t => Some (JNull, t)
                  | 1 :: b :: t => Some (JBool (b =? 1), t)
                  | 2 :: s :: n :: t => Some (JNum (if s =? 1 then (- Z.of_N n)%Z else Z.of_N n), t)
                  | 3 :: n :: t => Some (JStr (takeN n t), dropN n t)
                  | 4 :: n :: t => '(l, t) ← toy_read fuel false n t; Some (JArr l.*2, t)
                  | 5 :: n :: t => '(l, t) ← toy_read fuel true n t; Some (JObj l, t)
                  | _ => None
                  end;
        '(rest, t) ← toy_read fuel named (count - 1) t;
        Some ((name, v) :: rest, t)
    end.
Definition toy_text : JsonText := {|
  json_to_string := toy_write;
  json_from_str t := '(l, _) ← toy_read (length t) false 1 t; snd <$> head l;
|}.
#[local] Existing Instances toy_lib toy_chrono toy_uuid toy_text.

Definition opener : Accounts :=
  run_ops [OpUpsertIdentity 1000 example_key;
           OpInsertDevice 7 5000 (key_fingerprint example_key) (mkPublicKey (lit ALGORITHM_ED25519) (repeat x01 32))
             (lit "laptop") RPublisher] ac_empty.
Definition opener_auth : Auth :=
  mkAuth KIdentity (key_fingerprint example_key) (key_fingerprint example_key) [lit TERMINALS_CREATE] [].
Definition opener_settings : Snapshot :=
  mkSnapshot 1 {[ keys.FEATURES_TERMINAL_CREATE_ENABLED := VBool true; keys.RATELIMIT_ENABLED := VBool false ]}.
Definition opener_context : RequestContext :=
  mkRequestContext (V4 [127; 0; 0; 1]) true opener_settings (Some (lit "key-1")).
Definition opener_registry : Registry :=
  let tables := mkTables {[ 42 := mkTerminalRec 7 (key_fingerprint example_key) (lit "sh") (lit "ref") "open" None None None
                                    None 0 "request" None 5000 5000 None None 0 0 ]} ∅ in
  let g := registry_new tables [] opener_settings in
  let '(loc, g) := new_input_chan 4 g in
  let '(_, g) := attach_publisher 7 (lit "c1") V2 (Some loc) g in
  set_publisher_open_requests 7 (lit "c1") true g.
Definition opener_request : text :=
  key_hash (key_fingerprint example_key) (lit "POST") (terminals_path 7) (lit "key-1").
(** While the handler waits, the publisher's connection reports the terminal. *)
Definition opener_app : App :=
  let opened (w : World) := put_reg (resolve_open_request 7 opener_request (Opened 42 false) (wo_reg w)).2 w in
  mkApp (mkWorld opener opener_registry [] ∅) [id; id; opened; id; id] 0 [] 0 [].
#[local] Instance any_create : FromSlice CreateTerminalRequest := λ _, Ok (mkCreateTerminalRequest None None None).
Definition opener_run : ApiResult Response * App := create_for_device 3 opener_context opener_auth 7 [x01] opener_app.
Definition answered (r : ApiResult Response * App) : Response := res_value (respond 0 JNull) r.1.
Definition opener_answer : Response := answered opener_run.
Definition opener_after : App := opener_run.2.
Lemma opener_run_ok : res_ok opener_run.1 = true.
Proof. vm_cast_no_check (eq_refl true). Qed.
Lemma opener_answered :
  create_for_device 3 opener_context opener_auth 7 [x01] opener_app = (Ok opener_answer, opener_after).
Proof. exact (ran_ok (respond 0 JNull) opener_run opener_run_ok). Qed.
Lemma opener_created : rs_status opener_answer = 201.
Proof. apply N.eqb_eq. vm_cast_no_check (eq_refl true). Qed.
Lemma opener_prints_ok :
  from_option (json_eqb (rs_body opener_answer)) false (json_from_str (json_to_string (rs_body opener_answer))) = true.
Proof. vm_cast_no_check (eq_refl true). Qed.
Lemma opener_prints : json_from_str (json_to_string (rs_body opener_answer)) = Some (rs_body opener_answer).
Proof.
  pose proof opener_prints_ok as E. by destruct (json_from_str _) as [v|]; [apply json_eqb_eq in E as ->|].
Qed.
Lemma opener_no_record :
  ac_idempotency (accounts opener_app)
    !! key_hash (a_identity_id opener_auth) (lit "POST") (terminals_path 7) (lit "key-1") = None.
Proof.
  assert (from_option (λ _, false) true (ac_idempotency (accounts opener_app)
            !! key_hash (a_identity_id opener_auth) (lit "POST") (terminals_path 7) (lit "key-1")) = true) as E
    by vm_cast_no_check (eq_refl true).
  by destruct (_ !! _).
Qed.
Lemma opener_unrecorded :
  among (unrecorded (key_hash (a_identity_id opener_auth) (lit "POST") (terminals_path 7) (lit "key-1"))) opener_app.
Proof.
  split; [apply opener_no_record|]. repeat constructor; by intros w Hw.
Qed.
Lemma example_accounts a : accounts (example_app a) = a.
Proof. done. Qed.
Lemma example_quiet a : quiet (example_app a).
Proof. done. Qed.

Lemma retry_opens_nothing_witness :
  let retried := example_app (run_ops [OpTouchDevice 9000 7; OpPruneSigningKeys 9000] (accounts opener_after)) in
  rs_status opener_answer = 201
  ∧ create_for_device 0 opener_context opener_auth 7 [x01] retried
    = (if bool_decide (sha256_hex [x01] = sha256_hex [x01]) then Ok (respond (rs_status opener_answer) (rs_body opener_answer))
       else Err idempotency_conflict, retried).
Proof.
  intros retried. split; [exact opener_created|].
  exact (retry_opens_nothing 3 opener_context opener_auth 7 [x01] opener_app opener_answer opener_after (lit "key-1") eq_refl
           opener_unrecorded opener_answered opener_prints [OpTouchDevice 9000 7; OpPruneSigningKeys 9000] retried
           eq_refl (example_accounts _) (example_quiet _) 0 [x01]).
Defined.
