(* ===== verification/HandlerExamples.v ===== *)
(** * Concrete runs of the resource handlers

    What the theorems of [HandlersProps.v] say of a revoked device, of a terminal
    with an owner, and of a registration, on the toy library. *)

From S2P Require Export Login HandlersProps Retries.

Open Scope N_scope.
Open Scope hype_scope.

#[local] Existing Instances toy_lib toy_chrono toy_uuid toy_text.

(** ** A revoked device, while others use the tables *)

Definition locked_tables : Accounts := apply_op (OpRevokeDevice (9 * NANOS) 7) opener.
Definition locked_app : App :=
  mkApp (ap_world (example_app locked_tables))
    [λ w, put_accounts (apply_op (OpTouchDevice (10 * NANOS) 7) (wo_accounts w)) w;
     λ w, put_accounts (apply_op (OpDeleteChallenges (11 * NANOS)) (wo_accounts w)) w] 0 [] 0 [].
Definition unrevoked (r : DeviceRec) : bool := bool_decide (dc_revoked_at r = None).
Lemma opener_unrevoked : from_option unrevoked false (ac_devices opener !! 7) = true.
Proof. vm_cast_no_check (eq_refl true). Qed.
Lemma locked_revoked : revoked 7 locked_tables.
Proof.
  pose proof opener_unrevoked as Hd. destruct (ac_devices opener !! 7) as [d|] eqn:E; [|done].
  apply bool_decide_eq_true in Hd. by eapply revoke_revokes.
Qed.
Lemma locked_among : among (since locked_tables) locked_app.
Proof. split; [apply reaches_refl|]. repeat constructor; intros w Hw; by apply reaches_op. Qed.

Lemma revocation_is_final_witness :
  (∀ context query authorization auth,
     (authenticate toy_from_slice context query authorization locked_app).1 = Ok auth → other_than 7 auth)
  ∧ (∀ sn headers path auth, no_ticket headers →
       (authenticate_upgrade toy_from_slice sn headers path locked_app).1 = Ok auth → other_than 7 auth)
  ∧ (∀ jti context request answer, (create_token toy_to_vec jti context request locked_app).1 = Ok answer →
       tk_principal answer = kind_as_str KDevice → tk_principal_id answer ≠ uuid_text 7)
  ∧ (∀ ulid context headers connection,
       (relay_upgrade toy_from_slice ulid context 7 headers locked_app).1 ≠ Ok connection).
Proof. exact (revocation_is_final toy_to_vec toy_from_slice locked_tables 7 locked_app locked_revoked locked_among). Defined.

(** ** A terminal and its owner *)

Definition owner_app : App := put_world (put_reg opener_registry (ap_world opener_app)) (example_app opener).
Definition same_tables (tb : Tables) : Prop := tb = g_db opener_registry.
Lemma owner_among : among (on_tables same_tables) owner_app.
Proof. by split. Qed.
Definition viewer (id : text) : Auth := mkAuth KIdentity id id [lit TERMINALS_READ] [].
Definition answers {A} (r : ApiResult A * App) : bool := match r.1 with Ok _ => true | Err _ => false end.
Lemma owner_views :
  answers (terminal_view opener_context (viewer (key_fingerprint example_key)) 42 owner_app) = true
  ∧ answers (terminal_view opener_context (viewer (lit "somebody")) 42 owner_app) = false.
Proof. split; [vm_cast_no_check (eq_refl true)|vm_cast_no_check (eq_refl false)]. Qed.

Lemma terminals_only_for_owner_witness :
  (answers (terminal_view opener_context (viewer (key_fingerprint example_key)) 42 owner_app) = true
   ∧ answers (terminal_view opener_context (viewer (lit "somebody")) 42 owner_app) = false)
  ∧ (∀ context auth device_id state cursor limit rows next,
       (terminal_page context auth device_id state cursor limit owner_app).1 = Ok (rows, next) →
       Forall (λ row, t_identity_id row = a_identity_id auth) rows)
  ∧ (∀ context auth id response, (terminal_view context auth id owner_app).1 = Ok response →
       owned_row same_tables id (a_identity_id auth))
  ∧ (∀ random context auth path id ticket, parse_ws_path (trim path) = Some (WsMirror id) →
       (create_websocket_ticket random context auth path owner_app).1 = Ok ticket →
       owned_row same_tables id (a_identity_id auth))
  ∧ (∀ ulid context id headers mirror principal,
       (mirror_upgrade toy_from_slice ulid context id headers owner_app).1 = Ok (mirror, principal) →
       owned_row same_tables id (mc_identity_id mirror)).
Proof. split; [exact owner_views|]. exact (terminals_only_for_owner toy_from_slice same_tables owner_app owner_among). Defined.

(** ** A device is registered *)

Definition device_seed : list byte := repeat x08 32.
Definition owner_id : text := key_fingerprint example_key.
Definition device_request : ChallengeRequest :=
  mkChallengeRequest (lit (op_as_str RegisterDevice)) (mkKeyInput (lit ALGORITHM_ED25519) (b64_encode device_seed)) (Some owner_id).
Definition device_offer_run : ApiResult ChallengeResponse * App :=
  create_challenge (λ n, repeat x02 (N.to_nat n)) [x05] served_context device_request (example_app opener).
Definition device_offer : ChallengeResponse :=
  res_value (mkChallengeResponse [] [] EmptyString [] [] []) device_offer_run.1.
(** What the device signs: it checks the owner first. *)
Definition device_signature : text :=
  match sign_challenge id (cs_signing_input device_offer) device_seed (lit (op_as_str RegisterDevice)) (Some owner_id) with
  | Ok signature => signature
  | Err _ => []
  end.
#[local] Instance any_register : FromSlice RegisterDeviceRequest := λ _,
  Ok (mkRegisterDeviceRequest (lit " phone ") (mkKeyInput (lit ALGORITHM_ED25519) (b64_encode device_seed))
        (cs_challenge_id device_offer) device_signature (Some (lit "client"))).
Definition owner_auth : Auth := mkAuth KIdentity owner_id owner_id [lit DEVICES_WRITE] [].
Definition register_run : ApiResult Response * App := register 8 served_context owner_auth [] device_offer_run.2.
Lemma register_run_ok : res_ok register_run.1 = true.
Proof. vm_cast_no_check (eq_refl true). Qed.
Lemma register_answered :
  register 8 served_context owner_auth [] device_offer_run.2 = (Ok (answered register_run), register_run.2).
Proof. exact (ran_ok (respond 0 JNull) register_run register_run_ok). Qed.
Lemma device_others : ap_others device_offer_run.2 = [].
Proof.
  assert (is_empty (ap_others device_offer_run.2) = true) as E by vm_cast_no_check (eq_refl true).
  by destruct (ap_others device_offer_run.2).
Qed.

Lemma device_operating : operating device_offer_run.2.
Proof. unfold operating. by rewrite device_others. Qed.

Lemma registration_needs_both_witness :
  idempotency_lookup served_context owner_id (lit "POST") (lit "/v1/devices") [] device_offer_run.2
    = (Ok (Some (answered register_run)), register_run.2)
  ∨ ∃ request key role r,
      from_slice [] = Ok request ∧ registration (sr_snapshot example_store) owner_auth request key role r
      ∧ registered_device device_offer_run.2 8 request owner_auth key role r register_run.2.
Proof.
  exact (registration_needs_both 8 served_context owner_auth [] device_offer_run.2
           (answered register_run) register_run.2 device_operating register_answered).
Defined.
