(* ===== verification/Maintenance.v ===== *)
(** * The maintenance sweep and readiness ([server/src/app.rs], [server/src/db/repo.rs])

    [run_maintenance] is a handler like those of [Server.v]: each statement of
    its database task may find that other tasks ran, and may fail. Deletions are
    one transaction each. Metrics and logging are left out; the random bytes of a
    rotated key are passed in. *)

From S2P Require Export AppLogic AccountsProps.

Open Scope N_scope.
Open Scope hype_scope.

(** ** Retention ([repo.rs]) *)

(** [ORDER BY closed_at] and [ORDER BY closed_at IS NULL, closed_at]. *)
Definition closed_before (r1 r2 : TerminalRow) : Prop :=
  match t_closed_at r1, t_closed_at r2 with
  | Some t1, Some t2 => t1 ≤ t2
  | None, Some _ => False
  | _, None => True
  end.
#[export] Instance closed_before_dec r1 r2 : Decision (closed_before r1 r2).
Proof. unfold closed_before. destruct (t_closed_at r1), (t_closed_at r2); apply _. Defined.
Definition is_closed (c : TerminalRec) : bool := bool_decide (c_state c = "closed"%string).
(** [LIMIT ?]: a negative limit is none. *)
Definition sql_limit {A} (limit : Z) (l : list A) : list A := if (limit <? 0)%Z then l else take (Z.to_nat limit) l.
Definition expired_closed_terminals (cutoff : N) (limit : Z) (tb : Tables) : list Uuid :=
  let expired (c : TerminalRec) : bool := is_closed c && from_option (λ t, t <? cutoff) false (c_closed_at c) in
  t_terminal_id <$> sql_limit limit (merge_sort closed_before (select_rows expired tb)).
Definition oldest_closed_terminals (limit : Z) (tb : Tables) : list Uuid :=
  t_terminal_id <$> sql_limit limit (merge_sort closed_before (select_rows is_closed tb)).

(** ** The sweep ([app.rs]) *)

(** A transaction on the terminals that cannot be refused. *)
Definition terminal_update (f : Tables → Tables) : AppM () :=
  _ ← await; _ ← take_fault; app_modify (λ w, put_reg (put_db (f (g_db (wo_reg w))) (wo_reg w)) w).
Definition on_registry (f : Registry → Registry) : AppM () := app_modify (λ w, put_reg (f (wo_reg w)) w).

(** The two loops of the database task; their result is [deleted], grown. *)
Fixpoint delete_each (expired deleted : list Uuid) : AppM (list Uuid) :=
  match expired with
  | [] => mret deleted
  | id :: rest => _ ← terminal_update (delete_terminal id); delete_each rest (deleted ++ [id])
  end.
Fixpoint delete_oldest (quota : N) (oldest deleted : list Uuid) (used : N) : AppM (list Uuid * N) :=
  match oldest with
  | [] => mret (deleted, used)
  | id :: rest =>
      if used <=? quota then mret (deleted, used)
      else
        _ ← terminal_update (delete_terminal id);
        used ← terminal_read total_output_bytes;
        delete_oldest quota rest (deleted ++ [id]) used
  end.

Section maintenance.
Context `{CryptoLib, ChronoLib, UuidLib, JsonText}.

(** The closure that runs on a database connection. *)
Definition retention_task (retention : Z) (quota : N) (idempotency_retention : Z) : AppM (list Uuid * N) :=
  _ ← connection;
  now ← read_clock; _ ← acc_update (delete_expired_challenges now);
  now ← read_clock; _ ← acc_update (delete_expired_tickets now);
  now ← read_clock; _ ← acc_update (delete_expired_idempotency now idempotency_retention);
  now ← read_clock; _ ← acc_update (delete_old_registration_events now);
  now ← read_clock; _ ← acc_update (prune_signing_keys now);
  now ← read_clock;
  let cutoff := (now - Z.to_N retention * NANOS) / 1000 in
  expired ← terminal_read (expired_closed_terminals cutoff 256);
  deleted ← delete_each expired [];
  used ← terminal_read total_output_bytes;
  if quota <? used then
    oldest ← terminal_read (oldest_closed_terminals 256);
    delete_oldest quota oldest deleted used
  else mret (deleted, used).

(** [box], [draw] and [draw'] are those of [rotate_if_needed]. *)
Definition run_maintenance (box : list byte) (draw draw' : KeyDraw) (sn : Snapshot) : AppM () :=
  swept ← read_instant;
  _ ← app_modify (rate_sweep swept);
  _ ← on_registry evict_retired;
  swept ← read_instant;
  _ ← on_registry (sweep_pending_opens swept (60 * NANOS));
  done ← retention_task (sn_int keys.TERMINAL_CLOSED_RETENTION_SECONDS sn) (sn_u64 keys.PERSISTENCE_STORAGE_QUOTA_BYTES sn)
           (sn_int keys.IDEMPOTENCY_RETENTION_SECONDS sn);
  let '(deleted, used) := (done : list Uuid * N) in
  _ ← await;
  _ ← on_registry (λ g, foldl (λ g id, forget id g) g deleted);
  _ ← (if sn_u64 keys.PERSISTENCE_STORAGE_QUOTA_BYTES sn <? used then on_registry (set_storage_failing true) else mret ());
  _ ← ignore (rotate_if_needed box draw draw' sn);
  ignore connection.

(** [Result::is_ok], and an error's message. *)
Definition accepted {A} (m : AppM A) : AppM bool := λ s,
  match m s with (Ok _, s) => (Ok true, s) | (Err _, s) => (Ok false, s) end.
Definition complaint {A} (m : AppM A) : AppM (option text) := λ s,
  match m s with (Ok _, s) => (Ok None, s) | (Err e, s) => (Ok (Some (ae_message e)), s) end.

(** [AppState::readiness]: [Some] is why the server is not ready. [started] is
    the flag the startup sets, [loadable] what [verify_loadable] answers of the
    settings; the probe's write is of a row nothing reads. *)
Definition readiness (claims_from_slice : list byte → option TokenClaims) (started : bool) (loadable : ApiResult Z)
    (sn : Snapshot) : AppM (option text) :=
  shutting_down ← app_gets (λ w, g_shutting_down (wo_reg w));
  if (shutting_down : bool) then mret (Some (lit "server is shutting down"))
  else if negb started then mret (Some (lit "startup recovery has not finished"))
  else
    failing ← app_gets (λ w, g_storage_failing (wo_reg w));
    if (failing : bool) then mret (Some (lit "durable storage is failing"))
    else
      misconfigured ← accepted (verify claims_from_slice [] sn);
      if (misconfigured : bool) then mret (Some (lit "token verification is misconfigured"))
      else complaint (_ ← lift loadable; _ ← connection; connection).
End maintenance.
