(* ===== verification/MaintenanceProps.v ===== *)
(** * Theorems about the maintenance sweep

    An open terminal survives it whatever else happens; the quota is met or the
    failure is reported; a rotated signing key leaves the tokens of its
    predecessor valid. *)

From S2P Require Export Maintenance.

Open Scope N_scope.
Open Scope hype_scope.

(** ** Statements that leave the registry alone *)

Section registry_only.
Context (P : Registry → Prop) `{!Framed (λ w, P (wo_reg w))}.
Lemma holds_accounts_call {A} (f : Accounts → ApiResult (A * Accounts)) : holds (λ w, P (wo_reg w)) (acc_call f) (λ _, True).
Proof. by apply holds_acc_call; [apply _|]. Qed.
Lemma holds_connection (Q : () → Prop) : Q () → holds (λ w, P (wo_reg w)) connection Q.
Proof.
  intros HQ. next_with (λ _ : (), True); [by apply holds_await|]. intros _ _. by apply holds_take_fault; [apply _|].
Qed.

Section rotation.
Context `{CryptoLib, ChronoLib, UuidLib, JsonText}.
Lemma holds_open_keys box stored entries : holds (λ w, P (wo_reg w)) (open_keys box stored entries) (λ _, True).
Proof.
  revert entries. induction stored as [|k stored IH]; intros entries; cbn; [by apply holds_ret|].
  next_with (λ _ : bool, True).
  { destruct (st_active k), (st_not_after k); try by apply holds_ret. skip_next. by apply holds_ret. }
  intros b _. destruct b; [done|]. destruct (box_open _ _ _); [done|apply holds_fail].
Qed.
Lemma holds_draw_key box draw sn : holds (λ w, P (wo_reg w)) (draw_key box draw sn) (λ _, True).
Proof.
  unfold draw_key. skip_next. skip_next. skip_next. next_with (λ _ : (), True); [apply holds_accounts_call|].
  intros _ _. by apply holds_ret.
Qed.
Lemma holds_refresh box draw sn : holds (λ w, P (wo_reg w)) (refresh box draw sn) (λ _, True).
Proof.
  unfold refresh. next_with (λ _ : (), True); [by apply holds_connection|]. intros _ _. skip_next. skip_next.
  next_with (λ _ : list KeyEntry, True); [apply holds_open_keys|]. intros entries _.
  next_with (λ _ : list KeyEntry, True).
  { destruct (existsb _ _); [by apply holds_ret|]. next_with (λ _ : SigningKey, True); [apply holds_draw_key|].
    intros key _. skip_next. by apply holds_ret. }
  intros entries' _. by apply holds_modify.
Qed.
Lemma holds_rotate box draw draw' sn : holds (λ w, P (wo_reg w)) (rotate_if_needed box draw draw' sn) (λ _, True).
Proof.
  unfold rotate_if_needed. skip_next. next_with (λ _ : bool, True).
  { destruct a; [|by apply holds_ret]. skip_next. by apply holds_ret. }
  intros due _. destruct (negb due); [by apply holds_ret|]. next_with (λ _ : (), True); [by apply holds_connection|].
  intros _ _. next_with (λ _ : SigningKey, True); [apply holds_draw_key|]. intros key _.
  next_with (λ _ : (), True); [apply holds_refresh|]. intros _ _. by apply holds_ret.
Qed.
End rotation.
End registry_only.

(** ** Open terminals *)

(** What is kept of a terminal: its row, its output, its resident handle. *)
Definition handle_of (id : Uuid) (g : Registry) : option TerminalHandle := g_terminals g !! id ≫= λ loc, g_handles g !! loc.
Definition terminal_at (K : option TerminalRec → option (list OutputRow) → option TerminalHandle → Prop) (id : Uuid)
    (g : Registry) : Prop := K (tb_terminals (g_db g) !! id) (tb_output (g_db g) !! id) (handle_of id g).
Definition terminal_is K (id : Uuid) (w : World) : Prop := terminal_at K id (wo_reg w).
(** Open, and not resident or in use. *)
Definition in_service (c : option TerminalRec) (h : option TerminalHandle) : Prop :=
  from_option is_open false c = true ∧ from_option handle_evictable false h = false.

#[export] Instance framed_terminal_is K id : Framed (λ w, terminal_at K id (wo_reg w)).
Proof. split; by intros ? [? [] ? ?]. Qed.

Lemma handle_kept id (P : N → Prop) `{∀ loc, Decision (P loc)} g :
  (∀ loc, g_terminals g !! id = Some loc → P loc) →
  handle_of id (put_terminals (filter (λ '(_, loc), P loc) (g_terminals g)) g) = handle_of id g.
Proof.
  intros HP. unfold handle_of. cbn. destruct (g_terminals g !! id) as [loc|] eqn:E; cbn.
  - rewrite (map_lookup_filter_Some_2 _ _ id loc); [done|done|by apply HP].
  - by rewrite map_lookup_filter_None_2 by auto.
Qed.
Lemma sql_limit_sub {A} z (l : list A) x : x ∈ sql_limit z l → x ∈ l.
Proof. unfold sql_limit. case_match; [done|]. intros Hx. by eapply elem_of_subseteq in Hx; [|apply subseteq_take]. Qed.
(** The statements that choose what is deleted choose closed terminals. *)
Lemma chosen_rows (p : TerminalRec → bool) z id tb :
  id ∈ (t_terminal_id <$> sql_limit z (merge_sort closed_before (select_rows p tb))) →
  ∃ c, tb_terminals tb !! id = Some c ∧ p c = true.
Proof.
  intros (row & -> & Hin%sql_limit_sub)%list_elem_of_fmap. rewrite merge_sort_Permutation in Hin.
  unfold select_rows in Hin. apply list_elem_of_fmap in Hin as ([i c] & -> & [Hp Hi]%list_elem_of_filter).
  exists c. by split; [apply elem_of_map_to_list|].
Qed.

Section spared.
Context (K : option TerminalRec → option (list OutputRow) → option TerminalHandle → Prop) (id : Uuid).
Context (K_in_service : ∀ c o h, K c o h → in_service c h).
Abbreviation I := (terminal_is K id).

Lemma open_not_closed w c : I w → tb_terminals (g_db (wo_reg w)) !! id = Some c → is_closed c = false.
Proof.
  intros [Ho _]%K_in_service Hc. rewrite Hc in Ho. unfold is_open, is_closed in *. cbn in Ho.
  apply bool_decide_eq_true in Ho. by rewrite Ho.
Qed.
Lemma spared_expired w cutoff z : I w → id ∉ expired_closed_terminals cutoff z (g_db (wo_reg w)).
Proof. intros Hw (c & Hc & [Hp _]%andb_true_iff)%chosen_rows. by rewrite (open_not_closed w c) in Hp. Qed.
Lemma spared_oldest w z : I w → id ∉ oldest_closed_terminals z (g_db (wo_reg w)).
Proof. intros Hw (c & Hc & Hp)%chosen_rows. by rewrite (open_not_closed w c) in Hp. Qed.
Lemma spared_delete w other : id ≠ other → I w → I (put_reg (put_db (delete_terminal other (g_db (wo_reg w))) (wo_reg w)) w).
Proof. intros Hne Hw. unfold terminal_is, terminal_at, handle_of. cbn. by rewrite !lookup_delete_ne. Qed.
Lemma spared_evict w : I w → I (put_reg (evict_retired (wo_reg w)) w).
Proof.
  intros Hw. pose proof (K_in_service _ _ _ Hw) as [_ Hh]. unfold terminal_is, terminal_at, evict_retired in *. cbn in *.
  rewrite handle_kept; [done|]. intros loc Hl. unfold handle_of in Hh. by rewrite Hl in Hh.
Qed.
Lemma spared_forget gone w : id ∉ gone → I w → I (put_reg (foldl (λ g id, forget id g) (wo_reg w) gone) w).
Proof.
  intros Hg Hw.
  assert (∀ g, let g' := foldl (λ g id, forget id g) g gone in
               g_db g' = g_db g ∧ g_handles g' = g_handles g ∧ g_terminals g' !! id = g_terminals g !! id) as Hf.
  { clear Hw. induction gone as [|x gone IH]; intros g; [done|]. apply not_elem_of_cons in Hg as [Hx Hg].
    destruct (IH Hg (forget x g)) as (Ed & Eh & Et). cbn. rewrite Ed, Eh, Et. cbn. by rewrite lookup_delete_ne. }
  destruct (Hf (wo_reg w)) as (Ed & Eh & Et). unfold terminal_is, terminal_at, handle_of in *. cbn. by rewrite Ed, Eh, Et.
Qed.

Lemma holds_terminal_update f (Q : () → Prop) :
  (∀ w, I w → I (put_reg (put_db (f (g_db (wo_reg w))) (wo_reg w)) w)) → Q () → holds I (terminal_update f) Q.
Proof.
  intros Hf HQ. next_with (λ _ : (), True); [by apply holds_await|]. intros _ _.
  next_with (λ _ : (), True); [by apply holds_take_fault; [apply _|]|]. intros _ _. by apply holds_modify.
Qed.
Lemma holds_delete_each expired deleted :
  id ∉ expired → id ∉ deleted → holds I (delete_each expired deleted) (λ deleted, id ∉ deleted).
Proof.
  revert deleted. induction expired as [|x expired IH]; intros deleted; cbn; [by intros; apply holds_ret|].
  intros [Hx He]%not_elem_of_cons Hd. next_with (λ _ : (), True); [|intros _ _; apply IH; set_solver].
  apply holds_terminal_update; [|done]. intros w. by apply spared_delete.
Qed.
Lemma holds_delete_oldest quota oldest deleted used :
  id ∉ oldest → id ∉ deleted → holds I (delete_oldest quota oldest deleted used) (λ done, id ∉ done.1).
Proof.
  revert deleted used. induction oldest as [|x oldest IH]; intros deleted used; cbn; [by intros; apply holds_ret|].
  intros [Hx He]%not_elem_of_cons Hd. split_if; [by apply holds_ret|].
  next_with (λ _ : (), True); [apply holds_terminal_update; [|done]; intros w; by apply spared_delete|intros _ _].
  skip_next. apply IH; set_solver.
Qed.
Section task.
Context `{CryptoLib, ChronoLib, UuidLib, JsonText}.
Lemma holds_retention_task retention quota idempotency_retention :
  holds I (retention_task retention quota idempotency_retention) (λ done, id ∉ done.1).
Proof.
  unfold retention_task. next_with (λ _ : (), True); [by apply (holds_connection (terminal_at K id))|]. intros _ _.
  do 5 (skip_next; eapply (holds_bind _ _ _ (λ _, True)); [apply (holds_accounts_call (terminal_at K id))|intros _ _]).
  skip_next. next_with (λ expired, id ∉ expired).
  { apply holds_terminal_read; [apply _|]. intros w. apply spared_expired. }
  intros expired He. next_with (λ deleted, id ∉ deleted); [apply holds_delete_each; [done|apply not_elem_of_nil]|].
  intros deleted Hd. skip_next. split_if; [|by apply holds_ret]. next_with (λ oldest, id ∉ oldest).
  { apply holds_terminal_read; [apply _|]. intros w. apply spared_oldest. }
  intros oldest Ho. by apply holds_delete_oldest.
Qed.
Lemma holds_maintenance box draw draw' sn : holds I (run_maintenance box draw draw' sn) (λ _, True).
Proof.
  unfold run_maintenance, on_registry. next_with (λ _ : N, True); [by apply holds_instant|]. intros swept _.
  next_with (λ _ : (), True); [apply holds_modify; [|done]; intros w; by apply framed_buckets|]. intros _ _.
  next_with (λ _ : (), True); [apply holds_modify; [|done]; apply spared_evict|]. intros _ _.
  next_with (λ _ : N, True); [by apply holds_instant|]. intros swept' _.
  next_with (λ _ : (), True); [by apply holds_modify|]. intros _ _.
  next_with (λ done : list Uuid * N, id ∉ done.1); [apply holds_retention_task|]. intros [deleted used] Hd.
  next_with (λ _ : (), True); [by apply holds_await|]. intros _ _.
  next_with (λ _ : (), True); [apply holds_modify; [|done]; intros w; by apply spared_forget|]. intros _ _.
  next_with (λ _ : (), True); [split_if; [by apply holds_modify|by apply holds_ret]|]. intros _ _.
  next_with (λ _ : (), True); [apply holds_ignore; [apply (holds_rotate (terminal_at K id))|done]|]. intros _ _.
  apply holds_ignore; [by apply (holds_connection (terminal_at K id))|done].
Qed.
End task.
End spared.

(** C23: an open terminal survives. Whatever other tasks do, whatever fails and
    however the sweep ends: if the others keep a property of a terminal's row, of
    its output and of its resident handle that implies that the terminal is open
    and that its handle, if resident, is not retired and idle, then the sweep
    keeps it too: it deletes, trims and forgets only closed terminals, whatever
    the quota asks for. *)
Theorem maintenance_spares_open `{CryptoLib, ChronoLib, UuidLib, JsonText} K id box draw draw' sn s :
  (∀ c o h, K c o h → in_service c h) → among (terminal_is K id) s →
  among (terminal_is K id) (run_maintenance box draw draw' sn s).2.
Proof. intros HK Ha. by apply holds_maintenance. Qed.

(** ** The quota *)

(** Nothing but the accounts, the clocks, the buckets and the keys has changed. *)
Definition at_reg (g : Registry) (s : App) : Prop := quiet s ∧ wo_reg (ap_world s) = g.

Section quiet_rules.
Context (g : Registry).
Lemma reg_clock {B} s (k : N → AppM B) Q :
  at_reg g s → (∀ s', at_reg g s' → succeeds (k (tick s)) s' Q) → succeeds (t ← read_clock; k t) s Q.
Proof.
  intros [Hq Hg] Hk. destruct (Hk (ticked s)) as (b & s' & E & HQ).
  { split; [by apply ticked_quiet|by rewrite ticked_world]. }
  exists b, s'. split; [|done]. by erewrite bind_ok by apply read_clock_tick.
Qed.
Lemma reg_instant {B} s (k : N → AppM B) Q :
  at_reg g s → (∀ t s', at_reg g s' → succeeds (k t) s' Q) → succeeds (t ← read_instant; k t) s Q.
Proof.
  intros Hs Hk. unfold succeeds, mbind, AppM_bind, read_instant.
  destruct (ap_instants s) as [|t ts]; by apply Hk.
Qed.
Lemma reg_await {B} s (k : () → AppM B) Q : at_reg g s → succeeds (k ()) s Q → succeeds (x ← await; k x) s Q.
Proof. intros [Hq _]. unfold succeeds, mbind, AppM_bind. by rewrite await_quiet. Qed.
Lemma reg_connection {B} s (k : () → AppM B) Q : at_reg g s → succeeds (k ()) s Q → succeeds (x ← connection; k x) s Q.
Proof. intros [Hq _]. unfold succeeds, connection, mbind, AppM_bind. by rewrite await_quiet, take_fault_quiet. Qed.
Lemma reg_update {A B} s (f : Accounts → A * Accounts) (k : A → AppM B) Q :
  at_reg g s → (∀ a s', at_reg g s' → succeeds (k a) s' Q) → succeeds (a ← acc_update f; k a) s Q.
Proof.
  intros [Hq Hg] Hk. unfold succeeds, mbind, AppM_bind. rewrite acc_update_quiet by done. by apply Hk.
Qed.
Lemma reg_terminals {A B} s (f : Tables → A) (k : A → AppM B) Q :
  at_reg g s → succeeds (k (f (g_db g))) s Q → succeeds (a ← terminal_read f; k a) s Q.
Proof.
  intros [Hq Hg]. unfold succeeds, terminal_read, mbind, AppM_bind. rewrite await_quiet, take_fault_quiet by done.
  unfold app_gets. by rewrite Hg.
Qed.
Lemma reg_delete {B} s f (k : () → AppM B) Q :
  at_reg g s → (∀ s', at_reg (put_db (f (g_db g)) g) s' → succeeds (k ()) s' Q) →
  succeeds (x ← terminal_update f; k x) s Q.
Proof.
  intros [Hq Hg] Hk. unfold succeeds, terminal_update, mbind, AppM_bind. rewrite await_quiet, take_fault_quiet by done.
  unfold app_modify. rewrite Hg. apply Hk. split; [|done]. destruct Hq as [Ho Hf]. split; [done|]. cbn. by rewrite <- Hg.
Qed.
Lemma reg_modify {B} s f (k : () → AppM B) Q :
  at_reg g s → g_faults (f g) = g_faults g → (∀ s', at_reg (f g) s' → succeeds (k ()) s' Q) →
  succeeds (x ← on_registry f; k x) s Q.
Proof.
  intros [Hq Hg] Hf Hk. unfold succeeds, on_registry, mbind, AppM_bind, app_modify. rewrite Hg. apply Hk. split; [|done].
  destruct Hq as [Ho Hq]. split; [done|]. cbn. by rewrite Hf, <- Hg.
Qed.
End quiet_rules.

(** What the loops leave. *)
Definition without (ids : list Uuid) (tb : Tables) : Tables := foldl (λ tb id, delete_terminal id tb) tb ids.
Lemma without_app l1 l2 tb : without (l1 ++ l2) tb = without l2 (without l1 tb).
Proof. apply foldl_app. Qed.
Lemma put_db_twice t1 t2 g : put_db t2 (put_db t1 g) = put_db t2 g.
Proof. done. Qed.
Lemma put_db_same g : put_db (g_db g) g = g.
Proof. by destruct g. Qed.

Lemma delete_each_quiet g expired deleted s :
  at_reg g s →
  succeeds (delete_each expired deleted) s (λ d s', d = deleted ++ expired ∧ at_reg (put_db (without expired (g_db g)) g) s').
Proof.
  revert g deleted s. induction expired as [|id expired IH]; intros g deleted s Hs; cbn.
  { apply succeeds_ret. by rewrite app_nil_r, put_db_same. }
  apply (reg_delete g); [done|]. intros s' Hs'.
  destruct (IH _ (deleted ++ [id]) s' Hs') as (d & s2 & E & -> & H2). exists (deleted ++ [id] ++ expired), s2.
  split; [by rewrite E, <- app_assoc|]. by rewrite put_db_twice in H2.
Qed.
(** Deleting stops once the quota is met, or when nothing is left to delete. *)
Lemma delete_oldest_quiet quota g oldest deleted s :
  at_reg g s →
  succeeds (delete_oldest quota oldest deleted (total_output_bytes (g_db g))) s (λ done s',
    ∃ more rest, oldest = more ++ rest ∧ done.1 = deleted ++ more
      ∧ at_reg (put_db (without more (g_db g)) g) s' ∧ done.2 = total_output_bytes (without more (g_db g))
      ∧ (done.2 ≤ quota ∨ rest = [])).
Proof.
  revert g deleted s. induction oldest as [|id oldest IH]; intros g deleted s Hs; cbn.
  { apply succeeds_ret. exists [], []. cbn. rewrite app_nil_r, put_db_same. auto 6. }
  destruct (N.leb_spec (total_output_bytes (g_db g)) quota) as [Hle|Hgt].
  { apply succeeds_ret. exists [], (id :: oldest). cbn. rewrite app_nil_r, put_db_same. auto 6. }
  apply (reg_delete g); [done|]. intros s' Hs'. apply (reg_terminals _ _ _ _ _ Hs').
  destruct (IH _ (deleted ++ [id]) s' Hs') as (d & s2 & E & more & rest & -> & Ed & H2 & Eu & Hor).
  exists d, s2. split; [exact E|]. exists (id :: more), rest. rewrite put_db_twice in H2.
  split_and!; [done|by rewrite Ed, <- app_assoc|exact H2|exact Eu|exact Hor].
Qed.

(** The rows of the closed terminals. *)
Definition closed_rows (tb : Tables) : list TerminalRow := select_rows is_closed tb.
Lemma without_lookup ids tb id :
  tb_terminals (without ids tb) !! id = if bool_decide (id ∈ ids) then None else tb_terminals tb !! id.
Proof.
  revert tb. induction ids as [|x ids IH]; intros tb; [done|]. change (without (x :: ids) tb) with (without ids (delete_terminal x tb)).
  rewrite IH. cbn. destruct (decide (x = id)) as [->|Hne].
  - rewrite lookup_delete_eq. repeat case_bool_decide; set_solver.
  - rewrite lookup_delete_ne by done. repeat case_bool_decide; set_solver.
Qed.
Lemma sql_limit_all {A} z (l : list A) : (Z.of_nat (length l) ≤ z)%Z → sql_limit z l = l.
Proof. intros Hl. unfold sql_limit. case_match; [done|]. apply take_ge. lia. Qed.
Lemma oldest_closed_all z tb id c :
  (Z.of_nat (length (closed_rows tb)) ≤ z)%Z → tb_terminals tb !! id = Some c → is_closed c = true →
  id ∈ oldest_closed_terminals z tb.
Proof.
  intros Hn Hc Hcl. unfold oldest_closed_terminals.
  rewrite sql_limit_all by (rewrite (Permutation_length (merge_sort_Permutation closed_before _)); exact Hn).
  apply list_elem_of_fmap. exists (row_from_rec id c). split; [done|]. rewrite merge_sort_Permutation. unfold select_rows.
  apply list_elem_of_fmap. exists (id, c). split; [done|]. apply list_elem_of_filter. by rewrite elem_of_map_to_list.
Qed.

(** What the database task leaves. *)
Definition retained (quota : N) (expired : list Uuid) (tb tb' : Tables) (used : N) : Prop :=
  ∃ more, tb' = without (expired ++ more) tb ∧ used = total_output_bytes tb'
    ∧ (∀ id, id ∈ more → id ∈ oldest_closed_terminals 256 (without expired tb))
    ∧ (total_output_bytes (without expired tb) ≤ quota → more = [])
    ∧ (quota < used → more = oldest_closed_terminals 256 (without expired tb)).

Section sweep.
Context `{CryptoLib, ChronoLib, UuidLib, JsonText}.
Lemma retention_task_quiet g retention quota idempotency_retention s :
  at_reg g s →
  succeeds (retention_task retention quota idempotency_retention) s (λ done s', ∃ cutoff tb',
    at_reg (put_db tb' g) s' ∧ retained quota (expired_closed_terminals cutoff 256 (g_db g)) (g_db g) tb' done.2).
Proof.
  intros Hs. unfold retention_task. apply (reg_connection g); [done|].
  apply (reg_clock g); [done|]. intros s1 Hs1. apply (reg_update g); [done|]. intros ? s2 Hs2'.
  apply (reg_clock g); [done|]. intros s3 Hs3. apply (reg_update g); [done|]. intros ? s4 Hs4.
  apply (reg_clock g); [done|]. intros s5 Hs5. apply (reg_update g); [done|]. intros ? s6 Hs6.
  apply (reg_clock g); [done|]. intros s7 Hs7. apply (reg_update g); [done|]. intros ? s8 Hs8.
  apply (reg_clock g); [done|]. intros s9 Hs9. apply (reg_update g); [done|]. intros ? s10 Hs10.
  apply (reg_clock g); [done|]. intros s11 Hs11. apply (reg_terminals g); [done|]. set (cutoff := _ / 1000).
  eapply succeeds_bind; [by apply (delete_each_quiet g)|]. intros deleted s12 [-> Hs12]. cbn [app].
  set (expired := expired_closed_terminals cutoff 256 (g_db g)) in *.
  apply (reg_terminals _ _ _ _ _ Hs12). cbn [g_db put_db].
  destruct (N.ltb_spec quota (total_output_bytes (without expired (g_db g)))) as [Hlt|Hle].
  - apply (reg_terminals _ _ _ _ _ Hs12). cbn [g_db put_db].
    destruct (delete_oldest_quiet quota _ (oldest_closed_terminals 256 (without expired (g_db g))) expired _ Hs12)
      as ([d u] & s13 & E & more & rest & Eo & Ed & Hs13 & Eu & Hor). cbn [g_db put_db fst snd] in *.
    exists (d, u), s13. split; [exact E|]. exists cutoff, (without (expired ++ more) (g_db g)).
    rewrite without_app. split; [exact Hs13|]. exists more. cbn [snd]. fold expired. rewrite without_app.
    split_and!; [done|exact Eu|..].
    + intros id Hid. rewrite Eo. set_solver.
    + lia.
    + intros Hu. destruct Hor as [?| ->]; [lia|]. by rewrite Eo, app_nil_r.
  - apply succeeds_ret. exists cutoff, (without expired (g_db g)). split; [exact Hs12|]. exists [].
    cbn [snd]. fold expired. rewrite app_nil_r. split_and!; [done|done|set_solver|done|lia].
Qed.
End sweep.

Section quota.
Context `{CryptoLib, ChronoLib, UuidLib, JsonText}.
Definition storage_is (tb : Tables) (failing : bool) (g : Registry) : Prop := g_db g = tb ∧ g_storage_failing g = failing.
#[local] Instance framed_storage_is tb failing : Framed (λ w, storage_is tb failing (wo_reg w)).
Proof. split; by intros ? [? [] ? ?]. Qed.
(** What comes after the storage has been looked at does not touch it. *)
Lemma sweep_ends box draw draw' sn s :
  quiet s →
  succeeds (_ ← ignore (rotate_if_needed box draw draw' sn); ignore connection) s (λ _ s',
    storage_is (g_db (wo_reg (ap_world s))) (g_storage_failing (wo_reg (ap_world s))) (wo_reg (ap_world s'))).
Proof.
  intros [Ho _]. set (P := storage_is (g_db (wo_reg (ap_world s))) (g_storage_failing (wo_reg (ap_world s)))).
  assert (among (λ w, P (wo_reg w)) s) as Ha by (split; [done|]; by rewrite Ho).
  eexists (), _. split; [done|].
  assert (among (λ w, P (wo_reg w)) (rotate_if_needed box draw draw' sn s).2) as Ha' by (by apply holds_rotate).
  cbn. by apply (holds_connection P (λ _, True)).
Qed.

Lemma reg_buckets {B} g s t (k : () → AppM B) Q :
  at_reg g s → (∀ s', at_reg g s' → succeeds (k ()) s' Q) → succeeds (x ← app_modify (rate_sweep t); k x) s Q.
Proof. intros [[Ho Hf] Hg] Hk. by apply (Hk (put_world (rate_sweep t (ap_world s)) s)). Qed.
Lemma forget_all gone g :
  let g' := foldl (λ g id, forget id g) g gone in
  g_db g' = g_db g ∧ g_faults g' = g_faults g ∧ g_storage_failing g' = g_storage_failing g.
Proof. revert g. induction gone as [|id gone IH]; intros g; [done|]. exact (IH (forget id g)). Qed.
Lemma fewer_closed ids tb : (length (closed_rows (without ids tb)) ≤ length (closed_rows tb))%nat.
Proof.
  unfold closed_rows, select_rows. rewrite !length_fmap. apply submseteq_length, NoDup_submseteq.
  - apply NoDup_filter, NoDup_map_to_list.
  - intros [id c]. rewrite !list_elem_of_filter, !elem_of_map_to_list, without_lookup. case_bool_decide; [by intros []|done].
Qed.

(** How a sweep leaves the storage, from the tables before it. *)
Record swept (quota cutoff : N) (tb : Tables) (g : Registry) (more : list Uuid) : Prop := {
  sw_gone : g_db g = without (expired_closed_terminals cutoff 256 tb ++ more) tb;
  sw_oldest id : id ∈ more → id ∈ oldest_closed_terminals 256 (without (expired_closed_terminals cutoff 256 tb) tb);
  sw_needed : total_output_bytes (without (expired_closed_terminals cutoff 256 tb) tb) ≤ quota → more = [];
  sw_met : total_output_bytes (g_db g) ≤ quota
           ∨ g_storage_failing g = true
             ∧ ((length (closed_rows tb) ≤ 256)%nat → ∀ id c, tb_terminals (g_db g) !! id = Some c → is_closed c = false);
}.
Lemma retained_swept quota cutoff tb used g more :
  g_db g = without (expired_closed_terminals cutoff 256 tb ++ more) tb →
  used = total_output_bytes (g_db g) →
  (∀ id, id ∈ more → id ∈ oldest_closed_terminals 256 (without (expired_closed_terminals cutoff 256 tb) tb)) →
  (total_output_bytes (without (expired_closed_terminals cutoff 256 tb) tb) ≤ quota → more = []) →
  (quota < used → more = oldest_closed_terminals 256 (without (expired_closed_terminals cutoff 256 tb) tb)) →
  (quota < used → g_storage_failing g = true) → swept quota cutoff tb g more.
Proof.
  intros Eg -> Hold Hneed Hall Hfail. split; [done..|].
  destruct (N.le_gt_cases (total_output_bytes (g_db g)) quota) as [Hle|Hgt]; [by left|right].
  split; [by apply Hfail|]. intros Hn id c Hc. destruct (is_closed c) eqn:Ecl; [exfalso|done].
  rewrite Eg, without_lookup in Hc. case_bool_decide as Hin; [done|]. apply Hin, elem_of_app. right.
  rewrite Hall by done. eapply oldest_closed_all; [|rewrite without_lookup, bool_decide_eq_false_2; [done|set_solver]|done].
  pose proof (fewer_closed (expired_closed_terminals cutoff 256 tb) tb). lia.
Qed.

(** The quota is met or the failure is reported. When nobody interferes and
    no statement fails, a sweep ends well, whatever becomes of the signing keys.
    The closed terminals whose retention has ended, at most 256, are gone, and
    so are more of the oldest closed ones, but only if what was left exceeded the
    quota. In the end the stored output fits the quota; or the storage is marked
    as failing, which ends readiness, and of 256 closed terminals or fewer none
    is left to delete. *)
Theorem maintenance_meets_quota box draw draw' sn s :
  quiet s →
  ∃ cutoff more s', run_maintenance box draw draw' sn s = (Ok (), s')
    ∧ swept (sn_u64 keys.PERSISTENCE_STORAGE_QUOTA_BYTES sn) cutoff (g_db (wo_reg (ap_world s))) (wo_reg (ap_world s')) more.
Proof.
  intros Hq. set (quota := sn_u64 _ sn). set (g0 := wo_reg (ap_world s)).
  assert (succeeds (run_maintenance box draw draw' sn) s
            (λ _ s', ∃ cutoff more, swept quota cutoff (g_db g0) (wo_reg (ap_world s')) more)) as ([] & s' & E & cutoff & more & HQ);
    [|by exists cutoff, more, s'].
  assert (at_reg g0 s) as Hs0 by done. unfold run_maintenance. fold quota.
  apply (reg_instant g0); [done|]. intros swept1 s1 Hs1. apply (reg_buckets g0); [done|]. intros s2 Hs2.
  apply (reg_modify g0); [done..|]. intros s3 Hs3. apply (reg_instant _ _ _ _ Hs3). intros swept2 s4 Hs4.
  apply (reg_modify _ _ _ _ _ Hs4); [done|]. intros s5 Hs5.
  set (g := sweep_pending_opens _ _ _) in *. assert (g_db g = g_db g0) as Eg by done.
  eapply succeeds_bind; [by apply (retention_task_quiet g)|].
  intros [deleted used] s6 (cutoff & tb' & Hs6 & more & Etb & Eu & Hold & Hneed & Hall). cbn [snd] in *.
  apply (reg_await _ _ _ _ Hs6). pose proof (forget_all deleted (put_db tb' g)) as (Ed & Ef & _).
  apply (reg_modify _ _ _ _ _ Hs6); [exact Ef|]. intros s7 Hs7.
  set (g7 := foldl _ _ _) in *. rewrite Eg in *.
  eapply (succeeds_bind _ _ _ (λ _ s8, quiet s8 ∧ g_db (wo_reg (ap_world s8)) = tb'
            ∧ (quota < used → g_storage_failing (wo_reg (ap_world s8)) = true))).
  { destruct Hs7 as [[Ho Hf] Hg7]. destruct (N.ltb_spec quota used) as [Hlt|Hge].
    - eexists (), _. split; [done|]. cbn. rewrite Hg7. split_and!; [split; [done|]; cbn; congruence|exact Ed|done].
    - apply succeeds_ret. rewrite Hg7. split_and!; [by split|exact Ed|lia]. }
  intros [] s8 (Hq8 & Ed8 & Hf8). destruct (sweep_ends box draw draw' sn s8 Hq8) as ([] & s9 & E & Ed9 & Ef9).
  exists (), s9. split; [exact E|]. exists cutoff, more.
  apply (retained_swept quota cutoff _ used); [congruence|congruence|done..|]. by rewrite Ef9.
Qed.
End quota.

(** ** Example: a server over its quota *)

#[local] Existing Instances toy_lib toy_chrono toy_uuid.
#[local] Instance no_json : JsonText := {| json_to_string := λ _, []; json_from_str := λ _, None |}.
Definition stored_rec (ref : string) (state : string) (closed_at : option N) : TerminalRec :=
  mkTerminalRec 7 (lit "who") (lit "sh") (lit ref) state None None None None 0 "publisher" None 5 5 closed_at None 3 0.
Definition crowded_tables : Tables :=
  mkTables (list_to_map [(1, stored_rec "a" "open" None); (2, stored_rec "b" "closed" (Some 2000000000));
                         (3, stored_rec "c" "closed" (Some 3000000000)); (4, stored_rec "d" "closed" (Some 10))])
    (list_to_map ((λ id, (id, [mkOutputRow 0 3 [x61; x62; x63]])) <$> [1; 2; 3; 4])).
Definition crowded_settings : Snapshot :=
  mkSnapshot 1 (list_to_map [(keys.TERMINAL_CLOSED_RETENTION_SECONDS, VInt 3600); (keys.PERSISTENCE_STORAGE_QUOTA_BYTES, VInt 7)]).
Definition crowded_app (others : list (World → World)) : App :=
  mkApp (mkWorld ac_empty (registry_new crowded_tables [] crowded_settings) [] ∅) others (5000 * NANOS) [] 0 [].
(** Another task deletes a terminal of its own. *)
Definition rival (w : World) : World := put_reg (put_db (delete_terminal 3 (g_db (wo_reg w))) (wo_reg w)) w.
Definition untouched_one (c : option TerminalRec) (o : option (list OutputRow)) (h : option TerminalHandle) : Prop :=
  c = Some (stored_rec "a" "open" None) ∧ o = Some [mkOutputRow 0 3 [x61; x62; x63]] ∧ h = None.
Definition example_draw : KeyDraw := mkKeyDraw [x01] [x02] [x03].

Lemma maintenance_spares_open_witness :
  among (terminal_is untouched_one 1)
    (run_maintenance [] example_draw example_draw crowded_settings (crowded_app [id; rival; id; rival])).2.
Proof.
  apply (maintenance_spares_open untouched_one 1 [] example_draw example_draw crowded_settings).
  - by intros c o h (-> & -> & ->).
  - split; [by split_and!|]. cbn [ap_others crowded_app]. repeat (apply Forall_cons; split); [by intros w Hw| |by intros w Hw| |].
    1,2: intros w Hw; by apply spared_delete.
    by apply Forall_nil.
Defined.

Lemma maintenance_meets_quota_witness :
  ∃ cutoff more s', run_maintenance [] example_draw example_draw crowded_settings (crowded_app []) = (Ok (), s')
    ∧ swept (sn_u64 keys.PERSISTENCE_STORAGE_QUOTA_BYTES crowded_settings) cutoff (g_db (wo_reg (ap_world (crowded_app []))))
        (wo_reg (ap_world s')) more.
Proof. by apply (maintenance_meets_quota [] example_draw example_draw crowded_settings (crowded_app [])). Defined.

(** The expired terminal goes, then the oldest closed one, then the quota is met. *)
Example crowded_swept :
  (map_to_list (tb_terminals (g_db (wo_reg (ap_world
     (run_maintenance [] example_draw example_draw crowded_settings (crowded_app [])).2))))).*1 = [3; 1].
Proof. vm_cast_no_check (eq_refl [3; 1]). Qed.
