(* ===== verification/Multiplexer.v ===== *)
(** * The publisher's relay connection ([publisher/src/session.rs])

    [Mux] is what [struct Multiplexer] keeps, with what its senders point at:
    the event channel of each terminal's owner, the channel of terminal-open
    requests, and the queue of the connection's writer. One definition per
    method; [session_loop] is the loop of [run_connection], [maintain] the
    retry loop around it. A handler owns the state while it waits for the
    writer; an owner that takes events meanwhile might as well have taken them
    before the handler began, since a handler sends to one channel at most
    once, so owners act between handlers only. Tracing is left out.

    The order in which a [HashMap] yields its entries is unspecified: it is
    the interface [HashIter]. Parsing a text frame is [serde_json]: it is the
    parameter [parse_server_message]. *)

From S2P Require Export StateMonad Messages Frames Stream Json.

Open Scope N_scope.
Open Scope hype_scope.

(** ** Data *)

Inductive SessionError :=
| Connect (detail : text)
| Refused (detail : text)
| SessionClosed (detail : text)
| Api (detail : text).

(** The fields shadow nothing of the relay's: this is the publisher's side. *)
Record TerminalSpec := mkTerminalSpec {
  sp_local_ref : text;
  sp_label : text;
  sp_cols : N;
  sp_rows : N;
  sp_term : text;
  sp_in_reply_to : option text;
}.

Inductive Control :=
| CtOpen (spec : TerminalSpec) (events : N)
| CtOutput (local_ref : text) (start_offset : N) (bytes : list byte)
| CtResize (local_ref : text) (cols rows : N)
| CtClose (local_ref reason : text)
| CtDecline (request_id : text) (reason : string).

Record RemoteRequest := mkRemoteRequest {
  rr_request_id : text;
  rr_label : option text;
  rr_cols : option N;
  rr_rows : option N;
}.

Record RelayLimits := mkRelayLimits {
  rl_max_output_frame_bytes : N;
  rl_max_unacked_output_bytes : N;
  rl_max_active_terminals : N;
  rl_heartbeat_interval_seconds : N;
  rl_heartbeat_timeout_seconds : N;
  rl_max_input_frame_bytes : option N;
}.

(** [protocol::ServerMessage]. *)
Inductive RelayMessage :=
| RmReady (connection_id : text) (limits : RelayLimits)
| RmTerminalOpened (request_id : text) (terminal_id : Uuid) (next_offset durable_offset : N)
    (accepts_input : bool)
| RmOutputAck (terminal_id : Uuid) (durable_offset next_offset : N)
| RmTerminalOpenRequest (request_id : text) (label : option text) (cols rows : option N)
| RmTerminalResizeRequest (terminal_id : Uuid) (cols rows : N)
| RmTerminalClosed (terminal_id : Uuid) (reason : text)
| RmNotice (code message : text)
| RmError (code message : text) (terminal_id : option Uuid) (request_id : option text)
    (next_offset durable_offset : option N)
| RmPing (at_unix_ms : Z)
| RmUnrecognised.

(** What the socket yields. *)
Inductive WsFrame :=
| FText (txt : text)
| FBinary (bytes : list byte)
| FPing (payload : list byte)
| FPong (payload : list byte)
| FClose
| FFailed (detail : text).

(** What the writer is handed; a text frame is the value it prints. *)
Inductive WsSend :=
| WText (j : json)
| WBinary (bytes : list byte)
| WPong (payload : list byte).

Record EvChan := mkEvChan {
  ec_queue : list Event;
  ec_capacity : N;
  ec_rx_open : bool;
}.
Record RequestChan := mkRequestChan {
  rc_queue : list RemoteRequest;
  rc_capacity : N;
  rc_rx_open : bool;
}.

Record Hosted := mkHosted {
  ho_spec : TerminalSpec;
  ho_terminal_id : option Uuid;
  ho_events : N;
  ho_closing : option text;
}.

Record Mux := mkMux {
  mx_terminals : gmap text Hosted;
  mx_opened : list Uuid;
  mx_open_requests : option RequestChan;
  mx_channels : gmap N EvChan;
  mx_writer : list WsSend;
}.
Abbreviation MuxM := (StM Mux).

Definition set_terminals (f : gmap text Hosted → gmap text Hosted) (m : Mux) : Mux :=
  mkMux (f (mx_terminals m)) (mx_opened m) (mx_open_requests m) (mx_channels m) (mx_writer m).
Definition set_opened (f : list Uuid → list Uuid) (m : Mux) : Mux :=
  mkMux (mx_terminals m) (f (mx_opened m)) (mx_open_requests m) (mx_channels m) (mx_writer m).
Definition set_open_requests (c : option RequestChan) (m : Mux) : Mux :=
  mkMux (mx_terminals m) (mx_opened m) c (mx_channels m) (mx_writer m).
Definition set_event_channels (f : gmap N EvChan → gmap N EvChan) (m : Mux) : Mux :=
  mkMux (mx_terminals m) (mx_opened m) (mx_open_requests m) (f (mx_channels m)) (mx_writer m).
Definition set_writer (f : list WsSend → list WsSend) (m : Mux) : Mux :=
  mkMux (mx_terminals m) (mx_opened m) (mx_open_requests m) (mx_channels m) (f (mx_writer m)).

Definition with_terminal_id (id : option Uuid) (h : Hosted) : Hosted :=
  mkHosted (ho_spec h) id (ho_events h) (ho_closing h).
(** [hosted.closing.get_or_insert(reason)] *)
Definition with_closing (reason : text) (h : Hosted) : Hosted :=
  mkHosted (ho_spec h) (ho_terminal_id h) (ho_events h) (Some (default reason (ho_closing h))).
Definition with_size (cols rows : N) (h : Hosted) : Hosted :=
  let s := ho_spec h in
  mkHosted (mkTerminalSpec (sp_local_ref s) (sp_label s) cols rows (sp_term s) (sp_in_reply_to s))
    (ho_terminal_id h) (ho_events h) (ho_closing h).

Definition WRITER_QUEUE : N := 256.
Definition WRITER_RESERVE : N := 32.

(** The order in which the map of terminals is iterated. *)
Class HashIter := {
  hash_iter : gmap text Hosted → list (text * Hosted);
  hash_iter_perm m : hash_iter m ≡ₚ map_to_list m;
}.
#[export] Instance map_iter : HashIter := {| hash_iter := map_to_list; hash_iter_perm m := Permutation_refl _ |}.

(** [v.clamp(1, u16::MAX as u32) as u16] *)
Definition clamp_size (v : N) : N := N.max 1 (N.min v 65535).

(** [for x in l { … }] *)
Fixpoint for_each {A} (l : list A) (f : A → MuxM ()) : MuxM () :=
  match l with [] => mret () | x :: l => _ ← f x; for_each l f end.

(** ** Sending *)

(** [writer.send(message).await]: it waits for room. *)
Definition mux_write (w : WsSend) : MuxM () := st_modify (set_writer (λ l, l ++ [w])).

Inductive TrySend := SentOk | SentClosed | SentFull.

(** [hosted.events.try_send(event)] *)
Definition try_send (loc : N) (event : Event) : MuxM TrySend := λ m,
  match mx_channels m !! loc with
  | Some c =>
      if negb (ec_rx_open c) then (SentClosed, m)
      else if ec_capacity c <=? len (ec_queue c) then (SentFull, m)
      else (SentOk, set_event_channels
                      (insert loc (mkEvChan (ec_queue c ++ [event]) (ec_capacity c) true)) m)
  | None => (SentClosed, m)
  end.

Definition deliver_final (h : Hosted) (event : Event) : MuxM () :=
  _ ← try_send (ho_events h) event; mret ().

Definition mux_deliver (local_ref : text) (event : Event) : MuxM () :=
  terminals ← st_gets mx_terminals;
  match terminals !! local_ref with
  | None => mret ()
  | Some h =>
      sent ← try_send (ho_events h) event;
      match sent with
      | SentOk | SentClosed => mret ()
      | SentFull =>
          st_modify (set_terminals (alter (with_closing (lit "publisher_unresponsive")) local_ref))
      end
  end.

Section mux.
Context `{HashIter}.
Context (parse_server_message : text → option RelayMessage).

Definition local_ref_of (terminal_id : Uuid) (m : Mux) : option text :=
  sp_local_ref ∘ ho_spec ∘ snd <$>
    head (filter (λ '(_, h), ho_terminal_id h = Some terminal_id) (hash_iter (mx_terminals m))).

Definition deliver_to (terminal_id : Uuid) (event : Event) : MuxM () :=
  local_ref ← st_gets (local_ref_of terminal_id);
  match local_ref with
  | None => mret ()
  | Some local_ref => mux_deliver local_ref event
  end.

Definition end_all (reason : text) : MuxM () :=
  terminals ← st_gets mx_terminals;
  _ ← st_modify (set_terminals (λ _, ∅));
  for_each (hash_iter terminals) (λ '(_, h), deliver_final h (EvEnded reason)).

Definition mux_idle (m : Mux) : bool := bool_decide (mx_terminals m = ∅).

Definition new_hosted (spec : TerminalSpec) (events : N) : Hosted := mkHosted spec None events None.

(** A control message that arrives while there is no connection. *)
Definition stash (control : Control) : MuxM () :=
  match control with
  | CtOpen spec events => st_modify (set_terminals (insert (sp_local_ref spec) (new_hosted spec events)))
  | CtResize local_ref cols rows => st_modify (set_terminals (alter (with_size cols rows) local_ref))
  | CtClose local_ref reason =>
      terminals ← st_gets mx_terminals;
      match terminals !! local_ref with
      | None => mret ()
      | Some h =>
          _ ← st_modify (set_terminals (alter (with_closing reason) local_ref));
          deliver_final h (EvEnded (lit "the terminal ended"))
      end
  | CtDecline _ _ | CtOutput _ _ _ => mret ()
  end.

(** ** Messages to the relay *)

Definition open_message (spec : TerminalSpec) : list (string * json) :=
  [("type", jstr "terminal.open"); ("request_id", JStr (sp_local_ref spec));
   ("local_ref", JStr (sp_local_ref spec)); ("label", JStr (sp_label spec));
   ("cols", jnat (sp_cols spec)); ("rows", jnat (sp_rows spec)); ("term", JStr (sp_term spec));
   ("accepts_input", JBool true)]%string.
Definition close_message (terminal_id : Uuid) (reason : text) : json :=
  JObj [("type", jstr "terminal.close"); ("terminal_id", jnat terminal_id); ("reason", JStr reason)]%string.
Definition resize_message (terminal_id : Uuid) (cols rows : N) : json :=
  JObj [("type", jstr "terminal.resize"); ("terminal_id", jnat terminal_id);
        ("cols", jnat cols); ("rows", jnat rows)]%string.
Definition declined_message (request_id : text) (reason : string) : json :=
  JObj [("type", jstr "terminal.open_declined"); ("in_reply_to", JStr request_id);
        ("reason", jstr reason)]%string.
Definition capabilities_message : json :=
  JObj [("type", jstr "publisher.capabilities"); ("optional", JBool true);
        ("terminal_open_requests", JBool true)]%string.
Definition pong_message (at_unix_ms : Z) : json :=
  JObj [("type", jstr "pong"); ("at_unix_ms", JNum at_unix_ms)]%string.

Definition send_open (local_ref : text) : MuxM () :=
  terminals ← st_gets mx_terminals;
  match terminals !! local_ref with
  | None => mret ()
  | Some h =>
      let open := open_message (ho_spec h) in
      match sp_in_reply_to (ho_spec h), ho_terminal_id h with
      | Some request_id, None => mux_write (WText (JObj (field_insert "in_reply_to" (JStr request_id) open)))
      | _, _ => mux_write (WText (JObj open))
      end
  end.

Definition is_finished (h : Hosted) : bool :=
  bool_decide (is_Some (ho_closing h)) && bool_decide (is_Some (ho_terminal_id h)).

Definition close_one (local_ref : text) : MuxM () :=
  terminals ← st_gets mx_terminals;
  match terminals !! local_ref with
  | None => mret ()
  | Some h =>
      _ ← st_modify (set_terminals (delete local_ref));
      _ ← match ho_terminal_id h with
          | Some terminal_id =>
              mux_write (WText (close_message terminal_id (default (lit "closed") (ho_closing h))))
          | None => mret ()
          end;
      deliver_final h (EvEnded (lit "the terminal ended"))
  end.
Definition close_finished : MuxM () :=
  terminals ← st_gets mx_terminals;
  for_each (fst <$> filter (λ '(_, h), is_finished h = true) (hash_iter terminals)) close_one.

Definition sweep_orphans (previously_open : list Uuid) : MuxM () :=
  for_each previously_open (λ orphan,
    opened ← st_gets mx_opened;
    if bool_decide (orphan ∈ opened) then mret ()
    else mux_write (WText (close_message orphan (lit "publisher_replaced")))).

(** ** What the local side asks *)

Fixpoint write_slices (terminal_id : Uuid) (offset : N) (slices : list (list byte)) : MuxM () :=
  match slices with
  | [] => mret ()
  | slice :: rest =>
      _ ← mux_write (WBinary (encode_output_frame terminal_id offset slice));
      write_slices terminal_id (offset +₆₄ len slice) rest
  end.

Definition limit_reached_text (max_terminals : N) : text :=
  lit "this machine already has the relay's limit of " ++ num max_terminals ++ lit " terminals open".

(** [events.try_send] of a refused open: its owner holds the other end. *)
Definition refuse_open (events : N) (reason : text) : MuxM () :=
  _ ← try_send events (EvEnded reason); mret ().

Definition mux_control (message : Control) (limits : Limits) (max_terminals : N) : MuxM () :=
  terminals ← st_gets mx_terminals;
  match message with
  | CtOpen spec events =>
      if max_terminals <=? N.of_nat (size terminals) then refuse_open events (limit_reached_text max_terminals)
      else if bool_decide (is_Some (terminals !! sp_local_ref spec)) then
        refuse_open events (lit "that terminal reference is already in use")
      else
        _ ← st_modify (set_terminals (insert (sp_local_ref spec) (new_hosted spec events)));
        send_open (sp_local_ref spec)
  | CtOutput local_ref start_offset bytes =>
      match terminals !! local_ref ≫= ho_terminal_id with
      | None => mret ()
      | Some terminal_id =>
          write_slices terminal_id start_offset (chunks (lm_max_output_frame_bytes limits) bytes)
      end
  | CtResize local_ref cols rows =>
      match terminals !! local_ref with
      | None => mret ()
      | Some h =>
          _ ← st_modify (set_terminals (alter (with_size cols rows) local_ref));
          match ho_terminal_id h with
          | Some terminal_id => mux_write (WText (resize_message terminal_id cols rows))
          | None => mret ()
          end
      end
  | CtClose local_ref reason =>
      _ ← st_modify (set_terminals (alter (with_closing reason) local_ref));
      mux_deliver local_ref (EvEnded (lit "the terminal ended"))
  | CtDecline request_id reason => mux_write (WText (declined_message request_id reason))
  end.

(** ** What the relay says *)

(** [sender.try_send(OpenRequest { … })] *)
Definition offer_request (r : RemoteRequest) (c : RequestChan) : bool * RequestChan :=
  if rc_rx_open c && (len (rc_queue c) <? rc_capacity c)
  then (true, mkRequestChan (rc_queue c ++ [r]) (rc_capacity c) true)
  else (false, c).

Definition on_open_request (allow_remote_open : bool) (request_id : text) (label : option text)
    (cols rows : option N) : MuxM () :=
  requests ← st_gets mx_open_requests;
  refusal ←
    (if negb allow_remote_open then mret (Some "not_permitted"%string)
     else match requests with
          | Some c =>
              let '(taken, c') :=
                offer_request (mkRemoteRequest request_id label (clamp_size <$> cols) (clamp_size <$> rows)) c in
              _ ← st_modify (set_open_requests (Some c'));
              mret (if taken then None else Some "busy"%string)
          | None => mret (Some "unsupported"%string)
          end);
  match (refusal : option string) with
  | Some reason => mux_write (WText (declined_message request_id reason))
  | None => mret ()
  end.

(** The terminal an error names, if this connection still hosts it. *)
Definition error_target (terminal_id : option Uuid) (request_id : option text) (m : Mux) : option text :=
  match terminal_id ≫= (λ id, local_ref_of id m) with
  | Some local_ref => Some local_ref
  | None => request_id ≫= (λ id, if bool_decide (is_Some (mx_terminals m !! id)) then Some id else None)
  end.

Definition on_terminal_error (code message : text) (terminal_id : option Uuid) (request_id : option text)
    (authoritative : option N) : MuxM bool :=
  target ← st_gets (error_target terminal_id request_id);
  terminals ← st_gets mx_terminals;
  match target with
  | None => mret (bool_decide (is_Some terminal_id) || bool_decide (is_Some request_id))
  | Some local_ref =>
      match (if bool_decide (code = lit "offset_mismatch") then authoritative else None),
            terminals !! local_ref with
      | Some next_offset, Some h =>
          _ ← try_send (ho_events h) (EvMismatch next_offset); mret true
      | _, None => mret true
      | None, Some h =>
          _ ← st_modify (set_terminals (delete local_ref));
          _ ← match ho_terminal_id h with
              | Some id => mux_write (WText (close_message id (lit "publisher_error")))
              | None => mret ()
              end;
          _ ← deliver_final h (EvEnded (code ++ lit ": " ++ message));
          mret true
      end
  end.

Definition superseded_text : text :=
  lit "another publisher on this machine took over; only one may publish at a time".

Definition on_relay_message (message : RelayMessage) (limits : Limits) (allow_remote_open : bool)
    : MuxM (result SessionError (option text)) :=
  match message with
  | RmTerminalOpened request_id terminal_id next_offset _ _ =>
      terminals ← st_gets mx_terminals;
      match terminals !! request_id with
      | Some _ =>
          _ ← st_modify (set_terminals (alter (with_terminal_id (Some terminal_id)) request_id));
          _ ← st_modify (set_opened (λ l, l ++ [terminal_id]));
          _ ← mux_deliver request_id (EvAttached terminal_id next_offset limits);
          mret (Ok None)
      | None => mret (Ok None)
      end
  | RmOutputAck terminal_id durable_offset _ =>
      _ ← deliver_to terminal_id (EvAck durable_offset); mret (Ok None)
  | RmTerminalOpenRequest request_id label cols rows =>
      _ ← on_open_request allow_remote_open request_id label cols rows; mret (Ok None)
  | RmTerminalResizeRequest terminal_id cols rows =>
      _ ← deliver_to terminal_id (EvResizeRequest (clamp_size cols) (clamp_size rows)); mret (Ok None)
  | RmTerminalClosed terminal_id reason =>
      target ← st_gets (local_ref_of terminal_id);
      terminals ← st_gets mx_terminals;
      match target ≫= (λ local_ref, (local_ref,.) <$> terminals !! local_ref) with
      | Some (local_ref, h) =>
          _ ← st_modify (set_terminals (delete local_ref));
          _ ← deliver_final h (EvEnded (lit "the relay closed the terminal: " ++ reason));
          mret (Ok None)
      | None => mret (Ok None)
      end
  | RmError code message terminal_id request_id next_offset _ =>
      if bool_decide (code = lit "superseded") then mret (Ok (Some superseded_text))
      else
        handled ← on_terminal_error code message terminal_id request_id next_offset;
        mret (if (handled : bool) then Ok None else Err (Refused (code ++ lit ": " ++ message)))
  | RmPing at_unix_ms => _ ← mux_write (WText (pong_message at_unix_ms)); mret (Ok None)
  | RmReady _ _ | RmNotice _ _ | RmUnrecognised => mret (Ok None)
  end.

(** [on_frame]; [Ok (Some reason)] is the end of the connection for good. *)
Definition on_frame (frame : WsFrame) (limits : Limits) (allow_remote_open : bool)
    : MuxM (result SessionError (option text)) :=
  match frame with
  | FText txt =>
      match parse_server_message txt with
      | Some message => on_relay_message message limits allow_remote_open
      | None => mret (Ok None)
      end
  | FBinary bytes =>
      match decode_input_frame bytes with
      | Ok input => _ ← deliver_to (if_terminal_id input) (EvInput (if_payload input)); mret (Ok None)
      | Err _ => mret (Ok None)
      end
  | FPing payload => _ ← mux_write (WPong payload); mret (Ok None)
  | FPong _ => mret (Ok None)
  | FClose => mret (Err (SessionClosed (lit "the relay closed the socket")))
  | FFailed detail => mret (Err (SessionClosed detail))
  end.

(** ** One connection *)

(** What can happen in one turn: a frame, a control message with the writer's
    free capacity, the sweep's deadline, and what the other ends of the
    channels do meanwhile. *)
Inductive SessEvent :=
| SeFrame (frame : option WsFrame)
| SeControl (message : option Control) (capacity : N)
| SeSweep
| SeOwnerTakes (loc : N)
| SeOwnerGone (loc : N)
| SeRequestTaken
| SeRequestsGone.

Definition owner_takes (loc : N) : Mux → Mux :=
  set_event_channels (alter (λ c, mkEvChan (tail (ec_queue c)) (ec_capacity c) (ec_rx_open c)) loc).
Definition owner_gone (loc : N) : Mux → Mux :=
  set_event_channels (alter (λ c, mkEvChan (ec_queue c) (ec_capacity c) false) loc).
Definition request_taken (m : Mux) : Mux :=
  set_open_requests ((λ c, mkRequestChan (tail (rc_queue c)) (rc_capacity c) (rc_rx_open c)) <$> mx_open_requests m) m.
Definition requests_gone (m : Mux) : Mux :=
  set_open_requests ((λ c, mkRequestChan (rc_queue c) (rc_capacity c) false) <$> mx_open_requests m) m.

Record SessionParams := mkSessionParams {
  pr_limits : Limits;
  pr_max_terminals : N;
  pr_previously_open : list Uuid;
  pr_allow_remote_open : bool;
}.

(** The loop; [None] is a connection still up when the events run out. *)
Fixpoint session_loop (p : SessionParams) (accepting sweep_pending : bool) (events : list SessEvent)
    : MuxM (option (result SessionError text)) :=
  _ ← close_finished;
  idle ← st_gets mux_idle;
  if idle && negb accepting then mret (Some (Ok (lit "the last terminal ended")))
  else
    match events with
    | [] => mret None
    | SeFrame None :: _ => mret (Some (Err (SessionClosed (lit "the relay hung up"))))
    | SeFrame (Some frame) :: rest =>
        r ← on_frame frame (pr_limits p) (pr_allow_remote_open p);
        match (r : result SessionError (option text)) with
        | Err e => mret (Some (Err e))
        | Ok (Some reason) => mret (Some (Ok reason))
        | Ok None => session_loop p accepting sweep_pending rest
        end
    | SeControl message capacity :: rest =>
        if accepting && (WRITER_RESERVE <? capacity) then
          match message with
          | Some message =>
              _ ← mux_control message (pr_limits p) (pr_max_terminals p);
              session_loop p accepting sweep_pending rest
          | None => session_loop p false sweep_pending rest
          end
        else session_loop p accepting sweep_pending rest
    | SeSweep :: rest =>
        if sweep_pending then
          _ ← sweep_orphans (pr_previously_open p); session_loop p accepting false rest
        else session_loop p accepting sweep_pending rest
    | SeOwnerTakes loc :: rest => _ ← st_modify (owner_takes loc); session_loop p accepting sweep_pending rest
    | SeOwnerGone loc :: rest => _ ← st_modify (owner_gone loc); session_loop p accepting sweep_pending rest
    | SeRequestTaken :: rest => _ ← st_modify request_taken; session_loop p accepting sweep_pending rest
    | SeRequestsGone :: rest => _ ← st_modify requests_gone; session_loop p accepting sweep_pending rest
    end.

Definition run_connection (p : SessionParams) (events : list SessEvent)
    : MuxM (option (result SessionError text)) :=
  terminals ← st_gets mx_terminals;
  _ ← for_each (fst <$> hash_iter terminals) send_open;
  session_loop p true (negb (is_empty (pr_previously_open p))) events.

(** The wait for [ready]; [None] while it has not come. *)
Fixpoint await_ready (frames : list (option WsFrame)) : option (result SessionError RelayLimits) :=
  match frames with
  | [] => None
  | None :: _ => Some (Err (SessionClosed (lit "the relay hung up")))
  | Some (FFailed detail) :: _ => Some (Err (SessionClosed detail))
  | Some FClose :: _ => Some (Err (SessionClosed (lit "the relay closed the socket")))
  | Some (FText txt) :: rest =>
      match parse_server_message txt with
      | Some (RmReady _ limits) => Some (Ok limits)
      | Some (RmError code message _ _ _ _) => Some (Err (Refused (code ++ lit ": " ++ message)))
      | _ => await_ready rest
      end
  | Some _ :: rest => await_ready rest
  end.

Definition SUBPROTOCOL_V2 : text := lit "terminal-relay.publisher.v2".

(** What dialling the relay came to: the subprotocol it chose, what it lists
    as open for this device, and the frames up to [ready]. *)
Record Dialled := mkDialled {
  di_negotiated : text;
  di_previously_open : list Uuid;
  di_frames : list (option WsFrame);
}.

Definition negotiated_limits (limits : RelayLimits) : Limits :=
  mkLimits (N.max (rl_max_output_frame_bytes limits) 1024)
           (N.max (rl_max_unacked_output_bytes limits) (64 * 1024)).
Definition max_terminals (limits : RelayLimits) : N :=
  if rl_max_active_terminals limits =? 0 then two64 - 1 else rl_max_active_terminals limits.

(** [debug] is [{negotiated:?}]. *)
Definition connect_and_publish (debug : text → text) (allow_remote_open : bool)
    (dialled : result SessionError Dialled) (events : list SessEvent)
    : MuxM (option (result SessionError text)) :=
  match dialled with
  | Err e => mret (Some (Err e))
  | Ok d =>
      if negb (bool_decide (di_negotiated d = SUBPROTOCOL_V2)) then
        mret (Some (Err (Refused (lit "the relay selected " ++ debug (di_negotiated d)
                                  ++ lit ", which cannot carry terminal input"))))
      else
        _ ← st_modify (set_writer (λ _, []));
        match await_ready (di_frames d) with
        | None => mret None
        | Some (Err e) => mret (Some (Err e))
        | Some (Ok limits) =>
            _ ← (if allow_remote_open : bool then mux_write (WText capabilities_message) else mret ());
            run_connection (mkSessionParams (negotiated_limits limits) (max_terminals limits)
                              (di_previously_open d) allow_remote_open) events
        end
  end.

(** ** Across connections *)

Definition retry_delay_ms (attempt : N) : N := N.min (N.shiftl 500 (N.min attempt 6)) 30000.

Definition on_disconnect : MuxM () :=
  terminals ← st_gets mx_terminals;
  _ ← for_each (hash_iter terminals) (λ '(_, h),
        _ ← try_send (ho_events h) EvDetached; mret ());
  _ ← st_modify (set_terminals (fmap (with_terminal_id None)));
  st_modify (set_opened (λ _, [])).

(** The wait before the next attempt: what arrives on the control channel; the
    answer is whether it closed. *)
Fixpoint stash_all (received : list (option Control)) : MuxM bool :=
  match received with
  | [] => mret false
  | Some control :: rest => _ ← stash control; stash_all rest
  | None :: _ => mret true
  end.

(** One attempt: how dialling went, what happened on the connection, what
    arrived while waiting to try again. *)
Record Round := mkRound {
  rd_dialled : result SessionError Dialled;
  rd_events : list SessEvent;
  rd_waiting : list (option Control);
}.

(** The wait after a failed attempt; the answer ends the session. *)
Definition wait_to_retry (received : list (option Control)) : MuxM (option text) :=
  _ ← on_disconnect;
  closed ← stash_all received;
  _ ← st_modify (set_terminals (filter (λ '(_, h), ho_closing h = None)));
  idle ← st_gets mux_idle;
  mret (if (closed : bool) && idle then Some (lit "the last terminal ended") else None).

(** [maintain]: the delays waited and the reason it ended, [None] while the
    session goes on. *)
Fixpoint maintain (debug : text → text) (allow_remote_open : bool) (attempt : N) (rounds : list Round)
    : MuxM (list N * option text) :=
  match rounds with
  | [] => mret ([], None)
  | r :: rest =>
      outcome ← connect_and_publish debug allow_remote_open (rd_dialled r) (rd_events r);
      match (outcome : option (result SessionError text)) with
      | None => mret ([], None)
      | Some (Ok reason) => mret ([], Some reason)
      | Some (Err _) =>
          let attempt := N.min (attempt + 1) (two32 - 1) in
          let delay := retry_delay_ms attempt in
          ended ← wait_to_retry (rd_waiting r);
          match (ended : option text) with
          | Some reason => mret ([delay], Some reason)
          | None =>
              later ← maintain debug allow_remote_open attempt rest;
              let '(delays, ended) := (later : list N * option text) in
              mret (delay :: delays, ended)
          end
      end
  end.

Definition mux_new : Mux := mkMux ∅ [] (Some (mkRequestChan [] 8 true)) ∅ [].

(** The task [start] spawns. *)
Definition session_task (debug : text → text) (allow_remote_open : bool) (rounds : list Round)
    : MuxM (option text) :=
  session ← maintain debug allow_remote_open 0 rounds;
  match (session : list N * option text).2 with
  | Some reason => _ ← end_all reason; mret (Some reason)
  | None => mret None
  end.
End mux.

(** ** The handles on the connection *)

(** The control channel: what is queued, whether the connection still reads,
    and the closes handed to a task of their own because the channel was full. *)
Record ControlChan := mkControlChan {
  cc_queue : list Control;
  cc_capacity : N;
  cc_rx_open : bool;
  cc_spawned : list Control;
}.
Abbreviation ControlM := (StM ControlChan).

(** [control.send(message).await]: it waits for room, and fails when nobody
    reads any more. *)
Definition control_send (message : Control) : ControlM bool := λ c,
  if cc_rx_open c then
    (true, mkControlChan (cc_queue c ++ [message]) (cc_capacity c) true (cc_spawned c))
  else (false, c).

Record TerminalSink := mkTerminalSink {
  tk_local_ref : text;
  (** [control] is cleared by [begin_shutdown]. *)
  tk_open : bool;
}.

(** [Link::open]; [events] is the channel it creates. *)
Definition link_open (spec : TerminalSpec) (events : N) : ControlM (option TerminalSink) :=
  sent ← control_send (CtOpen spec events);
  mret (if (sent : bool) then Some (mkTerminalSink (sp_local_ref spec) true) else None).

Definition link_decline (request_id : text) (reason : string) : ControlM () :=
  _ ← control_send (CtDecline request_id reason); mret ().

Definition sink_publish (start_offset : N) (bytes : list byte) (sink : TerminalSink) : ControlM bool :=
  if is_empty bytes then mret true
  else if negb (tk_open sink) then mret false
  else control_send (CtOutput (tk_local_ref sink) start_offset bytes).

Definition sink_resize (cols rows : N) (sink : TerminalSink) : ControlM bool :=
  if negb (tk_open sink) then mret false
  else control_send (CtResize (tk_local_ref sink) cols rows).

(** [begin_shutdown], which [Drop] calls too; [runtime] is whether a task can
    be spawned where it is called. *)
Definition sink_begin_shutdown (runtime : bool) (sink : TerminalSink) : ControlM TerminalSink := λ c,
  if negb (tk_open sink) then (sink, c)
  else
    let close := CtClose (tk_local_ref sink) (lit "process_exited") in
    let sink := mkTerminalSink (tk_local_ref sink) false in
    if negb (cc_rx_open c) then (sink, c)
    else if len (cc_queue c) <? cc_capacity c then
      (sink, mkControlChan (cc_queue c ++ [close]) (cc_capacity c) true (cc_spawned c))
    else
      (sink, if runtime then mkControlChan (cc_queue c) (cc_capacity c) true (cc_spawned c ++ [close]) else c).

(** ** The address *)

(** [base.trim_end_matches('/')] *)
Fixpoint drop_slashes (t : text) : text :=
  match t with
  | c :: t' => if c =? 47 then drop_slashes t' else t
  | [] => []
  end.
Definition trim_end_slashes (t : text) : text := reverse (drop_slashes (reverse t)).
(** [str::strip_prefix] *)
Fixpoint strip_prefix (p t : text) : option text :=
  match p, t with
  | [], _ => Some t
  | a :: p, b :: t => if a =? b then strip_prefix p t else None
  | _ :: _, [] => None
  end.
Definition websocket_url (base device_id : text) : text :=
  let base := trim_end_slashes base in
  let swapped :=
    match strip_prefix (lit "https://") base with
    | Some rest => lit "wss://" ++ rest
    | None =>
        match strip_prefix (lit "http://") base with
        | Some rest => lit "ws://" ++ rest
        | None => base
        end
    end in
  swapped ++ lit "/v1/devices/" ++ device_id ++ lit "/relay".
