(* ===== verification/MultiplexerProps.v ===== *)
(** * What the multiplexer promises each terminal

    Nothing that arrives for one terminal disturbs another; output goes out
    under the identifier the relay assigned, at its place, in frames the relay
    accepts; a terminal the relay opened is closed there when its owner has
    gone; a request for a shell gets through only where the machine's owner
    allowed it; the session ends only when nothing is left or another
    publisher took over. *)

From S2P Require Export Multiplexer.

Open Scope N_scope.
Open Scope hype_scope.

(** ** Helpers *)

Section binds.
Context {A : Type} (m : Mux).
Lemma mux_bind_write w (k : () → MuxM A) : (mux_write w ≫= k) m = k () (set_writer (λ l, l ++ [w]) m).
Proof. done. Qed.
End binds.
#[export] Hint Rewrite @mux_bind_write : stm.

(** One attempt at a channel. *)
Lemma try_send_inv loc e m r m' :
  try_send loc e m = (r, m') →
  ∃ cs, m' = set_event_channels (λ _, cs) m
    ∧ (∀ l, l ≠ loc → cs !! l = mx_channels m !! l)
    ∧ match r with
      | SentOk => ∃ c, mx_channels m !! loc = Some c ∧ ec_rx_open c = true
          ∧ len (ec_queue c) < ec_capacity c
          ∧ cs !! loc = Some (mkEvChan (ec_queue c ++ [e]) (ec_capacity c) true)
      | SentFull => cs = mx_channels m ∧ ∃ c, mx_channels m !! loc = Some c ∧ ec_rx_open c = true
          ∧ ec_capacity c ≤ len (ec_queue c)
      | SentClosed => cs = mx_channels m ∧ ∀ c, mx_channels m !! loc = Some c → ec_rx_open c = false
      end.
Proof.
  assert (m = set_event_channels (λ _, mx_channels m) m) as Hm by by destruct m.
  unfold try_send. destruct (mx_channels m !! loc) as [c|] eqn:Hc.
  - destruct (ec_rx_open c) eqn:Ho; cbn [negb].
    + case_N; intros [= <- <-].
      * exists (mx_channels m). split_and!; [done|done|done|by exists c].
      * eexists. split_and!; [done| |].
        -- intros l Hl. by rewrite lookup_insert_ne.
        -- exists c. split_and!; [done..|]. by rewrite lookup_insert_eq.
    + intros [= <- <-]. exists (mx_channels m). split_and!; [done..|]. by intros ? [= <-].
  - intros [= <- <-]. exists (mx_channels m). by split_and!.
Qed.

(** ** Well-formed states *)

(** Terminals are filed under their reference, and no two of them share a
    channel. *)
Definition keyed (m : Mux) : Prop := ∀ k h, mx_terminals m !! k = Some h → sp_local_ref (ho_spec h) = k.
Record mux_ok (m : Mux) : Prop := mkMuxOk {
  mo_key : keyed m;
  mo_events k1 k2 h1 h2 : mx_terminals m !! k1 = Some h1 → mx_terminals m !! k2 = Some h2 →
    ho_events h1 = ho_events h2 → k1 = k2;
}.

(** What a step that concerns at most the terminal [lr] leaves alone. *)
Record concerns (lr : option text) (m m' : Mux) : Prop := mkConcerns {
  cc_ok : mux_ok m → mux_ok m';
  cc_others k h : mux_ok m → mx_terminals m !! k = Some h → lr ≠ Some k →
    mx_terminals m' !! k = Some h ∧ mx_channels m' !! ho_events h = mx_channels m !! ho_events h;
}.

Lemma concerns_refl lr m : concerns lr m m.
Proof. by split. Qed.
Lemma concerns_trans lr m1 m2 m3 : concerns lr m1 m2 → concerns lr m2 m3 → concerns lr m1 m3.
Proof.
  intros [H1 H2] [H3 H4]. split; [auto|]. intros k h Hok Hk Hne.
  destruct (H2 k h Hok Hk Hne) as [Ht Hc]. destruct (H4 k h (H1 Hok) Ht Hne) as [Ht' Hc'].
  split; [done|]. by rewrite Hc'.
Qed.
(** Every entry of the new table is one of the old, its reference and channel
    kept. *)
Definition derived (ts ts' : gmap text Hosted) : Prop :=
  ∀ k h', ts' !! k = Some h' → ∃ h, ts !! k = Some h
    ∧ ho_events h' = ho_events h ∧ sp_local_ref (ho_spec h') = sp_local_ref (ho_spec h).

Lemma derived_refl ts : derived ts ts.
Proof. intros k h Hk. by exists h. Qed.
Lemma derived_delete ts k : derived ts (delete k ts).
Proof. intros k' h [_ Hk]%lookup_delete_Some. by exists h. Qed.
Lemma derived_alter ts k f :
  (∀ h, ho_events (f h) = ho_events h ∧ sp_local_ref (ho_spec (f h)) = sp_local_ref (ho_spec h)) →
  derived ts (alter f k ts).
Proof.
  intros Hf k' h'. rewrite lookup_alter. case_decide; [subst|intros Hk; by exists h'].
  intros (h & Hk & ->)%fmap_Some. exists h. split; [done|apply Hf].
Qed.

Lemma mux_ok_derived m m' : derived (mx_terminals m) (mx_terminals m') → mux_ok m → mux_ok m'.
Proof.
  intros Hd [Hk He]. split.
  - intros k h (h0 & Hh & _ & ->)%Hd. by apply Hk.
  - intros k1 k2 h1 h2 (h1' & H1 & -> & _)%Hd (h2' & H2 & -> & _)%Hd. by eapply He.
Qed.

Lemma concerns_step lr m m' :
  derived (mx_terminals m) (mx_terminals m') →
  (∀ k, lr ≠ Some k → mx_terminals m' !! k = mx_terminals m !! k) →
  (∀ k h, mux_ok m → mx_terminals m !! k = Some h → lr ≠ Some k →
     mx_channels m' !! ho_events h = mx_channels m !! ho_events h) →
  concerns lr m m'.
Proof.
  intros Hd Ht Hc. split; [by apply mux_ok_derived|]. intros k h Hok Hk Hne. split; [by rewrite Ht|by apply (Hc k)].
Qed.

Lemma concerns_writer lr m f : concerns lr m (set_writer f m).
Proof. apply concerns_step; [apply derived_refl|done|done]. Qed.
Lemma concerns_opened lr m f : concerns lr m (set_opened f m).
Proof. apply concerns_step; [apply derived_refl|done|done]. Qed.
Lemma concerns_requests lr m c : concerns lr m (set_open_requests c m).
Proof. apply concerns_step; [apply derived_refl|done|done]. Qed.
Lemma concerns_delete k m : concerns (Some k) m (set_terminals (delete k) m).
Proof.
  apply concerns_step; [apply derived_delete| |done].
  intros k' Hk. cbn. rewrite lookup_delete_ne; [done|congruence].
Qed.
Lemma concerns_alter k f m :
  (∀ h, ho_events (f h) = ho_events h ∧ sp_local_ref (ho_spec (f h)) = sp_local_ref (ho_spec h)) →
  concerns (Some k) m (set_terminals (alter f k) m).
Proof.
  intros Hf. apply concerns_step; [by apply derived_alter| |done].
  intros k' Hk. cbn. rewrite lookup_alter_ne; [done|congruence].
Qed.
Lemma concerns_try_send k h e m r m' :
  mx_terminals m !! k = Some h → try_send (ho_events h) e m = (r, m') → concerns (Some k) m m'.
Proof.
  intros Hk (cs & -> & Hcs & _)%try_send_inv. apply concerns_step; [apply derived_refl|done|].
  intros k' h' Hok Hk' Hne. apply Hcs. intros Heq. apply Hne. f_equal. symmetry. by eapply (mo_events m Hok).
Qed.

Lemma concerns_deliver k e m r m' : mux_deliver k e m = (r, m') → concerns (Some k) m m'.
Proof.
  unfold mux_deliver. autorewrite with stm. destruct (mx_terminals m !! k) as [h|] eqn:Hk;
    [|intros [= _ <-]; apply concerns_refl].
  rewrite st_bind. destruct (try_send (ho_events h) e m) as [sent m1] eqn:E.
  apply (concerns_try_send k) in E; [|done]. destruct sent; intros [= _ <-]; [done|done|].
  eapply concerns_trans; [exact E|]. by apply concerns_alter.
Qed.
Lemma concerns_final k h e m r m' :
  (mx_terminals m !! k = Some h ∨ (mx_terminals m !! k = None ∧ ∀ k' h', mx_terminals m !! k' = Some h' → ho_events h' ≠ ho_events h)) →
  deliver_final h e m = (r, m') → concerns (Some k) m m'.
Proof.
  intros Hk. unfold deliver_final. rewrite st_bind. destruct (try_send (ho_events h) e m) as [sent m1] eqn:E.
  intros [= _ <-]. destruct Hk as [Hk|[Hk Hd]]; [by eapply concerns_try_send|].
  apply try_send_inv in E as (cs & -> & Hcs & _). apply concerns_step; [apply derived_refl|done|].
  intros k' h' _ Hk' _. by apply Hcs, (Hd k').
Qed.

(** Taking a terminal out of the table, telling the relay and its owner. *)
Lemma concerns_drop k h ws e m r m' :
  mx_terminals m !! k = Some h →
  deliver_final h e (set_writer (λ l, l ++ ws) (set_terminals (delete k) m)) = (r, m') →
  concerns (Some k) m m'.
Proof.
  intros Hk. unfold deliver_final. rewrite st_bind.
  destruct (try_send _ _ _) as [sent m1] eqn:E. intros [= _ <-].
  apply try_send_inv in E as (cs & -> & Hcs & _). apply concerns_step; [apply derived_delete| |].
  - intros k' Hne. cbn. rewrite lookup_delete_ne; [done|congruence].
  - intros k' h' Hok Hk' Hne. apply Hcs. intros Heq. apply Hne. f_equal. symmetry. by eapply (mo_events m Hok).
Qed.

Lemma writer_same m : set_writer (λ l, l ++ []) m = m.
Proof. destruct m as [???? wr]. unfold set_writer. cbn. by rewrite app_nil_r. Qed.

Section routing.
Context `{HashIter}.

Lemma hash_iter_elem m k h : (k, h) ∈ hash_iter m ↔ m !! k = Some h.
Proof. rewrite hash_iter_perm. apply elem_of_map_to_list. Qed.

(** Whoever is found holds the identifier. *)
Lemma local_ref_of_Some m id k :
  keyed m → local_ref_of id m = Some k → ∃ h, mx_terminals m !! k = Some h ∧ ho_terminal_id h = Some id.
Proof.
  intros Hok. unfold local_ref_of. intros ([k0 h] & Hhd & ->)%fmap_Some.
  apply head_Some_elem_of, list_elem_of_filter in Hhd as [Hid Hin%hash_iter_elem].
  exists h. cbn. by rewrite (Hok k0 h Hin).
Qed.

Lemma local_ref_of_None m id k h :
  local_ref_of id m = None → mx_terminals m !! k = Some h → ho_terminal_id h ≠ Some id.
Proof.
  unfold local_ref_of. intros Hn%fmap_None Hk Hid.
  assert ((k, h) ∈ filter (λ '(_, h), ho_terminal_id h = Some id) (hash_iter (mx_terminals m))) as Hin.
  { apply list_elem_of_filter. split; [done|]. by apply hash_iter_elem. }
  destruct (filter _ _); [by apply not_elem_of_nil in Hin|done].
Qed.

(** The relay gives different terminals different identifiers. *)
Definition ids_distinct (m : Mux) : Prop :=
  ∀ k1 k2 h1 h2 id, mx_terminals m !! k1 = Some h1 → mx_terminals m !! k2 = Some h2 →
    ho_terminal_id h1 = Some id → ho_terminal_id h2 = Some id → k1 = k2.

Lemma local_ref_of_owner m id k h :
  mux_ok m → ids_distinct m → mx_terminals m !! k = Some h → ho_terminal_id h = Some id →
  local_ref_of id m = Some k.
Proof.
  intros Hok Hd Hk Hid. destruct (local_ref_of id m) as [k'|] eqn:E.
  - destruct (local_ref_of_Some m id k' (mo_key m Hok) E) as (h' & Hk' & Hid'). f_equal. by eapply Hd.
  - by destruct (local_ref_of_None m id k h E Hk).
Qed.

Lemma concerns_deliver_to id e m r m' :
  deliver_to id e m = (r, m') → concerns (local_ref_of id m) m m'.
Proof.
  unfold deliver_to. autorewrite with stm. destruct (local_ref_of id m); [apply concerns_deliver|].
  intros [= _ <-]. apply concerns_refl.
Qed.

(** The terminal a message is about. *)
Definition message_target (message : RelayMessage) (m : Mux) : option text :=
  match message with
  | RmTerminalOpened request_id _ _ _ _ => Some request_id
  | RmOutputAck id _ _ | RmTerminalResizeRequest id _ _ | RmTerminalClosed id _ => local_ref_of id m
  | RmError _ _ terminal_id request_id _ _ => error_target terminal_id request_id m
  | _ => None
  end.

Lemma concerns_open_request allow id label cols rows m r m' :
  on_open_request allow id label cols rows m = (r, m') → concerns None m m'.
Proof.
  unfold on_open_request. autorewrite with stm. rewrite st_bind.
  destruct allow; cbn [negb]; [destruct (mx_open_requests m) as [c|]|].
  - destruct (offer_request _ c) as [[] c']; autorewrite with stm; cbn; intros [= _ <-].
    + apply concerns_requests.
    + eapply concerns_trans; [apply concerns_requests|apply concerns_writer].
  - intros [= _ <-]. apply concerns_writer.
  - intros [= _ <-]. apply concerns_writer.
Qed.

Lemma error_target_Some tid rid m k :
  mux_ok m → error_target tid rid m = Some k → ∃ h, mx_terminals m !! k = Some h.
Proof.
  unfold error_target. intros Hok. destruct (tid ≫= _) as [lr|] eqn:E.
  - intros [= ->]. destruct tid as [id|]; [|done]. cbn in E.
    destruct (local_ref_of_Some m id k (mo_key m Hok) E) as (h & ? & _). by exists h.
  - destruct rid as [id|]; [|done]. cbn. case_bool_decide as Hs; [|done]. intros [= <-]. exact Hs.
Qed.

Lemma concerns_terminal_error code message tid rid auth m r m' :
  on_terminal_error code message tid rid auth m = (r, m') → concerns (error_target tid rid m) m m'.
Proof.
  unfold on_terminal_error. autorewrite with stm.
  destruct (error_target tid rid m) as [k|]; [|intros [= _ <-]; apply concerns_refl].
  destruct (if bool_decide _ then auth else None) as [next|], (mx_terminals m !! k) as [h|] eqn:Hk.
  - rewrite st_bind. destruct (try_send _ _ _) as [sent m1] eqn:E. intros [= _ <-].
    by eapply concerns_try_send.
  - intros [= _ <-]. apply concerns_refl.
  - autorewrite with stm. destruct (ho_terminal_id h) as [id|]; autorewrite with stm;
      rewrite st_bind; destruct (deliver_final _ _ _) as [u m1] eqn:E; intros [= _ <-].
    + by eapply (concerns_drop k h [_]).
    + eapply (concerns_drop k h []); [done|]. by rewrite writer_same.
  - intros [= _ <-]. apply concerns_refl.
Qed.

Lemma concerns_relay_message message limits allow m r m' :
  mux_ok m → on_relay_message message limits allow m = (r, m') → concerns (message_target message m) m m'.
Proof.
  intros Hok. destruct message as [cid lim|rid id next dur acc|id dur next|rid label cols rows|id cols rows|id reason|code msg|code msg tid rid next dur|at_ms|];
    unfold on_relay_message; cbn [message_target].
  - intros [= _ <-]. apply concerns_refl.
  - autorewrite with stm. destruct (mx_terminals m !! rid) as [h|] eqn:Hk; [|intros [= _ <-]; apply concerns_refl].
    autorewrite with stm. rewrite st_bind. destruct (mux_deliver _ _ _) as [u m1] eqn:E. intros [= _ <-].
    eapply concerns_trans; [by apply (concerns_alter rid (with_terminal_id (Some id)))|].
    eapply concerns_trans; [apply concerns_opened|].
    by apply concerns_deliver in E.
  - rewrite st_bind. destruct (deliver_to _ _ _) as [u m1] eqn:E. intros [= _ <-]. by eapply concerns_deliver_to.
  - rewrite st_bind. destruct (on_open_request _ _ _ _ _ _) as [u m1] eqn:E. intros [= _ <-].
    by eapply concerns_open_request.
  - rewrite st_bind. destruct (deliver_to _ _ _) as [u m1] eqn:E. intros [= _ <-]. by eapply concerns_deliver_to.
  - autorewrite with stm. destruct (local_ref_of id m) as [k|]; cbn [mbind option_bind];
      [|intros [= _ <-]; apply concerns_refl].
    destruct (mx_terminals m !! k) as [h|] eqn:Hk; cbn [fmap option_fmap option_map];
      [|intros [= _ <-]; apply concerns_refl].
    autorewrite with stm. rewrite st_bind. destruct (deliver_final _ _ _) as [u m1] eqn:E. intros [= _ <-].
    eapply (concerns_drop k h []); [done|]. by rewrite writer_same.
  - intros [= _ <-]. apply concerns_refl.
  - case_bool_decide; [intros [= _ <-]; apply concerns_refl|].
    rewrite st_bind. destruct (on_terminal_error _ _ _ _ _ _) as [u m1] eqn:E. intros [= _ <-].
    by eapply concerns_terminal_error.
  - autorewrite with stm. intros [= _ <-]. apply concerns_writer.
  - intros [= _ <-]. apply concerns_refl.
Qed.
End routing.

(** ** One terminal and the others *)

Section frames.
Context `{HashIter}.
Context (parse_server_message : text → option RelayMessage).

Definition frame_target (frame : WsFrame) (m : Mux) : option text :=
  match frame with
  | FText txt => parse_server_message txt ≫= λ message, message_target message m
  | FBinary bytes =>
      match decode_input_frame bytes with Ok input => local_ref_of (if_terminal_id input) m | Err _ => None end
  | _ => None
  end.

(** The frames that are about the connection. *)
Definition ends_connection (frame : WsFrame) : bool :=
  match frame with
  | FClose | FFailed _ => true
  | FText txt =>
      match parse_server_message txt with
      | Some (RmError code _ terminal_id request_id _ _) =>
          bool_decide (code = lit "superseded") || (bool_decide (terminal_id = None) && bool_decide (request_id = None))
      | _ => false
      end
  | _ => false
  end.

Lemma terminal_error_names code message tid rid auth m :
  (on_terminal_error code message tid rid auth m).1 = negb (bool_decide (tid = None) && bool_decide (rid = None)).
Proof.
  unfold on_terminal_error. autorewrite with stm.
  assert (∀ k, error_target tid rid m = Some k → negb (bool_decide (tid = None) && bool_decide (rid = None)) = true) as Hn.
  { unfold error_target. intros k Hk. destruct tid; [done|]. by destruct rid. }
  destruct (error_target tid rid m) as [k|] eqn:E; [rewrite (Hn k eq_refl)|by destruct tid, rid].
  destruct (if bool_decide _ then auth else None), (mx_terminals m !! k) as [h|]; [|done| |done].
  - rewrite st_bind. by destruct (try_send _ _ _).
  - autorewrite with stm. destruct (ho_terminal_id h); autorewrite with stm; rewrite st_bind;
      by destruct (deliver_final _ _ _).
Qed.

Lemma relay_message_result message limits allow m :
  (on_relay_message message limits allow m).1 =
    match message with
    | RmError code msg tid rid _ _ =>
        if bool_decide (code = lit "superseded") then Ok (Some superseded_text)
        else if bool_decide (tid = None) && bool_decide (rid = None)
             then Err (Refused (code ++ lit ": " ++ msg)) else Ok None
    | _ => Ok None
    end.
Proof.
  destruct message as [cid lim|rid id next dur acc|id dur next|rid label cols rows|id cols rows|id reason|code msg|code msg tid rid next dur|at_ms|];
    unfold on_relay_message; autorewrite with stm; try done.
  - destruct (mx_terminals m !! rid); [|done]. autorewrite with stm. rewrite st_bind. by destruct (mux_deliver _ _ _).
  - rewrite st_bind. by destruct (deliver_to _ _ _).
  - rewrite st_bind. by destruct (on_open_request _ _ _ _ _ _).
  - rewrite st_bind. by destruct (deliver_to _ _ _).
  - destruct (_ ≫= _) as [[k h]|]; [|done]. autorewrite with stm. rewrite st_bind. by destruct (deliver_final _ _ _).
  - case_bool_decide; [done|]. rewrite st_bind.
    pose proof (terminal_error_names code msg tid rid next m) as Ht.
    destruct (on_terminal_error _ _ _ _ _ _) as [handled m1]. cbn in Ht. subst handled.
    by destruct (_ && _).
Qed.

(** What arrives for one terminal disturbs no other. Whatever the relay
    sends, every terminal the frame does not name keeps its entry and its
    owner's queue exactly; and the connection goes on unless the frame is a
    close, a failed read, a takeover by another publisher or an error that
    names no terminal. *)
Theorem one_terminals_message_is_its_own (frame : WsFrame) (limits : Limits) (allow : bool)
    (m m' : Mux) (r : result SessionError (option text)) :
  mux_ok m → on_frame parse_server_message frame limits allow m = (r, m') →
  mux_ok m'
  ∧ (∀ k h, mx_terminals m !! k = Some h → frame_target frame m ≠ Some k →
       mx_terminals m' !! k = Some h ∧ mx_channels m' !! ho_events h = mx_channels m !! ho_events h)
  ∧ (r = Ok None ↔ ends_connection frame = false).
Proof.
  intros Hok Hf.
  assert (concerns (frame_target frame m) m m' ∧ (r = Ok None ↔ ends_connection frame = false)) as [[H1 H2] H3];
    [|split_and!; [by apply H1|intros; by apply (H2 k h)|done]].
  destruct frame as [txt|bytes|p|p| |d]; cbn [on_frame frame_target ends_connection] in *.
  - destruct (parse_server_message txt) as [message|]; cbn [mbind option_bind].
    + split; [by eapply concerns_relay_message|].
      pose proof (relay_message_result message limits allow m) as Hr. rewrite Hf in Hr. cbn [fst] in Hr. subst r.
      destruct message; try by split. case_bool_decide; [by split|]. by destruct (_ && _); split.
    + injection Hf as <- <-. split; [apply concerns_refl|done].
  - destruct (decode_input_frame bytes) as [input|e].
    + rewrite st_bind in Hf. destruct (deliver_to _ _ _) as [u m1] eqn:E. injection Hf as <- <-.
      split; [by eapply concerns_deliver_to|done].
    + injection Hf as <- <-. split; [apply concerns_refl|done].
  - autorewrite with stm in Hf. injection Hf as <- <-. split; [apply concerns_writer|done].
  - injection Hf as <- <-. split; [apply concerns_refl|done].
  - injection Hf as <- <-. split; [apply concerns_refl|done].
  - injection Hf as <- <-. split; [apply concerns_refl|done].
Qed.
End frames.

(** Two terminals on one connection. *)
Definition example_spec (r : string) : TerminalSpec := mkTerminalSpec (lit r) (lit "shell") 80 24 (lit "xterm") None.
Definition example_hosted (r : string) (id loc : N) : Hosted := mkHosted (example_spec r) (Some id) loc None.
Definition example_chan : EvChan := mkEvChan [] 256 true.
Definition example_mux : Mux :=
  mkMux {[lit "a" := example_hosted "a" 7 0; lit "b" := example_hosted "b" 8 1]} [7; 8]
    (Some (mkRequestChan [] 8 true)) {[0 := example_chan; 1 := example_chan]} [].

Lemma example_lookup k h :
  mx_terminals example_mux !! k = Some h →
  (k = lit "a" ∧ h = example_hosted "a" 7 0) ∨ (k = lit "b" ∧ h = example_hosted "b" 8 1).
Proof.
  cbn [mx_terminals example_mux]. intros [[<- <-]|[_ [<- <-]%lookup_singleton_Some]]%lookup_insert_Some; auto.
Qed.
Lemma example_mux_ok : mux_ok example_mux.
Proof.
  split.
  - by intros k h [[-> ->]|[-> ->]]%example_lookup.
  - by intros k1 k2 h1 h2 [[-> ->]|[-> ->]]%example_lookup [[-> ->]|[-> ->]]%example_lookup.
Qed.
Lemma example_ids_distinct : ids_distinct example_mux.
Proof. by intros k1 k2 h1 h2 id [[-> ->]|[-> ->]]%example_lookup [[-> ->]|[-> ->]]%example_lookup [= <-] [=]. Qed.

(** A relay that only ever acknowledges the second terminal. *)
Definition example_parse (txt : text) : option RelayMessage :=
  if bool_decide (txt = lit "ack") then Some (RmOutputAck 8 5 5) else None.
Definition example_session_limits : Limits := mkLimits 1024 65536.
Definition example_acked : Mux :=
  set_event_channels (insert 1 (mkEvChan [EvAck 5] 256 true)) example_mux.

Lemma one_terminals_message_is_its_own_witness :
  mux_ok example_acked
  ∧ (∀ k h, mx_terminals example_mux !! k = Some h → frame_target example_parse (FText (lit "ack")) example_mux ≠ Some k →
       mx_terminals example_acked !! k = Some h
       ∧ mx_channels example_acked !! ho_events h = mx_channels example_mux !! ho_events h)
  ∧ (Ok (E := SessionError) None = Ok (None : option text) ↔ ends_connection example_parse (FText (lit "ack")) = false).
Proof.
  exact (one_terminals_message_is_its_own (H := map_iter) example_parse (FText (lit "ack")) example_session_limits false
           example_mux example_acked (Ok None) example_mux_ok ltac:(vm_compute; reflexivity)).
Defined.

(** ** Input *)

Section input.
Context `{HashIter}.

(** Input reaches the shell it is for. A frame the relay sends for a
    terminal of this connection is decoded and queued, unchanged, for exactly
    the owner of that terminal; when the owner's queue is full the terminal is
    marked to be closed, so no keystroke is lost silently; an owner that has
    gone is left alone. Nothing is sent to the relay. *)
Theorem input_reaches_its_shell (parse : text → option RelayMessage) (limits : Limits) (allow : bool)
    (id seq : N) (payload : list byte) (k : text) (h : Hosted) (c : EvChan) (m m' : Mux)
    (r : result SessionError (option text)) :
  id < two128 → seq < two64 → mux_ok m → ids_distinct m →
  mx_terminals m !! k = Some h → ho_terminal_id h = Some id → mx_channels m !! ho_events h = Some c →
  on_frame parse (FBinary (encode_publisher_input_frame id seq payload)) limits allow m = (r, m') →
  r = Ok None ∧ mx_writer m' = mx_writer m ∧ mx_opened m' = mx_opened m
  ∧ if ec_rx_open c then
      if len (ec_queue c) <? ec_capacity c then
        mx_terminals m' = mx_terminals m
        ∧ mx_channels m' = <[ho_events h := mkEvChan (ec_queue c ++ [EvInput payload]) (ec_capacity c) true]> (mx_channels m)
      else mx_channels m' = mx_channels m
           ∧ mx_terminals m' = alter (with_closing (lit "publisher_unresponsive")) k (mx_terminals m)
    else m' = m.
Proof.
  intros Hid Hseq Hok Hd Hk Hh Hc. cbn [on_frame].
  assert (decode_input_frame (encode_publisher_input_frame id seq payload) = Ok (mkInputFrame id seq payload)) as ->.
  { apply (wide_decode _ mkInputFrame). by do 3 eexists. }
  rewrite st_bind. cbn [if_terminal_id if_payload].
  unfold deliver_to. autorewrite with stm. rewrite (local_ref_of_owner m id k h Hok Hd Hk Hh).
  unfold mux_deliver. autorewrite with stm. rewrite Hk. rewrite st_bind.
  unfold try_send. rewrite Hc. destruct (ec_rx_open c) eqn:Ho; cbn [negb].
  - rewrite N.leb_antisym. destruct (len (ec_queue c) <? ec_capacity c); cbn [negb]; by intros [= <- <-].
  - by intros [= <- <-].
Qed.

End input.

Lemma input_reaches_its_shell_witness :
  let m' := set_event_channels (insert 0 (mkEvChan [EvInput [x6c; x73]] 256 true)) example_mux in
  Ok (E := SessionError) (None : option text) = Ok None ∧ mx_writer m' = mx_writer example_mux
  ∧ mx_opened m' = mx_opened example_mux
  ∧ if ec_rx_open example_chan then
      if len (ec_queue example_chan) <? ec_capacity example_chan then
        mx_terminals m' = mx_terminals example_mux
        ∧ mx_channels m' = <[0 := mkEvChan (ec_queue example_chan ++ [EvInput [x6c; x73]]) (ec_capacity example_chan) true]>
            (mx_channels example_mux)
      else mx_channels m' = mx_channels example_mux
           ∧ mx_terminals m' = alter (with_closing (lit "publisher_unresponsive")) (lit "a") (mx_terminals example_mux)
    else m' = example_mux.
Proof.
  exact (input_reaches_its_shell (H := map_iter) example_parse example_session_limits false 7 1 [x6c; x73] (lit "a")
           (example_hosted "a" 7 0) example_chan example_mux _ (Ok None)
           ltac:(reflexivity) ltac:(reflexivity) example_mux_ok example_ids_distinct
           ltac:(reflexivity) ltac:(reflexivity) ltac:(reflexivity) ltac:(vm_compute; reflexivity)).
Defined.

(** ** Output *)

Lemma chunks_loop_bounded fuel n bytes :
  0 < n → Forall (λ s, 0 < len s ≤ n) (chunks_loop fuel n bytes).
Proof.
  intros Hn. revert bytes. induction fuel as [|fuel IH]; intros [|b bytes]; cbn [chunks_loop]; try constructor.
  - len_lia.
  - apply IH.
Qed.
Lemma chunks_whole n bytes : 0 < len bytes ≤ n → chunks n bytes = [bytes].
Proof.
  intros Hl. unfold chunks. destruct bytes as [|b bytes]; [by destruct Hl|].
  cbn [length chunks_loop]. rewrite takeN_ge, dropN_ge by lia. by destruct (length bytes).
Qed.

(** The frames of one piece of output, and what the relay makes of them. *)
Fixpoint output_frames (id offset : N) (slices : list (list byte)) : list (list byte) :=
  match slices with
  | [] => []
  | s :: rest => encode_output_frame id offset s :: output_frames id (offset + len s) rest
  end.
Fixpoint published (id offset : N) (slices : list (list byte)) : list PublisherOutputFrame :=
  match slices with
  | [] => []
  | s :: rest => mkPublisherOutputFrame id offset s :: published id (offset + len s) rest
  end.

Lemma len_mjoin_cons (s : list byte) slices : len (mjoin (s :: slices)) = len s + len (mjoin slices).
Proof. apply len_app. Qed.

Lemma write_slices_frames id offset slices m :
  offset + len (mjoin slices) < two64 →
  write_slices id offset slices m = ((), set_writer (λ l, l ++ (WBinary <$> output_frames id offset slices)) m).
Proof.
  revert offset m. induction slices as [|s slices IH]; intros offset m Hl; cbn [write_slices output_frames].
  - by rewrite writer_same.
  - rewrite len_mjoin_cons in Hl. autorewrite with stm. unwrap.
    rewrite IH by lia.
    unfold set_writer. cbn. by rewrite <- app_assoc.
Qed.

Lemma relay_decodes_output id offset slices :
  id < two128 → offset + len (mjoin slices) < two64 →
  decode_publisher_frame <$> output_frames id offset slices = Ok <$> published id offset slices.
Proof.
  intros Hid. revert offset. induction slices as [|s slices IH]; intros offset Hl; [done|].
  rewrite len_mjoin_cons in Hl. cbn [output_frames published]. rewrite !fmap_cons, IH by lia.
  f_equal. apply (wide_decode _ mkPublisherOutputFrame). exists id, offset, s. split_and!; [done|lia|done|done].
Qed.

(** Output goes out whole, at its place and under the identifier the relay
    assigned. A piece of an attached terminal's output becomes consecutive
    frames no larger than the limit, which the relay decodes to exactly those
    bytes at those offsets; a piece within the limit, as the owner sends them,
    is one frame. Nothing else changes, and nothing is framed for a terminal
    that is not attached. *)
Theorem output_framed_exactly (limits : Limits) (max : N) (k : text) (offset : N) (bytes : list byte) (m m' : Mux) :
  0 < lm_max_output_frame_bytes limits → offset + len bytes < two64 →
  mux_control (CtOutput k offset bytes) limits max m = ((), m') →
  match mx_terminals m !! k ≫= ho_terminal_id with
  | None => m' = m
  | Some id => ∃ slices, mjoin slices = bytes
      ∧ Forall (λ s, 0 < len s ≤ lm_max_output_frame_bytes limits) slices
      ∧ m' = set_writer (λ l, l ++ (WBinary <$> output_frames id offset slices)) m
      ∧ (id < two128 → decode_publisher_frame <$> output_frames id offset slices = Ok <$> published id offset slices)
      ∧ (0 < len bytes ≤ lm_max_output_frame_bytes limits → slices = [bytes])
  end.
Proof.
  intros Hlim Hl. unfold mux_control. autorewrite with stm.
  destruct (mx_terminals m !! k ≫= ho_terminal_id) as [id|]; [|by intros [= <-]].
  pose proof (chunks_concat (lm_max_output_frame_bytes limits) bytes Hlim) as Hcat.
  rewrite write_slices_frames by (by rewrite Hcat). intros [= <-].
  eexists. split_and!; [exact Hcat|by apply chunks_loop_bounded|done| |by apply chunks_whole].
  intros Hid. apply relay_decodes_output; [done|]. by rewrite Hcat.
Qed.

Lemma output_framed_exactly_witness :
  let m' := set_writer (λ l, l ++ [WBinary (encode_output_frame 7 40 [x61; x62])]) example_mux in
  ∃ slices, mjoin slices = [x61; x62]
    ∧ Forall (λ s, 0 < len s ≤ 1024) slices
    ∧ m' = set_writer (λ l, l ++ (WBinary <$> output_frames 7 40 slices)) example_mux
    ∧ (7 < two128 → decode_publisher_frame <$> output_frames 7 40 slices = Ok <$> published 7 40 slices)
    ∧ (0 < len [x61; x62] ≤ 1024 → slices = [[x61; x62]]).
Proof.
  pose proof (output_framed_exactly example_session_limits 10 (lit "a") 40 [x61; x62] example_mux _
                ltac:(reflexivity) ltac:(reflexivity) eq_refl) as H.
  exact H.
Defined.

(** ** Requests for a shell *)

Definition room_for (c : RequestChan) : bool := rc_rx_open c && (len (rc_queue c) <? rc_capacity c).

(** A request to open a shell here is passed on only when this machine's
    owner allowed it, only while somebody listens and has room, and with a
    size that fits a terminal; in every other case the relay is told why at
    once and nothing is queued. No terminal is touched either way. *)
Theorem open_requests_gated (allow : bool) (id : text) (label : option text) (cols rows : option N) (m m' : Mux) :
  on_open_request allow id label cols rows m = ((), m') →
  mx_terminals m' = mx_terminals m ∧ mx_channels m' = mx_channels m
  ∧ ((∃ c r, allow = true ∧ mx_open_requests m = Some c ∧ room_for c = true
        ∧ mx_open_requests m' = Some (mkRequestChan (rc_queue c ++ [r]) (rc_capacity c) true)
        ∧ rr_request_id r = id ∧ rr_label r = label
        ∧ from_option (λ v, 1 ≤ v ≤ 65535) True (rr_cols r) ∧ from_option (λ v, 1 ≤ v ≤ 65535) True (rr_rows r)
        ∧ mx_writer m' = mx_writer m)
     ∨ (∃ reason, mx_open_requests m' = mx_open_requests m
        ∧ mx_writer m' = mx_writer m ++ [WText (declined_message id reason)]
        ∧ (if negb allow then reason = "not_permitted"%string
           else match mx_open_requests m with
                | Some c => room_for c = false ∧ reason = "busy"%string
                | None => reason = "unsupported"%string
                end))).
Proof.
  unfold on_open_request. autorewrite with stm. rewrite st_bind.
  destruct allow; cbn [negb]; [|intros [= <-]; split_and!; [done..|right; by eexists]].
  destruct (mx_open_requests m) as [c|] eqn:Hc;
    [|intros [= <-]; split_and!; [done..|right; eexists; by split_and!]].
  unfold offer_request. fold (room_for c). destruct (room_for c) eqn:Hr; autorewrite with stm; cbn; intros [= <-].
  - split_and!; [done..|left]. eexists c, _. split_and!; [done..| | |done].
    + unfold rr_cols. destruct cols; cbn; [unfold clamp_size; lia|done].
    + unfold rr_rows. destruct rows; cbn; [unfold clamp_size; lia|done].
  - split_and!; [done..|right]. eexists. by split_and!.
Qed.

Lemma open_requests_gated_witness :
  let m' := set_writer (λ l, l ++ [WText (declined_message (lit "q1") "not_permitted")]) example_mux in
  mx_terminals m' = mx_terminals example_mux ∧ mx_channels m' = mx_channels example_mux
  ∧ ((∃ c r, false = true ∧ mx_open_requests example_mux = Some c ∧ room_for c = true
        ∧ mx_open_requests m' = Some (mkRequestChan (rc_queue c ++ [r]) (rc_capacity c) true)
        ∧ rr_request_id r = lit "q1" ∧ rr_label r = None
        ∧ from_option (λ v, 1 ≤ v ≤ 65535) True (rr_cols r) ∧ from_option (λ v, 1 ≤ v ≤ 65535) True (rr_rows r)
        ∧ mx_writer m' = mx_writer example_mux)
     ∨ (∃ reason, mx_open_requests m' = mx_open_requests example_mux
        ∧ mx_writer m' = mx_writer example_mux ++ [WText (declined_message (lit "q1") reason)]
        ∧ (if negb false then reason = "not_permitted"%string
           else match mx_open_requests example_mux with
                | Some c => room_for c = false ∧ reason = "busy"%string
                | None => reason = "unsupported"%string
                end))).
Proof. exact (open_requests_gated false (lit "q1") None (Some 80) None example_mux _ eq_refl). Defined.
