(* ===== verification/MultiplexerSession.v ===== *)
(** * A connection's whole life, and the next one's

    Every terminal the relay opened on a connection is accounted for, from the
    moment its open was sent; the sweep closes what an earlier run left and
    nothing else; the session gives up only when nothing is left to mirror or
    another publisher took over; a reconnect opens every terminal again. *)

From S2P Require Export MultiplexerProps.

Open Scope N_scope.
Open Scope hype_scope.

(** ** What was asked of the relay *)

(** A [terminal.open] for a reference. *)
Definition opens (k : text) (w : WsSend) : bool :=
  match w with
  | WText j =>
      bool_decide ((jget "type" j ≫= jas_str) = Some (lit "terminal.open"))
      && bool_decide ((jget "local_ref" j ≫= jas_str) = Some k)
  | _ => false
  end.
Definition count_opens (k : text) (ws : list WsSend) : nat := length (filter (λ w, opens k w = true) ws).
(** How often this connection asked for it. *)
Definition asks (k : text) (m : Mux) : nat := count_opens k (mx_writer m).
(** Whether its terminal still waits here for the answer. *)
Definition waiting (k : text) (m : Mux) : nat :=
  match mx_terminals m !! k with Some h => match ho_terminal_id h with None => 1 | Some _ => 0 end | None => 0 end.
Definition no_open (w : WsSend) : Prop := ∀ k, opens k w = false.

Lemma count_opens_app k ws ws' : count_opens k (ws ++ ws') = (count_opens k ws + count_opens k ws')%nat.
Proof. unfold count_opens. by rewrite filter_app, length_app. Qed.
Lemma count_opens_none k ws : Forall no_open ws → count_opens k ws = 0%nat.
Proof.
  induction 1 as [|w ws Hw _ IH]; [done|]. unfold count_opens in *. rewrite filter_cons_False; [done|]. by rewrite Hw.
Qed.
(** What opens a terminal that has no identifier yet. *)
Definition opening (spec : TerminalSpec) : WsSend :=
  WText (JObj match sp_in_reply_to spec with
              | Some request_id => field_insert "in_reply_to" (JStr request_id) (open_message spec)
              | None => open_message spec
              end).
Lemma opens_opening k spec : opens k (opening spec) = bool_decide (sp_local_ref spec = k).
Proof.
  transitivity (bool_decide (Some (sp_local_ref spec) = Some k)); [by unfold opens, opening; destruct (sp_in_reply_to spec)|].
  apply bool_decide_ext. split; congruence.
Qed.
Lemma count_opening k spec : count_opens k [opening spec] = if decide (sp_local_ref spec = k) then 1%nat else 0%nat.
Proof.
  unfold count_opens. destruct (decide _) as [E|E].
  - rewrite filter_cons_True; [done|]. rewrite opens_opening. by apply bool_decide_eq_true_2.
  - rewrite filter_cons_False; [done|]. rewrite opens_opening. by rewrite bool_decide_eq_false_2.
Qed.

(** ** Terminals the relay opened *)

Section account.
Context `{HashIter}.
Context (parse_server_message : text → option RelayMessage).
(** What the relay says on this connection: the identifiers it gives a
    reference, and what it closed; and identifiers known to be recorded. *)
Context (opened_as : text → Uuid → Prop) (relay_closed recorded : Uuid → Prop).

Definition told_closed (id : Uuid) (m : Mux) : Prop :=
  ∃ reason, WText (close_message id reason) ∈ mx_writer m.
Definition hosted_as (id : Uuid) (m : Mux) : Prop :=
  ∃ k h, mx_terminals m !! k = Some h ∧ ho_terminal_id h = Some id.
(** The relay gave the same reference another identifier. *)
Definition reassigned (id : Uuid) : Prop := ∃ k id', opened_as k id ∧ opened_as k id' ∧ id' ≠ id.

(** [answered]: the relay's answers so far, for each reference. An open that was
    not answered has its terminal here. *)
Record accounted (answered : text → nat) (m : Mux) : Prop := mkAccounted {
  ac_key : keyed m;
  ac_ids k h id : mx_terminals m !! k = Some h → ho_terminal_id h = Some id → opened_as k id;
  ac_opened id : id ∈ mx_opened m → hosted_as id m ∨ told_closed id m ∨ relay_closed id ∨ reassigned id;
  ac_recorded id : recorded id → id ∈ mx_opened m;
  ac_asks k : (asks k m ≤ answered k + waiting k m)%nat;
}.

Lemma accounted_mono a a' m : (∀ k, (a k ≤ a' k)%nat) → accounted a m → accounted a' m.
Proof. intros Ha [H1 H2 H3 H4 H5]. split; [done..|]. intros k. specialize (Ha k). specialize (H5 k). lia. Qed.

Definition keeps_account {A} (c : MuxM A) : Prop := ∀ a m r m', accounted a m → c m = (r, m') → accounted a m'.

Lemma account_ret {A} (a : A) : keeps_account (mret a).
Proof. by intros answered m r m' Ha [= _ <-]. Qed.
Lemma account_gets {A} (f : Mux → A) : keeps_account (st_gets f).
Proof. by intros answered m r m' Ha [= _ <-]. Qed.
Lemma account_bind {A B} (c : MuxM A) (k : A → MuxM B) :
  keeps_account c → (∀ a, keeps_account (k a)) → keeps_account (c ≫= k).
Proof.
  intros Hc Hk answered m r m' Ha. rewrite st_bind. destruct (c m) as [a m1] eqn:E. apply Hk. by eapply Hc.
Qed.
Lemma account_for_each {A} (l : list A) (f : A → MuxM ()) :
  (∀ x, keeps_account (f x)) → keeps_account (for_each l f).
Proof.
  intros Hf. induction l as [|x l IH]; cbn [for_each]; [apply account_ret|].
  apply account_bind; [apply Hf|]. by intros _.
Qed.

(** The references, identifiers and opened list, and a writer that only grows,
    are all it sees. *)
Definition identity (h : Hosted) : text * option Uuid := (sp_local_ref (ho_spec h), ho_terminal_id h).

Lemma account_same a m m' ws :
  identity <$> mx_terminals m' = identity <$> mx_terminals m →
  mx_opened m' = mx_opened m → mx_writer m' = mx_writer m ++ ws → Forall no_open ws →
  accounted a m → accounted a m'.
Proof.
  intros Hids Hop Hw Hno [A0 A1 A2 A3 A4].
  assert (∀ k, identity <$> mx_terminals m' !! k = identity <$> mx_terminals m !! k) as Hl.
  { intros k. pose proof (f_equal (lookup k) Hids) as Hk. by rewrite !lookup_fmap in Hk. }
  assert (∀ k i, (∃ h, mx_terminals m' !! k = Some h ∧ identity h = i)
                 ↔ (∃ h, mx_terminals m !! k = Some h ∧ identity h = i)) as Hx.
  { intros k i. specialize (Hl k).
    destruct (mx_terminals m' !! k) as [h'|], (mx_terminals m !! k) as [h|]; try done.
    change (Some (identity h') = Some (identity h)) in Hl. injection Hl as Hk1 Hk2.
    split; intros (? & [= <-] & <-); eexists; (split; [done|unfold identity; congruence]). }
  split.
  - intros k h Hk. destruct (proj1 (Hx k (identity h))) as (h0 & Hh0 & [= <- _]); [by exists h|]. by apply A0.
  - intros k h id Hk Hid. destruct (proj1 (Hx k (identity h))) as (h0 & Hh0 & [= _ Heq]); [by exists h|].
    apply (A1 k h0 id Hh0). congruence.
  - rewrite Hop. intros id [(k & h & Hk & Hid)|[[reason Hr]|Hr]]%A2.
    + left. destruct (proj2 (Hx k (identity h))) as (h' & Hh' & [= _ Heq]); [by exists h|].
      exists k, h'. split; [done|congruence].
    + right; left. exists reason. rewrite Hw. apply elem_of_app. by left.
    + by right; right.
  - by rewrite Hop.
  - intros k. unfold asks, waiting. rewrite Hw, count_opens_app, (count_opens_none _ ws Hno), Nat.add_0_r.
    specialize (A4 k). unfold asks, waiting in A4. specialize (Hl k).
    destruct (mx_terminals m' !! k) as [h'|], (mx_terminals m !! k) as [h|]; try done.
    change (Some (identity h') = Some (identity h)) in Hl. injection Hl as _ ->. done.
Qed.
Lemma account_silent a m m' :
  identity <$> mx_terminals m' = identity <$> mx_terminals m → mx_opened m' = mx_opened m → mx_writer m' = mx_writer m →
  accounted a m → accounted a m'.
Proof. intros Hi Ho Hw. apply (account_same a m m' []); [done..|by rewrite app_nil_r|done]. Qed.

Lemma account_write w : no_open w → keeps_account (mux_write w).
Proof. intros Hw a m r m' Ha [= _ <-]. apply (account_same a m _ [w]); [done..|by constructor|done]. Qed.
Lemma account_try_send loc e : keeps_account (try_send loc e).
Proof. intros a m r m' Ha (cs & -> & _)%try_send_inv. by apply (account_silent a m). Qed.
Lemma account_final h e : keeps_account (deliver_final h e).
Proof. apply account_bind; [apply account_try_send|]. intros _. apply account_ret. Qed.
Lemma account_requests (f : Mux → option RequestChan) : keeps_account (st_modify (λ m, set_open_requests (f m) m)).
Proof. intros a m r m' Ha [= _ <-]. by apply (account_silent a m). Qed.
Lemma account_alter f k :
  (∀ h, identity (f h) = identity h) → keeps_account (st_modify (set_terminals (alter f k))).
Proof.
  intros Hf a m r m' Ha [= _ <-]. apply (account_silent a m); [|done..].
  apply map_eq. intros k'. cbn. rewrite !lookup_fmap, lookup_alter. case_decide; [subst|done].
  destruct (mx_terminals m !! k') as [h|]; [|done]. apply (f_equal Some), Hf.
Qed.
Lemma account_deliver k e : keeps_account (mux_deliver k e).
Proof.
  apply account_bind; [apply account_gets|]. intros ts. destruct (ts !! k) as [h|]; [|apply account_ret].
  apply account_bind; [apply account_try_send|]. intros [| |]; [apply account_ret..|by apply account_alter].
Qed.
Lemma account_deliver_to id e : keeps_account (deliver_to id e).
Proof.
  apply account_bind; [apply account_gets|]. intros [lr|]; [apply account_deliver|apply account_ret].
Qed.

(** Dropping a terminal whose close the relay is told of, or told us of; one
    that still waits for its identifier only on an answer. *)
Lemma account_drop a a' m k h ws :
  accounted a m → mx_terminals m !! k = Some h → Forall no_open ws →
  (∀ k', (a k' ≤ a' k')%nat) → (ho_terminal_id h = None → (S (a k) ≤ a' k)%nat) →
  (∀ id, ho_terminal_id h = Some id → (∃ reason, WText (close_message id reason) ∈ ws) ∨ relay_closed id) →
  accounted a' (set_writer (λ l, l ++ ws) (set_terminals (delete k) m)).
Proof.
  intros [A0 A1 A2 A3 A4] Hk Hno Hmono Hlast Hws. split; [cbn|cbn|cbn|done|].
  - intros k' h'. cbn. intros [_ Hk']%lookup_delete_Some. by apply A0.
  - intros k' h' id [_ Hk']%lookup_delete_Some. by apply A1.
  - intros id [(k' & h' & Hk' & Hid)|[[reason Hr]|Hr]]%A2.
    + destruct (decide (k' = k)) as [->|Hne].
      * rewrite Hk in Hk'. injection Hk' as <-. right. destruct (Hws id Hid) as [[reason Hr]|Hr]; [left|by right; left].
        exists reason. cbn. apply elem_of_app. by right.
      * left. exists k', h'. cbn. by rewrite lookup_delete_ne.
    + right; left. exists reason. cbn. apply elem_of_app. by left.
    + by right; right.
  - intros k'. specialize (A4 k'). specialize (Hmono k'). revert A4. unfold asks, waiting. cbn [mx_writer mx_terminals set_writer set_terminals set_opened].
    rewrite count_opens_app, (count_opens_none _ ws Hno). destruct (decide (k' = k)) as [->|Hne].
    + rewrite Hk, lookup_delete_eq. destruct (ho_terminal_id h); [lia|]. specialize (Hlast eq_refl). lia.
    + rewrite lookup_delete_ne by done. lia.
Qed.

Lemma account_close_one k a m r m' :
  (∀ h, mx_terminals m !! k = Some h → is_finished h = true) → accounted a m → close_one k m = (r, m') → accounted a m'.
Proof.
  intros Hfin Ha. unfold close_one. autorewrite with stm.
  destruct (mx_terminals m !! k) as [h|] eqn:Hk; [|by intros [= _ <-]].
  specialize (Hfin h eq_refl). apply andb_true_iff in Hfin as [_ Hid%bool_decide_eq_true].
  autorewrite with stm. destruct (ho_terminal_id h) as [id|] eqn:Eid; [|by destruct Hid].
  autorewrite with stm. apply account_final.
  apply (account_drop a a m k h [_] Ha Hk); [by repeat constructor|done|congruence|].
  intros id' Hid'. left. eexists. rewrite Eid in Hid'. injection Hid' as <-. by apply list_elem_of_singleton.
Qed.
Lemma close_one_terminals k m : mx_terminals (close_one k m).2 = delete k (mx_terminals m).
Proof.
  unfold close_one. autorewrite with stm. destruct (mx_terminals m !! k) as [h|] eqn:Hk; [|by rewrite delete_id].
  autorewrite with stm. destruct (ho_terminal_id h); autorewrite with stm; unfold deliver_final; rewrite st_bind;
    destruct (try_send _ _ _) as [sent m1] eqn:E; by apply try_send_inv in E as (cs & -> & _).
Qed.
Lemma account_close_all ks a m r m' :
  (∀ k h, k ∈ ks → mx_terminals m !! k = Some h → is_finished h = true) → accounted a m →
  for_each ks close_one m = (r, m') → accounted a m'.
Proof.
  revert m. induction ks as [|k ks IH]; intros m Hfin Ha; cbn [for_each]; [by intros [= _ <-]|].
  rewrite st_bind. pose proof (close_one_terminals k m) as Ht. destruct (close_one k m) as [u m1] eqn:E. cbn [snd] in Ht.
  apply IH.
  - intros k' h Hin. rewrite Ht. intros [_ Hh]%lookup_delete_Some. apply (Hfin k'); [by right|done].
  - eapply account_close_one; [|exact Ha|exact E]. intros h Hh. by apply (Hfin k); [left|].
Qed.
Lemma account_close_finished : keeps_account close_finished.
Proof.
  intros a m r m' Ha. unfold close_finished. autorewrite with stm. apply account_close_all; [|done].
  intros k h ([k' h'] & -> & [Hf Hin%hash_iter_elem]%list_elem_of_filter)%list_elem_of_fmap Hk. cbn in *. congruence.
Qed.

Lemma account_sweep ids : keeps_account (sweep_orphans ids).
Proof.
  apply account_for_each. intros id. apply account_bind; [apply account_gets|]. intros opened.
  case_bool_decide; [apply account_ret|by apply account_write].
Qed.

Lemma account_slices id offset slices : keeps_account (write_slices id offset slices).
Proof.
  revert offset. induction slices as [|s slices IH]; intros offset; cbn [write_slices]; [apply account_ret|].
  apply account_bind; [by apply account_write|]. intros _. apply IH.
Qed.

(** A new terminal, and its open. *)
Lemma send_open_writes k h m :
  mx_terminals m !! k = Some h → ho_terminal_id h = None → send_open k m = ((), set_writer (λ l, l ++ [opening (ho_spec h)]) m).
Proof.
  intros Hk Hid. unfold send_open. autorewrite with stm. rewrite Hk, Hid. cbv zeta. unfold opening.
  by destruct (sp_in_reply_to (ho_spec h)).
Qed.
Lemma account_open a m spec loc r m' :
  accounted a m → mx_terminals m !! sp_local_ref spec = None →
  send_open (sp_local_ref spec) (set_terminals (insert (sp_local_ref spec) (new_hosted spec loc)) m) = (r, m') → accounted a m'.
Proof.
  intros [A0 A1 A2 A3 A4] Hk. set (k := sp_local_ref spec) in *.
  rewrite (send_open_writes k (new_hosted spec loc)); [|apply lookup_insert_eq|done]. intros [= _ <-]. split; [cbn|cbn|cbn|done|].
  - intros k' h. cbn. intros [[<- <-]|[_ Hk']]%lookup_insert_Some; [done|]. by apply A0.
  - intros k' h id [[<- <-]|[_ Hk']]%lookup_insert_Some; [done|]. by apply A1.
  - intros id [(k' & h & Hk' & Hid)|[[reason Hr]|?]]%A2; [| |by right; right].
    + left. exists k', h. cbn. rewrite lookup_insert_ne; [done|congruence].
    + right; left. exists reason. cbn. apply elem_of_app. by left.
  - intros k'. specialize (A4 k'). revert A4. unfold asks, waiting. cbn [mx_writer mx_terminals set_writer set_terminals set_opened]. rewrite count_opens_app, count_opening.
    destruct (decide (sp_local_ref spec = k')) as [<-|Hne].
    + fold k. rewrite Hk, lookup_insert_eq. cbn. lia.
    + rewrite lookup_insert_ne by done. lia.
Qed.

Lemma account_refuse loc reason : keeps_account (refuse_open loc reason).
Proof. apply account_bind; [apply account_try_send|]. intros _. apply account_ret. Qed.

Lemma account_control message limits max : keeps_account (mux_control message limits max).
Proof.
  intros a m r m' Ha. unfold mux_control. autorewrite with stm.
  destruct message as [spec loc|k offset bytes|k cols rows|k reason|id reason].
  - case_N; [by apply account_refuse|]. case_bool_decide as Hk; [by apply account_refuse|].
    autorewrite with stm. apply account_open; [done|].
    destruct (mx_terminals m !! _); [|done]. exfalso. by apply Hk.
  - destruct (_ ≫= _); [by apply account_slices|by apply account_ret].
  - destruct (mx_terminals m !! k) as [h|]; [|by apply account_ret].
    eapply (account_bind (st_modify _)); [by apply account_alter| |done].
    intros _. destruct (ho_terminal_id h); [by apply account_write|apply account_ret].
  - eapply (account_bind (st_modify _)); [by apply account_alter| |done]. intros _. apply account_deliver.
  - by apply account_write.
Qed.

(** What the relay says, and which reference it answers. *)
Definition said (message : RelayMessage) : Prop :=
  match message with
  | RmTerminalOpened request_id id _ _ _ => opened_as request_id id
  | RmTerminalClosed id _ => relay_closed id
  | _ => True
  end.
Definition answers_to (message : RelayMessage) : option text :=
  match message with
  | RmTerminalOpened request_id _ _ _ _ => Some request_id
  | RmError _ _ _ request_id _ _ => request_id
  | _ => None
  end.
Definition count_answer (message : RelayMessage) (k : text) : nat := if decide (answers_to message = Some k) then 1 else 0.
Definition hear (message : RelayMessage) (a : text → nat) : text → nat := λ k, (a k + count_answer message k)%nat.
Lemma hear_more message a k : (a k ≤ hear message a k)%nat.
Proof. unfold hear. lia. Qed.
Lemma hear_answer message a k : answers_to message = Some k → hear message a k = S (a k).
Proof. intros E. unfold hear, count_answer. rewrite decide_True by done. lia. Qed.

Lemma error_target_named tid rid m k :
  keyed m → error_target tid rid m = Some k →
  (∃ h id, mx_terminals m !! k = Some h ∧ ho_terminal_id h = Some id) ∨ rid = Some k.
Proof.
  intros Hk. unfold error_target. destruct (tid ≫= _) as [lr|] eqn:E.
  - intros [= ->]. destruct tid as [id|]; [|done]. cbn in E. destruct (local_ref_of_Some m id k Hk E) as (h & ? & ?). left. eauto.
  - destruct rid as [id|]; [|done]. cbn. case_bool_decide; [|done]. intros [= <-]. by right.
Qed.
Lemma account_terminal_error code msg tid rid auth durable a m r m' :
  accounted a m → on_terminal_error code msg tid rid auth m = (r, m') →
  accounted (hear (RmError code msg tid rid auth durable) a) m'.
Proof.
  intros Ha. set (a' := hear _ a). assert (accounted a' m) as Ha' by (eapply accounted_mono; [apply hear_more|done]).
  unfold on_terminal_error. autorewrite with stm.
  destruct (error_target tid rid m) as [k|] eqn:Et; [|by apply account_ret].
  destruct (if bool_decide _ then auth else None) as [next|], (mx_terminals m !! k) as [h|] eqn:Hk.
  - eapply (account_bind (try_send _ _)); [apply account_try_send|intros _; apply account_ret|done].
  - by apply account_ret.
  - autorewrite with stm. destruct (ho_terminal_id h) as [id|] eqn:Hid; autorewrite with stm;
      (eapply (account_bind (deliver_final _ _)); [apply account_final|intros _; apply account_ret|]).
    + apply (account_drop a a' m k h [_] Ha Hk); [by repeat constructor|apply hear_more|congruence|]. intros id' Hid'. left. eexists.
      rewrite Hid in Hid'. injection Hid' as <-. by apply list_elem_of_singleton.
    + rewrite <- (writer_same (set_terminals _ m)). apply (account_drop a a' m k h [] Ha Hk); [done|apply hear_more| |congruence].
      intros _. destruct (error_target_named tid rid m k (ac_key a m Ha) Et) as [(h' & id & Hk' & Hid')| ->]; [congruence|].
      unfold a'. by rewrite (hear_answer _ _ k).
  - by apply account_ret.
Qed.

Lemma account_open_request allow id label cols rows : keeps_account (on_open_request allow id label cols rows).
Proof.
  apply account_bind; [apply account_gets|]. intros c. apply account_bind.
  - destruct allow; cbn [negb]; [|apply account_ret]. destruct c as [c|]; [|apply account_ret].
    destruct (offer_request _ c) as [taken c'].
    apply account_bind; [apply (account_requests (λ _, Some c'))|intros _; apply account_ret].
  - intros [reason|]; [by apply account_write|apply account_ret].
Qed.

Lemma account_opened a m k h id message :
  accounted a m → mx_terminals m !! k = Some h → opened_as k id → answers_to message = Some k →
  accounted (hear message a) (set_opened (λ l, l ++ [id]) (set_terminals (alter (with_terminal_id (Some id)) k) m)).
Proof.
  intros [A0 A1 A2 A3 A4] Hk Hid Hans. split; [cbn|cbn|cbn|cbn|].
  - intros k' h'. cbn. rewrite lookup_alter. case_decide; [subst k'|apply A0].
    rewrite Hk. intros [= <-]. exact (A0 k h Hk).
  - intros k' h' id'. rewrite lookup_alter. case_decide; [subst k'|apply A1].
    rewrite Hk. intros [= <-] [= <-]. done.
  - assert (hosted_as id (set_opened (λ l, l ++ [id]) (set_terminals (alter (with_terminal_id (Some id)) k) m))) as Hnew.
    { exists k. cbn. rewrite lookup_alter_eq, Hk. by eexists. }
    intros id' [[(k' & h' & Hk' & Hid')|Hr]%A2| ->%list_elem_of_singleton]%elem_of_app; [|by right|by left].
    destruct (decide (k' = k)) as [->|Hne].
    + destruct (decide (id' = id)) as [->|Hne']; [by left|]. right; right; right. exists k, id. split_and!; [by eapply A1|done|done].
    + left. exists k', h'. cbn. by rewrite lookup_alter_ne.
  - intros id' Hr. apply elem_of_app. left. by apply A3.
  - intros k'. specialize (A4 k'). pose proof (hear_more message a k') as Hm. revert A4. unfold asks, waiting. cbn [mx_writer mx_terminals set_writer set_terminals set_opened].
    destruct (decide (k' = k)) as [->|Hne].
    + rewrite (hear_answer _ _ k Hans), lookup_alter_eq, Hk. cbn. destruct (ho_terminal_id h); lia.
    + rewrite lookup_alter_ne by done. lia.
Qed.

Lemma account_relay_message message limits allow a m r m' :
  said message → accounted a m → on_relay_message message limits allow m = (r, m') → accounted (hear message a) m'.
Proof.
  intros Hh Ha. assert (accounted (hear message a) m) as Ha' by (eapply accounted_mono; [apply hear_more|done]).
  destruct message as [cid lim|rid id next dur acc|id dur next|rid label cols rows|id cols rows|id reason|code msg|code msg tid rid next dur|at_ms|];
    unfold on_relay_message; autorewrite with stm; cbn [said] in Hh; try (by apply account_ret).
  - destruct (mx_terminals m !! rid) as [h|] eqn:Hk; [|by apply account_ret]. autorewrite with stm.
    eapply (account_bind (mux_deliver _ _)); [apply account_deliver|intros _; apply account_ret|].
    by eapply account_opened.
  - eapply (account_bind (deliver_to _ _)); [apply account_deliver_to|intros _; apply account_ret|done].
  - eapply (account_bind (on_open_request _ _ _ _ _)); [apply account_open_request|intros _; apply account_ret|done].
  - eapply (account_bind (deliver_to _ _)); [apply account_deliver_to|intros _; apply account_ret|done].
  - destruct (local_ref_of id m) as [k|] eqn:El; cbn [mbind option_bind]; [|by apply account_ret].
    destruct (local_ref_of_Some m id k (ac_key a m Ha) El) as (h & Hk & Hid). rewrite Hk.
    cbn [fmap option_fmap option_map]. autorewrite with stm.
    eapply (account_bind (deliver_final _ _)); [apply account_final|intros _; apply account_ret|].
    rewrite <- (writer_same (set_terminals _ m)). eapply (account_drop a _ m k h [] Ha Hk); [done|apply hear_more|congruence|].
    intros id' Hid'. right. rewrite Hid in Hid'. by injection Hid' as <-.
  - case_bool_decide; [by apply account_ret|]. rewrite st_bind.
    destruct (on_terminal_error code msg tid rid next m) as [b m1] eqn:E. intros [= _ <-]. by eapply account_terminal_error.
  - intros [= _ <-]. by eapply (account_write (WText (pong_message at_ms)) (λ _, eq_refl) _ m).
Qed.

(** The same of events. *)
Definition said_event (e : SessEvent) : Prop :=
  match e with
  | SeFrame (Some (FText txt)) => from_option said True (parse_server_message txt)
  | _ => True
  end.
Definition count_event (k : text) (e : SessEvent) : nat :=
  match e with
  | SeFrame (Some (FText txt)) => from_option (λ message, count_answer message k) 0%nat (parse_server_message txt)
  | _ => 0
  end.
Definition answers (events : list SessEvent) (k : text) : nat := sum_list (count_event k <$> events).
Definition hear_all (events : list SessEvent) (a : text → nat) : text → nat := λ k, (a k + answers events k)%nat.

Lemma account_frame frame limits allow a m r m' :
  said_event (SeFrame (Some frame)) → accounted a m → on_frame parse_server_message frame limits allow m = (r, m') →
  accounted (λ k, (a k + count_event k (SeFrame (Some frame)))%nat) m'.
Proof.
  intros Hh Ha. set (a' := λ k, _). assert (accounted a' m) as Ha' by (eapply accounted_mono; [|exact Ha]; unfold a'; intros k; lia).
  destruct frame as [txt|bytes|p|p| |d]; cbn [on_frame]; try by apply account_ret.
  - cbn in Hh. unfold a', count_event in *. destruct (parse_server_message txt); [by apply account_relay_message|by apply account_ret].
  - destruct (decode_input_frame bytes); [|by apply account_ret].
    eapply (account_bind (deliver_to _ _)); [apply account_deliver_to|intros _; apply account_ret|done].
  - eapply (account_bind (mux_write _)); [by apply account_write|intros _; apply account_ret|done].
Qed.

Lemma account_loop p accepting sweep events a m r m' :
  Forall said_event events → accounted a m → session_loop parse_server_message p accepting sweep events m = (r, m') →
  accounted (hear_all events a) m'.
Proof.
  intros Hev. revert accepting sweep a m r m'. induction Hev as [|e events He Hev IH]; intros accepting sweep a m r m' Ha; cbn [session_loop];
    rewrite st_bind; destruct (close_finished m) as [u m1] eqn:Ec; apply (account_close_finished _ _ _ _ Ha) in Ec;
    autorewrite with stm;
    (destruct (mux_idle m1 && negb accepting);
      [intros [= _ <-]; eapply accounted_mono; [|exact Ec]; unfold hear_all; intros k; lia|]).
  { intros [= _ <-]. eapply accounted_mono; [|exact Ec]. unfold hear_all. intros k. lia. }
  assert (∀ accepting sweep m2 o m', accounted a m2 → session_loop parse_server_message p accepting sweep events m2 = (o, m') →
    accounted (hear_all (e :: events) a) m') as Hrest.
  { intros acc sw m2 o m2' Hm2 E. eapply accounted_mono; [|by eapply IH]. intros k. unfold hear_all, answers. cbn -[count_event]. lia. }
  destruct e as [[frame|]|message capacity| |loc|loc| |]; autorewrite with stm.
  - rewrite st_bind. destruct (on_frame parse_server_message frame _ _ m1) as [o m2] eqn:Ef.
    pose proof (account_frame _ _ _ _ _ _ _ He Ec Ef) as Hm2.
    assert (∀ acc sw o m', session_loop parse_server_message p acc sw events m2 = (o, m') →
      accounted (hear_all (SeFrame (Some frame) :: events) a) m') as Hgo.
    { intros acc sw o' m2' E. eapply accounted_mono; [|by eapply IH]. intros k. unfold hear_all, answers. cbn -[count_event]. lia. }
    assert (accounted (hear_all (SeFrame (Some frame) :: events) a) m2) as Hstop.
    { eapply accounted_mono; [|exact Hm2]. intros k. unfold hear_all, answers. cbn -[count_event]. lia. }
    destruct o as [[reason|]|err]; [by intros [= _ <-]|by apply Hgo|by intros [= _ <-]].
  - intros [= _ <-]. eapply accounted_mono; [|exact Ec]. unfold hear_all. intros k. lia.
  - destruct (accepting && _); [|by apply Hrest]. destruct message as [message|]; [|by apply Hrest].
    rewrite st_bind. destruct (mux_control _ _ _ m1) as [o m2] eqn:E. apply Hrest. by eapply account_control.
  - destruct sweep; [|by apply Hrest]. rewrite st_bind. destruct (sweep_orphans _ m1) as [o m2] eqn:E. apply Hrest. by eapply account_sweep.
  - apply Hrest. by apply (account_silent a m1).
  - apply Hrest. by apply (account_silent a m1).
  - apply Hrest. by apply (account_silent a m1).
  - apply Hrest. by apply (account_silent a m1).
Qed.
End account.

(** The relay said that it closed the terminal; that it gave the reference an
    identifier. *)
Definition said_closed (parse : text → option RelayMessage) (events : list SessEvent) (id : Uuid) : Prop :=
  ∃ txt reason, SeFrame (Some (FText txt)) ∈ events ∧ parse txt = Some (RmTerminalClosed id reason).
Definition said_opened (parse : text → option RelayMessage) (events : list SessEvent) (k : text) (id : Uuid) : Prop :=
  ∃ txt next durable accepts,
    SeFrame (Some (FText txt)) ∈ events ∧ parse txt = Some (RmTerminalOpened k id next durable accepts).
Lemma events_said parse events :
  Forall (said_event parse (said_opened parse events) (said_closed parse events)) events.
Proof.
  apply Forall_forall. intros e He. destruct e as [[[txt| | | | |]|]| | | | | |]; try done. cbn.
  destruct (parse txt) as [[]|] eqn:E; try done; cbn; by repeat eexists.
Qed.

(** Before anything is opened: no identifiers, and nothing written but the
    capabilities. *)
Record unopened (m : Mux) : Prop := mkUnopened {
  uo_key : keyed m;
  uo_ids k h : mx_terminals m !! k = Some h → ho_terminal_id h = None;
  uo_opened : mx_opened m = [];
}.
Definition new_writer (m : Mux) : Prop := mx_writer m = [] ∨ mx_writer m = [WText capabilities_message].

Definition last_ended : text := lit "the last terminal ended".

(** ** How a connection goes on, and how it ends *)

Section ends.
Context `{HashIter}.
Context (parse : text → option RelayMessage).

Lemma frame_ends frame limits allow m reason m' :
  on_frame parse frame limits allow m = (Ok (Some reason), m') → reason = superseded_text.
Proof.
  destruct frame as [txt|bytes|p|p| |d]; cbn [on_frame]; try done.
  - destruct (parse txt) as [message|]; [|done]. intros E.
    pose proof (relay_message_result message limits allow m) as Hr. rewrite E in Hr. cbn [fst] in Hr.
    destruct message; try done. case_bool_decide; [by injection Hr as ->|]. by destruct (_ && _).
  - destruct (decode_input_frame bytes); [|done]. rewrite st_bind. by destruct (deliver_to _ _ _).
Qed.

Lemma loop_ends p accepting sweep events m reason m' :
  session_loop parse p accepting sweep events m = (Some (Ok reason), m') →
  reason = superseded_text ∨ (reason = last_ended ∧ mx_terminals m' = ∅).
Proof.
  revert accepting sweep m. induction events as [|e events IH]; intros accepting sweep m; cbn [session_loop];
    rewrite st_bind; destruct (close_finished m) as [u m1]; autorewrite with stm;
    (destruct (mux_idle m1 && negb accepting) eqn:Hi;
      [intros [= <- <-]; right; split; [done|]; apply andb_true_iff in Hi as [Hi _]; by apply bool_decide_eq_true in Hi|]);
    [done|].
  destruct e as [[frame|]|message capacity| |loc|loc| |]; autorewrite with stm; try apply IH; try done.
  - rewrite st_bind. destruct (on_frame parse frame _ _ m1) as [[[r|]|err] m2] eqn:E; [|apply IH|done].
    intros [= <- <-]. left. by apply frame_ends in E.
  - destruct (accepting && _); [|apply IH]. destruct message as [message|]; [|apply IH].
    rewrite st_bind. destruct (mux_control _ _ _ _). apply IH.
  - destruct sweep; [|apply IH]. rewrite st_bind. destruct (sweep_orphans _ _). apply IH.
Qed.

(** No terminal that the relay opened has an owner that is gone. *)
Definition none_finished (m : Mux) : Prop := ∀ k h, mx_terminals m !! k = Some h → is_finished h = false.
Lemma nothing_finished m : none_finished m → close_finished m = ((), m).
Proof.
  intros Hn. unfold close_finished. autorewrite with stm.
  assert (filter (λ '(_, h), is_finished h = true) (hash_iter (mx_terminals m)) = []) as ->; [|done].
  destruct (filter _ _) as [|[k h] l] eqn:E; [done|].
  assert ((k, h) ∈ filter (λ '(_, h), is_finished h = true) (hash_iter (mx_terminals m))) as Hin by (rewrite E; left).
  apply list_elem_of_filter in Hin as [Hf Hin%hash_iter_elem]. by rewrite (Hn k h Hin) in Hf.
Qed.
Lemma close_all_terminals ks m k h :
  mx_terminals (for_each ks close_one m).2 !! k = Some h → mx_terminals m !! k = Some h ∧ k ∉ ks.
Proof.
  revert m. induction ks as [|k0 ks IH]; intros m; cbn [for_each]; [intros Hk; split; [exact Hk|by apply not_elem_of_nil]|].
  rewrite st_bind. pose proof (close_one_terminals k0 m) as Ht. destruct (close_one k0 m) as [u m1]. cbn [snd] in Ht.
  intros [Hk Hn]%IH. rewrite Ht in Hk. apply lookup_delete_Some in Hk as [Hne Hk]. split; [done|].
  intros [->|Hin]%elem_of_cons; done.
Qed.
Lemma close_finished_none m : none_finished (close_finished m).2.
Proof.
  intros k h. unfold close_finished. autorewrite with stm. intros [Hk Hn]%close_all_terminals.
  destruct (is_finished h) eqn:Ef; [|done]. destruct Hn. apply list_elem_of_fmap. exists (k, h). split; [done|].
  apply list_elem_of_filter. split; [done|]. by apply hash_iter_elem.
Qed.
(** A connection still up has closed every terminal whose owner is gone, that
    it could. *)
Lemma loop_up p accepting sweep events m m' :
  session_loop parse p accepting sweep events m = (None, m') → none_finished m'.
Proof.
  revert accepting sweep m. induction events as [|e events IH]; intros accepting sweep m; cbn [session_loop];
    rewrite st_bind; pose proof (close_finished_none m) as Hn; destruct (close_finished m) as [u m1]; autorewrite with stm;
    (destruct (mux_idle m1 && negb accepting); [done|]); [by intros [= <-]|].
  destruct e as [[frame|]|message capacity| |loc|loc| |]; autorewrite with stm; try apply IH; try done.
  - rewrite st_bind. destruct (on_frame parse frame _ _ m1) as [[[r|]|err] m2]; [done|apply IH|done].
  - destruct (accepting && _); [|apply IH]. destruct message as [message|]; [|apply IH].
    rewrite st_bind. destruct (mux_control _ _ _ _). apply IH.
  - destruct sweep; [|apply IH]. rewrite st_bind. destruct (sweep_orphans _ _). apply IH.
Qed.

(** What a connection does with the first events is not changed by the rest. *)
Lemma loop_app p before after accepting sweep m m1 :
  session_loop parse p accepting sweep before m = (None, m1) →
  ∃ accepting' sweep', session_loop parse p accepting sweep (before ++ after) m = session_loop parse p accepting' sweep' after m1
    ∧ none_finished m1.
Proof.
  intros E. pose proof (loop_up _ _ _ _ _ _ E) as Hn. revert accepting sweep m E.
  induction before as [|e before IH]; intros accepting sweep m; cbn [app].
  - cbn [session_loop]. rewrite st_bind. destruct (close_finished m) as [u m2] eqn:Ec. autorewrite with stm.
    destruct (mux_idle m2 && negb accepting) eqn:Hi; [done|]. intros [= ->]. exists accepting, sweep. split; [|done].
    destruct after as [|e after]; cbn [session_loop]; rewrite !st_bind, Ec, (nothing_finished m1 Hn); autorewrite with stm; by rewrite Hi.
  - cbn [session_loop]. rewrite !st_bind. destruct (close_finished m) as [u m2]. autorewrite with stm.
    destruct (mux_idle m2 && negb accepting); [done|].
    destruct e as [[frame|]|message capacity| |loc|loc| |]; autorewrite with stm; try apply IH; try done.
    + rewrite !st_bind. destruct (on_frame parse frame _ _ m2) as [[[r|]|err] m3]; [done|apply IH|done].
    + destruct (accepting && _); [|apply IH]. destruct message as [message|]; [|apply IH].
      rewrite !st_bind. destruct (mux_control _ _ _ _). apply IH.
    + destruct sweep; [|apply IH]. rewrite !st_bind. destruct (sweep_orphans _ _). apply IH.
Qed.

(** ** How it begins *)

Lemma open_all (l : list (text * Hosted)) m :
  (∀ k h, (k, h) ∈ l → mx_terminals m !! k = Some h ∧ ho_terminal_id h = None) →
  for_each (fst <$> l) send_open m = ((), set_writer (λ w, w ++ ((λ '(_, h), opening (ho_spec h)) <$> l)) m).
Proof.
  revert m. induction l as [|[k h] l IH]; intros m Hl; cbn [for_each fmap list_fmap fst]; [by rewrite writer_same|].
  destruct (Hl k h) as [Hk Hid]; [by left|]. rewrite st_bind, (send_open_writes k h m Hk Hid), IH.
  - unfold set_writer. cbn. by rewrite <- app_assoc.
  - intros k' h' Hin. apply (Hl k' h'). by right.
Qed.
Lemma count_all_opens m k :
  keyed m →
  count_opens k ((λ '(_, h), opening (ho_spec h)) <$> hash_iter (mx_terminals m))
  = if decide (is_Some (mx_terminals m !! k)) then 1%nat else 0%nat.
Proof.
  intros Hk. assert (∀ l, NoDup l.*1 → (∀ k h, (k, h) ∈ l → mx_terminals m !! k = Some h) →
    count_opens k ((λ '(_, h), opening (ho_spec h)) <$> l) = if decide (k ∈ l.*1) then 1%nat else 0%nat) as Hl.
  { induction l as [|[k0 h] l IH]; intros Hn Hin; [done|]. cbn [fmap list_fmap fst] in *. apply NoDup_cons in Hn as [Hk0 Hn].
    assert (sp_local_ref (ho_spec h) = k0) as E by (apply Hk, Hin; left).
    change (?x :: ?y) with ([x] ++ y) at 1. rewrite count_opens_app, count_opening, IH, E by (try done; intros; apply Hin; by right).
    destruct (decide (k0 = k)) as [->|Hne].
    - rewrite decide_False, decide_True by (try done; by left). done.
    - cbn. apply decide_ext. set_solver. }
  rewrite Hl.
  - apply decide_ext. rewrite list_elem_of_fmap. split.
    + intros ([k' h] & -> & Hin%hash_iter_elem). by exists h.
    + intros [h Hh]. exists (k, h). split; [done|]. by apply hash_iter_elem.
  - rewrite hash_iter_perm. apply NoDup_fst_map_to_list.
  - intros k' h. apply hash_iter_elem.
Qed.
Lemma account_begins opened_as relay_closed m m' :
  unopened m → new_writer m → for_each (fst <$> hash_iter (mx_terminals m)) send_open m = ((), m') →
  accounted opened_as relay_closed (λ _, False) (λ _, 0%nat) m'.
Proof.
  intros [Hk Hids Hop] Hw. rewrite open_all; [|intros k h Hin%hash_iter_elem; split; [done|by apply (Hids k)]].
  intros [= <-]. split.
  - exact Hk.
  - intros k h id Hh Hid. cbn in Hh. by rewrite (Hids k h Hh) in Hid.
  - cbn. rewrite Hop. by intros id ?%elem_of_nil.
  - done.
  - intros k. unfold asks, waiting. cbn [mx_writer mx_terminals set_writer]. rewrite count_opens_app, count_all_opens by done.
    rewrite (count_opens_none k (mx_writer m)) by (destruct Hw as [-> | ->]; by repeat constructor).
    destruct (mx_terminals m !! k) as [h|] eqn:Eh; [rewrite (Hids k h Eh); destruct (decide _); lia|].
    rewrite decide_False; [lia|]. by intros [].
Qed.
End ends.

(** An answer that is still outstanding is recorded when it comes. *)
Lemma outstanding_recorded `{HashIter} (parse : text → option RelayMessage) opened_as relay_closed
    p before txt after k id next durable accepts accepting sweep m m1 outcome m' :
  accounted opened_as relay_closed (λ _, False) (λ _, 0%nat) m →
  Forall (said_event parse opened_as relay_closed) (before ++ SeFrame (Some (FText txt)) :: after) →
  parse txt = Some (RmTerminalOpened k id next durable accepts) →
  session_loop parse p accepting sweep before m = (None, m1) → (answers parse before k < asks k m1)%nat →
  session_loop parse p accepting sweep (before ++ SeFrame (Some (FText txt)) :: after) m = (outcome, m') → id ∈ mx_opened m'.
Proof.
  intros Ha [Hb Hs]%Forall_app Hp Hup Hlt Hrun. apply Forall_cons in Hs as [Hsaid Hs].
  cbn in Hsaid. rewrite Hp in Hsaid. cbn in Hsaid.
  pose proof (account_loop parse _ _ _ _ _ _ _ _ _ _ _ Hb Ha Hup) as Ha1.
  destruct (loop_app parse p before (SeFrame (Some (FText txt)) :: after) _ _ _ _ Hup) as (acc & sw & E & Hn). rewrite E in Hrun. clear E.
  assert (∃ h, mx_terminals m1 !! k = Some h) as [h Hk].
  { pose proof (ac_asks _ _ _ _ _ Ha1 k) as Hle. unfold hear_all, waiting in Hle.
    destruct (mx_terminals m1 !! k) as [h|]; [by exists h|]. lia. }
  cbn [session_loop] in Hrun. rewrite st_bind, (nothing_finished m1 Hn) in Hrun. autorewrite with stm in Hrun.
  assert (mux_idle m1 = false) as Hidle by (apply bool_decide_eq_false_2; intros Hm; by rewrite Hm, lookup_empty in Hk).
  rewrite Hidle in Hrun.
  cbn [andb] in Hrun. rewrite st_bind in Hrun. cbn [on_frame] in Hrun. rewrite Hp in Hrun. unfold on_relay_message in Hrun.
  autorewrite with stm in Hrun. rewrite Hk in Hrun. autorewrite with stm in Hrun. rewrite st_bind in Hrun.
  pose proof (account_opened _ _ _ _ m1 k h id (RmTerminalOpened k id next durable accepts) Ha1 Hk Hsaid eq_refl) as Ha2.
  set (m2 := set_opened _ _) in *. destruct (mux_deliver k _ m2) as [u m3] eqn:Ed.
  assert (accounted opened_as relay_closed (λ id', id' = id) (hear (RmTerminalOpened k id next durable accepts) (hear_all parse before (λ _, 0%nat))) m2) as Hr.
  { destruct Ha2 as [A0 A1 A2 A3 A4]. split; [done..| |done]. intros id' ->. unfold m2. cbn. apply elem_of_app. right. by left. }
  apply (account_deliver _ _ _ _ _ _ _ _ _ Hr) in Ed. cbn in Hrun.
  pose proof (account_loop parse _ _ _ _ _ _ _ _ _ _ _ Hs Ed Hrun) as Hend. by apply (ac_recorded _ _ _ _ _ Hend).
Qed.
Lemma waiting_le k m : (waiting k m ≤ 1)%nat.
Proof. unfold waiting. destruct (mx_terminals m !! k) as [h|]; [destruct (ho_terminal_id h)|]; lia. Qed.

(** C32: no terminal is left behind at the relay, from the moment its open is
    sent. Whatever happens on a connection: a reference whose opens outnumber
    the relay's answers to them (a [terminal.opened], or an error that names it)
    still has its terminal here, waiting, even when its owner is gone; when the
    answer comes, the identifier is recorded; and every recorded identifier has
    its terminal here, or the relay has been sent its close, or closed it
    itself, or gave the same reference another identifier. While the connection
    is up, a terminal whose owner is gone and that the relay has opened is
    closed before the next event. A connection that ends because the last
    terminal ended leaves none here, no open unanswered, and no recorded
    identifier unclosed. *)
Theorem no_terminal_left_behind `{HashIter} (parse : text → option RelayMessage)
    (p : SessionParams) (events : list SessEvent) (m m' : Mux) (outcome : option (result SessionError text)) :
  unopened m → new_writer m → run_connection parse p events m = (outcome, m') →
  (∀ k, (answers parse events k < asks k m')%nat → waiting k m' = 1%nat)
  ∧ (∀ before txt after k id next durable accepts m1,
       events = before ++ SeFrame (Some (FText txt)) :: after →
       parse txt = Some (RmTerminalOpened k id next durable accepts) →
       run_connection parse p before m = (None, m1) → (answers parse before k < asks k m1)%nat → id ∈ mx_opened m')
  ∧ (∀ id, id ∈ mx_opened m' →
       hosted_as id m' ∨ told_closed id m' ∨ said_closed parse events id ∨ reassigned (said_opened parse events) id)
  ∧ (outcome = None → none_finished m')
  ∧ (outcome = Some (Ok last_ended) →
     mx_terminals m' = ∅ ∧ (∀ k, (asks k m' ≤ answers parse events k)%nat)
     ∧ ∀ id, id ∈ mx_opened m' →
         told_closed id m' ∨ said_closed parse events id ∨ reassigned (said_opened parse events) id).
Proof.
  intros Hun Hw Hrun. pose proof (events_said parse events) as Hsaid. revert Hrun. unfold run_connection. autorewrite with stm.
  rewrite st_bind. destruct (for_each (fst <$> hash_iter (mx_terminals m)) send_open m) as [[] m0] eqn:E0. intros Hrun.
  pose proof (account_begins parse (said_opened parse events) (said_closed parse events) m m0 Hun Hw E0) as Hbegin.
  pose proof (account_loop parse _ _ _ _ _ _ _ _ _ _ _ Hsaid Hbegin Hrun) as [_ _ Hopened _ Hasks].
  split_and!.
  - intros k Hlt. specialize (Hasks k). unfold hear_all in Hasks. pose proof (waiting_le k m'). lia.
  - intros before txt after k id next durable accepts m1 -> Hp Hup Hlt. autorewrite with stm in Hup.
    rewrite st_bind, E0 in Hup. by eapply outstanding_recorded.
  - exact Hopened.
  - intros ->. by eapply loop_up.
  - intros ->. assert (mx_terminals m' = ∅) as He.
    { apply loop_ends in Hrun as [Hs|[_ ?]]; [by apply (f_equal length) in Hs|done]. }
    split; [done|]. split.
    + intros k. specialize (Hasks k). unfold hear_all, waiting in Hasks. rewrite He, lookup_empty in Hasks. lia.
    + intros id [(k & h & Hh & _)|?]%Hopened; [by rewrite He, lookup_empty in Hh|done].
Qed.

(** One terminal opens, its owner closes it, the handles go. *)
Definition example_session_parse (txt : text) : option RelayMessage :=
  if bool_decide (txt = lit "opened") then Some (RmTerminalOpened (lit "a") 7 0 0 true) else None.
Definition example_unopened : Mux :=
  mkMux {[lit "a" := mkHosted (mkTerminalSpec (lit "a") (lit "shell") 80 24 (lit "xterm") (Some (lit "q1"))) None 0 None]}
    [] None {[0 := example_chan]} [].
Definition example_session_events : list SessEvent :=
  [SeFrame (Some (FText (lit "opened"))); SeControl (Some (CtClose (lit "a") (lit "process_exited"))) 200;
   SeControl None 200].
Definition example_session_params : SessionParams := mkSessionParams example_session_limits 10 [] false.
Definition example_session_end : Mux :=
  (run_connection (H := map_iter) example_session_parse example_session_params example_session_events example_unopened).2.

Lemma example_unopened_ok : unopened example_unopened.
Proof.
  split; [| |done].
  - intros k h. cbn. by intros [<- <-]%lookup_singleton_Some.
  - intros k h. cbn. by intros [<- <-]%lookup_singleton_Some.
Qed.
(** The owner closes its terminal before the relay has answered. *)
Definition example_early_events : list SessEvent :=
  [SeControl (Some (CtClose (lit "a") (lit "process_exited"))) 200; SeFrame (Some (FText (lit "opened"))); SeControl None 200].
Definition example_early_end : Mux :=
  (run_connection (H := map_iter) example_session_parse example_session_params example_early_events example_unopened).2.
Definition example_early_wait : Mux :=
  (run_connection (H := map_iter) example_session_parse example_session_params
     [SeControl (Some (CtClose (lit "a") (lit "process_exited"))) 200] example_unopened).2.
(** Its identifier is recorded when it comes, its close is sent, and nothing is
    left when the connection ends. *)
Lemma no_terminal_left_behind_witness :
  7 ∈ mx_opened example_early_end ∧ waiting (lit "a") example_early_wait = 1%nat
  ∧ mx_terminals example_early_end = ∅
  ∧ (told_closed 7 example_early_end ∨ said_closed example_session_parse example_early_events 7
     ∨ reassigned (said_opened example_session_parse example_early_events) 7).
Proof.
  assert (run_connection (H := map_iter) example_session_parse example_session_params example_early_events example_unopened
          = (Some (Ok last_ended), example_early_end)) as Hrun by (vm_compute; reflexivity).
  destruct (no_terminal_left_behind (H := map_iter) example_session_parse example_session_params example_early_events
              example_unopened example_early_end _ example_unopened_ok (or_introl eq_refl) Hrun) as (_ & Hrec & _ & _ & Hend).
  destruct (Hend eq_refl) as (He & _ & Hclosed).
  assert (7 ∈ mx_opened example_early_end) as Hin.
  { apply (Hrec [SeControl (Some (CtClose (lit "a") (lit "process_exited"))) 200] (lit "opened") [SeControl None 200] (lit "a") 7 0 0
             true example_early_wait); [done|by vm_compute|vm_compute; reflexivity|]. apply Nat.ltb_lt. vm_compute. reflexivity. }
  split_and!; [exact Hin|vm_compute; reflexivity|exact He|by apply Hclosed].
Defined.

(** ** What an earlier run left *)

(** The sweep closes exactly what an earlier run left open and this
    connection has not reopened, and touches nothing else. *)
Theorem sweep_closes_only_orphans (previously_open : list Uuid) (m : Mux) :
  sweep_orphans previously_open m =
    ((), set_writer (λ l, l ++ ((λ id, WText (close_message id (lit "publisher_replaced"))) <$>
                                 filter (λ id, id ∉ mx_opened m) previously_open)) m).
Proof.
  revert m. unfold sweep_orphans. induction previously_open as [|id ids IH]; intros m; cbn [for_each];
    [by rewrite writer_same|].
  rewrite st_bind. autorewrite with stm. case_bool_decide as Hid.
  - rewrite st_ret, IH, filter_cons_False; [done|]. by intros ?.
  - rewrite filter_cons_True by done. cbn. rewrite IH. unfold set_writer. cbn. by rewrite <- app_assoc.
Qed.

(** ** From one connection to the next *)

Section reconnect.
Context `{HashIter}.
Context (parse : text → option RelayMessage).

Lemma detach_each (l : list (text * Hosted)) m :
  ∃ cs, for_each l (λ '(_, h), _ ← try_send (ho_events h) EvDetached; mret ()) m
        = ((), set_event_channels (λ _, cs) m).
Proof.
  revert m. induction l as [|[k h] l IH]; intros m; cbn [for_each];
    [exists (mx_channels m); by destruct m|].
  rewrite !st_bind. destruct (try_send (ho_events h) EvDetached m) as [r m1] eqn:E.
  apply try_send_inv in E as (cs & -> & _). destruct (IH (set_event_channels (λ _, cs) m)) as [cs' Hcs'].
  exists cs'. autorewrite with stm. exact Hcs'.
Qed.

Lemma unopened_disconnect m : keyed m → unopened (on_disconnect m).2.
Proof.
  intros Hk. unfold on_disconnect. autorewrite with stm. rewrite st_bind.
  destruct (detach_each (hash_iter (mx_terminals m)) m) as [cs ->]. autorewrite with stm.
  unfold st_modify. cbn [snd]. split; [| |done].
  - intros k h. cbn [snd mx_terminals set_terminals set_opened set_event_channels]. 
   rewrite lookup_fmap. intros (h0 & Hh & ->)%fmap_Some. exact (Hk k h0 Hh).
  - intros k h. cbn [snd mx_terminals set_terminals set_opened set_event_channels]. rewrite lookup_fmap. by intros (h0 & _ & ->)%fmap_Some.
Qed.

Lemma unopened_terminals m m' :
  mx_opened m' = mx_opened m →
  (∀ k h', mx_terminals m' !! k = Some h' → (sp_local_ref (ho_spec h') = k ∧ ho_terminal_id h' = None)
     ∨ ∃ h, mx_terminals m !! k = Some h ∧ identity h' = identity h) →
  unopened m → unopened m'.
Proof.
  intros Hop Hts [H1 H2 H3]. split; [| |congruence].
  - intros k h [[? _]|(h0 & Hh & [= -> _])]%Hts; [done|by apply H1].
  - intros k h [[_ ?]|(h0 & Hh & [= _ ->])]%Hts; [done|by apply (H2 k)].
Qed.
Lemma unopened_try_send loc e m r m' : try_send loc e m = (r, m') → unopened m → unopened m'.
Proof.
  intros (cs & -> & _)%try_send_inv. apply unopened_terminals; [done|]. intros k h Hk. right. by exists h.
Qed.
Lemma unopened_alter f k m :
  (∀ h, identity (f h) = identity h) → unopened m → unopened (set_terminals (alter f k) m).
Proof.
  intros Hf. apply unopened_terminals; [done|]. intros k' h'. cbn. rewrite lookup_alter.
  case_decide; [|intros ?; right; by exists h']. subst. intros (h & Hh & ->)%fmap_Some. right. by exists h.
Qed.

Lemma unopened_stash c m : unopened m → unopened (stash c m).2.
Proof.
  intros Hu. destruct c as [spec loc|k offset bytes|k cols rows|k reason|id reason]; cbn [stash]; try done.
  - eapply unopened_terminals; [| |exact Hu]; [done|]. intros k h. cbn.
    intros [[<- <-]|[_ Hk]]%lookup_insert_Some; [by left|right; by exists h].
  - by apply unopened_alter.
  - autorewrite with stm. destruct (mx_terminals m !! k) as [h|]; [|done]. autorewrite with stm.
    unfold deliver_final. rewrite st_bind. destruct (try_send _ _ _) as [r m1] eqn:E.
    eapply unopened_try_send; [exact E|]. by apply unopened_alter.
Qed.

Lemma unopened_stash_all cs m : unopened m → unopened (stash_all cs m).2.
Proof.
  revert m. induction cs as [|[c|] cs IH]; intros m Hu; cbn [stash_all]; [done| |done].
  rewrite st_bind. pose proof (unopened_stash c m Hu). destruct (stash c m) as [u m1]. by apply IH.
Qed.

Lemma unopened_wait received m : keyed m → unopened (wait_to_retry received m).2
  ∧ ∀ k h, mx_terminals (wait_to_retry received m).2 !! k = Some h → ho_closing h = None.
Proof.
  intros Hk. unfold wait_to_retry. rewrite st_bind.
  pose proof (unopened_disconnect m Hk) as Hu. destruct (on_disconnect m) as [u m1]. cbn [snd] in Hu.
  rewrite st_bind. pose proof (unopened_stash_all received m1 Hu) as Hu2.
  destruct (stash_all received m1) as [closed m2]. cbn [snd] in Hu2. autorewrite with stm. cbn [snd]. split.
  - eapply unopened_terminals; [| |exact Hu2]; [done|]. intros k h. cbn.
    intros [Hh _]%map_lookup_filter_Some. right. by exists h.
  - intros k h. cbn. by intros [_ ?]%map_lookup_filter_Some.
Qed.

(** A lost connection is an interruption. After any failure nothing is
    framed against an old identifier, what ended meanwhile is forgotten, and
    the next connection opens every remaining terminal again, each under its
    own reference, once. (The request a terminal answered is echoed again with
    it.) *)
Theorem failure_reopens_everything (received : list (option Control)) (p : SessionParams)
    (m m1 m2 : Mux) (ended : option text) (outcome : option (result SessionError text)) :
  keyed m → wait_to_retry received m = (ended, m1) → run_connection parse p [] m1 = (outcome, m2) →
  unopened m1 ∧ (∀ k h, mx_terminals m1 !! k = Some h → ho_closing h = None)
  ∧ outcome = None ∧ mx_terminals m2 = mx_terminals m1
  ∧ ∃ opens, mx_writer m2 = mx_writer m1 ++ opens
      ∧ opens ≡ₚ (λ '(_, h), opening (ho_spec h)) <$> map_to_list (mx_terminals m1).
Proof.
  intros Hk Hw Hr. destruct (unopened_wait received m Hk) as [Hu Hc]. rewrite Hw in Hu, Hc. cbn [snd] in Hu, Hc.
  pose proof Hu as [_ Hids _]. split; [done|]. split; [done|].
  revert Hr. unfold run_connection. autorewrite with stm. rewrite st_bind, open_all.
  - cbn [session_loop]. rewrite st_bind, nothing_finished.
    2: { intros k h Hh. unfold is_finished. rewrite (Hids k h Hh). apply andb_false_r. }
    autorewrite with stm. rewrite andb_false_r. intros [= <- <-]. split_and!; [done|done|]. eexists. split; [done|].
    by rewrite hash_iter_perm.
  - intros k h Hin%hash_iter_elem. split; [done|by apply (Hids k)].
Qed.
End reconnect.

(** The connection fails while the terminal is open. *)
Definition example_dropped : Mux :=
  mkMux {[lit "a" := mkHosted (mkTerminalSpec (lit "a") (lit "shell") 80 24 (lit "xterm") (Some (lit "q1"))) (Some 7) 0 None]}
    [7] None {[0 := example_chan]} [].
Definition example_waited : Mux := (wait_to_retry (H := map_iter) [Some (CtResize (lit "a") 100 30)] example_dropped).2.
Definition example_reopened : Mux :=
  (run_connection (H := map_iter) example_session_parse example_session_params [] example_waited).2.
Lemma example_dropped_keyed : keyed example_dropped.
Proof. intros k h. cbn. by intros [<- <-]%lookup_singleton_Some. Qed.

Lemma failure_reopens_everything_witness :
  unopened example_waited ∧ (∀ k h, mx_terminals example_waited !! k = Some h → ho_closing h = None)
  ∧ (None : option (result SessionError text)) = None ∧ mx_terminals example_reopened = mx_terminals example_waited
  ∧ ∃ opens, mx_writer example_reopened = mx_writer example_waited ++ opens
      ∧ opens ≡ₚ (λ '(_, h), opening (ho_spec h)) <$> map_to_list (mx_terminals example_waited).
Proof.
  assert (wait_to_retry (H := map_iter) [Some (CtResize (lit "a") 100 30)] example_dropped = (None, example_waited))
    as Hw by (vm_compute; reflexivity).
  assert (run_connection (H := map_iter) example_session_parse example_session_params [] example_waited
          = (None, example_reopened)) as Hr by (vm_compute; reflexivity).
  exact (failure_reopens_everything (H := map_iter) example_session_parse _ example_session_params _ _ _ _ _
           example_dropped_keyed Hw Hr).
Defined.

(** ** How long it tries *)

Lemma retry_delay_bounds n : 1 ≤ n → 1000 ≤ retry_delay_ms n ≤ 30000.
Proof.
  intros Hn. unfold retry_delay_ms.
  assert (N.min n 6 = 1 ∨ N.min n 6 = 2 ∨ N.min n 6 = 3 ∨ N.min n 6 = 4 ∨ N.min n 6 = 5 ∨ N.min n 6 = 6)
    as [-> |[-> |[-> |[-> |[-> | ->]]]]] by lia; vm_compute; split; congruence.
Qed.

(** The session never gives up on a terminal. However often connecting
    fails and whatever happens in between, it ends only when no terminal is
    left or when another publisher took the device over; between attempts it
    waits at least one second and at most thirty, and the wait grows with
    every failure there ever was. *)
Theorem session_never_gives_up `{HashIter} (parse : text → option RelayMessage) (debug : text → text)
    (allow : bool) (attempt : N) (rounds : list Round) (m : Mux) :
  let '((delays, ended), m') := maintain parse debug allow attempt rounds m in
  match ended with
  | Some reason => reason = superseded_text ∨ (reason = last_ended ∧ mx_terminals m' = ∅)
  | None => True
  end
  ∧ Forall (λ d, 1000 ≤ d ≤ 30000) delays
  ∧ ∀ i d, delays !! i = Some d → attempt + N.of_nat i + 1 < two32 →
      d = retry_delay_ms (attempt + N.of_nat i + 1).
Proof.
  revert attempt m. induction rounds as [|r rounds IH]; intros attempt m; cbn [maintain]; [done|].
  rewrite st_bind.
  assert (∀ reason m1, connect_and_publish parse debug allow (rd_dialled r) (rd_events r) m = (Some (Ok reason), m1) →
            reason = superseded_text ∨ (reason = last_ended ∧ mx_terminals m1 = ∅)) as Hend.
  { unfold connect_and_publish. intros reason m1. destruct (rd_dialled r) as [d|e]; [|done].
    destruct (negb _); [done|]. autorewrite with stm. destruct (await_ready _ _) as [[limits|e]|]; [|done|done].
    unfold run_connection. destruct allow; autorewrite with stm; rewrite st_bind; destruct (for_each _ _ _);
      apply loop_ends. }
  destruct (connect_and_publish _ _ _ _ _ m) as [[[reason|err]|] m1]; autorewrite with stm.
  - split; [by apply Hend|]. by split.
  - cbv zeta. rewrite st_bind. destruct (wait_to_retry (rd_waiting r) m1) as [ended m2] eqn:Ew.
    assert (1000 ≤ retry_delay_ms (N.min (attempt + 1) (two32 - 1)) ≤ 30000) as Hd by (apply retry_delay_bounds; lia).
    destruct ended as [reason|]; autorewrite with stm.
    + split_and!; [right|by apply Forall_singleton|].
      * revert Ew. unfold wait_to_retry. rewrite st_bind. destruct (on_disconnect m1) as [u m3].
        rewrite st_bind. destruct (stash_all _ m3) as [closed m4]. autorewrite with stm.
        unfold mux_idle. case_bool_decide as Hi; destruct closed; intros [= <- <-]; done.
      * intros [|i] d; [|done]. intros [= <-] Hl. f_equal. lia.
    + rewrite st_bind. specialize (IH (N.min (attempt + 1) (two32 - 1)) m2).
      destruct (maintain _ _ _ _ _ m2) as [[delays ended] m3]. autorewrite with stm.
      destruct IH as (H1 & H2 & H3). split_and!; [done|by constructor|].
      intros [|i] d; [intros [= <-] Hl; f_equal; lia|]. intros Hi Hl. rewrite (H3 i d Hi); [f_equal|]; lia.
  - by split_and!.
Qed.

(** ** Where the session does less than it says *)

(** A refusal of a frame is not sent through [deliver]: when the owner's queue
    is full it is dropped, and the terminal is not marked to be closed. *)
Theorem mismatch_lost_when_full `{HashIter} (message k : text) (next : N) (h : Hosted) (c : EvChan) (m : Mux) :
  mx_terminals m !! k = Some h → mx_channels m !! ho_events h = Some c → ec_rx_open c = true →
  ec_capacity c ≤ len (ec_queue c) →
  on_terminal_error (lit "offset_mismatch") message None (Some k) (Some next) m = (true, m).
Proof.
  intros Hk Hc Ho Hf. unfold on_terminal_error. autorewrite with stm.
  assert (error_target None (Some k) m = Some k) as ->.
  { unfold error_target. cbn. by rewrite Hk. }
  rewrite bool_decide_eq_true_2 by done. rewrite Hk. rewrite st_bind. unfold try_send. rewrite Hc, Ho. cbn [negb].
  by rewrite (proj2 (N.leb_le _ _) Hf).
Qed.

(** A second shell under a reference in use is refused on a connection, and
    silently takes the first one's place between connections. *)
Theorem stash_replaces_a_shell (spec : TerminalSpec) (loc : N) (h : Hosted) (m : Mux) :
  mx_terminals m !! sp_local_ref spec = Some h →
  let m' := (stash (CtOpen spec loc) m).2 in
  mx_terminals m' !! sp_local_ref spec = Some (new_hosted spec loc) ∧ mx_channels m' = mx_channels m.
Proof. intros _. cbn. split; [apply lookup_insert_eq|done]. Qed.
