(* ===== verification/Ipc.v ===== *)
(** * The local protocol ([publisher/src/ipc.rs])

    Length-prefixed frames on the socket between a hosted shell and the
    daemon. [read_frame] reads one from the bytes that are still to come;
    running out of them is the end of the file. [serde_json] is the interface
    [IpcJson]. The names of the socket and the directory it lives in are in
    [LocalPaths]. *)

From S2P Require Export Prelude.

Open Scope N_scope.
Open Scope hype_scope.

Definition IPC_VERSION : N := 2.
Definition FRAME_CONTROL : byte := x01.
Definition FRAME_OUTPUT : byte := x02.
Definition FRAME_INPUT : byte := x03.
Definition MAX_FRAME_BYTES : N := 1024 * 1024.

Inductive IpcError :=
| IpcEof
| IpcIo (detail : text)
| TooLarge (length : N)
| UnknownFrame (kind : byte)
| WrongDirection (kind : byte)
| Malformed (detail : text).

Inductive FromClient :=
| FcHello (ipc_version : N) (build : text) (pid : N)
| FcOpen (local_ref label : text) (cols rows : N) (term : text) (in_reply_to : option text)
| FcResize (cols rows : N)
| FcClose (reason : text)
| FcRetire
| FcUnrecognised.

Inductive FromDaemon :=
| FdHelloOk (ipc_version : N) (build : text) (pid clients : N)
| FdAttached (terminal_id : text) (next_offset max_output_frame_bytes max_unacked_output_bytes : N)
| FdAck (durable_offset : N)
| FdMismatch (next_offset : N)
| FdDetached
| FdResizeRequest (cols rows : N)
| FdEnded (reason : text)
| FdError (code message : text)
| FdUnrecognised.

Inductive Frame :=
| IfControl (payload : list byte)
| IfOutput (start_offset : N) (bytes : list byte)
| IfInput (bytes : list byte).

(** [serde_json::to_vec] and [from_slice]. *)
Class IpcJson (T : Type) := {
  to_vec : T → list byte;
  from_slice : list byte → result text T;
}.
Definition parse_control {T} `{IpcJson T} (payload : list byte) : result IpcError T :=
  match from_slice payload with Ok m => Ok m | Err e => Err (Malformed e) end.

(** ** Framing *)

(** [(n as u32).to_be_bytes()] *)
Definition u32_bytes (n : N) : list byte := be_bytes 4 n.

Definition encode_control_bytes (json : list byte) : list byte :=
  [FRAME_CONTROL] ++ u32_bytes (len json) ++ json.
Definition encode_control {T} `{IpcJson T} (message : T) : list byte := encode_control_bytes (to_vec message).
Definition encode_output (start_offset : N) (bytes : list byte) : list byte :=
  [FRAME_OUTPUT] ++ u32_bytes (len bytes + 8) ++ be_bytes 8 start_offset ++ bytes.
Definition encode_input (bytes : list byte) : list byte :=
  [FRAME_INPUT] ++ u32_bytes (len bytes) ++ bytes.

(** [read_exact] of [n] bytes. *)
Definition read_exact (n : N) (stream : list byte) : result IpcError (list byte * list byte) :=
  if len stream <? n then Err IpcEof else Ok (takeN n stream, dropN n stream).

Definition classify_frame (kind : byte) (payload : list byte) (expect_output : bool) : result IpcError Frame :=
  if bool_decide (kind = FRAME_CONTROL) then Ok (IfControl payload)
  else if bool_decide (kind = FRAME_OUTPUT) && expect_output then
    if len payload <? 8 then Err (Malformed (lit "an output frame with no offset"))
    else Ok (IfOutput (be_combine (takeN 8 payload)) (dropN 8 payload))
  else if bool_decide (kind = FRAME_INPUT) && negb expect_output then Ok (IfInput payload)
  else if bool_decide (kind = FRAME_OUTPUT) || bool_decide (kind = FRAME_INPUT) then Err (WrongDirection kind)
  else Err (UnknownFrame kind).

(** The frame and what is left of the stream. *)
Definition read_frame (expect_output : bool) (stream : list byte) : result IpcError (Frame * list byte) :=
  let? (kind, stream) := read_exact 1 stream in
  let? (length, stream) := read_exact 4 stream in
  let length := be_combine length in
  if MAX_FRAME_BYTES <? length then Err (TooLarge length)
  else
    let? (payload, stream) := read_exact length stream in
    let? frame := classify_frame (default x00 (head kind)) payload expect_output in
    Ok (frame, stream).

(** Frames until the stream ends or cannot be read: what was read, and why it
    stopped. Every frame takes five bytes at least, so the fuel is the length. *)
Fixpoint read_frames_loop (fuel : nat) (expect_output : bool) (stream : list byte) : list Frame * IpcError :=
  match fuel with
  | O => ([], IpcEof)
  | S fuel =>
      match read_frame expect_output stream with
      | Ok (frame, rest) =>
          let '(frames, e) := read_frames_loop fuel expect_output rest in (frame :: frames, e)
      | Err e => ([], e)
      end
  end.
Definition read_frames (expect_output : bool) (stream : list byte) : list Frame * IpcError :=
  read_frames_loop (S (length stream)) expect_output stream.

(** ** Properties *)

(** What [encode_…] makes of a frame, and which frames fit and travel in which
    direction. *)
Definition encode_frame (f : Frame) : list byte :=
  match f with
  | IfControl payload => encode_control_bytes payload
  | IfOutput start_offset bytes => encode_output start_offset bytes
  | IfInput bytes => encode_input bytes
  end.
Definition frame_fits (expect_output : bool) (f : Frame) : Prop :=
  match f with
  | IfControl payload => len payload ≤ MAX_FRAME_BYTES
  | IfOutput start_offset bytes => expect_output = true ∧ start_offset < two64 ∧ len bytes + 8 ≤ MAX_FRAME_BYTES
  | IfInput bytes => expect_output = false ∧ len bytes ≤ MAX_FRAME_BYTES
  end.

Lemma read_exact_app n (a b : list byte) : len a = n → read_exact n (a ++ b) = Ok (a, b).
Proof.
  intros <-. unfold read_exact. case_N; [len_lia|].
  by rewrite takeN_app_le, takeN_ge, dropN_app_ge, N.sub_diag, dropN_0 by lia.
Qed.
Lemma read_exact_inv n s a b : read_exact n s = Ok (a, b) → s = a ++ b ∧ len a = n.
Proof. unfold read_exact. case_N; [done|]. intros [= <- <-]. split; [by rewrite takeN_dropN|len_lia]. Qed.

(** A whole frame: its type, its length, its payload. *)
Lemma read_whole expect kind payload rest :
  len payload ≤ MAX_FRAME_BYTES →
  read_frame expect ([kind] ++ u32_bytes (len payload) ++ payload ++ rest) =
    let? frame := classify_frame kind payload expect in Ok (frame, rest).
Proof.
  intros Hl. unfold read_frame. rewrite read_exact_app by done. cbn [res_bind].
  rewrite read_exact_app by (unfold u32_bytes; len_lia). cbn [res_bind].
  unfold u32_bytes. rewrite be_combine_bytes by (unfold MAX_FRAME_BYTES in Hl; change (256 ^ N.of_nat 4) with two32; lia).
  case_N; [lia|]. by rewrite read_exact_app.
Qed.

Lemma read_encoded expect f rest :
  frame_fits expect f → read_frame expect (encode_frame f ++ rest) = Ok (f, rest).
Proof.
  destruct f as [payload|offset bytes|bytes]; cbn [frame_fits encode_frame].
  - intros Hl. unfold encode_control_bytes. rewrite <- !app_assoc. by rewrite read_whole.
  - intros (-> & Ho & Hl). unfold encode_output.
    replace (len bytes + 8) with (len (be_bytes 8 offset ++ bytes)) by len_lia.
    rewrite <- !app_assoc. rewrite (app_assoc (be_bytes 8 offset)), read_whole by len_lia.
    unfold classify_frame. rewrite bool_decide_eq_false_2 by done. rewrite bool_decide_eq_true_2 by done. cbn [andb].
    case_N; [len_lia|]. rewrite takeN_app_le, takeN_ge by len_lia.
    rewrite be_combine_bytes by done. rewrite dropN_app_ge by len_lia. rewrite len_be_bytes. by rewrite dropN_0.
  - intros (-> & Hl). unfold encode_input. rewrite <- !app_assoc, read_whole by done.
    unfold classify_frame. rewrite !bool_decide_eq_false_2 by done. by rewrite bool_decide_eq_true_2.
Qed.

Lemma classify_frame_inv expect kind payload f :
  len payload ≤ MAX_FRAME_BYTES → classify_frame kind payload expect = Ok f →
  encode_frame f = [kind] ++ u32_bytes (len payload) ++ payload ∧ frame_fits expect f.
Proof.
  intros Hl. unfold classify_frame. case_bool_decide as H1; [by intros [= <-]; subst|].
  destruct (bool_decide (kind = FRAME_OUTPUT) && expect) eqn:H2.
  - apply andb_true_iff in H2 as [Hk%bool_decide_eq_true ->]. case_N; [done|]. intros [= <-]. subst kind.
    cbn [encode_frame frame_fits]. unfold encode_output. split.
    + rewrite be_bytes_combine by (apply Nat2N.inj; fold (len (takeN 8 payload)); len_lia). rewrite takeN_dropN.
      do 3 f_equal. len_lia.
    + split_and!; [done| |len_lia]. pose proof (be_combine_lt (takeN 8 payload)) as Hb.
      replace (len (takeN 8 payload)) with 8 in Hb by len_lia. exact Hb.
  - destruct (bool_decide (kind = FRAME_INPUT) && negb expect) eqn:H3.
    + apply andb_true_iff in H3 as [Hk%bool_decide_eq_true He%negb_true_iff]. intros [= <-]. by subst.
    + destruct (_ || _); done.
Qed.

Lemma read_frame_inv expect s f rest :
  read_frame expect s = Ok (f, rest) → s = encode_frame f ++ rest ∧ frame_fits expect f.
Proof.
  unfold read_frame.
  destruct (read_exact 1 s) as [[kind s1]|] eqn:E1; cbn [res_bind]; [|done].
  destruct (read_exact 4 s1) as [[size s2]|] eqn:E2; cbn [res_bind]; [|done].
  case_N; [done|]. destruct (read_exact (be_combine size) s2) as [[payload s3]|] eqn:E3; cbn [res_bind]; [|done].
  apply read_exact_inv in E1 as [-> Hk]. apply read_exact_inv in E2 as [-> Hs]. apply read_exact_inv in E3 as [-> Hp].
  destruct kind as [|k []]; try (unfold len in Hk; cbn in Hk; lia). cbn [head default].
  destruct (classify_frame _ payload expect) as [f'|] eqn:Ec; cbn [res_bind]; [|done]. intros [= <- <-].
  apply classify_frame_inv in Ec as [-> Hf]; [|by rewrite Hp]. split; [|done].
  rewrite Hp. unfold u32_bytes. rewrite be_bytes_combine by (unfold len in Hs; lia). by rewrite <- !app_assoc.
Qed.

(** The framing is exact. A frame is read off a stream exactly when the
    stream starts with that frame's encoding, the frame fits, and it travels in
    the direction it is for; then the rest of the stream is untouched. In
    particular a cut frame is never taken for a whole one, and keystrokes are
    never taken for output. *)
Theorem ipc_frames_exact (expect_output : bool) (stream rest : list byte) (f : Frame) :
  read_frame expect_output stream = Ok (f, rest) ↔
    stream = encode_frame f ++ rest ∧ frame_fits expect_output f.
Proof. split; [apply read_frame_inv|]. intros [-> Hf]. by apply read_encoded. Qed.

Lemma encode_frame_length f : (5 ≤ length (encode_frame f))%nat.
Proof.
  assert (5 ≤ len (encode_frame f)) as H; [|unfold len in H; lia].
  destruct f; cbn [encode_frame]; unfold encode_control_bytes, encode_output, encode_input, u32_bytes; len_lia.
Qed.

Lemma read_frames_spec fuel expect fs tail :
  Forall (frame_fits expect) fs → (length (mjoin (encode_frame <$> fs) ++ tail) < fuel)%nat →
  read_frames_loop fuel expect (mjoin (encode_frame <$> fs) ++ tail) =
    let '(more, e) := read_frames_loop (fuel - length fs) expect tail in (fs ++ more, e).
Proof.
  intros Hf. revert fuel. induction Hf as [|f fs Hff Hf IH]; intros fuel Hl.
  - cbn. rewrite Nat.sub_0_r. by destruct (read_frames_loop fuel expect tail).
  - change (mjoin (encode_frame <$> f :: fs)) with (encode_frame f ++ mjoin (encode_frame <$> fs)) in *.
    rewrite <- app_assoc in *. rewrite length_app in Hl. pose proof (encode_frame_length f).
    destruct fuel as [|fuel]; [lia|]. cbn [read_frames_loop]. rewrite read_encoded, IH by (done || lia).
    cbn [length Nat.sub]. by destruct (read_frames_loop (fuel - length fs) expect tail).
Qed.

Lemma read_loop_enough fuel fuel' expect s :
  (length s < fuel)%nat → (length s < fuel')%nat → read_frames_loop fuel expect s = read_frames_loop fuel' expect s.
Proof.
  revert fuel' s. induction fuel as [|fuel IH]; intros [|fuel'] s H1 H2; try lia. cbn [read_frames_loop].
  destruct (read_frame expect s) as [[f rest]|e] eqn:E; [|done].
  apply read_frame_inv in E as [-> _]. rewrite length_app in *. pose proof (encode_frame_length f).
  by rewrite (IH fuel') by lia.
Qed.

(** Reading a connection terminates with everything that was sent. Frames
    that fit are read back one by one, in order and unchanged, however they
    run together in the stream; whatever follows them is read as if it came
    first, and the end of the file ends the reading. *)
Theorem ipc_stream_reads_back (expect_output : bool) (fs : list Frame) (tail : list byte) :
  Forall (frame_fits expect_output) fs →
  read_frames expect_output (mjoin (encode_frame <$> fs) ++ tail) =
    (fs ++ (read_frames expect_output tail).1, (read_frames expect_output tail).2)
  ∧ read_frames expect_output (mjoin (encode_frame <$> fs)) = (fs, IpcEof).
Proof.
  intros Hf.
  assert (∀ tail, read_frames expect_output (mjoin (encode_frame <$> fs) ++ tail) =
    (fs ++ (read_frames expect_output tail).1, (read_frames expect_output tail).2)) as Hall.
  { clear tail. intros tail. unfold read_frames. rewrite read_frames_spec by (done || lia).
    rewrite (read_loop_enough _ (S (length tail)) _ tail); [by destruct (read_frames_loop _ _ tail)| |lia].
    rewrite length_app. assert (length fs ≤ length (mjoin (encode_frame <$> fs)))%nat; [|lia].
    clear. induction fs as [|f fs IH]; [done|].
    change (mjoin (encode_frame <$> f :: fs)) with (encode_frame f ++ mjoin (encode_frame <$> fs)).
    rewrite length_app. pose proof (encode_frame_length f). cbn [length]. lia. }
  split; [apply Hall|]. specialize (Hall []). rewrite app_nil_r in Hall. rewrite Hall.
  change (read_frames expect_output []) with (@nil Frame, IpcEof). cbn [fst snd]. by rewrite app_nil_r.
Qed.

Lemma ipc_stream_reads_back_witness :
  let fs := [IfControl [x7b; x7d]; IfOutput 3 [x61]] in
  read_frames true (mjoin (encode_frame <$> fs) ++ [x03]) = (fs ++ (read_frames true [x03]).1, (read_frames true [x03]).2)
  ∧ read_frames true (mjoin (encode_frame <$> fs)) = (fs, IpcEof).
Proof.
  apply (ipc_stream_reads_back true [IfControl [x7b; x7d]; IfOutput 3 [x61]] [x03]).
  repeat constructor; vm_compute; congruence.
Defined.
