(* ===== verification/Daemon.v ===== *)
(** * The multiplexing daemon ([publisher/src/daemon.rs])

    The daemon's side: [Shared] is what its tasks share; [converse] is one
    client's conversation, from its greeting to its close; [events_task] is
    what the terminal's events become on the socket; [host_for_request] decides
    whether a subscriber's request for a shell is honoured. The hosted shell's
    side: [forward_requests], [read_from_daemon], [reattach] and the greeting.
    Other clients run while a task waits for a frame: each read comes with what
    they did meanwhile. Sockets, locks, processes and the clock are system
    calls: what they answer is an argument. The accept loop is in
    [DaemonServe]. Log files and tracing are left out. *)

From S2P Require Export Ipc Multiplexer.

Open Scope N_scope.
Open Scope hype_scope.

(** ** State *)

Inductive WindowPolicy :=
| WpAuto
| WpNever
| WpCommand (argv : list text).

Record RemoteOpenConfig := mkRemoteOpenConfig {
  ro_enabled : bool;
  ro_shell : list text;
  ro_cwd : text;
  ro_max_terminals : N;
  ro_window : WindowPolicy;
}.
(** [RemoteOpenConfig::default] *)
Definition default_max_remote_terminals : N := 4.
Definition remote_open_default : RemoteOpenConfig :=
  mkRemoteOpenConfig false [] [] default_max_remote_terminals WpAuto.

(** Instants are nanoseconds. *)
Record Shared := mkShared {
  sh_link : ControlChan;
  sh_claimed : gset text;
  sh_clients : N;
  sh_hosting : N;
  sh_last_spawns : list N;
}.
Definition set_link (c : ControlChan) (s : Shared) : Shared :=
  mkShared c (sh_claimed s) (sh_clients s) (sh_hosting s) (sh_last_spawns s).
Definition set_claimed (f : gset text → gset text) (s : Shared) : Shared :=
  mkShared (sh_link s) (f (sh_claimed s)) (sh_clients s) (sh_hosting s) (sh_last_spawns s).
Definition set_clients (f : N → N) (s : Shared) : Shared :=
  mkShared (sh_link s) (sh_claimed s) (f (sh_clients s)) (sh_hosting s) (sh_last_spawns s).
Definition set_hosting (f : N → N) (s : Shared) : Shared :=
  mkShared (sh_link s) (sh_claimed s) (sh_clients s) (f (sh_hosting s)) (sh_last_spawns s).
Definition set_last_spawns (l : list N) (s : Shared) : Shared :=
  mkShared (sh_link s) (sh_claimed s) (sh_clients s) (sh_hosting s) l.

(** ** Codes and texts *)

Definition IPC_VERSION_MISMATCH : string := "ipc_version_mismatch".
Definition IPC_PROTOCOL_ERROR : string := "protocol_error".
Definition DUPLICATE_LOCAL_REF : string := "duplicate_local_ref".
Definition RETIRE_REFUSED : string := "retire_refused".

(** [impl Display for IpcError] *)
Definition ipc_error_text (e : IpcError) : text :=
  match e with
  | IpcEof => lit "unexpected end of file"
  | IpcIo detail => detail
  | TooLarge n => lit "the peer sent a frame of " ++ num n ++ lit " bytes, beyond the " ++ num MAX_FRAME_BYTES ++ lit " limit"
  | UnknownFrame t =>
      lit "the peer sent an unknown frame type 0x" ++ [hex_digit (Byte.to_N t / 16); hex_digit (Byte.to_N t mod 16)]
  | WrongDirection t =>
      lit "the peer sent a frame in the wrong direction: 0x" ++ [hex_digit (Byte.to_N t / 16); hex_digit (Byte.to_N t mod 16)]
  | Malformed detail => lit "the peer sent a control message that is not a JSON object: " ++ detail
  end.

(** ** One client *)

Record Attach := mkAttach {
  at_shared : Shared;
  (** The frames queued for the client. *)
  at_out : list (list byte);
}.
Abbreviation AttachM := (StM Attach).

Definition shared_gets {A} (f : Shared → A) : AttachM A := st_gets (λ a, f (at_shared a)).
Definition on_shared (f : Shared → Shared) : AttachM () := st_modify (λ a, mkAttach (f (at_shared a)) (at_out a)).
(** What the link does, on the control channel everyone shares. *)
Definition on_link {A} (c : ControlM A) : AttachM A := λ a,
  let '(r, chan) := c (sh_link (at_shared a)) in (r, mkAttach (set_link chan (at_shared a)) (at_out a)).
Definition queue_frame (frame : list byte) : AttachM () :=
  st_modify (λ a, mkAttach (at_shared a) (at_out a ++ [frame])).

Section daemon.
Context `{IpcJson FromClient} `{IpcJson FromDaemon}.
(** [CARGO_PKG_VERSION], this process, [Uuid]'s printer and parser. *)
Context (build : text) (pid : N) (uuid_to_string : Uuid → text) (uuid_parse_str : text → option Uuid).

Definition daemon_send (message : FromDaemon) : AttachM () := queue_frame (encode_control message).
Definition refuse (code : string) (message : text) : AttachM text :=
  _ ← daemon_send (FdError (lit code) message); mret message.

(** The greeting: [Ok] is how many others are attached. *)
Definition hello (read : result IpcError Frame) : AttachM (result text N) :=
  match read with
  | Ok (IfControl payload) =>
      match parse_control payload with
      | Err e => mret (Err (ipc_error_text e))
      | Ok (FcHello _ _ _) =>
          clients ← shared_gets sh_clients;
          _ ← daemon_send (FdHelloOk IPC_VERSION build pid (clients - 1));
          mret (Ok (clients - 1))
      | Ok _ => message ← refuse IPC_PROTOCOL_ERROR (lit "the first frame must be hello"); mret (Err message)
      end
  | Ok _ => message ← refuse IPC_PROTOCOL_ERROR (lit "the first frame must be hello"); mret (Err message)
  | Err e => mret (Err (ipc_error_text e))
  end.

Inductive Opened :=
| Hosts (sink : TerminalSink) (local_ref : text)
| Retires
| TurnedAway (detail : text).

Definition turned_away (code : string) (message : text) : AttachM Opened :=
  message ← refuse code message; mret (TurnedAway message).

(** [Drop for Claim], in a task of its own. *)
Definition release_claim (local_ref : text) : Shared → Shared := set_claimed (λ s, s ∖ {[local_ref]}).

(** The claim and the open; [events] is the channel [Link::open] creates. A
    claim whose open fails is dropped with its guard. *)
Definition claim_and_open (spec : TerminalSpec) (events : N) : AttachM Opened :=
  claimed ← shared_gets sh_claimed;
  if bool_decide (sp_local_ref spec ∈ claimed) then
    turned_away DUPLICATE_LOCAL_REF (lit "another terminal here already uses that reference")
  else
    _ ← on_shared (set_claimed (λ s, {[sp_local_ref spec]} ∪ s));
    sink ← on_link (link_open spec events);
    match (sink : option TerminalSink) with
    | Some sink => mret (Hosts sink (sp_local_ref spec))
    | None =>
        _ ← on_shared (release_claim (sp_local_ref spec));
        turned_away IPC_PROTOCOL_ERROR (lit "the relay connection has ended")
    end.

(** [retire] only looks: what was checked holds when [ask] answers [Retires],
    and the process exits [RETIRE_LINGER_MS] later, once the farewell was queued,
    with nothing locked in between. *)
Definition RETIRE_LINGER_MS : N := 50.
Definition ask (others : N) (read : result IpcError Frame) (events : N) : AttachM Opened :=
  match read with
  | Ok (IfControl payload) =>
      match parse_control payload with
      | Err e => mret (TurnedAway (ipc_error_text e))
      | Ok (FcOpen local_ref label cols rows term in_reply_to) =>
          claim_and_open (mkTerminalSpec local_ref label cols rows term in_reply_to) events
      | Ok FcRetire =>
          claimed ← shared_gets sh_claimed;
          if (others =? 0) && (N.of_nat (size claimed) =? 0) then
            _ ← daemon_send (FdEnded (lit "retiring so a newer build can take over")); mret Retires
          else turned_away RETIRE_REFUSED (lit "terminals are being mirrored through this daemon")
      | Ok _ => turned_away IPC_PROTOCOL_ERROR (lit "expected open")
      end
  | Ok _ => turned_away IPC_PROTOCOL_ERROR (lit "expected open")
  | Err e => mret (TurnedAway (ipc_error_text e))
  end.

(** One frame of an attached client; [None] goes on. *)
Definition client_frame (sink : TerminalSink) (read : result IpcError Frame) : AttachM (option (result text ())) :=
  match read with
  | Ok (IfOutput start_offset bytes) =>
      if is_empty bytes then mret None
      else
        sent ← on_link (sink_publish start_offset bytes sink);
        mret (if (sent : bool) then None else Some (Ok ()))
  | Ok (IfControl payload) =>
      match parse_control payload with
      | Err e => mret (Some (Err (ipc_error_text e)))
      | Ok (FcResize cols rows) => _ ← on_link (sink_resize cols rows sink); mret None
      | Ok (FcClose _) => mret (Some (Ok ()))
      | Ok _ => mret None
      end
  | Ok (IfInput _) => mret (Some (Err (lit "a client sent an input frame")))
  | Err IpcEof => mret (Some (Ok ()))
  | Err e => mret (Some (Err (ipc_error_text e)))
  end.

(** What a read brings, and what others did while it was awaited. *)
Abbreviation Read := ((Shared → Shared) * result IpcError Frame)%type.

Fixpoint client_loop (sink : TerminalSink) (reads : list Read) : AttachM (option (result text ())) :=
  match reads with
  | [] => mret None
  | (meanwhile, read) :: rest =>
      _ ← on_shared meanwhile;
      outcome ← client_frame sink read;
      match (outcome : option (result text ())) with
      | None => client_loop sink rest
      | Some r => mret (Some r)
      end
  end.

(** The last thing the conversation does. *)
Definition finish_client (sink : TerminalSink) (local_ref : text) : AttachM () :=
  _ ← on_link (sink_begin_shutdown true sink);
  on_shared (release_claim local_ref).

Inductive Served :=
| Serving
(** The process exits [RETIRE_LINGER_MS] from now, whatever goes on by then. *)
| Retiring
| Served_ (outcome : result text ()).

Definition converse (events : N) (reads : list Read) : AttachM Served :=
  match reads with
  | [] => mret Serving
  | (meanwhile, first) :: reads =>
      _ ← on_shared meanwhile;
      greeting ← hello first;
      match (greeting : result text N) with
      | Err detail => mret (Served_ (Err detail))
      | Ok others =>
          match reads with
          | [] => mret Serving
          | (meanwhile, second) :: reads =>
              _ ← on_shared meanwhile;
              opened ← ask others second events;
              match opened with
              | TurnedAway detail => mret (Served_ (Err detail))
              | Retires => mret Retiring
              | Hosts sink local_ref =>
                  outcome ← client_loop sink reads;
                  match (outcome : option (result text ())) with
                  | None => mret Serving
                  | Some r => _ ← finish_client sink local_ref; mret (Served_ r)
                  end
              end
          end
      end
  end.

(** What one event becomes on the socket: a message, or keystrokes. *)
Definition event_message (event : Event) : FromDaemon + list byte :=
  match event with
  | EvAttached terminal_id next_offset limits =>
      inl (FdAttached (uuid_to_string terminal_id) next_offset
             (lm_max_output_frame_bytes limits) (lm_max_unacked_output_bytes limits))
  | EvAck durable_offset => inl (FdAck durable_offset)
  | EvMismatch next_offset => inl (FdMismatch next_offset)
  | EvDetached => inl FdDetached
  | EvResizeRequest cols rows => inl (FdResizeRequest cols rows)
  | EvInput bytes => inr bytes
  | EvEnded reason => inl (FdEnded reason)
  end.
Definition event_frame (event : Event) : list byte :=
  match event_message event with
  | inl message => encode_control message
  | inr bytes => encode_input bytes
  end.
(** The task that carries a terminal's events; it stops after [Ended]. *)
Fixpoint events_task (events : list Event) : list (list byte) :=
  match events with
  | [] => []
  | EvEnded reason :: _ => [event_frame (EvEnded reason)]
  | e :: rest => event_frame e :: events_task rest
  end.

(** ** The hosted shell's side *)

Inductive CarryEnd :=
| Transport
| Final (reason : text).

(** What one message of the daemon becomes. *)
Inductive Heard :=
| HeardEvent (e : Event)
| HeardEnd (e : CarryEnd)
| HeardNothing.
Definition hear (message : FromDaemon) : Heard :=
  match message with
  | FdAttached terminal_id next_offset max_output_frame_bytes max_unacked_output_bytes =>
      HeardEvent (EvAttached (default 0 (uuid_parse_str terminal_id)) next_offset
                    (mkLimits max_output_frame_bytes max_unacked_output_bytes))
  | FdAck durable_offset => HeardEvent (EvAck durable_offset)
  | FdMismatch next_offset => HeardEvent (EvMismatch next_offset)
  | FdDetached => HeardEvent EvDetached
  | FdResizeRequest cols rows => HeardEvent (EvResizeRequest cols rows)
  | FdEnded reason => HeardEnd (Final reason)
  | FdError code message => HeardEnd (Final (code ++ lit ": " ++ message))
  | FdHelloOk _ _ _ _ | FdUnrecognised => HeardNothing
  end.

(** The events handed to the driver, and how it ended; the driver listens
    throughout. *)
Fixpoint read_from_daemon (reads : list (result IpcError Frame)) : list Event * option CarryEnd :=
  match reads with
  | [] => ([], None)
  | Ok (IfInput bytes) :: rest =>
      let '(events, ended) := read_from_daemon rest in (EvInput bytes :: events, ended)
  | Ok (IfControl payload) :: rest =>
      match parse_control payload with
      | Err _ => read_from_daemon rest
      | Ok message =>
          match hear message with
          | HeardEvent e => let '(events, ended) := read_from_daemon rest in (e :: events, ended)
          | HeardEnd ended => ([], Some ended)
          | HeardNothing => read_from_daemon rest
          end
      end
  | Ok (IfOutput _ _) :: _ => ([], Some (Final (lit "the daemon sent output to a publisher")))
  | Err _ :: _ => ([], Some Transport)
  end.

(** What one request of the driver becomes, and whether it is the last. *)
Definition request_frame (r : Request) : list byte * bool :=
  match r with
  | RqOutput start_offset bytes => (encode_output start_offset bytes, false)
  | RqResize cols rows => (encode_control (FcResize cols rows), false)
  | RqClose reason => (encode_control (FcClose reason), true)
  end.
(** The frames of a driver's requests, up to its close. *)
Fixpoint forward_requests (requests : list Request) : list (list byte) :=
  match requests with
  | [] => []
  | r :: rest =>
      let '(frame, last) := request_frame r in
      if last then [frame] else frame :: forward_requests rest
  end.

(** The frames that open an attachment. *)
Definition greeting_frames (spec : TerminalSpec) : list (list byte) :=
  [encode_control (FcHello IPC_VERSION build pid);
   encode_control (FcOpen (sp_local_ref spec) (sp_label spec) (sp_cols spec) (sp_rows spec) (sp_term spec)
                     (sp_in_reply_to spec))].

(** [handshake], after the connection: the answer to the greeting. [debug] is
    [{other:?}]. *)
Definition check_greeting (debug : FromDaemon → text) (read : result IpcError Frame) : result text () :=
  match read with
  | Ok (IfControl payload) =>
      match parse_control payload with
      | Err e => Err (ipc_error_text e)
      | Ok (FdHelloOk ipc_version their_build their_pid _) =>
          if negb (ipc_version =? IPC_VERSION) then
            Err (lit "a hypeterm-publish daemon from build " ++ their_build ++ lit " (pid " ++ num their_pid
                 ++ lit ") is already mirroring on this machine and speaks a different local protocol. Stop it with: hypeterm-publish daemon --stop")
          else Ok ()
      | Ok other => Err (lit "the daemon answered " ++ debug other ++ lit " to a greeting")
      end
  | Ok _ => Err (lit "the daemon did not greet this terminal")
  | Err e => Err (lit "greeting the daemon: " ++ ipc_error_text e)
  end.

(** [probe] and [stop], from the answers to their greeting and to [retire]. *)
Record Running := mkRunning {
  rn_pid : N;
  rn_build : text;
  rn_ipc_version : N;
  rn_clients : N;
}.
Definition probe (read : result IpcError Frame) : option Running :=
  match read with
  | Ok (IfControl payload) =>
      match parse_control payload with
      | Ok (FdHelloOk ipc_version build pid clients) => Some (mkRunning pid build ipc_version clients)
      | _ => None
      end
  | _ => None
  end.
Definition stop_frames : list (list byte) :=
  [encode_control (FcHello IPC_VERSION build pid); encode_control FcRetire].
Definition stop (read : result IpcError Frame) : result text bool :=
  match read with
  | Ok (IfControl payload) =>
      match parse_control payload with
      | Ok (FdEnded _) => Ok true
      | Ok (FdError _ message) => Err message
      | _ => Ok false
      end
  | _ => Ok false
  end.

(** [connect_or_start], once a daemon was spawned: each try is whether the
    socket answered and how long it took to say so. *)
Definition ATTACH_DEADLINE_MS : N := 5000.
Fixpoint await_daemon {A} (socket : text) (elapsed wait : N) (tries : list (option A * N)) : option (result text A) :=
  match tries with
  | [] => None
  | (answer, took) :: tries =>
      match answer with
      | Some stream => Some (Ok stream)
      | None =>
          if ATTACH_DEADLINE_MS <=? elapsed + took then
            Some (Err (lit "no mirroring daemon answered on " ++ socket ++ lit " within "
                       ++ num (ATTACH_DEADLINE_MS / 1000) ++ lit " seconds"))
          else await_daemon socket (elapsed + took + wait) (N.min (wait * 2) 250) tries
      end
  end.
End daemon.

(** [reattach]: the delay before an attempt, and the first attempt of eight
    that succeeds, with how long was waited. *)
Definition reattach_delay_ms (attempt : N) : N := N.min (N.shiftl 250 (N.min attempt 7)) 30000.
Fixpoint reattach_loop {A} (tries : nat) (attempt : N) (handshake : N → option A) : option A * N :=
  match tries with
  | O => (None, 0)
  | S tries =>
      match handshake attempt with
      | Some stream => (Some stream, reattach_delay_ms attempt)
      | None =>
          let '(r, waited) := reattach_loop tries (attempt + 1) handshake in
          (r, reattach_delay_ms attempt + waited)
      end
  end.
Definition reattach {A} (handshake : N → option A) : option A * N := reattach_loop 8 1 handshake.

(** What one attachment brings; [at_closed] is whether the driver's close went
    out and its wait for an answer ended before the reader's result was asked
    for. *)
Record Attachment := mkAttachment {
  at_reads : list (result IpcError Frame);
  at_closed : bool;
}.
(** [carry]: the events the driver receives. Each later attachment is what
    [reattach] finds. *)
Fixpoint carry `{IpcJson FromDaemon} (uuid_parse_str : text → option Uuid) (first : Attachment)
    (later : list (N → option Attachment)) : list Event :=
  let '(events, ended) := read_from_daemon uuid_parse_str (at_reads first) in
  events ++
    match (if at_closed first then Some (Final (lit "the terminal ended")) else ended), later with
    | None, _ => []
    | Some (Final reason), _ => [EvEnded reason]
    | Some Transport, [] => [EvDetached]
    | Some Transport, handshake :: later =>
        EvDetached ::
        match (reattach handshake).1 with
        | Some next => carry uuid_parse_str next later
        | None => [EvEnded (lit "the mirroring daemon on this machine stopped and could not be restarted")]
        end
    end.

(** ** Hosting a shell for a subscriber *)

Definition REMOTE_OPEN_BURST : N := 3.
Definition REMOTE_OPEN_WINDOW : N := 60 * 1000000000.
Definition NO_WINDOW_ARGUMENT : N := 59.
Definition WINDOWS_TERMINAL_WINDOW : string := "hypeterm".
Definition WINDOW_TERMINALS : list (string * list string) :=
  [("x-terminal-emulator", ["-e"]); ("gnome-terminal", ["--tab"; "--"]); ("konsole", ["--new-tab"; "-e"]);
   ("xfce4-terminal", ["--tab"; "-x"]); ("wezterm", ["start"; "--"]); ("alacritty", ["-e"]); ("kitty", ["--"]);
   ("foot", []); ("xterm", ["-e"])]%string.

Definition acceptable_label (label : text) : bool :=
  negb (is_empty label) && (text_len label <=? 200)
  && negb (forallb is_whitespace label)
  && negb (existsb (λ c, is_control c || ((128 <=? c) && (c <=? 159))) label).

Definition windows_terminal_argv (wt distribution : text) : list text :=
  [wt; lit "-w"; lit WINDOWS_TERMINAL_WINDOW; lit "new-tab"; lit "wsl.exe"; lit "-d"; distribution; lit "--"].

(** What the machine offers: the WSL distribution's name, whether there is a
    display, and where a program is on [PATH]. *)
Record Desktop := mkDesktop {
  dk_wsl_distro : option text;
  dk_has_display : bool;
  dk_on_path : string → option text;
}.
Definition windows_terminal (d : Desktop) : option (list text) :=
  distribution ← dk_wsl_distro d;
  if is_empty (distribution : text) then None
  else wt ← dk_on_path d "wt.exe"; Some (windows_terminal_argv wt distribution).
Fixpoint first_emulator (d : Desktop) (l : list (string * list string)) : option (list text) :=
  match l with
  | [] => None
  | (program, flags) :: l =>
      match dk_on_path d program with
      | Some path => Some (path :: (lit <$> flags))
      | None => first_emulator d l
      end
  end.
Definition window_command (d : Desktop) (policy : WindowPolicy) : option (list text) :=
  match policy with
  | WpNever => None
  | WpCommand argv => if is_empty argv then None else Some argv
  | WpAuto =>
      match windows_terminal d with
      | Some argv => Some argv
      | None => if negb (dk_has_display d) then None else first_emulator d WINDOW_TERMINALS
      end
  end.

(** [this_program] is where the binary is, or why it is nowhere. *)
Definition hosting_argv (this_program : result text text) (state_file : text) (remote : RemoteOpenConfig)
    (label request_id : text) (size : option (N * N)) : result text (list text) :=
  let? program := this_program in
  Ok ([program; lit "--state-file"; state_file; lit "run"; lit "--label"; label; lit "--in-reply-to"; request_id]
      ++ match size with
         | Some (cols, rows) => [lit "--cols"; num cols; lit "--rows"; num rows]
         | None => []
         end
      ++ (if is_empty (ro_shell remote) then [] else lit "--" :: ro_shell remote)).

Section hosting.
Context (this_program : result text text) (state_file : text) (remote : RemoteOpenConfig) (desktop : Desktop).
(** Starting a process; for a window, after it had time to fail. *)
Context (spawn spawn_window : list text → result text ()).
(** [{argument:?}] *)
Context (debug : text → text).

Definition window_argument (argument : text) : bool := bool_decide (NO_WINDOW_ARGUMENT ∈ argument).

(** The argument lists of the processes it tried to start, and the outcome. *)
Definition spawn_in_window (emulator : list text) (label request_id : text)
    : list (list text) * result text () :=
  match hosting_argv this_program state_file remote label request_id None with
  | Err e => ([], Err e)
  | Ok argv =>
      match head (filter (λ a, window_argument a = true) argv) with
      | Some a =>
          ([], Err (debug a ++ lit " carries a ';', which an emulator may read as a second command"))
      | None => ([emulator ++ argv], spawn_window (emulator ++ argv))
      end
  end.

Definition spawn_headless (label request_id : text) (cols rows : N) : list (list text) * result text () :=
  match hosting_argv this_program state_file remote label request_id (Some (cols, rows)) with
  | Err e => ([], Err e)
  | Ok argv => ([argv], spawn argv)
  end.

Definition spawn_hosted_shell (label request_id : text) (cols rows : N) : list (list text) * result text () :=
  match window_command desktop (ro_window remote) with
  | Some emulator =>
      let '(tried, r) := spawn_in_window emulator label request_id in
      match r with
      | Ok _ => (tried, Ok ())
      | Err _ => let '(tried', r) := spawn_headless label request_id cols rows in (tried ++ tried', r)
      end
  | None => spawn_headless label request_id cols rows
  end.

(** The rate limit, under its lock. *)
Definition rate_gate (now : N) (s : Shared) : bool * Shared :=
  let recent := filter (λ at_, now - at_ < REMOTE_OPEN_WINDOW) (sh_last_spawns s) in
  if REMOTE_OPEN_BURST <=? len recent then (false, set_last_spawns recent s)
  else (true, set_last_spawns (recent ++ [now]) s).

Definition decline (request : RemoteRequest) (reason : string) (s : Shared) : Shared :=
  set_link (link_decline (rr_request_id request) reason (sh_link s)).2 s.

Definition default_label : text := lit "phone".

(** The processes it tried to start, the state, and whether one is being
    waited for; others run after the rate limit's lock is released and while
    the process starts. *)
Definition host_for_request (now : N) (meanwhile starting : Shared → Shared) (request : RemoteRequest) (s : Shared)
    : list (list text) * bool * Shared :=
  if negb (ro_enabled remote) then ([], false, decline request "not_permitted" s)
  else
    let '(within, s) := rate_gate now s in
    if negb within then ([], false, decline request "busy" s)
    else
      let s := meanwhile s in
      if ro_max_terminals remote <=? N.of_nat (size (sh_claimed s)) + sh_hosting s then
        ([], false, decline request "limit_reached" s)
      else
        let label := default default_label (rr_label request) in
        if negb (acceptable_label label) then ([], false, decline request "not_permitted" s)
        else
          let cols := clamp_size (default 80 (rr_cols request)) in
          let rows := clamp_size (default 24 (rr_rows request)) in
          let s := starting (set_hosting (λ n, n + 1) s) in
          match spawn_hosted_shell label (rr_request_id request) cols rows with
          | (tried, Ok _) => (tried, true, s)
          | (tried, Err _) => (tried, false, decline request "internal_error" (set_hosting (λ n, n - 1) s))
          end.
(** Half a minute later the child counts as a client or not at all. *)
Definition hosting_settled (s : Shared) : Shared := set_hosting (λ n, n - 1) s.
End hosting.

(** ** The server *)

(** Whether [serve] may stand down. *)
Definition daemon_idle (remote : RemoteOpenConfig) (s : Shared) : bool :=
  (sh_clients s =? 0) && (sh_hosting s =? 0) && negb (ro_enabled remote).
Definition client_accepted (s : Shared) : Shared := set_clients (λ n, n + 1) s.
Definition client_done (s : Shared) : Shared := set_clients (λ n, n - 1) s.
