(* ===== verification/DaemonProps.v ===== *)
(** * Properties of the daemon and its socket

    A shell hosted through the daemon is in the same position as one that
    publishes by itself: the events of its terminal come out of the socket as
    they went in, its requests reach the relay connection's control channel as
    they were made, and its claim and its close are handed back however it
    leaves. A reference is claimed by one client at a time, and a shell is
    started for a subscriber only when the machine's owner allows it, at a
    bounded rate. *)

From S2P Require Export Daemon.

Open Scope N_scope.
Open Scope hype_scope.

(** ** The socket *)

(** What reading a connection yields, in the daemon's direction or the other. *)
Definition socket_reads (expect_output : bool) (stream : list byte) : list (result IpcError Frame) :=
  let '(frames, e) := read_frames expect_output stream in (Ok <$> frames) ++ [Err e].

Lemma read_frames_encoded expect fs :
  Forall (frame_fits expect) fs → read_frames expect (mjoin (encode_frame <$> fs)) = (fs, IpcEof).
Proof.
  intros Hf. unfold read_frames. rewrite <- (app_nil_r (mjoin _)), read_frames_spec by (done || lia).
  assert (∀ n, read_frames_loop n expect [] = ([], IpcEof)) as -> by by intros [].
  by rewrite app_nil_r.
Qed.
Lemma socket_reads_encoded expect fs :
  Forall (frame_fits expect) fs →
  socket_reads expect (mjoin (encode_frame <$> fs)) = (Ok <$> fs) ++ [Err IpcEof].
Proof. intros Hf. unfold socket_reads. by rewrite read_frames_encoded. Qed.

(** A message [serde_json] reads back, within the frame limit. *)
Definition json_ok {T} `{IpcJson T} (m : T) : Prop :=
  from_slice (to_vec m) = Ok m ∧ len (to_vec m) ≤ MAX_FRAME_BYTES.
Lemma parse_json_ok {T} `{IpcJson T} (m : T) : json_ok m → parse_control (to_vec m) = Ok m.
Proof. unfold parse_control. by intros [-> _]. Qed.

Section socket.
Context `{IpcJson FromClient} `{IpcJson FromDaemon}.
Context (build : text) (pid : N) (uuid_to_string : Uuid → text) (uuid_parse_str : text → option Uuid).
Implicit Types (e : Event) (es : list Event) (r : Request) (rs : list Request).

(** *** Events *)

Definition event_sendable e : Prop :=
  match event_message uuid_to_string e with
  | inl message => json_ok message
  | inr bytes => len bytes ≤ MAX_FRAME_BYTES
  end ∧
  match e with EvAttached id _ _ => uuid_parse_str (uuid_to_string id) = Some id | _ => True end.
Definition event_if e : Frame :=
  match event_message uuid_to_string e with
  | inl message => IfControl (to_vec message)
  | inr bytes => IfInput bytes
  end.

(** The events up to the one that ends the terminal. *)
Fixpoint until_ended es : list Event :=
  match es with
  | [] => []
  | EvEnded reason :: _ => [EvEnded reason]
  | e :: es => e :: until_ended es
  end.
Definition is_ended e : bool := match e with EvEnded _ => true | _ => false end.

Lemma events_task_encoded es :
  mjoin (events_task uuid_to_string es) = mjoin (encode_frame <$> (event_if <$> until_ended es)).
Proof.
  induction es as [|e es IH]; [done|].
  destruct e; [..|done]; exact (f_equal (app _) IH).
Qed.

Lemma event_if_fits e : event_sendable e → frame_fits false (event_if e).
Proof. intros [He _]. unfold event_if. by destruct (event_message _ e) as [m|b]; [destruct He|]. Qed.

Lemma until_ended_Forall (P : Event → Prop) es : Forall P es → Forall P (until_ended es).
Proof. induction 1 as [|e es He Hes IH]; [done|]. destruct e; cbn [until_ended]; auto. Qed.

(** How the driver's listening ends, when the socket closes after the events. *)
Definition events_end es : CarryEnd :=
  match find is_ended es with Some (EvEnded reason) => Final reason | _ => Transport end.

Lemma read_from_daemon_events es :
  Forall event_sendable es →
  read_from_daemon uuid_parse_str ((Ok <$> (event_if <$> until_ended es)) ++ [Err IpcEof]) =
    (filter (λ e, is_ended e = false) (until_ended es), Some (events_end es)).
Proof.
  induction 1 as [|e es He Hes IH]; [done|].
  destruct He as [Hj Hid].
  destruct e; cbn [until_ended] in *; cbn [fmap list_fmap app] in *;
    unfold event_if at 1; cbn [event_message] in Hj |- *; cbn [read_from_daemon];
    try rewrite parse_json_ok by done; cbn [hear]; rewrite ?Hid; cbn [default from_option id]; rewrite ?IH; try done.
  by destruct limits.
Qed.

(** The attachment over which a daemon says [es] and then goes away. *)
Definition attachment es : Attachment :=
  mkAttachment (socket_reads false (mjoin (events_task uuid_to_string es))) false.

Lemma carried_by_end es :
  filter (λ e, is_ended e = false) (until_ended es) ++
    (match events_end es with Final reason => [EvEnded reason] | Transport => [] end) = until_ended es.
Proof.
  unfold events_end. induction es as [|e es IH]; [done|].
  destruct e; cbn [until_ended find is_ended] in *; rewrite ?filter_cons;
    [rewrite decide_True by done; cbn [app]; f_equal; exact IH..|done].
Qed.
Lemma not_ended_all es : existsb is_ended es = false → until_ended es = es ∧ events_end es = Transport.
Proof.
  unfold events_end. induction es as [|e es IH]; [done|].
  destruct e; cbn; try (intros [Hu He]%IH; by rewrite Hu, He). done.
Qed.
Lemma ended_final es : existsb is_ended es = true → ∃ reason, events_end es = Final reason.
Proof. unfold events_end. induction es as [|e es IH]; [done|]. destruct e; cbn; eauto. Qed.

(** What the shell is told over attachments that say [es] and then the others. *)
Fixpoint told es (ess : list (list Event)) : list Event :=
  if existsb is_ended es then until_ended es
  else es ++ EvDetached :: match ess with [] => [] | es' :: ess => told es' ess end.

Lemma read_attachment es :
  Forall event_sendable es →
  read_from_daemon uuid_parse_str (at_reads (attachment es)) =
    (filter (λ e, is_ended e = false) (until_ended es), Some (events_end es)).
Proof.
  intros Hes. unfold attachment. cbn [at_reads]. rewrite events_task_encoded, socket_reads_encoded.
  - by apply read_from_daemon_events.
  - apply Forall_fmap. eapply Forall_impl; [by apply until_ended_Forall|]. apply event_if_fits.
Qed.

(** C30: the daemon is transparent for what the relay says. Over an attachment, a
    hosted shell is told exactly the events the daemon had for its terminal, in
    order and unchanged, whatever was typed included, up to the one that ends
    it. When the socket drops instead, the shell is told it is detached before
    anything of the next attachment; an ended terminal is never reattached. *)
Theorem events_cross_the_socket es (later : list (N → option Attachment)) (ess : list (list Event)) :
  Forall (Forall event_sendable) (es :: ess) →
  Forall2 (λ handshake es, (reattach handshake).1 = Some (attachment es)) later ess →
  carry uuid_parse_str (attachment es) later = told es ess.
Proof.
  intros Hs Hl. revert es Hs.
  induction Hl as [|h es' later ess Hh Hl IH]; intros es [Hes Hs]%Forall_cons; cbn [carry told];
    rewrite read_attachment by done; cbn [at_closed attachment];
    (destruct (existsb is_ended es) eqn:Ee;
     [ destruct (ended_final es Ee) as [reason Hf]; pose proof (carried_by_end es) as Hc; rewrite Hf in *; done
     | destruct (not_ended_all es Ee) as [Hu Ht]; pose proof (carried_by_end es) as Hc;
       rewrite Ht, Hu, app_nil_r in *; rewrite Hc ]).
  - done.
  - rewrite Hh. by rewrite IH.
Qed.
End socket.

(** A printer and parser good enough for a few messages. *)
Section table.
Context {T : Type} `{EqDecision T} (table : list (byte * T)).
Definition table_print (m : T) : list byte :=
  match find (λ '(_, m'), bool_decide (m = m')) table with Some (b, _) => [b] | None => [] end.
Definition table_parse (bytes : list byte) : result text T :=
  match bytes with
  | [b] => match find (λ '(b', _), bool_decide (b = b')) table with Some (_, m) => Ok m | None => Err [] end
  | _ => Err []
  end.
Definition table_json : IpcJson T := {| to_vec := table_print; from_slice := table_parse |}.
End table.

#[export] Instance FromClient_eq_dec : EqDecision FromClient.
Proof. solve_decision. Defined.
#[export] Instance FromDaemon_eq_dec : EqDecision FromDaemon.
Proof. solve_decision. Defined.

Definition example_uuid_text : Uuid → text := λ id, [id].
Definition example_uuid_parse : text → option Uuid := head.
Definition example_from_daemon : IpcJson FromDaemon :=
  table_json [(x61, FdAttached [7] 0 1024 65536); (x62, FdDetached); (x63, FdEnded (lit "gone"))].
Definition example_told : list Event := [EvAttached 7 0 (mkLimits 1024 65536); EvInput [x6c; x73; x0a]].

Lemma example_sendable :
  Forall (Forall (event_sendable (H0 := example_from_daemon) example_uuid_text example_uuid_parse))
    [example_told; EvAttached 7 0 (mkLimits 1024 65536) :: [EvEnded (lit "gone"); EvDetached]].
Proof. repeat first [ apply Forall_cons; split | apply Forall_nil ]; try done; split; try done; vm_compute; congruence. Qed.

Lemma events_cross_the_socket_witness :
  carry (H := example_from_daemon) example_uuid_parse
    (attachment (H0 := example_from_daemon) example_uuid_text example_told)
    [λ attempt, if attempt =? 3
       then Some (attachment (H0 := example_from_daemon) example_uuid_text
                    [EvAttached 7 0 (mkLimits 1024 65536); EvEnded (lit "gone"); EvDetached])
       else None]
  = example_told ++ [EvDetached; EvAttached 7 0 (mkLimits 1024 65536); EvEnded (lit "gone")].
Proof.
  apply (events_cross_the_socket (H0 := example_from_daemon) example_uuid_text example_uuid_parse example_told
    [_] [[EvAttached 7 0 (mkLimits 1024 65536); EvEnded (lit "gone"); EvDetached]]).
  - exact example_sendable.
  - repeat constructor.
Defined.

(** *** Requests *)

Section requests.
Context `{IpcJson FromClient} `{IpcJson FromDaemon}.
Context (build : text) (pid : N).
Implicit Types (r : Request) (rs : list Request) (s : Shared).

Definition request_sendable r : Prop :=
  match r with
  | RqOutput start_offset bytes => start_offset < two64 ∧ len bytes + 8 ≤ MAX_FRAME_BYTES
  | RqResize cols rows => json_ok (FcResize cols rows)
  | RqClose reason => json_ok (FcClose reason)
  end.
Definition request_if r : Frame :=
  match r with
  | RqOutput start_offset bytes => IfOutput start_offset bytes
  | RqResize cols rows => IfControl (to_vec (FcResize cols rows))
  | RqClose reason => IfControl (to_vec (FcClose reason))
  end.
Fixpoint until_close rs : list Request :=
  match rs with
  | [] => []
  | RqClose reason :: _ => [RqClose reason]
  | r :: rs => r :: until_close rs
  end.

Lemma forward_requests_encoded rs : forward_requests rs = encode_frame <$> (request_if <$> until_close rs).
Proof. induction rs as [|r rs IH]; [done|]. destruct r; cbn; by rewrite ?IH. Qed.
Lemma request_if_fits r : request_sendable r → frame_fits true (request_if r).
Proof. destruct r; cbn; [by intros []|by intros []|by intros []]. Qed.
Lemma until_close_Forall (P : Request → Prop) rs : Forall P rs → Forall P (until_close rs).
Proof. induction 1 as [|r rs Hr Hrs IH]; [done|]. destruct r; cbn [until_close]; auto. Qed.

(** What a terminal that publishes by itself puts on the control channel. *)
Definition controls_of (local_ref : text) (r : Request) : list Control :=
  match r with
  | RqOutput start_offset bytes => if is_empty bytes then [] else [CtOutput local_ref start_offset bytes]
  | RqResize cols rows => [CtResize local_ref cols rows]
  | RqClose _ => []
  end.

(** The channel of [s] with more on it. *)
Definition queue_controls (l : list Control) (c : ControlChan) : ControlChan :=
  mkControlChan (cc_queue c ++ l) (cc_capacity c) (cc_rx_open c) (cc_spawned c).
Lemma control_send_open m c : cc_rx_open c = true → control_send m c = (true, queue_controls [m] c).
Proof. unfold control_send, queue_controls. by intros ->. Qed.
Lemma queue_controls_app l l' c : queue_controls l' (queue_controls l c) = queue_controls (l ++ l') c.
Proof. unfold queue_controls. cbn. by rewrite <- app_assoc. Qed.
Lemma queue_controls_nil c : queue_controls [] c = c.
Proof. unfold queue_controls. rewrite app_nil_r. by destruct c. Qed.

(** Reads with nobody else acting in between. *)
Definition quietly (reads : list (result IpcError Frame)) : list ((Shared → Shared) * result IpcError Frame) :=
  pair (λ s, s) <$> reads.

Lemma client_loop_cons sink f read rest a :
  client_loop sink ((f, read) :: rest) a =
    let '(o, a) := client_frame sink read (mkAttach (f (at_shared a)) (at_out a)) in
    match o with None => client_loop sink rest a | Some r => (Some r, a) end.
Proof.
  cbn [client_loop]. rewrite !st_bind. cbn [on_shared st_modify]. rewrite st_bind.
  by destruct (client_frame _ _ _) as [[]].
Qed.

(** A request other than the close, and the close. *)
Lemma client_frame_request local_ref r s out c :
  request_sendable r → cc_rx_open c = true →
  client_frame (mkTerminalSink local_ref true) (Ok (request_if r)) (mkAttach (set_link c s) out) =
    (match r with RqClose _ => Some (Ok ()) | _ => None end,
     mkAttach (set_link (queue_controls (controls_of local_ref r) c) s) out).
Proof.
  intros Hr Hc. destruct r as [offset bytes|cols rows|reason]; cbn [request_if client_frame controls_of].
  - destruct (is_empty bytes) eqn:Eb; [by rewrite queue_controls_nil|].
    rewrite st_bind. unfold on_link, sink_publish. rewrite Eb. cbn [tk_open negb tk_local_ref at_shared sh_link set_link].
    by rewrite control_send_open.
  - rewrite parse_json_ok by done. rewrite st_bind. unfold on_link, sink_resize.
    cbn [tk_open negb tk_local_ref at_shared sh_link set_link]. by rewrite control_send_open.
  - rewrite parse_json_ok by done. by rewrite queue_controls_nil.
Qed.

Lemma client_loop_requests local_ref rs s out c :
  Forall request_sendable rs → cc_rx_open c = true →
  client_loop (mkTerminalSink local_ref true)
    (quietly ((Ok <$> (request_if <$> until_close rs)) ++ [Err IpcEof])) (mkAttach (set_link c s) out) =
  (Some (Ok ()), mkAttach (set_link (queue_controls (mjoin (controls_of local_ref <$> until_close rs)) c) s) out).
Proof.
  intros Hrs. revert c. induction Hrs as [|r rs Hr Hrs IH]; intros c Hc.
  { cbn. by rewrite queue_controls_nil. }
  destruct r; cbn [until_close]; unfold quietly; cbn [fmap list_fmap app]; rewrite client_loop_cons;
    cbn [at_shared at_out]; rewrite client_frame_request by done.
  1,2: etrans; [apply IH; done|]; by rewrite queue_controls_app.
  cbn [controls_of mjoin list_join app]. done.
Qed.

(** What the close becomes: it is queued, or a task of its own waits to queue
    it. *)
Definition queue_close (local_ref : text) (c : ControlChan) : ControlChan :=
  if len (cc_queue c) <? cc_capacity c then queue_controls [CtClose local_ref (lit "process_exited")] c
  else mkControlChan (cc_queue c) (cc_capacity c) (cc_rx_open c) (cc_spawned c ++ [CtClose local_ref (lit "process_exited")]).

Lemma claim_and_open_fresh spec events s out :
  sp_local_ref spec ∉ sh_claimed s → cc_rx_open (sh_link s) = true →
  claim_and_open spec events (mkAttach s out) =
    (Hosts (mkTerminalSink (sp_local_ref spec) true) (sp_local_ref spec),
     mkAttach (set_link (queue_controls [CtOpen spec events] (sh_link s))
                 (set_claimed (λ cs, {[sp_local_ref spec]} ∪ cs) s)) out).
Proof.
  intros Hn Hc. unfold claim_and_open, shared_gets. rewrite st_bind_gets. cbn [at_shared].
  rewrite bool_decide_eq_false_2 by done. rewrite st_bind. cbn [on_shared st_modify at_shared at_out].
  rewrite st_bind. unfold on_link, link_open. cbn [at_shared set_claimed sh_link]. rewrite st_bind.
  by rewrite control_send_open.
Qed.
Lemma finish_client_open local_ref s out c :
  cc_rx_open c = true →
  finish_client (mkTerminalSink local_ref true) local_ref (mkAttach (set_link c s) out) =
    ((), mkAttach (set_link (queue_close local_ref c) (release_claim local_ref s)) out).
Proof.
  intros Hc. unfold finish_client. rewrite st_bind. unfold on_link, sink_begin_shutdown, queue_close, queue_controls.
  cbn [at_shared set_link sh_link tk_open negb]. rewrite Hc. cbn [negb]. by destruct (_ <? _).
Qed.
Lemma release_fresh local_ref s :
  local_ref ∉ sh_claimed s → release_claim local_ref (set_claimed (λ cs, {[local_ref]} ∪ cs) s) = s.
Proof.
  intros Hn. unfold release_claim, set_claimed. destruct s; cbn in *. f_equal. set_solver.
Qed.

(** C31: the daemon hands on what a hosted shell asks, and its client never
    outlives itself. Take a client that greets in this protocol, opens a terminal
    under a reference nobody holds, and then says what its driver asks for, each
    message within the mebibyte of a local frame, while no other client of the
    daemon acts. It leaves on the relay connection's control channel its open,
    its output and sizes up to its close, unchanged and in order, and one close,
    however it went: said, or with its socket. The close always carries
    [process_exited], whatever reason the shell gave. Its claim is given back
    and it was greeted once. *)
Theorem requests_cross_the_socket (spec : TerminalSpec) (events : N) rs s :
  json_ok (FcHello IPC_VERSION build pid) →
  json_ok (FcOpen (sp_local_ref spec) (sp_label spec) (sp_cols spec) (sp_rows spec) (sp_term spec)
             (sp_in_reply_to spec)) →
  Forall request_sendable rs →
  sp_local_ref spec ∉ sh_claimed s → cc_rx_open (sh_link s) = true →
  converse build pid events
    (quietly (socket_reads true (mjoin (greeting_frames build pid spec ++ forward_requests rs)))) (mkAttach s []) =
  (Served_ (Ok ()),
   mkAttach
     (set_link (queue_close (sp_local_ref spec)
                  (queue_controls (CtOpen spec events :: mjoin (controls_of (sp_local_ref spec) <$> until_close rs))
                     (sh_link s))) s)
     [encode_control (FdHelloOk IPC_VERSION build pid (sh_clients s - 1))]).
Proof.
  intros Hh Ho Hrs Hclaim Hc.
  set (hello_if := IfControl (to_vec (FcHello IPC_VERSION build pid))).
  set (open_if := IfControl (to_vec (FcOpen (sp_local_ref spec) (sp_label spec) (sp_cols spec) (sp_rows spec)
                                       (sp_term spec) (sp_in_reply_to spec)))).
  rewrite forward_requests_encoded.
  change (greeting_frames build pid spec ++ (encode_frame <$> (request_if <$> until_close rs)))
    with (encode_frame <$> (hello_if :: open_if :: (request_if <$> until_close rs))).
  rewrite socket_reads_encoded.
  2: { repeat (apply Forall_cons; split; [by destruct Hh, Ho|]). apply Forall_fmap.
       eapply Forall_impl; [by apply until_close_Forall|]. apply request_if_fits. }
  unfold quietly. cbn [fmap list_fmap app converse].
  rewrite st_bind. cbn [on_shared st_modify at_shared at_out]. rewrite st_bind.
  unfold hello at 1, hello_if. rewrite parse_json_ok by done.
  unfold shared_gets. rewrite st_bind_gets. cbn [at_shared]. rewrite st_bind.
  unfold daemon_send, queue_frame. cbn [st_modify at_shared at_out app]. rewrite st_ret, st_bind.
  cbn [on_shared st_modify at_shared at_out]. rewrite st_bind. unfold ask, open_if. rewrite parse_json_ok by done.
  destruct spec as [local_ref label cols rows term in_reply_to]. cbn [sp_local_ref] in *.
  rewrite claim_and_open_fresh by done. cbn [sp_local_ref]. rewrite st_bind.
  change (pair (λ s, s) <$> ?l) with (quietly l). rewrite client_loop_requests by done.
  rewrite st_bind, finish_client_open by done. rewrite st_ret, release_fresh by done. by rewrite queue_controls_app.
Qed.
(** Asking the daemon to stop, and what the one who asks is told. *)
Definition retiring : text := lit "retiring so a newer build can take over".
Definition still_mirroring : text := lit "terminals are being mirrored through this daemon".
Lemma stop_conversation events s :
  json_ok (FcHello IPC_VERSION build pid) → json_ok FcRetire →
  converse build pid events (quietly (socket_reads true (mjoin (stop_frames build pid)))) (mkAttach s []) =
    let greeting := encode_control (FdHelloOk IPC_VERSION build pid (sh_clients s - 1)) in
    if (sh_clients s - 1 =? 0) && (N.of_nat (size (sh_claimed s)) =? 0)
    then (Retiring, mkAttach s [greeting; encode_control (FdEnded retiring)])
    else (Served_ (Err still_mirroring),
          mkAttach s [greeting; encode_control (FdError (lit RETIRE_REFUSED) still_mirroring)]).
Proof.
  intros Hh Hr.
  change (stop_frames build pid) with (encode_frame <$> [IfControl (to_vec (FcHello IPC_VERSION build pid));
                                                         IfControl (to_vec FcRetire)]).
  rewrite socket_reads_encoded by (repeat (apply Forall_cons; split; [by destruct Hh, Hr|]); constructor).
  unfold quietly. cbn [fmap list_fmap app converse].
  rewrite st_bind. cbn [on_shared st_modify at_shared at_out]. rewrite st_bind.
  unfold hello at 1. rewrite parse_json_ok by done. unfold shared_gets. rewrite st_bind_gets. cbn [at_shared].
  rewrite st_bind. unfold daemon_send, queue_frame. cbn [st_modify at_shared at_out app]. rewrite st_ret, st_bind.
  cbn [on_shared st_modify at_shared at_out]. rewrite st_bind. unfold ask. rewrite parse_json_ok by done.
  unfold shared_gets. rewrite st_bind_gets. cbn [at_shared]. by destruct (_ && _).
Qed.
Lemma stop_answered :
  json_ok (FdEnded retiring) → json_ok (FdError (lit RETIRE_REFUSED) still_mirroring) →
  stop (Ok (IfControl (to_vec (FdEnded retiring)))) = Ok true
  ∧ stop (Ok (IfControl (to_vec (FdError (lit RETIRE_REFUSED) still_mirroring)))) = Err still_mirroring.
Proof. intros H1 H2. unfold stop. by rewrite !parse_json_ok. Qed.

(** A slice as large as the relay may allow does not fit a local frame: the
    daemon then gives the terminal up. *)
Lemma large_output_ends_the_client local_ref offset bytes a :
  offset < two64 → MAX_FRAME_BYTES < len bytes + 8 → len bytes + 8 < two32 →
  socket_reads true (encode_output offset bytes) = [Err (TooLarge (len bytes + 8))]
  ∧ client_loop (mkTerminalSink local_ref true) (quietly [Err (TooLarge (len bytes + 8))]) a =
      (Some (Err (ipc_error_text (TooLarge (len bytes + 8)))), mkAttach (at_shared a) (at_out a)).
Proof.
  intros Ho Hm Hl. split; [|done].
  assert (read_frame true (encode_output offset bytes) = Err (TooLarge (len bytes + 8))) as Hr.
  { unfold read_frame, encode_output. rewrite read_exact_app by done. cbn [res_bind].
    rewrite read_exact_app by (unfold u32_bytes; len_lia). cbn [res_bind].
    unfold u32_bytes. rewrite be_combine_bytes by done. by rewrite (proj2 (N.ltb_lt _ _) Hm). }
  unfold socket_reads, read_frames. cbn [read_frames_loop]. by rewrite Hr.
Qed.
End requests.

Definition example_from_client : IpcJson FromClient :=
  table_json [(x61, FcHello IPC_VERSION (lit "0.1") 9);
              (x62, FcOpen (lit "b") (lit "shell") 80 24 (lit "xterm") None);
              (x63, FcResize 100 40); (x64, FcClose (lit "exit"))].
Definition example_shared : Shared := mkShared (mkControlChan [] 256 true []) {[lit "a"]} 2 0 [].
Definition example_shell : TerminalSpec := mkTerminalSpec (lit "b") (lit "shell") 80 24 (lit "xterm") None.
Definition example_asked : list Request :=
  [RqOutput 0 [x61]; RqResize 100 40; RqClose (lit "exit"); RqOutput 1 [x62]].

Lemma example_asked_sendable : Forall (request_sendable (H := example_from_client)) example_asked.
Proof. repeat first [ apply Forall_cons; split | apply Forall_nil ]; split; try done; vm_compute; congruence. Qed.

Lemma requests_cross_the_socket_witness :
  converse (H := example_from_client) (H0 := example_from_daemon) (lit "0.1") 9 1
    (quietly (socket_reads true (mjoin (greeting_frames (H := example_from_client) (lit "0.1") 9 example_shell
                ++ forward_requests (H := example_from_client) example_asked)))) (mkAttach example_shared []) =
  (Served_ (Ok ()),
   mkAttach (set_link (mkControlChan [CtOpen example_shell 1; CtOutput (lit "b") 0 [x61]; CtResize (lit "b") 100 40;
                                      CtClose (lit "b") (lit "process_exited")] 256 true []) example_shared)
     [encode_control (H := example_from_daemon) (FdHelloOk IPC_VERSION (lit "0.1") 9 1)]).
Proof.
  apply (requests_cross_the_socket (H := example_from_client) (H0 := example_from_daemon) (lit "0.1") 9
           example_shell 1 example_asked example_shared).
  - split; [reflexivity|vm_compute; congruence].
  - split; [reflexivity|vm_compute; congruence].
  - exact example_asked_sendable.
  - change (lit "b" ∉ ({[lit "a"]} : gset text)). intros Hin%elem_of_singleton. discriminate Hin.
  - reflexivity.
Defined.
