(* ===== verification/DaemonHosting.v ===== *)
(** * Which shells the daemon hosts

    [Site] follows the claims of one daemon over the lives of its clients: a
    reference is held by one client at a time. For a subscriber's request, a
    process is started only with the owner's consent, with the subscriber's
    label as one argument, and at a bounded rate; every request that starts
    nothing is declined once. Reattaching gives up after eight attempts. *)

From Stdlib Require Import Sorting.Sorted.
From S2P Require Export DaemonProps MultiplexerProps.

Open Scope N_scope.
Open Scope hype_scope.

(** ** Claims *)

(** The daemon's state, and the references whose clients have not given them
    back; whether some client was told that the daemon retires, and whether it
    has exited. *)
Record Site := mkSite {
  si_shared : Shared;
  si_held : list text;
  si_retiring : bool;
  si_exited : bool;
}.

Section site.
Context `{IpcJson FromClient} `{IpcJson FromDaemon}.
Context (build : text) (pid : N).

(** One client asks, is served, or leaves; or anything else happens that is no
    business of the claims. Once a client was told that the daemon retires, the
    process may exit at any moment, and until then everybody else goes on. *)
Inductive site_step : Site → Site → Prop :=
| SiteGreets read a s held b r :
    hello build pid read (mkAttach s []) = (r, a) → site_step (mkSite s held b false) (mkSite (at_shared a) held b false)
| SiteAsks others read events a s held b opened :
    ask others read events (mkAttach s []) = (opened, a) →
    site_step (mkSite s held b false)
      (mkSite (at_shared a) (match opened with Hosts _ local_ref => local_ref :: held | _ => held end)
         (match opened with Retires => true | _ => b end) false)
| SiteServes sink read a s held b r :
    client_frame sink read (mkAttach s []) = (r, a) → site_step (mkSite s held b false) (mkSite (at_shared a) held b false)
| SiteLeaves local_ref a s held held' b :
    held ≡ₚ local_ref :: held' →
    finish_client (mkTerminalSink local_ref true) local_ref (mkAttach s []) = ((), a) →
    site_step (mkSite s held b false) (mkSite (at_shared a) held' b false)
| SiteElsewhere s s' held b :
    sh_claimed s' = sh_claimed s → site_step (mkSite s held b false) (mkSite s' held b false)
| SiteExits s held : site_step (mkSite s held true false) (mkSite s held true true).

Record site_inv (σ : Site) : Prop := mkSiteInv {
  sv_distinct : NoDup (si_held σ);
  sv_claims : sh_claimed (si_shared σ) = list_to_set (si_held σ);
  sv_exit : si_exited σ = true → si_retiring σ = true;
}.

(** What leaves the claims alone. *)
Definition claims (a : Attach) : gset text := sh_claimed (at_shared a).
Lemma claims_link {A} (c : ControlM A) : preserves claims (on_link c).
Proof. intros a r a'. unfold on_link. destruct (c _) as [x chan]. by intros [= <- <-]. Qed.
Lemma claims_send m : preserves claims (daemon_send m).
Proof. by apply preserves_modify. Qed.
#[local] Hint Resolve claims_link claims_send : preserves.

Lemma hello_claims read : preserves claims (hello build pid read).
Proof. unfold hello, refuse, shared_gets. solve_preserves. Qed.
Lemma client_frame_claims sink read : preserves claims (client_frame sink read).
Proof. unfold client_frame. solve_preserves. Qed.

Lemma claim_and_open_claims spec events a opened a' :
  claim_and_open spec events a = (opened, a') →
  match opened with
  | Hosts _ local_ref => (local_ref ∉ claims a) ∧ claims a' = ({[local_ref]} ∪ claims a)
  | Retires => False
  | TurnedAway _ => claims a' = claims a
  end.
Proof.
  unfold claim_and_open, shared_gets. rewrite st_bind_gets. case_bool_decide as Hin.
  { unfold turned_away, refuse. intros [= <- <-]. done. }
  rewrite st_bind. cbn [on_shared st_modify]. rewrite st_bind.
  destruct (on_link _ _) as [sink a1] eqn:El. apply claims_link in El. unfold claims in *. cbn in El.
  destruct sink as [sink|].
  - intros [= <- <-]. done.
  - rewrite st_bind. cbn [on_shared st_modify]. unfold turned_away, refuse. intros [= <- <-]. cbn.
    rewrite El. set_solver.
Qed.

Lemma ask_claims others read events a opened a' :
  ask others read events a = (opened, a') →
  match opened with
  | Hosts _ local_ref => (local_ref ∉ claims a) ∧ claims a' = ({[local_ref]} ∪ claims a)
  | Retires => claims a' = claims a ∧ size (claims a) = 0%nat ∧ others = 0
  | TurnedAway _ => claims a' = claims a
  end.
Proof.
  unfold ask. destruct read as [[payload|offset bytes|bytes]|e]; [|by intros [= <- <-]..].
  destruct (parse_control payload) as [m|e]; [|by intros [= <- <-]].
  destruct m; try by intros [= <- <-].
  - intros Hc. apply claim_and_open_claims in Hc. by destruct opened.
  - unfold shared_gets. rewrite st_bind_gets. destruct (_ && _) eqn:Hz; [|by intros [= <- <-]].
    apply andb_true_iff in Hz as [Ho%N.eqb_eq Hs%N.eqb_eq]. intros [= <- <-]. split_and!; [done| |done].
    unfold claims. lia.
Qed.

Lemma site_step_inv σ σ' : site_step σ σ' → site_inv σ → site_inv σ'.
Proof.
  intros Hs [Hnd Hc He]. destruct Hs as [read a s held b r E|others read events a s held b opened E
    |sink read a s held b r E|local_ref a s held held' b Hp E|s s' held b E|s held];
    (split; cbn [si_shared si_held si_retiring si_exited] in *; [| |done]); try done.
  - apply hello_claims in E. unfold claims in E. cbn in E. by rewrite E.
  - apply ask_claims in E. unfold claims in E. cbn in E. destruct opened as [sink local_ref| |]; [|done..].
    destruct E as [Hn E]. rewrite Hc in Hn. constructor; [set_solver|done].
  - apply ask_claims in E. unfold claims in E. cbn in E. destruct opened as [sink local_ref| |].
    + destruct E as [Hn E]. by rewrite E, Hc.
    + by destruct E as [-> _].
    + by rewrite E.
  - apply client_frame_claims in E. unfold claims in E. cbn in E. by rewrite E.
  - rewrite Hp in Hnd. by apply NoDup_cons in Hnd as [_ Hnd].
  - unfold finish_client in E. rewrite st_bind in E. destruct (on_link _ _) as [x a1] eqn:El.
    apply claims_link in El. unfold claims in El. cbn in El. injection E as <-. cbn.
    rewrite Hp in Hnd. apply NoDup_cons in Hnd as [Hn Hnd]. rewrite El, Hc, Hp. set_solver.
  - by rewrite E.
Qed.
Lemma site_steps_inv σ σ' : rtc site_step σ σ' → site_inv σ → site_inv σ'.
Proof. induction 1; eauto using site_step_inv. Qed.

End site.

Definition example_idle : Shared := mkShared (mkControlChan [] 256 true []) ∅ 2 0 [].
(** A client opened the terminal [b]. *)
Definition example_opened : Shared :=
  set_link (mkControlChan [CtOpen example_shell 1] 256 true []) (set_claimed (λ cs, {[lit "b"]} ∪ cs) example_idle).

(** A decoder that also knows [retire]. *)
Definition example_with_retire : IpcJson FromClient :=
  table_json [(x62, FcOpen (lit "b") (lit "shell") 80 24 (lit "xterm") None); (x72, FcRetire)].
(** A newer build asks an idle daemon to retire; in the 50 ms before it exits a
    shell opens its terminal and is served; then the process is gone under it. *)
Theorem retiring_drops_a_client :
  ∃ σ, rtc (site_step (H := example_with_retire) (H0 := example_from_daemon) (lit "0.1") 9) (mkSite example_idle [] false false) σ
    ∧ si_exited σ = true ∧ si_held σ = [lit "b"].
Proof.
  exists (mkSite example_opened [lit "b"] true true). split; [|done].
  eapply rtc_l; [apply (SiteAsks (H := example_with_retire) (H0 := example_from_daemon) (lit "0.1") 9 0 (Ok (IfControl [x72])) 1
    (mkAttach example_idle [encode_control (H := example_from_daemon) (FdEnded (lit "retiring so a newer build can take over"))])
    _ [] false Retires); reflexivity|].
  eapply rtc_l; [apply (SiteAsks (H := example_with_retire) (H0 := example_from_daemon) (lit "0.1") 9 1 (Ok (IfControl [x62])) 1
    (mkAttach example_opened []) _ [] true (Hosts (mkTerminalSink (lit "b") true) (lit "b"))); reflexivity|].
  eapply rtc_l; [apply SiteExits|apply rtc_refl].
Qed.

(** ** The rate *)

Lemma rate_gate_spec now s :
  rate_gate now s =
    (len (filter (λ t, now - t < REMOTE_OPEN_WINDOW) (sh_last_spawns s)) <? REMOTE_OPEN_BURST,
     set_last_spawns
       (filter (λ t, now - t < REMOTE_OPEN_WINDOW) (sh_last_spawns s) ++
        (if len (filter (λ t, now - t < REMOTE_OPEN_WINDOW) (sh_last_spawns s)) <? REMOTE_OPEN_BURST then [now] else [])) s).
Proof.
  unfold rate_gate. rewrite N.ltb_antisym. destruct (_ <=? _); cbn [negb]; [by rewrite app_nil_r|done].
Qed.

(** The instants at which the gate let a request through, over any sequence of
    requests; between them the state changes in other ways. *)
Fixpoint let_through (requests : list (N * (Shared → Shared))) (s : Shared) : list N :=
  match requests with
  | [] => []
  | (now, meanwhile) :: requests =>
      let '(within, s) := rate_gate now s in
      (if within then [now] else []) ++ let_through requests (meanwhile s)
  end.

(** Any four that were let through span a window. *)
Definition spaced (l : list N) : Prop :=
  ∀ i a b, l !! i = Some a → l !! (i + 3)%nat = Some b → a + REMOTE_OPEN_WINDOW ≤ b.

Lemma spaced_snoc old recent now :
  Forall (λ t, t + REMOTE_OPEN_WINDOW ≤ now) old → (length recent < 3)%nat →
  spaced (old ++ recent) → spaced (old ++ recent ++ [now]).
Proof.
  intros Ho Hr Hs i a b Ha Hb. rewrite app_assoc in Ha, Hb.
  destruct (decide (i + 3 < length (old ++ recent))%nat) as [Hi|Hi].
  { rewrite lookup_app_l in Ha, Hb by lia. eauto. }
  rewrite lookup_app_r in Hb by lia. apply list_lookup_singleton_Some in Hb as [Hb ->].
  rewrite length_app in *. rewrite <- app_assoc, lookup_app_l in Ha by lia.
  rewrite Forall_lookup in Ho. eauto.
Qed.

(** Filtering what is recent off a sorted list keeps its end. *)
Lemma recent_suffix now l :
  StronglySorted N.le l →
  ∃ old, l = old ++ filter (λ t, now - t < REMOTE_OPEN_WINDOW) l ∧ Forall (λ t, t + REMOTE_OPEN_WINDOW ≤ now) old.
Proof.
  induction 1 as [|t l Hs IH Ht]; [by exists []|]. rewrite filter_cons. case_decide as Hd.
  - exists []. split; [|done]. cbn. f_equal. clear IH Hs. induction Ht as [|x l Hx Ht IH]; [done|].
    rewrite filter_cons, decide_True by (unfold REMOTE_OPEN_WINDOW in *; lia). by f_equal.
  - destruct IH as (old & Hl & Ho). exists (t :: old). split; [by rewrite Hl at 1|].
    constructor; [|done]. unfold REMOTE_OPEN_WINDOW in *. lia.
Qed.

Lemma sorted_snoc l now :
  StronglySorted N.le l → Forall (λ t, t ≤ now) l → StronglySorted N.le (l ++ [now]).
Proof.
  induction 1 as [|t l Hs IH Ht]; intros Hl; [repeat constructor|].
  apply Forall_cons in Hl as [Ht' Hl]. constructor; [by apply IH|]. apply Forall_app. split; [done|by repeat constructor].
Qed.
Lemma sorted_suffix (l k : list N) : StronglySorted N.le (l ++ k) → StronglySorted N.le k.
Proof. induction l as [|t l IH]; [done|]. intros [Hs _]%StronglySorted_inv. auto. Qed.

Lemma let_through_spaced requests s (old : list N) (from : N) :
  Forall (λ '(now, meanwhile), ∀ s : Shared, sh_last_spawns (meanwhile s) = sh_last_spawns s) requests →
  StronglySorted N.le (from :: requests.*1) →
  Forall (λ t, t + REMOTE_OPEN_WINDOW ≤ from) old → Forall (λ t, t ≤ from) (sh_last_spawns s) →
  StronglySorted N.le (sh_last_spawns s) → spaced (old ++ sh_last_spawns s) →
  spaced (old ++ sh_last_spawns s ++ let_through requests s).
Proof.
  intros Hm. revert s old from. induction Hm as [|[now meanwhile] requests Hf Hm IH];
    intros s old from Ht Ho Hl Hss Hsp; cbn [let_through]; [by rewrite app_nil_r|].
  apply StronglySorted_inv in Ht as [Ht Hfrom]. cbn in Ht, Hfrom. apply Forall_cons in Hfrom as [Hnow _].
  rewrite rate_gate_spec. cbn beta iota zeta.
  destruct (recent_suffix now (sh_last_spawns s) Hss) as (gone & Hgone & Hg).
  set (recent := filter _ (sh_last_spawns s)) in *. clearbody recent.
  assert (Forall (λ t, t + REMOTE_OPEN_WINDOW ≤ now) (old ++ gone)) as Ho'.
  { apply Forall_app. split; [|done]. eapply Forall_impl; [exact Ho|]. cbn. lia. }
  assert (Forall (λ t, t ≤ now) recent) as Hr.
  { rewrite Hgone in Hl. apply Forall_app in Hl as [_ Hl]. eapply Forall_impl; [exact Hl|]. cbn. lia. }
  rewrite Hgone in Hss. apply sorted_suffix in Hss. rewrite Hgone in *. clear Hgone Hl.
  destruct (N.ltb_spec (len recent) REMOTE_OPEN_BURST) as [Hb|Hb].
  - specialize (IH (meanwhile (set_last_spawns (recent ++ [now]) s)) (old ++ gone) now).
    rewrite Hf in IH. cbn [set_last_spawns sh_last_spawns] in IH. rewrite <- !app_assoc in *. apply IH; [done|done| | |].
    + apply Forall_app. split; [done|by repeat constructor].
    + by apply sorted_snoc.
    + rewrite (app_assoc old). apply spaced_snoc; [done|unfold len, REMOTE_OPEN_BURST in Hb; lia|by rewrite <- app_assoc].
  - specialize (IH (meanwhile (set_last_spawns (recent ++ []) s)) (old ++ gone) now).
    rewrite Hf in IH. cbn [set_last_spawns sh_last_spawns] in IH. rewrite !app_nil_r in *. rewrite <- !app_assoc in *.
    by apply IH.
Qed.

(** Shells start for subscribers at a bounded rate, whatever the relay asks.
    Of the requests a daemon lets past its gate, any four span a minute at least,
    however many come, whenever they come, and whatever else the daemon does
    between them. *)
Theorem remote_opens_bounded (requests : list (N * (Shared → Shared))) (s : Shared) :
  sh_last_spawns s = [] →
  Forall (λ '(_, meanwhile), ∀ s : Shared, sh_last_spawns (meanwhile s) = sh_last_spawns s) requests →
  StronglySorted N.le requests.*1 →
  ∀ i a b, let_through requests s !! i = Some a → let_through requests s !! (i + 3)%nat = Some b →
    a + 60 * 1000000000 ≤ b.
Proof.
  intros Hs Hm Ht. change (spaced (let_through requests s)).
  pose proof (let_through_spaced requests s [] 0 Hm) as Hl. rewrite Hs in Hl. apply Hl; try done; [|constructor].
  constructor; [done|]. apply Forall_forall. lia.
Qed.

Lemma remote_opens_bounded_witness :
  let requests := (λ t, (t * 1000000000, set_clients (λ n, n + 1))) <$> [1; 2; 3; 4; 62] in
  let_through requests example_shared = [1000000000; 2000000000; 3000000000; 62000000000]
  ∧ 1000000000 + 60 * 1000000000 ≤ 62000000000.
Proof.
  split; [vm_compute; reflexivity|].
  apply (remote_opens_bounded ((λ t, (t * 1000000000, set_clients (λ n, n + 1))) <$> [1; 2; 3; 4; 62])
           example_shared) with (i := 0%nat).
  - reflexivity.
  - repeat constructor.
  - repeat constructor; vm_compute; congruence.
  - vm_compute. reflexivity.
  - vm_compute. reflexivity.
Defined.

(** ** Consent *)

Section consent.
Context (this_program : result text text) (state_file : text) (remote : RemoteOpenConfig) (desktop : Desktop).
Context (spawn spawn_window : list text → result text ()) (debug : text → text).
Implicit Types (request : RemoteRequest) (s : Shared).
Abbreviation host := (host_for_request this_program state_file remote desktop spawn spawn_window debug).
Abbreviation argv_for := (hosting_argv this_program state_file remote).

(** An argument list that hosts the request's shell: this program's, by itself
    or after the emulator's own, and then with no separator of commands. *)
Definition hosts_request (label request_id : text) (cols rows : N) (argv : list text) : Prop :=
  argv_for label request_id (Some (cols, rows)) = Ok argv
  ∨ ∃ emulator hosted, argv = emulator ++ hosted ∧ window_command desktop (ro_window remote) = Some emulator
      ∧ argv_for label request_id None = Ok hosted ∧ Forall (λ a, NO_WINDOW_ARGUMENT ∉ a) hosted.

Lemma spawn_headless_tried label request_id cols rows tried r :
  spawn_headless this_program state_file remote spawn label request_id cols rows = (tried, r) →
  Forall (hosts_request label request_id cols rows) tried.
Proof.
  unfold spawn_headless. destruct (argv_for _ _ _) eqn:E; intros [= <- <-]; [|constructor].
  constructor; [by left|constructor].
Qed.
Lemma spawn_in_window_tried emulator label request_id cols rows tried r :
  window_command desktop (ro_window remote) = Some emulator →
  spawn_in_window this_program state_file remote spawn_window debug emulator label request_id = (tried, r) →
  Forall (hosts_request label request_id cols rows) tried.
Proof.
  intros Hw. unfold spawn_in_window. destruct (argv_for _ _ _) as [argv|] eqn:E; [|by intros [= <- <-]].
  destruct (head _) as [a|] eqn:Eh; [by intros [= <- <-]|]. intros [= <- <-]. constructor; [|constructor].
  right. exists emulator, argv. split_and!; try done. apply Forall_forall. intros a Ha Hn.
  assert (a ∈ filter (λ a, window_argument a = true) argv) as Hf.
  { apply list_elem_of_filter. split; [|done]. unfold window_argument. by rewrite bool_decide_eq_true_2. }
  destruct (filter _ argv); [by apply not_elem_of_nil in Hf|done].
Qed.
Lemma spawn_tried label request_id cols rows tried r :
  spawn_hosted_shell this_program state_file remote desktop spawn spawn_window debug label request_id cols rows
    = (tried, r) →
  Forall (hosts_request label request_id cols rows) tried.
Proof.
  unfold spawn_hosted_shell. destruct (window_command _ _) as [emulator|] eqn:Ew; [|apply spawn_headless_tried].
  destruct (spawn_in_window _ _ _ _ _ _ _ _) as [tried1 r1] eqn:E1. eapply spawn_in_window_tried in E1; [|done].
  destruct r1; [by intros [= <- <-]|].
  destruct (spawn_headless _ _ _ _ _ _ _ _) as [tried2 r2] eqn:E2. apply spawn_headless_tried in E2.
  intros [= <- <-]. by apply Forall_app.
Qed.

Lemma spawn_ok_tried label request_id cols rows tried :
  spawn_hosted_shell this_program state_file remote desktop spawn spawn_window debug label request_id cols rows
    = (tried, Ok ()) → tried ≠ [].
Proof.
  unfold spawn_hosted_shell, spawn_in_window, spawn_headless.
  destruct (window_command _ _) as [emulator|]; destruct (argv_for label request_id None); destruct (argv_for label request_id (Some (cols, rows)));
    try destruct (head _); try destruct (spawn_window _); cbn; by intros [= <-].
Qed.

Definition requested_label request : text := default default_label (rr_label request).

(** C15: a process starts for a subscriber only with this machine's consent.
    Whatever the relay sends and whatever other tasks do meanwhile, if anything
    is started then the owner has switched it on, the request was within the
    rate, fewer terminals than allowed were held or starting, and the label is
    one the machine accepts; and each process is this program asked to [run],
    the label being one argument of it, alone or after the emulator the owner's
    policy chose, in which case no argument holds a [;]. *)
Theorem hosting_needs_consent (now : N) (meanwhile starting : Shared → Shared) request s tried waiting s' argv :
  host now meanwhile starting request s = (tried, waiting, s') → argv ∈ tried →
  ro_enabled remote = true ∧ (rate_gate now s).1 = true
  ∧ (let s1 := meanwhile (rate_gate now s).2 in
     N.of_nat (size (sh_claimed s1)) + sh_hosting s1 < ro_max_terminals remote)
  ∧ acceptable_label (requested_label request) = true
  ∧ hosts_request (requested_label request) (rr_request_id request)
      (clamp_size (default 80 (rr_cols request))) (clamp_size (default 24 (rr_rows request))) argv.
Proof.
  unfold host_for_request. destruct (ro_enabled remote) eqn:Ee; cbn [negb];
    [|intros [= <- <- <-] Ha; by apply not_elem_of_nil in Ha].
  destruct (rate_gate now s) as [[] s0] eqn:Eg; cbn [negb];
    [|intros [= <- <- <-] Ha; by apply not_elem_of_nil in Ha].
  cbn zeta. case_N; [intros [= <- <- <-] Ha; by apply not_elem_of_nil in Ha|].
  destruct (acceptable_label _) eqn:El; cbn [negb];
    [|intros [= <- <- <-] Ha; by apply not_elem_of_nil in Ha].
  destruct (spawn_hosted_shell _ _ _ _ _ _ _ _ _ _ _) as [tried1 r] eqn:Es. apply spawn_tried in Es.
  intros Hr Ha. assert (tried = tried1) as -> by (by destruct r; injection Hr).
  split_and!; try done. rewrite Forall_forall in Es. auto.
Qed.

(** Every request is answered, once. A request that leaves nothing starting
    is declined exactly once on the relay's connection, under its own
    identifier and with the reason the first failing check gives; one that is
    being hosted is not declined, and counts as starting until it settles. *)
Theorem requests_answered_once (now : N) request s tried waiting s' :
  cc_rx_open (sh_link s) = true → host now id id request s = (tried, waiting, s') →
  sh_claimed s' = sh_claimed s ∧ sh_clients s' = sh_clients s
  ∧ if waiting : bool then sh_link s' = sh_link s ∧ sh_hosting s' = sh_hosting s + 1 ∧ tried ≠ []
    else sh_hosting s' = sh_hosting s ∧ sh_link s' = queue_controls
      [CtDecline (rr_request_id request)
         (if negb (ro_enabled remote) then "not_permitted"
          else if negb (rate_gate now s).1 then "busy"
          else if ro_max_terminals remote <=? N.of_nat (size (sh_claimed s)) + sh_hosting s then "limit_reached"
          else if negb (acceptable_label (requested_label request)) then "not_permitted"
          else "internal_error")] (sh_link s).
Proof.
  intros Hc. unfold host_for_request, requested_label, decline, link_decline.
  assert (∀ m, ((control_send m ≫= λ _, mret ()) (sh_link s)).2 = queue_controls [m] (sh_link s)) as Hq.
  { intros m. rewrite st_bind. by rewrite control_send_open. }
  destruct (ro_enabled remote) eqn:Ee; cbn [negb]; [|intros [= <- <- <-]; by rewrite <- Hq].
  destruct (rate_gate now s) as [within s0] eqn:Eg.
  assert (∃ l, s0 = set_last_spawns l s) as [l ->].
  { revert Eg. unfold rate_gate. case_N; intros [= _ <-]; eauto. }
  destruct within; cbn [negb fst]; [|intros [= <- <- <-]; by rewrite <- Hq].
  cbn zeta. unfold id. cbn [set_last_spawns sh_claimed sh_hosting sh_link set_hosting set_link sh_clients].
  case_N; [intros [= <- <- <-]; by rewrite <- Hq|].
  destruct (acceptable_label _) eqn:El; cbn [negb]; [|intros [= <- <- <-]; by rewrite <- Hq].
  destruct (spawn_hosted_shell _ _ _ _ _ _ _ _ _ _ _) as [tried1 [[]|e]] eqn:Es; intros [= <- <- <-].
  - apply spawn_ok_tried in Es. done.
  - rewrite <- Hq. split_and!; try done. cbn. lia.
Qed.
End consent.

Definition example_policy : RemoteOpenConfig := mkRemoteOpenConfig true [lit "bash"] [] 4 WpAuto.
Definition example_desktop : Desktop :=
  mkDesktop None true (λ program, if bool_decide (program = "xterm"%string) then Some (lit "/usr/bin/xterm") else None).
Definition example_request : RemoteRequest := mkRemoteRequest (lit "q") (Some (lit "top; reboot")) None None.
Definition example_host (spawn : list text → result text ()) : Shared → list (list text) * bool * Shared :=
  host_for_request (Ok (lit "hype")) (lit "state") example_policy example_desktop spawn (λ _, Ok ()) id
    5 id id example_request.
Definition example_started : Shared := set_hosting (λ n, n + 1) (set_last_spawns [5] example_shared).
Definition example_headless : list text :=
  [lit "hype"; lit "--state-file"; lit "state"; lit "run"; lit "--label"; lit "top; reboot"; lit "--in-reply-to";
   lit "q"; lit "--cols"; lit "80"; lit "--rows"; lit "24"; lit "--"; lit "bash"].

Lemma hosting_needs_consent_witness :
  ro_enabled example_policy = true ∧ (rate_gate 5 example_shared).1 = true
  ∧ (let s1 := id (rate_gate 5 example_shared).2 in
     N.of_nat (size (sh_claimed s1)) + sh_hosting s1 < ro_max_terminals example_policy)
  ∧ acceptable_label (lit "top; reboot") = true
  ∧ hosts_request (Ok (lit "hype")) (lit "state") example_policy example_desktop (lit "top; reboot") (lit "q") 80 24
      example_headless.
Proof.
  apply (hosting_needs_consent (Ok (lit "hype")) (lit "state") example_policy example_desktop (λ _, Ok ())
    (λ _, Ok ()) id 5 id id example_request example_shared [example_headless] true example_started).
  - vm_compute. reflexivity.
  - left.
Defined.

Lemma requests_answered_once_witness :
  let s' := set_link (queue_controls [CtDecline (lit "q") "internal_error"] (sh_link example_shared))
              (set_last_spawns [5] example_shared) in
  sh_claimed s' = sh_claimed example_shared ∧ sh_clients s' = sh_clients example_shared
  ∧ sh_hosting s' = sh_hosting example_shared
  ∧ sh_link s' = queue_controls [CtDecline (lit "q") "internal_error"] (sh_link example_shared).
Proof.
  apply (requests_answered_once (Ok (lit "hype")) (lit "state") example_policy example_desktop (λ _, Err (lit "no"))
    (λ _, Ok ()) id 5 example_request example_shared [example_headless] false).
  - reflexivity.
  - vm_compute. reflexivity.
Defined.

(** ** Reattaching *)

(** All the delays of [tries] attempts from [attempt] on. *)
Fixpoint reattach_total (tries : nat) (attempt : N) : N :=
  match tries with O => 0 | S tries => reattach_delay_ms attempt + reattach_total tries (attempt + 1) end.

Lemma reattach_loop_spec {A} tries attempt (handshake : N → option A) :
  let r := reattach_loop tries attempt handshake in
  r.2 ≤ reattach_total tries attempt
  ∧ match r.1 with
    | Some stream => ∃ a, attempt ≤ a < attempt + N.of_nat tries ∧ handshake a = Some stream
                          ∧ ∀ b, attempt ≤ b < a → handshake b = None
    | None => ∀ a, attempt ≤ a < attempt + N.of_nat tries → handshake a = None
    end.
Proof.
  revert attempt. induction tries as [|tries IH]; intros attempt; cbn [reattach_loop reattach_total].
  { split; [done|]. cbn. intros a Ha. lia. }
  destruct (handshake attempt) as [stream|] eqn:E.
  { cbn [fst snd]. split; [lia|]. exists attempt. split_and!; [lia|lia|done|]. intros b Hb. lia. }
  specialize (IH (attempt + 1)). destruct (reattach_loop tries (attempt + 1) handshake) as [r waited].
  cbn [fst snd] in *. destruct IH as [Hw Hr]. split; [lia|].
  assert (∀ b, attempt ≤ b → ¬ attempt + 1 ≤ b → handshake b = None) as Hfirst.
  { intros b H1 H2. by replace b with attempt by lia. }
  destruct r as [stream|].
  - destruct Hr as (a & Ha & Hs & Hn). exists a. split_and!; [lia|lia|done|]. intros b Hb.
    destruct (decide (attempt + 1 ≤ b)); [apply Hn|apply Hfirst]; lia.
  - intros a Ha. destruct (decide (attempt + 1 ≤ a)); [apply Hr|apply Hfirst]; lia.
Qed.

Lemma await_daemon_cons {A} socket elapsed wait answer took (tries : list (option A * N)) :
  is_Some (await_daemon socket (elapsed + took + wait) (N.min (wait * 2) 250) tries) →
  is_Some (await_daemon socket elapsed wait ((answer, took) :: tries)).
Proof. cbn [await_daemon]. destruct answer; [done|]. by case_N. Qed.
Lemma await_daemon_steady {A} socket k elapsed (tries : list (option A * N)) :
  (k < length tries)%nat → ATTACH_DEADLINE_MS ≤ elapsed + 250 * N.of_nat k →
  is_Some (await_daemon socket elapsed 250 tries).
Proof.
  revert k elapsed. induction tries as [|[answer took] tries IH]; intros k elapsed Hk He; [cbn in Hk; lia|].
  cbn [await_daemon]. destruct answer; [done|]. case_N; [done|].
  destruct k as [|k]; [lia|]. apply (IH k); [cbn in Hk; lia|]. lia.
Qed.

(** A hosted shell never waits for ever for a daemon. Attaching to one that
    was just started succeeds or gives up within twenty-four tries, however
    long each takes; reattaching takes the first of eight attempts that
    succeeds, has then waited at most ninety-two seconds, and fails only when
    all eight do. *)
Theorem attaching_terminates {A} (socket : text) (tries : list (option A * N)) (handshake : N → option A) :
  ((24 ≤ length tries)%nat → is_Some (await_daemon socket 0 20 tries))
  ∧ (reattach handshake).2 ≤ 91500
  ∧ match (reattach handshake).1 with
    | Some stream => ∃ a, 1 ≤ a ≤ 8 ∧ handshake a = Some stream ∧ ∀ b, 1 ≤ b < a → handshake b = None
    | None => ∀ a, 1 ≤ a ≤ 8 → handshake a = None
    end.
Proof.
  split.
  - intros Hl. destruct tries as [|[? t1] [|[? t2] [|[? t3] [|[? t4] tries]]]]; cbn in Hl; try lia.
    do 4 apply await_daemon_cons. apply (await_daemon_steady socket 19); [lia|]. unfold ATTACH_DEADLINE_MS. lia.
  - destruct (reattach_loop_spec 8 1 handshake) as [Hw Hr]. fold (reattach handshake) in Hw, Hr. split.
    + etrans; [exact Hw|]. vm_compute. congruence.
    + destruct (reattach handshake).1 as [stream|].
      * destruct Hr as (a & Ha & Hs & Hn). exists a. split_and!; [lia|lia|done|done].
      * intros a Ha. apply Hr. lia.
Qed.

(** ** From a hosted shell to the relay *)

Section path.
Context `{IpcJson FromClient} `{IpcJson FromDaemon}.
Implicit Types (l : list (N * list byte)).

Definition output_request : N * list byte → Request := λ '(o, b), RqOutput o b.
Definition output_control (local_ref : text) : N * list byte → Control := λ '(o, b), CtOutput local_ref o b.
Definition output_frame (id : Uuid) : N * list byte → PublisherOutputFrame := λ '(o, b), mkPublisherOutputFrame id o b.
Definition piece_ok (limits : Limits) : N * list byte → Prop := λ '(o, b),
  0 < len b ≤ lm_max_output_frame_bytes limits ∧ len b + 8 ≤ MAX_FRAME_BYTES ∧ o + len b < two64.

Lemma piece_controls limits local_ref l :
  Forall (piece_ok limits) l →
  mjoin (controls_of local_ref <$> until_close (output_request <$> l)) = output_control local_ref <$> l.
Proof.
  induction 1 as [|[o b] l (Hb & _) Hl IH]; [done|]. destruct b; [unfold len in Hb; cbn in Hb; lia|].
  cbn [fmap list_fmap output_request until_close controls_of is_empty mjoin list_join app output_control].
  f_equal. exact IH.
Qed.

Lemma mux_outputs limits max local_ref id l m :
  mx_terminals m !! local_ref ≫= ho_terminal_id = Some id → id < two128 → Forall (piece_ok limits) l →
  ∃ frames, for_each (output_control local_ref <$> l) (λ c, mux_control c limits max) m
      = ((), set_writer (λ q, q ++ (WBinary <$> frames)) m)
    ∧ decode_publisher_frame <$> frames = Ok <$> (output_frame id <$> l).
Proof.
  intros Hm Hid Hl. revert m Hm. induction Hl as [|[o b] l (Hb & _ & Ho) Hl IH]; intros m Hm.
  { exists []. split; [|done]. cbn. by rewrite writer_same. }
  cbn [fmap list_fmap output_control for_each]. rewrite st_bind. unfold mux_control at 1. autorewrite with stm.
  rewrite Hm, chunks_whole by done. rewrite write_slices_frames by (cbn; rewrite app_nil_r; lia).
  destruct (IH (set_writer (λ q, q ++ (WBinary <$> output_frames id o [b])) m)) as (frames & Hf & Hd); [done|].
  exists (output_frames id o [b] ++ frames). split.
  - etrans; [exact Hf|]. f_equal. unfold set_writer. cbn. f_equal. by rewrite <- app_assoc.
  - rewrite fmap_app, Hd, relay_decodes_output by (cbn; rewrite ?app_nil_r; lia). done.
Qed.

(** C8: a hosted shell's output arrives at the relay as it was produced. Take
    pieces that fit the relay's frames and, with their eight bytes of offset, the
    mebibyte of a local frame (a longer one ends the client:
    [large_output_ends_the_client]), and let no other client of the daemon act
    in between. Then the pieces the driver sends, through the socket, the daemon,
    the control channel and the relay connection's framing, are the frames the
    relay decodes: the same bytes at the same offsets under the terminal's
    identifier, in order, none lost and none added. *)
Theorem hosted_output_reaches_the_relay (limits : Limits) (max : N) local_ref id l m (s : Shared) :
  mx_terminals m !! local_ref ≫= ho_terminal_id = Some id → id < two128 → Forall (piece_ok limits) l →
  cc_rx_open (sh_link s) = true →
  ∃ sent frames,
    client_loop (mkTerminalSink local_ref true)
      (quietly (socket_reads true (mjoin (forward_requests (output_request <$> l))))) (mkAttach s [])
      = (Some (Ok ()), mkAttach (set_link (queue_controls sent (sh_link s)) s) [])
    ∧ for_each sent (λ c, mux_control c limits max) m = ((), set_writer (λ q, q ++ (WBinary <$> frames)) m)
    ∧ decode_publisher_frame <$> frames = Ok <$> (output_frame id <$> l).
Proof.
  intros Hm Hid Hl Hc. destruct (mux_outputs limits max local_ref id l m Hm Hid Hl) as (frames & Hf & Hd).
  assert (Forall request_sendable (output_request <$> l)) as Hs.
  { apply Forall_fmap. eapply Forall_impl; [exact Hl|]. intros [o b] (Hb & Hb' & Ho). split; lia. }
  exists (output_control local_ref <$> l), frames. split_and!; [|done|done].
  rewrite forward_requests_encoded, socket_reads_encoded.
  - replace (mkAttach s []) with (mkAttach (set_link (sh_link s) s) []) by (by destruct s).
    rewrite client_loop_requests by done. by rewrite (piece_controls limits).
  - apply Forall_fmap. eapply Forall_impl; [by apply until_close_Forall|]. apply request_if_fits.
Qed.
End path.

Lemma hosted_output_reaches_the_relay_witness :
  ∃ sent frames,
    client_loop (H := example_from_client) (mkTerminalSink (lit "a") true)
      (quietly (socket_reads true (mjoin (forward_requests (H := example_from_client)
         (output_request <$> [(40, [x61; x62]); (42, [x63])]))))) (mkAttach example_shared [])
      = (Some (Ok ()), mkAttach (set_link (queue_controls sent (sh_link example_shared)) example_shared) [])
    ∧ for_each sent (λ c, mux_control c example_session_limits 4) example_mux
        = ((), set_writer (λ q, q ++ (WBinary <$> frames)) example_mux)
    ∧ decode_publisher_frame <$> frames = Ok <$> (output_frame 7 <$> [(40, [x61; x62]); (42, [x63])]).
Proof.
  apply (hosted_output_reaches_the_relay (H := example_from_client) example_session_limits 4 (lit "a") 7
    [(40, [x61; x62]); (42, [x63])] example_mux example_shared).
  - vm_compute. reflexivity.
  - reflexivity.
  - repeat constructor; vm_compute; congruence.
  - reflexivity.
Defined.
