(* ===== verification/PublisherState.v ===== *)
(** * What the publisher remembers ([publisher/src/state.rs], [pairing.rs])

    The state file as JSON, how it is loaded and saved, and the pairing code. The
    [#[serde]] attributes of the source are [state_to_json] and
    [state_from_json]; reading and writing JSON text is the interface [JsonText]
    and [to_string_pretty]. *)

From S2P Require Export Json Crypto Daemon FileSystem.

Open Scope N_scope.
Open Scope hype_scope.

Record State := mkState {
  st_relay_url : text;
  st_identity_seed : text;
  st_identity_id : text;
  st_device_seed : text;
  st_device_id : text;
  st_device_name : text;
  st_remote_open : RemoteOpenConfig;
}.
(** [State::default] *)
Definition state_default : State := mkState [] [] [] [] [] [] remote_open_default.

Inductive StateError :=
| SeIo (detail : text)
| SeMalformed (detail : text)
| SePermissions (path : text).
(** Its [Display]. *)
Definition state_error_text (e : StateError) : text :=
  match e with
  | SeIo detail => detail
  | SeMalformed detail => lit "state file is malformed: " ++ detail
  | SePermissions path =>
      lit "state file " ++ path ++ lit " is readable by other users; fix with: chmod 600 " ++ path
  end.

(** ** The file's JSON *)

Definition window_to_json (w : WindowPolicy) : json :=
  match w with
  | WpAuto => jstr "auto"
  | WpNever => jstr "never"
  | WpCommand argv => JObj [("command"%string, JArr (JStr <$> argv))]
  end.
Definition remote_open_to_json (r : RemoteOpenConfig) : json :=
  JObj [("enabled"%string, JBool (ro_enabled r)); ("shell"%string, JArr (JStr <$> ro_shell r));
        ("cwd"%string, JStr (ro_cwd r)); ("max_terminals"%string, jnat (ro_max_terminals r));
        ("window"%string, window_to_json (ro_window r))].
(** [skip_serializing_if = "String::is_empty"] *)
Definition unless_empty (name : string) (t : text) : list (string * json) := if is_empty t then [] else [(name, JStr t)].
Definition state_to_json (s : State) : json :=
  JObj ([("relay_url"%string, JStr (st_relay_url s))]
        ++ unless_empty "identity_seed" (st_identity_seed s) ++ unless_empty "identity_id" (st_identity_id s)
        ++ unless_empty "device_seed" (st_device_seed s) ++ unless_empty "device_id" (st_device_id s)
        ++ unless_empty "device_name" (st_device_name s)
        ++ [("remote_open"%string, remote_open_to_json (st_remote_open s))]).

(** A field with [#[serde(default)]]; a known field that comes twice is an
    error, an unknown one is skipped. *)
Definition jstrings (j : json) : option (list text) := match j with JArr items => mapM jas_str items | _ => None end.
Definition occurrences (name : string) (fields : list (string * json)) : nat := length (filter (λ f, f.1 = name) fields).
Definition field_or {A} (name : string) (read : json → option A) (d : A) (fields : list (string * json)) : option A :=
  if (2 <=? occurrences name fields)%nat then None
  else match field_get name fields with Some v => read v | None => Some d end.
(** A struct is also read from an array, by position. *)
Definition fields_of (names : list string) (j : json) : option (list (string * json)) :=
  match j with
  | JObj fields => Some fields
  | JArr items => if (length items <=? length names)%nat then Some (zip names items) else None
  | _ => None
  end.
Definition jas_u32 (j : json) : option N :=
  z ← jas_i64 j; if ((0 <=? z) && (z <? 4294967296))%Z then Some (Z.to_N z) else None.
Definition jis_null (j : json) : bool := match j with JNull => true | _ => false end.
Definition window_from_json (j : json) : option WindowPolicy :=
  match j with
  | JStr t => if bool_decide (t = lit "auto") then Some WpAuto else if bool_decide (t = lit "never") then Some WpNever else None
  | JObj [(name, v)] =>
      if bool_decide (name = "command"%string) then WpCommand <$> jstrings v
      else if jis_null v && bool_decide (name = "auto"%string) then Some WpAuto
      else if jis_null v && bool_decide (name = "never"%string) then Some WpNever
      else None
  | _ => None
  end.
Definition remote_open_from_json (j : json) : option RemoteOpenConfig :=
  fields ← fields_of ["enabled"; "shell"; "cwd"; "max_terminals"; "window"]%string j;
  enabled ← field_or "enabled" jas_bool false fields;
  shell ← field_or "shell" jstrings [] fields;
  cwd ← field_or "cwd" jas_str [] fields;
  max_terminals ← field_or "max_terminals" jas_u32 default_max_remote_terminals fields;
  window ← field_or "window" window_from_json WpAuto fields;
  Some (mkRemoteOpenConfig enabled shell cwd max_terminals window).
Definition state_from_json (j : json) : option State :=
  fields ← fields_of ["relay_url"; "identity_seed"; "identity_id"; "device_seed"; "device_id"; "device_name"; "remote_open"]%string j;
  relay_url ← field_or "relay_url" jas_str [] fields;
  identity_seed ← field_or "identity_seed" jas_str [] fields;
  identity_id ← field_or "identity_id" jas_str [] fields;
  device_seed ← field_or "device_seed" jas_str [] fields;
  device_id ← field_or "device_id" jas_str [] fields;
  device_name ← field_or "device_name" jas_str [] fields;
  remote_open ← field_or "remote_open" remote_open_from_json remote_open_default fields;
  Some (mkState relay_url identity_seed identity_id device_seed device_id device_name remote_open).

(** ** The file *)

Definition system_call (what : text) : FilesM StateError () :=
  fault ← next_fault;
  match fault with Some (e, _) => stop (SeIo (what ++ e)) | None => mret () end.

(** [write_private]: the bits are only those of a file it creates. *)
Definition write_private (path : text) (bytes : list byte) : FilesM StateError () :=
  _ ← system_call (lit "creating " ++ path ++ lit ": ");
  _ ← edit (λ files, <[path := mkFileEntry (from_option fe_mode 384 (files !! path)) []]> files);
  fault ← next_fault;
  match fault with
  | Some (e, n) =>
      _ ← edit (alter (λ f, mkFileEntry (fe_mode f) (takeN n bytes)) path);
      stop (SeIo (lit "writing " ++ path ++ lit ": " ++ e))
  | None => edit (alter (λ f, mkFileEntry (fe_mode f) bytes) path)
  end.
Definition rename (from to : text) : FilesM StateError () :=
  _ ← system_call (lit "replacing " ++ to ++ lit ": ");
  edit (λ files, match files !! from with Some f => <[to := f]> (delete from files) | None => files end).
Definition check_permissions (path : text) : FilesM StateError () :=
  _ ← system_call (lit "reading " ++ path ++ lit ": ");
  f ← entry_at path;
  if negb (N.land (from_option fe_mode 0 f) 63 =? 0) then stop (SePermissions path) else mret ().

Section state_file.
Context `{CryptoLib, JsonText} (to_string_pretty : json → text).
(** The text of [serde_json]'s error about a text. *)
Context (malformed : text → text).

(** [KeyPair::from_seed]; a pair is its seed. *)
Definition pair_from_seed (seed : list byte) : option (list byte) := if len seed =? 32 then Some seed else None.
Definition identity_key (s : State) : option (list byte) := b64_decode (st_identity_seed s) ≫= pair_from_seed.
Definition device_key (s : State) : option (list byte) := b64_decode (st_device_seed s) ≫= pair_from_seed.
Definition set_identity_key (seed : list byte) (s : State) : State :=
  mkState (st_relay_url s) (b64_encode seed) (pair_fingerprint seed) (st_device_seed s) (st_device_id s) (st_device_name s)
    (st_remote_open s).
Definition set_device_key (seed : list byte) (s : State) : State :=
  mkState (st_relay_url s) (st_identity_seed s) (st_identity_id s) (b64_encode seed) (st_device_id s) (st_device_name s)
    (st_remote_open s).

(** [state::load], [state::save] *)
Definition load_state (path : text) : FilesM StateError State :=
  exists_ ← path_exists path;
  if negb exists_ then mret state_default
  else
    _ ← check_permissions path;
    _ ← system_call (lit "reading " ++ path ++ lit ": ");
    f ← entry_at path;
    match f with
    | None => stop (SeIo (lit "reading " ++ path ++ lit ": No such file or directory (os error 2)"))
    | Some f =>
      match from_utf8 (fe_bytes f) with
      | None => stop (SeIo (lit "reading " ++ path ++ lit ": stream did not contain valid UTF-8"))
      | Some t =>
          match json_from_str t ≫= state_from_json with
          | Some s => mret s
          | None => stop (SeMalformed (malformed t))
          end
      end
    end.
Definition save_state (path : text) (s : State) : FilesM StateError () :=
  _ ← (match parent path with
       | Some dir => if is_empty dir then mret () else system_call (lit "creating " ++ dir ++ lit ": ")
       | None => mret ()
       end);
  let bytes := utf8 (to_string_pretty (state_to_json s)) in
  let temporary := with_extension_tmp path in
  _ ← write_private temporary bytes;
  rename temporary path.
End state_file.

(** [default_path] from the environment, on Unix. *)
Definition config_base (env : string → option text) : option text :=
  match env "XDG_CONFIG_HOME"%string with
  | Some dir => if is_empty dir then (λ home, join_path home ".config") <$> env "HOME"%string else Some dir
  | None => (λ home, join_path home ".config") <$> env "HOME"%string
  end.
Definition default_path (env : string → option text) : text :=
  let standard := join_path (join_path (default (lit ".") (config_base env)) "hypeterm") "publisher.json" in
  match env "HYPETERM_STATE"%string with
  | Some explicit => if is_empty (trim explicit) then standard else explicit
  | None => standard
  end.

(** ** Pairing codes *)

Record PairingCode := mkPairingCode {
  pc_server_url : text;
  pc_identity_id : text;
  pc_identity_token : text;
}.
Definition pairing_encode `{CryptoLib, JsonText} (code : PairingCode) : text :=
  let wire := JObj [("u"%string, JStr (pc_server_url code)); ("i"%string, JStr (pc_identity_id code));
                    ("t"%string, JStr (pc_identity_token code))] in
  lit "HT1." ++ b64_encode (utf8 (json_to_string wire)).
