(* ===== verification/PublisherStateProps.v ===== *)
(** * Theorems about the publisher's state file

    What is written is read back; a save that is interrupted anywhere leaves the
    old file or the new one. *)

From S2P Require Export PublisherState CryptoProps.

Open Scope N_scope.
Open Scope hype_scope.

Example with_extension_example :
  with_extension_tmp (lit "/home/a.b/publisher.json") = lit "/home/a.b/publisher.tmp"
  ∧ with_extension_tmp (lit "a/.hidden") = lit "a/.hidden.tmp" ∧ with_extension_tmp (lit "keys.tmp") = lit "keys.tmp"
  ∧ parent (lit "/home/publisher.json") = Some (lit "/home").
Proof. by vm_compute. Qed.

(** ** The JSON of a state *)

Lemma mapM_jas_strings l : mapM jas_str (JStr <$> l) = Some l.
Proof. induction l as [|x l IH]; [done|]. cbn. by rewrite IH. Qed.
Lemma jstrings_back l : jstrings (JArr (JStr <$> l)) = Some l.
Proof. apply mapM_jas_strings. Qed.
Lemma window_reads_back w : window_from_json (window_to_json w) = Some w.
Proof. destruct w as [| |argv]; [done..|]. cbn -[jstrings fmap]. by rewrite jstrings_back. Qed.
Lemma remote_open_reads_back r :
  ro_max_terminals r < two32 → remote_open_from_json (remote_open_to_json r) = Some r.
Proof.
  intros Hm. destruct r as [enabled shell cwd max window]. cbn in Hm. unfold remote_open_to_json. cbn [ro_enabled ro_shell ro_cwd ro_max_terminals ro_window].
  pose proof (jstrings_back shell) as Hshell. pose proof (window_reads_back window) as Hwindow.
  assert (jas_u32 (jnat max) = Some max) as Hmax.
  { unfold jas_u32, jnat. cbn. assert (((0 <=? Z.of_N max) && (Z.of_N max <? 4294967296))%Z = true) as ->; [|cbn; by rewrite N2Z.id].
    apply andb_true_iff. split; [apply Z.leb_le|apply Z.ltb_lt]; [lia|]. lia. }
  generalize dependent (JArr (JStr <$> shell)). generalize dependent (window_to_json window). generalize dependent (jnat max).
  intros jm Hjm jw Hjw js Hjs. cbv -[jstrings jas_u32 window_from_json]. by rewrite Hjs, Hjm, Hjw.
Qed.
Lemma state_reads_back s :
  ro_max_terminals (st_remote_open s) < two32 → state_from_json (state_to_json s) = Some s.
Proof.
  intros Hm. destruct s as [url iseed iid dseed did name ro]. cbn in Hm. unfold state_to_json.
  pose proof (remote_open_reads_back ro Hm) as Hro. cbn [st_remote_open]. generalize dependent (remote_open_to_json ro). intros jr Hjr.
  destruct iseed, iid, dseed, did, name; cbv -[remote_open_from_json]; by rewrite Hjr.
Qed.

(** ** Saving *)

Section saving.
Context `{CryptoLib, JsonText} (to_string_pretty : json → text) (malformed : text → text).
Abbreviation save := (save_state to_string_pretty).
Abbreviation load := (load_state malformed).

(** The file a save is to leave. *)
Definition saved_bytes (s : State) : list byte := utf8 (to_string_pretty (state_to_json s)).
Definition saved_entry (path : text) (s : State) (files : gmap text FileEntry) : FileEntry :=
  mkFileEntry (from_option fe_mode 384 (files !! with_extension_tmp path)) (saved_bytes s).


Lemma save_leaves path s files :
  with_extension_tmp path ≠ path →
  let '(r, files') := save path s files in
  (∀ other, other ≠ path → other ≠ with_extension_tmp path → fs_entries files' !! other = fs_entries files !! other)
  ∧ match r with
    | Ok _ => fs_entries files' !! path = Some (saved_entry path s (fs_entries files))
    | Err _ => fs_entries files' !! path = fs_entries files !! path
    end.
Proof.
  intros Ht. unfold save_state, saved_entry, saved_bytes. set (tmp := with_extension_tmp path) in *.
  set (bytes := utf8 _). unfold mbind, FilesM_bind.
  assert (∃ r0 faults, match parent path with
            | Some dir => if is_empty dir then mret () else system_call (lit "creating " ++ dir ++ lit ": ")
            | None => mret () end files = (r0, mkFiles (fs_entries files) faults)) as (r0 & faults & ->).
  { unfold system_call, mbind, FilesM_bind, next_fault, stop, mret, FilesM_ret.
    destruct (parent path) as [dir|]; [|by eexists _, (fs_faults files); destruct files].
    destruct (is_empty dir); [by eexists _, (fs_faults files); destruct files|]. destruct (mjoin _) as [[]|]; by eexists _, _. }
  destruct r0 as [[]|e]; [|done]. destruct files as [entries faults0]. cbn [fs_entries] in *. clear faults0.
  unfold write_private, rename, system_call, edit, stop, mbind, FilesM_bind, next_fault, mret, FilesM_ret.
  cbn [fs_entries fs_faults put_entries].
  destruct (mjoin (head faults)) as [[e n]|]; [done|]. cbn [fs_entries fs_faults put_entries].
  destruct (mjoin (head (tail faults))) as [[e n]|]; cbn [fs_entries fs_faults put_entries].
  { split; [intros other Ho Ho'|]; by rewrite lookup_alter_ne, lookup_insert_ne. }
  destruct (mjoin (head (tail (tail faults)))) as [[e n]|]; cbn [fs_entries fs_faults put_entries].
  { split; [intros other Ho Ho'|]; by rewrite lookup_alter_ne, lookup_insert_ne. }
  rewrite lookup_alter_eq, lookup_insert_eq. cbn. split.
  - intros other Ho Ho'. by rewrite lookup_insert_ne, lookup_delete_ne, lookup_alter_ne, lookup_insert_ne.
  - by rewrite lookup_insert_eq.
Qed.

(** C34: a save is all or nothing. Whatever call of a save fails, and wherever a
    write is cut short, the state file is what it was before; and when the save
    answers, it is exactly the new state, written whole and then moved into
    place. No other file than the temporary one is touched either way. The
    temporary file's name differs from the state file's unless the latter ends
    in .tmp. *)
Theorem save_all_or_nothing path s files :
  with_extension_tmp path ≠ path →
  let '(r, files') := save path s files in
  (∀ other, other ≠ path → other ≠ with_extension_tmp path → fs_entries files' !! other = fs_entries files !! other)
  ∧ match r with
    | Ok _ => fs_entries files' !! path = Some (saved_entry path s (fs_entries files))
    | Err _ => fs_entries files' !! path = fs_entries files !! path
    end.
Proof. apply save_leaves. Qed.

(** What the source relies on of [serde_json]'s printer. *)
Class PrettyLaws := {
  pretty_round_trip j : json_from_str (to_string_pretty j) = Some j;
  pretty_valid j : valid_text (to_string_pretty j);
}.

(** A load, step by step: the existence check, the permissions, the text. *)
Lemma load_run path files :
  load path files
  = match mjoin (head (fs_faults files)), fs_entries files !! path with
    | None, Some f =>
       (_ ← check_permissions path;
        _ ← system_call (lit "reading " ++ path ++ lit ": ");
        match from_utf8 (fe_bytes f) with
        | None => stop (SeIo (lit "reading " ++ path ++ lit ": stream did not contain valid UTF-8"))
        | Some t =>
            match json_from_str t ≫= state_from_json with
            | Some s => mret s
            | None => stop (SeMalformed (malformed t))
            end
        end) (mkFiles (fs_entries files) (tail (fs_faults files)))
    | _, _ => (Ok state_default, mkFiles (fs_entries files) (tail (fs_faults files)))
    end.
Proof.
  unfold load_state. unfold mbind at 1, FilesM_bind at 1. rewrite path_exists_run.
  destruct (mjoin (head (fs_faults files))) as [fault|]; [by rewrite (bool_decide_eq_true_2 (is_Some _))|].
  rewrite (bool_decide_eq_false_2 (is_Some None)) by (by intros []).
  destruct (fs_entries files !! path) as [f|] eqn:Ef; [|by rewrite (bool_decide_eq_false_2 (is_Some None)) by (by intros [])].
  rewrite (bool_decide_eq_true_2 (is_Some (Some f))) by done. cbn [negb andb].
  unfold check_permissions, system_call, mbind, FilesM_bind, mret, FilesM_ret, next_fault, entry_at, stop.
  cbn [fs_faults fs_entries]. destruct (mjoin (head (tail (fs_faults files)))) as [[]|]; [done|]. cbn [fs_faults fs_entries].
  destruct (negb _); [done|]. cbn [fs_faults fs_entries]. destruct (mjoin _) as [[]|]; [done|]. cbn [fs_entries]. by rewrite Ef.
Qed.
(** What the file holds, when it can be read. *)
Definition holds (f : FileEntry) (s : State) : Prop :=
  ∃ t, from_utf8 (fe_bytes f) = Some t ∧ json_from_str t ≫= state_from_json = Some s.
(** A load whose existence check does not fail answers what the file holds. *)
Lemma load_reads path files f s :
  mjoin (head (fs_faults files)) = None → fs_entries files !! path = Some f → (load path files).1 = Ok s → holds f s.
Proof.
  intros Hc Hf. rewrite load_run, Hc, Hf. clear Hc.
  unfold check_permissions, system_call, mbind, FilesM_bind, mret, FilesM_ret, next_fault, entry_at, stop.
  cbn [fs_faults fs_entries]. destruct (mjoin (head (tail (fs_faults files)))) as [[]|]; [done|]. cbn [fs_faults fs_entries].
  destruct (negb _); [done|]. cbn [fs_faults fs_entries].
  destruct (mjoin (head (tail (tail (fs_faults files))))) as [[]|]; [done|]. unfold holds.
  destruct (from_utf8 (fe_bytes f)) as [t|]; [|done]. destruct (json_from_str t) as [j|] eqn:Ej; [|done]. cbn.
  destruct (state_from_json j) as [s'|] eqn:Es; [|done]. intros [= <-]. exists t. by rewrite Ej.
Qed.
(** One whose existence check fails, or finds nothing, answers the state of a
    new machine. *)
Lemma load_misses path files :
  is_Some (mjoin (head (fs_faults files))) ∨ fs_entries files !! path = None →
  load path files = (Ok state_default, mkFiles (fs_entries files) (tail (fs_faults files))).
Proof.
  intros Hm. rewrite load_run. destruct Hm as [[fault ->]|Hm]; [done|].
  by destruct (mjoin _), (fs_entries files !! path).
Qed.

(** A file that holds a saved state is loaded. *)
Lemma entry_loads `{!PrettyLaws} path s files before :
  ro_max_terminals (st_remote_open s) < two32 → fs_entries files !! path = Some (saved_entry path s before) → fs_faults files = [] →
  (load path files).1
  = (if N.land (from_option fe_mode 384 (before !! with_extension_tmp path)) 63 =? 0 then Ok s else Err (SePermissions path)).
Proof.
  intros Hm Hs Hf. destruct files as [entries faults]. cbn in Hf, Hs. subst faults.
  rewrite load_run. cbn [fs_entries fs_faults]. rewrite Hs. change (mjoin (head [])) with (@None Fault). cbv iota.
  unfold check_permissions, system_call, entry_at, stop, mbind, FilesM_bind, next_fault, mret, FilesM_ret.
  cbn. rewrite Hs. cbn. destruct (N.land _ 63 =? 0) eqn:Em; [|done]. cbn.
  unfold saved_bytes. rewrite from_utf8_utf8 by apply pretty_valid. rewrite pretty_round_trip. cbn [mbind option_bind]. by rewrite state_reads_back.
Qed.

(** What is saved is loaded. After a save that answered, a load whose calls
    succeed returns exactly the state that was saved, keys and policy included;
    unless an old temporary file was there with wider permissions, which the
    save keeps: then the load refuses its own file. *)
Theorem saved_state_loads `{!PrettyLaws} path s files files' :
  with_extension_tmp path ≠ path → ro_max_terminals (st_remote_open s) < two32 →
  save path s files = (Ok (), files') → fs_faults files' = [] →
  (load path files').1
  = (if N.land (from_option fe_mode 384 (fs_entries files !! with_extension_tmp path)) 63 =? 0 then Ok s
     else Err (SePermissions path)).
Proof.
  intros Ht Hm E Hf. pose proof (save_leaves path s files Ht) as Hs. rewrite E in Hs. destruct Hs as [_ Hs].
  by apply entry_loads.
Qed.
End saving.

(** ** A text for every JSON value: the bits of its code *)

Fixpoint json_tree (j : json) : gen_tree (bool + Z + text + string) :=
  match j with
  | JNull => GenNode 0 []
  | JBool b => GenLeaf (inl (inl (inl b)))
  | JNum z => GenLeaf (inl (inl (inr z)))
  | JStr t => GenLeaf (inl (inr t))
  | JArr l => GenNode 1 (json_tree <$> l)
  | JObj fields => GenNode 2 ((λ '(k, v), GenNode 3 [GenLeaf (inr k); json_tree v]) <$> fields)
  end.
Fixpoint tree_json (t : gen_tree (bool + Z + text + string)) : json :=
  match t with
  | GenLeaf (inl (inl (inl b))) => JBool b
  | GenLeaf (inl (inl (inr z))) => JNum z
  | GenLeaf (inl (inr t)) => JStr t
  | GenNode 1 l => JArr (tree_json <$> l)
  | GenNode 2 l => JObj ((λ t, match t with GenNode _ [GenLeaf (inr k); v] => (k, tree_json v) | _ => (EmptyString, JNull) end) <$> l)
  | _ => JNull
  end.
Fixpoint tree_json_tree (j : json) : tree_json (json_tree j) = j.
Proof.
  destruct j as [|b|z|t|l|fields]; try reflexivity; cbn; apply f_equal.
  - induction l as [|j l IH]; [done|]. cbn. by rewrite tree_json_tree, IH.
  - induction fields as [|[k v] fields IH]; [done|]. cbn. by rewrite tree_json_tree, IH.
Qed.
Fixpoint bits_text (p : positive) : text := match p with xH => [] | xO p => 48 :: bits_text p | xI p => 49 :: bits_text p end.
Fixpoint text_bits (t : text) : positive := match t with [] => xH | c :: t => if c =? 48 then xO (text_bits t) else xI (text_bits t) end.
Lemma text_bits_text p : text_bits (bits_text p) = p.
Proof. induction p as [p IH|p IH|]; cbn; congruence. Qed.
Definition bits_json : JsonText := {|
  json_to_string j := bits_text (encode (json_tree j));
  json_from_str t := tree_json <$> decode (text_bits t);
|}.
#[export] Instance bits_pretty : @PrettyLaws bits_json (json_to_string (JsonText := bits_json)).
Proof.
  constructor.
  - intros j. cbn [json_from_str json_to_string bits_json]. rewrite text_bits_text, decode_encode. cbn. by rewrite tree_json_tree.
  - intros j. cbn. generalize (encode (json_tree j)). intros p.
    induction p as [p IH|p IH|]; constructor; try done; by left.
Defined.

Definition kept_state : State :=
  mkState (lit "https://relay") (lit "c2VlZA") (lit "who") [] [] [] (mkRemoteOpenConfig true [lit "/bin/sh"] [] 4 (WpCommand [lit "konsole"; lit "-e"])).
Definition kept_files (faults : list (option Fault)) : Files :=
  mkFiles {[ lit "/h/publisher.json" := mkFileEntry 384 [x7b; x7d] ]} faults.
Lemma kept_path : with_extension_tmp (lit "/h/publisher.json") ≠ lit "/h/publisher.json".
Proof. done. Qed.

(** The disk is full after three bytes. *)
Lemma save_all_or_nothing_witness :
  let '(r, files') :=
    save_state (json_to_string (JsonText := bits_json)) (lit "/h/publisher.json") kept_state
      (kept_files [None; None; Some (lit "no space left on device", 3)]) in
  (∀ other, other ≠ lit "/h/publisher.json" → other ≠ with_extension_tmp (lit "/h/publisher.json") →
     fs_entries files' !! other = fs_entries (kept_files []) !! other)
  ∧ match r with
    | Ok _ => fs_entries files' !! lit "/h/publisher.json"
              = Some (saved_entry (json_to_string (JsonText := bits_json)) (lit "/h/publisher.json") kept_state
                        (fs_entries (kept_files [])))
    | Err _ => fs_entries files' !! lit "/h/publisher.json" = fs_entries (kept_files []) !! lit "/h/publisher.json"
    end.
Proof.
  exact (save_all_or_nothing (json_to_string (JsonText := bits_json)) (lit "/h/publisher.json") kept_state
           (kept_files [None; None; Some (lit "no space left on device", 3)]) kept_path).
Defined.

Definition kept_run : result StateError () * Files :=
  save_state (json_to_string (JsonText := bits_json)) (lit "/h/publisher.json") kept_state (kept_files []).
Lemma saved_state_loads_witness :
  (load_state (H0 := bits_json) id (lit "/h/publisher.json") kept_run.2).1
  = (if N.land (from_option fe_mode 384 (fs_entries (kept_files []) !! with_extension_tmp (lit "/h/publisher.json"))) 63 =? 0
     then Ok kept_state else Err (SePermissions (lit "/h/publisher.json"))).
Proof.
  by apply (saved_state_loads (H0 := bits_json) (json_to_string (JsonText := bits_json)) id (lit "/h/publisher.json") kept_state
           (kept_files []) kept_run.2 kept_path).
Defined.
