(* ===== verification/ApiClient.v ===== *)
(** * The publisher's requests to the relay ([publisher/src/api.rs])

    The network is a parameter: [exchange] answers a request with a status and a
    body, or with the error of the transport, and may change its own state. The
    texts of [serde_json]'s errors are [malformed]. *)

From S2P Require Export PublisherState.

Open Scope N_scope.
Open Scope hype_scope.

Record HttpRequest := mkHttpRequest {
  hq_method : string;
  hq_url : text;
  hq_body : option json;
  hq_bearer : option text;
}.

Record Challenge := mkChallenge {
  cg_challenge_id : text;
  cg_signing_input : text;
  cg_key_fingerprint : text;
}.
Record Token := mkToken {
  to_access_token : text;
  to_expires_in : Z;
  to_scopes : list text;
}.
Record TerminalItem := mkTerminalItem {
  ti_terminal_id : text;
  ti_label : text;
  ti_state : text;
  ti_cols : option N;
  ti_rows : option N;
  ti_accepts_input : bool;
}.
Record DeviceItem := mkDeviceItem {
  di_device_id : text;
  di_role : text;
}.

(** [Display] of [ApiError] *)
Definition client_error_text (e : ClientError) : text :=
  match e with
  | CeTransport detail => detail
  | CeRelay status code message => num status ++ lit ": " ++ code ++ lit ": " ++ message
  | CeMalformed detail => lit "the relay's response was not what this client expects: " ++ detail
  end.

(** ** Reading answers *)

Definition field_required {A} (name : string) (read : json → option A) (fields : list (string * json)) : option A :=
  if (2 <=? occurrences name fields)%nat then None else field_get name fields ≫= read.
Definition jas_option {A} (read : json → option A) (j : json) : option (option A) :=
  match j with JNull => Some None | _ => Some <$> read j end.
Definition challenge_from_json (j : json) : option Challenge :=
  fields ← fields_of ["challenge_id"; "signing_input"; "key_fingerprint"]%string j;
  challenge_id ← field_required "challenge_id" jas_str fields;
  signing_input ← field_required "signing_input" jas_str fields;
  key_fingerprint ← field_required "key_fingerprint" jas_str fields;
  Some (mkChallenge challenge_id signing_input key_fingerprint).
Definition token_from_json (j : json) : option Token :=
  fields ← fields_of ["access_token"; "expires_in"; "scopes"]%string j;
  access_token ← field_required "access_token" jas_str fields;
  expires_in ← field_required "expires_in" jas_i64 fields;
  scopes ← field_or "scopes" jstrings [] fields;
  Some (mkToken access_token expires_in scopes).
Definition identity_from_json (j : json) : option text :=
  fields ← fields_of ["identity_id"]%string j; field_required "identity_id" jas_str fields.
Definition terminal_from_json (j : json) : option TerminalItem :=
  fields ← fields_of ["terminal_id"; "label"; "state"; "cols"; "rows"; "accepts_input"]%string j;
  terminal_id ← field_required "terminal_id" jas_str fields;
  label ← field_or "label" jas_str [] fields;
  state ← field_or "state" jas_str [] fields;
  cols ← field_or "cols" (jas_option jas_u32) None fields;
  rows ← field_or "rows" (jas_option jas_u32) None fields;
  accepts_input ← field_or "accepts_input" jas_bool false fields;
  Some (mkTerminalItem terminal_id label state cols rows accepts_input).
Definition terminals_from_json (j : json) : option (list TerminalItem) :=
  fields ← fields_of ["terminals"]%string j;
  field_or "terminals" (λ j, match j with JArr items => mapM terminal_from_json items | _ => None end) [] fields.
Definition device_from_json (j : json) : option DeviceItem :=
  fields ← fields_of ["device_id"; "role"]%string j;
  device_id ← field_required "device_id" jas_str fields;
  role ← field_or "role" jas_str [] fields;
  Some (mkDeviceItem device_id role).

(** ** The client *)

Section client.
Context {W : Type} (exchange : HttpRequest → W → result text (N * text) * W).
Context `{CryptoLib, JsonText} (malformed : text → text) (debug : text → text).

Definition ClientM (A : Type) : Type := W → result ClientError A * W.
#[export] Instance ClientM_ret : MRet ClientM := λ A a s, (Ok a, s).
#[export] Instance ClientM_bind : MBind ClientM := λ A B k m s,
  match m s with (Ok a, s) => k a s | (Err e, s) => (Err e, s) end.
Definition client_lift {A} (r : result ClientError A) : ClientM A := λ s, (r, s).
Definition send_request (q : HttpRequest) : ClientM (N * text) := λ s,
  match exchange q s with (Ok r, s) => (Ok r, s) | (Err e, s) => (Err (CeTransport e), s) end.

(** [trim_end_matches('/')] *)
Fixpoint skip_slashes (t : text) : text := match t with 47 :: t' => skip_slashes t' | _ => t end.
Definition client_base_url (base_url : text) : text := reverse (skip_slashes (reverse base_url)).
(** The body of a refusal. *)
Definition relay_error (status : N) (body : text) : ClientError :=
  let detail :=
    v ← json_from_str body; error ← jget "error" v;
    code ← jget "code" error ≫= jas_str; message ← jget "message" error ≫= jas_str;
    Some (code, message) in
  let '(code, message) := default (lit "unknown", body) detail in CeRelay status code message.
Definition is_success (status : N) : bool := (200 <=? status) && (status <? 300).
Definition read_answer {A} (from_json : json → option A) (body : text) : result ClientError A :=
  match json_from_str body ≫= from_json with Some a => Ok a | None => Err (CeMalformed (malformed body)) end.
Definition client_post {A} (from_json : json → option A) (base path : text) (body : json) (bearer : option text) : ClientM A :=
  answer ← send_request (mkHttpRequest "POST" (base ++ path) (Some body) bearer);
  let '(status, body) := (answer : N * text) in
  client_lift (if is_success status then read_answer from_json body else Err (relay_error status body)).

Definition key_json (public_key_base64 : text) : json :=
  JObj [("algorithm"%string, jstr ALGORITHM_ED25519); ("public_key"%string, JStr public_key_base64)].
Definition challenge_body (operation : string) (public_key_base64 : text) (owner : option text) : json :=
  JObj ([("operation"%string, jstr operation); ("key"%string, key_json public_key_base64)]
        ++ match owner with Some owner => [("owner_identity_id"%string, JStr owner)] | None => [] end).
Definition client_challenge (base : text) (operation : string) (public_key_base64 : text) (owner : option text) : ClientM Challenge :=
  client_post challenge_from_json base (lit "/v1/auth/challenges") (challenge_body operation public_key_base64 owner) None.
(** [public_key_base64]; a key pair is its seed. *)
Definition public_key_base64 (seed : list byte) : text := b64_encode (ed25519_public seed).
Definition signed_body (challenge : Challenge) (signature : text) : json :=
  JObj [("challenge_id"%string, JStr (cg_challenge_id challenge)); ("signature"%string, JStr signature)].
(** A challenge, its signature, and the request both answer. *)
Definition answer_challenge {A} (from_json : json → option A) (base : text) (operation : string) (path : text) (seed : list byte)
    : ClientM A :=
  challenge ← client_challenge base operation (public_key_base64 seed) None;
  signature ← client_lift (sign_challenge debug (cg_signing_input challenge) seed (lit operation) None);
  client_post from_json base path (signed_body challenge signature) None.
Definition client_register_identity (base : text) (seed : list byte) : ClientM text :=
  answer_challenge identity_from_json base "register_identity" (lit "/v1/identities") seed.
Definition client_identity_token (base : text) (seed : list byte) : ClientM Token :=
  answer_challenge token_from_json base "authenticate_identity" (lit "/v1/auth/tokens") seed.
Definition client_device_token (base : text) (seed : list byte) : ClientM Token :=
  answer_challenge token_from_json base "authenticate_device" (lit "/v1/auth/tokens") seed.

Definition client_terminals (base identity_token : text) (device_id : option text) : ClientM (list TerminalItem) :=
  let url := base ++ lit "/v1/terminals?state=open&limit=100"
             ++ match device_id with Some device => lit "&device_id=" ++ device | None => [] end in
  answer ← send_request (mkHttpRequest "GET" url None (Some identity_token));
  let '(status, body) := (answer : N * text) in
  client_lift (if is_success status then read_answer terminals_from_json body
               else Err (CeRelay status (lit "request_failed") body)).

Definition no_signer : ClientError := CeMalformed (lit "registering a device needs its private key to sign the challenge").
Definition client_register_device (base identity_token identity_id device_public_key_base64 : text)
    (device_signer : option (list byte)) (name : text) (role : string) : ClientM DeviceItem :=
  challenge ← client_challenge base "register_device" device_public_key_base64 (Some identity_id);
  signature ← client_lift (match device_signer with
                           | Some seed => sign_challenge debug (cg_signing_input challenge) seed (lit "register_device") (Some identity_id)
                           | None => Err no_signer
                           end);
  client_post device_from_json base (lit "/v1/devices")
    (JObj [("name"%string, JStr name); ("key"%string, key_json device_public_key_base64);
           ("challenge_id"%string, JStr (cg_challenge_id challenge)); ("device_signature"%string, JStr signature);
           ("role"%string, jstr role)])
    (Some identity_token).
End client.
