(* ===== verification/PublisherMain.v ===== *)
(** * The publisher's commands ([publisher/src/main.rs])

    What each command of [hypeterm-publish] does to the state file and asks of
    the relay. A machine is its files, its network and the key pairs it will
    draw; a command's error is the text it prints. Printing is left out, except
    for the pairing code, which is the command's result. The environment, the
    working directory and the process id are arguments. *)

From S2P Require Export ApiClient.

Open Scope N_scope.
Open Scope hype_scope.

(** [str::contains] *)
Fixpoint text_contains (needle t : text) : bool :=
  bool_decide (takeN (len needle) t = needle) || match t with [] => false | _ :: t' => text_contains needle t' end.

(** [window_policy] *)
Definition window_policy (spec : list text) : result text WindowPolicy :=
  match spec with
  | [] => Err (lit "--window takes auto, never, or a terminal command")
  | [one] =>
      if bool_decide (one = lit "auto") then Ok WpAuto
      else if bool_decide (one = lit "never") then Ok WpNever
      else Ok (WpCommand spec)
  | _ => Ok (WpCommand spec)
  end.
(** [decorate_label], of the working directory's last component. *)
Definition decorate_label (directory : text) (pid : N) (base : text) : text :=
  if is_empty directory then base ++ lit " (" ++ num pid ++ lit ")"
  else base ++ lit ": " ++ directory ++ lit " (" ++ num pid ++ lit ")".
Definition terminal_size (measured : option (N * N)) : N * N :=
  match measured with
  | Some (cols, rows) => if (0 <? cols) && (0 <? rows) then (cols, rows) else (80, 24)
  | None => (80, 24)
  end.
Definition env_or (env : string → option text) (names : list string) (d : text) : text :=
  default d (head (omap env names)).

Record RemoteOpenSettings := mkRemoteOpenSettings {
  rs_shell : option (list text);
  rs_cwd : option text;
  rs_max : option N;
  rs_window : option (list text);
}.

(** What [daemon_command] goes on to do. *)
Inductive DaemonAction :=
| DaStatus
| DaStop
| DaDetach
| DaServe (relay_url device_id : text) (identity_key : option (list byte)) (device_key : list byte) (remote : RemoteOpenConfig).

Definition not_enrolled : text := lit "this machine is not enrolled; run `hypeterm-publish enroll --relay <url>`".
Definition no_identity : text := lit "this machine has no identity yet; run `hypeterm-publish enroll` first".
Definition no_relay : text := lit "no relay is configured; run `hypeterm-publish enroll` first".

Section commands.
Context {W : Type} (exchange : HttpRequest → W → result text (N * text) * W).
Context `{CryptoLib, JsonText} (to_string_pretty : json → text) (malformed debug : text → text).

Record Machine := mkMachine {
  mc_files : Files;
  mc_net : W;
  mc_seeds : list (list byte);
}.
Definition CmdM (A : Type) : Type := Machine → result text A * Machine.
#[export] Instance CmdM_ret : MRet CmdM := λ A a s, (Ok a, s).
#[export] Instance CmdM_bind : MBind CmdM := λ A B k m s,
  match m s with (Ok a, s) => k a s | (Err e, s) => (Err e, s) end.
Definition say {A} (message : text) : CmdM A := λ s, (Err message, s).
Definition cmd_some {A} (o : option A) (message : text) : CmdM A := match o with Some a => mret a | None => say message end.
Definition cmd_lift {A} (r : result text A) : CmdM A := λ s, (r, s).
Definition on_files {A} (m : FilesM StateError A) : CmdM A := λ s,
  let '(r, files) := m (mc_files s) in
  (match r with Ok a => Ok a | Err e => Err (state_error_text e) end, mkMachine files (mc_net s) (mc_seeds s)).
(** A request, and what its error is prefixed with. *)
Definition on_net {A} (m : W → result ClientError A * W) : CmdM (result ClientError A) := λ s,
  let '(r, net) := m (mc_net s) in (Ok r, mkMachine (mc_files s) net (mc_seeds s)).
Definition ask_relay {A} (doing : string) (m : W → result ClientError A * W) : CmdM A :=
  r ← on_net m;
  match (r : result ClientError A) with Ok a => mret a | Err e => say (lit doing ++ lit ": " ++ client_error_text e) end.
(** [KeyPair::generate] *)
Definition generate : CmdM (list byte) := λ s,
  (Ok (default (repeat x00 32) (head (mc_seeds s))), mkMachine (mc_files s) (mc_net s) (tail (mc_seeds s))).
Definition load_file (path : text) : CmdM State := on_files (load_state malformed path).
Definition save_file (path : text) (stored : State) : CmdM () := on_files (save_state to_string_pretty path stored).

(** The key pair the file holds, or a new one. *)
Definition own_identity (stored : State) : CmdM (list byte * State) :=
  match identity_key stored with
  | Some key => mret (key, stored)
  | None => key ← generate; mret (key, set_identity_key key stored)
  end.
Definition own_device (stored : State) : CmdM (list byte * State) :=
  match device_key stored with
  | Some key => mret (key, stored)
  | None => key ← generate; mret (key, set_device_key key stored)
  end.
Definition with_identity_id (id : text) (s : State) : State :=
  mkState (st_relay_url s) (st_identity_seed s) id (st_device_seed s) (st_device_id s) (st_device_name s) (st_remote_open s).
Definition with_enrolment (relay_url device_id device_name : text) (s : State) : State :=
  mkState relay_url (st_identity_seed s) (st_identity_id s) (st_device_seed s) device_id device_name (st_remote_open s).
Definition with_remote_open (r : RemoteOpenConfig) (s : State) : State :=
  mkState (st_relay_url s) (st_identity_seed s) (st_identity_id s) (st_device_seed s) (st_device_id s) (st_device_name s) r.

(** [enroll]: the state it saved. *)
Definition enroll (env : string → option text) (path relay : text) (name : option text) : CmdM State :=
  stored ← load_file path;
  let base := client_base_url relay in
  own ← own_identity stored;
  let '(identity, stored) := (own : list byte * State) in
  registered ← ask_relay "registering the identity" (client_register_identity exchange malformed debug base identity);
  let stored := with_identity_id registered stored in
  own ← own_device stored;
  let '(device, stored) := (own : list byte * State) in
  token ← ask_relay "authenticating as the identity" (client_identity_token exchange malformed debug base identity);
  let device_name := default (env_or env ["HOSTNAME"; "COMPUTERNAME"]%string (lit "this machine")) name in
  item ← ask_relay "registering this machine as a publisher"
           (client_register_device exchange malformed debug base (to_access_token token) registered (public_key_base64 device)
              (Some device) device_name "publisher");
  let stored := with_enrolment base (di_device_id item) device_name stored in
  _ ← save_file path stored;
  mret stored.

Definition pairing_needs_the_device : text :=
  lit "pairing a device that holds its own key needs a signature from that key." ++ [10]
  ++ lit "The relay requires the device to sign its own registration challenge, so the phone has to complete this step itself."
  ++ [10] ++ lit "See `hypeterm-publish pair --help`.".
(** The identity's key and a token for it. *)
Definition identity_session (stored : State) : CmdM Token :=
  identity ← cmd_some (identity_key stored) no_identity;
  _ ← (if is_empty (st_relay_url stored) then say no_relay else mret ());
  ask_relay "authenticating as the identity"
    (client_identity_token exchange malformed debug (client_base_url (st_relay_url stored)) identity).
Definition pair_command (path public_key name : text) : CmdM DeviceItem :=
  stored ← load_file path;
  token ← identity_session stored;
  device ← on_net (client_register_device exchange malformed debug (client_base_url (st_relay_url stored)) (to_access_token token)
                     (st_identity_id stored) public_key None name "client");
  match (device : result ClientError DeviceItem) with
  | Ok device => mret device
  | Err (CeMalformed message as e) =>
      if text_contains (lit "private key") message then say pairing_needs_the_device
      else say (lit "registering the device: " ++ client_error_text e)
  | Err e => say (lit "registering the device: " ++ client_error_text e)
  end.
Definition pair_code (path : text) (url : option text) : CmdM text :=
  stored ← load_file path;
  token ← identity_session stored;
  mret (pairing_encode (mkPairingCode (default (st_relay_url stored) url) (st_identity_id stored) (to_access_token token))).
Definition list_terminals_command (path : text) : CmdM (list TerminalItem) :=
  stored ← load_file path;
  identity ← cmd_some (identity_key stored) no_identity;
  let base := client_base_url (st_relay_url stored) in
  token ← ask_relay "authenticating as the identity" (client_identity_token exchange malformed debug base identity);
  ask_relay "listing terminals" (client_terminals exchange malformed base (to_access_token token) None).

(** [remote_open]: the policy in force afterwards. *)
Definition captured_shell (env : string → option text) (shell : option (list text)) : CmdM (list text) :=
  match shell with
  | Some ((_ :: _) as argv) => mret argv
  | _ => sh ← cmd_some (env "SHELL"%string) (lit "no $SHELL to capture; pass --shell <program> [args...]"); mret [sh]
  end.
Definition remote_open (env : string → option text) (path : text) (enable disable : bool) (settings : RemoteOpenSettings)
    : CmdM RemoteOpenConfig :=
  stored ← load_file path;
  let policy := st_remote_open stored in
  if disable then
    let policy := mkRemoteOpenConfig false (ro_shell policy) (ro_cwd policy) (ro_max_terminals policy) (ro_window policy) in
    _ ← save_file path (with_remote_open policy stored);
    mret policy
  else if enable then
    argv ← captured_shell env (rs_shell settings);
    let directory := default (default [] (env "HOME"%string)) (rs_cwd settings) in
    window ← (match rs_window settings with Some spec => cmd_lift (window_policy spec) | None => mret (ro_window policy) end);
    let max := match rs_max settings with Some max => N.max max 1 | None => ro_max_terminals policy end in
    let policy := mkRemoteOpenConfig true argv directory max window in
    _ ← save_file path (with_remote_open policy stored);
    mret policy
  else mret policy.

(** [daemon_command], up to the call it makes. *)
Definition daemon_command (path : text) (detach stop status : bool) : CmdM DaemonAction :=
  stored ← load_file path;
  _ ← (if is_empty (st_relay_url stored) || is_empty (st_device_id stored) then say not_enrolled else mret ());
  if status then mret DaStatus
  else if stop then mret DaStop
  else if detach then mret DaDetach
  else
    device_key ← cmd_some (device_key stored) not_enrolled;
    mret (DaServe (st_relay_url stored) (st_device_id stored) (identity_key stored) device_key (st_remote_open stored)).

(** [join(" ")] *)
Definition joined_words (words : list text) : text :=
  match words with [] => [] | w :: words => w ++ mjoin ((λ q, lit " " ++ q) <$> words) end.
(** [run], up to the hosting: the terminal to open. *)
Definition run_label (env : string → option text) (directory : text) (pid : N) (label : option text) (command : list text) : text :=
  match label with
  | Some given => decorate_label directory pid given
  | None =>
      let host := env_or env ["HOSTNAME"; "COMPUTERNAME"]%string (lit "terminal") in
      decorate_label directory pid
        (if is_empty command then host else host ++ lit ": " ++ joined_words command)
  end.
Definition run_size (measured : option (N * N)) (requested_cols requested_rows : option N) : N * N :=
  match requested_cols, requested_rows with
  | Some cols, Some rows => (cols, rows)
  | _, _ => terminal_size measured
  end.
Definition run_setup (env : string → option text) (path directory : text) (pid : N) (local_ref : text) (measured : option (N * N))
    (label : option text) (command : list text) (in_reply_to : option text) (requested_cols requested_rows : option N)
    : CmdM TerminalSpec :=
  stored ← load_file path;
  _ ← cmd_some (device_key stored) not_enrolled;
  _ ← (if is_empty (st_relay_url stored) || is_empty (st_device_id stored) then say not_enrolled else mret ());
  let '(cols, rows) := run_size measured requested_cols requested_rows in
  mret (mkTerminalSpec local_ref (run_label env directory pid label command) cols rows (lit "xterm-256color") in_reply_to).
(** [default_shell], on Unix. *)
Definition hosted_argv (env : string → option text) (command : list text) : list text :=
  match command with [] => [default (lit "/bin/sh") (env "SHELL"%string); lit "-l"] | argv => argv end.
End commands.
