(* ===== verification/PublisherMainProps.v ===== *)
(** * Theorems about the publisher's commands

    A machine keeps the identity its state file holds, wherever the check that
    the file exists does not fail; a failed command leaves the state file as it
    was; what enrolling saves is enough to publish; and registering another
    device from here cannot succeed. *)

From S2P Require Export PublisherMain PublisherStateProps.

Open Scope N_scope.
Open Scope hype_scope.

(** The keys that were there are still there. *)
Definition keeps_keys `{CryptoLib} (stored saved : State) : Prop :=
  (identity_key stored ≠ None → st_identity_seed saved = st_identity_seed stored)
  ∧ (device_key stored ≠ None → st_device_seed saved = st_device_seed stored).

Section commands.
Context {W : Type} (exchange : HttpRequest → W → result text (N * text) * W).
Context `{CryptoLib, JsonText} (to_string_pretty : json → text) (malformed debug : text → text).
#[local] Abbreviation Machine := (Machine (W := W)).
#[local] Abbreviation load := (load_state malformed).

(** How a command ends. *)
Definition ends {A} (m : CmdM (W := W) A) (s : Machine) (Q : result text A → Machine → Prop) : Prop := Q (m s).1 (m s).2.
Lemma ends_bind {A B} (m : CmdM A) (k : A → CmdM B) s Q :
  ends m s (λ r s', match r with Ok a => ends (k a) s' Q | Err e => Q (Err e) s' end) → ends (m ≫= k) s Q.
Proof. unfold ends, mbind, CmdM_bind. by destruct (m s) as [[a|e] s']. Qed.
Lemma ends_ret {A} (a : A) s Q : Q (Ok a) s → ends (mret a) s Q.
Proof. done. Qed.
Lemma ends_mono {A} (m : CmdM A) s (Q Q' : result text A → Machine → Prop) :
  ends m s Q → (∀ r s', Q r s' → Q' r s') → ends m s Q'.
Proof. intros Hm HQ. by apply HQ. Qed.

(** Asking the relay changes no file and draws no key. *)
Definition same_disk (s s' : Machine) : Prop := mc_files s' = mc_files s ∧ mc_seeds s' = mc_seeds s.
Lemma ends_on_net {A} (m : W → result ClientError A * W) s Q :
  (∀ r s', same_disk s s' → Q (Ok r) s') → ends (on_net m) s Q.
Proof. intros HQ. unfold ends, on_net. destruct (m (mc_net s)) as [r net]. by apply HQ. Qed.
Lemma ends_ask {A} doing (m : W → result ClientError A * W) s Q :
  (∀ r s', same_disk s s' → Q r s') → ends (ask_relay doing m) s Q.
Proof.
  intros HQ. unfold ask_relay. apply ends_bind, ends_on_net. 
  intros [a|e] s1 Hs.
  - exact (HQ (Ok a) s1 Hs).
  - exact (HQ (Err _) s1 Hs).
Qed.
Lemma ends_some {A} (o : option A) message s (Q : result text A → Machine → Prop) :
  Q (match o with Some a => Ok a | None => Err message end) s → ends (cmd_some o message) s Q.
Proof. by destruct o. Qed.
Lemma ends_when (b : bool) message s (Q : result text () → Machine → Prop) :
  Q (if b then Err message else Ok ()) s → ends (if b then say message else mret ()) s Q.
Proof. by destruct b. Qed.

(** A load touches no file. *)
Lemma load_keeps path files : fs_entries (load path files).2 = fs_entries files.
Proof.
  rewrite load_run. destruct (mjoin (head (fs_faults files))) as [fault|]; [done|].
  destruct (fs_entries files !! path) as [f|] eqn:Ef; [|done].
  unfold check_permissions, system_call, mbind, FilesM_bind, mret, FilesM_ret, next_fault, entry_at, stop.
  cbn [fs_faults fs_entries]. destruct (mjoin (head (tail (fs_faults files)))) as [[]|]; [done|]. cbn [fs_faults fs_entries].
  destruct (negb _); [done|]. cbn [fs_faults fs_entries]. destruct (mjoin _) as [[]|]; [done|].
  destruct (from_utf8 _) as [t|]; [|done]. by destruct (option_bind _ _ _ _).
Qed.
Lemma ends_load path s Q :
  (∀ e s', fs_entries (mc_files s') = fs_entries (mc_files s) → Q (Err e) s') →
  (∀ stored s', (load path (mc_files s)).1 = Ok stored → fs_entries (mc_files s') = fs_entries (mc_files s) →
     mc_seeds s' = mc_seeds s → Q (Ok stored) s') →
  ends (load_file malformed path) s Q.
Proof.
  intros Herr Hok. unfold ends, load_file, on_files. pose proof (load_keeps path (mc_files s)) as Hk.
  destruct (load path (mc_files s)) as [[stored|e] files]; cbn in *; [by apply Hok|by apply Herr].
Qed.
Lemma ends_save path stored s Q :
  with_extension_tmp path ≠ path →
  (∀ r s', (∀ other, other ≠ path → other ≠ with_extension_tmp path →
              fs_entries (mc_files s') !! other = fs_entries (mc_files s) !! other) →
     match r with
     | Ok _ => fs_entries (mc_files s') !! path = Some (saved_entry to_string_pretty path stored (fs_entries (mc_files s)))
     | Err _ => fs_entries (mc_files s') !! path = fs_entries (mc_files s) !! path
     end → Q r s') →
  ends (save_file to_string_pretty path stored) s Q.
Proof.
  intros Ht HQ. unfold ends, save_file, on_files. pose proof (save_leaves to_string_pretty path stored (mc_files s) Ht) as Hs.
  destruct (save_state to_string_pretty path stored (mc_files s)) as [[[]|e] files]; destruct Hs as [Ho Hp]; by apply HQ.
Qed.

(** Drawing a key pair when there is none. *)
Definition good_seeds (s : Machine) : Prop := Forall (λ seed, len seed = 32) (mc_seeds s).
Lemma generate_good s : good_seeds s → len (default (repeat x00 32) (head (mc_seeds s))) = 32 ∧ Forall (λ seed, len seed = 32) (tail (mc_seeds s)).
Proof. unfold good_seeds. intros Hg. by destruct Hg as [|seed seeds]. Qed.
Lemma key_reads_back `{!CryptoLaws} seed : len seed = 32 → b64_decode (b64_encode seed) ≫= pair_from_seed = Some seed.
Proof. intros Hs. rewrite b64_decode_encode. cbn. unfold pair_from_seed. by rewrite Hs. Qed.
Lemma ends_identity `{!CryptoLaws} stored s Q :
  (∀ key stored' s', mc_files s' = mc_files s → (good_seeds s → good_seeds s' ∧ identity_key stored' = Some key) →
     (identity_key stored ≠ None → st_identity_seed stored' = st_identity_seed stored) →
     st_device_seed stored' = st_device_seed stored → st_remote_open stored' = st_remote_open stored → Q (Ok (key, stored')) s') →
  ends (own_identity stored) s Q.
Proof.
  intros HQ. unfold own_identity. destruct (identity_key stored) as [key|] eqn:E; unfold ends; apply HQ; try done.
  intros Hg%generate_good. destruct Hg as [Hk Ht]. split; [done|]. by apply key_reads_back.
Qed.
Lemma ends_device `{!CryptoLaws} stored s Q :
  (∀ key stored' s', mc_files s' = mc_files s → (good_seeds s → good_seeds s' ∧ device_key stored' = Some key) →
     (device_key stored ≠ None → st_device_seed stored' = st_device_seed stored) →
     st_identity_seed stored' = st_identity_seed stored → st_remote_open stored' = st_remote_open stored → Q (Ok (key, stored')) s') →
  ends (own_device stored) s Q.
Proof.
  intros HQ. unfold own_device. destruct (device_key stored) as [key|] eqn:E; unfold ends; apply HQ; try done.
  intros Hg%generate_good. destruct Hg as [Hk Ht]. split; [done|]. by apply key_reads_back.
Qed.

(** What enrolling leaves: the keys it had, keys that can be read back, the
    policy, the relay. *)
Definition enrolled (stored saved : State) (relay : text) (good : Prop) : Prop :=
  keeps_keys stored saved ∧ st_remote_open saved = st_remote_open stored ∧ st_relay_url saved = client_base_url relay
  ∧ (good → identity_key saved ≠ None ∧ device_key saved ≠ None).
Lemma enroll_leaves `{!CryptoLaws} env path relay name m :
  with_extension_tmp path ≠ path →
  let '(r, m') := enroll exchange to_string_pretty malformed debug env path relay name m in
  (∀ other, other ≠ path → other ≠ with_extension_tmp path →
     fs_entries (mc_files m') !! other = fs_entries (mc_files m) !! other)
  ∧ match r with
    | Err _ => fs_entries (mc_files m') !! path = fs_entries (mc_files m) !! path
    | Ok saved =>
        fs_entries (mc_files m') !! path = Some (saved_entry to_string_pretty path saved (fs_entries (mc_files m)))
        ∧ ∃ stored, (load path (mc_files m)).1 = Ok stored ∧ enrolled stored saved relay (good_seeds m)
    end.
Proof.
  intros Ht.
  enough (ends (enroll exchange to_string_pretty malformed debug env path relay name) m (λ r m',
    (∀ other, other ≠ path → other ≠ with_extension_tmp path →
       fs_entries (mc_files m') !! other = fs_entries (mc_files m) !! other)
    ∧ match r with
      | Err _ => fs_entries (mc_files m') !! path = fs_entries (mc_files m) !! path
      | Ok saved =>
          fs_entries (mc_files m') !! path = Some (saved_entry to_string_pretty path saved (fs_entries (mc_files m)))
          ∧ ∃ stored, (load path (mc_files m)).1 = Ok stored ∧ enrolled stored saved relay (good_seeds m)
      end)) as He.
  { unfold ends in He. by destruct (enroll _ _ _ _ _ _ _ _ _) as [r m']. }
  unfold enroll. apply ends_bind, ends_load; [intros e s -> |intros stored s1 Hload E1 Eg1]; [done|]. cbv zeta.
  apply ends_bind, ends_identity. intros identity stored1 s2 E2 Hg2 Hid Hdev1 Hro1. cbn [fst snd].
  apply ends_bind, ends_ask. intros [registered|e] s3 [E3 Eg3]; [|by rewrite E3, E2, E1].
  apply ends_bind, ends_device. intros device stored2 s4 E4 Hg4 Hdev Hid2 Hro2.
  apply ends_bind, ends_ask. intros [token|e] s5 [E5 _]; [|by rewrite E5, E4, E3, E2, E1].
  apply ends_bind, ends_ask. intros [item|e] s6 [E6 _]; [|by rewrite E6, E5, E4, E3, E2, E1].
  assert (fs_entries (mc_files s6) = fs_entries (mc_files m)) as E by (by rewrite E6, E5, E4, E3, E2, E1).
  apply ends_bind, (ends_save _ _ _ _ Ht). intros [[]|e] s7 Ho Hp; rewrite E in Ho, Hp; [|done].
  apply ends_ret. split; [done|]. split; [done|]. exists stored. split; [done|].
  split; [split|split; [cbn in *; congruence|split; [done|]]]; cbn.
  - intros Hk. rewrite Hid2. by apply Hid.
  - intros Hk. rewrite <- Hdev1. apply Hdev. intros Hn. apply Hk. revert Hn. unfold device_key. cbn. by rewrite Hdev1.
  - unfold good_seeds in *. rewrite Eg1 in Hg2. rewrite Eg3 in Hg4. intros Hg.
    destruct (Hg2 Hg) as [Hg3 Hi]. destruct (Hg4 Hg3) as [_ Hd]. unfold identity_key, device_key in *. cbn. rewrite Hid2.
    cbn. by rewrite Hi, Hd.
Qed.

(** C33: enrolling a machine is all or nothing, and replaces no keys it can see.
    Whatever fails (the state file, the relay, the disk), a failed command leaves
    the state file what it was. When the command succeeds, the file holds the new
    state, written whole; and if there was a state file and the check that it
    exists did not fail, the new state has the identity and device keys that file
    holds, and the consent to remote opening it holds, unchanged. Without a file
    it is a new machine. The state file's name must not end in .tmp, which is
    the name the save writes to first. (When the existence check of a present
    file fails, the command takes the machine for a new one and replaces its
    keys: [failing_check_forgets_machine].) *)
Theorem enroll_keeps_identity `{!CryptoLaws} env path relay name m :
  with_extension_tmp path ≠ path →
  let '(r, m') := enroll exchange to_string_pretty malformed debug env path relay name m in
  match r with
  | Err _ => fs_entries (mc_files m') !! path = fs_entries (mc_files m) !! path
  | Ok saved =>
      fs_entries (mc_files m') !! path = Some (saved_entry to_string_pretty path saved (fs_entries (mc_files m)))
      ∧ st_relay_url saved = client_base_url relay
      ∧ (good_seeds m → identity_key saved ≠ None ∧ device_key saved ≠ None)
      ∧ match fs_entries (mc_files m) !! path with
        | Some f =>
            mjoin (head (fs_faults (mc_files m))) = None →
            ∃ stored, holds f stored ∧ keeps_keys stored saved ∧ st_remote_open saved = st_remote_open stored
        | None => st_remote_open saved = remote_open_default
        end
  end.
Proof.
  intros Ht. pose proof (enroll_leaves env path relay name m Ht) as Hl.
  destruct (enroll _ _ _ _ _ _ _ _ _) as [[saved|e] m']; destruct Hl as [_ Hl]; [|done].
  destruct Hl as [Hp (stored & Hload & Hk & Hro & Hurl & Hgood)]. split_and!; [done..|].
  destruct (fs_entries (mc_files m) !! path) as [f|] eqn:Ef.
  - intros Hc. exists stored. split; [by eapply load_reads|done].
  - rewrite load_misses in Hload by auto. by injection Hload as <-.
Qed.

(** One failing [stat] is enough to lose a machine's keys: the load reads it as
    no file, and an enrolment that answers has drawn a new identity key,
    dropped the owner's consent, and written both over the old file. (An empty
    text is no key.) *)
Theorem failing_check_forgets_machine `{!CryptoLaws} env path relay name m saved m' :
  with_extension_tmp path ≠ path → b64_decode [] ≫= pair_from_seed = None →
  is_Some (mjoin (head (fs_faults (mc_files m)))) →
  enroll exchange to_string_pretty malformed debug env path relay name m = (Ok saved, m') →
  st_identity_seed saved = b64_encode (default (repeat x00 32) (head (mc_seeds m)))
  ∧ st_remote_open saved = remote_open_default
  ∧ fs_entries (mc_files m') !! path = Some (saved_entry to_string_pretty path saved (fs_entries (mc_files m))).
Proof.
  intros Ht Hempty Hfault E. pose proof (enroll_leaves env path relay name m Ht) as Hl. rewrite E in Hl.
  destruct Hl as [_ [Hp (stored & Hload & _ & Hro & _)]]. pose proof (load_misses malformed path (mc_files m) (or_introl Hfault)) as Hmiss.
  rewrite Hmiss in Hload. injection Hload as <-. split_and!; [|done..]. clear Hp Hro.
  enough (ends (enroll exchange to_string_pretty malformed debug env path relay name) m (λ r _,
    match r with Ok saved => st_identity_seed saved = b64_encode (default (repeat x00 32) (head (mc_seeds m))) | Err _ => True end)) as He.
  { unfold ends in He. by rewrite E in He. }
  unfold enroll. apply ends_bind, ends_load; [done|]. intros stored s1 Hload _ Es. rewrite Hmiss in Hload. injection Hload as <-.
  cbv zeta. apply ends_bind. unfold own_identity, identity_key, state_default. cbn [st_identity_seed]. rewrite Hempty.
  apply ends_bind. unfold ends at 1. cbn [fst snd generate]. apply ends_ret. cbn [fst snd].
  apply ends_bind, ends_ask. intros [registered|e] s3 _; [|done].
  apply ends_bind, ends_device. intros device stored2 s4 _ _ _ Hid _. 
  apply ends_bind, ends_ask. intros [token|e] s5 _; [|done].
  apply ends_bind, ends_ask. intros [item|e] s6 _; [|done].
  apply ends_bind. unfold ends at 1. destruct (save_file _ _ _ s6) as [[[]|e] s7]; [|done].
  apply ends_ret. cbn. rewrite Hid. cbn. by rewrite Es.
Qed.

(** A machine that enrolled can publish. When [enroll] answered, on a
    machine with no old temporary file, and the relay gave the device an id,
    the daemon started later finds in the state file everything it needs: it
    serves the relay enrolled with, as the device registered, with the
    identity's and the device's keys and the owner's consent. *)
Theorem enrolled_machine_publishes `{!CryptoLaws, !PrettyLaws to_string_pretty} env path relay name m saved m' :
  with_extension_tmp path ≠ path → fs_entries (mc_files m) !! with_extension_tmp path = None → good_seeds m →
  enroll exchange to_string_pretty malformed debug env path relay name m = (Ok saved, m') →
  client_base_url relay ≠ [] → st_device_id saved ≠ [] → ro_max_terminals (st_remote_open saved) < two32 →
  fs_faults (mc_files m') = [] →
  ∃ identity device,
    (daemon_command malformed path false false false m').1
    = Ok (DaServe (client_base_url relay) (st_device_id saved) (Some identity) device (st_remote_open saved)).
Proof.
  intros Ht Htmp Hg E Hurl Hid Hmax Hf. pose proof (enroll_leaves env path relay name m Ht) as Hl. rewrite E in Hl.
  destruct Hl as [_ [Hp (stored & _ & _ & _ & Hrelay & Hkeys)]]. destruct (Hkeys Hg) as [Hi Hd].
  destruct (identity_key saved) as [identity|] eqn:Ei; [|done]. destruct (device_key saved) as [device|] eqn:Ed; [|done].
  exists identity, device. destruct m' as [files net seeds]. cbn in Hp, Hf.
  assert ((load path files).1 = Ok saved) as Hload.
  { by rewrite (entry_loads to_string_pretty malformed path saved files (fs_entries (mc_files m)) Hmax Hp Hf), Htmp. }
  unfold daemon_command, load_file, on_files, mbind, CmdM_bind. cbn. destruct (load path files) as [r files'].
  cbn in Hload. subst r. rewrite Hrelay. unfold is_empty.
  destruct (client_base_url relay) eqn:Eu; [done|]. destruct (st_device_id saved) eqn:Es; [done|]. cbn.
  by rewrite Ed, Ei.
Qed.


(** The switch is the owner's. [remote_open] turns the policy on only when
    asked to, records a shell with it, and turns it off when asked to; asked
    for nothing it answers the policy and saves nothing; and an error (no
    shell to capture, a bad window policy, the disk) changes nothing on disk. *)
Theorem remote_open_is_the_owners env path enable disable settings (m : Machine) :
  with_extension_tmp path ≠ path →
  let '(r, m') := remote_open to_string_pretty malformed env path enable disable settings m in
  match r with
  | Err _ => fs_entries (mc_files m') !! path = fs_entries (mc_files m) !! path
  | Ok policy =>
      ∃ stored, (load path (mc_files m)).1 = Ok stored
      ∧ ro_enabled policy = (if disable then false else enable || ro_enabled (st_remote_open stored))
      ∧ (enable = true → disable = false → ro_shell policy ≠ [])
      ∧ if enable || disable
        then fs_entries (mc_files m') !! path
             = Some (saved_entry to_string_pretty path (with_remote_open policy stored) (fs_entries (mc_files m)))
        else fs_entries (mc_files m') = fs_entries (mc_files m) ∧ policy = st_remote_open stored
  end.
Proof.
  intros Ht.
  set (Q := λ (r : result text RemoteOpenConfig) (m' : Machine), match r with
    | Err _ => fs_entries (mc_files m') !! path = fs_entries (mc_files m) !! path
    | Ok policy =>
        ∃ stored, (load path (mc_files m)).1 = Ok stored
        ∧ ro_enabled policy = (if disable then false else enable || ro_enabled (st_remote_open stored))
        ∧ (enable = true → disable = false → ro_shell policy ≠ [])
        ∧ if enable || disable
          then fs_entries (mc_files m') !! path
               = Some (saved_entry to_string_pretty path (with_remote_open policy stored) (fs_entries (mc_files m)))
          else fs_entries (mc_files m') = fs_entries (mc_files m) ∧ policy = st_remote_open stored
    end).
  enough (ends (remote_open to_string_pretty malformed env path enable disable settings) m Q) as He.
  { unfold ends in He. by destruct (remote_open _ _ _ _ _ _ _ _) as [r m']. }
  unfold remote_open. apply ends_bind, ends_load; [intros e s E; unfold Q; by rewrite E|intros stored s1 Hload E1 _].
  assert (∀ policy, ro_enabled policy = (if disable then false else enable || ro_enabled (st_remote_open stored)) →
    (enable = true → disable = false → ro_shell policy ≠ []) → enable || disable = true →
    ends (_ ← save_file to_string_pretty path (with_remote_open policy stored); mret policy) s1 Q) as Hsave.
  { intros policy Hen Hsh Hb. apply ends_bind, (ends_save _ _ _ _ Ht). intros [[]|e] s2 _ Hp; rewrite E1 in Hp; [|exact Hp].
    exists stored. by rewrite Hb. }
  destruct disable; [apply Hsave; [done|done|by rewrite orb_true_r]|].
  destruct enable; [|by exists stored].
  apply ends_bind. unfold captured_shell.
  assert (∀ argv, argv ≠ [] → ends (window ← match rs_window settings with
      | Some spec => cmd_lift (window_policy spec) | None => mret (ro_window (st_remote_open stored)) end;
      let policy := mkRemoteOpenConfig true argv (default (default [] (env "HOME"%string)) (rs_cwd settings))
        (match rs_max settings with Some max => N.max max 1 | None => ro_max_terminals (st_remote_open stored) end) window in
      _ ← save_file to_string_pretty path (with_remote_open policy stored); mret policy) s1 Q) as Hrest.
  { intros argv Ha. apply ends_bind. destruct (rs_window settings) as [spec|]; [|by apply Hsave].
    unfold ends, cmd_lift. cbn. destruct (window_policy spec); [by apply Hsave|]. unfold Q. by rewrite E1. }
  assert (ends (sh ← cmd_some (env "SHELL"%string) (lit "no $SHELL to capture; pass --shell <program> [args...]"); mret [sh])
    s1 (λ r s', match r with Ok argv => argv ≠ [] ∧ s' = s1 | Err e => Q (Err e) s' end)) as Hsh.
  { apply ends_bind, ends_some. destruct (env "SHELL"%string); [done|]. unfold Q. by rewrite E1. }
  destruct (rs_shell settings) as [[|word words]|]; [|apply ends_ret, Hrest; done|];
    (eapply ends_mono; [exact Hsh|]); (intros [argv|e] s' Hr; [destruct Hr as [Ha ->]; by apply Hrest|done]).
Qed.
End commands.

(** ** Pairing *)

Section pairing.
Context {W : Type} (exchange : HttpRequest → W → result text (N * text) * W).
Context `{CryptoLib, JsonText} (malformed debug : text → text).

(** A network that remembers what it was asked. *)
Definition recorded (q : HttpRequest) (s : W * list HttpRequest) : result text (N * text) * (W * list HttpRequest) :=
  let '(r, w) := exchange q s.1 in (r, (w, s.2 ++ [q])).

(** What a client asks when it only authenticates. *)
Definition authenticating (base : text) (q : HttpRequest) : Prop :=
  hq_url q = base ++ lit "/v1/auth/challenges" ∨ hq_url q = base ++ lit "/v1/auth/tokens".
Definition asks_only {A} (P : HttpRequest → Prop) (m : ClientM (W := W * list HttpRequest) A) : Prop :=
  ∀ s, ∃ asked, (m s).2.2 = s.2 ++ asked ∧ Forall P asked.
Lemma asks_bind {A B} P (m : ClientM A) (k : A → ClientM B) :
  asks_only P m → (∀ a, asks_only P (k a)) → asks_only P (m ≫= k).
Proof.
  intros Hm Hk s. unfold mbind, ClientM_bind. destruct (Hm s) as (asked & E & Ha). destruct (m s) as [[a|e] s']; cbn in *; [|by exists asked].
  destruct (Hk a s') as (more & E' & Hb). exists (asked ++ more). rewrite E', E, app_assoc. split; [done|]. by apply Forall_app.
Qed.
Lemma asks_lift {A} P (r : result ClientError A) : asks_only P (client_lift r).
Proof. intros s. exists []. by rewrite app_nil_r. Qed.
Lemma asks_send (P : HttpRequest → Prop) q : P q → asks_only P (send_request recorded q).
Proof.
  intros Hq s. exists [q]. unfold send_request, recorded. destruct (exchange q s.1) as [[r|e] w]; cbn; auto.
Qed.
Lemma asks_post {A} P (from_json : json → option A) base path body bearer :
  P (mkHttpRequest "POST" (base ++ path) (Some body) bearer) → asks_only P (client_post recorded malformed from_json base path body bearer).
Proof. intros Hp. apply asks_bind; [by apply asks_send|]. intros [status answer]. apply asks_lift. Qed.
Lemma asks_token base seed : asks_only (authenticating base) (client_identity_token recorded malformed debug base seed).
Proof.
  apply asks_bind; [apply asks_post; by left|]. intros challenge. apply asks_bind; [apply asks_lift|]. intros signature.
  apply asks_post. by right.
Qed.
(** Without the device's key there is a challenge, and then an error. *)
Lemma unsigned_device base token owner key name role s :
  ∃ e, (client_register_device recorded malformed debug base token owner key None name role s).1 = Err e.
Proof.
  unfold client_register_device, mbind, ClientM_bind. destruct (client_challenge _ _ _ _ _ _ s) as [[challenge|e] s']; eauto.
Qed.
Lemma asks_unsigned_device base token owner key name role :
  asks_only (authenticating base) (client_register_device recorded malformed debug base token owner key None name role).
Proof.
  intros s. destruct (asks_post (authenticating base) challenge_from_json base (lit "/v1/auth/challenges")
    (challenge_body "register_device" key (Some owner)) None (or_introl eq_refl) s) as (asked & E & Ha).
  exists asked. split; [|done]. rewrite <- E. unfold client_register_device, client_challenge, mbind, ClientM_bind.
  by destruct (client_post _ _ _ _ _ _ _ s) as [[challenge|e] s'].
Qed.

(** One machine after another: the same files, and more authenticating. *)
Definition only_asked (base : text) (s s' : Machine (W := W * list HttpRequest)) : Prop :=
  mc_files s' = mc_files s ∧ ∃ asked, (mc_net s').2 = (mc_net s).2 ++ asked ∧ Forall (authenticating base) asked.
Lemma only_asked_refl base s : only_asked base s s.
Proof. split; [done|]. exists []. by rewrite app_nil_r. Qed.
Lemma only_asked_trans base s1 s2 s3 : only_asked base s1 s2 → only_asked base s2 s3 → only_asked base s1 s3.
Proof.
  intros [F1 (a1 & E1 & A1)] [F2 (a2 & E2 & A2)]. split; [congruence|]. exists (a1 ++ a2). rewrite E2, E1, app_assoc.
  split; [done|]. by apply Forall_app.
Qed.
Lemma on_net_asks {A} base (m : ClientM A) s : asks_only (authenticating base) m → only_asked base s (on_net m s).2.
Proof. intros Ha. unfold on_net. pose proof (Ha (mc_net s)) as Hn. destruct (m (mc_net s)) as [r net]. by split. Qed.
Lemma session_asks stored s :
  only_asked (client_base_url (st_relay_url stored)) s (identity_session recorded malformed debug stored s).2.
Proof.
  unfold identity_session, mbind, CmdM_bind. destruct (identity_key stored) as [identity|]; [|apply only_asked_refl]. cbn.
  destruct (is_empty (st_relay_url stored)); [apply only_asked_refl|]. cbn. unfold ask_relay, mbind, CmdM_bind.
  pose proof (on_net_asks _ _ s (asks_token (client_base_url (st_relay_url stored)) identity)) as Hn. revert Hn.
  unfold on_net. by destruct (client_identity_token _ _ _ _ _ _) as [[token|e] net].
Qed.
Lemma load_net path (s : Machine (W := W * list HttpRequest)) :
  mc_net (load_file malformed path s).2 = mc_net s
  ∧ fs_entries (mc_files (load_file malformed path s).2) = fs_entries (mc_files s).
Proof.
  unfold load_file, on_files. pose proof (load_keeps malformed path (mc_files s)) as Hk.
  by destruct (load_state malformed path (mc_files s)) as [r files].
Qed.

(** [pair] cannot pair. Whatever the key, the name, the state file and the
    relay's answers, the command ends in an error and leaves every file as it
    was; and all it has asked of the relay are challenges and a token: a device
    is never submitted, because the signature of the phone's key it would need
    is never there. *)
Theorem pair_cannot_pair path public_key name m :
  let '(r, m') := pair_command recorded malformed debug path public_key name m in
  (∃ message, r = Err message) ∧ fs_entries (mc_files m') = fs_entries (mc_files m)
  ∧ ∃ base asked, (mc_net m').2 = (mc_net m).2 ++ asked ∧ Forall (authenticating base) asked.
Proof.
  destruct (pair_command _ _ _ _ _ _ m) as [r m'] eqn:E. unfold pair_command in E.
  unfold mbind at 1, CmdM_bind at 1 in E. pose proof (load_net path m) as [En Ef].
  destruct (load_file malformed path m) as [[stored|e] s1]; cbn in En, Ef; [|inv E; rewrite En, Ef; split_and!; eauto; exists [], []; by rewrite app_nil_r].
  unfold mbind at 1, CmdM_bind at 1 in E. pose proof (session_asks stored s1) as Hs.
  destruct (identity_session _ _ _ _ s1) as [[token|e] s2]; cbn in Hs;
    [|inv E; destruct Hs as [-> (asked & E & Ha)]; rewrite <- En; split_and!; by eauto].
  unfold mbind at 1, CmdM_bind at 1 in E.
  pose proof (on_net_asks _ _ s2 (asks_unsigned_device (client_base_url (st_relay_url stored)) (to_access_token token)
                (st_identity_id stored) public_key name "client")) as Hd.
  destruct (unsigned_device (client_base_url (st_relay_url stored)) (to_access_token token) (st_identity_id stored) public_key
              name "client" (mc_net s2)) as [e He].
  pose proof (only_asked_trans _ _ _ _ Hs Hd) as [F (asked & Ea & Ha)]. unfold on_net in E, F, Ea.
  destruct (client_register_device _ _ _ _ _ _ _ _ _ _ (mc_net s2)) as [r' net]. cbn in He, F, Ea. subst r'.
  rewrite En in Ea.
  assert (∃ message, r = Err message ∧ m' = mkMachine (mc_files s2) net (mc_seeds s2)) as (message & -> & ->).
  { destruct e as [| |detail]; [| |destruct (text_contains _ detail)]; inv E; by eauto. }
  split_and!; eauto. cbn. congruence.
Qed.
End pairing.

(** ** Example: a relay that challenges, and answers everything at once *)

#[local] Existing Instances toy_lib bits_json.
Definition example_text (name : string) (q : HttpRequest) : text := default [] (body ← hq_body q; v ← jget name body; jas_str v).
Definition example_signing_input (q : HttpRequest) : SigningInput :=
  let key := default [] (body ← hq_body q; key ← jget "key" body; v ← jget "public_key" key; jas_str v) in
  let fingerprint := pair_fingerprint (default [] (b64_decode key)) in
  let operation := example_text "operation" q in
  mkSigningInput [] [] []
    (if bool_decide (operation = lit "register_identity") then RegisterIdentity
     else if bool_decide (operation = lit "register_device") then RegisterDevice else AuthenticateIdentity)
    fingerprint (example_text "owner_identity_id" q) [] 0.
Definition example_exchange (q : HttpRequest) (w : ()) : result text (N * text) * () :=
  let answer :=
    if bool_decide (hq_url q = lit "https://relay/v1/auth/challenges")
    then JObj [("challenge_id"%string, jstr "c"); ("key_fingerprint"%string, jstr "f");
               ("signing_input"%string, JStr (b64_encode (signing_encode (example_signing_input q))))]
    else JObj [("identity_id"%string, jstr "who"); ("access_token"%string, jstr "t"); ("expires_in"%string, JNum 60);
               ("device_id"%string, jstr "dev")] in
  (Ok (200, json_to_string answer), w).
Definition example_machine : Machine (W := ()) := mkMachine (mkFiles ∅ []) () [repeat x07 32; repeat x08 32].
Definition example_enrolment : result text State * Machine :=
  enroll example_exchange json_to_string id id (λ _, None) (lit "/h/publisher.json") (lit "https://relay/") None example_machine.
Lemma example_enrolment_ok : res_ok example_enrolment.1 = true.
Proof. vm_cast_no_check (eq_refl true). Qed.
Lemma example_enrolment_run : example_enrolment = (Ok (res_value state_default example_enrolment.1), example_enrolment.2).
Proof.
  pose proof (res_ok_value state_default _ example_enrolment_ok) as E. revert E. destruct example_enrolment as [r m].
  cbn [fst snd]. by intros <-.
Qed.

(** Enrolling a second time, with other seeds to draw from. *)
Definition second_machine : Machine (W := ()) := mkMachine (mc_files example_enrolment.2) () [repeat x09 32; repeat x0a 32].
Definition second_enrolment : result text State * Machine :=
  enroll example_exchange json_to_string id id (λ _, None) (lit "/h/publisher.json") (lit "https://relay/") None second_machine.
Lemma enroll_keeps_identity_witness :
  match second_enrolment.1 with
  | Err _ => fs_entries (mc_files second_enrolment.2) !! lit "/h/publisher.json"
             = fs_entries (mc_files second_machine) !! lit "/h/publisher.json"
  | Ok saved =>
      fs_entries (mc_files second_enrolment.2) !! lit "/h/publisher.json"
      = Some (saved_entry json_to_string (lit "/h/publisher.json") saved (fs_entries (mc_files second_machine)))
      ∧ st_relay_url saved = client_base_url (lit "https://relay/")
      ∧ (good_seeds second_machine → identity_key saved ≠ None ∧ device_key saved ≠ None)
      ∧ match fs_entries (mc_files second_machine) !! lit "/h/publisher.json" with
        | Some f =>
            mjoin (head (fs_faults (mc_files second_machine))) = None →
            ∃ stored, holds f stored ∧ keeps_keys stored saved ∧ st_remote_open saved = st_remote_open stored
        | None => st_remote_open saved = remote_open_default
        end
  end.
Proof.
  pose proof (enroll_keeps_identity example_exchange json_to_string id id (λ _, None) (lit "/h/publisher.json")
                (lit "https://relay/") None second_machine kept_path) as Hw.
  unfold second_enrolment. destruct (enroll _ _ _ _ _ _ _ _ second_machine) as [r m']. exact Hw.
Defined.
(** It answers, and the keys are the first enrolment's. *)
Example second_enrolment_keeps :
  match second_enrolment.1 with
  | Ok saved => bool_decide (st_identity_seed saved = b64_encode (repeat x07 32) ∧ st_device_seed saved = b64_encode (repeat x08 32))
  | Err _ => false
  end = true.
Proof. vm_cast_no_check (eq_refl true). Qed.
(** The same with a [stat] that fails. *)
Example failing_check_example :
  match (enroll example_exchange json_to_string id id (λ _, None) (lit "/h/publisher.json") (lit "https://relay/") None
           (mkMachine (mkFiles (fs_entries (mc_files second_machine)) [Some (lit "denied", 0)]) () (mc_seeds second_machine))).1 with
  | Ok saved => bool_decide (st_identity_seed saved = b64_encode (repeat x09 32))
  | Err _ => false
  end = true.
Proof. vm_cast_no_check (eq_refl true). Qed.
Lemma enrolled_machine_publishes_witness :
  ∃ identity device,
    (daemon_command id (lit "/h/publisher.json") false false false example_enrolment.2).1
    = Ok (DaServe (client_base_url (lit "https://relay/")) (st_device_id (res_value state_default example_enrolment.1))
            (Some identity) device (st_remote_open (res_value state_default example_enrolment.1))).
Proof.
  apply (enrolled_machine_publishes example_exchange json_to_string id id (λ _, None) (lit "/h/publisher.json")
           (lit "https://relay/") None example_machine (res_value state_default example_enrolment.1) example_enrolment.2 kept_path).
  - done.
  - by repeat constructor.
  - exact example_enrolment_run.
  - done.
  - apply (bool_decide_unpack _). vm_cast_no_check I.
  - apply (bool_decide_unpack _). vm_cast_no_check I.
  - apply (bool_decide_unpack _). vm_cast_no_check I.
Defined.
Lemma remote_open_is_the_owners_witness :
  let '(r, m') := remote_open json_to_string id (λ name, if bool_decide (name = "SHELL"%string) then Some (lit "/bin/fish") else None)
                    (lit "/h/publisher.json") true false (mkRemoteOpenSettings None None (Some 0) None) example_machine in
  match r with
  | Err _ => fs_entries (mc_files m') !! lit "/h/publisher.json" = None
  | Ok policy =>
      ∃ stored, (load_state id (lit "/h/publisher.json") (mc_files example_machine)).1 = Ok stored
      ∧ ro_enabled policy = true ∧ (true = true → false = false → ro_shell policy ≠ [])
      ∧ fs_entries (mc_files m') !! lit "/h/publisher.json"
        = Some (saved_entry json_to_string (lit "/h/publisher.json") (with_remote_open policy stored) ∅)
  end.
Proof.
  exact (remote_open_is_the_owners json_to_string id (λ name, if bool_decide (name = "SHELL"%string) then Some (lit "/bin/fish") else None)
           (lit "/h/publisher.json") true false (mkRemoteOpenSettings None None (Some 0) None) example_machine kept_path).
Defined.
