(* ===== verification/Pump.v ===== *)
(** * Hosting a shell ([pump] of [publisher/src/main.rs])

    [Pump] is what the loop of [pump] keeps, with its mirror ([Mirror] of
    [publish.rs], whose notices and owner channel are in [Hosted]);
    [pump_step] is one turn: the arm that fired and what it did, up to a send
    the arm waits for, which [pump_sent] completes. [armed] is the arm's guard.
    Below it [Hosted] puts the pump, the two channels of the mirror and the
    driver with the network behind it ([Pipe]) together. The signals, the
    terminal driver and the pseudo-terminal are events and actions. Times are in
    milliseconds. *)

From S2P Require Export Pipeline PublisherMain.

Open Scope N_scope.
Open Scope hype_scope.

Definition SHUTDOWN_GRACE : N := 3000.
Definition CHUNK_QUEUE : N := 8.
Definition NOTICE_QUEUE : N := 1024.

Inductive PumpAct :=
(** On this terminal. *)
| AcShown (bytes : list byte)
| AcTold (message : text)
(** To the shell. *)
| AcTyped (relayed : bool) (bytes : list byte)
| AcResized (cols rows : N)
(** To the mirror. *)
| AcHanded (m : FromOwner)
| AcClosing.

Inductive PumpEvent :=
| PeChunk (chunk : option (list byte))
| PeNotice (n : option Notice)
| PeKeyboard (read : result text (list byte))
| PeSignal
| PeDeadline
| PeSize (measured : option (N * N)).

(** What an arm waits for: room in the driver's queue or in the shell's. *)
Inductive Awaiting :=
| AwMirror (m : FromOwner)
| AwShell (relayed : bool) (bytes : list byte).
(** [pu_mirror]: whether the mirror, if there is one, still has its sender. *)
Record Pump := mkPump {
  pu_cols : N;
  pu_rows : N;
  pu_shutting_down : bool;
  pu_shell_gone : bool;
  pu_deadline : option N;
  pu_mirror : option bool;
  pu_awaiting : option Awaiting;
  pu_exit : option (result text ());
}.
Definition pump_new (cols rows : N) (mirror : option bool) : Pump := mkPump cols rows false false None mirror None None.
Definition with_mirror (m : option bool) (s : Pump) : Pump :=
  mkPump (pu_cols s) (pu_rows s) (pu_shutting_down s) (pu_shell_gone s) (pu_deadline s) m (pu_awaiting s) (pu_exit s).
Definition with_size (cols rows : N) (s : Pump) : Pump :=
  mkPump cols rows (pu_shutting_down s) (pu_shell_gone s) (pu_deadline s) (pu_mirror s) (pu_awaiting s) (pu_exit s).
Definition with_shell_gone (s : Pump) : Pump :=
  mkPump (pu_cols s) (pu_rows s) (pu_shutting_down s) true (pu_deadline s) (pu_mirror s) (pu_awaiting s) (pu_exit s).
Definition with_awaiting (w : option Awaiting) (s : Pump) : Pump :=
  mkPump (pu_cols s) (pu_rows s) (pu_shutting_down s) (pu_shell_gone s) (pu_deadline s) (pu_mirror s) w (pu_exit s).
Definition leave (r : result text ()) (s : Pump) : Pump :=
  mkPump (pu_cols s) (pu_rows s) (pu_shutting_down s) (pu_shell_gone s) (pu_deadline s) (pu_mirror s) (pu_awaiting s) (Some r).
(** [shutting_down = true], [begin_shutdown] and the deadline. *)
Definition close_mirror (now : N) (s : Pump) : Pump :=
  mkPump (pu_cols s) (pu_rows s) true (pu_shell_gone s) (Some (now + SHUTDOWN_GRACE)) (Some false) (pu_awaiting s) (pu_exit s).

Definition is_running (s : Pump) : bool := match pu_exit s with None => true | Some _ => false end.
Definition is_idle (s : Pump) : bool := match pu_awaiting s with None => is_running s | Some _ => false end.
Definition armed (interactive : bool) (now : N) (ev : PumpEvent) (s : Pump) : bool :=
  is_idle s
  && match ev with
     | PeChunk _ => negb (pu_shell_gone s)
     | PeNotice _ => match pu_mirror s with Some _ => true | None => false end
     | PeKeyboard _ | PeSize _ => interactive
     | PeSignal => negb (pu_shutting_down s)
     | PeDeadline => match pu_deadline s with Some deadline => deadline <=? now | None => false end
     end.

(** [Mirror::publish], [Mirror::resize]: without a sender they answer at once. *)
Definition hand (m : FromOwner) (s : Pump) : option Pump :=
  match pu_mirror s with Some true => Some (with_awaiting (Some (AwMirror m)) s) | _ => None end.
Definition stop_mirroring (s : Pump) : list PumpAct * Pump :=
  ([AcTold (lit "mirroring stopped; this terminal still works")], with_mirror None s).
Definition follow_size (cols rows : N) (s : Pump) : list PumpAct * Pump :=
  let s := with_size cols rows s in ([AcResized cols rows], default s (hand (FoResize cols rows) s)).
(** [terminal.write] *)
Definition type_in (relayed : bool) (bytes : list byte) (s : Pump) : list PumpAct * Pump :=
  ([], with_awaiting (Some (AwShell relayed bytes)) s).

Definition pump_step (interactive : bool) (now : N) (ev : PumpEvent) (s : Pump) : list PumpAct * Pump :=
  match ev with
  | PeChunk None =>
      let s := with_shell_gone s in
      match pu_mirror s with
      | Some _ => if negb (pu_shutting_down s) then ([AcClosing], close_mirror now s) else ([], s)
      | None => ([], leave (Ok ()) s)
      end
  | PeChunk (Some chunk) =>
      let shown := if interactive then [AcShown chunk] else [] in
      match pu_mirror s with
      | Some _ =>
          match hand (FoOutput chunk) s with
          | Some s => (shown, s)
          | None => let '(acts, s) := stop_mirroring s in (shown ++ acts, s)
          end
      | None => (shown, s)
      end
  | PeNotice (Some (NtInput bytes)) => type_in true bytes s
  | PeNotice (Some (NtResize cols rows)) => if interactive then ([], s) else follow_size cols rows s
  | PeNotice (Some (NtEnded reason)) =>
      if pu_shutting_down s then ([], leave (Ok ()) s)
      else ([AcTold (reason ++ lit "; this terminal still works")], with_mirror None s)
  | PeNotice None => if pu_shutting_down s then ([], leave (Ok ()) s) else ([], with_mirror None s)
  | PeKeyboard (Ok []) => ([], s)
  | PeKeyboard (Ok bytes) => type_in false bytes s
  | PeKeyboard (Err e) => ([], leave (Err (lit "reading the keyboard: " ++ e)) s)
  | PeSignal =>
      match pu_mirror s with
      | Some _ => ([AcClosing], close_mirror now s)
      | None =>
          ([], leave (Ok ()) (mkPump (pu_cols s) (pu_rows s) true (pu_shell_gone s) (pu_deadline s) (pu_mirror s) (pu_awaiting s) (pu_exit s)))
      end
  | PeDeadline => ([], leave (Ok ()) s)
  | PeSize measured =>
      let '(cols, rows) := terminal_size measured in
      if bool_decide ((cols, rows) = (pu_cols s, pu_rows s)) then ([], s) else follow_size cols rows s
  end.

(** The send that an arm waited for succeeds, or its receiver is gone. *)
Definition pump_sent (taken : bool) (w : Awaiting) (s : Pump) : list PumpAct * Pump :=
  let s := with_awaiting None s in
  match w with
  | AwMirror m => if taken then ([AcHanded m], s) else match m with FoOutput _ => stop_mirroring s | FoResize _ _ => ([], s) end
  | AwShell relayed bytes => if taken then ([AcTyped relayed bytes], s) else ([], leave (Ok ()) s)
  end.

(** ** The whole host *)

(** [ho_queue]: the owner's channel; [ho_read]: how many notices were taken;
    [ho_drawn]: what was drawn from the pseudo-terminal. *)
Record Hosted := mkHosted {
  ho_pump : Pump;
  ho_acts : list PumpAct;
  ho_drawn : list byte;
  ho_queue : list FromOwner;
  ho_read : nat;
  ho_pipe : Pipe;
}.
Definition hosted_new (cols rows : N) (i : TerminalInner) : Hosted :=
  mkHosted (pump_new cols rows (Some true)) [] [] [] 0 (pipe_new i).
Definition handed_in (acts : list PumpAct) : list FromOwner :=
  omap (λ a, match a with AcHanded m => Some m | _ => None end) acts.
Definition drawn_by (ev : PumpEvent) : list byte := match ev with PeChunk (Some chunk) => chunk | _ => [] end.
Definition noticed_by (ev : PumpEvent) : nat := match ev with PeNotice (Some _) => 1 | _ => 0 end.
(** What the channels say about a notice and about a send. *)
Definition notice_there (ev : PumpEvent) (h : Hosted) : Prop :=
  let notices := dr_notices (pp_drive (ho_pipe h)) in
  match ev with
  | PeNotice (Some n) => notices !! ho_read h = Some n
  | PeNotice None => (length notices ≤ ho_read h)%nat ∧ dr_done (pp_drive (ho_pipe h)) = true
  | _ => True
  end.
Definition send_ends (taken : bool) (w : Awaiting) (h : Hosted) : Prop :=
  match w with
  | AwMirror _ => if taken then dr_done (pp_drive (ho_pipe h)) = false ∧ len (ho_queue h) < CHUNK_QUEUE
                  else dr_done (pp_drive (ho_pipe h)) = true
  | AwShell _ _ => True
  end.

Inductive hosted_step (interactive : bool) : Hosted → Hosted → Prop :=
| hs_pump h now ev acts pump :
    armed interactive now ev (ho_pump h) = true → notice_there ev h →
    pump_step interactive now ev (ho_pump h) = (acts, pump) →
    hosted_step interactive h
      (mkHosted pump (ho_acts h ++ acts) (ho_drawn h ++ drawn_by ev) (ho_queue h) (ho_read h + noticed_by ev) (ho_pipe h))
| hs_sent h w taken acts pump :
    pu_awaiting (ho_pump h) = Some w → send_ends taken w h → pump_sent taken w (ho_pump h) = (acts, pump) →
    hosted_step interactive h
      (mkHosted pump (ho_acts h ++ acts) (ho_drawn h) (ho_queue h ++ handed_in acts) (ho_read h) (ho_pipe h))
(** The driver takes from its owner. *)
| hs_hand pump acts drawn m queue read d handed inbox i log :
    owner_ready d = true → dr_done d = false → len (handed ++ handed_by (Some m)) < two63 →
    hosted_step interactive (mkHosted pump acts drawn (m :: queue) read (mkPipe d handed inbox i log))
      (mkHosted pump acts drawn queue read
         (mkPipe (drive_turn (drive_owner (Some m)) d) (handed ++ handed_by (Some m)) inbox i log))
(** The driver learns that its owner has left. *)
| hs_left pump acts drawn read d handed inbox i log :
    pu_mirror pump ≠ Some true → owner_ready d = true → dr_done d = false → len handed < two63 →
    hosted_step interactive (mkHosted pump acts drawn [] read (mkPipe d handed inbox i log))
      (mkHosted pump acts drawn [] read (mkPipe (drive_turn (drive_owner None) d) handed inbox i log))
(** The driver's transport, the network and the relay. *)
| hs_wire pump acts drawn queue read p p' :
    wire_step p p' →
    hosted_step interactive (mkHosted pump acts drawn queue read p) (mkHosted pump acts drawn queue read p').
