(* ===== verification/PumpProps.v ===== *)
(** * Theorems about hosting a shell

    Whatever the network, the relay, the keyboard and the signals do: the
    relay's log is what the shell wrote, as far as it got, and an interactive
    terminal showed it before; what the relay sent is typed in order; the mirror's
    end is not the shell's; and what the loop does not do while it waits. *)

From S2P Require Export Pump.

Open Scope N_scope.
Open Scope hype_scope.

(** ** What was done *)

Definition shown (acts : list PumpAct) : list byte :=
  mjoin (omap (λ a, match a with AcShown bytes => Some bytes | _ => None end) acts).
Definition typed (relayed : bool) (acts : list PumpAct) : list byte :=
  mjoin (omap (λ a, match a with AcTyped r bytes => if bool_decide (r = relayed) then Some bytes else None | _ => None end) acts).
Definition outputs (queue : list FromOwner) : list byte := mjoin ((λ m, handed_by (Some m)) <$> queue).
Definition inputs (notices : list Notice) : list byte :=
  mjoin (omap (λ n, match n with NtInput bytes => Some bytes | _ => None end) notices).
(** What an arm waits to send. *)
Definition to_mirror (s : Pump) : list byte := match pu_awaiting s with Some (AwMirror m) => handed_by (Some m) | _ => [] end.
Definition to_shell (relayed : bool) (s : Pump) : list byte :=
  match pu_awaiting s with Some (AwShell r bytes) => if bool_decide (r = relayed) then bytes else [] | _ => [] end.

Lemma shown_app a b : shown (a ++ b) = shown a ++ shown b.
Proof. unfold shown. by rewrite omap_app, join_app. Qed.
Lemma typed_app r a b : typed r (a ++ b) = typed r a ++ typed r b.
Proof. unfold typed. by rewrite omap_app, join_app. Qed.
Lemma outputs_app a b : outputs (a ++ b) = outputs a ++ outputs b.
Proof. unfold outputs. by rewrite fmap_app, join_app. Qed.
Lemma inputs_app a b : inputs (a ++ b) = inputs a ++ inputs b.
Proof. unfold inputs. by rewrite omap_app, join_app. Qed.

(** ** One turn *)

(** What an arm draws is shown, and kept for the mirror while it is there. *)
Record turn_spec (interactive : bool) (ev : PumpEvent) (s : Pump) (acts : list PumpAct) (s' : Pump) : Prop := mkTurn {
  ts_shown : shown acts = if interactive then drawn_by ev else [];
  ts_typed : ∀ r, typed r acts = [];
  ts_handed : handed_in acts = [];
  ts_mirror : pu_mirror s' = Some true → pu_mirror s = Some true ∧ to_mirror s' = drawn_by ev;
  ts_waiting : to_mirror s' = [] ∨ pu_mirror s' = Some true;
  ts_relayed : is_running s' = true →
    to_shell true s' = match ev with PeNotice (Some n) => inputs [n] | _ => [] end;
  ts_awaiting : pu_awaiting s' ≠ None → is_running s' = true;
  ts_left : is_running s' = false → to_shell true s' = [];
}.
Lemma turn_ok interactive now ev s acts s' :
  is_idle s = true → pump_step interactive now ev s = (acts, s') → turn_spec interactive ev s acts s'.
Proof.
  intros Hi. destruct s as [cols rows sd sg dl mirror [w|] [ex|]]; [done..|].
  assert (∀ a : list byte, mjoin [a] = a) as Hone by apply app_nil_r.
  destruct ev as [[chunk|]|[[bytes|c r|reason]|]|[[|b bytes]|e]| | |measured]; unfold pump_step, hand, stop_mirroring, type_in, follow_size;
    cbn [pu_mirror pu_shutting_down with_mirror with_size with_shell_gone with_awaiting leave close_mirror default from_option id];
    [| | | | | | | | | | |destruct (terminal_size measured) as [c r]; destruct (bool_decide _)];
    destruct mirror as [[]|], interactive, sd; cbn; intros [= <- <-];
    (split; cbn; try done; try (by intros []); try (by left); try (by right); rewrite ?Hone, ?app_nil_r; done).
Qed.

(** How a send ends. *)
Record sent_spec (s : Pump) (acts : list PumpAct) (s' : Pump) : Prop := mkSentSpec {
  ss_idle : pu_awaiting s' = None;
  ss_shown : shown acts = [];
  ss_handed : ∃ lost, to_mirror s = outputs (handed_in acts) ++ lost ∧ (pu_mirror s' = Some true → pu_mirror s = Some true ∧ lost = []);
  ss_typed : ∃ lost, to_shell true s = typed true acts ++ lost ∧ (is_running s' = true → lost = []);
}.
Lemma sent_ok taken w s acts s' :
  pu_awaiting s = Some w → is_running s = true → pump_sent taken w s = (acts, s') → sent_spec s acts s'.
Proof.
  destruct s as [cols rows sd sg dl mirror aw [ex|]]; [done|]. cbn. intros -> _.
  destruct w as [[chunk|c r]|[] bytes], taken, mirror as [[]|]; cbn; intros [= <- <-]; (split; [done|done| |]; cbn; change (bool_decide (true = true)) with true; change (bool_decide (false = true)) with false; cbn;
    first [exists []; split; [by rewrite ?app_nil_r|by intros Hs]|eexists; split; [reflexivity|by intros [=]]]).
Qed.

(** ** The driver's notices *)

Lemma request_notices r d : dr_notices (request r d).2 = dr_notices d.
Proof. unfold request. by destruct (dr_transport_open d). Qed.
Lemma send_slices_notices slices offset d : dr_notices (send_slices offset slices d).2 = dr_notices d.
Proof.
  revert offset d. induction slices as [|slice slices IH]; intros offset d; [done|]. cbn.
  pose proof (request_notices (RqOutput offset slice) d) as Hr. destruct (request _ d) as [[] d']; cbn in Hr; [by rewrite IH|done].
Qed.
Lemma or_finish_notices r : dr_notices (or_finish r) = dr_notices r.2.
Proof. by destruct r as [[] d]. Qed.
Lemma hand_over_notices chunk d :
  dr_notices (if may_send (dr_stream d) then
      let '(start, o) := outgoing_send chunk (dr_stream d) in
      let d := with_stream o d in
      match start with Some start => or_finish (send_output start chunk d) | None => with_waiting (Some chunk) d end
    else with_waiting (Some chunk) d) = dr_notices d.
Proof.
  destruct (may_send (dr_stream d)); [|done]. destruct (outgoing_send chunk (dr_stream d)) as [[start|] o]; [|done].
  cbn. rewrite or_finish_notices. unfold send_output. by rewrite send_slices_notices.
Qed.
Lemma drive_owner_notices m d : dr_notices (drive_owner m d) = dr_notices d.
Proof.
  destruct m as [[chunk|cols rows]|]; [apply hand_over_notices| |done].
  cbn. by rewrite or_finish_notices, request_notices.
Qed.
Lemma drive_head_notices d : dr_notices (drive_head d) = dr_notices d.
Proof.
  unfold drive_head. destruct (dr_waiting d) as [chunk|].
  - match goal with |- context [if dr_done ?x then _ else _] =>
      assert (dr_notices x = dr_notices d) as Hx; [exact (hand_over_notices chunk (with_waiting None d))|generalize dependent x] end.
    intros d' Hd. destruct (dr_done d'); [done|]. case_goal; [|done]. by rewrite request_notices.
  - destruct (dr_done d); [done|]. case_goal; [|done]. by rewrite request_notices.
Qed.
Lemma drive_event_notices room e d : dr_notices d `prefix_of` dr_notices (drive_event room e d).
Proof.
  assert (∀ n d, dr_notices d `prefix_of` dr_notices (notify room n d)) as Hn.
  { intros n d'. unfold notify. destruct room; [|done]. by eexists. }
  assert (∀ r d, dr_notices d `prefix_of` dr_notices (resynchronise room r d)) as Hr.
  { intros [[start bytes| |] o] d'; cbn; [|done|].
    - rewrite or_finish_notices. unfold send_output. by rewrite send_slices_notices.
    - unfold unrecoverable. cbn. etrans; [|apply Hn]. by rewrite request_notices. }
  destruct e as [[id offset limits|offset|bytes|c r|offset| |reason]|]; cbn; try done; try apply Hn; try apply Hr.
  - etrans; [|apply Hr]. done.
  - destruct room; [apply (Hn (NtInput bytes) d)|done].
Qed.
Lemma drive_turn_notices arm d : dr_notices (drive_turn arm d) = dr_notices (arm d).
Proof. unfold drive_turn. destruct (dr_done (arm d)); [done|]. apply drive_head_notices. Qed.
Lemma wire_notices p p' :
  wire_step p p' → dr_notices (pp_drive p) `prefix_of` dr_notices (pp_drive p') ∧ pp_handed p' = pp_handed p.
Proof.
  intros Hs. destruct Hs; cbn; try done. split; [|done]. rewrite drive_turn_notices. apply drive_event_notices.
Qed.

(** ** The invariant *)

Record host_inv (interactive : bool) (h : Hosted) : Prop := mkHostInv {
  hi_pipe : ∃ hist, pipe_inv hist (ho_pipe h);
  hi_running : pu_awaiting (ho_pump h) ≠ None → is_running (ho_pump h) = true;
  hi_shown : shown (ho_acts h) = if interactive then ho_drawn h else [];
  hi_handed : ∃ lost,
    ho_drawn h = pp_handed (ho_pipe h) ++ outputs (ho_queue h) ++ to_mirror (ho_pump h) ++ lost
    ∧ (pu_mirror (ho_pump h) = Some true → lost = []);
  hi_mirror : to_mirror (ho_pump h) = [] ∨ pu_mirror (ho_pump h) = Some true;
  hi_read : (ho_read h ≤ length (dr_notices (pp_drive (ho_pipe h))))%nat;
  hi_typed : ∃ lost,
    inputs (take (ho_read h) (dr_notices (pp_drive (ho_pipe h)))) = typed true (ho_acts h) ++ to_shell true (ho_pump h) ++ lost
    ∧ (is_running (ho_pump h) = true → lost = []);
}.
Lemma host_inv_new interactive cols rows i : term_repr [] i → host_inv interactive (hosted_new cols rows i).
Proof.
  intros Ht. split; cbn; [|done|by destruct interactive|by exists []|by left|done|by exists []].
  exists []. by apply pipe_new_inv.
Qed.
Lemma take_grow {A} n (l l' : list A) : (n ≤ length l)%nat → l `prefix_of` l' → take n l' = take n l.
Proof. intros Hn [k ->]. by rewrite take_app_le. Qed.

(** The driver's side moved. *)
Lemma host_inv_pipe interactive h queue p :
  host_inv interactive h → (∃ hist, pipe_inv hist p) →
  pp_handed p ++ outputs queue = pp_handed (ho_pipe h) ++ outputs (ho_queue h) →
  dr_notices (pp_drive (ho_pipe h)) `prefix_of` dr_notices (pp_drive p) →
  host_inv interactive (mkHosted (ho_pump h) (ho_acts h) (ho_drawn h) queue (ho_read h) p).
Proof.
  intros [_ Hr Hs (lost & Hh & Hm) Hw Hn Ht] Hp Hq Hg. split; cbn [ho_pump ho_acts ho_drawn ho_queue ho_read ho_pipe]; [done..| |done| |].
  - exists lost. by rewrite (app_assoc (pp_handed p)), Hq, <- app_assoc.
  - apply prefix_length in Hg. lia.
  - by rewrite (take_grow _ _ _ Hn Hg).
Qed.

Lemma idle_waits s : is_idle s = true → pu_awaiting s = None ∧ is_running s = true.
Proof. unfold is_idle. by destruct (pu_awaiting s). Qed.
Lemma noticed_inputs ev h :
  notice_there ev h →
  (ho_read h + noticed_by ev ≤ length (dr_notices (pp_drive (ho_pipe h))) ∨ noticed_by ev = 0)%nat
  ∧ inputs (take (ho_read h + noticed_by ev) (dr_notices (pp_drive (ho_pipe h))))
    = inputs (take (ho_read h) (dr_notices (pp_drive (ho_pipe h))))
      ++ match ev with PeNotice (Some n) => inputs [n] | _ => [] end.
Proof.
  intros Hn. destruct ev as [| [n|] | | | |]; cbn [noticed_by]; rewrite ?Nat.add_0_r, ?app_nil_r; try (split; [by right|done]).
  cbn in Hn. split; [left; apply lookup_lt_Some in Hn; lia|].
  rewrite Nat.add_1_r. by rewrite (take_S_r _ _ _ Hn), inputs_app.
Qed.

Lemma host_inv_turn interactive h now ev acts pump :
  host_inv interactive h → armed interactive now ev (ho_pump h) = true → notice_there ev h →
  pump_step interactive now ev (ho_pump h) = (acts, pump) →
  host_inv interactive
    (mkHosted pump (ho_acts h ++ acts) (ho_drawn h ++ drawn_by ev) (ho_queue h) (ho_read h + noticed_by ev) (ho_pipe h)).
Proof.
  intros [Hp Hr Hs (lost & Hh & Hm) Hw Hn (lost' & Ht & Hl)] [Hi _]%andb_true_iff Hthere Estep.
  pose proof (turn_ok _ _ _ _ _ _ Hi Estep) as [Ts Tt Tq Tm Tw Tr Ta Tl]. apply idle_waits in Hi as [Hidle Hrun].
  pose proof (noticed_inputs ev h Hthere) as [Hread Hin].
  assert (to_mirror (ho_pump h) = []) as Em by (unfold to_mirror; by rewrite Hidle).
  assert (to_shell true (ho_pump h) = []) as Es by (unfold to_shell; by rewrite Hidle).
  rewrite Em in Hh. rewrite Es in Ht. cbn [app] in Hh, Ht. rewrite (Hl Hrun), app_nil_r in Ht.
  split; cbn [ho_pump ho_acts ho_drawn ho_queue ho_read ho_pipe]; [done|done| | |done|destruct Hread; lia|].
  - rewrite shown_app, Hs, Ts. by destruct interactive.
  - destruct (decide (pu_mirror pump = Some true)) as [E|E].
    + destruct (Tm E) as [Em' ->]. exists []. rewrite Hh, (Hm Em'), !app_nil_r. by rewrite <- app_assoc.
    + destruct Tw as [->|?]; [|done]. exists (lost ++ drawn_by ev). rewrite Hh. cbn [app]. by rewrite <- !app_assoc.
  - rewrite typed_app, Tt, app_nil_r, Hin, Ht. destruct (is_running pump) eqn:E.
    + exists []. by rewrite Tr, app_nil_r.
    + rewrite (Tl eq_refl). by eexists.
Qed.
Lemma host_inv_sent interactive h w taken acts pump :
  host_inv interactive h → pu_awaiting (ho_pump h) = Some w → pump_sent taken w (ho_pump h) = (acts, pump) →
  host_inv interactive
    (mkHosted pump (ho_acts h ++ acts) (ho_drawn h) (ho_queue h ++ handed_in acts) (ho_read h) (ho_pipe h)).
Proof.
  intros [Hp Hr Hs (lost & Hh & Hm) Hw Hn (lost' & Ht & Hl)] Ha Estep.
  assert (is_running (ho_pump h) = true) as Hrun by (apply Hr; by rewrite Ha).
  pose proof (sent_ok _ _ _ _ _ Ha Hrun Estep) as [Si Ss (l1 & E1 & H1) (l2 & E2 & H2)].
  assert (to_mirror pump = [] ∧ to_shell true pump = []) as [Em Es] by (unfold to_mirror, to_shell; by rewrite Si).
  split; cbn [ho_pump ho_acts ho_drawn ho_queue ho_read ho_pipe]; [done| | | |by left|done|].
  - by rewrite Si.
  - rewrite shown_app, Hs, Ss. by destruct interactive; rewrite app_nil_r.
  - exists (l1 ++ lost). rewrite Em, outputs_app, Hh, E1. cbn [app]. rewrite <- !app_assoc. split; [done|].
    intros E. destruct (H1 E) as [E' ->]. by rewrite (Hm E').
  - exists (l2 ++ lost'). rewrite Es, typed_app, Ht, E2. cbn [app]. rewrite <- !app_assoc. split; [done|].
    intros E. by rewrite (H2 E), (Hl Hrun).
Qed.

Lemma hosted_step_inv interactive h h' : hosted_step interactive h h' → host_inv interactive h → host_inv interactive h'.
Proof.
  intros Hstep Hinv. destruct Hstep as [h now ev acts pump Ha Hn Es|h w taken acts pump Ha Hsend Es
    |pump acts drawn m queue read d handed inbox i log Hready Hdone Hlen
    |pump acts drawn read d handed inbox i log Hm Hready Hdone Hlen|pump acts drawn queue read p p' Hw].
  - by eapply host_inv_turn.
  - by eapply host_inv_sent.
  - pose proof (host_inv_pipe interactive _ queue (mkPipe (drive_turn (drive_owner (Some m)) d) (handed ++ handed_by (Some m)) inbox i log) Hinv) as Hp.
    apply Hp; cbn [ho_pipe pp_handed pp_drive ho_queue].
    + destruct Hinv as [(hist & Hpipe) _ _ _ _ _ _].
      destruct (pipe_step_inv _ _ _ (ps_owner d handed inbox i log (Some m) Hready Hdone Hlen) Hpipe) as (hist' & _ & Hp'). by exists hist'.
    + unfold outputs. cbn. by rewrite <- app_assoc.
    + by rewrite drive_turn_notices, drive_owner_notices.
  - pose proof (host_inv_pipe interactive _ [] (mkPipe (drive_turn (drive_owner None) d) handed inbox i log) Hinv) as Hp.
    apply Hp; cbn [ho_pipe pp_handed pp_drive ho_queue]; [|done|by rewrite drive_turn_notices, drive_owner_notices].
    destruct Hinv as [(hist & Hpipe) _ _ _ _ _ _]. assert (len (handed ++ handed_by None) < two63) as Hlen' by (cbn; by rewrite app_nil_r).
    destruct (pipe_step_inv _ _ _ (ps_owner d handed inbox i log None Hready Hdone Hlen') Hpipe) as (hist' & _ & Hp').
    exists hist'. cbn in Hp'. by rewrite app_nil_r in Hp'.
  - pose proof (wire_notices _ _ Hw) as [Hg He].
    apply (host_inv_pipe interactive _ queue p' Hinv); cbn [ho_pipe ho_queue]; [|by rewrite He|done].
    destruct Hinv as [(hist & Hpipe) _ _ _ _ _ _]. destruct (pipe_step_inv _ _ _ (ps_wire _ _ Hw) Hpipe) as (hist' & _ & Hp'). by exists hist'.
Qed.
Lemma hosted_steps_inv interactive h h' : rtc (hosted_step interactive) h h' → host_inv interactive h → host_inv interactive h'.
Proof. intros Hsteps. induction Hsteps as [h|h1 h2 h3 Hstep _ IH]; [done|]. intros Hinv. apply IH. by eapply hosted_step_inv. Qed.


(** ** The mirror ends, the shell does not *)

(** A move of the loop: an armed arm fires, or the send that the last arm is
    waiting for is answered. While a send waits no arm is armed, and anything
    that is not possible is not a move ([None]). *)
Inductive PumpMove :=
| MvArm (now : N) (ev : PumpEvent)
| MvSent (taken : bool).
Definition pump_move (interactive : bool) (mv : PumpMove) (s : Pump) : option (list PumpAct * Pump) :=
  match mv with
  | MvArm now ev => if armed interactive now ev s then Some (pump_step interactive now ev s) else None
  | MvSent taken => w ← pu_awaiting s; Some (pump_sent taken w s)
  end.
Fixpoint pump_run (interactive : bool) (moves : list PumpMove) (s : Pump) : option (list PumpAct * Pump) :=
  match moves with
  | [] => Some ([], s)
  | mv :: moves =>
      '(acts, s) ← pump_move interactive mv s;
      '(more, s) ← pump_run interactive moves s;
      Some (acts ++ more, s)
  end.

(** The mirror fails in every way it can, at any time; the shell, the keyboard
    and the session are well. *)
Definition only_the_mirror_fails (mv : PumpMove) (s : Pump) : Prop :=
  match mv with
  | MvArm _ (PeChunk None) | MvArm _ PeSignal | MvArm _ (PeKeyboard (Err _)) => False
  | MvSent false => match pu_awaiting s with Some (AwShell _ _) => False | _ => True end
  | _ => True
  end.
Fixpoint spares (moves : list PumpMove) (s : Pump) : Prop :=
  match moves with
  | [] => True
  | mv :: moves => only_the_mirror_fails mv s
      ∧ ∀ acts s', pump_move true mv s = Some (acts, s') → spares moves s'
  end.
Definition drawn_in (mv : PumpMove) : list byte := match mv with MvArm _ ev => drawn_by ev | _ => [] end.
Definition keys_of (mv : PumpMove) : list byte := match mv with MvArm _ (PeKeyboard (Ok bytes)) => bytes | _ => [] end.
Record in_session (s : Pump) : Prop := mkInSession {
  in_running : is_running s = true;
  in_open : pu_shutting_down s = false;
  in_alive : pu_shell_gone s = false;
  in_deadline : pu_deadline s = None;
}.
Lemma pump_move_spares mv s acts s' :
  in_session s → only_the_mirror_fails mv s → pump_move true mv s = Some (acts, s') →
  in_session s' ∧ shown acts = drawn_in mv
  ∧ typed false acts ++ to_shell false s' = to_shell false s ++ keys_of mv.
Proof.
  intros [Hr Ho Ha Hd] Hf. destruct s as [cols rows sd sg dl mirror aw [ex|]]; [done|]. cbn in Ho, Ha, Hd. subst sd sg dl.
  assert (∀ a : list byte, mjoin [a] = a) as Hone by apply app_nil_r.
  destruct mv as [now ev|taken]; cbn [pump_move].
  - destruct aw as [w|]; [done|]. unfold armed, is_idle, is_running. cbn [pu_awaiting pu_exit pu_shell_gone pu_mirror pu_shutting_down pu_deadline andb negb].
    destruct ev as [[chunk|]|[[bytes|c r|reason]|]|[[|b bytes]|e]| | |measured]; cbn in Hf; try done; cbn [pump_step];
      try (destruct (terminal_size measured) as [c r]; cbn; destruct (bool_decide _));
      destruct mirror as [[]|]; cbn; try done; intros [= <- <-]; (split; [by constructor|]);
      repeat change (bool_decide (false = false)) with true; repeat change (bool_decide (true = false)) with false; cbn;
      rewrite ?app_nil_r; done.
  - cbn in Hf. destruct aw as [[[chunk|c r]|[] bytes]|], taken, mirror as [[]|]; cbn in Hf |- *; try done; intros [= <- <-];
      (split; [by constructor|]); cbn;
      repeat change (bool_decide (false = false)) with true; repeat change (bool_decide (true = false)) with false; cbn;
      rewrite ?app_nil_r; done.
Qed.

(** In a session the loop waits for a send or serves the shell's output and the
    keyboard; and a send that is answered, by the mirror either way, ends the
    waiting. *)
Definition serving (s : Pump) : Prop :=
  match pu_awaiting s with
  | None => ∀ now chunk read, armed true now (PeChunk chunk) s = true ∧ armed true now (PeKeyboard read) s = true
  | Some w => ∀ taken, (match w with AwShell _ _ => taken = true | AwMirror _ => True end) →
      is_idle (pump_sent taken w s).2 = true
  end.
Lemma in_session_serving s : in_session s → serving s.
Proof.
  intros [Hr Ho Ha Hd]. unfold serving. destruct s as [cols rows sd sg dl mirror [w|] [ex|]]; cbn in *; [done| |done|].
  - subst dl sg sd. intros taken Ht.
    destruct w as [[chunk|c r]|relayed bytes], taken; done.
  - by subst sg.
Qed.

(** C18: losing the mirror never takes the terminal away. Take any moves of a
    terminal in use, arms that fire and sends that are answered as they come,
    where only the mirror misbehaves: its notices say that it ended or stop,
    the driver refuses any byte and any size, requests and sizes come and go.
    The host goes on; everything the shell wrote was shown; every key pressed
    has reached the shell, but for the keys of a write that still waits for the
    shell; the shell's output and the keyboard are served whenever no send
    waits; and a waiting send to the mirror, accepted or refused, sets the loop
    free. What is not promised is that the mirror answers: a driver that
    neither takes nor ends keeps every arm waiting ([freezing_is_reachable],
    [frozen_takes_nothing]). *)
Theorem mirror_loss_spares_the_shell (moves : list PumpMove) (s : Pump) (acts : list PumpAct) (s' : Pump) :
  in_session s → pu_awaiting s = None → spares moves s →
  pump_run true moves s = Some (acts, s') →
  is_running s' = true ∧ shown acts = mjoin (drawn_in <$> moves)
  ∧ typed false acts ++ to_shell false s' = mjoin (keys_of <$> moves)
  ∧ serving s'.
Proof.
  intros Hs Hi Hf Hrun.
  assert (in_session s' ∧ shown acts = mjoin (drawn_in <$> moves)
          ∧ typed false acts ++ to_shell false s' = to_shell false s ++ mjoin (keys_of <$> moves)) as (Hs' & ? & Hk).
  { clear Hi. revert s acts Hs Hf Hrun. induction moves as [|mv moves IH]; intros s acts Hs Hf Hrun.
    - injection Hrun as <- <-. cbn. by rewrite app_nil_r.
    - cbn [pump_run] in Hrun. destruct Hf as [Hm Hf].
      destruct (pump_move true mv s) as [[acts1 s1]|] eqn:E1; [|done]. cbn in Hrun.
      destruct (pump_run true moves s1) as [[more s2]|] eqn:E2; [|done]. cbn in Hrun. injection Hrun as <- <-.
      destruct (pump_move_spares _ _ _ _ Hs Hm E1) as (Hs1 & Hshow & Hkey).
      destruct (IH s1 more Hs1 (Hf _ _ eq_refl) E2) as (Hs2 & Hshow2 & Hkey2). cbn [fmap list_fmap mjoin list_join].
      rewrite shown_app, typed_app, Hshow, Hshow2, <- app_assoc, Hkey2, app_assoc, Hkey, <- app_assoc. done. }
  split_and!; [apply Hs'|done| |by apply in_session_serving]. rewrite Hk. unfold to_shell. by rewrite Hi.
Qed.

(** ** Leaving *)

(** A deadline that is set stays until the host leaves. *)
Lemma pump_move_deadline interactive mv s acts s' deadline :
  pu_shutting_down s = true → pu_deadline s = Some deadline → pump_move interactive mv s = Some (acts, s') →
  is_running s' = true → pu_shutting_down s' = true ∧ pu_deadline s' = Some deadline.
Proof.
  intros Hd Hdl. destruct s as [cols rows sd sg dl mirror aw ex]. cbn in Hd, Hdl. subst sd dl.
  destruct mv as [now ev|taken]; cbn [pump_move].
  - destruct (armed _ _ _ _) eqn:Ea; [|done].
    destruct ev as [[chunk|]|[[bytes|c r|reason]|]|[[|b bytes]|e]| | |measured]; cbn [pump_step];
      try (destruct (terminal_size measured) as [c r]; cbn; destruct (bool_decide _));
      destruct mirror as [[]|], interactive; cbn; try (destruct ex; discriminate Ea);
      try (destruct aw, ex; discriminate Ea); intros [= <- <-]; done.
  - destruct aw as [[[chunk|c r]|relayed bytes]|], taken; cbn; try done; intros [= <- <-]; done.
Qed.
Lemma pump_move_running interactive mv s acts s' :
  pump_move interactive mv s = Some (acts, s') → is_running s' = true → is_running s = true.
Proof.
  destruct s as [cols rows sd sg dl mirror aw [ex|]]; [|done]. destruct mv as [now ev|taken]; cbn [pump_move].
  - unfold armed, is_idle. cbn. by destruct aw.
  - destruct aw as [[[chunk|c r]|relayed bytes]|], taken; cbn; try done; by intros [= <- <-].
Qed.
Lemma pump_run_running interactive moves s acts s' :
  pump_run interactive moves s = Some (acts, s') → is_running s' = true → is_running s = true.
Proof.
  revert s acts. induction moves as [|mv moves IH]; intros s acts; cbn [pump_run]; [by intros [= <- <-]|].
  destruct (pump_move interactive mv s) as [[acts1 s1]|] eqn:E1; [|done]. cbn.
  destruct (pump_run interactive moves s1) as [[more s2]|] eqn:E2; [|done]. cbn. intros [= <- <-] Hr.
  eapply pump_move_running; [exact E1|by eapply IH].
Qed.
Lemma pump_run_deadline interactive moves s acts s' deadline :
  pu_shutting_down s = true → pu_deadline s = Some deadline → pump_run interactive moves s = Some (acts, s') →
  is_running s' = true → pu_shutting_down s' = true ∧ pu_deadline s' = Some deadline.
Proof.
  revert s acts. induction moves as [|mv moves IH]; intros s acts Hd Hdl; cbn [pump_run]; [by intros [= <- <-]|].
  destruct (pump_move interactive mv s) as [[acts1 s1]|] eqn:E1; [|done]. cbn.
  destruct (pump_run interactive moves s1) as [[more s2]|] eqn:E2; [|done]. cbn. intros [= <- <-] Hr.
  pose proof (pump_run_running _ _ _ _ _ E2 Hr) as Hr1.
  destruct (pump_move_deadline _ _ _ _ _ _ Hd Hdl E1 Hr1) as [Hd1 Hdl1]. by eapply IH.
Qed.

(** Asked to stop, the host leaves. When a signal arrives or the shell
    ends, the terminal is closed at the relay first if it is mirrored; and
    whatever moves the loop makes afterwards, however busy the shell, the
    keyboard and the mirror are, from three seconds later on the arm that
    leaves is armed whenever the loop is not waiting for a send, and it leaves
    without an error. *)
Theorem shutdown_is_bounded interactive now ev moves later (s s1 s2 : Pump) (acts more : list PumpAct) :
  is_idle s = true → pu_shutting_down s = false → ev = PeSignal ∨ ev = PeChunk None ∧ pu_shell_gone s = false →
  now + SHUTDOWN_GRACE ≤ later →
  pump_move interactive (MvArm now ev) s = Some (acts, s1) → pump_run interactive moves s1 = Some (more, s2) →
  (pu_mirror s ≠ None → acts = [AcClosing])
  ∧ (is_idle s2 = true → ∃ s3, pump_move interactive (MvArm later PeDeadline) s2 = Some ([], s3) ∧ pu_exit s3 = Some (Ok ())).
Proof.
  intros Hi Ho Hev Hl Hmove Hrun. destruct s as [cols rows sd sg dl mirror [w|] [ex|]]; [done..|]. cbn in Ho. subst sd.
  assert ((mirror ≠ None → acts = [AcClosing])
    ∧ (is_running s1 = true → pu_shutting_down s1 = true ∧ pu_deadline s1 = Some (now + SHUTDOWN_GRACE))) as [Hc Hs].
  { destruct Hev as [->|[-> Hsg]]; [|cbn in Hsg; subst sg]; destruct mirror as [m|]; cbn in Hmove; injection Hmove as <- <-; done. }
  split; [done|]. intros Hi2.
  assert (is_running s2 = true) as Hr2 by by apply idle_waits in Hi2 as [_ ?].
  pose proof (pump_run_running _ _ _ _ _ Hrun Hr2) as Hr1.
  destruct (Hs Hr1) as [Hd1 Hdl1]. destruct (pump_run_deadline _ _ _ _ _ _ Hd1 Hdl1 Hrun Hr2) as [_ Hdl2].
  eexists. cbn [pump_move]. unfold armed. rewrite Hi2, Hdl2, (proj2 (N.leb_le _ _) Hl). done.
Qed.

(** A signal closes the terminal and waits for the relay to confirm; but output
    in between drops the mirror, with a message that it stopped, and then the
    end of the shell leaves at once. *)
Lemma output_forgets_the_close interactive now t1 t2 chunk cols rows :
  let s := pump_new cols rows (Some true) in
  (∃ acts s1, pump_run interactive [MvArm now PeSignal; MvArm t1 (PeChunk (Some chunk)); MvArm t2 (PeChunk None)] s = Some (acts, s1)
    ∧ last acts = Some (AcTold (lit "mirroring stopped; this terminal still works")) ∧ pu_exit s1 = Some (Ok ()))
  ∧ (∃ acts s1, pump_run interactive [MvArm now PeSignal; MvArm t2 (PeChunk None)] s = Some (acts, s1) ∧ is_running s1 = true).
Proof. destruct interactive; split; do 2 eexists; (split; [reflexivity|done]). Qed.

(** ** What waiting does to the terminal *)

(** The driver has a chunk it may not send yet and its queue is full, and an arm
    waits to hand over more. *)
Record frozen (h : Hosted) : Prop := mkFrozen {
  fz_waits : ∃ m, pu_awaiting (ho_pump h) = Some (AwMirror m);
  fz_full : CHUNK_QUEUE ≤ len (ho_queue h);
  fz_driver : owner_ready (pp_drive (ho_pipe h)) = false ∧ dr_done (pp_drive (ho_pipe h)) = false;
}.
(** Then no arm is polled, neither the keyboard's nor the signals', and nothing
    here moves until the relay or the transport does. *)
Lemma frozen_takes_nothing interactive h h' :
  frozen h → hosted_step interactive h h' → ho_pump h' = ho_pump h ∧ ho_acts h' = ho_acts h ∧ ho_queue h' = ho_queue h.
Proof.
  intros [[m Hw] Hf [Hn Hd]] Hs. destruct Hs as [h now ev acts pump Ha _ _|h w taken acts pump Ha Hsend Es
    |pump acts drawn m' queue read d handed inbox i log Hready _ _|pump acts drawn read d handed inbox i log _ Hready _ _|]; cbn in *.
  - unfold armed, is_idle in Ha. by rewrite Hw in Ha.
  - rewrite Hw in Ha. injection Ha as <-. destruct taken; cbn in Hsend; [lia|]. by rewrite Hd in Hsend.
  - by rewrite Hn in Hready.
  - by rewrite Hn in Hready.
  - done.
Qed.

(** The shell writes once more while the driver's queue has room. *)
Record writing (h : Hosted) (n : nat) (p : Pipe) : Prop := mkWriting {
  wr_idle : is_idle (ho_pump h) = true;
  wr_alive : pu_shell_gone (ho_pump h) = false;
  wr_mirror : pu_mirror (ho_pump h) = Some true;
  wr_queue : length (ho_queue h) = n;
  wr_pipe : ho_pipe h = p;
}.
Lemma write_more interactive (chunk : list byte) h n p :
  writing h n p → dr_done (pp_drive p) = false → (n < 8)%nat →
  ∃ h', rtc (hosted_step interactive) h h' ∧ writing h' (S n) p.
Proof.
  intros [Hi Ha Hm Hq Hp] Hd Hn. destruct h as [pump acts drawn queue read p']. cbn in *. subst p'.
  destruct pump as [cols rows sd sg dl mirror [w|] [ex|]]; [done..|]. cbn in *. subst sg mirror.
  eexists. split.
  - eapply rtc_l; [eapply (hs_pump interactive (mkHosted _ acts drawn queue read p) 0 (PeChunk (Some chunk)));
      [done|done|cbn; reflexivity]|].
    eapply rtc_l; [eapply (hs_sent interactive (mkHosted _ _ _ queue _ p) (AwMirror (FoOutput chunk)) true);
      [done| |cbn; reflexivity]|apply rtc_refl].
    split; [done|]. cbn. unfold len. rewrite Hq. unfold CHUNK_QUEUE. lia.
  - split; cbn; [done..| |done]. rewrite length_app, Hq. cbn. lia.
Qed.
Lemma write_up_to interactive (chunk : list byte) h m p :
  writing h 0 p → dr_done (pp_drive p) = false → (m ≤ 8)%nat →
  ∃ h', rtc (hosted_step interactive) h h' ∧ writing h' m p.
Proof.
  intros Hw Hd. induction m as [|m IH]; intros Hm; [by exists h|].
  destruct IH as (h1 & Hs1 & Hw1); [lia|]. destruct (write_more interactive chunk h1 m p Hw1 Hd) as (h2 & Hs2 & Hw2); [lia|].
  exists h2. split; [by etrans|done].
Qed.
(** It is reached before the relay has been heard of at all, once the shell has
    written ten times. *)
Lemma freezing_is_reachable interactive i (chunk : list byte) :
  len chunk < two63 → ∃ h, rtc (hosted_step interactive) (hosted_new 80 24 i) h ∧ frozen h.
Proof.
  intros Hc. set (d := drive_turn (drive_owner (Some (FoOutput chunk))) drive_new). set (p := mkPipe d chunk [] i []).
  assert (∃ h, rtc (hosted_step interactive) (hosted_new 80 24 i) h ∧ writing h 0 p) as (h0 & Hs0 & Hw0).
  { eexists. split.
    - eapply rtc_l; [eapply (hs_pump interactive (hosted_new 80 24 i) 0 (PeChunk (Some chunk))); [done|done|cbn; reflexivity]|].
      eapply rtc_l; [eapply (hs_sent interactive (mkHosted _ _ _ _ _ (pipe_new i)) (AwMirror (FoOutput chunk)) true); [done|done|cbn; reflexivity]|].
      eapply rtc_l; [apply (hs_hand interactive _ _ _ (FoOutput chunk) [] _ drive_new [] [] i []); done|apply rtc_refl].
    - by split. }
  destruct (write_up_to interactive chunk h0 8 p Hw0 eq_refl ltac:(lia)) as (h1 & Hs1 & [Hi Ha Hm Hq Hp]).
  destruct h1 as [pump acts drawn queue read p']. destruct pump as [cols rows sd sg dl mirror [w|] [ex|]]; [done..|].
  cbn in *. subst sg mirror p'. eexists. split.
  - etrans; [exact Hs0|]. etrans; [exact Hs1|]. eapply rtc_l; [|apply rtc_refl].
    eapply (hs_pump interactive (mkHosted _ acts drawn queue read p) 0 (PeChunk (Some chunk))); [done|done|cbn; reflexivity].
  - split; cbn; [by eexists| |done]. unfold len. by rewrite Hq.
Qed.

(** ** Examples *)

(** The terminal opens, the shell writes [ab], a frame arrives; a phone types
    [c]. *)
Definition example_attached : Drive :=
  drive_turn (drive_event true (Some (EvAttached 1 (i_next_offset example_fresh) example_limits))) drive_new.
Definition example_hosted : Hosted :=
  mkHosted (pump_new 80 24 (Some true)) [AcShown [x61; x62]; AcHanded (FoOutput [x61; x62]); AcTyped true [x63]] [x61; x62] [] 1
    (mkPipe (drive_turn (drive_event true (Some (EvInput [x63]))) example_drive) [x61; x62] [] example_terminal [x61; x62]).
Lemma example_hosted_steps : rtc (hosted_step true) (hosted_new 80 24 example_fresh) example_hosted.
Proof.
  eapply rtc_l; [apply hs_wire, (ps_open _ _ _ _ _ 1 example_limits)|].
  eapply rtc_l; [by apply hs_wire, (ps_event _ _ _ _ _ _ true)|].
  eapply rtc_l; [eapply (hs_pump true (mkHosted _ _ _ _ _ (mkPipe example_attached [] [] example_fresh [])) 0 (PeChunk (Some [x61; x62])));
    [done|done|cbn; reflexivity]|].
  eapply rtc_l; [eapply (hs_sent true (mkHosted _ _ _ _ _ (mkPipe example_attached [] [] example_fresh [])) _ true); [done|done|cbn; reflexivity]|].
  eapply rtc_l; [apply (hs_hand true _ _ _ (FoOutput [x61; x62]) [] _ example_attached [] [] example_fresh []); vm_compute; reflexivity|].
  eapply rtc_l.
  { apply hs_wire. refine (ps_frame _ [x61; x62] [] example_fresh [] 0 [x61; x62] 9 1024 (Accepted 2 0) _ _ _);
      [vm_compute; left|vm_compute; reflexivity]. }
  eapply rtc_l; [apply hs_wire, (ps_tell _ _ _ _ _ (EvInput [x63])); done|].
  eapply rtc_l; [apply hs_wire, (ps_event _ _ _ _ _ _ true); vm_compute; reflexivity|].
  eapply rtc_l; [eapply (hs_pump true (mkHosted _ _ _ _ _ _) 0 (PeNotice (Some (NtInput [x63]))));
    [done|vm_compute; reflexivity|cbn; reflexivity]|].
  eapply rtc_l; [eapply (hs_sent true (mkHosted _ _ _ _ _ _) (AwShell true [x63]) true); [done|done|cbn; reflexivity]|].
  apply rtc_refl.
Qed.

(** Output goes out while the mirror has just gone; a key is pressed. *)
Definition example_moves : list PumpMove :=
  [MvArm 0 (PeChunk (Some [x61])); MvSent false; MvArm 2 (PeKeyboard (Ok [x62])); MvSent true;
   MvArm 3 (PeKeyboard (Ok [x63]))].
Lemma mirror_loss_spares_the_shell_witness :
  let r := default ([], pump_new 80 24 None) (pump_run true example_moves (pump_new 80 24 (Some true))) in
  to_shell false r.2 = [x63]
  ∧ is_running r.2 = true ∧ shown r.1 = [x61] ∧ typed false r.1 ++ to_shell false r.2 = [x62; x63] ∧ serving r.2.
Proof.
  intros r. split; [reflexivity|].
  apply (mirror_loss_spares_the_shell example_moves (pump_new 80 24 (Some true)) r.1 r.2);
    [by constructor|done| |reflexivity].
  repeat (split; [done|]; intros ? ?; vm_compute; intros [= <- <-]). done.
Defined.
Lemma shutdown_is_bounded_witness :
  let r1 := default ([], pump_new 80 24 None) (pump_move true (MvArm 10 (PeChunk None)) (pump_new 80 24 (Some true))) in
  let r2 := default ([], pump_new 80 24 None) (pump_run true [MvArm 20 (PeKeyboard (Ok [x62])); MvSent true] r1.2) in
  (Some true ≠ None → r1.1 = [AcClosing])
  ∧ (is_idle r2.2 = true → ∃ s3, pump_move true (MvArm 3010 PeDeadline) r2.2 = Some ([], s3) ∧ pu_exit s3 = Some (Ok ())).
Proof.
  intros r1 r2.
  apply (shutdown_is_bounded true 10 (PeChunk None) [MvArm 20 (PeKeyboard (Ok [x62])); MvSent true] 3010
    (pump_new 80 24 (Some true)) r1.2 r2.2 r1.1 r2.1); [done|done|by right|done|reflexivity|reflexivity].
Defined.
