(* ===== verification/Listener.v ===== *)
(** * Listeners and shutdown ([server/src/server.rs])

    [Supervisor] is what [supervise] keeps between its awaits, with the accept
    loop of the generation it serves; [supervisor_turn] is one arm of one of its
    selects, with the answers of the TLS files and of the socket as arguments.
    [shutdown] is the registry's part of a graceful shutdown: its stages, in
    order. TLS, sockets and HTTP are outside. *)

From S2P Require Export SettingsStore Flush.

Open Scope N_scope.
Open Scope hype_scope.

Record ListenerConfig := mkListenerConfig {
  lc_address : text;
  lc_tls_enabled : bool;
  lc_certificate_path : text;
  lc_private_key_path : text;
}.
#[export] Instance ListenerConfig_eq_dec : EqDecision ListenerConfig.
Proof. solve_decision. Defined.

Definition listener_main `{JsonText} (sn : Snapshot) : ListenerConfig :=
  mkListenerConfig (sn_string keys.SERVER_LISTEN_ADDRESS sn) (sn_bool keys.SERVER_TLS_ENABLED sn)
    (sn_string keys.SERVER_TLS_CERTIFICATE_PATH sn) (sn_string keys.SERVER_TLS_PRIVATE_KEY_PATH sn).
Definition listener_health `{JsonText} (sn : Snapshot) : ListenerConfig :=
  mkListenerConfig (sn_string keys.SERVER_HEALTH_LISTEN_ADDRESS sn) false [] [].

(** ** One listener *)

(** One call of [accept_loop]: its permits and the connections that hold one. *)
Record Generation := mkGeneration {
  gn_config : ListenerConfig;
  gn_limit : N;
  gn_handshake_timeout : N;
  gn_open : N;
}.
Definition with_open (n : N) (g : Generation) : Generation :=
  mkGeneration (gn_config g) (gn_limit g) (gn_handshake_timeout g) n.
(** An accepted connection: served if a permit is free, dropped otherwise. *)
Definition accept_one (g : Generation) : bool * Generation :=
  if gn_open g <? gn_limit g then (true, with_open (gn_open g + 1) g) else (false, g).

(** ** The supervisor *)

Inductive Wait := WaitDisabled | WaitTls | WaitBind.
Inductive Phase :=
| PhBegin
| PhWaiting (w : Wait)
| PhServing (g : Generation)
| PhDraining (g : Generation) (rebind : bool)
| PhStopped.
(** The watch channels: the settings by version, and whether the shutdown was
    sent. *)
Record ListenerWorld := mkListenerWorld {
  lw_version : N;
  lw_snapshot : Snapshot;
  lw_shutdown : bool;
}.
(** [su_stale]: connections that outlived the drain of their generation. *)
Record Supervisor := mkSupervisor {
  su_phase : Phase;
  su_seen : N;
  su_stale : N;
  su_rebinds : N;
}.
Definition supervisor_new (w : ListenerWorld) : Supervisor := mkSupervisor PhBegin (lw_version w) 0 0.
Definition with_phase (p : Phase) (s : Supervisor) : Supervisor := mkSupervisor p (su_seen s) (su_stale s) (su_rebinds s).
Definition with_seen (v : N) (s : Supervisor) : Supervisor := mkSupervisor (su_phase s) v (su_stale s) (su_rebinds s).

Inductive SupervisorEvent :=
(** The head of the loop, with what the TLS files and the socket answer. *)
| SeBegin (tls_loads binds : bool)
| SeSettings
| SeTimer
| SeShutdown
| SeAccepted
| SeClosed
| SeDrained (timed_out : bool).

Section supervise.
Context (build_config : Snapshot → ListenerConfig).

Definition begin_listener (tls_loads binds : bool) (w : ListenerWorld) : Phase :=
  let sn := lw_snapshot w in
  let config := build_config sn in
  if is_empty (trim (lc_address config)) then PhWaiting WaitDisabled
  else if lc_tls_enabled config && negb tls_loads then PhWaiting WaitTls
  else if negb binds then PhWaiting WaitBind
  else PhServing (mkGeneration config (N.max (sn_usize keys.SERVER_MAX_CONCURRENT_CONNECTIONS sn) 1)
                    (sn_duration_secs keys.WEBSOCKET_HANDSHAKE_TIMEOUT_SECONDS sn) 0).
(** [None]: the arm cannot fire. *)
Definition supervisor_turn (ev : SupervisorEvent) (w : ListenerWorld) (s : Supervisor) : option Supervisor :=
  match su_phase s, ev with
  | PhBegin, SeBegin tls_loads binds => Some (with_phase (begin_listener tls_loads binds w) s)
  | PhWaiting _, SeSettings =>
      if su_seen s =? lw_version w then None else Some (with_phase PhBegin (with_seen (lw_version w) s))
  | PhWaiting WaitBind, SeTimer => Some (with_phase PhBegin s)
  | PhWaiting _, SeShutdown => if lw_shutdown w then Some (with_phase PhStopped s) else None
  | PhServing g, SeAccepted => Some (with_phase (PhServing (accept_one g).2) s)
  | PhServing g, SeClosed => if gn_open g =? 0 then None else Some (with_phase (PhServing (with_open (gn_open g - 1) g)) s)
  | PhServing g, SeSettings =>
      if su_seen s =? lw_version w then None
      else
        let s := with_seen (lw_version w) s in
        if bool_decide (build_config (lw_snapshot w) = gn_config g) then Some s else Some (with_phase (PhDraining g true) s)
  | PhServing g, SeShutdown => if lw_shutdown w then Some (with_phase (PhDraining g false) s) else None
  | PhDraining g rebind, SeClosed =>
      if gn_open g =? 0 then None else Some (with_phase (PhDraining (with_open (gn_open g - 1) g) rebind) s)
  | PhDraining g rebind, SeDrained timed_out =>
      if negb timed_out && negb (gn_open g =? 0) then None
      else
        Some (mkSupervisor (if rebind then PhBegin else PhStopped) (su_seen s) (su_stale s + gn_open g)
                (if rebind then su_rebinds s + 1 else su_rebinds s))
  | _, _ => None
  end.
Fixpoint supervisor_run (evs : list SupervisorEvent) (w : ListenerWorld) (s : Supervisor) : option Supervisor :=
  match evs with
  | [] => Some s
  | ev :: evs => match supervisor_turn ev w s with Some s => supervisor_run evs w s | None => None end
  end.

(** The supervisor among the settings' and the shutdown's senders. *)
Inductive listener_step : ListenerWorld * Supervisor → ListenerWorld * Supervisor → Prop :=
| ls_turn ev w s s' : supervisor_turn ev w s = Some s' → listener_step (w, s) (w, s')
| ls_settings w s sn :
    listener_step (w, s) (mkListenerWorld (lw_version w + 1) sn (lw_shutdown w), s)
| ls_shutdown w s : listener_step (w, s) (mkListenerWorld (lw_version w) (lw_snapshot w) true, s)
| ls_stale w s :
    0 < su_stale s → listener_step (w, s) (w, mkSupervisor (su_phase s) (su_seen s) (su_stale s - 1) (su_rebinds s)).
End supervise.

(** ** Shutting down *)

(** What the other tasks do while [shutdown] awaits: the flush lock of its [i]th
    flush, the attempts to commit of that flush, and the quarter of a second
    before the connections are told. *)
Record ShutdownOthers := mkShutdownOthers {
  so_lock : nat → Registry → Registry;
  so_commit : nat → nat → Registry → Registry;
  so_notice : Registry → Registry;
}.
(** Between two of these stages the deadline may pass. *)
Definition shutdown_stages (o : ShutdownOthers) (now : nat → N) : list (Registry → Registry) :=
  [so_lock o 0; λ g, (flush_once (so_commit o 0) (now 0%nat) g).2; so_notice o;
   terminate_all termination_server_shutdown;
   so_lock o 1; λ g, (flush_once (so_commit o 1) (now 1%nat) g).2].
Definition shutdown_until (o : ShutdownOthers) (now : nat → N) (reached : nat) (g : Registry) : Registry :=
  foldl (λ g stage, stage g) (begin_shutdown g) (take reached (shutdown_stages o now)).
(** [shutdown]: the dirty bytes it reports, and the registry; [reached] stages
    are done when the deadline passes. A flush that the deadline cuts in half is
    one that was not reached: what its transaction may still commit is not
    acknowledged by this process any more. *)
Definition shutdown (o : ShutdownOthers) (now : nat → N) (reached : nat) (g : Registry) : N * Registry :=
  let g := shutdown_until o now reached g in
  (ds_total_dirty_bytes (dirty_stats (now 2%nat) g), g).
