(* ===== verification/ListenerProps.v ===== *)
(** * Theorems about listeners and shutdown

    A listener follows the settings, recovers after any failure at the next
    change, and keeps within the connections of its socket; a graceful shutdown
    that is not cut short leaves uncommitted only what is written during its last
    flush, unless the storage fails. *)

From S2P Require Export Listener.

Open Scope N_scope.
Open Scope hype_scope.

Section supervise.
Context (build : Snapshot → ListenerConfig).

(** ** The invariant *)

Definition phase_ok (w : ListenerWorld) (s : Supervisor) : Prop :=
  match su_phase s with
  | PhServing g => (su_seen s = lw_version w → gn_config g = build (lw_snapshot w)) ∧ gn_open g ≤ gn_limit g
  | PhWaiting WaitDisabled => su_seen s = lw_version w → is_empty (trim (lc_address (build (lw_snapshot w)))) = true
  | PhDraining g rebind => gn_open g ≤ gn_limit g ∧ (rebind = false → lw_shutdown w = true)
  | PhStopped => lw_shutdown w = true
  | _ => True
  end.
Definition listener_inv (x : ListenerWorld * Supervisor) : Prop := su_seen x.2 ≤ lw_version x.1 ∧ phase_ok x.1 x.2.

Lemma begin_ok tls_loads binds w s : phase_ok w (with_phase (begin_listener build tls_loads binds w) s).
Proof.
  unfold phase_ok, begin_listener. cbn. destruct (is_empty _) eqn:E; [done|]. destruct (_ && _); [done|]. destruct (negb binds); [done|].
  cbn. split; [done|lia].
Qed.
Lemma turn_inv ev w s s' : supervisor_turn build ev w s = Some s' → listener_inv (w, s) → listener_inv (w, s').
Proof.
  intros Ht [Hv Hp]. cbn in Hv. destruct s as [phase seen stale rebinds]. unfold phase_ok in Hp. cbn in Hv, Hp.
  destruct phase as [|[]|g|g rebind|], ev as [tls binds| | | | | |timed]; cbn in Ht; try done;
    repeat (match type of Ht with context [if ?b then _ else _] => destruct b eqn:? end; try done); injection Ht as <-;
    (split; [cbn; try done; lia|]); try apply begin_ok; unfold phase_ok, with_phase, with_seen; cbn; try done.
  - apply bool_decide_eq_true in Heqb0. by destruct Hp.
  - by destruct Hp.
  - by destruct Hp.
  - unfold accept_one. destruct Hp as [H1 H2]. destruct (N.ltb_spec (gn_open g) (gn_limit g)); cbn; split; try done; lia.
  - destruct Hp. split; [done|lia].
  - destruct Hp. split; [lia|done].
  - destruct Hp as [_ Hp]. destruct rebind; [done|]. by apply Hp.
Qed.
Lemma listener_step_inv x y : listener_step build x y → listener_inv x → listener_inv y.
Proof.
  intros Hs. destruct Hs as [ev w s s' Ht|w s sn|w s|w s Hst].
  - by eapply turn_inv.
  - intros [Hv Hp]. cbn in Hv. split; [cbn; lia|]. unfold phase_ok in *. cbn in *.
    destruct (su_phase s) as [|[]|g|g rebind|]; try done; [lia|]. destruct Hp. split; [lia|done].
  - intros [Hv Hp]. split; [done|]. unfold phase_ok in *. cbn in *. by destruct (su_phase s) as [|[]|g|g []|]; try done; destruct Hp.
  - done.
Qed.
Lemma listener_steps_inv x y : rtc (listener_step build) x y → listener_inv x → listener_inv y.
Proof. intros Hs. induction Hs as [x|x y z Hxy _ IH]; [done|]. intros Hx. apply IH. by eapply listener_step_inv. Qed.
Lemma supervisor_new_inv w : listener_inv (w, supervisor_new w).
Proof. by split. Qed.

(** C37: a listener follows the settings. Whatever the order of settings
    changes, failures and connections: a supervisor that has seen the current
    settings and is serving serves exactly the address and TLS files they name;
    one that waits because it is disabled has a blank address; and one that is
    stopping was told to. The connections accepted on the current socket never
    exceed the limit that was in force when it was bound. That is not a limit on
    all connections: those that outlived the drain of an earlier socket come on
    top ([limit_is_per_socket]), and a new limit waits for the next socket
    ([new_limit_is_not_applied]). *)
Theorem listener_follows_settings w0 w s :
  rtc (listener_step build) (w0, supervisor_new w0) (w, s) →
  match su_phase s with
  | PhServing g => (su_seen s = lw_version w → gn_config g = build (lw_snapshot w)) ∧ gn_open g ≤ gn_limit g
  | PhWaiting WaitDisabled => su_seen s = lw_version w → is_empty (trim (lc_address (build (lw_snapshot w)))) = true
  | PhDraining g rebind => gn_open g ≤ gn_limit g ∧ (rebind = false → lw_shutdown w = true)
  | PhStopped => lw_shutdown w = true
  | _ => True
  end.
Proof. intros Hs. by destruct (listener_steps_inv _ _ Hs (supervisor_new_inv w0)) as [_ Hp]. Qed.

Lemma run_turn ev evs w s s1 r :
  supervisor_turn build ev w s = Some s1 → supervisor_run build evs w s1 = r → supervisor_run build (ev :: evs) w s = r.
Proof. intros E1 E2. cbn. by rewrite E1. Qed.
Lemma begin_run w s :
  su_phase s = PhBegin → is_empty (trim (lc_address (build (lw_snapshot w)))) = false →
  ∃ s' g, supervisor_run build [SeBegin true true] w s = Some s' ∧ su_phase s' = PhServing g ∧ gn_config g = build (lw_snapshot w).
Proof.
  intros Hp Ha. eexists _, _. split.
  - eapply run_turn; [unfold supervisor_turn; rewrite Hp; reflexivity|reflexivity].
  - unfold begin_listener. rewrite Ha, andb_false_r. by cbn.
Qed.

(** A listener recovers. From any reachable state of a relay that is not
    shutting down, after a change of the settings that gives an address, whose
    TLS files load and whose socket binds, at most three turns of the
    supervisor lead to serving that address, whether it was serving another
    one, draining, disabled, or waiting after a failure. *)
Theorem listener_recovers w0 w s :
  rtc (listener_step build) (w0, supervisor_new w0) (w, s) →
  lw_shutdown w = false → su_seen s ≠ lw_version w → is_empty (trim (lc_address (build (lw_snapshot w)))) = false →
  ∃ evs s' g, (length evs ≤ 3)%nat ∧ supervisor_run build evs w s = Some s'
    ∧ su_phase s' = PhServing g ∧ gn_config g = build (lw_snapshot w).
Proof.
  intros Hs Hd Hv%N.eqb_neq Ha. destruct (listener_steps_inv _ _ Hs (supervisor_new_inv w0)) as [_ Hp]. unfold phase_ok in Hp. cbn in Hp.
  destruct (su_phase s) as [|wait|g|g rebind|] eqn:Ep.
  - destruct (begin_run w s Ep Ha) as (s' & g & Hr & Hg). exists [SeBegin true true], s', g. cbn [length]. by split; [lia|].
  - destruct (begin_run w (with_phase PhBegin (with_seen (lw_version w) s)) eq_refl Ha) as (s' & g & Hr & Hg).
    exists [SeSettings; SeBegin true true], s', g. cbn [length]. split; [lia|]. split; [|done].
    eapply run_turn; [|exact Hr]. unfold supervisor_turn. rewrite Ep, Hv. by destruct wait.
  - destruct (bool_decide (build (lw_snapshot w) = gn_config g)) eqn:Eb.
    + exists [SeSettings], (with_seen (lw_version w) s), g. cbn [length]. split; [lia|]. split; [|by apply bool_decide_eq_true in Eb].
      eapply run_turn; [|reflexivity]. unfold supervisor_turn. by rewrite Ep, Hv, Eb.
    + destruct (begin_run w (mkSupervisor PhBegin (lw_version w) (su_stale s + gn_open g) (su_rebinds s + 1)) eq_refl Ha)
        as (s' & g' & Hr & Hg).
      exists [SeSettings; SeDrained true; SeBegin true true], s', g'. cbn [length]. split; [lia|]. split; [|done].
      eapply run_turn; [unfold supervisor_turn; rewrite Ep, Hv, Eb; reflexivity|]. eapply run_turn; [reflexivity|exact Hr].
  - destruct rebind; [|destruct Hp as [_ Hp]; specialize (Hp eq_refl); congruence].
    destruct (begin_run w (mkSupervisor PhBegin (su_seen s) (su_stale s + gn_open g) (su_rebinds s + 1)) eq_refl Ha) as (s' & g' & Hr & Hg).
    exists [SeDrained true; SeBegin true true], s', g'. cbn [length]. split; [lia|]. split; [|done].
    eapply run_turn; [unfold supervisor_turn; rewrite Ep; reflexivity|exact Hr].
  - congruence.
Qed.

(** A change whose TLS files do not load stops the old listener before the new
    one is refused: nothing listens, and no time passes it by. *)
Lemma failed_rebind_stops_listening w s g b :
  su_phase s = PhServing g → su_seen s ≠ lw_version w → build (lw_snapshot w) ≠ gn_config g →
  lc_tls_enabled (build (lw_snapshot w)) = true → is_empty (trim (lc_address (build (lw_snapshot w)))) = false →
  ∃ s', supervisor_run build [SeSettings; SeDrained true; SeBegin false b] w s = Some s' ∧ su_phase s' = PhWaiting WaitTls
    ∧ (∀ ev, lw_shutdown w = false → supervisor_turn build ev w s' = None).
Proof.
  intros Ep Hv%N.eqb_neq Hne Ht Ha. assert (bool_decide (build (lw_snapshot w) = gn_config g) = false) as Eb by by apply bool_decide_eq_false.
  eexists. split.
  - eapply run_turn; [unfold supervisor_turn; rewrite Ep, Hv, Eb; reflexivity|]. eapply run_turn; [reflexivity|].
    eapply run_turn; [reflexivity|reflexivity].
  - unfold begin_listener. cbn. rewrite Ha, Ht. cbn. split; [done|]. intros ev Hd. unfold supervisor_turn. cbn.
    rewrite Hd, N.eqb_refl. by destruct ev.
Qed.
(** A new limit on connections does not reach a listener that serves. *)
Lemma new_limit_is_not_applied w s g :
  su_phase s = PhServing g → build (lw_snapshot w) = gn_config g → su_seen s ≠ lw_version w →
  ∃ s', supervisor_turn build SeSettings w s = Some s' ∧ su_phase s' = PhServing g.
Proof.
  intros Ep Eb Hv%N.eqb_neq. eexists. unfold supervisor_turn. rewrite Ep, Hv, bool_decide_eq_true_2 by done. by split.
Qed.
End supervise.

(** ** Shutting down *)

(** Nothing uncommitted. *)
Definition all_durable (g : Registry) : Prop :=
  ∀ id loc h, g_terminals g !! id = Some loc → g_handles g !! loc = Some h →
    i_durable_offset (h_inner h) = i_next_offset (h_inner h).

Lemma commit_durable_next target closed i : i_next_offset (term_commit_durable target closed i) = i_next_offset i.
Proof.
  assert (∀ (b : bool) i1, i_next_offset (if b then set_dirty_since None i1 else i1) = i_next_offset i1) as Hif by by intros [].
  unfold term_commit_durable. cbv zeta. destruct closed as [reason|]; cbn -[fan_out]; rewrite ?fan_out_next; cbn -[fan_out];
    rewrite Hif; destruct (i_durable_offset i <? target); [by rewrite fan_out_next|done|by rewrite fan_out_next|done].
Qed.
Lemma publish_next g ps loc h :
  g_handles (foldl publish_checkpoint g ps) !! loc = Some h →
  ∃ h0, g_handles g !! loc = Some h0 ∧ i_next_offset (h_inner h) = i_next_offset (h_inner h0).
Proof.
  revert g. induction ps as [|p ps IH]; intros g; cbn [foldl]; [by exists h|]. intros (h1 & Hh1 & ->)%IH.
  unfold publish_checkpoint, resident in Hh1. destruct (g_terminals g !! pc_terminal_id p) as [l|]; [|by exists h1].
  cbn in Hh1. destruct (decide (l = loc)) as [->|Hne]; [|rewrite lookup_alter_ne in Hh1 by done; by exists h1].
  rewrite lookup_alter_eq in Hh1. destruct (g_handles g !! loc) as [h0|]; [|done]. injection Hh1 as <-. exists h0.
  split; [done|]. apply commit_durable_next.
Qed.
Lemma publish_terminals g ps :
  g_terminals (foldl publish_checkpoint g ps) = g_terminals g ∧ g_shutting_down (foldl publish_checkpoint g ps) = g_shutting_down g.
Proof.
  revert g. induction ps as [|p ps IH]; intros g; [done|]. cbn [foldl]. destruct (IH (publish_checkpoint g p)) as [-> ->].
  unfold publish_checkpoint. by destruct (resident _ g).
Qed.
Lemma publish_other g ps id loc :
  handles_ok g → (∀ p, p ∈ ps → pc_terminal_id p ≠ id) → g_terminals g !! id = Some loc →
  g_handles (foldl publish_checkpoint g ps) !! loc = g_handles g !! loc.
Proof.
  revert g. induction ps as [|p ps IH]; intros g Hok Hps Hid; [done|]. cbn [foldl].
  assert (handles_ok (publish_checkpoint g p) ∧ g_terminals (publish_checkpoint g p) = g_terminals g
    ∧ g_handles (publish_checkpoint g p) !! loc = g_handles g !! loc) as (Hok1 & Ht & Hh).
  { unfold publish_checkpoint, resident. destruct (g_terminals g !! pc_terminal_id p) as [l|] eqn:El; [|done].
    split; [by apply on_handle_handles_ok|]. split; [done|]. cbn. apply lookup_alter_ne. intros ->.
    apply (Hps p); [by left|]. by eapply resident_inj. }
  rewrite (IH _ Hok1); [done| |by rewrite Ht]. intros q Hq. apply Hps. by right.
Qed.
Lemma quiet_attempts between now batch max_backoff remaining attempt backoff last_error g r slept g' :
  (∀ k g, between k g = g) →
  commit_attempts between now batch max_backoff remaining attempt backoff last_error g = (r, slept, g') →
  g_handles g' = g_handles g ∧ g_terminals g' = g_terminals g ∧ g_shutting_down g' = g_shutting_down g ∧ g_next_loc g' = g_next_loc g.
Proof.
  intros Hb. revert attempt backoff last_error g r slept g'.
  induction remaining as [|remaining IH]; intros attempt backoff last_error g r slept g'; cbn [commit_attempts].
  { by intros [= _ _ <-]. }
  rewrite Hb.
  assert (∀ x g1, db_call (commit_checkpoints now (clone_batch batch)) g = (x, g1) →
    g_handles g1 = g_handles g ∧ g_terminals g1 = g_terminals g ∧ g_shutting_down g1 = g_shutting_down g
    ∧ g_next_loc g1 = g_next_loc g) as Hdb.
  { intros x g1. unfold db_call. destruct (g_faults g) as [|[e|] fs]; cbn; [|by intros [= _ <-]|];
      (destruct (commit_checkpoints _ _ _) as [[n tb]|e]; by intros [= _ <-]). }
  destruct (db_call _ g) as [[n|e] g1]; pose proof (Hdb _ _ eq_refl) as (H1 & H2 & H3 & H4); [by intros [= _ _ <-]|].
  destruct remaining as [|remaining].
  - intros E. destruct (IH _ _ _ _ _ _ _ E) as (-> & -> & -> & ->). done.
  - destruct (commit_attempts _ _ _ _ (S remaining) _ _ _ g1) as [[r1 slept1] g2] eqn:E. intros [= _ _ <-].
    destruct (IH _ _ _ _ _ _ _ E) as (-> & -> & -> & ->). done.
Qed.

(** What is not in the batch has nothing to save. *)
Lemma not_pending_clean now logs g id loc h :
  flush_inv logs g → g_terminals g !! id = Some loc → g_handles g !! loc = Some h → ¬ is_pending now g id →
  i_durable_offset (h_inner h) = i_next_offset (h_inner h).
Proof.
  intros Hinv Hid Hh Hnot. pose proof (fl_handles _ _ Hinv) as Hok.
  destruct (fl_repr _ _ Hinv _ _ _ Hid Hh) as (log & e & _ & (_ & Hn & Hd) & _).
  destruct (term_take_checkpoint (h_terminal_id h) now (h_inner h)) as [p|] eqn:Et.
  - exfalso. apply Hnot. exists p. split.
    + unfold take_pending, resident_handles. apply list_elem_of_omap. exists loc. split; [|by rewrite Hh].
      apply list_elem_of_fmap. exists (id, loc). split; [done|]. by apply elem_of_map_to_list.
    + rewrite (take_checkpoint_id _ _ _ _ Et). destruct (hok_resident _ Hok _ _ Hid) as (h' & Hh' & <-). congruence.
  - revert Et. unfold term_take_checkpoint. destruct (i_durable_offset (h_inner h) <? i_next_offset (h_inner h)) eqn:El; [done|].
    intros _. apply N.ltb_ge in El. lia.
Qed.

(** Without a failure every flush that nobody interferes with leaves everything
    durable. *)
Lemma flush_quiet between now logs g n g' :
  (∀ k g, between k g = g) → flush_inv logs g → flush_once between now g = (n, g') →
  ∃ logs', flush_inv logs' g' ∧ g_shutting_down g' = g_shutting_down g ∧ (g_storage_failing g' = false → all_durable g').
Proof.
  intros Hb Hinv E. pose proof (fl_handles _ _ Hinv) as Hok.
  destruct (flush_once_agrees between now logs g g' n Hinv) as (logs' & Hinv' & Hdone); [|done|].
  { intros k logs1 g1 H1. exists logs1. rewrite Hb. by apply others_ok_refl. }
  exists logs'. split; [done|].
  assert (∀ id loc h, g_terminals g !! id = Some loc → g_handles g !! loc = Some h →
    (∀ p, p ∈ take_pending now g → pc_terminal_id p ≠ id) → i_durable_offset (h_inner h) = i_next_offset (h_inner h)) as Hclean.
  { intros id loc h Hid Hh Hnot. eapply (not_pending_clean now); [exact Hinv|exact Hid|exact Hh|]. intros (p & Hp & E'). by eapply Hnot. }
  unfold flush_once in E. destruct (is_empty (take_pending now g)) eqn:Ee.
  { injection E as <- <-. split; [done|]. intros _ id loc h Hid Hh. apply (Hclean id loc h Hid Hh). intros p Hp.
    destruct (take_pending now g); [by apply not_elem_of_nil in Hp|done]. }
  destruct (commit_with_retry _ _ _ _) as [[r slept] g1] eqn:Ec. apply quiet_attempts in Ec as (Eh & Et & Es & En); [|done].
  destruct r as [rows|e]; injection E as <- <-; [|split; [by cbn|by cbn]].
  destruct (publish_terminals g1 (take_pending now g)) as [Et' Es']. cbn [g_shutting_down set_storage_failing put_storage_failing].
  split; [by rewrite Es'|]. intros _ id loc h' Hid Hh'. cbn in Hid, Hh'. rewrite Et', Et in Hid.
  destruct (publish_next _ _ _ _ Hh') as (h & Hh & Hnext). rewrite Eh in Hh.
  destruct (decide (Exists (λ p, pc_terminal_id p = id) (take_pending now g))) as [Hex|Hnone].
  - apply Exists_exists in Hex as (p & Hp & <-). destruct (Hdone p Hp) as (loc1 & h1 & h2 & Hl & Hh1 & _ & Hh2 & Hd).
    cbn in Hh2, Hd. assert (loc1 = loc) as -> by congruence. destruct Hd as [Hd _]. congruence.
  - rewrite (publish_other g1 _ id loc) in Hh'; [|by destruct Hok; split; rewrite ?Eh, ?Et, ?En| |by rewrite Et].
    + rewrite Eh in Hh'. apply (Hclean id loc h' Hid Hh'). intros p Hp Heq. apply Hnone, Exists_exists. by exists p.
    + intros p Hp Heq. apply Hnone, Exists_exists. by exists p.
Qed.

(** Telling the connections leaves the terminals as they are. *)
Definition same_terminal (h h' : TerminalHandle) : Prop :=
  h_terminal_id h' = h_terminal_id h ∧ i_ring (h_inner h') = i_ring (h_inner h)
  ∧ i_next_offset (h_inner h') = i_next_offset (h_inner h) ∧ i_durable_offset (h_inner h') = i_durable_offset (h_inner h).
Lemma same_terminal_refl h : same_terminal h h.
Proof. done. Qed.
Record same_terminals (g g' : Registry) : Prop := mkSameTerminals {
  sm_terminals : g_terminals g' = g_terminals g;
  sm_db : g_db g' = g_db g;
  sm_next : g_next_loc g' = g_next_loc g;
  sm_shutdown : g_shutting_down g' = g_shutting_down g;
  sm_back : ∀ loc h', g_handles g' !! loc = Some h' → ∃ h, g_handles g !! loc = Some h ∧ same_terminal h h';
  sm_there : ∀ loc h, g_handles g !! loc = Some h → ∃ h', g_handles g' !! loc = Some h' ∧ same_terminal h h';
}.
Lemma same_terminals_inv logs g g' : flush_inv logs g → same_terminals g g' → flush_inv logs g'.
Proof.
  intros [[Hres Hfresh] Hrepr] [Et Ed En _ Hback Hthere]. split; [split|].
  - intros id loc Hid. rewrite Et in Hid. destruct (Hres _ _ Hid) as (h & Hh & Ei). destruct (Hthere _ _ Hh) as (h' & Hh' & Es & _).
    exists h'. split; [done|congruence].
  - intros loc h' Hh'. destruct (Hback _ _ Hh') as (h & Hh & _). rewrite En. by eapply Hfresh.
  - intros id loc h' Hid Hh'. rewrite Et in Hid. destruct (Hback _ _ Hh') as (h & Hh & _ & Er & Enx & Edu).
    destruct (Hrepr _ _ _ Hid Hh) as (log & e & Hl & Ht & He & Hst). exists log, e. rewrite Er, Edu, Ed. split_and!; [done| |done|done].
    destruct Ht as (Hr & Hn & Hd). split_and!; [by rewrite Er|congruence|by rewrite Edu].
Qed.
Lemma same_terminals_trans g1 g2 g3 : same_terminals g1 g2 → same_terminals g2 g3 → same_terminals g1 g3.
Proof.
  intros [T1 D1 N1 S1 B1 F1] [T2 D2 N2 S2 B2 F2]. split; try congruence.
  - intros loc h3 (h2 & Hh2 & Hs2)%B2. destruct (B1 _ _ Hh2) as (h1 & Hh1 & Hs1). exists h1. split; [done|].
    destruct Hs1 as (? & ? & ? & ?), Hs2 as (? & ? & ? & ?). split_and!; congruence.
  - intros loc h1 (h2 & Hh2 & Hs2)%F1. destruct (F2 _ _ Hh2) as (h3 & Hh3 & Hs3). exists h3. split; [done|].
    destruct Hs3 as (? & ? & ? & ?), Hs2 as (? & ? & ? & ?). split_and!; congruence.
Qed.
Lemma same_terminals_refl g : same_terminals g g.
Proof. split; eauto using same_terminal_refl. Qed.
Lemma terminate_one loc t g : same_terminals g (on_handle loc (term_terminate_subscribers t) g).
Proof.
  split; [done..| |].
  - intros l h'. cbn. destruct (decide (loc = l)) as [->|Hne]; [|rewrite lookup_alter_ne by done; eauto using same_terminal_refl].
    rewrite lookup_alter_eq. destruct (g_handles g !! l) as [h|]; [|done]. intros [= <-]. by exists h.
  - intros l h Hh. cbn. destruct (decide (loc = l)) as [->|Hne]; [|rewrite lookup_alter_ne by done; eauto using same_terminal_refl].
    rewrite lookup_alter_eq, Hh. by eexists.
Qed.
Lemma terminate_all_same t g : same_terminals g (terminate_all t g).
Proof.
  unfold terminate_all.
  assert (∀ locs g, same_terminals g (foldl (λ g loc, on_handle loc (term_terminate_subscribers t) g) g locs)) as H1.
  { induction locs as [|loc locs IH]; intros g1; [apply same_terminals_refl|]. cbn [foldl].
    eapply same_terminals_trans; [apply terminate_one|apply IH]. }
  assert (∀ slots g, same_terminals g (foldl (λ g slot, notify_supersede slot g) g slots)) as H2.
  { induction slots as [|slot slots IH]; intros g1; [apply same_terminals_refl|]. cbn [foldl].
    eapply same_terminals_trans; [|apply IH]. split; eauto using same_terminal_refl. }
  eapply same_terminals_trans; [apply H1|apply H2].
Qed.

(** Without anything dirty there is no dirty byte to report. *)
Lemma all_durable_total now g : all_durable g → handles_ok g → ds_total_dirty_bytes (dirty_stats now g) = 0.
Proof.
  intros Hd Hok. unfold dirty_stats.
  assert (∀ hs acc, acc.1.1 = 0 → Forall (λ h, term_dirty_bytes (h_inner h) = 0) hs →
    (foldl (λ '(total, oldest, pending) h,
      let i := h_inner h in
      (total +₆₄ term_dirty_bytes i,
       match i_dirty_since i with
       | Some since => let age := now - since in Some (from_option (λ current, N.max current age) age oldest)
       | None => oldest
       end,
       is_closing (i_lifecycle i) || pending)) acc hs).1.1 = 0) as Hfold.
  { induction hs as [|h hs IH]; intros [[total oldest] pending] Ha Hf; [done|]. cbn [foldl]. inv Hf.
    apply IH; [|done]. cbn. cbn in Ha. subst total. by rewrite H1. }
  assert (Forall (λ h, term_dirty_bytes (h_inner h) = 0) (omap (λ loc, g_handles g !! loc) (resident_handles g))) as Hall.
  { apply Forall_forall. intros h (loc & Hloc & Hh)%list_elem_of_omap. unfold resident_handles in Hloc.
    apply list_elem_of_fmap in Hloc as ([id l] & -> & Hin). apply elem_of_map_to_list in Hin. cbn in Hh.
    unfold term_dirty_bytes. rewrite (Hd _ _ _ Hin Hh). lia. }
  pose proof (Hfold _ (0, None, false) eq_refl Hall) as Ht. destruct (foldl _ _ _) as [[total oldest] pending]. exact Ht.
Qed.

(** Nothing resets the flag of a shutdown. *)
Definition keeps_shutting (f : Registry → Registry) : Prop := ∀ g, g_shutting_down g = true → g_shutting_down (f g) = true.
Lemma attempts_shutting between now batch max_backoff remaining attempt backoff le g r slept g' :
  (∀ k, keeps_shutting (between k)) → g_shutting_down g = true →
  commit_attempts between now batch max_backoff remaining attempt backoff le g = (r, slept, g') → g_shutting_down g' = true.
Proof.
  intros Hb. revert attempt backoff le g r slept g'. induction remaining as [|remaining IH];
    intros attempt backoff le g r slept g' Hs; cbn [commit_attempts]; [by intros [= _ _ <-]|].
  destruct (db_call _ _) as [[n|e] g1] eqn:Ed; apply db_call_inv in Ed as (tb & fs & -> & _).
  - intros [= _ _ <-]. by apply Hb.
  - assert (g_shutting_down (put_db tb (put_faults fs (between attempt g))) = true) as Hs1 by by apply Hb.
    destruct remaining as [|remaining]; [by apply IH|].
    destruct (commit_attempts _ _ _ _ (S remaining) _ _ _ _) as [[r1 slept1] g2] eqn:E. intros [= _ _ <-]. by eapply IH in E.
Qed.
Lemma flush_shutting between now : (∀ k, keeps_shutting (between k)) → keeps_shutting (λ g, (flush_once between now g).2).
Proof.
  intros Hb g Hs. unfold flush_once. destruct (is_empty _); [done|]. unfold commit_with_retry.
  destruct (commit_attempts _ _ _ _ _ _ _ _ _) as [[r slept] g1] eqn:Ec. eapply attempts_shutting in Ec; [|done..].
  destruct r; cbn [snd set_storage_failing put_storage_failing g_shutting_down]; [|done].
  by destruct (publish_terminals g1 (take_pending now g)) as [_ ->].
Qed.

(** What the other tasks may do to a registry that shuts down while it is not
    flushed, and while the terminals pending in [g] are. *)
Definition keeps_agreeing (f : Registry → Registry) : Prop :=
  keeps_shutting f ∧ ∀ logs g, flush_inv logs g → ∃ logs', flush_inv logs' (f g).
Definition keeps_batch (now : N) (g : Registry) (between : nat → Registry → Registry) : Prop :=
  (∀ k, keeps_shutting (between k))
  ∧ ∀ k logs g1, flush_inv logs g1 → ∃ logs', others_ok (is_pending now g) logs g1 logs' (between k g1).
Record shutdown_others_ok (o : ShutdownOthers) (now : nat → N) (g : Registry) : Prop := mkShutdownOthersOk {
  sk_lock : ∀ i, keeps_agreeing (so_lock o i);
  sk_notice : keeps_agreeing (so_notice o);
  sk_first : keeps_batch (now 0%nat) (shutdown_until o now 1 g) (so_commit o 0);
  sk_last : keeps_batch (now 1%nat) (shutdown_until o now 5 g) (so_commit o 1);
}.

Definition agrees (g : Registry) : Prop := (∃ logs, flush_inv logs g) ∧ g_shutting_down g = true.
Lemma agrees_step f g : keeps_agreeing f → agrees g → agrees (f g).
Proof. intros [Hs Hf] [(logs & Hg) Hd]. split; [by eapply Hf|by apply Hs]. Qed.
Lemma agrees_flush between now g : keeps_batch now g between → agrees g → agrees (flush_once between now g).2.
Proof.
  intros [Hs Hb] [(logs & Hg) Hd]. split; [|by apply flush_shutting].
  destruct (flush_once between now g) as [n g'] eqn:E.
  destruct (flush_once_agrees between now logs g g' n Hg) as (logs' & Hg' & _); [by intros k; apply Hb|done|by exists logs'].
Qed.
Lemma agrees_terminate t g : agrees g → agrees (terminate_all t g).
Proof.
  intros [(logs & Hg) Hd]. pose proof (terminate_all_same t g) as Hsame. split; [exists logs; by eapply same_terminals_inv|].
  by rewrite (sm_shutdown _ _ Hsame).
Qed.
Lemma shutdown_agrees o now logs g n : flush_inv logs g → shutdown_others_ok o now g → agrees (shutdown_until o now n g).
Proof.
  intros Hinv [Hl Hn H0' H1'].
  assert (agrees (shutdown_until o now 0 g)) as A0 by (split; [exists logs; by destruct Hinv as [[] ?]|done]).
  assert (agrees (shutdown_until o now 1 g)) as A1 by by apply (agrees_step (so_lock o 0)).
  assert (agrees (shutdown_until o now 2 g)) as A2 by by apply (agrees_flush (so_commit o 0) _ (shutdown_until o now 1 g)).
  assert (agrees (shutdown_until o now 3 g)) as A3 by by apply (agrees_step (so_notice o) (shutdown_until o now 2 g)).
  assert (agrees (shutdown_until o now 4 g)) as A4 by by apply (agrees_terminate _ (shutdown_until o now 3 g)).
  assert (agrees (shutdown_until o now 5 g)) as A5 by by apply (agrees_step (so_lock o 1) (shutdown_until o now 4 g)).
  assert (agrees (shutdown_until o now 6 g)) as A6 by by apply (agrees_flush (so_commit o 1) _ (shutdown_until o now 5 g)).
  destruct n as [|[|[|[|[|[|n]]]]]]; [done..|].
  unfold shutdown_until in *. by rewrite take_ge by (cbn; lia).
Qed.

(** C17: a graceful shutdown saves what had arrived. Let the other tasks act
    through all of it: while the flush lock and the commits are awaited and in
    the moment before the connections are told, as they may during any
    checkpoint. New publishers are refused from the start, and at the end of
    every stage memory and storage agree. If the deadline does not cut it short
    and storage is not failing at the end, everything that a terminal had
    accepted when the last flush took its batch, after the connections were
    told, is durable. What is left, and reported, are the dirty bytes that
    arrived during that last commit: none if nobody wrote then. *)
Theorem shutdown_saves_everything (o : ShutdownOthers) (now : nat → N) (reached : nat) logs g left g' :
  flush_inv logs g → shutdown_others_ok o now g →
  shutdown o now reached g = (left, g') →
  (∃ logs', flush_inv logs' g') ∧ g_shutting_down g' = true
  ∧ left = ds_total_dirty_bytes (dirty_stats (now 2%nat) g')
  ∧ ((6 ≤ reached)%nat → g_storage_failing g' = false →
      (∀ id loc h, let last := shutdown_until o now 5 g in
         g_terminals last !! id = Some loc → g_handles last !! loc = Some h →
         i_durable_offset (h_inner h) = i_next_offset (h_inner h)
         ∨ ∃ h', g_terminals g' !! id = Some loc ∧ g_handles g' !! loc = Some h'
             ∧ i_durable_offset (h_inner h') = i_next_offset (h_inner h))
      ∧ ((∀ k g, so_commit o 1 k g = g) → all_durable g' ∧ left = 0)).
Proof.
  intros Hinv Hok. unfold shutdown. intros [= <- <-].
  destruct (shutdown_agrees o now logs g reached Hinv Hok) as [Hi Hs]. split_and!; [done|done|done|]. intros Hr Hf.
  assert (shutdown_until o now reached g
    = (flush_once (so_commit o 1) (now 1%nat) (shutdown_until o now 5 g)).2) as E.
  { unfold shutdown_until. by rewrite take_ge by (cbn; lia). }
  rewrite E in Hf, Hi |- *. clear E.
  destruct (shutdown_agrees o now logs g 5 Hinv Hok) as [(logs5 & H5) _].
  destruct Hok as [_ _ _ [_ Hbatch]].
  set (last := shutdown_until o now 5 g) in *. destruct (flush_once _ _ last) as [n g4] eqn:E. cbn [snd] in *.
  split.
  - intros id loc h Hid Hh.
    destruct (flush_once_agrees _ _ logs5 last g4 n H5 Hbatch E) as (logs4 & H4 & Hdone).
    destruct (decide (Exists (λ p, pc_terminal_id p = id) (take_pending (now 1%nat) last))) as [Hex|Hnone].
    + right. apply Exists_exists in Hex as (p & Hp & <-).
      destruct (Hdone p Hp) as (loc1 & h1 & h2 & Hl & Hh1 & Hl2 & Hh2 & Hd). assert (loc1 = loc) as -> by congruence.
      assert (h1 = h) as -> by congruence. rewrite Hf in Hd. destruct Hd as [Hd _]. by exists h2.
    + left. eapply (not_pending_clean (now 1%nat)); [exact H5|exact Hid|exact Hh|]. intros (p & Hp & Ep). apply Hnone, Exists_exists. by exists p.
  - intros Hquiet. destruct (flush_quiet _ _ _ _ _ _ Hquiet H5 E) as (logs4 & H4 & _ & Hd). specialize (Hd Hf).
    split; [done|]. apply all_durable_total; [done|]. by destruct H4.
Qed.

(** ** Examples *)

(** The publishers' tasks ask for a checkpoint all the time. *)
Definition example_shutdown_others : ShutdownOthers :=
  mkShutdownOthers (λ _, request_flush) (λ _ _, request_flush) request_flush.
Lemma request_flush_inv logs g : flush_inv logs g → flush_inv logs (request_flush g).
Proof. intros [[H1' H2'] H3']. by split. Qed.
Lemma request_flush_agreeing : keeps_agreeing request_flush.
Proof. split; [by intros g Hg|]. intros logs g Hg. exists logs. by apply request_flush_inv. Qed.
Lemma request_flush_batch now g : keeps_batch now g (λ _, request_flush).
Proof.
  split; [by intros k g1 Hg|]. intros k logs g1 Hg. exists logs. destruct (others_ok_refl (is_pending now g) logs g1 Hg) as [_ Hh Hs].
  split; [by apply request_flush_inv|exact Hh|exact Hs].
Qed.
Lemma shutdown_saves_everything_witness :
  let g' := (shutdown example_shutdown_others (λ _, 9) 6 example_dirty).2 in
  let left := (shutdown example_shutdown_others (λ _, 9) 6 example_dirty).1 in
  (∃ logs', flush_inv logs' g') ∧ g_shutting_down g' = true
  ∧ left = ds_total_dirty_bytes (dirty_stats 9 g')
  ∧ ((6 ≤ 6)%nat → g_storage_failing g' = false →
      (∀ id loc h, let last := shutdown_until example_shutdown_others (λ _, 9) 5 example_dirty in
         g_terminals last !! id = Some loc → g_handles last !! loc = Some h →
         i_durable_offset (h_inner h) = i_next_offset (h_inner h)
         ∨ ∃ h', g_terminals g' !! id = Some loc ∧ g_handles g' !! loc = Some h'
             ∧ i_durable_offset (h_inner h') = i_next_offset (h_inner h))
      ∧ ((∀ k g, so_commit example_shutdown_others 1 k g = g) → all_durable g' ∧ left = 0)).
Proof.
  apply (shutdown_saves_everything example_shutdown_others (λ _, 9) 6 example_logs example_dirty _ _ example_dirty_inv);
    [|apply surjective_pairing].
  split; [by intros; apply request_flush_agreeing|apply request_flush_agreeing|apply request_flush_batch..].
Defined.

(** The health listener: disabled, then given an address, bound, and moved. *)
Definition example_at (address : text) : Snapshot := mkSnapshot 1 {[ keys.SERVER_HEALTH_LISTEN_ADDRESS := VStr address ]}.
Definition example_world (v : N) (address : text) : ListenerWorld := mkListenerWorld v (example_at address) false.
Definition example_build (sn : Snapshot) : ListenerConfig :=
  mkListenerConfig (match snapshot_get keys.SERVER_HEALTH_LISTEN_ADDRESS sn with VStr s => s | _ => [] end) false [] [].
Definition example_serving : Supervisor :=
  mkSupervisor (PhServing (mkGeneration (mkListenerConfig (lit "[::]:9090") false [] []) 4096 10 0)) 2 0 0.
Lemma example_listener_steps :
  rtc (listener_step example_build) (example_world 1 [], supervisor_new (example_world 1 []))
    (example_world 3 (lit "[::]:9091"), example_serving).
Proof.
  eapply rtc_l; [apply (ls_turn _ (SeBegin true true)); reflexivity|].
  eapply rtc_l; [apply (ls_settings _ _ _ (example_at (lit "[::]:9090")))|].
  eapply rtc_l; [apply (ls_turn _ SeSettings); reflexivity|].
  eapply rtc_l; [apply (ls_turn _ (SeBegin true true)); vm_compute; reflexivity|].
  eapply rtc_l; [apply (ls_settings _ _ _ (example_at (lit "[::]:9091")))|]. apply rtc_refl.
Qed.
Lemma listener_follows_settings_witness :
  (2 = 3 → mkListenerConfig (lit "[::]:9090") false [] [] = example_build (example_at (lit "[::]:9091"))) ∧ 0 ≤ 4096.
Proof. exact (listener_follows_settings example_build _ _ _ example_listener_steps). Defined.
Lemma listener_recovers_witness :
  ∃ evs s' g, (length evs ≤ 3)%nat ∧ supervisor_run example_build evs (example_world 3 (lit "[::]:9091")) example_serving = Some s'
    ∧ su_phase s' = PhServing g ∧ gn_config g = example_build (example_at (lit "[::]:9091")).
Proof. exact (listener_recovers example_build _ _ _ example_listener_steps eq_refl ltac:(done) eq_refl). Defined.

(** One connection allowed: it is accepted, the address changes, the drain times
    out, and the new socket accepts another. *)
Definition example_one (address : text) : Snapshot :=
  mkSnapshot 1 {[ keys.SERVER_HEALTH_LISTEN_ADDRESS := VStr address; keys.SERVER_MAX_CONCURRENT_CONNECTIONS := VInt 1 ]}.
Theorem limit_is_per_socket :
  ∃ w s g, rtc (listener_step example_build) (mkListenerWorld 1 (example_one (lit "[::]:9090")) false,
             supervisor_new (mkListenerWorld 1 (example_one (lit "[::]:9090")) false)) (w, s)
    ∧ su_phase s = PhServing g ∧ gn_limit g = 1 ∧ gn_open g + su_stale s = 2.
Proof.
  exists (mkListenerWorld 2 (example_one (lit "[::]:9091")) false).
  exists (mkSupervisor (PhServing (mkGeneration (mkListenerConfig (lit "[::]:9091") false [] []) 1 10 1)) 2 1 1).
  eexists. split; [|split; [reflexivity|done]].
  eapply rtc_l; [apply (ls_turn _ (SeBegin true true)); vm_compute; reflexivity|].
  eapply rtc_l; [apply (ls_turn _ SeAccepted); reflexivity|].
  eapply rtc_l; [apply (ls_settings _ _ _ (example_one (lit "[::]:9091")))|].
  eapply rtc_l; [apply (ls_turn _ SeSettings); vm_compute; reflexivity|].
  eapply rtc_l; [apply (ls_turn _ (SeDrained true)); vm_compute; reflexivity|].
  eapply rtc_l; [apply (ls_turn _ (SeBegin true true)); vm_compute; reflexivity|].
  eapply rtc_l; [apply (ls_turn _ SeAccepted); vm_compute; reflexivity|]. apply rtc_refl.
Qed.
