(* ===== verification/Operator.v ===== *)
(** * Routing and the operator's endpoints
      ([server/src/http/mod.rs], [ops.rs], [admin.rs], the middleware of [context.rs])

    The two routers as tables of methods, path patterns and handlers, with the
    framework's matching; the middleware in front of the main one; and the
    operator's handlers over the settings store and the registry. The
    descriptions of the settings are a parameter, and so is the text of the
    metrics, which [Metrics] renders. *)

From S2P Require Export Auth Flush.

Open Scope N_scope.
Open Scope hype_scope.

(** ** Routing *)

Inductive Endpoint :=
| EpCreateChallenge | EpRegisterIdentity | EpCreateToken | EpCreateWebsocketTicket
| EpRegisterDevice | EpListDevices | EpGetDevice | EpRevokeDevice | EpCreateTerminal
| EpListTerminals | EpGetTerminal | EpRelay | EpMirror
| EpGetSettings | EpPatchSettings | EpGetAudit | EpFlush
| EpHealthz | EpReadyz | EpMetrics.
#[export] Instance Endpoint_eq_dec : EqDecision Endpoint.
Proof. solve_decision. Defined.
Inductive Segment := SegIs (s : string) | SegParam.
Record Route := mkRoute {
  ro_method : string;
  ro_path : list Segment;
  ro_endpoint : Endpoint;
}.

Definition router : list Route := [
  mkRoute "POST" [SegIs "v1"; SegIs "auth"; SegIs "challenges"] EpCreateChallenge;
  mkRoute "POST" [SegIs "v1"; SegIs "identities"] EpRegisterIdentity;
  mkRoute "POST" [SegIs "v1"; SegIs "auth"; SegIs "tokens"] EpCreateToken;
  mkRoute "POST" [SegIs "v1"; SegIs "auth"; SegIs "websocket-tickets"] EpCreateWebsocketTicket;
  mkRoute "POST" [SegIs "v1"; SegIs "devices"] EpRegisterDevice;
  mkRoute "GET" [SegIs "v1"; SegIs "devices"] EpListDevices;
  mkRoute "GET" [SegIs "v1"; SegIs "devices"; SegParam] EpGetDevice;
  mkRoute "DELETE" [SegIs "v1"; SegIs "devices"; SegParam] EpRevokeDevice;
  mkRoute "POST" [SegIs "v1"; SegIs "devices"; SegParam; SegIs "terminals"] EpCreateTerminal;
  mkRoute "GET" [SegIs "v1"; SegIs "terminals"] EpListTerminals;
  mkRoute "GET" [SegIs "v1"; SegIs "terminals"; SegParam] EpGetTerminal;
  mkRoute "GET" [SegIs "v1"; SegIs "devices"; SegParam; SegIs "relay"] EpRelay;
  mkRoute "GET" [SegIs "v1"; SegIs "terminals"; SegParam; SegIs "mirror"] EpMirror;
  mkRoute "GET" [SegIs "v1"; SegIs "admin"; SegIs "settings"] EpGetSettings;
  mkRoute "PATCH" [SegIs "v1"; SegIs "admin"; SegIs "settings"] EpPatchSettings;
  mkRoute "GET" [SegIs "v1"; SegIs "admin"; SegIs "settings"; SegIs "audit"] EpGetAudit;
  mkRoute "POST" [SegIs "v1"; SegIs "admin"; SegIs "flush"] EpFlush;
  mkRoute "GET" [SegIs "healthz"] EpHealthz;
  mkRoute "GET" [SegIs "readyz"] EpReadyz;
  mkRoute "GET" [SegIs "metrics"] EpMetrics].
Definition health_router : list Route := [
  mkRoute "GET" [SegIs "healthz"] EpHealthz;
  mkRoute "GET" [SegIs "readyz"] EpReadyz].

(** The framework: a path is its segments, a parameter matches a nonempty one,
    [get] answers [HEAD] too; the health router's own 405 has no body. *)
Definition segment_matches (seg : Segment) (s : text) : bool :=
  match seg with SegIs t => bool_decide (s = lit t) | SegParam => negb (is_empty s) end.
Fixpoint path_matches (pattern : list Segment) (path : list text) : bool :=
  match pattern, path with
  | [], [] => true
  | seg :: pattern, s :: path => segment_matches seg s && path_matches pattern path
  | _, _ => false
  end.
Definition method_matches (route method : string) : bool :=
  bool_decide (method = route) || bool_decide (route = "GET" ∧ method = "HEAD")%string.
Definition route_path (path : text) : list text := match split_at 47 path with [] :: rest => rest | _ => [path] end.
Definition method_not_allowed : ApiError := api_new 405 "invalid_request" (lit "method not allowed for this path").
Definition route (routes : list Route) (method : string) (path : text) : ApiResult Endpoint :=
  let here := filter (λ r, path_matches (ro_path r) (route_path path) = true) routes in
  match find (λ r, method_matches (ro_method r) method) here with
  | Some r => Ok (ro_endpoint r)
  | None => if is_empty here then Err api_not_found else Err method_not_allowed
  end.

(** ** The middleware *)

Section middleware.
Context `{JsonText}.

(** What [middleware] decides before the handler runs: its context, or the
    refusal; [conn] is the peer and whether TLS ended here. *)
Definition admit_request (headers : Headers) (conn : option (IpAddr * bool)) (sn : Snapshot) : ApiResult RequestContext :=
  let '(client_ip, secure) := resolve_client headers conn sn in
  let context :=
    mkRequestContext client_ip secure sn (idempotency_extract headers (sn_bool keys.IDEMPOTENCY_ENABLED sn)) in
  let? _ := enforce_transport context in
  let? _ := enforce_body_limit headers sn in
  Ok context.
Definition is_upgrade (headers : Headers) : bool :=
  from_option (λ v, eq_ignore_ascii_case v (lit "websocket")) false (headers (lit "upgrade")).
Definition request_timeout : ApiError := api_new 504 "internal" (lit "request exceeded the configured timeout").
(** [cut]: what the handler had done when the timeout dropped it, if it did. *)
Definition serve {S} (headers : Headers) (conn : option (IpAddr * bool)) (sn : Snapshot) (cut : option (RequestContext → S → S))
    (handler : RequestContext → S → ApiResult Response * S) (s : S) : ApiResult Response * S :=
  match admit_request headers conn sn with
  | Err e => (Err e, s)
  | Ok context =>
      match cut with
      | Some cut => if is_upgrade headers then handler context s else (Err request_timeout, cut context s)
      | None => handler context s
      end
  end.
End middleware.

(** ** Settings, described *)

Definition default_json (d : SettingDef) : json :=
  match d_default d with
  | DBool b => JBool b
  | DInt i => JNum i
  | DStr s => JStr s
  | DList l => JArr (JStr <$> l)
  end.
Fixpoint text_ends_with (suffix t : text) : bool :=
  bool_decide (t = suffix) || match t with [] => false | _ :: t => text_ends_with suffix t end.
Definition unit_hint (name : string) : string :=
  let ends (suffix : string) := text_ends_with (lit suffix) (lit name) in
  if ends "_bytes" then "bytes"
  else if ends "_ms" then "milliseconds"
  else if ends "_seconds" then "seconds"
  else if ends "_pages" then "pages"
  else if ends "_kib" then "kibibytes"
  else "count".
Definition kind_json (k : Kind) : json :=
  jstr (match k with KBool => "bool" | KInt => "int" | KStr => "str" | KEnum => "enum" | KList => "list" | KSecret => "secret" end).
Definition reload_json (r : Reload) : json :=
  jstr (match r with
        | Immediate => "immediate" | ConnectionRenegotiate => "connection_renegotiate" | ListenerRebind => "listener_rebind"
        | LoggingReload => "logging_reload" | StorageReconfigure => "storage_reconfigure"
        end).

Section operator.
Context `{CryptoLib, ChronoLib, UuidLib, JsonText} (readable : text → bool).
Context (description : string → text).

(** [setting_json]: a secret's value is never read. *)
Definition setting_json (sn : Snapshot) (d : SettingDef) : json :=
  JObj
    ([("name"%string, jstr (d_name d)); ("type"%string, kind_json (d_kind d));
      ("description"%string, JStr (description (d_name d))); ("secret"%string, JBool (d_secret d));
      ("reload"%string, reload_json (d_reload d)); ("default"%string, default_json d)]
     ++ (if d_secret d then
           [("value"%string, JNull); ("configured"%string, JBool (negb (String.eqb (secret_form (d_name d) sn) "unset")));
            ("secret_form"%string, jstr (secret_form (d_name d) sn))]
         else [("value"%string, from_option value_to_json (default_json d) (sn_values sn !! d_name d))])
     ++ from_option (λ m, [("minimum"%string, JNum m)]) [] (d_min d)
     ++ from_option (λ m, [("maximum"%string, JNum m)]) [] (d_max d)
     ++ from_option (λ l, [("allowed"%string, JArr (JStr <$> l))]) [] (d_allowed d)
     ++ match d_kind d with KInt => [("unit_hint"%string, jstr (unit_hint (d_name d)))] | _ => [] end).
Definition settings_json (sn : Snapshot) : json := JArr (setting_json sn <$> DEFS).

(** ** The handlers

    [operator] is what [OperatorAuth] answered: a handler runs after it. *)

Definition as_operator {S A} (operator : ApiResult text) (handler : text → S → ApiResult A * S) (s : S) : ApiResult A * S :=
  match operator with Ok who => handler who s | Err e => (Err e, s) end.

Definition committed_revision (sn : Snapshot) : StM Store Z :=
  r ← on_db (λ t, match ss_state t with Some (r, _) => Ok (r, t)
                  | None => Err (api_database_error (lit "Query returned no rows")) end);
  mret (match r with Ok r => r | Err _ => sn_revision sn end).
Definition get_settings (instance_id : text) (sn : Snapshot) (who : text) : StM Store (ApiResult Response) :=
  committed ← committed_revision sn;
  mret (Ok (respond 200 (JObj [("revision"%string, JNum (sn_revision sn)); ("committed_revision"%string, JNum committed);
    ("schema_version"%string, JNum SETTINGS_SCHEMA_VERSION); ("instance_id"%string, JStr instance_id);
    ("settings"%string, settings_json sn)]))).

Record PatchRequest := mkPatchRequest {
  pq_revision : Z;
  pq_settings : list (string * json);
}.
(** The rest as of [patch]. *)
Definition patch_settings (key : list byte) (nonce : string → list byte) (now : text) (others : SettingsTables → SettingsTables)
    (request : PatchRequest) (who : text) : StM Store (ApiResult Response) :=
  outcome ← patch readable key nonce now who (pq_revision request) (pq_settings request) others;
  mret (match outcome with
        | Err e => Err e
        | Ok (sn, changed) =>
            Ok (respond 200 (JObj [("revision"%string, JNum (sn_revision sn)); ("changed"%string, JArr (jstr <$> changed));
                                   ("settings"%string, settings_json sn)]))
        end).

Definition flush_now (between : nat → Registry → Registry) (now : N) (who : text) (g : Registry) : ApiResult Response * Registry :=
  let '(bytes, g) := flush_once between now g in
  (Ok (respond 200 (JObj [("flushed_bytes"%string, jnat bytes); ("storage_healthy"%string, JBool (negb (g_storage_failing g)))])), g).

Definition jopt (o : option text) : json := from_option JStr JNull o.
Definition audit_json (r : AuditRow) : json :=
  JObj [("revision"%string, JNum (au_revision r)); ("at"%string, JStr (au_at r)); ("operator"%string, JStr (au_operator r));
        ("setting"%string, jstr (au_setting r)); ("old_value_hash"%string, jopt (au_old_hash r));
        ("new_value_hash"%string, jopt (au_new_hash r)); ("outcome"%string, jstr (au_outcome r)); ("detail"%string, jopt (au_detail r))].
(** [ORDER BY id DESC LIMIT 200] *)
Definition get_audit (who : text) : StM Store (ApiResult Response) :=
  entries ← on_db (λ t, Ok (take 200 (reverse (ss_audit t)), t));
  mret (match entries with
        | Ok entries => Ok (respond 200 (JObj [("entries"%string, JArr (audit_json <$> entries))]))
        | Err e => Err e
        end).

(** ** Health and metrics *)

Definition healthz : Response := respond 200 (JObj [("status"%string, jstr "ok")]).
(** [reason] is what [readiness] answered. *)
Definition readyz (revision : Z) (request_id : text) (reason : option text) : Response :=
  match reason with
  | None => respond 200 (JObj [("status"%string, jstr "ready"); ("settings_revision"%string, JNum revision)])
  | Some reason =>
      respond 503 (JObj [("error"%string, JObj [("code"%string, jstr "not_ready"); ("message"%string, JStr reason);
                                                ("request_id"%string, JStr request_id)])])
  end.
(** [metrics_endpoint]; [rendered] is what [render] answers. *)
Definition metrics_bearer (headers : Headers) : option text :=
  v ← headers (lit "authorization");
  match strip_lit "Bearer " v with Some t => Some t | None => strip_lit "bearer " v end.
Definition metrics_endpoint (env file : text → option text) (box : list byte) (headers : Headers) (sn : Snapshot) (rendered : text)
    : ApiResult text :=
  if negb (sn_bool keys.FEATURES_METRICS_ENDPOINT_ENABLED sn) then Err (api_new 404 "feature_disabled" (lit "the metrics endpoint is disabled"))
  else if negb (sn_bool keys.METRICS_REQUIRE_OPERATOR_AUTH sn) then Ok rendered
  else
    match sn_secret env file box keys.AUTH_OPERATOR_TOKEN_HASH sn with
    | None => Err (api_internal (lit "no operator credential is configured"))
    | Some expected =>
        match (λ v, hash_operator_token (trim v)) <$> metrics_bearer headers with
        | None => Err (api_unauthorized (lit "operator authentication required"))
        | Some presented =>
            if ct_eq (utf8 presented) (utf8 expected) then Ok rendered
            else Err (api_unauthorized (lit "operator authentication failed"))
        end
    end.
End operator.
