(* ===== verification/OperatorProps.v ===== *)
(** * Theorems about routing and the operator's endpoints

    What the routers serve, who is let in by the middleware and as an operator,
    and that a described setting says nothing of a secret's value. *)

From S2P Require Export Operator StoreProps.

Open Scope N_scope.
Open Scope hype_scope.

(** ** Routing *)

Lemma route_ok routes method path e :
  route routes method path = Ok e →
  ∃ r, r ∈ routes ∧ ro_endpoint r = e ∧ path_matches (ro_path r) (route_path path) = true ∧ method_matches (ro_method r) method = true.
Proof.
  unfold route. destruct (find _ _) as [r|] eqn:E; [|by destruct (is_empty _)]. intros [= <-].
  apply find_some in E as [Hin Hm]. apply list_elem_of_In, list_elem_of_filter in Hin as [Hp Hin]. by exists r.
Qed.
Lemma method_get route_method method :
  method_matches route_method method = true → route_method = "GET"%string → method = "GET"%string ∨ method = "HEAD"%string.
Proof.
  unfold method_matches. intros [H%bool_decide_eq_true|[_ H]%bool_decide_eq_true]%orb_true_iff Hr; [left; congruence|by right].
Qed.

(** Terminals are read only, and the health listener serves health only.
    Whatever the path and the method: what the main router serves under
    /v1/terminals is the list, one terminal and the mirror, each asked for with
    GET or HEAD; and the plain listener serves liveness and readiness and
    nothing else. *)
Theorem terminals_are_read_only method path :
  (∀ e rest, route router method path = Ok e → route_path path = lit "v1" :: lit "terminals" :: rest →
     (method = "GET" ∨ method = "HEAD")%string ∧ e ∈ [EpListTerminals; EpGetTerminal; EpMirror])
  ∧ (∀ e, route health_router method path = Ok e →
       (method = "GET" ∨ method = "HEAD")%string ∧ (e = EpHealthz ∨ e = EpReadyz)).
Proof.
  split.
  - intros e rest (r & Hin & <- & Hp & Hm)%route_ok Hpath. rewrite Hpath in Hp.
    assert (Forall (λ r, path_matches (ro_path r) (lit "v1" :: lit "terminals" :: rest) = true →
      ro_method r = "GET"%string ∧ ro_endpoint r ∈ [EpListTerminals; EpGetTerminal; EpMirror]) router) as Hall.
    { repeat (apply Forall_cons; split; [|]); try (by intros Hf; vm_compute in Hf);
        try (intros _; split; [done|set_solver]). constructor. }
    rewrite Forall_forall in Hall. destruct (Hall r Hin Hp) as [Hg He]. split; [by eapply method_get|done].
  - intros e (r & Hin & <- & _ & Hm)%route_ok. 
    assert (ro_method r = "GET"%string ∧ (ro_endpoint r = EpHealthz ∨ ro_endpoint r = EpReadyz)) as [Hg He].
    { apply list_elem_of_In in Hin. cbn in Hin. destruct Hin as [<-|[<-|[]]]; auto. }
    split; [by eapply method_get|done].
Qed.

(** ** The middleware *)

Section middleware.
Context `{JsonText}.

(** Two requests that differ in the headers a proxy sets. *)
Definition same_but_forwarded (h1 h2 : Headers) : Prop :=
  h1 (lit "content-length") = h2 (lit "content-length") ∧ h1 (lit "idempotency-key") = h2 (lit "idempotency-key").
Lemma body_limit_same h1 h2 sn : same_but_forwarded h1 h2 → enforce_body_limit h1 sn = enforce_body_limit h2 sn.
Proof. intros [Hc _]. unfold enforce_body_limit. by rewrite Hc. Qed.
Lemma idempotency_same h1 h2 b : same_but_forwarded h1 h2 → idempotency_extract h1 b = idempotency_extract h2 b.
Proof. intros [_ Hi]. unfold idempotency_extract. by rewrite Hi. Qed.

(** C38: what a peer says about itself is not believed. Unless the peer is a
    configured trusted proxy, no header changes how its request is admitted:
    two requests that agree on their length and their idempotency key get the
    same context or the same refusal. And when plain transport is refused, a
    request that did not come over TLS is admitted only from a network that
    terminates TLS, or from a loopback address where that is allowed; the
    address is the peer's own. *)
Theorem admission_is_by_the_peer h1 h2 peer tls sn :
  sn_bool keys.SECURITY_TRUSTED_PROXY_ENABLED sn = false
  ∨ in_networks (sn_list keys.SECURITY_TRUSTED_PROXY_NETWORKS sn) peer = false →
  (same_but_forwarded h1 h2 → admit_request h1 (Some (peer, tls)) sn = admit_request h2 (Some (peer, tls)) sn)
  ∧ ∀ context, admit_request h1 (Some (peer, tls)) sn = Ok context →
      rc_client_ip context = peer ∧ rc_secure context = tls
      ∧ (tls = false → sn_bool keys.SECURITY_REQUIRE_SECURE_TRANSPORT sn = true →
           in_networks (sn_list keys.SECURITY_TLS_TERMINATED_BY_NETWORKS sn) peer = true
           ∨ sn_bool keys.SECURITY_ALLOW_INSECURE_LOOPBACK sn = true ∧ is_loopback peer = true).
Proof.
  intros Hp.
  assert (∀ h, resolve_client h (Some (peer, tls)) sn = (peer, tls)) as Hr.
  { intros h. unfold resolve_client. cbn. destruct Hp as [-> | ->]; [done|]. by destruct (negb _). }
  split.
  - intros Hs. unfold admit_request. rewrite !Hr, (idempotency_same h1 h2) by done. by rewrite (body_limit_same h1 h2).
  - intros context. unfold admit_request. rewrite Hr. destruct (enforce_transport _) as [[]|e] eqn:Et; [|done].
    cbn. destruct (enforce_body_limit h1 sn); [|done]. intros [= <-]. split; [done|]. split; [done|]. intros -> Hreq.
    revert Et. unfold enforce_transport. cbn [rc_secure rc_snapshot rc_client_ip]. rewrite Hreq. cbn [negb]. 
    destruct (in_networks (sn_list keys.SECURITY_TLS_TERMINATED_BY_NETWORKS sn) peer); [intros _; by left|].
    destruct (_ && _) eqn:El; [|done]. intros _. apply andb_true_iff in El. by right.
Qed.

(** The recovery listener says nothing of the peer to the router, so a request
    comes from 0.0.0.0 without TLS: under the default policy every request is
    refused, the operator's and the health probe's as well. *)
Lemma recovery_refuses_by_default headers sn :
  sn_bool keys.SECURITY_REQUIRE_SECURE_TRANSPORT sn = true → sn_bool keys.SECURITY_TRUSTED_PROXY_ENABLED sn = false →
  in_networks (sn_list keys.SECURITY_TLS_TERMINATED_BY_NETWORKS sn) (V4 [0; 0; 0; 0]) = false →
  admit_request headers None sn = Err insecure_transport.
Proof.
  intros Hr Hp Hn. unfold admit_request, resolve_client. rewrite Hp. cbn [negb from_option].
  unfold enforce_transport. cbn [rc_secure rc_snapshot rc_client_ip]. rewrite Hr, Hn. cbn [negb].
  by rewrite andb_false_r.
Qed.
End middleware.

(** ** The operator *)

Section operator.
Context `{CryptoLib, ChronoLib, UuidLib, JsonText} (readable : text → bool).
Context (description : string → text).

(** Two snapshots that differ in their secrets, not in the secrets' form. *)
Definition same_public (sn1 sn2 : Snapshot) : Prop :=
  sn_revision sn1 = sn_revision sn2
  ∧ ∀ d, d ∈ DEFS → if d_secret d then secret_form (d_name d) sn1 = secret_form (d_name d) sn2
                    else sn_values sn1 !! d_name d = sn_values sn2 !! d_name d.

(** C20: reading the settings shows no secret. What the operator is shown of the
    settings, and the whole answer of the handler that reads them, is a function
    of everything but the secrets' values: two snapshots that differ only in
    those, and agree on whether and in which form each secret is set, are
    described by the same answer, byte for byte. (A change is not covered: its
    list of what changed compares hashes of the secrets, and the audit shows
    such hashes.) *)
Theorem secrets_never_leave sn1 sn2 instance_id who :
  same_public sn1 sn2 →
  settings_json description sn1 = settings_json description sn2
  ∧ ∀ s, get_settings description instance_id sn1 who s = get_settings description instance_id sn2 who s.
Proof.
  intros [Hr Hd].
  assert (settings_json description sn1 = settings_json description sn2) as E.
  { unfold settings_json. f_equal. apply list_fmap_ext. intros k d Hk. specialize (Hd d (list_elem_of_lookup_2 _ _ _ Hk)).
    unfold setting_json. destruct (d_secret d); by rewrite Hd. }
  split; [done|]. intros s. unfold get_settings, committed_revision. by rewrite E, Hr.
Qed.

(** Only the operator operates. Without a bearer token whose hash is the
    configured credential, reading or changing the settings, reading the audit
    and flushing answer an error and change nothing; and the metrics are shown
    only with that credential, unless the settings say that they are public. *)
Theorem operator_surface_guarded env file box sn query authorization headers rendered :
  (∀ token expected, bearer_token query authorization = Ok token →
     sn_secret env file box keys.AUTH_OPERATOR_TOKEN_HASH sn = Some expected → utf8 (hash_operator_token token) ≠ utf8 expected) →
  let operator := authenticate_operator env file box sn query authorization in
  (∀ S A (handler : text → S → ApiResult A * S) s, ∃ e, as_operator operator handler s = (Err e, s))
  ∧ (∀ shown, metrics_endpoint env file box headers sn rendered = Ok shown →
       sn_bool keys.METRICS_REQUIRE_OPERATOR_AUTH sn = false
       ∨ ∃ v expected, metrics_bearer headers = Some v ∧ sn_secret env file box keys.AUTH_OPERATOR_TOKEN_HASH sn = Some expected
           ∧ utf8 (hash_operator_token (trim v)) = utf8 expected).
Proof.
  intros Hno operator. split.
  - intros S A handler s. unfold as_operator. destruct operator as [who|e] eqn:E; [|by exists e].
    exfalso. revert E. unfold operator, authenticate_operator. destruct (bearer_token query authorization) as [token|e]; [|done].
    destruct (sn_secret _ _ _ _ _) as [expected|] eqn:Es; [|done]. destruct (ct_eq _ _) eqn:Ec; [|done].
    apply ct_eq_spec in Ec. by destruct (Hno token expected eq_refl eq_refl).
  - intros shown. unfold metrics_endpoint. destruct (negb _); [done|].
    destruct (sn_bool keys.METRICS_REQUIRE_OPERATOR_AUTH sn); [cbn|by left]. destruct (sn_secret _ _ _ _ _) as [expected|]; [|done].
    destruct (metrics_bearer headers) as [v|]; [|done]. cbn. destruct (ct_eq _ _) eqn:Ec; [|done]. apply ct_eq_spec in Ec. eauto 6.
Qed.
End operator.

(** ** At a concrete store *)

Definition plain_headers : Headers := λ _, None.
Definition forwarded_headers : Headers := λ name,
  if bool_decide (name = lit "x-forwarded-for") then Some (lit "127.0.0.1")
  else if bool_decide (name = lit "x-forwarded-proto") then Some (lit "https") else None.
Lemma admission_is_by_the_peer_witness :
  admit_request plain_headers (Some (V4 [203; 0; 113; 9], false)) (sr_snapshot example_store)
  = admit_request forwarded_headers (Some (V4 [203; 0; 113; 9], false)) (sr_snapshot example_store)
  ∧ ∃ e, admit_request forwarded_headers (Some (V4 [203; 0; 113; 9], false)) (sr_snapshot example_store) = Err e.
Proof.
  assert (sn_bool keys.SECURITY_TRUSTED_PROXY_ENABLED (sr_snapshot example_store) = false) as Hp by vm_cast_no_check (eq_refl false).
  split.
  - destruct (admission_is_by_the_peer plain_headers forwarded_headers (V4 [203; 0; 113; 9]) false (sr_snapshot example_store) (or_introl Hp))
      as [Hs _]. apply Hs. split; reflexivity.
  - assert (res_ok (admit_request forwarded_headers (Some (V4 [203; 0; 113; 9], false)) (sr_snapshot example_store)) = false) as Hf
      by vm_cast_no_check (eq_refl false).
    destruct (admit_request _ _ _) as [|e]; [done|by exists e].
Defined.

(** The example store, and one where the operator's credential was sealed anew. *)
Definition resealed : Snapshot :=
  mkSnapshot (sn_revision (sr_snapshot example_store))
    (<[keys.AUTH_OPERATOR_TOKEN_HASH := VStr (lit "enc:v1:another")]> (sn_values (sr_snapshot example_store))).
Definition public_agree (sn1 sn2 : Snapshot) (d : SettingDef) : bool :=
  if d_secret d then String.eqb (secret_form (d_name d) sn1) (secret_form (d_name d) sn2)
  else bool_decide (sn_values sn1 !! d_name d = sn_values sn2 !! d_name d).
Lemma public_agree_spec sn1 sn2 :
  sn_revision sn1 = sn_revision sn2 → forallb (public_agree sn1 sn2) DEFS = true → same_public sn1 sn2.
Proof.
  intros Hr Hall. split; [done|]. intros d Hd. rewrite forallb_forall in Hall. specialize (Hall d (proj1 (list_elem_of_In _ _) Hd)).
  unfold public_agree in Hall. destruct (d_secret d); [by apply String.eqb_eq|by apply bool_decide_eq_true in Hall].
Qed.
Lemma secrets_never_leave_witness :
  settings_json lit (sr_snapshot example_store) = settings_json lit resealed
  ∧ sn_values (sr_snapshot example_store) !! keys.AUTH_OPERATOR_TOKEN_HASH ≠ sn_values resealed !! keys.AUTH_OPERATOR_TOKEN_HASH.
Proof.
  assert (same_public (sr_snapshot example_store) resealed) as Hp.
  { apply public_agree_spec; [reflexivity|]. vm_cast_no_check (eq_refl true). }
  split; [exact (proj1 (secrets_never_leave lit (sr_snapshot example_store) resealed [] [] Hp))|].
  apply (bool_decide_unpack (sn_values (sr_snapshot example_store) !! keys.AUTH_OPERATOR_TOKEN_HASH ≠ sn_values resealed !! keys.AUTH_OPERATOR_TOKEN_HASH)).
  vm_cast_no_check I.
Defined.

(** Asking with the stored hash in place of the token. *)
Lemma operator_surface_guarded_witness :
  ∃ e, as_operator (authenticate_operator (H := toy_lib) (λ _, None) (λ _, None) [] (sr_snapshot example_store) None (Some (lit "Bearer guess")))
         (get_settings lit [] (sr_snapshot example_store)) example_store = (Err e, example_store).
Proof.
  refine (proj1 (operator_surface_guarded (H := toy_lib) (λ _, None) (λ _, None) [] (sr_snapshot example_store) None
    (Some (lit "Bearer guess")) plain_headers [] _) _ _ _ _).
  intros token expected Ht Hs.
  assert (match bearer_token None (Some (lit "Bearer guess")) with
          | Ok t => match sn_secret (H := toy_lib) (λ _, None) (λ _, None) [] keys.AUTH_OPERATOR_TOKEN_HASH (sr_snapshot example_store) with
                    | Some x => negb (bool_decide (utf8 (hash_operator_token (H := toy_lib) t) = utf8 x)) | None => true end
          | Err _ => true end = true) as Hb by vm_cast_no_check (eq_refl true).
  rewrite Ht, Hs in Hb. by apply negb_true_iff, bool_decide_eq_false in Hb.
Defined.
