(* ===== verification/Bootstrap.v ===== *)
(** * Starting the server ([server/src/bootstrap.rs], [settings_command] of [server/src/main.rs])

    What is read from the environment, the bootstrap key and its file, and the
    offline [settings] command over the store. What is printed is a list of
    lines. Opening the database is an argument; the file the operator's first
    token is written to is not modelled. *)

From S2P Require Export SettingsStore FileSystem.
From Stdlib Require OrdersEx.

Open Scope N_scope.
Open Scope hype_scope.

(** ** The environment *)

Record Bootstrap := mkBootstrap {
  bs_data_dir : text;
  bs_db_path : text;
  bs_secret_key : list byte;
  bs_operator_token_seed : option text;
  bs_instance_id : text;
  bs_recovery_mode : bool;
  bs_recovery_listen : text;
}.

Inductive BootstrapError :=
| BeInvalid (detail : text)
| BeIo (path detail : text).
Definition bootstrap_error_text (e : BootstrapError) : text :=
  match e with BeInvalid detail => detail | BeIo path detail => lit "io error for " ++ path ++ lit ": " ++ detail end.

Definition Environment : Type := string → option text.
Definition env_opt (env : Environment) (key : string) : option text :=
  v ← env key; if is_empty (trim v) then None else Some (trim v).
Definition env_bool (env : Environment) (key : string) : bool :=
  match to_ascii_lowercase <$> env_opt env key with
  | Some v => existsb (λ s, bool_decide (v = lit s)) ["1"; "true"; "yes"; "on"]%string
  | None => false
  end.
Definition DEFAULT_DATA_DIR : text := lit "/var/lib/terminal-relay".

(** ** Files *)

Definition file_call (path : text) : FilesM BootstrapError () :=
  fault ← next_fault;
  match fault with Some (e, _) => stop (BeIo path e) | None => mret () end.
Definition read_to_string (path : text) : FilesM BootstrapError text :=
  _ ← file_call path;
  f ← entry_at path;
  match f with
  | None => stop (BeIo path (lit "No such file or directory (os error 2)"))
  | Some f =>
      match from_utf8 (fe_bytes f) with
      | None => stop (BeIo path (lit "stream did not contain valid UTF-8"))
      | Some t => mret t
      end
  end.
(** [std::fs::write]; [mode] are the bits of a file it creates. *)
Definition write_file (mode : N) (path : text) (bytes : list byte) : FilesM BootstrapError () :=
  _ ← file_call path;
  _ ← edit (λ files, <[path := mkFileEntry (from_option fe_mode mode (files !! path)) []]> files);
  fault ← next_fault;
  match fault with
  | Some (e, n) =>
      _ ← edit (alter (λ f, mkFileEntry (fe_mode f) (takeN n bytes)) path);
      stop (BeIo path e)
  | None => edit (alter (λ f, mkFileEntry (fe_mode f) bytes) path)
  end.
(** A failure is ignored. *)
Definition restrict_permissions (path : text) : FilesM BootstrapError () :=
  fault ← next_fault;
  match fault with Some _ => mret () | None => edit (alter (λ f, mkFileEntry 384 (fe_bytes f)) path) end.

Section bootstrap.
Context `{CryptoLib, JsonText}.

(** ** The key *)

Definition decode_key (raw source : text) : result BootstrapError (list byte) :=
  match b64_decode raw with
  | None => Err (BeInvalid (source ++ lit " must be base64url-encoded key material"))
  | Some bytes =>
      if negb (len bytes =? 32) then
        Err (BeInvalid (source ++ lit " must decode to exactly 32 bytes, got " ++ lit (pretty.pretty (len bytes))))
      else Ok bytes
  end.
Definition answer {A : Type} (r : result BootstrapError A) : FilesM BootstrapError A := λ s, (r, s).
Definition key_path (data_dir : text) : text := join_path data_dir "bootstrap.key".
(** [random]: the 32 bytes drawn for a new key. *)
Definition load_secret_key (env : Environment) (mode : N) (random : list byte) (data_dir : text)
    : FilesM BootstrapError (list byte) :=
  match env_opt env "RELAY_SECRET_KEY" with
  | Some raw => answer (decode_key raw (lit "RELAY_SECRET_KEY"))
  | None =>
      match env_opt env "RELAY_SECRET_KEY_FILE" with
      | Some path => raw ← read_to_string path; answer (decode_key (trim raw) (lit "RELAY_SECRET_KEY_FILE"))
      | None =>
          let path := key_path data_dir in
          exists_ ← path_exists path;
          if (exists_ : bool) then raw ← read_to_string path; answer (decode_key (trim raw) path)
          else
            _ ← file_call data_dir;
            _ ← write_file mode path (utf8 (b64_encode random ++ [10]));
            _ ← restrict_permissions path;
            mret random
      end
  end.

(** [Bootstrap::from_env]; [fresh_id] is what [new_ulid] would draw. *)
Definition from_env (env : Environment) (mode : N) (random : list byte) (fresh_id : text) : FilesM BootstrapError Bootstrap :=
  let data_dir := default DEFAULT_DATA_DIR (env_opt env "RELAY_DATA_DIR") in
  let db_path := default (join_path data_dir "relay.db") (env_opt env "RELAY_DB_PATH") in
  _ ← (match parent db_path with
       | Some dir => if is_empty dir then mret () else file_call dir
       | None => mret ()
       end);
  secret_key ← load_secret_key env mode random data_dir;
  mret (mkBootstrap data_dir db_path secret_key (env_opt env "RELAY_OPERATOR_TOKEN")
    (default (default fresh_id (env "HOSTNAME"%string)) (env_opt env "RELAY_INSTANCE_ID"))
    (env_bool env "RELAY_RECOVERY_MODE") (default (lit "127.0.0.1:8081") (env_opt env "RELAY_RECOVERY_LISTEN"))).

(** ** The [settings] command *)

(** How a command ends: with what it printed, an error as well, or a panic. *)
Inductive CliEnd :=
| CliOk (printed : list text)
| CliErr (printed : list text) (e : text)
| CliPanic.

(** A string's bytes, as a map's key. *)
Definition key_of (t : text) : string := String.string_of_list_byte (utf8 t).
Definition wanted_all (wanted : list text) (name : string) : bool :=
  is_empty wanted || existsb (λ w, bool_decide (key_of w = name)) wanted.
Definition setting_line (sn : Snapshot) (d : SettingDef) : text :=
  if d_secret d then lit (d_name d) ++ lit " = <" ++ lit (secret_form (d_name d) sn) ++ lit ">"
  else lit (d_name d) ++ lit " = " ++ from_option (λ v, json_to_string (value_to_json v)) [] (sn_values sn !! d_name d).
Definition settings_get (sn : Snapshot) (wanted : list text) : CliEnd :=
  let lines := setting_line sn <$> filter (λ d, wanted_all wanted (d_name d) = true) DEFS in
  match find (λ w, negb (existsb (λ d, String.eqb (d_name d) (key_of w)) DEFS)) wanted with
  | Some name => CliErr lines (lit "unknown setting: " ++ name)
  | None => CliOk lines
  end.

(** [BTreeMap::insert]: in the order of the bytes. *)
Fixpoint btree_insert {A} (k : string) (a : A) (m : list (string * A)) : list (string * A) :=
  match m with
  | [] => [(k, a)]
  | (k', a') :: m' =>
      match OrdersEx.String_as_OT.compare k k' with
      | Lt => (k, a) :: m
      | Eq => (k, a) :: m'
      | Gt => (k', a') :: btree_insert k a m'
      end
  end.
Definition parse_pair (word : text) : result text (string * json) :=
  match split_once 61 word with
  | None => Err (lit "expected NAME=VALUE, got: " ++ word)
  | Some (name, raw) => Ok (key_of name, default (JStr raw) (json_from_str raw))
  end.
Fixpoint parse_pairs (desired : list (string * json)) (pairs : list text) : result text (list (string * json)) :=
  match pairs with
  | [] => Ok desired
  | word :: rest => match parse_pair word with Err e => Err e | Ok (name, v) => parse_pairs (btree_insert name v desired) rest end
  end.
Definition already (sn : Snapshot) (update : string * json) : bool :=
  match find_def update.1 with
  | Some d =>
      if d_secret d then false
      else from_option (λ current, json_eqb (value_to_json current) update.2) false (sn_values sn !! update.1)
  | None => false
  end.

Section command.
Context (readable : text → bool).

Definition joined_names (names : list string) : text := joined_with ", " (lit <$> names).
Definition settings_set (key : list byte) (nonce : string → list byte) (now : text) (others : SettingsTables → SettingsTables)
    (pairs : list text) : StM Store CliEnd :=
  match parse_pairs [] pairs with
  | Err e => mret (CliErr [] e)
  | Ok desired =>
      if is_empty desired then mret (CliErr [] (lit "no settings supplied"))
      else
        sn ← st_gets sr_snapshot;
        if forallb (already sn) desired then
          mret (CliOk [lit "no changes; already at revision " ++ lit (pretty.pretty (sn_revision sn))])
        else
          outcome ← patch readable key nonce now (lit "cli") (sn_revision sn) desired others;
          mret (match outcome with
                | Err e => CliErr [] (lit "settings update rejected: " ++ ae_message e)
                | Ok (fresh, changed) =>
                    CliOk [lit "revision " ++ lit (pretty.pretty (sn_revision fresh)) ++ lit " applied ("
                           ++ lit (pretty.pretty (len changed)) ++ lit " changed: "
                           ++ joined_names (if is_empty changed then desired.*1 else changed) ++ lit ")"]
                end)
  end.

(** The store is opened first; [args] are the words after [settings]. Without
    one, slicing off the action is out of range. *)
Definition api_error_text (e : ApiError) : text := lit (ae_code e) ++ lit ": " ++ ae_message e.
Definition settings_command (args : list text) (boot : result BootstrapError Bootstrap) (opened : result text ())
    (nonce : string → list byte) (random : list byte) (now : text) (faults : list (option ApiError))
    (others : SettingsTables → SettingsTables) (t : SettingsTables) : CliEnd * SettingsTables :=
  match boot with
  | Err e => (CliErr [] (lit "bootstrap failed: " ++ bootstrap_error_text e), t)
  | Ok b =>
      match opened with
      | Err e => (CliErr [] (lit "cannot open database: " ++ e), t)
      | Ok _ =>
          match initialize readable (bs_secret_key b) (nonce keys.AUTH_OPERATOR_TOKEN_HASH) random now
                  (bs_operator_token_seed b) faults t with
          | Err e => (CliErr [] (lit "cannot load settings: " ++ api_error_text e), t)
          | Ok (store, _) =>
              match args with
              | [] => (CliPanic, sr_tables store)
              | action :: rest =>
                  if bool_decide (action = lit "get") then (settings_get (sr_snapshot store) rest, sr_tables store)
                  else if bool_decide (action = lit "set") then
                    let '(r, store) := settings_set (bs_secret_key b) nonce now others rest store in (r, sr_tables store)
                  else (CliErr [] (lit "unknown settings action: " ++ action ++ lit " (expected `get` or `set`)"), sr_tables store)
              end
          end
      end
  end.
End command.
End bootstrap.

(** ** The health probe *)

(** [str::contains], and the first of [str::lines]. *)
Fixpoint contains_lit (needle : string) (t : text) : bool :=
  bool_decide (is_Some (strip_lit needle t)) || match t with [] => false | _ :: t => contains_lit needle t end.
Definition first_line (t : text) : text :=
  let line := default [] (head (split_at 10 t)) in
  match reverse line with 13 :: rest => if existsb (N.eqb 10) t then reverse rest else line | _ => line end.
(** [answer]: what was read of the response, or why nothing was. *)
Definition probe_health (answer : result text (list byte)) : result text () :=
  match answer with
  | Err e => Err e
  | Ok response =>
      let status := first_line (utf8_lossy (takeN 8192 response)) in
      if contains_lit " 200" status then Ok () else Err (lit "unexpected status: " ++ status)
  end.
