(* ===== verification/BootstrapProps.v ===== *)
(** * Theorems about starting the server

    A bootstrap key that was once accepted stays the key while its file can be
    seen, and the offline settings command does what it says once and then has
    nothing left to do. *)

From Stdlib Require Import Sorted.
From S2P Require Export Bootstrap StoreProps.

Open Scope N_scope.
Open Scope hype_scope.

(** ** The key *)

Section key.
Context `{CryptoLaws}.

(** A written key reads back without its newline. *)
Lemma trim_line t : Forall (λ c, is_whitespace c = false) t → trim (t ++ [10]) = t.
Proof.
  intros Ht. destruct t as [|c t]; [done|]. unfold trim. assert (trim_start ((c :: t) ++ [10]) = (c :: t) ++ [10]) as ->.
  { cbn. inversion Ht as [|?? Hc]. by rewrite Hc. }
  rewrite reverse_snoc. change (trim_start (10 :: reverse (c :: t))) with (trim_start (reverse (c :: t))).
  rewrite trim_start_none by (by apply Forall_reverse). apply reverse_involutive.
Qed.
Lemma key_line_read key : from_utf8 (utf8 (b64_encode key ++ [10])) = Some (b64_encode key ++ [10]).
Proof. apply from_utf8_utf8, Forall_app. split; [apply valid_b64|]. constructor; [|constructor]. left. lia. Qed.
Lemma decode_key_line key source : len key = 32 → decode_key (trim (b64_encode key ++ [10])) source = Ok key.
Proof. intros Hk. rewrite trim_line by apply b64_no_space. unfold decode_key. by rewrite b64_decode_encode, Hk. Qed.
Lemma decode_key_len raw source key : decode_key raw source = Ok key → len key = 32.
Proof.
  unfold decode_key. destruct (b64_decode raw) as [bytes|]; [|done]. destruct (N.eqb_spec (len bytes) 32); by intros [= <-].
Qed.

Lemma read_to_string_ok path s t s' :
  read_to_string path s = (Ok t, s') →
  fs_entries s' = fs_entries s ∧ ∃ f, fs_entries s !! path = Some f ∧ from_utf8 (fe_bytes f) = Some t.
Proof.
  unfold read_to_string, file_call, mbind, FilesM_bind, mret, FilesM_ret, next_fault, stop, entry_at. cbn.
  destruct (mjoin _) as [[e n]|]; [done|]. cbn. destruct (fs_entries s !! path) as [f|] eqn:Ef; [|done].
  destruct (from_utf8 (fe_bytes f)) eqn:Eu; [|done]. intros [= <- <-]. split; [done|]. by exists f.
Qed.
(** When nothing fails. *)
Lemma read_to_string_quiet path m f t :
  m !! path = Some f → from_utf8 (fe_bytes f) = Some t → read_to_string path (mkFiles m []) = (Ok t, mkFiles m []).
Proof.
  intros Hf Ht. unfold read_to_string, file_call, mbind, FilesM_bind, mret, FilesM_ret, next_fault, stop, entry_at. cbn.
  by rewrite Hf, Ht.
Qed.
Lemma path_exists_ok path s b s' :
  path_exists (E := BootstrapError) path s = (Ok b, s') → fs_entries s' = fs_entries s ∧ (b = true → is_Some (fs_entries s !! path)).
Proof.
  unfold path_exists, mbind, FilesM_bind, mret, FilesM_ret, next_fault, entry_at. intros [= <- <-]. cbn. split; [done|].
  by intros [_ ?%bool_decide_eq_true]%andb_true_iff.
Qed.
Lemma path_exists_quiet path m :
  path_exists (E := BootstrapError) path (mkFiles m []) = (Ok (bool_decide (is_Some (m !! path))), mkFiles m []).
Proof. done. Qed.

(** What a write and a change of the bits leave. *)
Lemma write_file_ok mode path bytes s s' :
  write_file mode path bytes s = (Ok (), s') →
  fs_entries s' !! path = Some (mkFileEntry (from_option fe_mode mode (fs_entries s !! path)) bytes)
  ∧ ∀ other, other ≠ path → fs_entries s' !! other = fs_entries s !! other.
Proof.
  unfold write_file, file_call, edit, mbind, FilesM_bind, mret, FilesM_ret, next_fault, stop. cbn.
  destruct (mjoin _) as [[e n]|]; [done|]. cbn. destruct (mjoin _) as [[e n]|]; [done|]. intros [= <-]. cbn.
  split; [by rewrite lookup_alter_eq, lookup_insert_eq|]. intros other Ho. by rewrite lookup_alter_ne, lookup_insert_ne.
Qed.
Lemma restrict_permissions_ok path s r s' :
  restrict_permissions path s = (r, s') →
  r = Ok () ∧ (∃ f, fs_entries s' = alter f path (fs_entries s) ∧ ∀ e, fe_bytes (f e) = fe_bytes e)
  ∧ (fs_faults s = [] → fe_mode <$> fs_entries s' !! path = (λ _, 384) <$> fs_entries s !! path).
Proof.
  unfold restrict_permissions, edit, mbind, FilesM_bind, mret, FilesM_ret, next_fault. cbn.
  destruct (mjoin (head (fs_faults s))) as [f|] eqn:Ef; intros [= <- <-]; cbn; (split; [done|]); (split; [|]).
  - exists id. split; [by rewrite alter_id|done].
  - intros Hn. by rewrite Hn in Ef.
  - eexists. by split.
  - intros _. rewrite lookup_alter_eq. by destruct (fs_entries s !! path).
Qed.

(** The file a new key is written to. *)
Definition new_key_file (mode : N) (m : gmap text FileEntry) (path : text) (key : list byte) : FileEntry :=
  mkFileEntry (from_option fe_mode mode (m !! path)) (utf8 (b64_encode key ++ [10])).

(** How a start that got its key came by it. *)
Lemma load_secret_key_ok env mode random data_dir s key s' :
  load_secret_key env mode random data_dir s = (Ok key, s') →
  (∃ raw, env_opt env "RELAY_SECRET_KEY" = Some raw ∧ decode_key raw (lit "RELAY_SECRET_KEY") = Ok key)
  ∨ env_opt env "RELAY_SECRET_KEY" = None
    ∧ ((∃ path f t, env_opt env "RELAY_SECRET_KEY_FILE" = Some path ∧ fs_entries s' !! path = Some f
          ∧ from_utf8 (fe_bytes f) = Some t ∧ decode_key (trim t) (lit "RELAY_SECRET_KEY_FILE") = Ok key)
       ∨ env_opt env "RELAY_SECRET_KEY_FILE" = None
         ∧ ∃ f t, fs_entries s' !! key_path data_dir = Some f ∧ from_utf8 (fe_bytes f) = Some t
            ∧ (decode_key (trim t) (key_path data_dir) = Ok key ∨ key = random ∧ t = b64_encode random ++ [10])
            ∧ (fs_entries s !! key_path data_dir = None → fs_faults s = [] → fe_mode f = 384)).
Proof.
  unfold load_secret_key. destruct (env_opt env "RELAY_SECRET_KEY") as [raw|]; [intros [= Hd <-]; left; by exists raw|].
  intros E. right. split; [done|]. revert E. destruct (env_opt env "RELAY_SECRET_KEY_FILE") as [path|].
  { unfold mbind, FilesM_bind, answer. destruct (read_to_string path s) as [[t|e] s1] eqn:Er; [|done]. intros [= Hd <-].
    apply read_to_string_ok in Er as (Hm & f & Hf & Ht). left. exists path, f, t. by rewrite Hm. }
  intros E. right. split; [done|]. revert E. set (path := key_path data_dir). unfold mbind, FilesM_bind, answer.
  destruct (path_exists (E := BootstrapError) path s) as [[there|e] s1] eqn:Ep; [|done]. destruct (path_exists_ok _ _ _ _ Ep) as [Hm1 Hthere].
  destruct there.
  - destruct (read_to_string path s1) as [[t|e] s2] eqn:Er; [|done]. intros [= Hd <-].
    apply read_to_string_ok in Er as (Hm2 & f & Hf & Ht). exists f, t. rewrite Hm2. split_and!; [done|done|by left|].
    intros Hn _. destruct (Hthere eq_refl) as [g Hg]. congruence.
  - unfold file_call at 1. unfold mbind, FilesM_bind, mret, FilesM_ret, stop. cbn.
    destruct (mjoin (head (fs_faults s1))) as [[e n]|]; [done|]. cbn. set (s2 := mkFiles (fs_entries s1) (tail (fs_faults s1))).
    destruct (write_file mode path _ s2) as [[[]|e] s3] eqn:Ew; [|done].
    destruct (restrict_permissions path s3) as [r s4] eqn:Ec. apply restrict_permissions_ok in Ec as (-> & (g & Hg & Hb) & Hmode).
    intros [= <- <-]. assert (fs_faults s = [] → fs_faults s3 = []) as Hq.
    { intros Hs. unfold path_exists, mbind, FilesM_bind, mret, FilesM_ret, next_fault, entry_at in Ep. injection Ep as _ <-.
      revert Ew. unfold write_file, file_call, edit, mbind, FilesM_bind, mret, FilesM_ret, next_fault. cbn. rewrite Hs. cbn.
      by intros [= <-]. }
    apply write_file_ok in Ew as [Hw _]. exists (g (mkFileEntry (from_option fe_mode mode (fs_entries s2 !! path)) (utf8 (b64_encode random ++ [10])))), (b64_encode random ++ [10]).
    rewrite Hg, lookup_alter_eq, Hw. cbn. rewrite Hb. split_and!; [done|apply key_line_read|by right|].
    intros _ Hs. specialize (Hmode (Hq Hs)). rewrite Hg, lookup_alter_eq, Hw in Hmode. cbn in Hmode. by injection Hmode.
Qed.

(** A start that finds the key file looks at it and writes nothing. *)
Lemma load_secret_key_looks env mode random data_dir s r s' :
  load_secret_key env mode random data_dir s = (r, s') →
  mjoin (head (fs_faults s)) = None → is_Some (fs_entries s !! key_path data_dir) → fs_entries s' = fs_entries s.
Proof.
  assert (∀ path s r s', read_to_string path s = (r, s') → fs_entries s' = fs_entries s) as Hread.
  { intros path s1 r1 s2. unfold read_to_string, file_call, mbind, FilesM_bind, mret, FilesM_ret, next_fault, stop, entry_at.
    cbn. destruct (mjoin _) as [[e n]|]; [by intros [= _ <-]|]. cbn. destruct (fs_entries s1 !! path); [|by intros [= _ <-]].
    destruct (from_utf8 _); by intros [= _ <-]. }
  intros E Hf Hthere. revert E. unfold load_secret_key. destruct (env_opt env "RELAY_SECRET_KEY"); [by intros [= _ <-]|].
  unfold mbind, FilesM_bind, answer. destruct (env_opt env "RELAY_SECRET_KEY_FILE") as [path|].
  { destruct (read_to_string path s) as [[t|e] s1] eqn:Er; apply Hread in Er; by intros [= _ <-]. }
  set (path := key_path data_dir) in *. destruct (path_exists (E := BootstrapError) path s) as [there s1] eqn:Ep.
  assert (there = Ok true ∧ fs_entries s1 = fs_entries s) as [-> E1].
  { unfold path_exists, mbind, FilesM_bind, mret, FilesM_ret, next_fault, entry_at in Ep. injection Ep as <- <-. cbn.
    rewrite Hf. by rewrite (bool_decide_eq_true_2 (is_Some (fs_entries s !! path))) by done. }
  destruct (read_to_string path s1) as [[t|e] s2] eqn:Er; apply Hread in Er; intros [= _ <-]; congruence.
Qed.

(** C35: the bootstrap key is kept, while its file can be seen. A start that
    finds the key file, its existence check not failing, changes no file,
    whatever else fails. A start that got a key, whatever calls failed on the
    way and wherever the key came from, has one of 32 bytes; and every later
    start in that environment whose calls do not fail gets the same key and
    changes no file, whatever it would have drawn. A key file that did not exist
    is left readable by its owner only when no call failed. (When the existence
    check of a present key fails, the start draws a new key and overwrites the
    old one: [failing_check_replaces_key].) *)
Theorem bootstrap_key_is_kept env mode random data_dir s :
  len random = 32 →
  (∀ r s', load_secret_key env mode random data_dir s = (r, s') →
     mjoin (head (fs_faults s)) = None → is_Some (fs_entries s !! key_path data_dir) → fs_entries s' = fs_entries s)
  ∧ ∀ key s', load_secret_key env mode random data_dir s = (Ok key, s') →
      len key = 32
      ∧ (∀ mode' random', load_secret_key env mode' random' data_dir (mkFiles (fs_entries s') [])
                          = (Ok key, mkFiles (fs_entries s') []))
      ∧ (env_opt env "RELAY_SECRET_KEY" = None → env_opt env "RELAY_SECRET_KEY_FILE" = None →
         fs_entries s !! key_path data_dir = None → fs_faults s = [] →
         fe_mode <$> fs_entries s' !! key_path data_dir = Some 384).
Proof.
  intros Hr. split; [intros r s' E; by eapply load_secret_key_looks|]. intros key s'.
  intros [(raw & He & Hd)|(He & [(path & f & t & Hp & Hf & Ht & Hd)|(Hp & f & t & Hf & Ht & Hd & Hmode)])]%load_secret_key_ok.
  - split; [by eapply decode_key_len|]. split; [|congruence]. intros mode' random'. unfold load_secret_key. by rewrite He, <- Hd.
  - split; [by eapply decode_key_len|]. split; [|congruence]. intros mode' random'. unfold load_secret_key. rewrite He, Hp.
    unfold mbind, FilesM_bind, answer. by rewrite (read_to_string_quiet path _ f t), Hd.
  - assert (decode_key (trim t) (key_path data_dir) = Ok key) as Hd'.
    { destruct Hd as [Hd|[-> ->]]; [done|by apply decode_key_line]. }
    split; [by eapply decode_key_len|]. split.
    + intros mode' random'. unfold load_secret_key. rewrite He, Hp. unfold mbind, FilesM_bind, answer.
      rewrite path_exists_quiet, Hf, bool_decide_eq_true_2 by (by eexists). by rewrite (read_to_string_quiet _ _ f t), Hd'.
    + intros _ _ Hn Hs. rewrite Hf. cbn. by rewrite Hmode.
Qed.

(** One failing [stat] is enough to lose the key: the start reads it as no file,
    draws a new key and writes it over the old one. *)
Theorem failing_check_replaces_key env mode random data_dir m old e n :
  env_opt env "RELAY_SECRET_KEY" = None → env_opt env "RELAY_SECRET_KEY_FILE" = None →
  m !! key_path data_dir = Some old →
  ∃ s', load_secret_key env mode random data_dir (mkFiles m [Some (e, n)]) = (Ok random, s')
    ∧ fs_entries s' !! key_path data_dir = Some (mkFileEntry 384 (utf8 (b64_encode random ++ [10]))).
Proof.
  intros He Hp Hm. unfold load_secret_key. rewrite He, Hp. eexists. split; [reflexivity|]. cbn.
  by rewrite !lookup_alter_eq, lookup_insert_eq.
Qed.
End key.

(** A first start with nothing in the environment; the change of the bits fails. *)
Definition first_files : Files := mkFiles ∅ [None; None; None; None; Some (lit "denied", 0)].
Definition first_key : list byte := repeat x2a 32.
Definition first_run : result BootstrapError (list byte) * Files :=
  load_secret_key (H := toy_lib) (λ _, None) 420 first_key (lit "/data") first_files.
Lemma bootstrap_key_is_kept_witness :
  load_secret_key (H := toy_lib) (λ _, None) 438 [] (lit "/data") (mkFiles (fs_entries first_run.2) [])
  = (Ok first_key, mkFiles (fs_entries first_run.2) [])
  ∧ fe_mode <$> fs_entries first_run.2 !! lit "/data/bootstrap.key" = Some 420.
Proof.
  split.
  - assert (res_ok first_run.1 = true) as Hok by (vm_cast_no_check (eq_refl true)).
    assert (bool_decide (res_value [] first_run.1 = first_key) = true) as Hv by (vm_cast_no_check (eq_refl true)).
    apply bool_decide_eq_true in Hv. pose proof (ran_ok [] first_run Hok) as E. rewrite Hv in E.
    exact (proj1 (proj2 (proj2 (bootstrap_key_is_kept (H0 := toy_laws) (λ _, None) 420 first_key (lit "/data") first_files eq_refl)
      first_key first_run.2 E)) 438 []).
  - apply (bool_decide_unpack (fe_mode <$> fs_entries first_run.2 !! lit "/data/bootstrap.key" = Some 420)). vm_cast_no_check I.
Defined.

(** ** The settings command *)

(** A map's keys are distinct. *)
Definition key_lt (a b : string * json) : Prop := OrdersEx.String_as_OT.lt a.1 b.1.
#[local] Instance key_lt_trans : Transitive key_lt.
Proof. intros a b c. unfold key_lt. apply OrdersEx.String_as_OT.lt_strorder. Qed.
Lemma btree_insert_keys k (a : json) m u : u ∈ btree_insert k a m → u.1 = k ∨ u ∈ m.
Proof.
  induction m as [|[k' a'] m IH]; cbn [btree_insert].
  - intros ->%list_elem_of_singleton. by left.
  - destruct (OrdersEx.String_as_OT.compare k k'); rewrite ?elem_of_cons; naive_solver.
Qed.
Lemma btree_insert_sorted k (a : json) m : StronglySorted key_lt m → StronglySorted key_lt (btree_insert k a m).
Proof.
  induction 1 as [|[k' a'] m Hm IH Hall]; cbn [btree_insert]; [by repeat constructor|].
  destruct (OrdersEx.String_as_OT.compare_spec k k') as [E|E|E].
  - unfold OrdersEx.String_as_OT.eq in E. subst k'. constructor; [done|]. by eapply Forall_impl; [apply Hall|].
  - constructor; [by constructor|]. constructor; [done|]. eapply Forall_impl; [apply Hall|]. intros u Hu. by transitivity (k', a').
  - constructor; [done|]. apply Forall_forall. intros u Hu. unfold key_lt. cbn.
    destruct (btree_insert_keys _ _ _ _ Hu) as [->|Hin]; [done|]. by apply (proj1 (Forall_forall _ _) Hall u).
Qed.
Lemma sorted_keys m : StronglySorted key_lt m → NoDup m.*1.
Proof.
  induction 1 as [|u m Hm IH Hall]; cbn; constructor; [|done].
  intros (v & Hv & Hin)%list_elem_of_fmap. pose proof (proj1 (Forall_forall _ _) Hall v Hin) as Hlt. unfold key_lt in Hlt.
  rewrite Hv in Hlt. by apply (@irreflexivity _ OrdersEx.String_as_OT.lt _) in Hlt.
Qed.
Lemma parse_pairs_sorted `{JsonText} pairs m desired :
  StronglySorted key_lt m → parse_pairs m pairs = Ok desired → StronglySorted key_lt desired.
Proof.
  revert m. induction pairs as [|word pairs IH]; intros m Hm; cbn; [by intros [= <-]|].
  destruct (parse_pair word) as [[name v]|]; [|done]. by apply IH, btree_insert_sorted.
Qed.

(** ** What a start leaves in the tables *)

Section cli.
Context `{CryptoLib, JsonTextLaws} (readable : text → bool).

(** The only secret setting. *)
Lemma operator_def : ∃ d, find_def keys.AUTH_OPERATOR_TOKEN_HASH = Some d ∧ d_secret d = true.
Proof.
  assert (from_option d_secret false (find_def keys.AUTH_OPERATOR_TOKEN_HASH) = true) as E by (vm_cast_no_check (eq_refl true)).
  destruct (find_def keys.AUTH_OPERATOR_TOKEN_HASH) as [d|]; [by exists d|done].
Qed.

(** As [initialize] leaves them, but for the values. *)
Record seeded (t : SettingsTables) : Prop := mkSeeded {
  se_version : ∃ v, ss_version t = Some v ∧ default (-1)%Z (parse_i64 v) = SETTINGS_SCHEMA_VERSION;
  se_state : is_Some (ss_state t);
  se_complete : rows_complete t;
  se_declared name : is_Some (ss_rows t !! name) → declared name;
  se_token : operator_token_set t = true;
}.

Lemma seed_rows_spec now defs rows :
  let rows' := foldl (seed_row now) rows defs in
  (∀ d, d ∈ defs → is_Some (rows' !! d_name d)) ∧ (∀ name row, rows !! name = Some row → rows' !! name = Some row).
Proof.
  revert rows. induction defs as [|d defs IH]; intros rows rows'; subst rows'; cbn [foldl].
  { split; [by intros d ?%elem_of_nil|done]. }
  destruct (IH (seed_row now rows d)) as [Hin Hold].
  assert (∀ name row, rows !! name = Some row → seed_row now rows d !! name = Some row) as Hkeep.
  { intros name row Hrow. unfold seed_row. destruct (rows !! d_name d) eqn:E; [done|]. rewrite lookup_insert_ne by congruence. done. }
  split; [|by intros name row Hrow; apply Hold, Hkeep].
  intros d' [->|Hd]%elem_of_cons; [|by apply Hin].
  unfold seed_row in *. destruct (rows !! d_name d) as [row|] eqn:E; [by exists row; apply Hold|].
  eexists. apply Hold. apply lookup_insert_eq.
Qed.
(** Seeding seeded tables does nothing. *)
Lemma seed_row_nothing now rows d : is_Some (rows !! d_name d) → seed_row now rows d = rows.
Proof. unfold seed_row. by intros [row ->]. Qed.
Lemma seed_rows_nothing now defs rows : (∀ d, d ∈ defs → is_Some (rows !! d_name d)) → foldl (seed_row now) rows defs = rows.
Proof.
  induction defs as [|d defs IH]; intros Hd; [done|]. cbn. rewrite seed_row_nothing by (apply Hd; left).
  apply IH. intros d' Hd'. apply Hd. by right.
Qed.
Lemma initialize_txn_nothing key nonce random now seed t : seeded t → initialize_txn key nonce random now seed t = Ok (None, t).
Proof.
  intros [(v & Hv & Hp) [state Hs] Hc Hd Ht]. unfold initialize_txn. rewrite Hv. cbv zeta. rewrite Hp, Z.eqb_refl. cbn [res_bind].
  rewrite seed_rows_nothing by done. cbn [ss_rows put_rows].
  assert (filter (λ '(name, _), declared name) (ss_rows t) = ss_rows t) as ->.
  { apply map_filter_id. intros name row Hrow. apply Hd. by eexists. }
  unfold seed_operator_token. replace (put_rows (ss_rows t) (put_rows (ss_rows t) t)) with t by (by destruct t).
  rewrite Ht. cbn. rewrite Hs. destruct t. cbn in *. by rewrite Hs.
Qed.
Lemma initialize_nothing key nonce random now seed t sn :
  seeded t → load readable t = Ok sn → initialize readable key nonce random now seed [] t = Ok (mkStore t sn [], None).
Proof. intros Ht Hl. unfold initialize. cbn [nth_error mjoin option_join res_bind]. rewrite initialize_txn_nothing by done. cbn. by rewrite Hl. Qed.

Lemma operator_token_seeded key nonce random now seed t token t' state :
  (∃ v, ss_version t = Some v ∧ default (-1)%Z (parse_i64 v) = SETTINGS_SCHEMA_VERSION) → rows_complete t →
  (∀ name, is_Some (ss_rows t !! name) → declared name) →
  seed_operator_token key nonce random now seed t = (token, t') → seeded (put_state (Some state) t').
Proof.
  intros Hv Hc Hd. unfold seed_operator_token. destruct (operator_token_set t) eqn:Et.
  { intros [= <- <-]. constructor; cbn [ss_version ss_state ss_rows put_state]; [done|by eexists|done|done|done]. }
  set (stored := seal_to_string key nonce _). assert (is_empty stored = false) as Hne by done. clearbody stored.
  intros [= <- <-]. constructor; [done|by eexists| | |].
  - intros d Hin. cbn [ss_rows put_state put_rows]. destruct (decide (d_name d = keys.AUTH_OPERATOR_TOKEN_HASH)) as [E|E];
      [rewrite E, lookup_alter_eq, <- E, fmap_is_Some|rewrite lookup_alter_ne by done]; by apply Hc.
  - intros name. cbn [ss_rows put_state put_rows]. intros Hn. apply Hd.
    destruct (decide (name = keys.AUTH_OPERATOR_TOKEN_HASH)) as [->|E];
      [by rewrite lookup_alter_eq, fmap_is_Some in Hn|by rewrite lookup_alter_ne in Hn].
  - unfold operator_token_set. cbn [ss_rows put_state put_rows]. rewrite lookup_alter_eq.
    destruct operator_def as (d & Ed & _). destruct (find_def_name _ _ Ed) as [Hin Hname].
    destruct (Hc d Hin) as [row Hrow]. rewrite Hname in Hrow. rewrite Hrow. cbn [fmap option_fmap option_map].
    change (JStr stored) with (value_to_json (VStr stored)). rewrite json_round_trip. cbn. by rewrite Hne.
Qed.
Lemma seeded_version t t1 :
  match ss_version t with
  | None => Ok (put_version (Some (lit (pretty.pretty SETTINGS_SCHEMA_VERSION))) t)
  | Some v =>
      let parsed := default (-1)%Z (parse_i64 v) in
      if Z.eqb parsed SETTINGS_SCHEMA_VERSION then Ok t
      else Err (api_internal (lit "database settings schema version " ++ lit (pretty.pretty parsed)
                              ++ lit " is not supported by this build (expected "
                              ++ lit (pretty.pretty SETTINGS_SCHEMA_VERSION) ++ lit ")"))
  end = Ok t1 →
  ∃ v, ss_version t1 = Some v ∧ default (-1)%Z (parse_i64 v) = SETTINGS_SCHEMA_VERSION.
Proof.
  destruct (ss_version t) as [v|] eqn:Es; cbv zeta.
  - destruct (Z.eqb_spec (default (-1)%Z (parse_i64 v)) SETTINGS_SCHEMA_VERSION) as [Hp|]; [|done]. intros [= <-]. by exists v.
  - intros [= <-]. eexists. split; [reflexivity|]. vm_cast_no_check (eq_refl SETTINGS_SCHEMA_VERSION).
Qed.
Lemma initialize_txn_seeded key nonce random now seed t token t' :
  initialize_txn key nonce random now seed t = Ok (token, t') → seeded t'.
Proof.
  unfold initialize_txn. intros (t1 & Hv%seeded_version & E)%res_bind_ok.
  destruct (seed_rows_spec now DEFS (ss_rows t1)) as [Hin _]. revert Hin E.
  generalize (foldl (seed_row now) (ss_rows t1) DEFS). intros rows Hin E. cbn [ss_rows put_rows] in E.
  match type of E with context [seed_operator_token _ _ _ _ _ ?t] => set (t3 := t) in E end.
  destruct (seed_operator_token _ _ _ _ _ t3) as [token' t4] eqn:Es. injection E as <- <-.
  assert (seeded (put_state (Some (default (1%Z, now) (ss_state t4))) t4)) as Ht; [|by destruct (ss_state t4)].
  eapply operator_token_seeded; [|..|exact Es]; [exact Hv| |].
  - intros d Hd. destruct (Hin d Hd) as [row Hrow]. exists row.
    apply map_lookup_filter_Some. split; [exact Hrow|]. apply list_elem_of_fmap. by exists d.
  - intros name [row Hrow]. by apply map_lookup_filter_Some in Hrow as [_ Hn].
Qed.
Lemma initialize_seeded key nonce random now seed faults t s token :
  initialize readable key nonce random now seed faults t = Ok (s, token) → seeded (sr_tables s).
Proof.
  unfold initialize. intros ([] & _ & E)%res_bind_ok. apply res_bind_ok in E as ([] & _ & E).
  apply res_bind_ok in E as ([tok t'] & Hi & E). apply res_bind_ok in E as ([] & _ & E).
  apply res_bind_ok in E as (sn & _ & [= <- <-]). by apply initialize_txn_seeded in Hi.
Qed.

Lemma patched_rows_is_some key nonce now operator expected updates t t' name :
  patch_applied key nonce now operator expected updates t t' → NoDup updates.*1 →
  is_Some (ss_rows t' !! name) ↔ is_Some (ss_rows t !! name).
Proof.
  intros Ha Hnd. destruct (decide (name ∈ updates.*1)) as [Hin|Hin].
  - apply list_elem_of_fmap in Hin as (u & -> & Hu).
    destruct (proj1 (Forall_forall _ _) (pa_valid _ _ _ _ _ _ _ _ Ha) u Hu) as (d & v & Hd & Hj & _).
    by rewrite (pa_updates _ _ _ _ _ _ _ _ Ha Hnd u d v Hu Hd Hj), fmap_is_Some.
  - by rewrite (pa_others _ _ _ _ _ _ _ _ Ha name Hin).
Qed.
(** No update names a secret. *)
Definition no_secret (updates : list (string * json)) : Prop :=
  ∀ u d, u ∈ updates → find_def u.1 = Some d → d_secret d = false.
Lemma patched_seeded key nonce now operator expected updates t t' :
  patch_applied key nonce now operator expected updates t t' → NoDup updates.*1 → no_secret updates → seeded t → seeded t'.
Proof.
  intros Ha Hnd Hns [Hv Hs Hc Hd Ht]. constructor.
  - by rewrite (pa_version _ _ _ _ _ _ _ _ Ha).
  - destruct (pa_revision _ _ _ _ _ _ _ _ Ha) as [_ ->]. by eexists.
  - by eapply applied_complete.
  - intros name. rewrite (patched_rows_is_some _ _ _ _ _ _ _ _ _ Ha Hnd). apply Hd.
  - unfold operator_token_set. rewrite (pa_others _ _ _ _ _ _ _ _ Ha); [done|]. intros (u & E & Hu)%list_elem_of_fmap.
    destruct operator_def as (d & Ed & Hsec). rewrite E in Ed. by rewrite (Hns u d Hu Ed) in Hsec.
Qed.

(** A value prints as the JSON it was read from. *)
Lemma mapM_jas_str_inv items l : mapM jas_str items = Some l → items = JStr <$> l.
Proof.
  revert l. induction items as [|j items IH]; intros l; cbn; [by intros [= <-]|].
  destruct j as [| | |t| |]; try done. cbn. destruct (mapM jas_str items) as [l'|] eqn:E; [|done].
  intros [= <-]. cbn. f_equal. by apply IH.
Qed.
Lemma expects_ok {A} d what (o : option A) v : expects d what o = Ok v → o = Some v.
Proof. unfold expects. destruct o; [by intros [= <-]|done]. Qed.
Lemma value_writes_back d j v : value_from_json d j = Ok v → value_to_json v = j.
Proof.
  unfold value_from_json. destruct (d_kind d); intros E%expects_ok; destruct j as [|b|z|t|l|f]; try done.
  all: try (by injection E as <-).
  - revert E. unfold json_i64. cbn [jas_i64]. by case_match; intros [= <-].
  - destruct (mapM jas_str l) as [l'|] eqn:El; [|done]. injection E as <-. cbn. by rewrite (mapM_jas_str_inv l l').
Qed.
Lemma json_eqb_value v : json_eqb (value_to_json v) (value_to_json v) = true.
Proof.
  destruct v as [b|z|t|l]; cbn; [by destruct b|apply Z.eqb_refl|by apply bool_decide_eq_true_2|].
  induction l as [|t l IH]; [done|]. cbn. by rewrite bool_decide_eq_true_2.
Qed.

(** A snapshot that has what was asked for. *)
Definition has_values (sn : Snapshot) (desired : list (string * json)) : Prop :=
  ∀ u, u ∈ desired → value_to_json <$> sn_values sn !! u.1 = Some u.2.
Lemma already_values sn desired :
  no_secret desired → forallb (already sn) desired = true → has_values sn desired.
Proof.
  intros Hns Hall u Hu. rewrite forallb_forall in Hall. specialize (Hall u (proj1 (list_elem_of_In _ _) Hu)).
  unfold already in Hall. destruct (find_def u.1) as [d|] eqn:Ed; [|done]. rewrite (Hns u d Hu Ed) in Hall.
  destruct (sn_values sn !! u.1) as [v|]; [|done]. cbn in *. by apply json_eqb_eq in Hall as ->.
Qed.
Lemma values_already sn desired :
  no_secret desired → (∀ u, u ∈ desired → is_Some (find_def u.1)) → has_values sn desired → forallb (already sn) desired = true.
Proof.
  intros Hns Hdef Hv. apply forallb_forall. intros u Hu%list_elem_of_In. unfold already. destruct (Hdef u Hu) as [d Ed].
  rewrite Ed, (Hns u d Hu Ed). specialize (Hv u Hu). destruct (sn_values sn !! u.1) as [v|]; [|done]. cbn in *.
  injection Hv as <-. apply json_eqb_value.
Qed.

(** How [settings set] ends well: nothing to do, or a patch that was read back. *)
Lemma settings_set_ok key nonce now pairs desired s printed s' :
  parse_pairs [] pairs = Ok desired → settings_set readable key nonce now id pairs s = (CliOk printed, s') →
  (forallb (already (sr_snapshot s)) desired = true ∧ s' = s)
  ∨ ∃ changed t1, patch_txn readable key nonce now (lit "cli") (sn_revision (sr_snapshot s)) desired (sr_tables s) = Ok (changed, t1)
      ∧ sr_tables s' = t1.
Proof.
  intros Hp. unfold settings_set. rewrite Hp. destruct (is_empty desired); [done|]. rewrite st_bind. cbn [st_gets].
  destruct (forallb _ desired) eqn:Ea; [intros [= _ <-]; by left|]. rewrite st_bind.
  destruct (patch _ _ _ _ _ _ _ _ s) as [r s1] eqn:E. intros [= Hr <-].
  apply patch_inv in E as [(e & t0 & -> & _)|(changed & t1 & Ht & Hs & _)]; [done|right]. by exists changed, t1.
Qed.

Abbreviation set_command pairs b := (settings_command readable (lit "set" :: pairs) (Ok b) (Ok ())).

(** What is set offline stays set, and setting it again does nothing. When
    [settings set] succeeds on settings that are not secrets, the tables load,
    the settings have exactly the values given, every other one has the value
    it had, and the same command in a new process (with any bootstrap, clock
    and random numbers) answers that nothing changes and leaves the tables as
    they are, the revision and the audit included. *)
Theorem cli_set_is_idempotent b nonce random now faults pairs desired t printed t' s token :
  parse_pairs [] pairs = Ok desired → no_secret desired →
  initialize readable (bs_secret_key b) (nonce keys.AUTH_OPERATOR_TOKEN_HASH) random now (bs_operator_token_seed b) faults t = Ok (s, token) →
  set_command pairs b nonce random now faults id t = (CliOk printed, t') →
  ∃ sn, load readable t' = Ok sn ∧ has_values sn desired
    ∧ (∀ name, name ∉ desired.*1 → sn_values sn !! name = sn_values (sr_snapshot s) !! name)
    ∧ ∀ b' nonce' random' now' others,
        set_command pairs b' nonce' random' now' [] others t'
        = (CliOk [lit "no changes; already at revision " ++ lit (pretty.pretty (sn_revision sn))], t').
Proof.
  intros Hp Hns Hi. pose proof (initialize_seeded _ _ _ _ _ _ _ _ _ Hi) as Hseed. pose proof (initialize_loaded _ _ _ _ _ _ _ _ _ _ Hi) as Hl.
  pose proof (sorted_keys _ (parse_pairs_sorted _ _ _ (SSorted_nil _) Hp)) as Hnd.
  unfold settings_command at 1. rewrite Hi. cbn [bool_decide]. rewrite bool_decide_eq_false_2, bool_decide_eq_true_2 by done.
  destruct (settings_set _ _ _ _ _ _ s) as [r s1] eqn:Es. intros [= -> <-].
  assert (∃ sn, load readable (sr_tables s1) = Ok sn ∧ has_values sn desired ∧ seeded (sr_tables s1)
    ∧ (∀ u, u ∈ desired → is_Some (find_def u.1))
    ∧ ∀ name, name ∉ desired.*1 → sn_values sn !! name = sn_values (sr_snapshot s) !! name) as (sn & Hl' & Hv & Hseed' & Hdef & Hoth).
  { destruct (settings_set_ok _ _ _ _ _ _ _ _ Hp Es) as [[Ha ->]|(changed & t1 & Ht & Ht1)].
    - exists (sr_snapshot s). split_and!; [done|by apply already_values|done| |done]. intros u Hu.
      rewrite forallb_forall in Ha. specialize (Ha u (proj1 (list_elem_of_In _ _) Hu)). unfold already in Ha.
      destruct (find_def u.1); [by eexists|done].
    - subst t1. pose proof (patch_txn_applied _ _ _ _ _ _ _ _ _ _ Ht) as Happ. pose proof (pa_valid _ _ _ _ _ _ _ _ Happ) as Hval.
      rewrite Forall_forall in Hval.
      destruct (accepted_patch_loads _ _ _ _ _ _ _ _ _ _ _ Hl (se_complete _ Hseed) Hnd Ht) as (sn & Hl' & _ & _ & Hu & Ho).
      exists sn. split_and!; [done| |by eapply patched_seeded| |done].
      + intros u Hin. destruct (Hval u Hin) as (d & v & Hd & Hj & _). rewrite (Hu u d v Hin Hd Hj). cbn.
        unfold stored_form. rewrite (Hns u d Hin Hd). by rewrite (value_writes_back _ _ _ Hj).
      + intros u Hin. destruct (Hval u Hin) as (d & v & Hd & _). by eexists. }
  exists sn. split_and!; [done..|]. intros b' nonce' random' now' others. unfold settings_command.
  rewrite (initialize_nothing _ _ _ _ _ _ sn) by done. rewrite bool_decide_eq_false_2, bool_decide_eq_true_2 by done.
  unfold settings_set. rewrite Hp. destruct (is_empty desired) eqn:Ee.
  { revert Es. unfold settings_set. by rewrite Hp, Ee. }
  rewrite st_bind. cbn [st_gets sr_snapshot]. by rewrite values_already.
Qed.
End cli.

(** The usage says that [settings] without an action prints the settings: the
    command panics instead, whenever the store opens. *)
Lemma settings_without_action_panics `{CryptoLib, JsonText} readable b nonce random now faults others t s token :
  initialize readable (bs_secret_key b) (nonce keys.AUTH_OPERATOR_TOKEN_HASH) random now (bs_operator_token_seed b) faults t = Ok (s, token) →
  settings_command readable [] (Ok b) (Ok ()) nonce random now faults others t = (CliPanic, sr_tables s).
Proof. intros Hi. unfold settings_command. by rewrite Hi. Qed.

(** ** A command at a new database *)

Definition toy_bootstrap : Bootstrap := mkBootstrap [] [] [] None [] false [].
Definition toy_pairs : list text := [lit "limits.max_page_size=x"; lit "server.listen_address=0.0.0.0:9000"].
(** The toy parser reads no digits: a text is itself. *)
Definition toy_set (pairs : list text) : CliEnd * SettingsTables :=
  settings_command (H := toy_lib) (λ _, false) (lit "set" :: pairs) (Ok toy_bootstrap) (Ok ()) (λ _, []) [x01] (lit "t0") [] id no_tables.
Definition toy_again : CliEnd * SettingsTables :=
  settings_command (H := toy_lib) (λ _, false) (lit "set" :: tail toy_pairs) (Ok toy_bootstrap) (Ok ()) (λ _, []) [] (lit "t9") [] id
    (toy_set (tail toy_pairs)).2.
Definition is_done (e : CliEnd) : bool := match e with CliOk _ => true | _ => false end.
Definition printed_of (e : CliEnd) : list text := match e with CliOk p => p | _ => [] end.
(** An integer given as a word is refused, nothing else of the command applies. *)
Lemma toy_refused : is_done (toy_set toy_pairs).1 = false.
Proof. vm_cast_no_check (eq_refl false). Qed.
Lemma cli_set_is_idempotent_witness :
  is_done (toy_set (tail toy_pairs)).1 = true ∧ toy_again.2 = (toy_set (tail toy_pairs)).2.
Proof.
  assert (is_done (toy_set (tail toy_pairs)).1 = true) as Hok by (vm_cast_no_check (eq_refl true)). split; [exact Hok|].
  destruct (toy_set (tail toy_pairs)) as [[printed|p e|] t'] eqn:E; try discriminate Hok.
  destruct (cli_set_is_idempotent (H := toy_lib) (λ _, false) toy_bootstrap (λ _, []) [x01] (lit "t0") [] (tail toy_pairs)
    [("server.listen_address"%string, JStr (lit "0.0.0.0:9000"))] no_tables printed t' example_store example_token) as (sn & _ & _ & _ & Hagain).
  - vm_cast_no_check (eq_refl (Ok (E := text) [("server.listen_address"%string, JStr (lit "0.0.0.0:9000"))])).
  - intros u d ->%list_elem_of_singleton. cbn [fst]. intros Hd.
    assert (from_option d_secret true (find_def "server.listen_address"%string) = false) as Hs by (vm_cast_no_check (eq_refl false)).
    by rewrite Hd in Hs.
  - exact example_started.
  - exact E.
  - unfold toy_again. rewrite E. cbn [snd]. rewrite Hagain. reflexivity.
Defined.
