(* ===== verification/Metrics.v ===== *)
(** * The server's metrics ([server/src/metrics.rs])

    Counters, gauges and histograms, each a word that wraps, and the text the
    metrics endpoint answers, line by line. Where the rest of the server counts
    something is not modelled: a counter is not part of any other definition.
    How a float prints is a parameter. *)

From Stdlib Require Import SpecFloat.
From S2P Require Export Float64.

Open Scope N_scope.
Open Scope hype_scope.

(** ** The series *)

(** The [static]s, by their names. *)
Inductive GaugeName :=
| PUBLISHER_CONNECTIONS | MIRROR_CONNECTIONS | TERMINALS_OPEN | TERMINALS_RESIDENT
| TERMINAL_OPEN_REQUESTS_PENDING | REPLAY_BYTES_RESIDENT | DIRTY_BYTES | DURABLE_OFFSET_LAG_BYTES
| STORAGE_BYTES | STORAGE_UNAVAILABLE | SETTINGS_REVISION | SETTINGS_COMMITTED_REVISION.
Inductive CounterName :=
| PUBLISHER_CONNECTIONS_TOTAL | MIRROR_CONNECTIONS_TOTAL | PUBLISHERS_SUPERSEDED
| TERMINALS_OPENED_TOTAL | TERMINALS_CLOSED_TOTAL | TERMINAL_OPEN_REQUESTS_OPENED
| TERMINAL_OPEN_REQUESTS_DECLINED | TERMINAL_OPEN_REQUESTS_UNAVAILABLE | TERMINAL_OPEN_REQUESTS_TIMEOUT
| TERMINAL_OPEN_REQUESTS_REFUSED | OUTPUT_BYTES_ACCEPTED | OUTPUT_BYTES_DELIVERED
| OUTPUT_BYTES_REPLAYED | EVICTED_BYTES | EVICTIONS
| CHECKPOINT_TRANSACTIONS | CHECKPOINT_FAILURES | CHECKPOINT_ROWS_WRITTEN
| CHECKPOINT_FRAMES_COALESCED | OFFSET_MISMATCHES | OFFSET_AHEAD_REJECTIONS
| REPLAY_GAPS | SLOW_CONSUMER_DISCONNECTS | OVERSIZED_FRAMES_REJECTED
| BACKPRESSURE_WAITS | BACKPRESSURE_TIMEOUTS | INPUT_FRAMES_DELIVERED
| INPUT_BYTES_DELIVERED | INPUT_FRAMES_REFUSED | INPUT_RATE_LIMITED
| RESIZE_REQUESTS_FORWARDED | AUTH_FAILURES | AUTH_SUCCESSES
| CHALLENGES_ISSUED | CHALLENGES_CONSUMED | RATE_LIMITED_REQUESTS
| DEVICE_REVOCATIONS | REVOCATION_ENFORCED_DISCONNECTS | STORAGE_ERRORS
| RETENTION_TERMINALS_DELETED | QUOTA_TERMINALS_DELETED | SETTINGS_RELOAD_FAILURES
| LISTENER_REBINDS | HTTP_REQUESTS | HTTP_REQUESTS_FAILED.
Inductive HistogramName :=
| CHECKPOINT_BATCH_BYTES | CHECKPOINT_BATCH_AGE_SECONDS | CHECKPOINT_TERMINALS_PER_BATCH
| HTTP_REQUEST_SECONDS.
#[export] Instance GaugeName_eq_dec : EqDecision GaugeName.
Proof. solve_decision. Defined.
#[export] Instance CounterName_eq_dec : EqDecision CounterName.
Proof. solve_decision. Defined.
#[export] Instance HistogramName_eq_dec : EqDecision HistogramName.
Proof. solve_decision. Defined.

Definition two63 : Z := 9223372036854775808.
(** An [AtomicI64] wraps. *)
Definition wrap_i64 (z : Z) : Z := ((z + two63) mod (2 * two63) - two63)%Z.
(** [value as u64]: truncated, and clipped to the type's range. *)
Definition f64_to_u64 (a : f64) : N :=
  match a with
  | S754_finite false m e =>
      N.min (two64 - 1) (if Z.leb 0 e then N.pos m * 2 ^ Z.to_N e else N.pos m / 2 ^ Z.to_N (- e))
  | S754_infinity false => two64 - 1
  | _ => 0
  end.

(** ** Histograms *)

(** [buckets] has sixteen places, whatever the bounds. *)
Definition BUCKETS : nat := 16.
Record Histogram := mkHistogram {
  hi_bounds : list f64;
  hi_buckets : list N;
  hi_sum : N;
  hi_count : N;
}.
Definition histogram_new (bounds : list f64) : Histogram := mkHistogram bounds (repeat 0 BUCKETS) 0 0.
(** [position], or the place after the last. *)
Fixpoint bucket_index (value : f64) (bounds : list f64) : nat :=
  match bounds with
  | [] => 0
  | b :: bounds => if f64_le value b then 0 else S (bucket_index value bounds)
  end.
Definition histogram_observe (value : f64) (h : Histogram) : Histogram :=
  mkHistogram (hi_bounds h) (alter (λ n, n +₆₄ 1) (bucket_index value (hi_bounds h)) (hi_buckets h))
    (hi_sum h +₆₄ f64_to_u64 (f64_mul value (f64_of_Z 1000000))) (hi_count h +₆₄ 1).

(** ** All of them *)

(** A literal such as [0.05]: the nearest double. *)
Definition decimal (n d : Z) : f64 := f64_div (f64_of_Z n) (f64_of_Z d).
Definition bounds_of (h : HistogramName) : list f64 :=
  match h with
  | CHECKPOINT_BATCH_BYTES => [f64_of_Z 4096; f64_of_Z 16384; f64_of_Z 65536; f64_of_Z 262144; f64_of_Z 1048576; f64_of_Z 4194304]
  | CHECKPOINT_BATCH_AGE_SECONDS => [decimal 1 100; decimal 5 100; decimal 25 100; f64_of_Z 1; f64_of_Z 5; f64_of_Z 15; f64_of_Z 60]
  | CHECKPOINT_TERMINALS_PER_BATCH => [f64_of_Z 1; f64_of_Z 2; f64_of_Z 4; f64_of_Z 8; f64_of_Z 16; f64_of_Z 64; f64_of_Z 256]
  | HTTP_REQUEST_SECONDS => [decimal 1 1000; decimal 5 1000; decimal 25 1000; decimal 1 10; decimal 5 10; f64_of_Z 1; f64_of_Z 5; f64_of_Z 30]
  end.
Record Metrics := mkMetrics {
  mt_counter : CounterName → N;
  mt_gauge : GaugeName → Z;
  mt_histogram : HistogramName → Histogram;
}.
Definition metrics_new : Metrics := mkMetrics (λ _, 0) (λ _, 0%Z) (λ h, histogram_new (bounds_of h)).
(** [Counter::add], [Gauge::set], [add] and [sub], [Histogram::observe]. *)
Definition update_at {K A} `{EqDecision K} (k : K) (f : A → A) (m : K → A) : K → A := λ k', if decide (k' = k) then f (m k') else m k'.
Definition counter_add (c : CounterName) (n : N) (m : Metrics) : Metrics :=
  mkMetrics (update_at c (λ v, v +₆₄ n) (mt_counter m)) (mt_gauge m) (mt_histogram m).
Definition gauge_set (g : GaugeName) (v : Z) (m : Metrics) : Metrics :=
  mkMetrics (mt_counter m) (update_at g (λ _, v) (mt_gauge m)) (mt_histogram m).
Definition gauge_add (g : GaugeName) (v : Z) (m : Metrics) : Metrics :=
  mkMetrics (mt_counter m) (update_at g (λ w, wrap_i64 (w + v)) (mt_gauge m)) (mt_histogram m).
Definition gauge_sub (g : GaugeName) (v : Z) (m : Metrics) : Metrics :=
  mkMetrics (mt_counter m) (update_at g (λ w, wrap_i64 (w - v)) (mt_gauge m)) (mt_histogram m).
Definition observe (h : HistogramName) (v : f64) (m : Metrics) : Metrics :=
  mkMetrics (mt_counter m) (mt_gauge m) (update_at h (histogram_observe v) (mt_histogram m)).

(** ** The text *)

(** The calls of [render], in its order. *)
Definition gauge_rows : list (string * string * (Metrics → Z)) := [
  ("relay_publisher_connections"%string, "Active publisher relay connections."%string, λ m, mt_gauge m PUBLISHER_CONNECTIONS);
  ("relay_mirror_connections"%string, "Active mirror subscriptions."%string, λ m, mt_gauge m MIRROR_CONNECTIONS);
  ("relay_terminals_open"%string, "Terminals in the open state."%string, λ m, mt_gauge m TERMINALS_OPEN);
  ("relay_terminal_open_requests_pending"%string, "Terminal-open requests awaiting a publisher's answer."%string, λ m, mt_gauge m TERMINAL_OPEN_REQUESTS_PENDING);
  ("relay_terminals_resident"%string, "Terminals with an in-memory replay buffer."%string, λ m, mt_gauge m TERMINALS_RESIDENT);
  ("relay_replay_bytes_resident"%string, "Output bytes held in in-memory replay buffers."%string, λ m, mt_gauge m REPLAY_BYTES_RESIDENT);
  ("relay_dirty_bytes"%string, "Accepted output bytes not yet committed."%string, λ m, mt_gauge m DIRTY_BYTES);
  ("relay_durable_offset_lag_bytes"%string, "Sum over terminals of next_offset minus durable_offset."%string, λ m, mt_gauge m DURABLE_OFFSET_LAG_BYTES);
  ("relay_storage_bytes"%string, "Durable storage consumed, including WAL."%string, λ m, mt_gauge m STORAGE_BYTES);
  ("relay_storage_unavailable"%string, "1 when durable storage is failing and readiness is degraded."%string, λ m, mt_gauge m STORAGE_UNAVAILABLE);
  ("relay_settings_revision"%string, "Settings revision applied by this instance."%string, λ m, mt_gauge m SETTINGS_REVISION);
  ("relay_settings_committed_revision"%string, "Latest settings revision committed to the database."%string, λ m, mt_gauge m SETTINGS_COMMITTED_REVISION);
  ("relay_settings_propagation_lag_revisions"%string, "Committed settings revision minus the revision applied here."%string, λ m, wrap_i64 (mt_gauge m SETTINGS_COMMITTED_REVISION - mt_gauge m SETTINGS_REVISION))].
(** First what the relay carries, then the service around it. *)
Definition relay_counters : list (string * string * CounterName) := [
  ("relay_publisher_connections_total"%string, "Publisher connections accepted."%string, PUBLISHER_CONNECTIONS_TOTAL);
  ("relay_mirror_connections_total"%string, "Mirror subscriptions accepted."%string, MIRROR_CONNECTIONS_TOTAL);
  ("relay_publishers_superseded_total"%string, "Publisher connections closed because a newer one took over the device."%string, PUBLISHERS_SUPERSEDED);
  ("relay_terminals_opened_total"%string, "Terminals opened."%string, TERMINALS_OPENED_TOTAL);
  ("relay_terminals_closed_total"%string, "Terminals closed."%string, TERMINALS_CLOSED_TOTAL);
  ("relay_terminal_open_requests_opened_total"%string, "Terminal-open requests a publisher honoured."%string, TERMINAL_OPEN_REQUESTS_OPENED);
  ("relay_terminal_open_requests_declined_total"%string, "Terminal-open requests a publisher refused."%string, TERMINAL_OPEN_REQUESTS_DECLINED);
  ("relay_terminal_open_requests_unavailable_total"%string, "Terminal-open requests with no capable publisher connected."%string, TERMINAL_OPEN_REQUESTS_UNAVAILABLE);
  ("relay_terminal_open_requests_timeout_total"%string, "Terminal-open requests a publisher never answered."%string, TERMINAL_OPEN_REQUESTS_TIMEOUT);
  ("relay_terminal_open_requests_refused_total"%string, "Terminal-open requests the relay refused before asking anybody."%string, TERMINAL_OPEN_REQUESTS_REFUSED);
  ("relay_output_bytes_accepted_total"%string, "Output payload bytes accepted from publishers."%string, OUTPUT_BYTES_ACCEPTED);
  ("relay_output_bytes_delivered_total"%string, "Output payload bytes delivered to subscribers, live and replayed."%string, OUTPUT_BYTES_DELIVERED);
  ("relay_output_bytes_replayed_total"%string, "Output payload bytes delivered from the replay window."%string, OUTPUT_BYTES_REPLAYED);
  ("relay_evicted_bytes_total"%string, "Output bytes evicted from replay buffers."%string, EVICTED_BYTES);
  ("relay_evictions_total"%string, "Replay buffer eviction operations."%string, EVICTIONS);
  ("relay_checkpoint_transactions_total"%string, "Database transactions used to commit terminal output."%string, CHECKPOINT_TRANSACTIONS);
  ("relay_checkpoint_failures_total"%string, "Failed checkpoint commits."%string, CHECKPOINT_FAILURES);
  ("relay_checkpoint_rows_written_total"%string, "Rows written by checkpoint transactions."%string, CHECKPOINT_ROWS_WRITTEN);
  ("relay_checkpoint_frames_coalesced_total"%string, "Publisher output frames folded into checkpoint transactions."%string, CHECKPOINT_FRAMES_COALESCED);
  ("relay_offset_mismatches_total"%string, "Rejected publisher frames whose start offset did not match."%string, OFFSET_MISMATCHES);
  ("relay_offset_ahead_rejections_total"%string, "Subscriptions rejected for requesting an offset beyond next_offset."%string, OFFSET_AHEAD_REJECTIONS);
  ("relay_replay_gaps_total"%string, "Subscriptions served with a replay gap notice."%string, REPLAY_GAPS);
  ("relay_slow_consumer_disconnects_total"%string, "Subscribers disconnected for exceeding their outbound queue bound."%string, SLOW_CONSUMER_DISCONNECTS);
  ("relay_oversized_frames_rejected_total"%string, "Frames rejected for exceeding the negotiated frame size."%string, OVERSIZED_FRAMES_REJECTED);
  ("relay_backpressure_waits_total"%string, "Times a publisher waited for a checkpoint before its frame was accepted."%string, BACKPRESSURE_WAITS);
  ("relay_backpressure_timeouts_total"%string, "Times a publisher exceeded its unacknowledged window past the wait deadline."%string, BACKPRESSURE_TIMEOUTS);
  ("relay_input_frames_delivered_total"%string, "Terminal input frames delivered to publishers."%string, INPUT_FRAMES_DELIVERED);
  ("relay_input_bytes_delivered_total"%string, "Terminal input payload bytes delivered to publishers."%string, INPUT_BYTES_DELIVERED);
  ("relay_input_frames_refused_total"%string, "Terminal input frames refused, for any reason."%string, INPUT_FRAMES_REFUSED);
  ("relay_input_rate_limited_total"%string, "Terminal input frames refused by a per-subscriber rate limit."%string, INPUT_RATE_LIMITED);
  ("relay_resize_requests_forwarded_total"%string, "Subscriber resize requests forwarded to publishers."%string, RESIZE_REQUESTS_FORWARDED)].
Definition service_counters : list (string * string * CounterName) := [
  ("relay_auth_failures_total"%string, "Failed authentication attempts."%string, AUTH_FAILURES);
  ("relay_auth_successes_total"%string, "Successful authentications."%string, AUTH_SUCCESSES);
  ("relay_challenges_issued_total"%string, "Proof-of-possession challenges issued."%string, CHALLENGES_ISSUED);
  ("relay_challenges_consumed_total"%string, "Challenges consumed by a verification attempt."%string, CHALLENGES_CONSUMED);
  ("relay_rate_limited_requests_total"%string, "Requests rejected by a rate limit."%string, RATE_LIMITED_REQUESTS);
  ("relay_device_revocations_total"%string, "Devices revoked."%string, DEVICE_REVOCATIONS);
  ("relay_revocation_enforced_disconnects_total"%string, "Connections closed because their principal was revoked."%string, REVOCATION_ENFORCED_DISCONNECTS);
  ("relay_storage_errors_total"%string, "Durable storage errors."%string, STORAGE_ERRORS);
  ("relay_retention_terminals_deleted_total"%string, "Closed terminals deleted after their retention period."%string, RETENTION_TERMINALS_DELETED);
  ("relay_quota_terminals_deleted_total"%string, "Closed terminals deleted to satisfy the storage quota."%string, QUOTA_TERMINALS_DELETED);
  ("relay_settings_reload_failures_total"%string, "Committed settings revisions that could not be applied."%string, SETTINGS_RELOAD_FAILURES);
  ("relay_listener_rebinds_total"%string, "Listener rebinds performed."%string, LISTENER_REBINDS);
  ("relay_http_requests_total"%string, "HTTP requests served."%string, HTTP_REQUESTS);
  ("relay_http_requests_failed_total"%string, "HTTP requests answered with an error status."%string, HTTP_REQUESTS_FAILED)].
Definition counter_rows : list (string * string * CounterName) := relay_counters ++ service_counters.
Definition histogram_rows : list (string * string * HistogramName) := [
  ("relay_checkpoint_batch_bytes"%string, "Output bytes per checkpoint transaction."%string, CHECKPOINT_BATCH_BYTES);
  ("relay_checkpoint_batch_age_seconds"%string, "Age of the oldest dirty byte when a checkpoint committed."%string, CHECKPOINT_BATCH_AGE_SECONDS);
  ("relay_checkpoint_terminals_per_batch"%string, "Terminals coalesced into one checkpoint transaction."%string, CHECKPOINT_TERMINALS_PER_BATCH);
  ("relay_http_request_seconds"%string, "HTTP request latency."%string, HTTP_REQUEST_SECONDS)].

Section render.
Context (show_f64 : f64 → text).

Definition help_line (name help : string) : text := lit "# HELP " ++ lit name ++ lit " " ++ lit help.
Definition type_line (name kind : string) : text := lit "# TYPE " ++ lit name ++ lit " " ++ lit kind.
Definition sample_line (name : text) (value : text) : text := name ++ lit " " ++ value.
Definition bucket_name (name : string) (bound : text) : text := lit name ++ lit "_bucket{le=" ++ [34] ++ bound ++ [34] ++ lit "}".

(** The buckets' lines; [cumulative] is the sum so far. *)
Fixpoint bucket_lines (name : string) (cumulative : N) (bounds : list f64) (buckets : list N) : list text :=
  match bounds with
  | [] => [sample_line (bucket_name name (lit "+Inf")) (lit (pretty.pretty (cumulative + default 0 (head buckets))))]
  | b :: bounds =>
      let cumulative := cumulative + default 0 (head buckets) in
      sample_line (bucket_name name (show_f64 b)) (lit (pretty.pretty cumulative)) :: bucket_lines name cumulative bounds (tail buckets)
  end.
Definition histogram_lines (name help : string) (h : Histogram) : list text :=
  [help_line name help; type_line name "histogram"]
  ++ bucket_lines name 0 (hi_bounds h) (hi_buckets h)
  ++ [sample_line (lit name ++ lit "_sum") (show_f64 (f64_div (f64_of_Z (Z.of_N (hi_sum h))) (f64_of_Z 1000000)));
      sample_line (lit name ++ lit "_count") (lit (pretty.pretty (hi_count h)))].
Definition gauge_lines (m : Metrics) (row : string * string * (Metrics → Z)) : list text :=
  let '(name, help, value) := row in
  [help_line name help; type_line name "gauge"; sample_line (lit name) (lit (pretty.pretty (value m)))].
Definition counter_lines (m : Metrics) (row : string * string * CounterName) : list text :=
  let '(name, help, c) := row in
  [help_line name help; type_line name "counter"; sample_line (lit name) (lit (pretty.pretty (mt_counter m c)))].
Definition render_lines (m : Metrics) : list text :=
  mjoin (gauge_lines m <$> gauge_rows) ++ mjoin (counter_lines m <$> counter_rows)
  ++ mjoin ((λ '(name, help, h), histogram_lines name help (mt_histogram m h)) <$> histogram_rows).
Definition render (m : Metrics) : text := mjoin ((λ l, l ++ [10]) <$> render_lines m).
End render.
