(* ===== verification/MetricsProps.v ===== *)
(** * Theorems about the metrics

    A histogram counts its observations under every bound, and the text has
    every metric once under a name of its own. *)

From Stdlib Require Import SpecFloat.
From S2P Require Export Metrics.

Open Scope N_scope.
Open Scope hype_scope.

(** ** Comparing doubles *)

(** Not above: with no not-a-number on either side. *)
Lemma f64_le_trans a b c : f64_le a b = true → f64_le b c = true → f64_le a c = true.
Proof.
  unfold f64_le, SFleb, SFcompare.
  destruct a as [sa|sa| |sa ma ea], b as [sb|sb| |sb mb eb], c as [sc|sc| |sc mc ec];
    try destruct sa; try destruct sb; try destruct sc; try done.
  all: repeat match goal with |- context [PosDef.Pos.compare_cont Eq ?m ?n] => change (PosDef.Pos.compare_cont Eq m n) with (Pos.compare m n) end.
  all: destruct (Z.compare_spec ea eb), (Z.compare_spec eb ec), (Z.compare_spec ea ec); try done; try lia.
  all: destruct (Pos.compare_spec ma mb), (Pos.compare_spec mb mc), (Pos.compare_spec ma mc); cbn; try done; try lia.
Qed.

(** ** Histograms *)

Definition bucket_sum (l : list N) : N := foldr N.add 0 l.
Lemma bucket_sum_app a b : bucket_sum (a ++ b) = bucket_sum a + bucket_sum b.
Proof. induction a as [|n a IH]; cbn; [done|]. fold (bucket_sum (a ++ b)) (bucket_sum a). rewrite IH. lia. Qed.
Lemma bucket_sum_zero n m : bucket_sum (take n (repeat 0 m)) = 0.
Proof. revert n. induction m as [|m IH]; intros [|n]; cbn; [done..|]. by apply (IH n). Qed.
Lemma bucket_sum_alter l k f n :
  l !! k = Some n → bucket_sum (alter f k l) + n = bucket_sum l + f n.
Proof.
  revert k. induction l as [|m l IH]; intros [|k]; cbn; try done.
  - intros [= ->]. lia.
  - intros Hk. fold (bucket_sum (alter f k l)) (bucket_sum l). specialize (IH k Hk). lia.
Qed.

Lemma bucket_sum_lookup l k n : l !! k = Some n → n ≤ bucket_sum l.
Proof.
  revert k. induction l as [|m l IH]; intros [|k]; cbn; try done; [intros [= ->]; lia|]. intros Hk%IH. unfold bucket_sum in *. lia.
Qed.

(** Bounds in ascending order. *)
Fixpoint ascending (bounds : list f64) : bool :=
  match bounds with
  | a :: ((b :: _) as rest) => f64_le a b && ascending rest
  | _ => true
  end.
Lemma ascending_bounds h : ascending (bounds_of h) = true ∧ (length (bounds_of h) < BUCKETS)%nat.
Proof. destruct h; (split; [by vm_compute|vm_compute; lia]). Qed.
Lemma ascending_tail a bounds : ascending (a :: bounds) = true → ascending bounds = true.
Proof. destruct bounds as [|b bounds]; [done|]. by intros [_ ?]%andb_true_iff. Qed.
Lemma ascending_later a bounds i b : ascending (a :: bounds) = true → bounds !! i = Some b → f64_le a b = true.
Proof.
  revert a i. induction bounds as [|c bounds IH]; intros a i; [done|]. intros [Hac Hc]%andb_true_iff.
  destruct i as [|i]; cbn; [by intros [= <-]|]. intros Hi. eapply f64_le_trans; [exact Hac|]. by apply (IH c i).
Qed.
Lemma bucket_index_spec v bounds i b :
  ascending bounds = true → bounds !! i = Some b → f64_le v b = bool_decide (bucket_index v bounds ≤ i)%nat.
Proof.
  revert i. induction bounds as [|a bounds IH]; intros i Ha; [done|]. destruct i as [|i]; cbn.
  - intros [= ->]. destruct (f64_le v b) eqn:E; symmetry; [apply bool_decide_eq_true|apply bool_decide_eq_false]; lia.
  - intros Hi. destruct (f64_le v a) eqn:E.
    + rewrite bool_decide_eq_true_2 by lia. eapply f64_le_trans; [exact E|]. by eapply ascending_later.
    + rewrite (IH i (ascending_tail _ _ Ha) Hi). apply bool_decide_ext. lia.
Qed.
Lemma bucket_index_le v bounds : (bucket_index v bounds ≤ length bounds)%nat.
Proof. induction bounds as [|a bounds IH]; cbn; [lia|]. destruct (f64_le v a); lia. Qed.

Definition observed (h : Histogram) (vs : list f64) : Histogram := foldl (λ h v, histogram_observe v h) h vs.
Lemma observed_bounds h vs : hi_bounds (observed h vs) = hi_bounds h.
Proof. revert h. induction vs as [|v vs IH]; intros h; [done|]. cbn. by rewrite IH. Qed.

Definition within (bounds : list f64) (i : nat) (v : f64) : Prop := (bucket_index v bounds ≤ i)%nat.
#[local] Instance within_dec bounds i v : Decision (within bounds i v).
Proof. unfold within. apply _. Defined.
(** The first places together count the observations that fell into them. *)
Lemma observed_buckets bounds vs :
  (length bounds < BUCKETS)%nat → len vs < two64 →
  let h := observed (histogram_new bounds) vs in
  length (hi_buckets h) = BUCKETS ∧ hi_count h = len vs
  ∧ ∀ i, bucket_sum (take (S i) (hi_buckets h)) = len (filter (within bounds i) vs).
Proof.
  intros Hb. induction vs as [|v vs IH] using rev_ind; intros Hl h; subst h.
  { split; [done|]. split; [done|]. intros i. cbn [filter list_filter]. unfold len. cbn [length]. unfold observed. cbn [foldl hi_buckets histogram_new].
    apply bucket_sum_zero. }
  rewrite len_app in Hl. change (len [v]) with 1 in Hl. destruct IH as (Hlen & Hc & Hs); [lia|]. unfold observed in *. rewrite foldl_snoc.
  set (h := foldl (λ h v, histogram_observe v h) (histogram_new bounds) vs) in *. unfold histogram_observe. cbn [hi_buckets hi_count].
  assert (hi_bounds h = bounds) as -> by (apply (observed_bounds (histogram_new bounds))).
  pose proof (bucket_index_le v bounds) as Hk. set (k := bucket_index v bounds) in *.
  split; [by rewrite length_alter|]. split; [rewrite Hc, len_app, wadd64_small; [done|lia]|]. intros i.
  rewrite filter_app, len_app, <- Hs. destruct (lookup_lt_is_Some_2 (hi_buckets h) k ltac:(lia)) as [n Hn].
  rewrite filter_cons, filter_nil. destruct (decide (within bounds i v)) as [Hw|Hw]; unfold within in Hw; fold k in Hw.
  - assert (take (S i) (hi_buckets h) !! k = Some n) as Hn' by (rewrite lookup_take_lt by lia; done).
    rewrite take_alter, decide_True by lia. pose proof (bucket_sum_alter _ _ (λ n, n +₆₄ 1) _ Hn') as E.
    assert (n ≤ bucket_sum (take (S i) (hi_buckets h))) as Hle.
    { by eapply bucket_sum_lookup. }
    rewrite Hs in *. assert (len (filter (within bounds i) vs) ≤ len vs) as Hf by (unfold len; pose proof (length_filter (within bounds i) vs); lia).
    rewrite wadd64_small in E by lia. change (len [v]) with 1. lia.
  - rewrite take_alter, decide_False by lia. unfold len. cbn. lia.
Qed.

Lemma bucket_sum_take k buckets :
  default 0 (head buckets) + bucket_sum (take k (tail buckets)) = bucket_sum (take (S k) buckets).
Proof. destruct buckets as [|n buckets]; [by destruct k|done]. Qed.
Lemma bucket_sum_head buckets : default 0 (head buckets) = bucket_sum (take 1 buckets).
Proof. rewrite <- bucket_sum_take, firstn_O. by rewrite N.add_0_r. Qed.
(** The text's lines of a histogram, from the sums. *)
Lemma bucket_lines_spec show name cumulative bounds buckets :
  bucket_lines show name cumulative bounds buckets
  = imap (λ i b, sample_line (bucket_name name (show b)) (lit (pretty.pretty (cumulative + bucket_sum (take (S i) buckets))))) bounds
    ++ [sample_line (bucket_name name (lit "+Inf")) (lit (pretty.pretty (cumulative + bucket_sum (take (S (length bounds)) buckets))))].
Proof.
  revert cumulative buckets. induction bounds as [|b bounds IH]; intros cumulative buckets; cbn [bucket_lines].
  { cbn [imap length app]. by rewrite bucket_sum_head. }
  rewrite imap_cons, IH. cbn [app length]. f_equal; [by rewrite bucket_sum_head|].
  rewrite <- N.add_assoc, bucket_sum_take. f_equal. apply imap_ext. intros i x _. cbn [compose].
  by rewrite <- N.add_assoc, bucket_sum_take.
Qed.

(** Everything that happens to the metrics. *)
Inductive MetricOp :=
| OpCount (c : CounterName) (n : N)
| OpSet (g : GaugeName) (v : Z)
| OpAdd (g : GaugeName) (v : Z)
| OpSub (g : GaugeName) (v : Z)
| OpObserve (h : HistogramName) (v : f64).
Definition metrics_step (m : Metrics) (op : MetricOp) : Metrics :=
  match op with
  | OpCount c n => counter_add c n m
  | OpSet g v => gauge_set g v m
  | OpAdd g v => gauge_add g v m
  | OpSub g v => gauge_sub g v m
  | OpObserve h v => observe h v m
  end.
Definition observations (h : HistogramName) (ops : list MetricOp) : list f64 :=
  omap (λ op, match op with OpObserve h' v => if decide (h' = h) then Some v else None | _ => None end) ops.
Lemma metrics_histogram h ops m :
  mt_histogram (foldl metrics_step m ops) h = observed (mt_histogram m h) (observations h ops).
Proof.
  revert m. induction ops as [|op ops IH]; intros m; [done|]. cbn [foldl]. rewrite IH.
  destruct op as [c n|g v|g v|g v|h' v]; try done. cbn. unfold update_at. destruct (decide (h' = h)) as [->|Hh].
  - by rewrite decide_True.
  - by rewrite decide_False.
Qed.
Lemma within_all bounds (vs : list f64) : filter (within bounds (length bounds)) vs = vs.
Proof.
  induction vs as [|v vs IH]; [done|]. rewrite filter_cons, decide_True by apply bucket_index_le. by rewrite IH.
Qed.

(** A histogram is a histogram. Whatever was counted, set and observed, in
    whatever order and in whichever metric: the line of a bound gives the number
    of observations of that histogram that are at most the bound, the last
    bucket and the count give all of them, as long as there were fewer than
    2^64. An observation that is no number is in the last bucket only. *)
Theorem histogram_counts_observations show name h ops :
  let vs := observations h ops in
  let hist := mt_histogram (foldl metrics_step metrics_new ops) h in
  len vs < two64 →
  bucket_lines show name 0 (hi_bounds hist) (hi_buckets hist)
  = ((λ b, sample_line (bucket_name name (show b)) (lit (pretty.pretty (len (filter (λ v, f64_le v b = true) vs))))) <$> bounds_of h)
    ++ [sample_line (bucket_name name (lit "+Inf")) (lit (pretty.pretty (len vs)))]
  ∧ hi_count hist = len vs.
Proof.
  intros vs hist Hl. subst hist. rewrite metrics_histogram. fold vs. cbn [mt_histogram metrics_new].
  destruct (ascending_bounds h) as [Ha Hb]. destruct (observed_buckets (bounds_of h) vs Hb Hl) as (_ & Hc & Hs). split; [|done].
  rewrite bucket_lines_spec, observed_bounds. cbn [hi_bounds histogram_new]. rewrite Hs, within_all. f_equal.
  rewrite <- imap_const. apply imap_ext. intros i b Hi. rewrite Hs. unfold const.
  assert (filter (within (bounds_of h) i) vs = filter (λ v, f64_le v b = true) vs) as ->; [|done]. apply list_filter_iff. intros v.
  rewrite (bucket_index_spec v (bounds_of h) i b Ha Hi). symmetry. apply bool_decide_eq_true.
Qed.

(** ** The text *)

Definition metric_names : list string := gauge_rows.*1.*1 ++ counter_rows.*1.*1 ++ histogram_rows.*1.*1.
Definition ends_in (suffix name : string) : bool :=
  bool_decide (drop (length (lit name) - length (lit suffix)) (lit name) = lit suffix).
Definition counter_rendered (c : CounterName) : bool :=
  existsb (λ row, bool_decide (row.2 = c) && ends_in "_total" row.1.1) counter_rows.
Definition histogram_rendered (h : HistogramName) : bool := existsb (λ row, bool_decide (row.2 = h)) histogram_rows.

Lemma counter_line show m name help c :
  (name, help, c) ∈ counter_rows → sample_line (lit name) (lit (pretty.pretty (mt_counter m c))) ∈ render_lines show m.
Proof.
  intros Hr. unfold render_lines. apply elem_of_app. right. apply elem_of_app. left.
  apply list_elem_of_join. exists (counter_lines m (name, help, c)). split; [set_solver|]. apply list_elem_of_fmap. by eexists.
Qed.
Lemma gauge_line show m name help value :
  (name, help, value) ∈ gauge_rows → sample_line (lit name) (lit (pretty.pretty (value m))) ∈ render_lines show m.
Proof.
  intros Hr. unfold render_lines. apply elem_of_app. left.
  apply list_elem_of_join. exists (gauge_lines m (name, help, value)). split; [set_solver|]. apply list_elem_of_fmap. by eexists.
Qed.

(** The metrics are all there, under names of their own. Every counter,
    gauge and histogram is rendered, the counters and histograms exactly once,
    no two series share a name, every name starts with relay_ and a counter's
    ends in _total; and the text has, for every counter and gauge, the line of
    its name and its value. *)
Theorem metrics_are_complete show m :
  NoDup metric_names ∧ NoDup counter_rows.*2 ∧ NoDup histogram_rows.*2
  ∧ (∀ name, name ∈ metric_names → take 6 (lit name) = lit "relay_")
  ∧ (∀ c, ∃ name, ends_in "_total" name = true
       ∧ sample_line (lit name) (lit (pretty.pretty (mt_counter m c))) ∈ render_lines show m)
  ∧ (∀ g, ∃ name, sample_line (lit name) (lit (pretty.pretty (mt_gauge m g))) ∈ render_lines show m)
  ∧ ∀ h, histogram_rendered h = true.
Proof.
  split; [apply (bool_decide_unpack (NoDup metric_names)); by vm_compute|].
  split; [apply (bool_decide_unpack (NoDup counter_rows.*2)); by vm_compute|].
  split; [apply (bool_decide_unpack (NoDup histogram_rows.*2)); by vm_compute|].
  split; [|split; [|split]].
  - intros name Hn. assert (forallb (λ name, bool_decide (take 6 (lit name) = lit "relay_")) metric_names = true) as Hall
      by by vm_compute.
    rewrite forallb_forall in Hall. apply list_elem_of_In, Hall in Hn. by apply bool_decide_eq_true in Hn.
  - intros c. assert (counter_rendered c = true) as Hc by (by destruct c; vm_compute).
    apply existsb_exists in Hc as ([[name help] c'] & Hin & [Heq%bool_decide_eq_true Ht]%andb_true_iff). cbn in Heq, Ht. subst c'.
    exists name. split; [done|]. by eapply counter_line, list_elem_of_In.
  - intros g. assert (∃ name help, (name, help, λ m, mt_gauge m g) ∈ gauge_rows) as (name & help & Hin).
    { destruct g; do 2 eexists; unfold gauge_rows; repeat (apply list_elem_of_here || apply list_elem_of_further). }
    exists name. apply (gauge_line show m name help _ Hin).
  - by intros []; vm_compute.
Qed.

(** A request of two milliseconds, one of forty seconds, and what is no number. *)
Definition some_requests : list MetricOp :=
  [OpCount HTTP_REQUESTS 3; OpObserve HTTP_REQUEST_SECONDS (decimal 2 1000); OpObserve CHECKPOINT_BATCH_BYTES (f64_of_Z 1);
   OpObserve HTTP_REQUEST_SECONDS (f64_of_Z 40); OpObserve HTTP_REQUEST_SECONDS S754_nan].
Lemma histogram_counts_observations_witness :
  let hist := mt_histogram (foldl metrics_step metrics_new some_requests) HTTP_REQUEST_SECONDS in
  bucket_lines (λ _, lit "x") "t" 0 (hi_bounds hist) (hi_buckets hist)
  = ((λ n, sample_line (bucket_name "t" (lit "x")) (lit n)) <$> ["0"; "1"; "1"; "1"; "1"; "1"; "1"; "1"]%string)
    ++ [sample_line (bucket_name "t" (lit "+Inf")) (lit "3")]
  ∧ hi_count hist = 3.
Proof.
  intros hist. destruct (histogram_counts_observations (λ _, lit "x") "t" HTTP_REQUEST_SECONDS some_requests) as [Hl Hc].
  - vm_compute. reflexivity.
  - split; [|exact Hc]. etransitivity; [exact Hl|]. vm_compute. reflexivity.
Defined.
