(* ===== verification/Pty.v ===== *)
(** * The pseudo-terminal's threads ([publisher/src/pty.rs])

    The thread that reads the shell's output into a bounded channel, the one
    that writes what is typed, and the one that waits for the exit, as steps of
    one state; the terminal itself is the bytes its programs have written. A
    thread blocks by having no step. Opening the terminal and starting the
    shell are library calls. *)

From S2P Require Export Prelude.

Open Scope N_scope.
Open Scope hype_scope.

Definition READ_CHUNK : nat := N.to_nat 16384.
Definition OUTPUT_QUEUE_CHUNKS : nat := 256.
Definition INPUT_QUEUE_CHUNKS : nat := 256.
#[global] Arguments OUTPUT_QUEUE_CHUNKS : simpl never.
#[global] Arguments INPUT_QUEUE_CHUNKS : simpl never.
#[global] Arguments READ_CHUNK : simpl never.

(** [pt_source]: written by the shell and not read; [pt_held]: the chunk the
    reader has in hand; [pt_taken]: what came out of the channel;
    [pt_typed]: what the writer has written. *)
Record Pty := mkPty {
  pt_source : list byte;
  pt_closed : bool;
  pt_reading : bool;
  pt_held : option (list byte);
  pt_chunks : list (list byte);
  pt_open : bool;
  pt_taken : list (list byte);
  pt_input : list (list byte);
  pt_writing : bool;
  pt_typed : list byte;
  pt_exit : option N;
}.
Definition pty_new : Pty := mkPty [] false true None [] true [] [] true [] None.

Inductive PtyEvent :=
(** The shell writes, or every handle to its side is closed. *)
| PyShell (bytes : list byte)
| PyHangUp
(** [read] answers so many bytes, or an error; [blocking_send] returns. *)
| PyRead (n : nat)
| PyReadFails
| PySend
(** The receiving side: a chunk, or the receiver is dropped. *)
| PyRecv
| PyDrop
(** [Pty::write] gets its room; the writer's thread writes, or fails. *)
| PyWrite (bytes : list byte)
| PyType
| PyTypeFails
(** The child ends; [None] when its status cannot be had. *)
| PyExit (code : option N).

Definition with_output (source : list byte) (reading : bool) (held : option (list byte)) (chunks taken : list (list byte)) (s : Pty) : Pty :=
  mkPty source (pt_closed s) reading held chunks (pt_open s) taken (pt_input s) (pt_writing s) (pt_typed s) (pt_exit s).
Definition with_input (input : list (list byte)) (writing : bool) (typed : list byte) (s : Pty) : Pty :=
  mkPty (pt_source s) (pt_closed s) (pt_reading s) (pt_held s) (pt_chunks s) (pt_open s) (pt_taken s) input writing typed (pt_exit s).

(** The reader's loop: [read] of nothing is the end of the output. *)
Definition reader_read (n : nat) (s : Pty) : option Pty :=
  if negb (pt_reading s) || bool_decide (is_Some (pt_held s)) then None
  else
    match n with
    | O => if is_empty (pt_source s) && pt_closed s then Some (with_output [] false None (pt_chunks s) (pt_taken s) s) else None
    | _ =>
        if (n <=? READ_CHUNK)%nat && (n <=? length (pt_source s))%nat then
          Some (with_output (drop n (pt_source s)) true (Some (take n (pt_source s))) (pt_chunks s) (pt_taken s) s)
        else None
    end.
Definition reader_send (s : Pty) : option Pty :=
  match pt_held s with
  | None => None
  | Some chunk =>
      if negb (pt_open s) then Some (with_output (pt_source s) false None (pt_chunks s) (pt_taken s) s)
      else if (length (pt_chunks s) <? OUTPUT_QUEUE_CHUNKS)%nat then
        Some (with_output (pt_source s) (pt_reading s) None (pt_chunks s ++ [chunk]) (pt_taken s) s)
      else None
  end.
Definition pty_step (ev : PtyEvent) (s : Pty) : option Pty :=
  match ev with
  | PyShell bytes =>
      if pt_closed s then None
      else Some (with_output (pt_source s ++ bytes) (pt_reading s) (pt_held s) (pt_chunks s) (pt_taken s) s)
  | PyHangUp =>
      Some (mkPty (pt_source s) true (pt_reading s) (pt_held s) (pt_chunks s) (pt_open s) (pt_taken s) (pt_input s) (pt_writing s)
              (pt_typed s) (pt_exit s))
  | PyRead n => reader_read n s
  | PyReadFails =>
      if pt_reading s && negb (bool_decide (is_Some (pt_held s))) then
        Some (with_output (pt_source s) false None (pt_chunks s) (pt_taken s) s)
      else None
  | PySend => reader_send s
  | PyRecv =>
      match pt_chunks s with
      | chunk :: chunks => if pt_open s then Some (with_output (pt_source s) (pt_reading s) (pt_held s) chunks (pt_taken s ++ [chunk]) s) else None
      | [] => None
      end
  | PyDrop =>
      Some (mkPty (pt_source s) (pt_closed s) (pt_reading s) (pt_held s) [] false (pt_taken s) (pt_input s) (pt_writing s) (pt_typed s)
              (pt_exit s))
  | PyWrite bytes =>
      if pt_writing s && (length (pt_input s) <? INPUT_QUEUE_CHUNKS)%nat then
        Some (with_input (pt_input s ++ [bytes]) true (pt_typed s) s)
      else None
  | PyType =>
      match pt_input s with
      | bytes :: input => if pt_writing s then Some (with_input input true (pt_typed s ++ bytes) s) else None
      | [] => None
      end
  | PyTypeFails => Some (with_input [] false (pt_typed s) s)
  | PyExit code =>
      match pt_exit s with
      | Some _ => None
      | None =>
          Some (mkPty (pt_source s) (pt_closed s) (pt_reading s) (pt_held s) (pt_chunks s) (pt_open s) (pt_taken s) (pt_input s)
                  (pt_writing s) (pt_typed s) (Some (default 0 code)))
      end
  end.
Fixpoint pty_run (evs : list PtyEvent) (s : Pty) : option Pty :=
  match evs with
  | [] => Some s
  | ev :: evs => match pty_step ev s with Some s => pty_run evs s | None => None end
  end.
(** What [recv] answers when there is no chunk: the end, once the thread is gone. *)
Definition output_over (s : Pty) : bool := is_empty (pt_chunks s) && negb (pt_reading s).

(** ** What reaches the relay's side *)

Definition written (evs : list PtyEvent) : list byte := mjoin (omap (λ ev, match ev with PyShell bytes => Some bytes | _ => None end) evs).
Definition failed (evs : list PtyEvent) : bool :=
  existsb (λ ev, match ev with PyReadFails | PyDrop => true | _ => false end) evs.
Definition handed (evs : list PtyEvent) : list byte := mjoin (omap (λ ev, match ev with PyWrite bytes => Some bytes | _ => None end) evs).

Definition chunk_ok (chunk : list byte) : Prop := chunk ≠ [] ∧ (length chunk ≤ READ_CHUNK)%nat.
(** After [evs]: what came out, what waits in the channel, what the reader holds
    and what it has not read are the shell's output. *)
Record pty_inv (evs : list PtyEvent) (s : Pty) : Prop := mkPtyInv {
  pi_stream : ∃ lost, written evs = mjoin (pt_taken s) ++ mjoin (pt_chunks s) ++ lost ∧
    (failed evs = false → lost = default [] (pt_held s) ++ pt_source s);
  pi_failed : failed evs = true → (pt_open s = false ∧ pt_chunks s = []) ∨ (pt_reading s = false ∧ pt_held s = None);
  pi_chunks : Forall chunk_ok (pt_taken s ++ pt_chunks s ++ option_list (pt_held s));
  pi_bound : (length (pt_chunks s) ≤ OUTPUT_QUEUE_CHUNKS)%nat ∧ (length (pt_input s) ≤ INPUT_QUEUE_CHUNKS)%nat;
  pi_reader : failed evs = false → pt_open s = true ∧ (pt_reading s = false → pt_held s = None ∧ pt_source s = [] ∧ pt_closed s = true);
  pi_input : ∃ lost, handed evs = pt_typed s ++ lost ∧ (pt_writing s = true → lost = mjoin (pt_input s));
}.

(** ** Every step keeps the stream *)

Lemma written_snoc evs ev : written (evs ++ [ev]) = written evs ++ match ev with PyShell bytes => bytes | _ => [] end.
Proof. unfold written. rewrite omap_app, join_app. by destruct ev; cbn; rewrite ?app_nil_r. Qed.
Lemma handed_snoc evs ev : handed (evs ++ [ev]) = handed evs ++ match ev with PyWrite bytes => bytes | _ => [] end.
Proof. unfold handed. rewrite omap_app, join_app. by destruct ev; cbn; rewrite ?app_nil_r. Qed.
Lemma failed_snoc evs ev : failed (evs ++ [ev]) = failed evs || match ev with PyReadFails | PyDrop => true | _ => false end.
Proof. unfold failed. rewrite existsb_app. by destruct ev; cbn; rewrite ?orb_false_r. Qed.

(** A step of the input side leaves the output side alone, and the reverse. *)
Definition same_output (s s' : Pty) : Prop :=
  pt_source s' = pt_source s ∧ pt_closed s' = pt_closed s ∧ pt_reading s' = pt_reading s ∧ pt_held s' = pt_held s
  ∧ pt_chunks s' = pt_chunks s ∧ pt_open s' = pt_open s ∧ pt_taken s' = pt_taken s.
Definition same_input (s s' : Pty) : Prop :=
  pt_input s' = pt_input s ∧ pt_writing s' = pt_writing s ∧ pt_typed s' = pt_typed s.
Lemma output_step_inv evs ev s s' :
  same_input s s' → match ev with PyWrite _ => False | _ => True end → pty_inv evs s →
  (∃ lost, written (evs ++ [ev]) = mjoin (pt_taken s') ++ mjoin (pt_chunks s') ++ lost ∧
    (failed (evs ++ [ev]) = false → lost = default [] (pt_held s') ++ pt_source s')) →
  (failed (evs ++ [ev]) = true → (pt_open s' = false ∧ pt_chunks s' = []) ∨ (pt_reading s' = false ∧ pt_held s' = None)) →
  Forall chunk_ok (pt_taken s' ++ pt_chunks s' ++ option_list (pt_held s')) → (length (pt_chunks s') ≤ OUTPUT_QUEUE_CHUNKS)%nat →
  (failed (evs ++ [ev]) = false → pt_open s' = true ∧ (pt_reading s' = false → pt_held s' = None ∧ pt_source s' = [] ∧ pt_closed s' = true)) →
  pty_inv (evs ++ [ev]) s'.
Proof.
  intros (Hi & Hw & Ht) Hev [_ _ _ [_ Hb] _ Hin] H1 Hf H2 H3 H4. constructor; [done|done|done|by rewrite Hi|done|].
  rewrite handed_snoc, Hi, Hw, Ht. destruct ev; try done; by rewrite app_nil_r.
Qed.
Lemma input_step_inv evs ev s s' :
  same_output s s' → match ev with PyWrite _ | PyType | PyTypeFails | PyExit _ => True | _ => False end → pty_inv evs s →
  (length (pt_input s') ≤ INPUT_QUEUE_CHUNKS)%nat →
  (∃ lost, handed (evs ++ [ev]) = pt_typed s' ++ lost ∧ (pt_writing s' = true → lost = mjoin (pt_input s'))) →
  pty_inv (evs ++ [ev]) s'.
Proof.
  intros (E1 & E2 & E3 & E4 & E5 & E6 & E7) Hev [Hs Hf Hc [Hb _] Hr _] H1 H2.
  assert (written (evs ++ [ev]) = written evs ∧ failed (evs ++ [ev]) = failed evs) as [Hw Hfl].
  { rewrite written_snoc, failed_snoc. destruct ev; try done; by rewrite app_nil_r, orb_false_r. }
  constructor; rewrite ?E1, ?E2, ?E3, ?E4, ?E5, ?E6, ?E7, ?Hw, ?Hfl; done.
Qed.

#[local] Ltac output_step Hinv s :=
  apply (output_step_inv _ _ s); rewrite ?written_snoc, ?failed_snoc, ?app_nil_r, ?orb_false_r;
  cbn [with_output pt_taken pt_chunks pt_held pt_source pt_open pt_reading pt_closed default option_list]; try done.

Lemma reader_read_inv evs n s s' : reader_read n s = Some s' → pty_inv evs s → pty_inv (evs ++ [PyRead n]) s'.
Proof.
  unfold reader_read. destruct (pt_reading s) eqn:Er; [|done]. destruct (pt_held s) eqn:Eh; [by rewrite bool_decide_eq_true_2 by eauto|].
  rewrite bool_decide_eq_false_2 by (by intros [??]). cbn [negb orb]. intros E Hinv.
  pose proof Hinv as [(lost & Hw & Hl) Hf Hc [Hb _] Hr _]. rewrite Eh in Hl, Hc, Hf. rewrite Er in Hf.
  cbn [option_list default] in Hc, Hl. rewrite app_nil_r in Hc.
  assert (failed evs = true → pt_open s = false ∧ pt_chunks s = []) as Hf' by (intros H; by destruct (Hf H) as [|[? _]]).
  destruct n as [|n].
  - destruct (pt_source s) as [|b l] eqn:Es; [|done]. destruct (pt_closed s) eqn:Ec; [|done].
    injection E as <-. output_step Hinv s.
    + exists lost. split; [by rewrite ?app_nil_r|done].
    + intros _. by right.
    + intros H. split; [by apply Hr|]. by rewrite Ec.
  - destruct (S n <=? READ_CHUNK)%nat eqn:E1; [|done]. destruct (S n <=? length (pt_source s))%nat eqn:E2; [|done]. cbn in E.
    apply Nat.leb_le in E1, E2. injection E as <-. output_step Hinv s.
    + exists lost. split; [by rewrite ?app_nil_r|]. intros H. rewrite (Hl H). symmetry. apply (take_drop (S n)).
    + intros H. left. by apply Hf'.
    + rewrite app_assoc. apply Forall_app. split; [done|]. constructor; [|constructor]. split.
      * intros Hn. apply (f_equal length) in Hn. rewrite length_take in Hn. cbn [length] in Hn. lia.
      * rewrite length_take. lia.
    + intros H. split; [by apply Hr|done].
Qed.
Lemma reader_send_inv evs s s' : reader_send s = Some s' → pty_inv evs s → pty_inv (evs ++ [PySend]) s'.
Proof.
  unfold reader_send. destruct (pt_held s) as [chunk|] eqn:Eh; [|done]. intros E Hinv.
  pose proof Hinv as [(lost & Hw & Hl) Hf Hc [Hb _] Hr _]. rewrite Eh in Hl, Hc, Hf, Hr.
  assert (failed evs = true → pt_open s = false ∧ pt_chunks s = []) as Hf' by (intros H; by destruct (Hf H) as [|[_ ?]]).
  destruct (pt_open s) eqn:Eo; cbn [negb] in E.
  - destruct (length (pt_chunks s) <? OUTPUT_QUEUE_CHUNKS)%nat eqn:El; [|done]. apply Nat.ltb_lt in El. injection E as <-.
    assert (failed evs = false) as Hok by (destruct (failed evs); [|done]; by destruct Hf'). output_step Hinv s.
    + exists (pt_source s). split; [|done]. rewrite Hw, (Hl Hok), join_app. cbn. by rewrite ?app_nil_r, <- !app_assoc.
    + by rewrite Hok.
    + rewrite length_app. cbn. lia.
    + intros _. split; [done|]. intros Hd. destruct (Hr Hok) as [_ Hz]. by destruct (Hz Hd).
  - injection E as <-. assert (failed evs = true) as Hbad.
    { destruct (failed evs) eqn:Ef; [done|]. by destruct (Hr eq_refl). }
    output_step Hinv s; rewrite ?Hbad; try done.
    + exists lost. split; [by rewrite ?app_nil_r|done].
    + by right.
    + rewrite app_assoc in Hc. apply Forall_app in Hc as [? _]. by rewrite ?app_nil_r.
Qed.
Lemma pty_step_inv evs ev s s' : pty_step ev s = Some s' → pty_inv evs s → pty_inv (evs ++ [ev]) s'.
Proof.
  intros E Hinv. pose proof Hinv as [(lost & Hw & Hl) Hf Hc [Hb Hbi] Hr (lost' & Hin & Hli)].
  destruct ev as [bytes| |n| | | | |bytes| | |code]; cbn [pty_step] in E.
  - destruct (pt_closed s) eqn:Ec; [done|]. injection E as <-. output_step Hinv s.
    + exists (lost ++ bytes). rewrite Hw, <- !app_assoc. split; [done|]. intros H. by rewrite (Hl H), <- !app_assoc.
    + intros H. split; [by apply Hr|]. intros Hd. destruct (Hr H) as [_ Hz]. destruct (Hz Hd) as (_ & _ & ?). congruence.
  - injection E as <-. output_step Hinv s.
    + exists lost. split; [by rewrite ?app_nil_r|done].
    + intros H. destruct (Hr H) as [? Hz]. split; [done|]. intros Hd. destruct (Hz Hd) as (? & ? & _). done.
  - by eapply reader_read_inv.
  - destruct (pt_reading s); [|done]. destruct (bool_decide _); [done|]. injection E as <-. output_step Hinv s; rewrite ?orb_true_r; try done.
    + exists lost. split; [by rewrite ?app_nil_r|done].
    + by right.
    + rewrite app_assoc in Hc. apply Forall_app in Hc as [? _]. by rewrite ?app_nil_r.
  - by eapply reader_send_inv.
  - destruct (pt_chunks s) as [|chunk chunks] eqn:Ech; [done|]. destruct (pt_open s) eqn:Eo; [|done]. injection E as <-. output_step Hinv s.
    + exists lost. split; [|done]. rewrite Hw, join_app. cbn. by rewrite ?app_nil_r, <- !app_assoc.
    + intros H. destruct (Hf H) as [[? _]|?]; [done|by right].
    + by rewrite <- app_assoc.
    + cbn in Hb. lia.
    + intros H. split; [done|by apply Hr].
  - injection E as <-. output_step Hinv s; rewrite ?orb_true_r; try done.
    + exists (mjoin (pt_chunks s) ++ lost). by rewrite Hw, ?app_nil_r.
    + by left.
    + rewrite Forall_app in Hc |- *. destruct Hc as [? Hc]. split; [done|]. by apply Forall_app in Hc as [_ ?].
    + cbn. lia.
  - destruct (pt_writing s) eqn:Ew; [|done]. destruct (length (pt_input s) <? INPUT_QUEUE_CHUNKS)%nat eqn:El; cbn [andb] in E; [|done].
    apply Nat.ltb_lt in El. injection E as <-. apply (input_step_inv _ _ s); [done|done|done|cbn; rewrite length_app; cbn; lia|].
    cbn. exists (lost' ++ bytes). rewrite handed_snoc, Hin, <- app_assoc. split; [done|]. intros _.
    rewrite (Hli eq_refl), join_app. cbn. by rewrite ?app_nil_r.
  - destruct (pt_input s) as [|bytes input] eqn:Ei; [done|]. destruct (pt_writing s) eqn:Ew; [|done]. injection E as <-.
    apply (input_step_inv _ _ s); [done|done|done|cbn in *; lia|]. cbn. exists (mjoin input).
    rewrite handed_snoc, Hin, (Hli eq_refl), app_nil_r. cbn. by rewrite <- app_assoc.
  - injection E as <-. apply (input_step_inv _ _ s); [done|done|done|cbn; lia|]. cbn. exists lost'. by rewrite handed_snoc, app_nil_r.
  - destruct (pt_exit s); [done|]. injection E as <-. apply (input_step_inv _ _ s); [done|done|done|done|]. cbn. exists lost'.
    by rewrite handed_snoc, app_nil_r.
Qed.
Lemma pty_run_inv evs s : pty_run evs pty_new = Some s → pty_inv evs s.
Proof.
  assert (∀ past t, pty_inv past t → pty_run evs t = Some s → pty_inv (past ++ evs) s) as Hrun.
  { induction evs as [|ev evs IH]; intros past t Ht; cbn; [intros [= <-]; by rewrite app_nil_r|].
    destruct (pty_step ev t) as [t'|] eqn:E; [|done]. intros Hs. rewrite cons_middle, app_assoc. apply (IH _ t'); [by eapply pty_step_inv|done]. }
  apply (Hrun [] pty_new). constructor; cbn; [by exists []|done|constructor|split; lia|done|by exists []].
Qed.

(** ** Draining the terminal *)

(** The steps of the reader and of the one it feeds, and what they have to do. *)
Definition is_io (ev : PtyEvent) : Prop := match ev with PyRead _ | PySend | PyRecv => True | _ => False end.
Definition pty_work (s : Pty) : nat :=
  3 * length (pt_source s) + (match pt_held s with Some _ => 2 | None => 0 end) + length (pt_chunks s) + (if pt_reading s then 1 else 0).
Lemma io_step_works ev s s' : is_io ev → pty_step ev s = Some s' → (pty_work s' < pty_work s)%nat ∧ pt_closed s' = pt_closed s.
Proof.
  unfold pty_work. destruct ev as [| |n| | | | | | | |]; try done; intros _; cbn [pty_step].
  - unfold reader_read. destruct (pt_reading s); [|done]. destruct (pt_held s) eqn:Eh; [done|]. cbn [negb orb bool_decide]. destruct n as [|n].
    + destruct (pt_source s); [|done]. destruct (pt_closed s) eqn:Ec; [|done]. intros [= <-]. cbn. rewrite Ec. split; [lia|done].
    + destruct (_ <=? READ_CHUNK)%nat; [|done]. destruct (S n <=? length (pt_source s))%nat eqn:E2; [|done].
      apply Nat.leb_le in E2. intros [= <-]. cbn [with_output pt_source pt_held pt_chunks pt_reading pt_closed]. rewrite length_drop.
      split; [lia|done].
  - unfold reader_send. destruct (pt_held s); [|done]. destruct (pt_open s); cbn [negb].
    + destruct (length _ <? OUTPUT_QUEUE_CHUNKS)%nat; [|done]. intros [= <-]. cbn. rewrite length_app. cbn. split; [destruct (pt_reading s); lia|done].
    + intros [= <-]. cbn. split; [destruct (pt_reading s); lia|done].
  - destruct (pt_chunks s); [done|]. destruct (pt_open s); [|done]. intros [= <-]. cbn. split; [lia|done].
Qed.
Lemma io_run_works io s s' :
  Forall is_io io → pty_run io s = Some s' → (length io + pty_work s' ≤ pty_work s)%nat ∧ pt_closed s' = pt_closed s.
Proof.
  intros Hio. revert s. induction Hio as [|ev io Hev _ IH]; intros s; cbn [pty_run length]; [by intros [= <-]|].
  destruct (pty_step ev s) as [s1|] eqn:E; [|done]. intros [H1 ->]%IH. destruct (io_step_works _ _ _ Hev E) as [H2 ->]. split; [lia|done].
Qed.
Lemma pty_run_app a b s : pty_run (a ++ b) s = pty_run a s ≫= pty_run b.
Proof. revert s. induction a as [|ev a IH]; intros s; [done|]. cbn. destruct (pty_step ev s); [apply IH|done]. Qed.
Lemma io_quiet io evs : Forall is_io io → written (evs ++ io) = written evs ∧ failed (evs ++ io) = failed evs.
Proof.
  intros Hio. revert evs. induction Hio as [|ev io Hev _ IH]; intros evs; [by rewrite app_nil_r|].
  rewrite cons_middle, app_assoc. destruct (IH (evs ++ [ev])) as [-> ->]. rewrite written_snoc, failed_snoc.
  destruct ev; try done; by rewrite app_nil_r, orb_false_r.
Qed.
(** While the output is not over there is a step to make. *)
Lemma io_progress s :
  pt_open s = true → pt_closed s = true → output_over s = false → ∃ ev s', is_io ev ∧ pty_step ev s = Some s'.
Proof.
  intros Ho Hc Hover. unfold output_over in Hover. destruct (pt_chunks s) as [|chunk chunks] eqn:Ech.
  2: { exists PyRecv. eexists. split; [done|]. cbn [pty_step]. by rewrite Ech, Ho. }
  destruct (pt_reading s) eqn:Er; [|done]. destruct (pt_held s) as [chunk|] eqn:Eh.
  { exists PySend. eexists. split; [done|]. cbn [pty_step]. unfold reader_send. by rewrite Eh, Ho, Ech. }
  exists (PyRead (length (pt_source s) `min` READ_CHUNK)). cbn [pty_step]. unfold reader_read. rewrite Er, Eh. cbn [negb orb].
  rewrite bool_decide_eq_false_2 by (by intros [??]). destruct (pt_source s) as [|b l] eqn:Es.
  - eexists. split; [done|]. cbn [length Nat.min is_empty]. by rewrite Hc.
  - cbn [length]. destruct (S (length l) `min` READ_CHUNK)%nat as [|n] eqn:En; [done|]. eexists. split; [done|].
    assert ((S n ≤ READ_CHUNK)%nat ∧ (S n ≤ S (length l))%nat) as [H1%Nat.leb_le H2%Nat.leb_le] by lia.
    cbn [negb]. rewrite H1, H2. reflexivity.
Qed.

(** C39: the pseudo-terminal loses nothing and holds little. Whatever the
    threads, the shell and the two sides do: what came out of the channel is the
    beginning of what the shell wrote and what was typed is the beginning of
    what was handed in, in order; a chunk is never empty nor above sixteen
    kibibytes, and neither channel holds more than its 256. And unless reading
    failed or the receiver was dropped: once the shell's side is closed, every
    sequence of reads, sends and receives is finite, and when no further one is
    possible the output is over and all of it has been delivered. *)
Theorem shell_output_is_delivered evs s :
  pty_run evs pty_new = Some s →
  mjoin (pt_taken s) `prefix_of` written evs ∧ pt_typed s `prefix_of` handed evs
  ∧ Forall chunk_ok (pt_taken s ++ pt_chunks s)
  ∧ (length (pt_chunks s) ≤ OUTPUT_QUEUE_CHUNKS)%nat ∧ (length (pt_input s) ≤ INPUT_QUEUE_CHUNKS)%nat
  ∧ (failed evs = false → pt_closed s = true → ∀ io s', Forall is_io io → pty_run io s = Some s' →
       (length io ≤ pty_work s)%nat
       ∧ ((∃ ev s2, is_io ev ∧ pty_step ev s' = Some s2) ∨ output_over s' = true ∧ mjoin (pt_taken s') = written evs)).
Proof.
  intros Hrun. pose proof (pty_run_inv _ _ Hrun) as [(lost & Hw & _) _ Hc [Hb Hbi] _ (lost' & Hin & _)].
  split; [rewrite Hw; by eexists|]. split; [rewrite Hin; by eexists|].
  split; [rewrite app_assoc in Hc; by apply Forall_app in Hc as [? _]|]. split; [done|]. split; [done|].
  intros Hf Hcl io s' Hio Hrun'. destruct (io_run_works _ _ _ Hio Hrun') as [Hwork Hcl']. split; [lia|].
  assert (pty_inv (evs ++ io) s') as [(rest & Hw' & Hl') _ _ _ Hr _] by (apply pty_run_inv; by rewrite pty_run_app, Hrun).
  destruct (io_quiet io evs Hio) as [Ew Ef]. rewrite Ew in Hw'. rewrite Ef in Hl', Hr. destruct (Hr Hf) as [Ho Hdone].
  destruct (output_over s') eqn:Eo; [right|left; apply io_progress; congruence]. split; [done|].
  unfold output_over in Eo. destruct (pt_chunks s') eqn:Ech; [|done]. destruct (pt_reading s'); [done|].
  destruct (Hdone eq_refl) as (Eh & Es & _). rewrite Hw', (Hl' Hf), Eh, Es. cbn. by rewrite !app_nil_r.
Qed.

Definition echoed : list PtyEvent := [PyShell [x24]; PyRead 1; PyWrite [x6c]; PySend; PyType; PyShell [x6c; x0a]; PyHangUp].
Definition echoed_state : Pty := default pty_new (pty_run echoed pty_new).
Definition drained : list PtyEvent := [PyRecv; PyRead 2; PySend; PyRecv; PyRead 0].
Lemma shell_output_is_delivered_witness :
  let s' := default pty_new (pty_run drained echoed_state) in
  output_over s' = true ∧ mjoin (pt_taken s') = [x24; x6c; x0a].
Proof.
  intros s'. assert (pty_run echoed pty_new = Some echoed_state) as Hrun by reflexivity.
  assert (pty_run drained echoed_state = Some s') as Hio by reflexivity.
  destruct (shell_output_is_delivered echoed echoed_state Hrun) as (_ & _ & _ & _ & _ & Hlive).
  destruct (Hlive eq_refl eq_refl drained s' ltac:(by repeat constructor) Hio) as [_ [(ev & s2 & Hev & Hstep)|Hdone]]; [|exact Hdone].
  exfalso. destruct ev as [| |[|n]| | | | | | | |]; try done.
Defined.
