(* ===== verification/Pool.v ===== *)
(** * The database's connections ([server/src/db/mod.rs])

    The tuning that the settings hold for SQLite and how it reaches the pooled
    connections: the updating task and the threads that make and check
    connections interleave at every read and write of the shared tuning. Also
    the columns that are added to an older database, and the size on disk.
    Opening the file, the pool's own bookkeeping and SQLite are library calls.
    The atomics are relaxed, as in the source: a load may be answered by an older
    write, within what the mutex around the synchronous mode rules out. The
    theorems are at the end: a checkout hands out a connection that follows the
    settings, and the runs in which it does not (made across a change, a stale
    load); migrating brings the columns and is then a no-op. *)

From S2P Require Export FileSystem.

Open Scope N_scope.
Open Scope hype_scope.

(** ** The tuning *)

Inductive Pragma := PgSynchronous | PgBusyTimeoutMs | PgCacheSizeKib | PgWalAutocheckpointPages.
#[export] Instance Pragma_eq_dec : EqDecision Pragma.
Proof. solve_decision. Defined.
Inductive PragmaValue := PvText (t : text) | PvInt (z : Z).
#[export] Instance PragmaValue_eq_dec : EqDecision PragmaValue.
Proof. solve_decision. Defined.
Definition Pragmas : Type := Pragma → PragmaValue.
Definition with_pragma (p : Pragma) (v : PragmaValue) (values : Pragmas) : Pragmas := λ q, if decide (q = p) then v else values q.
(** In the order of [update] and of [apply]. *)
Definition all_pragmas : list Pragma := [PgSynchronous; PgBusyTimeoutMs; PgCacheSizeKib; PgWalAutocheckpointPages].
Lemma all_pragmas_all p : p ∈ all_pragmas.
Proof. destruct p; set_solver. Qed.
Definition default_pragmas : Pragmas := λ p,
  match p with
  | PgSynchronous => PvText (lit "normal")
  | PgBusyTimeoutMs => PvInt 5000
  | PgCacheSizeKib => PvInt 8192
  | PgWalAutocheckpointPages => PvInt 4000
  end.

(** [StoragePragmas::update] alone: the generation moves when a value does. *)
Record StoragePragmas := mkStoragePragmas {
  sp_generation : N;
  sp_values : Pragmas;
}.
Definition update_pragma (new : Pragmas) (acc : bool * Pragmas) (p : Pragma) : bool * Pragmas :=
  let '(changed, values) := acc in
  (changed || negb (bool_decide (values p = new p)), with_pragma p (new p) values).
Definition update_pragmas (new : Pragmas) (s : StoragePragmas) : bool * StoragePragmas :=
  let '(changed, values) := foldl (update_pragma new) (false, sp_values s) all_pragmas in
  (changed, mkStoragePragmas (if changed then sp_generation s +₆₄ 1 else sp_generation s) values).
(** What [apply] tells SQLite: a negative cache size is in kibibytes. *)
Definition told_sqlite (p : Pragma) (v : PragmaValue) : PragmaValue :=
  match p, v with
  | PgBusyTimeoutMs, PvInt z => PvInt (Z.max z 0)
  | PgCacheSizeKib, PvInt z => PvInt (- z)
  | _, _ => v
  end.

(** ** Everything at once *)

(** [synchronous] is behind a mutex; the other values and the generation are
    atomics whose loads, swaps and increments are [Ordering::Relaxed], so a load
    may be answered by an older write. Every value is therefore the list of its
    writes, oldest first. What bounds a stale load is the mutex: who takes it sees
    what was written before the last update that took it began ([pw_view]), which
    is not that update's own writes, for they come after the mutex is released.
    What one reader learns from another is left out, so more is possible here
    than in the code. *)
Abbreviation View := (Pragma → nat).

(** Where a connection is: being made, with the pragmas left to apply; idle;
    or being checked, with the generation that was read. *)
Inductive Phase :=
| CnConnecting (rest : list Pragma)
| CnIdle
| CnChecking (generation : N) (rest : list Pragma).
(** [cn_told]: what SQLite was told last; [cn_view]: what [apply] is sure to see,
    once it has taken the lock. Not in the code: [cn_overlapped], a change was
    completed while the connection was being made; [cn_stale], a load of the last
    [apply] was answered by an older write. *)
Record RelayConn := mkRelayConn {
  cn_told : Pragma → option PragmaValue;
  cn_generation : N;
  cn_phase : Phase;
  cn_view : View;
  cn_overlapped : bool;
  cn_stale : bool;
}.
(** The update that runs: the writes left, whether one changed something, and
    what was written before it began. There is one updating task. *)
Record Updating := mkUpdating {
  up_rest : list (Pragma * PragmaValue);
  up_changed : bool;
  up_began : View;
}.
(** [pw_before] is not in the code: the values before the last completed update
    that changed something. *)
Record PoolWorld := mkPoolWorld {
  pw_generation : N;
  pw_writes : Pragma → list PragmaValue;
  pw_view : View;
  pw_update : option Updating;
  pw_conns : gmap N RelayConn;
  pw_before : Pragmas;
}.
Definition latest (writes : Pragma → list PragmaValue) : Pragmas := λ p, default (PvInt 0) (last (writes p)).
(** The values in force. *)
Definition pw_values (w : PoolWorld) : Pragmas := latest (pw_writes w).
Definition newest (w : PoolWorld) : View := λ p, pred (length (pw_writes w p)).
Definition pool_new : PoolWorld := mkPoolWorld 1 (λ p, [default_pragmas p]) (λ _, 0%nat) None ∅ default_pragmas.

Inductive PoolEvent :=
(** [update]: its call, the next write, its end. *)
| PlUpdate (new : Pragmas)
| PlWrite
| PlUpdated
(** On a connection: made by [connect]; the next pragma of [apply], and which
    write its load is answered by; the end of [connect] and the start of
    [is_valid], each with the generation its load is answered with; the end of
    [is_valid]; dropped, whatever fails. *)
| PlConnect (id : N)
| PlApply (id : N) (write : nat)
| PlConnected (id generation : N)
| PlCheck (id generation : N)
| PlChecked (id : N)
| PlDrop (id : N).

Definition with_conn (id : N) (c : RelayConn) (w : PoolWorld) : PoolWorld :=
  mkPoolWorld (pw_generation w) (pw_writes w) (pw_view w) (pw_update w) (<[id := c]> (pw_conns w)) (pw_before w).
Definition with_updating (u : option Updating) (w : PoolWorld) : PoolWorld :=
  mkPoolWorld (pw_generation w) (pw_writes w) (pw_view w) u (pw_conns w) (pw_before w).
Definition append_write (p : Pragma) (v : PragmaValue) (writes : Pragma → list PragmaValue) : Pragma → list PragmaValue :=
  λ q, if decide (q = p) then writes q ++ [v] else writes q.
Definition overlap (c : RelayConn) : RelayConn :=
  match cn_phase c with
  | CnConnecting _ => mkRelayConn (cn_told c) (cn_generation c) (cn_phase c) (cn_view c) true (cn_stale c)
  | _ => c
  end.
Definition tell (p : Pragma) (v : PragmaValue) (phase : Phase) (view : View) (stale : bool) (c : RelayConn) : RelayConn :=
  mkRelayConn (λ q, if decide (q = p) then Some (told_sqlite p v) else cn_told c q) (cn_generation c) phase view (cn_overlapped c)
    (cn_stale c || stale).
(** One pragma of [apply]: [synchronous] under the lock; another by a load that
    any write may answer, from the last one that is sure to be seen. *)
Definition apply_pragma (w : PoolWorld) (p : Pragma) (write : nat) (phase : Phase) (c : RelayConn) : option RelayConn :=
  if decide (p = PgSynchronous) then Some (tell p (pw_values w p) phase (pw_view w) false c)
  else if (cn_view c p <=? write)%nat then
    v ← pw_writes w p !! write;
    Some (tell p v phase (cn_view c) (negb (write =? newest w p)%nat) c)
  else None.
(** The generation is a 64-bit counter of changes; it is not taken to wrap. A
    connection's own generation was read before, so no older one is read. *)
Definition pool_step (ev : PoolEvent) (w : PoolWorld) : option PoolWorld :=
  match ev with
  | PlUpdate new =>
      match pw_update w with
      | Some _ => None
      | None => Some (with_updating (Some (mkUpdating ((λ p, (p, new p)) <$> all_pragmas) false (newest w))) w)
      end
  | PlWrite =>
      match pw_update w with
      | Some (mkUpdating ((p, v) :: rest) changed began) =>
          Some (mkPoolWorld (pw_generation w) (append_write p v (pw_writes w))
                  (if decide (p = PgSynchronous) then began else pw_view w)
                  (Some (mkUpdating rest (changed || negb (bool_decide (pw_values w p = v))) began)) (pw_conns w) (pw_before w))
      | _ => None
      end
  | PlUpdated =>
      match pw_update w with
      | Some (mkUpdating [] true began) =>
          if pw_generation w + 1 <? two64 then
            Some (mkPoolWorld (pw_generation w + 1) (pw_writes w) (pw_view w) None (overlap <$> pw_conns w)
                    (λ p, default (PvInt 0) (pw_writes w p !! began p)))
          else None
      | Some (mkUpdating [] false _) => Some (with_updating None w)
      | _ => None
      end
  | PlConnect id =>
      match pw_conns w !! id with
      | Some _ => None
      | None => Some (with_conn id (mkRelayConn (λ _, None) 0 (CnConnecting all_pragmas) (λ _, 0%nat) false false) w)
      end
  | PlApply id write =>
      c ← pw_conns w !! id;
      match cn_phase c with
      | CnConnecting (p :: rest) => c ← apply_pragma w p write (CnConnecting rest) c; Some (with_conn id c w)
      | CnChecking generation (p :: rest) => c ← apply_pragma w p write (CnChecking generation rest) c; Some (with_conn id c w)
      | _ => None
      end
  | PlConnected id generation =>
      c ← pw_conns w !! id;
      match cn_phase c with
      | CnConnecting [] =>
          if generation <=? pw_generation w
          then Some (with_conn id (mkRelayConn (cn_told c) generation CnIdle (cn_view c) (cn_overlapped c) (cn_stale c)) w)
          else None
      | _ => None
      end
  | PlCheck id generation =>
      c ← pw_conns w !! id;
      match cn_phase c with
      | CnIdle =>
          if negb ((cn_generation c <=? generation) && (generation <=? pw_generation w)) then None
          else if cn_generation c =? generation then Some w
          else Some (with_conn id (mkRelayConn (cn_told c) (cn_generation c) (CnChecking generation all_pragmas) (λ _, 0%nat)
                                     (cn_overlapped c) false) w)
      | _ => None
      end
  | PlChecked id =>
      c ← pw_conns w !! id;
      match cn_phase c with
      | CnChecking generation [] =>
          Some (with_conn id (mkRelayConn (cn_told c) generation CnIdle (cn_view c) false (cn_stale c)) w)
      | _ => None
      end
  | PlDrop id => Some (mkPoolWorld (pw_generation w) (pw_writes w) (pw_view w) (pw_update w) (delete id (pw_conns w)) (pw_before w))
  end.
Fixpoint pool_run (evs : list PoolEvent) (w : PoolWorld) : option PoolWorld :=
  match evs with
  | [] => Some w
  | ev :: evs => match pool_step ev w with Some w => pool_run evs w | None => None end
  end.
(** A connection that is told all that the settings say; and one that may still
    be told what they said before the last change, of the values without a lock. *)
Definition tuned (values : Pragmas) (c : RelayConn) : Prop := ∀ p, cn_told c p = Some (told_sqlite p (values p)).
Definition nearly_tuned (w : PoolWorld) (c : RelayConn) : Prop := ∀ p,
  cn_told c p = Some (told_sqlite p (pw_values w p))
  ∨ p ≠ PgSynchronous ∧ cn_told c p = Some (told_sqlite p (pw_before w p)).

(** ** The schema of an older database *)

(** A database is its tables' columns. *)
Abbreviation Schema := (gmap string (list string)).
Definition ADDED_COLUMNS : list (string * string) :=
  [("devices", "role"); ("terminals", "accepts_input"); ("terminals", "origin"); ("terminals", "requested_by_principal")]%string.
(** One step: [ALTER TABLE] fails on a table that is not there. *)
Definition add_column (s : Schema) (added : string * string) : option Schema :=
  let existing := default [] (s !! added.1) in
  if bool_decide (added.2 ∈ existing) then Some s
  else columns ← s !! added.1; Some (<[added.1 := columns ++ [added.2]]> s).
Definition migrate (s : Schema) : option Schema := foldl (λ s added, s ← s; add_column s added) (Some s) ADDED_COLUMNS.

(** [storage_bytes]: what is there of the three files. *)
Definition storage_bytes (files : gmap text FileEntry) (path : text) : N :=
  foldl (λ total suffix, total + from_option (λ f, len (fe_bytes f)) 0 (files !! (path ++ lit suffix))) 0 [""; "-wal"; "-shm"]%string.

(** ** The tuning alone *)

(** The generation moves exactly when a value does. *)
Lemma update_pragmas_spec new s :
  sp_generation s + 1 < two64 →
  let '(changed, s') := update_pragmas new s in
  (∀ p, sp_values s' p = new p) ∧ (changed = false ↔ ∀ p, sp_values s p = new p)
  ∧ sp_generation s' = sp_generation s + (if changed then 1 else 0).
Proof.
  intros Hg. unfold update_pragmas. cbn [foldl all_pragmas update_pragma with_pragma sp_values sp_generation].
  split_and!.
  - intros []; reflexivity.
  - unfold with_pragma. cbn. rewrite !orb_false_iff, !negb_false_iff, !bool_decide_eq_true. split.
    + intros [[[H1 H2] H3] H4] []; done.
    + intros H. by rewrite !H.
  - match goal with |- context [if ?b then _ else _] => destruct b end; [by apply wadd64_small|by rewrite N.add_0_r].
Qed.

(** ** The writes *)

Lemma latest_append p v writes q : latest (append_write p v writes) q = if decide (q = p) then v else latest writes q.
Proof. unfold latest, append_write. destruct (decide (q = p)); [by rewrite last_snoc|done]. Qed.
Lemma append_lookup p v writes q k u :
  append_write p v writes q !! k = Some u → writes q !! k = Some u ∨ q = p ∧ u = v.
Proof.
  unfold append_write. destruct (decide (q = p)) as [->|]; [|by left]. intros [Hk|[_ Hk]]%lookup_app_Some; [by left|].
  right. split; [done|]. by apply list_elem_of_lookup_2, list_elem_of_singleton in Hk.
Qed.
Lemma all_pragmas_nodup : NoDup all_pragmas.
Proof. apply (bool_decide_unpack _). by vm_compute. Qed.
(** What is left of a round through the values: only its start has the lock. *)
Lemma left_after_lock written p rest :
  all_pragmas = written ++ p :: rest → (PgSynchronous ∉ rest) ∧ (p ≠ PgSynchronous → PgSynchronous ∉ (p :: rest)).
Proof.
  intros E. pose proof all_pragmas_nodup as Hn. destruct written as [|x written]; cbn in E.
  - assert (p = PgSynchronous) as -> by (by injection E). rewrite E in Hn. apply NoDup_cons in Hn as [Hn _]. by split.
  - assert (x = PgSynchronous) as -> by (by injection E). rewrite E in Hn. apply NoDup_cons in Hn as [Hn _].
    split; [|intros _]; intros Hin; apply Hn; set_solver.
Qed.

(** No running update has changed anything yet. *)
Definition clean (w : PoolWorld) : Prop := match pw_update w with Some u => up_changed u = false | None => True end.
(** A value that a reader may take for the one in force. *)
Definition near_value (w : PoolWorld) (p : Pragma) (v : PragmaValue) : Prop := v = pw_values w p ∨ v = pw_before w p.
Definition view_near (w : PoolWorld) (view : View) : Prop :=
  ∀ p k v, (view p ≤ k)%nat → pw_writes w p !! k = Some v → near_value w p v.
(** What the running update has written, over what was there when it began. *)
Definition written_once (w : PoolWorld) (u : Updating) (written : list Pragma) (p : Pragma) (old : PragmaValue) : Prop :=
  pw_writes w p !! up_began u p = Some old
  ∧ (∀ k v, (up_began u p ≤ k)%nat → pw_writes w p !! k = Some v → v = old ∨ v = pw_values w p)
  ∧ (up_changed u = false → old = pw_values w p)
  ∧ (p ∉ written → length (pw_writes w p) = S (up_began u p)).
Record update_ok (w : PoolWorld) (u : Updating) (written : list Pragma) : Prop := mkUpdateOk {
  uo_left : all_pragmas = written ++ (up_rest u).*1;
  uo_view : written ≠ [] → pw_view w = up_began u;
  uo_changed : up_changed u = true → written ≠ [];
  uo_written p : ∃ old, written_once w u written p old;
}.
Record writes_ok (w : PoolWorld) : Prop := mkWritesOk {
  wo_some p : pw_writes w p ≠ [];
  wo_update u : pw_update w = Some u → ∃ written, update_ok w u written;
  wo_near : clean w → view_near w (pw_view w);
}.

Lemma newest_lookup w p : pw_writes w p ≠ [] → pw_writes w p !! newest w p = Some (pw_values w p).
Proof.
  intros Hn. unfold newest, pw_values, latest. rewrite <- last_lookup. by destruct (last_is_Some (pw_writes w p)) as [_ [v ->]].
Qed.
(** The writes do not depend on the connections. *)
Lemma writes_ok_conns conns w :
  writes_ok w → writes_ok (mkPoolWorld (pw_generation w) (pw_writes w) (pw_view w) (pw_update w) conns (pw_before w)).
Proof.
  intros [Hs Hu Hn]. split; [exact Hs| |exact Hn]. intros u Eu. destruct (Hu u Eu) as [written [A B C D]]. by exists written.
Qed.
(** Once the lock was taken, what the update wrote decides what can be read. *)
Lemma update_near w u written : update_ok w u written → written ≠ [] → up_changed u = false → view_near w (pw_view w).
Proof.
  intros [_ Hview _ Hw] Hn Hc p k v. rewrite (Hview Hn). intros Hk Hv. destruct (Hw p) as (old & _ & Hread & Hold & _). left.
  destruct (Hread k v Hk Hv) as [->| ->]; [by apply Hold|done].
Qed.
Lemma writes_begin w new :
  writes_ok w → pw_update w = None →
  writes_ok (with_updating (Some (mkUpdating ((λ p, (p, new p)) <$> all_pragmas) false (newest w))) w).
Proof.
  intros [Hs _ Hnear] Hu. constructor; [done| |intros _; apply Hnear; unfold clean; by rewrite Hu].
  intros u [= <-]. exists []. constructor; cbn [up_rest up_changed up_began]; [done|done|done|].
  intros p. exists (pw_values w p). pose proof (newest_lookup w p (Hs p)) as Hl. split_and!; [exact Hl| |done|].
  - intros k v Hk Hv. left. pose proof (lookup_lt_Some _ _ _ Hv) as Hlt. cbn in Hlt, Hv.
    assert (k = newest w p) as -> by (unfold newest in *; cbn in *; lia). cbn in *. congruence.
  - intros _. cbn. unfold newest. specialize (Hs p). destruct (pw_writes w p); [done|]. cbn. done.
Qed.
Lemma writes_write w w' : pool_step PlWrite w = Some w' → writes_ok w → writes_ok w'.
Proof.
  cbn. destruct (pw_update w) as [[[|[p v] rest] changed began]|] eqn:Eu; [done| |done]. intros [= <-] [Hs Hup _].
  destruct (Hup _ Eu) as (written & [Hleft Hview Hch Hw]). cbn [up_rest up_changed up_began] in *.
  set (w' := mkPoolWorld _ _ _ _ _ _). set (u := mkUpdating rest (changed || negb (bool_decide (pw_values w p = v))) began) in *.
  assert (update_ok w' u (written ++ [p])) as Hok.
  { constructor; cbn [up_rest up_changed up_began u].
    - rewrite Hleft. cbn. by rewrite <- app_assoc.
    - intros _. unfold w'. cbn [pw_view]. destruct (decide (p = PgSynchronous)) as [Hp|Hp]; [done|]. apply Hview. intros ->.
      cbn in Hleft. by injection Hleft as <- _.
    - intros _. by destruct written.
    - intros q. destruct (Hw q) as (old & Hold & Hread & Hsame & Hlen). cbn [up_began] in *. exists old.
      assert (pw_values w' q = if decide (q = p) then v else pw_values w q) as Hv by apply latest_append.
      assert (q = p → length (pw_writes w q) = S (began q)) as Hp.
      { intros ->. apply Hlen. pose proof all_pragmas_nodup as Hn. rewrite Hleft in Hn. apply NoDup_app in Hn as (_ & Hn & _).
        intros Hin. apply (Hn _ Hin). cbn. left. }
      split_and!.
      + unfold w'. cbn [pw_writes]. unfold append_write. destruct (decide (q = p)); [|done]. by apply lookup_app_l_Some.
      + intros k x Hk Hx. apply append_lookup in Hx. rewrite Hv. destruct (decide (q = p)) as [->|Hne].
        * destruct Hx as [Hx|[_ ->]]; [|by right]. left. pose proof (lookup_lt_Some _ _ _ Hx).
          pose proof (Hp eq_refl). cbn in Hk. assert (k = began p) as -> by lia. congruence.
        * destruct Hx as [Hx|[? _]]; [|done]. by eapply Hread.
      + intros [Hc Hb]%orb_false_iff. rewrite Hv, (Hsame Hc). apply negb_false_iff, bool_decide_eq_true in Hb.
        by destruct (decide (q = p)) as [->|].
      + intros Hq. unfold w'. cbn [pw_writes]. unfold append_write. rewrite decide_False by set_solver. apply Hlen. set_solver. }
  constructor.
  - intros q. unfold w'. cbn [pw_writes]. unfold append_write. destruct (decide (q = p)); [|done]. by destruct (pw_writes w q).
  - intros u' [= <-]. by eexists.
  - intros Hc. eapply update_near; [exact Hok|by destruct written|exact Hc].
Qed.
Lemma writes_end w w' : pool_step PlUpdated w = Some w' → writes_ok w → writes_ok w'.
Proof.
  cbn. destruct (pw_update w) as [[[|[p v] rest] [|] began]|] eqn:Eu; try done; intros E [Hs Hup Hnear]; destruct (Hup _ Eu) as (written & Hok).
  - destruct (pw_generation w + 1 <? two64); [|done]. injection E as <-. constructor; [done|done|]. intros _ p k v.
    destruct Hok as [_ Hview Hch Hw]. cbn [pw_view pw_writes]. rewrite (Hview (Hch eq_refl)). cbn [up_began]. intros Hk Hv.
    destruct (Hw p) as (old & Hold & Hread & _). cbn [up_began] in *. destruct (Hread k v Hk Hv) as [->| ->]; [right|by left].
    cbn [pw_before]. by rewrite Hold.
  - injection E as <-. constructor; [done|done|]. intros _. apply Hnear. unfold clean. by rewrite Eu.
Qed.

(** ** The invariant *)

(** The values told so far are in force, or were before the last change when a
    load was stale; and what is still to be loaded can be no older. *)
Definition told_but (w : PoolWorld) (rest : list Pragma) (c : RelayConn) : Prop :=
  (∀ p, p ∉ rest → ∃ v, cn_told c p = Some (told_sqlite p v)
     ∧ (v = pw_values w p ∨ p ≠ PgSynchronous ∧ cn_stale c = true ∧ v = pw_before w p))
  ∧ (PgSynchronous ∉ rest → view_near w (cn_view c)).
Definition conn_ok (w : PoolWorld) (c : RelayConn) : Prop :=
  match cn_phase c with
  | CnConnecting rest =>
      (∃ written, all_pragmas = written ++ rest) ∧ (cn_overlapped c = false → clean w → told_but w rest c)
  | CnIdle =>
      cn_generation c ≤ pw_generation w
      ∧ (cn_overlapped c = false → cn_generation c = pw_generation w → clean w → told_but w [] c)
  | CnChecking generation rest =>
      (∃ written, all_pragmas = written ++ rest)
      ∧ generation ≤ pw_generation w ∧ (generation = pw_generation w → clean w → told_but w rest c)
  end.
Record pool_inv (w : PoolWorld) : Prop := mkPoolInv {
  pi_writes : writes_ok w;
  pi_conns id c : pw_conns w !! id = Some c → conn_ok w c;
}.

(** Steps that leave the connections' view of the settings alone: what they
    write is what was there. *)
Definition same_values (w w' : PoolWorld) : Prop :=
  (∀ p, pw_values w' p = pw_values w p) ∧ (∀ p, pw_before w' p = pw_before w p)
  ∧ ∀ p k v, pw_writes w' p !! k = Some v → pw_writes w p !! k = Some v ∨ v = pw_values w p.
Lemma told_but_same w w' rest c : same_values w w' → told_but w rest c → told_but w' rest c.
Proof.
  intros (Hv & Hb & Hw) [Ht Hn]. split.
  - intros p Hp. destruct (Ht p Hp) as (v & E & Hor). exists v. split; [done|]. by rewrite Hv, Hb.
  - intros Hs p k v Hk Hl. unfold near_value. rewrite Hv, Hb. destruct (Hw p k v Hl) as [Hl'| ->]; [by eapply Hn|by left].
Qed.
Lemma conn_ok_same w w' c :
  pw_generation w' = pw_generation w → (clean w' → clean w ∧ same_values w w') → conn_ok w c → conn_ok w' c.
Proof.
  intros Hg Hc. unfold conn_ok. rewrite Hg. destruct (cn_phase c) as [rest| |g rest].
  - intros [Hr Hok]. split; [done|]. intros Ho [Hw Hv]%Hc. eapply told_but_same; [done|]. by apply Hok.
  - intros [Hle Hok]. split; [done|]. intros Ho Hgen [Hw Hv]%Hc. eapply told_but_same; [done|]. by apply Hok.
  - intros (Hr & Hle & Hok). split_and!; [done..|]. intros Hgen [Hw Hv]%Hc. eapply told_but_same; [done|]. by apply Hok.
Qed.
Lemma same_values_refl w w' : pw_writes w' = pw_writes w → pw_before w' = pw_before w → same_values w w'.
Proof. intros Hw Hb. unfold same_values, pw_values. rewrite Hw, Hb. split_and!; [done..|]. by left. Qed.
Lemma pool_inv_insert id c w : conn_ok w c → pool_inv w → pool_inv (with_conn id c w).
Proof.
  intros Hc [Hwo Hinv]. split; [by apply writes_ok_conns|]. intros id' c'. cbn. destruct (decide (id' = id)) as [->|Hne]; [rewrite lookup_insert_eq; intros [= <-]; exact Hc|].
    rewrite lookup_insert_ne by done. apply Hinv.
Qed.
(** One pragma of [apply]. *)
Lemma apply_told w p write rest written phase c c' :
  writes_ok w → all_pragmas = written ++ p :: rest → apply_pragma w p write phase c = Some c' →
  cn_phase c' = phase ∧ cn_generation c' = cn_generation c ∧ cn_overlapped c' = cn_overlapped c
  ∧ (clean w → told_but w (p :: rest) c → told_but w rest c').
Proof.
  intros Hwo Hleft. destruct (left_after_lock _ _ _ Hleft) as [Hrest Hlock]. unfold apply_pragma.
  assert (∀ v view stale, (v = pw_values w p ∨ p ≠ PgSynchronous ∧ (cn_stale c || stale) = true ∧ v = pw_before w p) →
    told_but w (p :: rest) c → ∀ q, q ∉ rest → ∃ v', cn_told (tell p v phase view stale c) q = Some (told_sqlite q v')
      ∧ (v' = pw_values w q ∨ q ≠ PgSynchronous ∧ (cn_stale c || stale) = true ∧ v' = pw_before w q)) as Htold.
  { intros v view stale Hv [Ht _] q Hq. cbn. destruct (decide (q = p)) as [->|Hne]; [by exists v|].
    destruct (Ht q) as (v' & E & Hor); [by apply not_elem_of_cons|]. exists v'. split; [done|].
    destruct Hor as [->|(Hs & -> & ->)]; [by left|by right]. }
  destruct (decide (p = PgSynchronous)) as [Hp|Hp].
  - intros [= <-]. split_and!; [done..|]. intros Hc Hok. split; [apply Htold; [by left|done]|]. intros _. by apply wo_near.
  - destruct (Nat.leb_spec (cn_view c p) write) as [Hle|]; [|done]. destruct (pw_writes w p !! write) as [v|] eqn:Ev; [|done].
    intros [= <-]. split_and!; [done..|]. intros Hc Hok. destruct Hok as [Ht Hn]. specialize (Hn (Hlock Hp)). split; [|intros _; exact Hn].
    apply Htold; [|by split; [exact Ht|intros _; exact Hn]].
    destruct (Nat.eqb_spec write (newest w p)) as [->|Hw]; cbn [negb].
    + left. rewrite (newest_lookup w p) in Ev by apply wo_some, Hwo. by injection Ev.
    + rewrite orb_true_r. destruct (Hn p write v Hle Ev) as [->| ->]; [by left|by right].
Qed.
(** A connection that was told nothing yet. *)
Lemma told_nothing w c : told_but w all_pragmas c.
Proof. split; [intros p Hp|intros Hp]; by destruct Hp; apply all_pragmas_all. Qed.
Lemma pool_new_inv : pool_inv pool_new.
Proof.
  split; [split|].
  - done.
  - done.
  - intros _ p k v _ Hv. left. apply list_elem_of_lookup_2, list_elem_of_singleton in Hv. by rewrite Hv.
  - intros id c. unfold pool_new. cbn [pw_conns]. by intros ?%lookup_empty_Some.
Qed.
Lemma pool_update_inv new w w' : pool_step (PlUpdate new) w = Some w' → pool_inv w → pool_inv w'.
Proof.
  cbn. destruct (pw_update w) as [|] eqn:Eu; [done|]. intros [= <-] [Hwo Hinv]. split; [by apply writes_begin|].
  intros id c Hc. apply (conn_ok_same w); [done| |by eapply Hinv]. intros _. split; [unfold clean; by rewrite Eu|by apply same_values_refl].
Qed.
Lemma pool_write_inv w w' : pool_step PlWrite w = Some w' → pool_inv w → pool_inv w'.
Proof.
  intros E [Hwo Hinv]. split; [by eapply writes_write|]. cbn in E.
  destruct (pw_update w) as [[[|[p v] rest] changed began]|] eqn:Eu; [done| |done]. injection E as <-. intros id c Hc.
  apply (conn_ok_same w); [done| |by eapply Hinv]. unfold clean. cbn [pw_update up_changed]. rewrite Eu. cbn [up_changed].
  intros [Hch Hb]%orb_false_iff. apply negb_false_iff, bool_decide_eq_true in Hb. split; [done|].
  split_and!; [|done|].
  - intros q. unfold pw_values at 1. cbn [pw_writes]. rewrite latest_append. by destruct (decide (q = p)) as [->|].
  - cbn [pw_writes]. intros q k x [Hx|[-> ->]]%append_lookup; [by left|by right].
Qed.
Lemma pool_updated_inv w w' : pool_step PlUpdated w = Some w' → pool_inv w → pool_inv w'.
Proof.
  intros E [Hwo Hinv]. split; [by eapply writes_end|]. cbn in E.
  destruct (pw_update w) as [[[|[p v] rest] [|] began]|] eqn:Eu; try done.
  - destruct (pw_generation w + 1 <? two64); [|done]. injection E as <-. intros id c Hc. cbn [pw_conns] in Hc.
    rewrite lookup_fmap in Hc. destruct (pw_conns w !! id) as [c0|] eqn:Ec; [|done]. injection Hc as <-. specialize (Hinv id c0 Ec).
    unfold conn_ok, overlap in *. cbn [pw_generation]. destruct (cn_phase c0) as [rest| |g rest] eqn:Ep; cbn [cn_phase]; rewrite ?Ep.
    + split; [by destruct Hinv|done].
    + destruct Hinv as [Hle _]. split; [lia|]. intros _ Hgen. lia.
    + destruct Hinv as (Hr & Hle & _). split_and!; [done|lia|]. intros Hgen. lia.
  - injection E as <-. intros id c Hc. apply (conn_ok_same w); [done| |by eapply Hinv]. intros _.
    split; [unfold clean; by rewrite Eu|by apply same_values_refl].
Qed.
Lemma pool_step_inv ev w w' : pool_step ev w = Some w' → pool_inv w → pool_inv w'.
Proof.
  intros E Hinv. destruct ev as [new| | |id|id write|id g|id g|id|id].
  1: by eapply pool_update_inv. 1: by eapply pool_write_inv. 1: by eapply pool_updated_inv.
  all: pose proof Hinv as [Hwo Hall]; cbn in E.
  - destruct (pw_conns w !! id); [done|]. injection E as <-. apply pool_inv_insert; [|done].
    split; [by exists []|]. intros _ _. apply told_nothing.
  - destruct (pw_conns w !! id) as [c|] eqn:Ec; [|done]. cbn in E. pose proof (Hall id c Ec) as Hok. unfold conn_ok in Hok.
    destruct (cn_phase c) as [[|p rest]| |g [|p rest]]; try done;
      destruct (apply_pragma _ _ _ _ _) as [c'|] eqn:Ea; try done; injection E as <-; (apply pool_inv_insert; [|done]); unfold conn_ok.
    + destruct Hok as [[written Hl] Hok]. destruct (apply_told _ _ _ _ _ _ _ _ Hwo Hl Ea) as (-> & _ & -> & Ht).
      split; [exists (written ++ [p]); by rewrite <- app_assoc|]. intros Ho Hc. by apply Ht, Hok.
    + destruct Hok as ([written Hl] & Hle & Hok). destruct (apply_told _ _ _ _ _ _ _ _ Hwo Hl Ea) as (-> & _ & _ & Ht).
      split_and!; [exists (written ++ [p]); by rewrite <- app_assoc|done|]. intros Hg Hc. by apply Ht, Hok.
  - destruct (pw_conns w !! id) as [c|] eqn:Ec; [|done]. cbn in E. pose proof (Hall id c Ec) as Hok. unfold conn_ok in Hok.
    destruct (cn_phase c) as [[|p rest]| |]; try done. destruct (N.leb_spec g (pw_generation w)); [|done]. injection E as <-.
    apply pool_inv_insert; [|done]. destruct Hok as [_ Hok]. split; [done|]. intros Ho _ Hc. by apply Hok.
  - destruct (pw_conns w !! id) as [c|] eqn:Ec; [|done]. cbn in E. destruct (cn_phase c) eqn:Ep; try done.
    destruct (N.leb_spec (cn_generation c) g), (N.leb_spec g (pw_generation w)); try done. cbn in E.
    destruct (cn_generation c =? g); injection E as <-; [done|]. apply pool_inv_insert; [|done].
    split_and!; [by exists []|done|]. intros _ _. apply told_nothing.
  - destruct (pw_conns w !! id) as [c|] eqn:Ec; [|done]. cbn in E. pose proof (Hall id c Ec) as Hok. unfold conn_ok in Hok.
    destruct (cn_phase c) as [| |g [|p rest]]; try done. injection E as <-. apply pool_inv_insert; [|done].
    destruct Hok as (_ & Hle & Hok). split; [done|]. intros _. exact Hok.
  - injection E as <-. split; [by apply writes_ok_conns|]. intros id' c Hc. cbn in Hc. apply lookup_delete_Some in Hc as [_ Hc]. by apply (Hall id' c).
Qed.
Lemma pool_run_inv evs w w' : pool_run evs w = Some w' → pool_inv w → pool_inv w'.
Proof.
  revert w. induction evs as [|ev evs IH]; intros w; cbn [pool_run]; [by intros [= <-]|].
  destruct (pool_step ev w) as [w1|] eqn:E; [|done]. intros Hr Hw. eapply IH; [done|]. by eapply pool_step_inv.
Qed.

(** ** Checking a connection out *)

(** [is_valid] from start to end, with nothing in between: the generation it
    reads, and the write each of its loads is answered by. *)
Definition retune (picks : View) (id : N) (rest : list Pragma) : list PoolEvent :=
  ((λ p, PlApply id (picks p)) <$> rest) ++ [PlChecked id].
Definition checkout (id generation : N) (picks : View) (w : PoolWorld) : option PoolWorld :=
  c ← pw_conns w !! id;
  pool_run (PlCheck id generation :: if cn_generation c =? generation then [] else retune picks id all_pragmas) w.

(** The rest of the pool is as it was. *)
Record only_conn (id : N) (w w' : PoolWorld) : Prop := mkOnlyConn {
  oc_generation : pw_generation w' = pw_generation w;
  oc_writes : pw_writes w' = pw_writes w;
  oc_view : pw_view w' = pw_view w;
  oc_update : pw_update w' = pw_update w;
  oc_before : pw_before w' = pw_before w;
  oc_others other : other ≠ id → pw_conns w' !! other = pw_conns w !! other;
}.
Lemma only_conn_refl id w : only_conn id w w.
Proof. by constructor. Qed.
Lemma only_conn_insert id c w : only_conn id w (with_conn id c w).
Proof. constructor; try done. intros other Ho. by apply lookup_insert_ne. Qed.
Lemma only_conn_trans id w1 w2 w3 : only_conn id w1 w2 → only_conn id w2 w3 → only_conn id w1 w3.
Proof. intros [A1 A2 A3 A4 A5 A6] [B1 B2 B3 B4 B5 B6]. constructor; [congruence..|]. intros other Ho. by rewrite B6, A6. Qed.

(** The loads that the memory allows: no older than what the lock shows. *)
Definition allowed (w : PoolWorld) (picks : View) : Prop := ∀ p, (pw_view w p ≤ picks p ≤ newest w p)%nat.
(** Nothing older than the newest write is read. *)
Definition fresh (w : PoolWorld) (picks : View) : Prop := ∀ p, picks p = newest w p.

Lemma apply_pragma_run w p write phase c :
  pw_writes w p ≠ [] → (cn_view c p ≤ write ≤ newest w p)%nat → (∀ q, (cn_view c q ≤ pw_view w q)%nat) →
  ∃ c', apply_pragma w p write phase c = Some c' ∧ cn_phase c' = phase ∧ (∀ q, (cn_view c' q ≤ pw_view w q)%nat)
    ∧ (write = newest w p → cn_stale c' = cn_stale c).
Proof.
  intros Hn [Hlo Hhi] Hv. unfold apply_pragma. destruct (decide (p = PgSynchronous)) as [Hp|Hp].
  - eexists. split_and!; [done..|]. intros _. cbn. by rewrite orb_false_r.
  - rewrite (proj2 (Nat.leb_le _ _) Hlo). destruct (pw_writes w p !! write) as [v|] eqn:Ev; cbn.
    + eexists. split_and!; [done..|]. intros ->. cbn. by rewrite Nat.eqb_refl, orb_false_r.
    + apply lookup_ge_None in Ev. unfold newest in Hhi. destruct (pw_writes w p); [done|]. cbn in *. lia.
Qed.
Lemma retune_run picks id rest w c g :
  writes_ok w → allowed w picks → pw_conns w !! id = Some c → cn_phase c = CnChecking g rest → (∀ p, (cn_view c p ≤ pw_view w p)%nat) →
  ∃ w' c', pool_run (retune picks id rest) w = Some w' ∧ only_conn id w w'
    ∧ pw_conns w' !! id = Some c' ∧ cn_phase c' = CnIdle ∧ cn_generation c' = g ∧ cn_overlapped c' = false
    ∧ (fresh w picks → cn_stale c' = cn_stale c).
Proof.
  unfold retune. revert w c. induction rest as [|p rest IH]; intros w c Hwo Hal Hc Hp Hview; cbn [fmap list_fmap app pool_run pool_step].
  - rewrite Hc. cbn [mbind option_bind]. rewrite Hp. eexists _, _. split; [done|]. split; [apply only_conn_insert|].
    cbn [with_conn pw_conns]. by rewrite lookup_insert_eq.
  - rewrite Hc. cbn [mbind option_bind]. rewrite Hp.
    destruct (apply_pragma_run w p (picks p) (CnChecking g rest) c) as (c1 & -> & Hp1 & Hv1 & Hs1);
      [by apply wo_some|specialize (Hal p); specialize (Hview p); lia|done|]. cbn [option_bind].
    destruct (IH (with_conn id c1 w) c1) as (w' & c' & Hrun & Ho & Hc' & Hph & Hg & Hov & Hst); [|done|apply lookup_insert_eq|done|done|].
    { by apply writes_ok_conns. }
    exists w', c'. split; [exact Hrun|]. split; [eapply only_conn_trans; [apply only_conn_insert|exact Ho]|].
    split_and!; [done..|]. intros Hf. rewrite (Hst Hf). by apply Hs1.
Qed.
(** What the invariant says of an idle connection of the current generation. *)
Lemma idle_tuned w id c :
  pool_inv w → pw_update w = None → pw_conns w !! id = Some c → cn_phase c = CnIdle →
  cn_generation c = pw_generation w → cn_overlapped c = false →
  nearly_tuned w c ∧ (cn_stale c = false → tuned (pw_values w) c).
Proof.
  intros [_ Hi] Hu Hc Hp Hg Ho. pose proof (Hi id c Hc) as Hok. unfold conn_ok in Hok. rewrite Hp in Hok.
  destruct Hok as [_ Hok]. destruct (Hok Ho Hg) as [Ht _]; [unfold clean; by rewrite Hu|]. split.
  - intros p. destruct (Ht p) as (v & -> & [->|(Hs & _ & ->)]); [by apply not_elem_of_nil|by left|by right].
  - intros Hst p. destruct (Ht p) as (v & -> & [->|(_ & Hs' & _)]); [by apply not_elem_of_nil|done|congruence].
Qed.

(** C36: a change of the storage settings reaches the connections, as far as
    relaxed atomics let it. Whatever the updates, the connections made, checked
    and dropped, however they interleave, and whichever older writes the loads
    are answered by: when no update is running, an idle connection that carries
    the current generation, and was not being made while a change was completed,
    has been told the synchronous mode in force, and every other value either as
    it is or as it was before the last change; and all as they are if no load was
    answered by an older write. Checking out a connection of another generation,
    when the load of the generation is not stale, ends, touches nothing else, and
    leaves it just so; with no stale load it leaves it told every value. (The
    exceptions are real: [connect_misses_a_change],
    [relaxed_load_keeps_old_value], [stale_generation_passes].) *)
Theorem checkout_follows_settings evs w id c :
  pool_run evs pool_new = Some w → pw_update w = None → pw_conns w !! id = Some c → cn_phase c = CnIdle →
  (cn_generation c = pw_generation w → cn_overlapped c = false →
   nearly_tuned w c ∧ (cn_stale c = false → tuned (pw_values w) c))
  ∧ ∀ picks, allowed w picks → cn_generation c ≠ pw_generation w →
     ∃ w' c', checkout id (pw_generation w) picks w = Some w' ∧ only_conn id w w' ∧ pw_conns w' !! id = Some c'
       ∧ cn_phase c' = CnIdle ∧ cn_generation c' = pw_generation w ∧ nearly_tuned w c'
       ∧ (fresh w picks → tuned (pw_values w) c').
Proof.
  intros Hrun Hu Hc Hp. pose proof (pool_run_inv _ _ _ Hrun pool_new_inv) as Hinv.
  split; [by eapply idle_tuned|]. intros picks Hal Hg.
  pose proof (pi_conns _ Hinv id c Hc) as Hok. unfold conn_ok in Hok. rewrite Hp in Hok. destruct Hok as [Hle _].
  set (c1 := mkRelayConn (cn_told c) (cn_generation c) (CnChecking (pw_generation w) all_pragmas) (λ _, 0%nat) (cn_overlapped c) false).
  assert (pool_step (PlCheck id (pw_generation w)) w = Some (with_conn id c1 w)) as Hstep.
  { cbn. rewrite Hc. cbn. rewrite Hp, (proj2 (N.leb_le _ _) Hle), N.leb_refl. cbn. by rewrite (proj2 (N.eqb_neq _ _) Hg). }
  pose proof (pool_step_inv _ _ _ Hstep Hinv) as Hinv1.
  destruct (retune_run picks id all_pragmas (with_conn id c1 w) c1 (pw_generation w))
    as (w' & c' & Hr & Ho & Hc' & Hp' & Hg' & Hov & Hst); [by apply pi_writes|done|apply lookup_insert_eq|done|cbn; lia|].
  pose proof (only_conn_trans _ _ _ _ (only_conn_insert id c1 w) Ho) as [Eg Ew Ev Eu Eb Eo].
  pose proof (pool_run_inv _ _ _ Hr Hinv1) as Hinv'.
  destruct (idle_tuned w' id c') as [Hn Ht]; [done|congruence|done..|congruence|done|].
  exists w', c'. split; [|split_and!].
  - unfold checkout. rewrite Hc. cbn [mbind option_bind]. rewrite (proj2 (N.eqb_neq _ _) Hg). unfold pool_run. fold pool_run. by rewrite Hstep.
  - by constructor.
  - done.
  - done.
  - done.
  - intros p. specialize (Hn p). unfold pw_values in *. by rewrite <- Ew, <- Eb.
  - intros Hf p. unfold pw_values in *. rewrite <- Ew. apply Ht. by rewrite (Hst Hf).
Qed.

(** ** What gets past a checkout *)

Definition other_pragmas : Pragmas := with_pragma PgSynchronous (PvText (lit "full")) (with_pragma PgBusyTimeoutMs (PvInt 9000) default_pragmas).
Definition change : list PoolEvent := [PlUpdate other_pragmas; PlWrite; PlWrite; PlWrite; PlWrite; PlUpdated].
Definition making (id : N) : list PoolEvent := PlConnect id :: ((λ _, PlApply id 0) <$> all_pragmas).
Definition pool_after (evs : list PoolEvent) : PoolWorld := default pool_new (pool_run evs pool_new).
Definition conn_after (evs : list PoolEvent) : RelayConn :=
  default (mkRelayConn (λ _, None) 0 CnIdle (λ _, 0%nat) true true) (pw_conns (pool_after evs) !! 1).
(** [connect] applies the pragmas and then reads the generation: when a change
    is completed in between, the connection carries the old tuning under the new
    generation, and no checkout corrects it. *)
Lemma connect_misses_a_change :
  let w := pool_after (making 1 ++ change ++ [PlConnected 1 2]) in
  let c := conn_after (making 1 ++ change ++ [PlConnected 1 2]) in
  pool_run (making 1 ++ change ++ [PlConnected 1 2]) pool_new = Some w ∧ pw_update w = None
  ∧ pw_conns w !! 1 = Some c ∧ cn_phase c = CnIdle ∧ cn_generation c = pw_generation w
  ∧ cn_told c PgSynchronous = Some (PvText (lit "normal")) ∧ pw_values w PgSynchronous = PvText (lit "full")
  ∧ checkout 1 2 (newest w) w = Some w.
Proof. cbv zeta. split_and!; vm_compute; reflexivity. Qed.
(** A checkout after the change reads the new generation, and then, nothing but
    the mutex ordering its loads, the old busy timeout: it keeps it under the new
    generation, and no later checkout corrects it. *)
Definition stale_load : list PoolEvent :=
  making 1 ++ [PlConnected 1 1] ++ change ++ [PlCheck 1 2; PlApply 1 1; PlApply 1 0; PlApply 1 1; PlApply 1 1; PlChecked 1].
Lemma relaxed_load_keeps_old_value :
  let w := pool_after stale_load in
  let c := conn_after stale_load in
  pool_run stale_load pool_new = Some w ∧ pw_update w = None
  ∧ pw_conns w !! 1 = Some c ∧ cn_phase c = CnIdle ∧ cn_generation c = pw_generation w ∧ cn_overlapped c = false
  ∧ cn_told c PgSynchronous = Some (PvText (lit "full")) ∧ cn_told c PgBusyTimeoutMs = Some (PvInt 5000)
  ∧ pw_values w PgBusyTimeoutMs = PvInt 9000 ∧ checkout 1 2 (newest w) w = Some w.
Proof. cbv zeta. split_and!; vm_compute; reflexivity. Qed.
(** A checkout whose load of the generation is stale hands the connection out
    with the old tuning. *)
Definition changed_later : list PoolEvent := making 1 ++ [PlConnected 1 1] ++ change.
Lemma stale_generation_passes :
  let w := pool_after changed_later in
  pool_run changed_later pool_new = Some w ∧ pw_generation w = 2 ∧ checkout 1 1 (newest w) w = Some w
  ∧ cn_told (conn_after changed_later) PgSynchronous = Some (PvText (lit "normal")).
Proof. cbv zeta. split_and!; vm_compute; reflexivity. Qed.

Lemma checkout_follows_settings_witness :
  ∃ w' c', checkout 1 2 (newest (pool_after changed_later)) (pool_after changed_later) = Some w' ∧ pw_conns w' !! 1 = Some c'
    ∧ cn_told c' PgSynchronous = Some (PvText (lit "full")) ∧ cn_told c' PgBusyTimeoutMs = Some (PvInt 9000).
Proof.
  assert (pool_run changed_later pool_new = Some (pool_after changed_later)) as Hrun by (vm_compute; reflexivity).
  assert (pw_conns (pool_after changed_later) !! 1 = Some (conn_after changed_later)) as Hc by (vm_compute; reflexivity).
  destruct (checkout_follows_settings changed_later (pool_after changed_later) 1 (conn_after changed_later) Hrun) as [_ Hout];
    [vm_compute; reflexivity|exact Hc|vm_compute; reflexivity|].
  destruct (Hout (newest (pool_after changed_later))) as (w' & c' & Hcheck & _ & Hc' & _ & _ & _ & Ht); [|by vm_compute|].
  { intros []; split; apply Nat.leb_le; vm_compute; reflexivity. }
  exists w', c'. split; [exact Hcheck|]. split; [exact Hc'|].
  specialize (Ht (λ p, eq_refl)). split; (etransitivity; [apply Ht|vm_compute; reflexivity]).
Defined.

(** ** Migrating *)

Definition has_columns (s : Schema) : Prop := ∀ table column, (table, column) ∈ ADDED_COLUMNS → ∃ columns, s !! table = Some columns ∧ column ∈ columns.
Lemma add_column_ok s added :
  is_Some (s !! added.1) →
  ∃ s', add_column s added = Some s' ∧ (∃ columns, s' !! added.1 = Some columns ∧ added.2 ∈ columns)
    ∧ (∀ table columns, s !! table = Some columns → ∃ more, s' !! table = Some (columns ++ more)).
Proof.
  intros [columns Hc]. unfold add_column. rewrite Hc. cbn. destruct (bool_decide_reflect (added.2 ∈ columns)) as [Hin|Hin].
  - exists s. split_and!; [done|by eexists|]. intros table cs Ht. exists []. by rewrite app_nil_r.
  - eexists. split_and!; [done| |].
    + eexists. rewrite lookup_insert_eq. split; [done|]. set_solver.
    + intros table cs Ht. destruct (decide (table = added.1)) as [->|Hne].
      * rewrite lookup_insert_eq. eexists. rewrite Hc in Ht. by injection Ht as <-.
      * rewrite lookup_insert_ne by done. exists []. by rewrite app_nil_r.
Qed.
Lemma add_column_nothing s added columns : s !! added.1 = Some columns → added.2 ∈ columns → add_column s added = Some s.
Proof. intros Hc Hin. unfold add_column. rewrite Hc. cbn. by rewrite bool_decide_eq_true_2. Qed.

(** A database with the two tables is brought up to date, keeps what it had, and
    migrating it again does nothing. *)
Theorem migrate_once s :
  is_Some (s !! "devices"%string) → is_Some (s !! "terminals"%string) →
  ∃ s', migrate s = Some s' ∧ has_columns s' ∧ migrate s' = Some s'
    ∧ ∀ table columns, s !! table = Some columns → ∃ more, s' !! table = Some (columns ++ more).
Proof.
  intros Hd Ht.
  assert (∀ l s, (∀ added, added ∈ l → is_Some (s !! added.1)) →
    ∃ s', foldl (λ s added, s ← s; add_column s added) (Some s) l = Some s'
      ∧ (∀ added, added ∈ l → ∃ columns, s' !! added.1 = Some columns ∧ added.2 ∈ columns)
      ∧ (∀ table columns, s !! table = Some columns → ∃ more, s' !! table = Some (columns ++ more))) as Hall.
  { clear. induction l as [|added l IH]; intros s Hs.
    - exists s. split_and!; [done|by intros ? ?%elem_of_nil|]. intros table cs Ht. exists []. by rewrite app_nil_r.
    - destruct (add_column_ok s added) as (s1 & E1 & (cs & Hcs & Hin) & Hk1); [apply Hs; left|]. cbn. rewrite E1.
      destruct (IH s1) as (s2 & E2 & Hin2 & Hk2).
      { intros a Ha. destruct (Hs a) as [c Hc]; [by right|]. destruct (Hk1 _ _ Hc) as [m ->]. by eexists. }
      exists s2. split; [exact E2|]. split.
      + intros a [->|Ha]%elem_of_cons; [|by apply Hin2]. destruct (Hk2 _ _ Hcs) as [m Hm]. exists (cs ++ m). split; [done|set_solver].
      + intros table c Hc. destruct (Hk1 _ _ Hc) as [m Hm]. destruct (Hk2 _ _ Hm) as [m' Hm']. exists (m ++ m'). by rewrite app_assoc. }
  destruct (Hall ADDED_COLUMNS s) as (s' & E & Hin & Hk).
  { intros added Ha. unfold ADDED_COLUMNS in Ha. repeat (apply elem_of_cons in Ha as [->|Ha]; [done|]). by apply elem_of_nil in Ha. }
  exists s'. split; [exact E|]. split; [intros table column Ha; exact (Hin _ Ha)|]. split; [|exact Hk].
  unfold migrate. revert Hin. generalize ADDED_COLUMNS as l. clear. induction l as [|added l IH]; intros Hin; [done|].
  destruct (Hin added) as (cs & Hcs & Hc); [left|]. cbn. rewrite (add_column_nothing s' added cs Hcs Hc). apply IH. intros a Ha. apply Hin. by right.
Qed.
