(* ===== verification/DaemonServe.v ===== *)
(** * The daemon's accept loop ([publisher/src/daemon.rs], [serve])

    One daemon from its start to its end: the loop, the tasks it starts for
    clients and for the relay's requests, and the callers on the other side of
    the socket. Everything may happen between two of its steps; time passes
    only while nothing is left to do at once. The lock, the socket, processes
    and the clock are system calls: what they answer is part of the events. *)

From S2P Require Export Daemon.

Open Scope N_scope.
Open Scope hype_scope.

(** ** State *)

(** Milliseconds. *)
Definition IDLE_GRACE : N := 60000.
Definition ACCEPT_PAUSE : N := 100.
Definition LAST_LOOK : N := 250.
Definition EXIT_ALREADY_RUNNING : N := 3.

(** [Lock::acquire]: opening the file, then [flock] with its error's number. *)
Definition EWOULDBLOCK : Z := 11.
Definition lock_acquire (path : text) (opened : result text ()) (flock : result (Z * text) ()) : result text bool :=
  match opened with
  | Err e => Err (lit "opening " ++ path ++ lit ": " ++ e)
  | Ok _ =>
      match flock with
      | Ok _ => Ok true
      | Err (errno, e) => if (errno =? EWOULDBLOCK)%Z then Ok false else Err (lit "locking " ++ path ++ lit ": " ++ e)
      end
  end.

(** Who connects, and what [peer_cred] answers. *)
Record Caller := mkCaller {
  ca_id : N;
  ca_peer : option N;
}.
Definition same_user (euid : N) (c : Caller) : bool := match ca_peer c with Some uid => uid =? euid | None => false end.

#[export] Instance Caller_eq_dec : EqDecision Caller.
Proof. solve_decision. Defined.

Fixpoint take_out (c : Caller) (l : list Caller) : option (list Caller) :=
  match l with
  | [] => None
  | x :: l => if decide (x = c) then Some l else cons x <$> take_out c l
  end.

(** Waiting in [select!], with a deadline when idle; after a failed accept; in
    the last look at the backlog; over. *)
Inductive ServePhase :=
| SvSelecting (deadline : option N)
| SvPausing (until : N)
| SvStandingDown (until : N)
| SvReturned (r : result text ()).

(** [sv_bound]: the path leads to the listener. [sv_backlog]: connected for the
    kernel, not accepted. [sv_hung_up]: the session dropped its end of the
    requests. [sv_spawned]: the requests whose tasks have not run;
    [sv_waiting]: the children whose half minute runs. [sv_connected]: the
    clients' tasks; [sv_done]: what they sent when they ended. The last four
    are not in the code: who left after being served, who was refused, who was
    dropped unserved, and when the loop was last at its top. *)
Record Serve := mkServe {
  sv_phase : ServePhase;
  sv_now : N;
  sv_bound : bool;
  sv_backlog : list Caller;
  sv_shared : Shared;
  sv_requests : list RemoteRequest;
  sv_hung_up : bool;
  sv_spawned : list RemoteRequest;
  sv_waiting : N;
  sv_connected : list Caller;
  sv_done : N;
  sv_left : list Caller;
  sv_refused : list Caller;
  sv_lost : list Caller;
  sv_heard : N;
}.
Definition set_sv_phase (p : ServePhase) (w : Serve) : Serve :=
  mkServe p (sv_now w) (sv_bound w) (sv_backlog w) (sv_shared w) (sv_requests w) (sv_hung_up w) (sv_spawned w)
    (sv_waiting w) (sv_connected w) (sv_done w) (sv_left w) (sv_refused w) (sv_lost w) (sv_heard w).
Definition set_sv_now (now : N) (w : Serve) : Serve :=
  mkServe (sv_phase w) now (sv_bound w) (sv_backlog w) (sv_shared w) (sv_requests w) (sv_hung_up w) (sv_spawned w)
    (sv_waiting w) (sv_connected w) (sv_done w) (sv_left w) (sv_refused w) (sv_lost w) (sv_heard w).
Definition set_sv_socket (bound : bool) (backlog lost : list Caller) (w : Serve) : Serve :=
  mkServe (sv_phase w) (sv_now w) bound backlog (sv_shared w) (sv_requests w) (sv_hung_up w) (sv_spawned w)
    (sv_waiting w) (sv_connected w) (sv_done w) (sv_left w) (sv_refused w) lost (sv_heard w).
Definition set_sv_shared (s : Shared) (w : Serve) : Serve :=
  mkServe (sv_phase w) (sv_now w) (sv_bound w) (sv_backlog w) s (sv_requests w) (sv_hung_up w) (sv_spawned w)
    (sv_waiting w) (sv_connected w) (sv_done w) (sv_left w) (sv_refused w) (sv_lost w) (sv_heard w).
Definition set_sv_requests (requests : list RemoteRequest) (hung_up : bool) (spawned : list RemoteRequest) (w : Serve) : Serve :=
  mkServe (sv_phase w) (sv_now w) (sv_bound w) (sv_backlog w) (sv_shared w) requests hung_up spawned
    (sv_waiting w) (sv_connected w) (sv_done w) (sv_left w) (sv_refused w) (sv_lost w) (sv_heard w).
Definition set_sv_waiting (waiting : N) (w : Serve) : Serve :=
  mkServe (sv_phase w) (sv_now w) (sv_bound w) (sv_backlog w) (sv_shared w) (sv_requests w) (sv_hung_up w) (sv_spawned w)
    waiting (sv_connected w) (sv_done w) (sv_left w) (sv_refused w) (sv_lost w) (sv_heard w).
Definition set_sv_clients (connected : list Caller) (done : N) (left refused : list Caller) (w : Serve) : Serve :=
  mkServe (sv_phase w) (sv_now w) (sv_bound w) (sv_backlog w) (sv_shared w) (sv_requests w) (sv_hung_up w) (sv_spawned w)
    (sv_waiting w) connected done left refused (sv_lost w) (sv_heard w).
Definition set_sv_heard (heard : N) (w : Serve) : Serve :=
  mkServe (sv_phase w) (sv_now w) (sv_bound w) (sv_backlog w) (sv_shared w) (sv_requests w) (sv_hung_up w) (sv_spawned w)
    (sv_waiting w) (sv_connected w) (sv_done w) (sv_left w) (sv_refused w) (sv_lost w) heard.

(** ** Steps *)

Inductive ServeEvent :=
(** The other side of the socket, and of the requests' channel. *)
| SvConnect (c : Caller)
| SvRequest (request : RemoteRequest)
| SvHangUp
(** What the clients' tasks do to the link and the claims. *)
| SvElsewhere (link : ControlChan) (claimed : gset text)
(** A client's task ends; a request's task runs; a child's half minute is over. *)
| SvClientEnds (c : Caller)
| SvHosts (instant : N)
| SvSettles
(** The loop: a request, no more of them, a caller, a failed accept, the pause
    after it, a task that ended, nobody for [IDLE_GRACE]. *)
| SvTakes
| SvNoMore
| SvAccepts
| SvAcceptFails
| SvResumes
| SvHears
| SvIdles
(** The last look: somebody, with what binding again answers; an error; nobody. *)
| SvLastCaller (rebound : result text ())
| SvLastFails
| SvLastNobody
| SvTick (ms : N).

Section serve.
Context (euid : N) (this_program : result text text) (state_file : text) (remote : RemoteOpenConfig) (desktop : Desktop).
Context (spawn spawn_window : list text → result text ()).
Context (debug : text → text).

(** The top of the loop. *)
Definition select (w : Serve) : Serve :=
  let deadline := if daemon_idle remote (sv_shared w) then Some (sv_now w + IDLE_GRACE) else None in
  set_sv_heard (sv_now w) (set_sv_phase (SvSelecting deadline) w).
Definition is_selecting (w : Serve) : bool := match sv_phase w with SvSelecting _ => true | _ => false end.

(** The task for one caller starts, or the caller is refused. *)
Definition receive (c : Caller) (w : Serve) : Serve :=
  if same_user euid c then
    set_sv_clients (sv_connected w ++ [c]) (sv_done w) (sv_left w) (sv_refused w)
      (set_sv_shared (client_accepted (sv_shared w)) w)
  else set_sv_clients (sv_connected w) (sv_done w) (sv_left w) (sv_refused w ++ [c]) w.

(** What makes [select!] return without waiting. *)
Definition due (w : Serve) : bool :=
  match sv_phase w with
  | SvSelecting deadline =>
      negb (bool_decide (sv_requests w = [])) || sv_hung_up w || negb (bool_decide (sv_backlog w = []))
      || (0 <? sv_done w) || from_option (λ d, d <=? sv_now w) false deadline
  | SvPausing until => until <=? sv_now w
  | SvStandingDown until => negb (bool_decide (sv_backlog w = [])) || (until <=? sv_now w)
  | SvReturned _ => false
  end.
(** The timer that a wait must not overrun. *)
Definition next_timer (w : Serve) : option N :=
  match sv_phase w with
  | SvSelecting deadline => deadline
  | SvPausing until | SvStandingDown until => Some until
  | SvReturned _ => None
  end.

(** [bind] in place of the old listener, whose other callers the kernel drops. *)
Definition bind_again (w : Serve) : Serve := set_sv_socket true [] (sv_lost w ++ sv_backlog w) w.
(** [serve] returns: the listener is dropped. *)
Definition serve_returns (r : result text ()) (w : Serve) : Serve :=
  set_sv_phase (SvReturned r) (set_sv_socket false [] (sv_lost w ++ sv_backlog w) w).

Definition serve_step (ev : ServeEvent) (w : Serve) : option Serve :=
  match ev with
  | SvConnect c => if sv_bound w then Some (set_sv_socket true (sv_backlog w ++ [c]) (sv_lost w) w) else None
  | SvRequest request =>
      if sv_hung_up w then None else Some (set_sv_requests (sv_requests w ++ [request]) false (sv_spawned w) w)
  | SvHangUp => Some (set_sv_requests (sv_requests w) true (sv_spawned w) w)
  | SvElsewhere link claimed => Some (set_sv_shared (set_link link (set_claimed (λ _, claimed) (sv_shared w))) w)
  | SvClientEnds c =>
      connected ← take_out c (sv_connected w);
      Some (set_sv_clients connected (sv_done w + 1) (sv_left w ++ [c]) (sv_refused w)
              (set_sv_shared (client_done (sv_shared w)) w))
  | SvHosts instant =>
      match sv_spawned w with
      | [] => None
      | request :: rest =>
          let '(_, waits, s) := host_for_request this_program state_file remote desktop spawn spawn_window debug
                                  instant id id request (sv_shared w) in
          Some (set_sv_requests (sv_requests w) (sv_hung_up w) rest
                  (set_sv_waiting (if waits then sv_waiting w + 1 else sv_waiting w) (set_sv_shared s w)))
      end
  | SvSettles =>
      if 0 <? sv_waiting w then Some (set_sv_waiting (sv_waiting w - 1) (set_sv_shared (hosting_settled (sv_shared w)) w)) else None
  | SvTakes =>
      if is_selecting w then
        match sv_requests w with
        | [] => None
        | request :: rest => Some (select (set_sv_requests rest (sv_hung_up w) (sv_spawned w ++ [request]) w))
        end
      else None
  | SvNoMore => if is_selecting w && bool_decide (sv_requests w = []) && sv_hung_up w then Some (select w) else None
  | SvAccepts =>
      if is_selecting w then
        match sv_backlog w with
        | [] => None
        | c :: rest => Some (select (receive c (set_sv_socket (sv_bound w) rest (sv_lost w) w)))
        end
      else None
  | SvAcceptFails => if is_selecting w then Some (set_sv_phase (SvPausing (sv_now w + ACCEPT_PAUSE)) w) else None
  | SvResumes =>
      match sv_phase w with
      | SvPausing until => if until <=? sv_now w then Some (select w) else None
      | _ => None
      end
  | SvHears =>
      if is_selecting w && (0 <? sv_done w) then
        Some (select (set_sv_clients (sv_connected w) (sv_done w - 1) (sv_left w) (sv_refused w) w))
      else None
  | SvIdles =>
      match sv_phase w with
      | SvSelecting (Some deadline) =>
          if deadline <=? sv_now w then
            Some (set_sv_phase (SvStandingDown (sv_now w + LAST_LOOK)) (set_sv_socket false (sv_backlog w) (sv_lost w) w))
          else None
      | _ => None
      end
  | SvLastCaller rebound =>
      match sv_phase w, sv_backlog w with
      | SvStandingDown _, c :: rest =>
          match rebound with
          | Ok _ => Some (select (receive c (bind_again (set_sv_socket false rest (sv_lost w) w))))
          | Err e => Some (serve_returns (Err e) w)
          end
      | _, _ => None
      end
  | SvLastFails => match sv_phase w with SvStandingDown _ => Some (serve_returns (Ok ()) w) | _ => None end
  | SvLastNobody =>
      match sv_phase w, sv_backlog w with
      | SvStandingDown until, [] => if until <=? sv_now w then Some (serve_returns (Ok ()) w) else None
      | _, _ => None
      end
  | SvTick ms =>
      if negb (due w) && (0 <? ms) && from_option (λ t, sv_now w + ms <=? t) true (next_timer w)
      then Some (set_sv_now (sv_now w + ms) w) else None
  end.
(** Nothing happens to a daemon that has returned. *)
Fixpoint serve_run (evs : list ServeEvent) (w : Serve) : option Serve :=
  match evs, sv_phase w with
  | [], _ => Some w
  | _ :: _, SvReturned _ => None
  | ev :: evs, _ => match serve_step ev w with Some w => serve_run evs w | None => None end
  end.

(** The start: the lock is taken or another daemon has it; then the socket is
    bound and the session started on [link]. *)
Inductive ServeStart :=
| SsExits (code : N)
| SsFails (e : text)
| SsServes (w : Serve).
Definition shared_new (link : ControlChan) : Shared := mkShared link ∅ 0 0 [].
Definition serve (lock : result text bool) (bound : result text ()) (link : ControlChan) (now : N) : ServeStart :=
  match lock with
  | Err e => SsFails e
  | Ok false => SsExits EXIT_ALREADY_RUNNING
  | Ok true =>
      match bound with
      | Err e => SsFails e
      | Ok _ =>
          SsServes (select (mkServe (SvSelecting None) now true [] (shared_new link) [] false [] 0 [] 0 [] [] [] now))
      end
  end.
End serve.
