(* ===== verification/DaemonServeProps.v ===== *)
(** * Theorems about the daemon's accept loop

    The daemon stands down only when nobody uses it, and then has served or
    refused everybody; a session that ended keeps it up for good. *)

From S2P Require Export DaemonServe.

Open Scope N_scope.
Open Scope hype_scope.

Lemma take_out_perm c l l' : take_out c l = Some l' → l ≡ₚ c :: l'.
Proof.
  revert l'. induction l as [|x l IH]; intros l'; cbn; [done|].
  destruct (decide (x = c)) as [->|]; [by intros [= ->]|].
  destruct (take_out c l) as [l0|]; [|done]. intros [= <-]. rewrite (IH l0 eq_refl). apply Permutation_swap.
Qed.
#[export] Instance len_Permutation {A} : Proper ((≡ₚ) ==> (=)) (@len A).
Proof. intros l k H. unfold len. by rewrite H. Qed.
Lemma take_out_length c l l' : take_out c l = Some l' → len l = len l' + 1.
Proof. intros H%take_out_perm. rewrite H. len_lia. Qed.

Section props.
Context (euid : N) (this_program : result text text) (state_file : text) (remote : RemoteOpenConfig) (desktop : Desktop).
Context (spawn spawn_window : list text → result text ()).
Context (debug : text → text).
Abbreviation hosts := (host_for_request this_program state_file remote desktop spawn spawn_window debug).
Abbreviation step := (serve_step euid this_program state_file remote desktop spawn spawn_window debug).
Abbreviation runs := (serve_run euid this_program state_file remote desktop spawn spawn_window debug).

(** ** The tasks *)

(** Hosting leaves the clients alone, and counts a child exactly when one is
    waited for. *)
Lemma host_counts instant request s tried waits s' :
  hosts instant id id request s = (tried, waits, s') →
  sh_clients s' = sh_clients s ∧ sh_hosting s' = sh_hosting s + (if waits : bool then 1 else 0)
  ∧ (ro_enabled remote = false → waits = false).
Proof.
  unfold host_for_request, rate_gate, decline, id. intros Hh.
  destruct (ro_enabled remote) eqn:Hen; cbn [negb] in Hh; [|by simplify_eq; cbn; rewrite N.add_0_r].
  repeat (case_match; simplify_eq); cbn; rewrite ?N.add_0_r, ?N.add_sub; done.
Qed.

(** ** The invariant *)

Definition unused (w : Serve) : Prop :=
  sv_connected w = [] ∧ sv_waiting w = 0 ∧ ro_enabled remote = false.
Definition serve_inv (w : Serve) : Prop :=
  sh_clients (sv_shared w) = len (sv_connected w)
  ∧ sh_hosting (sv_shared w) = sv_waiting w
  ∧ sv_heard w ≤ sv_now w
  ∧ Forall (λ c, same_user euid c = true) (sv_connected w ++ sv_left w)
  ∧ Forall (λ c, same_user euid c = false) (sv_refused w)
  ∧ match sv_phase w with
    | SvSelecting (Some deadline) => unused w ∧ deadline = sv_heard w + IDLE_GRACE
    | SvStandingDown until => unused w ∧ sv_heard w + IDLE_GRACE ≤ sv_now w ∧ sv_bound w = false
    | SvReturned (Ok _) => unused w ∧ sv_heard w + IDLE_GRACE ≤ sv_now w ∧ sv_bound w = false ∧ sv_backlog w = []
    | _ => True
    end.

Lemma idle_unused w :
  sh_clients (sv_shared w) = len (sv_connected w) → sh_hosting (sv_shared w) = sv_waiting w →
  daemon_idle remote (sv_shared w) = true ↔ unused w.
Proof.
  intros Hc Hh. unfold daemon_idle, unused. rewrite !andb_true_iff, !N.eqb_eq, negb_true_iff, Hc, Hh.
  split; [intros [[?%len_0_nil ?] ?]; done|intros (-> & ? & ?); done].
Qed.
Lemma select_inv w :
  sh_clients (sv_shared w) = len (sv_connected w) → sh_hosting (sv_shared w) = sv_waiting w →
  Forall (λ c, same_user euid c = true) (sv_connected w ++ sv_left w) → Forall (λ c, same_user euid c = false) (sv_refused w) →
  serve_inv (select remote w).
Proof.
  intros Hc Hh Hs Hr. unfold serve_inv, select. cbn. split_and!; try done.
  destruct (daemon_idle _ _) eqn:Hi; [|done]. split; [|done]. by apply (idle_unused w).
Qed.

Lemma receive_inv c w :
  sh_clients (sv_shared w) = len (sv_connected w) → sh_hosting (sv_shared w) = sv_waiting w →
  Forall (λ c, same_user euid c = true) (sv_connected w ++ sv_left w) → Forall (λ c, same_user euid c = false) (sv_refused w) →
  serve_inv (select remote (receive euid c w)).
Proof.
  intros Hc Hh Hs Hr. unfold receive. destruct (same_user euid c) eqn:Hu; apply select_inv; cbn; rewrite ?Forall_app in *; try done.
  - len_lia.
  - rewrite ?Forall_app, Forall_singleton. naive_solver.
  - rewrite ?Forall_app, Forall_singleton. naive_solver.
Qed.

(** The steps that are not the loop's leave it where it is. *)
Lemma serve_inv_aside w w' :
  sv_phase w' = sv_phase w → sv_now w' = sv_now w → sv_heard w' = sv_heard w → sv_bound w' = sv_bound w →
  (sv_backlog w = [] → sv_bound w = false → sv_backlog w' = []) →
  sh_clients (sv_shared w') = len (sv_connected w') → sh_hosting (sv_shared w') = sv_waiting w' →
  Forall (λ c, same_user euid c = true) (sv_connected w' ++ sv_left w') → Forall (λ c, same_user euid c = false) (sv_refused w') →
  (unused w → unused w') → serve_inv w → serve_inv w'.
Proof.
  intros Hphase Hnow Hheard Hbound Hback Hc Hh Hs Hr Hu (_ & _ & Hle & _ & _ & Hp).
  unfold serve_inv. rewrite Hphase, Hnow, Hheard, Hbound. split_and!; try done.
  destruct (sv_phase w) as [[]| | |[]]; naive_solver.
Qed.
Ltac step_cases H :=
  repeat match type of H with context [match ?x with _ => _ end] => destruct x eqn:?; try discriminate H end;
  try (injection H as <-).
Ltac serve_aside := eapply serve_inv_aside; cbn; try done.

Lemma serve_inv_step ev w w' : (∀ r, sv_phase w ≠ SvReturned r) → step ev w = Some w' → serve_inv w → serve_inv w'.
Proof.
  intros Hrun Hstep Hinv. pose proof Hinv as (Hc & Hh & Hheard & Hs & Hr & Hp). destruct ev; cbn in Hstep.
  - step_cases Hstep. serve_aside. congruence.
  - step_cases Hstep. serve_aside.
  - step_cases Hstep. serve_aside.
  - step_cases Hstep. serve_aside.
  - destruct (take_out c (sv_connected w)) as [rest|] eqn:Ht; [|done]. injection Hstep as <-.
    pose proof (take_out_perm _ _ _ Ht) as Hperm. pose proof (take_out_length _ _ _ Ht) as Hlen. serve_aside.
    + lia.
    + revert Hs. rewrite Hperm, !Forall_app, Forall_cons, Forall_singleton. naive_solver.
    + intros (Hnil & _). rewrite Hnil in Ht. done.
  - destruct (sv_spawned w) as [|request rest]; [done|].
    destruct (hosts _ _ _ _ _) as [[tried waits] s'] eqn:Hhost. injection Hstep as <-.
    apply host_counts in Hhost as (Hclients & Hhosting & Hoff). serve_aside.
    + by rewrite Hclients.
    + rewrite Hhosting, Hh. destruct waits; lia.
    + intros (? & ? & Hen). unfold unused; cbn. by rewrite (Hoff Hen).
  - step_cases Hstep. apply N.ltb_lt in Heqb. serve_aside.
    + lia.
    + intros (? & ? & ?). lia.
  - step_cases Hstep. by apply select_inv.
  - step_cases Hstep. by apply select_inv.
  - step_cases Hstep. by apply receive_inv.
  - step_cases Hstep. unfold serve_inv; cbn. done.
  - step_cases Hstep. by apply select_inv.
  - step_cases Hstep. by apply select_inv.
  - destruct (sv_phase w) as [[deadline|]| | |] eqn:Hphase; try done.
    destruct (N.leb_spec deadline (sv_now w)); [|done]. injection Hstep as <-. destruct Hp as [Hu ->].
    unfold serve_inv; cbn. split_and!; try done. 
  - destruct (sv_phase w) as [|? |until|] eqn:Hphase; try done. destruct (sv_backlog w) as [|c rest]; [done|].
    destruct rebound; injection Hstep as <-; [by apply receive_inv|]. unfold serve_inv; cbn. done.
  - destruct (sv_phase w) as [|? |until|] eqn:Hphase; try done. injection Hstep as <-.
    unfold serve_inv; cbn. split_and!; try done; naive_solver.
  - destruct (sv_phase w) as [|? |until|] eqn:Hphase; try done. destruct (sv_backlog w); [|done]. step_cases Hstep.
    unfold serve_inv; cbn. split_and!; try done; naive_solver.
  - step_cases Hstep. unfold serve_inv; cbn. split_and!; try done; [lia|].
    destruct (sv_phase w) as [[]| | |[]]; unfold unused in *; cbn; naive_solver lia.
Qed.

Lemma serve_inv_run evs w w' : runs evs w = Some w' →
  serve_inv w → serve_inv w'.
Proof.
  revert w. induction evs as [|ev evs IH]; intros w; cbn; [by intros [= ->]|].
  destruct (sv_phase w) eqn:Hp; try done; destruct (step ev w) as [w1|] eqn:Hs; try done;
    intros Hrun Hinv; apply (IH w1 Hrun), (serve_inv_step ev w); try done; by rewrite Hp.
Qed.

(** ** What becomes of a caller *)

Definition callers (w : Serve) : list Caller :=
  sv_backlog w ++ sv_connected w ++ sv_left w ++ sv_refused w ++ sv_lost w.
Definition connects (ev : ServeEvent) : list Caller := match ev with SvConnect c => [c] | _ => [] end.
(** An error in the last look, or a second caller behind the one that it finds. *)
Definition calm (ev : ServeEvent) : bool := match ev with SvLastCaller _ | SvLastFails => false | _ => true end.

Lemma callers_receive c w : callers (select remote (receive euid c w)) ≡ₚ c :: callers w.
Proof. unfold callers, receive. destruct (same_user euid c); cbn; solve_Permutation. Qed.
Lemma callers_step ev w w' : step ev w = Some w' → callers w' ≡ₚ callers w ++ connects ev.
Proof.
  unfold callers. intros Hstep. destruct ev; cbn in Hstep.
  - step_cases Hstep. cbn. solve_Permutation.
  - step_cases Hstep. cbn. solve_Permutation.
  - step_cases Hstep. cbn. solve_Permutation.
  - step_cases Hstep. cbn. solve_Permutation.
  - destruct (take_out c (sv_connected w)) as [rest|] eqn:Ht; [|done]. injection Hstep as <-.
    cbn. rewrite (take_out_perm _ _ _ Ht). solve_Permutation.
  - destruct (sv_spawned w) as [|request rest]; [done|].
    destruct (hosts _ _ _ _ _) as [[tried waits] s']. injection Hstep as <-. cbn. solve_Permutation.
  - step_cases Hstep. cbn. solve_Permutation.
  - step_cases Hstep. cbn. solve_Permutation.
  - step_cases Hstep. cbn. solve_Permutation.
  - step_cases Hstep. fold (callers (select remote (receive euid c (set_sv_socket (sv_bound w) l (sv_lost w) w)))).
    rewrite callers_receive. unfold callers; cbn. solve_Permutation.
  - step_cases Hstep. cbn. solve_Permutation.
  - step_cases Hstep. cbn. solve_Permutation.
  - step_cases Hstep. cbn. solve_Permutation.
  - step_cases Hstep. cbn. solve_Permutation.
  - destruct (sv_phase w); try done. destruct (sv_backlog w) as [|c rest] eqn:Hb; [done|].
    destruct rebound; injection Hstep as <-; cbn [connects].
    + fold (callers (select remote (receive euid c (bind_again (set_sv_socket false rest (sv_lost w) w))))).
      rewrite callers_receive. unfold callers; cbn. solve_Permutation.
    + cbn. rewrite Hb. solve_Permutation.
  - step_cases Hstep. cbn. solve_Permutation.
  - step_cases Hstep; cbn; rewrite ?Heql; solve_Permutation.
  - step_cases Hstep. cbn. solve_Permutation.
Qed.
Lemma calm_step ev w w' : step ev w = Some w' → calm ev = true → sv_lost w' = sv_lost w.
Proof.
  intros Hstep Hcalm. destruct ev; cbn in Hstep; try discriminate Hcalm.
  6: { destruct (sv_spawned w) as [|request rest]; [done|].
       destruct (hosts _ _ _ _ _) as [[tried waits] s']. by injection Hstep as <-. }
  5: { destruct (take_out c (sv_connected w)); [|done]. by injection Hstep as <-. }
  all: step_cases Hstep; try done.
  - unfold receive. by destruct (same_user euid c).
  - cbn. by rewrite Heql, app_nil_r.
Qed.
Lemma callers_run evs w w' : runs evs w = Some w' →
  callers w' ≡ₚ callers w ++ (evs ≫= connects) ∧ (Forall (λ ev, calm ev = true) evs → sv_lost w' = sv_lost w).
Proof.
  revert w. induction evs as [|ev evs IH]; intros w; cbn; [by intros [= ->]; rewrite app_nil_r|].
  destruct (sv_phase w) eqn:Hp; try done; destruct (step ev w) as [w1|] eqn:Hs; try done; intros [Hperm Hlost]%IH; split.
  all: try by rewrite Hperm, (callers_step ev w w1 Hs), <-(assoc_L (++)).
  all: intros [Hcalm Hrest]%Forall_cons; by rewrite (Hlost Hrest), (calm_step ev w w1 Hs Hcalm).
Qed.

(** ** A run *)

(** C19: a daemon that stands down is not in use, whatever happened to it from
    its start: nobody is connected, no shell that it hosts is starting, opening
    from elsewhere is switched off, and a minute has passed since anything
    happened in its loop. The path no longer leads to it, and everybody who
    ever connected was served to their end, or refused as another user, or was
    dropped by the kernel; and nobody was dropped unless its last look at the
    backlog failed or found somebody. *)
Theorem stands_down_unused evs link now w0 w :
  serve remote (Ok true) (Ok ()) link now = SsServes w0 → runs evs w0 = Some w → sv_phase w = SvReturned (Ok ()) →
  sv_connected w = [] ∧ sh_clients (sv_shared w) = 0 ∧ sv_waiting w = 0 ∧ sh_hosting (sv_shared w) = 0
  ∧ ro_enabled remote = false ∧ sv_heard w + IDLE_GRACE ≤ sv_now w ∧ sv_bound w = false
  ∧ evs ≫= connects ≡ₚ sv_left w ++ sv_refused w ++ sv_lost w
  ∧ Forall (λ c, same_user euid c = true) (sv_left w) ∧ Forall (λ c, same_user euid c = false) (sv_refused w)
  ∧ (Forall (λ ev, calm ev = true) evs → sv_lost w = []).
Proof.
  intros [= <-] Hrun Hphase. pose proof (callers_run _ _ _ Hrun) as [Hfate Hlost].
  apply serve_inv_run in Hrun; [|by apply select_inv].
  destruct Hrun as (Hc & Hh & _ & Hs & Hr & Hp). rewrite Hphase in Hp. destruct Hp as ((Hnil & Hw & Hoff) & Htime & Hbound & Hback).
  rewrite Hnil in *. rewrite Hh, Hw. split_and!; try done.
  rewrite <-Hfate. unfold callers. by rewrite Hback, Hnil.
Qed.

(** ** A session that ended *)

(** The session is over, and the loop waits, with time left or pauses. *)
Definition abandoned (w : Serve) : Prop :=
  sv_hung_up w = true
  ∧ match sv_phase w with
    | SvSelecting deadline => from_option (λ d, sv_now w < d) True deadline
    | SvPausing _ => True
    | _ => False
    end.
Lemma abandoned_select w : sv_hung_up w = true → abandoned (select remote w).
Proof. intros Hh. split; [done|]. cbn. destruct (daemon_idle _ _); cbn; [unfold IDLE_GRACE; lia|done]. Qed.
Lemma abandoned_step ev w w' : step ev w = Some w' → abandoned w → abandoned w'.
Proof.
  intros Hstep [Hh Hp]. destruct ev; cbn in Hstep.
  5: { destruct (take_out c (sv_connected w)); [|done]. by injection Hstep as <-. }
  5: { destruct (sv_spawned w) as [|request rest]; [done|].
       destruct (hosts _ _ _ _ _) as [[tried waits] s']. by injection Hstep as <-. }
  all: step_cases Hstep; try done; try (by apply abandoned_select); try (by split).
  - apply abandoned_select. unfold receive. by destruct (same_user euid c).
  - cbn in Hp. apply N.leb_le in Heqb. lia.
  - unfold abandoned; cbn. split; [done|]. destruct (sv_phase w) eqn:Hphase; try done.
    unfold due in Heqb. rewrite Hphase, Hh in Heqb. by rewrite orb_true_r in Heqb.
Qed.

Lemma is_selecting_spec w : is_selecting w = true ↔ ∃ deadline, sv_phase w = SvSelecting deadline.
Proof. unfold is_selecting. destruct (sv_phase w); naive_solver. Qed.
Lemma spins n w :
  (∃ deadline, sv_phase w = SvSelecting deadline) → sv_hung_up w = true → sv_requests w = [] →
  runs (replicate (S n) SvNoMore) w = Some (select remote w).
Proof.
  revert w. induction n as [|n IH]; intros w [deadline Hphase] Hh Hnone.
  all: cbn [replicate serve_run serve_step]; unfold is_selecting; rewrite Hphase, Hh, Hnone; cbn [andb bool_decide].
  - done.
  - rewrite bool_decide_true by done. cbn [andb]. apply (IH (select remote w)); [by eexists|done|done].
Qed.

(** The loop takes the closed channel for a branch that is always ready: a
    daemon whose session is over never stands down, whoever comes and goes, and
    never waits either. *)
Theorem ended_session_keeps_daemon evs w w' :
  abandoned w → runs evs w = Some w' →
  abandoned w'
  ∧ (is_selecting w' = true → sv_requests w' = [] →
     (∀ n, runs (replicate (S n) SvNoMore) w' = Some (select remote w')) ∧ ∀ ms, step (SvTick ms) w' = None).
Proof.
  intros Ha Hrun. assert (Ha' : abandoned w').
  { revert w Ha Hrun. induction evs as [|ev evs IH]; intros w Ha; cbn; [by intros [= <-]|].
    destruct (sv_phase w) eqn:Hp; try done; destruct (step ev w) as [w1|] eqn:Hs; try done;
      apply IH, (abandoned_step ev w w1 Hs Ha). }
  split; [done|]. destruct Ha' as [Hh Hp]. intros Hsel Hnone. split.
  - intros n. apply spins; [by apply is_selecting_spec|done|done].
  - intros ms. cbn. apply is_selecting_spec in Hsel as [deadline Hsel]. unfold due. by rewrite Hsel, Hh, Hnone.
Qed.
End props.

(** ** Runs *)

Definition example_run (remote : RemoteOpenConfig) (evs : list ServeEvent) : option Serve :=
  match serve remote (Ok true) (Ok ()) (mkControlChan [] 256 true []) 0 with
  | SsServes w => serve_run 1000 (Ok (lit "hype")) (lit "state") remote (mkDesktop None false (λ _, None)) (λ _, Ok ()) (λ _, Ok ()) id evs w
  | _ => None
  end.
(** Two callers reach the socket when the minute is over: the last look serves
    one, and binding again drops the other. *)
Lemma second_caller_is_dropped :
  (λ w, (ca_id <$> sv_connected w, ca_id <$> sv_lost w)) <$>
    example_run remote_open_default
      [SvTick 60000; SvConnect (mkCaller 1 (Some 1000)); SvConnect (mkCaller 2 (Some 1000)); SvIdles; SvLastCaller (Ok ())]
  = Some ([1], [2]).
Proof. vm_compute. reflexivity. Qed.

Definition example_visit : list ServeEvent :=
  [SvConnect (mkCaller 1 (Some 1000)); SvAccepts; SvConnect (mkCaller 2 (Some 0)); SvAccepts; SvClientEnds (mkCaller 1 (Some 1000)); SvHears;
   SvTick 60000; SvIdles; SvTick 250; SvLastNobody].
Lemma stands_down_unused_witness :
  match example_run remote_open_default example_visit with
  | Some w => sv_bound w = false ∧ sv_lost w = [] ∧ sv_heard w + IDLE_GRACE ≤ sv_now w
  | None => False
  end.
Proof.
  assert (match example_run remote_open_default example_visit with
          | Some w => match sv_phase w with SvReturned (Ok _) => true | _ => false end
          | None => false
          end = true) as Hran by reflexivity.
  unfold example_run in *. destruct (serve _ _ _ _ _) as [| |w0] eqn:Hstart; try discriminate.
  destruct (serve_run _ _ _ _ _ _ _ _ _ _) as [w|] eqn:Hrun; [|discriminate].
  destruct (sv_phase w) as [| | |[[]|]] eqn:Hphase; try discriminate.
  destruct (stands_down_unused 1000 (Ok (lit "hype")) (lit "state") remote_open_default (mkDesktop None false (λ _, None))
              (λ _, Ok ()) (λ _, Ok ()) id example_visit (mkControlChan [] 256 true []) 0 w0 w Hstart Hrun Hphase)
    as (_ & _ & _ & _ & _ & Htime & Hbound & _ & _ & _ & Hcalm).
  split_and!; [exact Hbound|apply Hcalm; repeat constructor|exact Htime].
Defined.
