(* ===== verification/LocalPaths.v ===== *)
(** * Where the local socket lives ([publisher/src/ipc.rs])

    The names that one relay and device get, and the directory that holds them:
    the first of three candidates that only this user can enter. The directory
    tree is a map from paths to what [lstat] says; making a directory, changing
    its mode and reading it may fail. The theorems are at the end. *)

From S2P Require Export FileSystem CryptoProps.

Open Scope N_scope.
Open Scope hype_scope.

(** ** The tree *)

(** A link leads somewhere or not. *)
Inductive NodeKind := NdDir | NdOther | NdLink (leads : bool).
Record Node := mkNode {
  nd_kind : NodeKind;
  nd_uid : N;
  nd_mode : N;
}.
Abbreviation Tree := (gmap text Node).
Definition exists_at (tree : Tree) (path : text) : bool :=
  match tree !! path with
  | Some n => match nd_kind n with NdLink leads => leads | _ => true end
  | None => false
  end.
(** [set_permissions] follows a link, and leaves the link itself as it is. *)
Definition chmod (mode : N) (n : Node) : Node :=
  match nd_kind n with NdLink _ => n | _ => mkNode (nd_kind n) (nd_uid n) mode end.

(** What the system calls on one path answer: [lstat]'s error, what
    [create_dir_all] made or found, whether the mode could be changed. *)
Record PathCalls := mkPathCalls {
  pc_lstat_error : option text;
  pc_created : result text Node;
  pc_chmod : bool;
}.
Definition NOT_FOUND_ERROR : text := lit "No such file or directory (os error 2)".

(** [Path::ends_with]: by components. *)
Definition components (path : text) : list text :=
  filter (λ c, negb (is_empty c || bool_decide (c = lit "."))) (split_at 47 path).
Definition ends_with (path : text) (suffix : list string) : bool :=
  let c := components path in bool_decide (dropN (len c - len suffix) c = lit <$> suffix).

(** ** The names *)

Section paths.
Context `{CryptoLib}.

Definition key_input (relay_url device_id : text) : list byte := utf8 relay_url ++ [x00] ++ utf8 device_id.
Definition key (relay_url device_id : text) : text := hex (takeN 8 (sha256 (key_input relay_url device_id))).
End paths.
Record Paths := mkPaths {
  pt_socket : text;
  pt_lock : text;
  pt_log : text;
}.
Definition MAX_SOCKET_PATH : N := 100.
Definition under (dir name : text) : text :=
  if is_empty dir then name else if bool_decide (last dir = Some 47) then dir ++ name else dir ++ lit "/" ++ name.
Definition in_dir `{CryptoLib} (dir relay_url device_id : text) : result text Paths :=
  let key := key relay_url device_id in
  let socket := under dir (key ++ lit ".sock") in
  if MAX_SOCKET_PATH <? text_len socket then
    Err (lit "the socket path " ++ socket ++ lit " is too long for a unix socket; set XDG_RUNTIME_DIR to somewhere shorter")
  else Ok (mkPaths socket (under dir (key ++ lit ".lock")) (under dir (key ++ lit ".log"))).

(** ** The directory *)

Section directory.
Context (env : string → option text) (euid : N) (calls : text → PathCalls).

Definition candidates : list text :=
  match env "XDG_RUNTIME_DIR"%string with
  | Some explicit => if is_empty (trim explicit) then [] else [explicit]
  | None => []
  end
  ++ [lit "/run/user/" ++ lit (pretty.pretty euid)]
  ++ match env "HOME"%string with
     | Some home => [join_path (join_path (join_path (join_path home ".local") "state") "hypeterm") "run"]
     | None => []
     end.

Definition private_directory (tree : Tree) (path : text) : result text () :=
  match pc_lstat_error (calls path), tree !! path with
  | Some e, _ => Err (lit "reading " ++ path ++ lit ": " ++ e)
  | None, None => Err (lit "reading " ++ path ++ lit ": " ++ NOT_FOUND_ERROR)
  | None, Some n =>
      if negb (match nd_kind n with NdDir => true | _ => false end) then Err (path ++ lit " is not a directory")
      else if negb (nd_uid n =? euid) then Err (path ++ lit " is not owned by this user")
      else if negb (N.land (nd_mode n) 63 =? 0) then
        Err (path ++ lit " is accessible to other users; fix with: chmod 700 " ++ path)
      else Ok ()
  end.

(** One candidate that is not there: made if it is ours to make. *)
Definition make_candidate (candidate : text) (tree : Tree) : result (option text) Tree :=
  if ends_with candidate ["hypeterm"; "run"]%string then
    match pc_created (calls candidate) with
    | Err e => Err (Some (lit "creating " ++ candidate ++ lit ": " ++ e))
    | Ok n => Ok (<[candidate := if pc_chmod (calls candidate) then chmod 448 n else n]> tree)
    end
  else Err None.
Fixpoint choose (l : list text) (last : text) (tree : Tree) : result text text * Tree :=
  match l with
  | [] => (Err (lit "no private runtime directory is available: " ++ last), tree)
  | candidate :: l =>
      match (if exists_at tree candidate then Ok tree else make_candidate candidate tree) with
      | Err skipped => choose l (default last skipped) tree
      | Ok tree =>
          match private_directory tree candidate with
          | Ok _ => (Ok candidate, tree)
          | Err e => choose l e tree
          end
      end
  end.
Definition runtime_dir (tree : Tree) : result text text * Tree := choose candidates (lit "no candidate directory") tree.

(** [Paths::for_device] *)
Definition for_device `{CryptoLib} (relay_url device_id : text) (tree : Tree) : result text Paths * Tree :=
  match runtime_dir tree with
  | (Ok dir, tree) => (in_dir dir relay_url device_id, tree)
  | (Err e, tree) => (Err e, tree)
  end.
End directory.

(** ** The directory that is chosen is private *)

Section theorems.
Context (env : string → option text) (euid : N) (calls : text → PathCalls).
Abbreviation private := (private_directory euid calls).

(** A directory, not a link to one, of this user, without bits for others. *)
Definition is_private (tree : Tree) (path : text) : Prop :=
  ∃ n, tree !! path = Some n ∧ nd_kind n = NdDir ∧ nd_uid n = euid ∧ N.land (nd_mode n) 63 = 0.
Lemma private_directory_ok tree path : private tree path = Ok () → is_private tree path.
Proof.
  unfold private_directory, is_private. destruct (pc_lstat_error _); [done|]. destruct (tree !! path) as [n|]; [|done].
  destruct (nd_kind n) eqn:Hk; cbn; try done.
  destruct (N.eqb_spec (nd_uid n) euid); [|done]. destruct (N.eqb_spec (N.land (nd_mode n) 63) 0); [|done]. intros _. by exists n.
Qed.

Lemma make_candidate_spec c tree tree' :
  make_candidate calls c tree = Ok tree' → ends_with c ["hypeterm"; "run"]%string = true ∧ ∃ n, tree' = <[c := n]> tree.
Proof.
  unfold make_candidate. destruct (ends_with _ _); [|done]. destruct (pc_created _); [|done]. intros [= <-]. eauto.
Qed.

(** What the search may change: its own candidate, where nothing was. *)
Definition only_ours (l : list text) (tree tree' : Tree) : Prop :=
  ∀ path, tree' !! path ≠ tree !! path → path ∈ l ∧ ends_with path ["hypeterm"; "run"]%string = true ∧ exists_at tree path = false.
Lemma only_ours_refl l tree : only_ours l tree tree.
Proof. by intros path ?. Qed.
Lemma only_ours_made c l tree tree1 tree' :
  (if exists_at tree c then Ok tree else make_candidate calls c tree) = Ok tree1 →
  only_ours l tree1 tree' → only_ours (c :: l) tree tree'.
Proof.
  intros Hmade Hrest path Hne. destruct (exists_at tree c) eqn:Hex.
  - injection Hmade as <-. destruct (Hrest path Hne) as (? & ? & ?). split_and!; [by right|done|done].
  - apply make_candidate_spec in Hmade as [Hends [n ->]]. destruct (decide (path = c)) as [->|Hpc]; [split_and!; [left|..]; done|].
    unfold only_ours, exists_at in Hrest. specialize (Hrest path). rewrite lookup_insert_ne in Hrest by done.
    destruct (Hrest Hne) as (? & ? & ?). split_and!; [by right|done|done].
Qed.
Lemma choose_spec l last tree r tree' :
  choose euid calls l last tree = (r, tree') →
  only_ours l tree tree' ∧ match r with Ok dir => dir ∈ l ∧ is_private tree' dir | Err _ => True end.
Proof.
  revert last tree. induction l as [|c l IH]; intros last tree; cbn [choose]; [intros [= <- <-]; split; [apply only_ours_refl|done]|].
  destruct (if exists_at tree c then Ok tree else make_candidate calls c tree) as [tree1|skipped] eqn:Hmade.
  - destruct (private tree1 c) as [[]|e] eqn:Hp.
    + intros [= <- <-]. split; [by eapply only_ours_made, only_ours_refl|]. split; [left|by apply private_directory_ok].
    + intros [Hrest Hr]%IH. split; [by eapply only_ours_made|]. destruct r; [|done]. split; [by right; apply Hr|apply Hr].
  - intros [Hrest Hr]%IH. split; [intros path Hne; destruct (Hrest path Hne) as (? & ? & ?); split_and!; [by right|done|done]|].
    destruct r; [|done]. split; [by right; apply Hr|apply Hr].
Qed.

(** The socket's directory is one of the candidates and is this user's
    alone: a directory and not a link, without any bit for the group or for
    others; the search makes at most its own candidate, and only where nothing
    was. The three names are in that directory, and the socket's fits. *)
Theorem socket_is_private `{CryptoLib} relay_url device_id tree paths tree' :
  for_device env euid calls relay_url device_id tree = (Ok paths, tree') →
  ∃ dir, dir ∈ candidates env euid ∧ is_private tree' dir ∧ only_ours (candidates env euid) tree tree'
  ∧ pt_socket paths = under dir (key relay_url device_id ++ lit ".sock") ∧ text_len (pt_socket paths) ≤ MAX_SOCKET_PATH
  ∧ pt_lock paths = under dir (key relay_url device_id ++ lit ".lock")
  ∧ pt_log paths = under dir (key relay_url device_id ++ lit ".log").
Proof.
  unfold for_device, runtime_dir, in_dir. destruct (choose _ _ _ _ _) as [[dir|e] tree1] eqn:Hc; [|done].
  apply choose_spec in Hc as [Hours [Hdir Hprivate]].
  destruct (N.ltb_spec MAX_SOCKET_PATH (text_len (under dir (key relay_url device_id ++ lit ".sock")))); [done|].
  intros [= <- <-]. exists dir. cbn. split_and!; done.
Qed.
End theorems.

(** ** Different devices have different names to hash *)

Lemma utf8_app a b : utf8 (a ++ b) = utf8 a ++ utf8 b.
Proof. induction a as [|c a IH]; cbn [app]; [done|]. by rewrite !utf8_cons, IH, (assoc_L (++)). Qed.
Lemma key_input_text r d : key_input r d = utf8 (r ++ [0] ++ d).
Proof. by rewrite !utf8_app. Qed.
Theorem key_input_inj r d r' d' :
  valid_text r → valid_text d → valid_text r' → valid_text d' → 0 ∉ r → 0 ∉ r' →
  key_input r d = key_input r' d' → r = r' ∧ d = d'.
Proof.
  intros Hr Hd Hr' Hd' H0 H0'. rewrite !key_input_text. assert (valid_text [0]) as Hz by (constructor; [left; done|constructor]).
  intros E%utf8_inj; try (by rewrite !Forall_app).
  pose proof (split_at_sep 0 r d H0) as E1. pose proof (split_at_sep 0 r' d' H0') as E2.
  cbn [app] in E. rewrite E, E2 in E1. injection E1 as -> _. by apply app_inv_head in E as [= ->].
Qed.

(** ** A run *)

(** Anybody's [/run/user] is refused, and the directory under the home is made. *)
Definition example_env (name : string) : option text :=
  if String.eqb name "HOME" then Some (lit "/home/a") else None.
Definition example_run_user : Tree := {[ lit "/run/user/1000" := mkNode NdDir 0 493 ]}.
Definition example_calls (path : text) : PathCalls := mkPathCalls None (Ok (mkNode NdDir 1000 493)) true.
#[local] Instance example_lib : CryptoLib := {|
  sha256 := λ b, takeN 32 (b ++ replicate 32 x00);
  b64_encode := map Byte.to_N; b64_decode_bare := λ _, None; b64_decode_padded := λ _, None;
  ed25519_valid := λ _, true; ed25519_verify := λ _ _ _, true; ed25519_public := id; ed25519_sign := λ _ _, [];
  hmac_sha256 := λ _ _, []; aead_encrypt := λ _ _ b, b; aead_decrypt := λ _ _ b, Some b |}.
Definition example_paths : result text Paths * Tree :=
  for_device example_env 1000 example_calls (lit "https://r") (lit "d") example_run_user.
Lemma socket_is_private_witness :
  match example_paths with
  | (Ok paths, tree) => text_len (pt_socket paths) ≤ MAX_SOCKET_PATH ∧ ∃ dir, is_private 1000 tree dir
  | _ => False
  end.
Proof.
  assert (match example_paths with (Ok _, _) => true | _ => false end = true) as Hran by reflexivity.
  destruct example_paths as [[paths|e] tree] eqn:Hrun; [|discriminate].
  destruct (socket_is_private example_env 1000 example_calls (lit "https://r") (lit "d") example_run_user paths tree Hrun)
    as (dir & _ & Hprivate & _ & _ & Hlen & _).
  split; [exact Hlen|by exists dir].
Defined.
