(* ===== verification/Responses.v ===== *)
(** * Rejected requests and error responses ([server/src/http/extract.rs], [server/src/error.rs])

    What a request that axum's extractors reject becomes, and what every
    [ApiError] is on the wire. The texts of the rejections are axum's and
    serde's: they are arguments. Definitions that can panic answer [None]. *)

From S2P Require Export Errors Json.
From Stdlib Require Import ZArith.

Open Scope N_scope.
Open Scope hype_scope.

(** ** Definitions *)

(** [&t[..n]], which panics inside a character. *)
Fixpoint byte_prefix (n : N) (t : text) : option text :=
  if n =? 0 then Some []
  else
    match t with
    | [] => None
    | c :: t => if len_utf8 c <=? n then cons c <$> byte_prefix (n - len_utf8 c) t else None
    end.
Definition ELLIPSIS : N := 8230.
Definition one_line (t : text) : text := trim ((λ c, if c =? 10 then 32 else c) <$> t).
Definition clean (t : text) : option text :=
  let trimmed := one_line t in
  if 300 <? text_len trimmed then (λ prefix, prefix ++ [ELLIPSIS]) <$> byte_prefix 300 trimmed else Some trimmed.

Inductive JsonRejection :=
| JsonDataError (body_text : text)
| JsonSyntaxError (body_text : text)
| MissingJsonContentType
| BytesRejection
| OtherJsonRejection (body_text : text).
(** [impl From<JsonRejection> for ApiError] *)
Definition json_rejection (r : JsonRejection) : option ApiError :=
  match r with
  | JsonDataError t => api_validation <$> clean t
  | JsonSyntaxError t => api_invalid <$> clean t
  | MissingJsonContentType =>
      Some (api_new 415 "unsupported_media_type" (lit "requests must use Content-Type: application/json"))
  | BytesRejection =>
      Some (api_new 413 "payload_too_large" (lit "request body could not be read within the configured limit"))
  | OtherJsonRejection t => api_invalid <$> clean t
  end.
(** [impl From<PathRejection>], [impl From<QueryRejection>] *)
Definition path_rejection (body_text : text) : option ApiError := api_invalid <$> clean body_text.
Definition query_rejection (body_text : text) : option ApiError := api_invalid <$> clean body_text.

(** The other conversions into [ApiError]. *)
Definition api_pool_error (e : text) : ApiError := api_storage_unavailable (lit "database pool error: " ++ e).
Definition api_json_error (e : text) : ApiError := api_invalid (lit "malformed JSON: " ++ e).

Record ErrorResponse := mkErrorResponse {
  er_status : N;
  er_body : json;
  er_headers : list (string * text);
}.
(** Outside of a request there is no identifier. *)
Definition current_request_id (task_local : option text) : text := default (lit "-") task_local.
(** [HeaderValue::from_str] *)
Definition header_value (t : text) : option text :=
  if forallb (λ c, (c =? 9) || (32 <=? c) && (c <? 127)) t then Some t else None.
Definition is_server_error (status : N) : bool := (500 <=? status) && (status <? 600).
Definition optional_header (name : string) (value : option text) : list (string * text) :=
  match value ≫= header_value with Some v => [(name, v)] | None => [] end.
(** [IntoResponse]: the response, and whether the error is logged. *)
Definition into_response (task_local : option text) (e : ApiError) : ErrorResponse * bool :=
  let request_id := current_request_id task_local in
  (mkErrorResponse (ae_status e)
     (JObj [("error"%string, JObj [("code"%string, jstr (ae_code e)); ("message"%string, JStr (ae_message e));
                                   ("request_id"%string, JStr request_id)])])
     (optional_header "retry-after" ((λ n, lit (pretty.pretty n)) <$> ae_retry_after e)
      ++ optional_header "www-authenticate" (lit <$> ae_www_authenticate e)),
   is_server_error (ae_status e)).

(** ** Cutting *)

Lemma text_len_app a b : text_len (a ++ b) = text_len a + text_len b.
Proof. induction a as [|c a IH]; [done|]. unfold text_len in *. cbn. rewrite IH. lia. Qed.
Lemma byte_prefix_some n t p : byte_prefix n t = Some p → text_len p = n ∧ ∃ rest, t = p ++ rest.
Proof.
  revert n p. induction t as [|c t IH]; intros n p; cbn [byte_prefix]; destruct (N.eqb_spec n 0) as [->|Hn]; try done.
  - intros [= <-]. split; [done|by exists []].
  - intros [= <-]. split; [done|by exists (c :: t)].
  - destruct (N.leb_spec (len_utf8 c) n); [|done]. destruct (byte_prefix _ t) as [q|] eqn:Hq; [|done]. intros [= <-].
    apply IH in Hq as [Hlen [rest ->]]. split; [|by exists rest].
    change (text_len (c :: q)) with (len_utf8 c + text_len q). lia.
Qed.
(** It panics where the cut is inside a character. *)
Lemma byte_prefix_none n t :
  n ≤ text_len t → byte_prefix n t = None ↔ ∃ a c b, t = a ++ c :: b ∧ text_len a < n < text_len a + len_utf8 c.
Proof.
  revert n. induction t as [|c t IH]; intros n Hn; cbn [byte_prefix]; destruct (N.eqb_spec n 0) as [->|Hn0].
  - split; [done|]. intros (a & c & b & _ & ? & _). lia.
  - cbn in Hn. lia.
  - split; [done|]. intros (a & d & b & _ & ? & _). lia.
  - change (text_len (c :: t)) with (len_utf8 c + text_len t) in Hn. destruct (N.leb_spec (len_utf8 c) n) as [Hc|Hc].
    + rewrite fmap_None, IH by lia. split.
      * intros (a & d & b & -> & ? & ?). exists (c :: a), d, b. change (text_len (c :: a)) with (len_utf8 c + text_len a). split; [done|lia].
      * intros ([|c' a] & d & b & E & Hlo & Hhi); cbn [app] in E; injection E as <- ->; [cbn in *; lia|].
        change (text_len (c :: a)) with (len_utf8 c + text_len a) in *. exists a, d, b. split; [done|lia].
    + split; [|done]. intros _. exists [], c, t. cbn. split; [done|lia].
Qed.
Lemma byte_prefix_ascii n t : Forall (λ c, c < 128) t → n ≤ text_len t → is_Some (byte_prefix n t).
Proof.
  intros Hascii Hn. apply not_eq_None_Some. rewrite byte_prefix_none by done. intros (a & c & b & -> & ? & ?).
  rewrite Forall_app, Forall_cons in Hascii. destruct Hascii as (_ & Hc & _).
  unfold len_utf8 in *. destruct (N.ltb_spec c 128); lia.
Qed.

(** ** Cleaning *)

Lemma elem_trim c t : c ∈ trim t → c ∈ t.
Proof.
  assert (∀ t, c ∈ trim_start t → c ∈ t) as Hstart.
  { clear t. intros t. induction t as [|d t IH]; cbn; [done|]. case_match; [by right; apply IH|done]. }
  unfold trim. rewrite elem_of_reverse. intros Hc%Hstart. rewrite elem_of_reverse in Hc. by apply Hstart.
Qed.
Lemma one_line_spec t : 10 ∉ one_line t.
Proof.
  intros H%elem_trim. apply list_elem_of_fmap in H as (c & E & _). destruct (N.eqb_spec c 10); [done|congruence].
Qed.
Definition fits_one_line (m : text) : Prop := (10 ∉ m) ∧ text_len m ≤ 303.
Lemma clean_some t m :
  clean t = Some m →
  fits_one_line m ∧ (if text_len (one_line t) <=? 300 then m = one_line t
                     else ∃ kept rest, one_line t = kept ++ rest ∧ text_len kept = 300 ∧ m = kept ++ [ELLIPSIS]).
Proof.
  unfold clean, fits_one_line. pose proof (one_line_spec t) as Hline. rewrite N.ltb_antisym.
  destruct (N.leb_spec (text_len (one_line t)) 300) as [Hshort|Hlong]; cbn [negb]; [intros [= <-]; split; [split; [done|lia]|done]|].
  destruct (byte_prefix 300 (one_line t)) as [kept|] eqn:Hp; [|done]. intros [= <-].
  apply byte_prefix_some in Hp as [Hkept [rest E]]. rewrite text_len_app, Hkept. split; [|by exists kept, rest].
  split; [|vm_compute; discriminate]. rewrite E in Hline. apply not_elem_of_app in Hline as [Hline _]. apply not_elem_of_app. split; [done|]. by rewrite list_elem_of_singleton.
Qed.
Lemma clean_none t :
  clean t = None ↔ 300 < text_len (one_line t)
    ∧ ∃ a c b, one_line t = a ++ c :: b ∧ text_len a < 300 < text_len a + len_utf8 c.
Proof.
  unfold clean. destruct (N.ltb_spec 300 (text_len (one_line t))) as [Hlong|Hshort].
  - rewrite fmap_None, byte_prefix_none by lia. naive_solver.
  - split; [done|]. intros [? _]. lia.
Qed.
Lemma clean_ascii t : Forall (λ c, c < 128) t → is_Some (clean t).
Proof.
  intros Hascii. unfold clean. destruct (N.ltb_spec 300 (text_len (one_line t))) as [Hlong|]; [|by eexists].
  apply fmap_is_Some, byte_prefix_ascii; [|lia]. rewrite Forall_forall in *. intros c Hc%elem_trim.
  apply list_elem_of_fmap in Hc as (d & -> & Hd). destruct (d =? 10); [lia|by apply Hascii].
Qed.

(** ** Rejections *)

Definition rejection_text (r : JsonRejection) : text :=
  match r with JsonDataError t | JsonSyntaxError t | OtherJsonRejection t => t | _ => [] end.
(** A body that is rejected is answered in the error envelope: a client's
    error with the code of its kind, one line of at most three hundred bytes and
    an ellipsis, and the request's identifier; unless byte three hundred of the
    cleaned text is inside a character, which is exactly when there is no
    answer at all. *)
Theorem rejected_body_is_answered r task_local :
  match json_rejection r with
  | Some e =>
      let '(response, logged) := into_response task_local e in
      logged = false ∧ er_status response ∈ [400; 413; 415; 422] ∧ er_headers response = []
      ∧ (er_status response = 422 ↔ ∃ t, r = JsonDataError t)
      ∧ ∃ error, jget "error" (er_body response) = Some error
        ∧ jget "code" error = Some (jstr (ae_code e)) ∧ jget "message" error = Some (JStr (ae_message e))
        ∧ jget "request_id" error = Some (JStr (current_request_id task_local))
        ∧ fits_one_line (ae_message e)
  | None => 300 < text_len (one_line (rejection_text r))
      ∧ ∃ a c b, one_line (rejection_text r) = a ++ c :: b ∧ text_len a < 300 < text_len a + len_utf8 c
  end.
Proof.
  destruct r as [t|t| | |t]; cbn [json_rejection rejection_text].
  1,2,5: destruct (clean t) as [m|] eqn:Hm; cbn [fmap option_fmap option_map]; [|by apply clean_none];
    apply clean_some in Hm as [Hm _]; cbn; split_and!; [done|set_solver|done|naive_solver|]; by eexists.
  all: cbn; split_and!; [done|set_solver|done|naive_solver|]; eexists; split_and!; try done.
  all: split; [apply (bool_decide_unpack _); vm_compute; exact I|vm_compute; discriminate].
Qed.

(** Three hundred and one bytes, the last two of them one character: a request
    with such a field has no answer. *)
Definition long_name : text := repeat 97 299 ++ [233].
Theorem rejection_can_panic : json_rejection (JsonDataError long_name) = None.
Proof.
  assert (match json_rejection (JsonDataError long_name) with None => true | _ => false end = true) as H
    by vm_cast_no_check (eq_refl true).
  by destruct (json_rejection (JsonDataError long_name)).
Qed.
