(* ===== verification/Background.v ===== *)
(** * The server's background work ([server/src/app.rs], [server/src/server.rs])

    What runs beside the requests: the task that applies a new revision of the
    settings to what is already in memory, the loops that time the maintenance
    sweep and the poll for revisions, a turn of the checkpoint task, the recovery
    at startup, and one connection from its acceptance to
    its end. The sweep itself is in [Maintenance], the listeners in [Listener].
    The theorems are at the end. *)

From S2P Require Export Listener Pool.

Open Scope N_scope.
Open Scope hype_scope.

(** ** Following the settings *)

Section effects.
Context `{JsonText}.

Definition pragmas_of (sn : Snapshot) : Pragmas := λ p,
  match p with
  | PgSynchronous => PvText (sn_string keys.PERSISTENCE_SQLITE_SYNCHRONOUS sn)
  | PgBusyTimeoutMs => PvInt (sn_int keys.PERSISTENCE_SQLITE_BUSY_TIMEOUT_MS sn)
  | PgCacheSizeKib => PvInt (sn_int keys.PERSISTENCE_SQLITE_CACHE_SIZE_KIB sn)
  | PgWalAutocheckpointPages => PvInt (sn_int keys.PERSISTENCE_SQLITE_WAL_AUTOCHECKPOINT_PAGES sn)
  end.
Definition shrink_all (capacity : N) (locs : list N) (g : Registry) : Registry :=
  foldl (λ g loc, on_handle loc (term_shrink_to_capacity capacity) g) g locs.
(** A turn of [settings_effects]: the pragmas, and the resident buffers. *)
Definition settings_effect (sn : Snapshot) (s : StoragePragmas) (g : Registry) : bool * StoragePragmas * Registry :=
  let '(changed, s) := update_pragmas (pragmas_of sn) s in
  (changed, s, shrink_all (replay_capacity sn) (resident_handles g) g).
End effects.

(** ** Timing the sweep *)

(** Seconds. [ml_interval]: what the settings say now. *)
Record SweepLoop := mkSweepLoop {
  ml_now : N;
  ml_interval : N;
  ml_wakes : N;
  ml_sweeps : list N;
  ml_over : bool;
}.
Inductive SweepEvent :=
| SwTick (seconds : N)
| SwDue
| SwSettings (interval : N)
| SwSettingsGone
| SwShutdown (value : bool).
Definition sleep_again (s : SweepLoop) : SweepLoop :=
  mkSweepLoop (ml_now s) (ml_interval s) (ml_now s + ml_interval s) (ml_sweeps s) false.
Definition swept (s : SweepLoop) : SweepLoop :=
  mkSweepLoop (ml_now s) (ml_interval s) (ml_wakes s) (ml_sweeps s ++ [ml_now s]) false.
Definition loop_over (s : SweepLoop) : SweepLoop :=
  mkSweepLoop (ml_now s) (ml_interval s) (ml_wakes s) (ml_sweeps s) true.
(** An arm of [maintenance]'s select, the sweep taking no time; or time passes
    until the sleep ends. *)
Definition sweep_step (ev : SweepEvent) (s : SweepLoop) : option SweepLoop :=
  if ml_over s then None
  else
    match ev with
    | SwTick seconds =>
        if ml_now s + seconds <=? ml_wakes s then
          Some (mkSweepLoop (ml_now s + seconds) (ml_interval s) (ml_wakes s) (ml_sweeps s) false)
        else None
    | SwDue => if ml_wakes s <=? ml_now s then Some (sleep_again (swept s)) else None
    | SwSettings interval =>
        Some (sleep_again (mkSweepLoop (ml_now s) interval (ml_wakes s) (ml_sweeps s) false))
    | SwSettingsGone => Some (loop_over s)
    | SwShutdown true => Some (loop_over s)
    | SwShutdown false => Some (sleep_again (swept s))
    end.
Fixpoint sweep_run (evs : list SweepEvent) (s : SweepLoop) : option SweepLoop :=
  match evs with [] => Some s | ev :: evs => match sweep_step ev s with Some s => sweep_run evs s | None => None end end.
Definition maintenance (interval now : N) : SweepLoop := sleep_again (mkSweepLoop now interval now [] false).

(** [spawn_propagation_watcher] sleeps the same way, in milliseconds: its sweeps
    are the polls of the committed revision, a turn of [propagate] each. *)
Definition propagation_watcher (interval now : N) : SweepLoop := maintenance interval now.

(** ** The checkpoint task *)

(** What ends the wait of [flush::run]. *)
Inductive FlushWake :=
| FwRequested
| FwSlept
| FwSettings
| FwSettingsGone
| FwShutdown (value : bool).
(** One turn: a checkpoint that is due is taken without waiting; otherwise the
    wait, which [flush_wait] bounds, ends. The answer is whether the task does. *)
Definition flush_turn (between : nat → Registry → Registry) (now : N) (sn : Snapshot) (wake : FlushWake) (g : Registry) : bool * Registry :=
  match choose_trigger sn (dirty_stats now g) with
  | Some _ => (false, (flush_once between now g).2)
  | None =>
      match wake with
      | FwRequested => (false, (flush_once between now g).2)
      | FwSlept | FwSettings | FwShutdown false => (false, g)
      | FwSettingsGone => (true, g)
      | FwShutdown true => (true, (flush_once between now g).2)
      end
  end.

(** ** Startup *)

(** [start_background]: the detach tasks that recovery spawns, and [started]. *)
Definition start_background (g : Registry) : ApiResult (list (Uuid * N)) * bool * Registry :=
  match recover_open_terminals g with
  | (Ok (_, tasks), g) => (Ok tasks, true, g)
  | (Err e, g) => (Err e, false, g)
  end.
(** [server::run]: what reached the signal; an error ends the process. *)
Definition run_server (serving : Registry → Registry) (o : ShutdownOthers) (now : nat → N) (reached : nat) (g : Registry)
    : ApiResult N * Registry :=
  match start_background g with
  | (Err e, _, g) => (Err e, g)
  | (Ok _, _, g) => let '(n, g) := shutdown o now reached (serving g) in (Ok n, g)
  end.

(** ** One connection *)

(** [load_tls]; opening, parsing and building are the library's. *)
Section tls.
Context {File Cert Key Config : Type}.
Context (open : text → result text File) (certs : File → result text (list Cert))
  (private_key : File → result text (option Key)) (single_cert : list Cert → Key → result text Config).
Definition explained {A} (prefix : text) (r : result text A) : ApiResult A :=
  match r with Ok a => Ok a | Err e => Err (api_internal (prefix ++ lit ": " ++ e)) end.
Definition load_tls (config : ListenerConfig) : ApiResult Config :=
  let? cert_file := explained (lit "cannot open " ++ lc_certificate_path config) (open (lc_certificate_path config)) in
  let? chain := explained (lit "cannot parse TLS certificate chain") (certs cert_file) in
  if is_empty chain then Err (api_internal (lit "TLS certificate file contains no certificates"))
  else
    let? key_file := explained (lit "cannot open " ++ lc_private_key_path config) (open (lc_private_key_path config)) in
    let? key := explained (lit "cannot parse TLS private key") (private_key key_file) in
    match key with
    | None => Err (api_internal (lit "TLS private key file contains no key"))
    | Some key => explained (lit "invalid TLS key pair") (single_cert chain key)
    end.
End tls.

(** [serve_connection]: what the router is told of each request's connection;
    [None] when the handshake failed or took longer than the timeout. *)
Inductive Handshake := HsDone (ms : N) | HsFailed (ms : N) | HsPending.
Definition serve_connection {Peer} (peer : Peer) (tls : option Handshake) (timeout : N) : option (Peer * bool) :=
  match tls with
  | None => Some (peer, false)
  | Some (HsDone ms) => if ms <=? timeout then Some (peer, true) else None
  | Some _ => None
  end.

(** ** Following the settings *)

Lemma shrink_capacity capacity i : r_capacity (i_ring (term_shrink_to_capacity capacity i)) ≤ N.max capacity 1.
Proof.
  unfold term_shrink_to_capacity. destruct (N.leb_spec (r_capacity (i_ring i)) capacity); [lia|].
  cbn. unfold ring_set_capacity. cbv zeta. case_match eqn:E; [apply N.eqb_eq in E; cbn; lia|]. case_match; cbn; lia.
Qed.
Lemma shrink_idempotent capacity i :
  term_shrink_to_capacity capacity (term_shrink_to_capacity capacity i) = term_shrink_to_capacity capacity i.
Proof.
  pose proof (shrink_capacity capacity i) as Hc. unfold term_shrink_to_capacity at 1.
  destruct (N.leb_spec (r_capacity (i_ring (term_shrink_to_capacity capacity i))) capacity) as [|Hlt]; [done|].
  assert (ring_set_capacity capacity (i_ring (term_shrink_to_capacity capacity i)) = (i_ring (term_shrink_to_capacity capacity i), 0)) as ->.
  { unfold ring_set_capacity. cbv zeta. by rewrite (proj2 (N.eqb_eq (N.max capacity 1) _)) by lia. }
  cbn. by destruct (term_shrink_to_capacity capacity i).
Qed.
Definition shrunk (capacity : N) (h : TerminalHandle) : TerminalHandle :=
  mkTerminalHandle (h_terminal_id h) (h_device_id h) (h_identity_id h) (h_local_ref h) (h_created_at h)
    (term_shrink_to_capacity capacity (h_inner h)).
Lemma shrunk_idempotent capacity h : shrunk capacity (shrunk capacity h) = shrunk capacity h.
Proof. unfold shrunk. cbn. by rewrite shrink_idempotent. Qed.
Lemma shrink_all_handles capacity locs g loc :
  g_handles (shrink_all capacity locs g) !! loc
  = (if bool_decide (loc ∈ locs) then shrunk capacity else id) <$> g_handles g !! loc.
Proof.
  unfold shrink_all. revert g. induction locs as [|l locs IH]; intros g; [rewrite bool_decide_false by set_solver; by rewrite option_fmap_id|].
  cbn [foldl]. rewrite IH. cbn [g_handles on_handle put_handles]. destruct (decide (loc = l)) as [->|Hne].
  - rewrite lookup_alter_eq, <-option_fmap_compose. rewrite (bool_decide_true (l ∈ l :: locs)) by left.
    destruct (g_handles g !! l) as [h|]; [|done]. cbn. f_equal. destruct (bool_decide _); [apply shrunk_idempotent|done].
  - rewrite lookup_alter_ne by done. replace (bool_decide (loc ∈ l :: locs)) with (bool_decide (loc ∈ locs)); [done|]. apply bool_decide_ext. set_solver.
Qed.
Lemma shrink_all_terminals capacity locs g : g_terminals (shrink_all capacity locs g) = g_terminals g.
Proof. unfold shrink_all. revert g. induction locs as [|l locs IH]; intros g; [done|]. cbn [foldl]. by rewrite IH. Qed.

(** A revision is in force when [settings_effects] is through: connections that
    are checked out will be told its pragmas, and every resident terminal's
    buffer is within its capacity; nothing else changes. *)
Theorem settings_take_effect `{JsonText} sn s g :
  sp_generation s + 1 < two64 → 1 ≤ replay_capacity sn →
  let '(changed, s', g') := settings_effect sn s g in
  (∀ p, sp_values s' p = pragmas_of sn p)
  ∧ (changed = true ↔ sp_generation s' ≠ sp_generation s)
  ∧ g_terminals g' = g_terminals g
  ∧ (∀ id loc h, resident id g' = Some loc → g_handles g' !! loc = Some h → r_capacity (i_ring (h_inner h)) ≤ replay_capacity sn)
  ∧ (∀ loc, loc ∉ resident_handles g → g_handles g' !! loc = g_handles g !! loc).
Proof.
  intros Hgen Hcap. unfold settings_effect. pose proof (update_pragmas_spec (pragmas_of sn) s Hgen) as Hp.
  destruct (update_pragmas _ _) as [changed s']. destruct Hp as (Hvalues & Hchanged & Hgeneration).
  rewrite shrink_all_terminals. split_and!; try done.
  - rewrite Hgeneration. destruct changed; [|naive_solver lia]. split; [lia|done].
  - intros id loc h Hres. unfold resident in Hres. rewrite shrink_all_terminals in Hres.
    assert (loc ∈ resident_handles g) as Hloc.
    { apply list_elem_of_fmap. exists (id, loc). split; [done|]. by apply elem_of_map_to_list. }
    rewrite shrink_all_handles, bool_decide_true by done. intros (h0 & _ & ->)%fmap_Some.
    cbn. pose proof (shrink_capacity (replay_capacity sn) (h_inner h0)). lia.
  - intros loc Hloc. rewrite shrink_all_handles, bool_decide_false by done. apply option_fmap_id.
Qed.

(** ** The sweep's interval *)

Definition timed (ev : SweepEvent) : bool := match ev with SwTick _ | SwDue => true | _ => false end.
(** The sleep is never longer than the interval in force. *)
Definition sleep_ok (s : SweepLoop) : Prop := ml_over s = true ∨ ml_now s ≤ ml_wakes s ≤ ml_now s + ml_interval s.
Lemma sleep_ok_step ev s s' : sweep_step ev s = Some s' → sleep_ok s → sleep_ok s'.
Proof.
  unfold sweep_step, sleep_ok. destruct (ml_over s) eqn:Ho; [done|]. intros Hs [?|Hok]; [done|].
  destruct ev as [seconds| |interval| |[]]; repeat case_match; simplify_eq; cbn; try (by left).
  all: right; try match goal with H : (_ <=? _) = true |- _ => apply N.leb_le in H end; lia.
Qed.
Lemma sleep_ok_run evs s s' : sweep_run evs s = Some s' → sleep_ok s → sleep_ok s'.
Proof.
  revert s. induction evs as [|ev evs IH]; intros s; cbn; [by intros [= ->]|].
  destruct (sweep_step ev s) eqn:Hs; [|done]. intros Hrun Hok. eapply IH, sleep_ok_step; done.
Qed.

(** The first [n] sweeps of a schedule that nothing disturbs. *)
Definition schedule (start interval : N) (n : nat) : list N := (λ k, start + N.of_nat (S k) * interval) <$> seq 0 n.
Lemma schedule_S start interval n : schedule start interval (S n) = schedule start interval n ++ [start + N.of_nat (S n) * interval].
Proof. unfold schedule. by rewrite seq_S, fmap_app. Qed.
#[local] Arguments schedule : simpl never.
Definition on_schedule (start interval : N) (n : nat) (s : SweepLoop) : Prop :=
  ml_over s = false ∧ ml_interval s = interval ∧ ml_sweeps s = schedule start interval n
  ∧ ml_wakes s = start + N.of_nat (S n) * interval ∧ start + N.of_nat n * interval ≤ ml_now s ≤ ml_wakes s.
Lemma on_schedule_step start interval n ev s s' :
  timed ev = true → sweep_step ev s = Some s' → on_schedule start interval n s → ∃ m, on_schedule start interval m s'.
Proof.
  unfold sweep_step. intros Ht Hs (Hover & Hint & Hsweeps & Hwakes & Hnow). rewrite Hover in Hs. destruct ev as [seconds| | | |]; try done.
  - destruct (N.leb_spec (ml_now s + seconds) (ml_wakes s)); [|done]. injection Hs as <-. exists n. unfold on_schedule; cbn. split_and!; try done; lia.
  - destruct (N.leb_spec (ml_wakes s) (ml_now s)); [|done]. injection Hs as <-. exists (S n). unfold on_schedule; cbn.
    assert (ml_now s = ml_wakes s) as Heq by lia. rewrite Heq, Hint.
    split_and!; try done; [|lia..]. by rewrite schedule_S, Hsweeps, Hwakes.
Qed.

(** The sweep keeps its interval. While the settings do not change and
    the server is not stopped, the sweeps are at the multiples of the interval,
    all of them and no others; and whatever happens, the loop never sleeps
    longer than the interval now in force. *)
Theorem sweeps_keep_their_interval evs interval start s :
  sweep_run evs (maintenance interval start) = Some s →
  sleep_ok s
  ∧ (Forall (λ ev, timed ev = true) evs →
     ∃ n, ml_sweeps s = schedule start interval n
       ∧ start + N.of_nat n * interval ≤ ml_now s ≤ start + N.of_nat (S n) * interval).
Proof.
  intros Hrun. split; [eapply sleep_ok_run; [exact Hrun|]; right; cbn; lia|]. intros Htimed.
  assert (∃ n, on_schedule start interval n (maintenance interval start)) as [n0 Hon].
  { exists 0%nat. unfold on_schedule. cbn. split_and!; try done; lia. }
  revert n0 Hon Hrun. generalize (maintenance interval start). induction Htimed as [|ev evs Ht _ IH]; intros s0 n0 Hon; cbn.
  - intros [= <-]. destruct Hon as (_ & _ & Hsweeps & Hwakes & Hnow). rewrite Hwakes in Hnow. by exists n0.
  - destruct (sweep_step ev s0) as [s1|] eqn:Hs; [|done]. destruct (on_schedule_step _ _ _ _ _ _ Ht Hs Hon) as [m Hm]. by apply (IH s1 m).
Qed.

(** Other instances' revisions are looked for once per interval. *)
Lemma polls_keep_their_interval evs interval start s :
  sweep_run evs (propagation_watcher interval start) = Some s → Forall (λ ev, timed ev = true) evs →
  ∃ n, ml_sweeps s = schedule start interval n ∧ start + N.of_nat n * interval ≤ ml_now s ≤ start + N.of_nat (S n) * interval.
Proof. intros Hrun. by apply (sweeps_keep_their_interval evs interval start s Hrun). Qed.

(** Every change of a setting starts the interval over: while they come sooner
    than the interval ends there is no sweep, however much time passes. *)
Definition retuned (interval : N) (n : nat) : list SweepEvent :=
  mjoin (replicate n [SwTick (interval - 1); SwSettings interval]).
Theorem changes_put_off_the_sweep interval start n :
  ∃ s, sweep_run (retuned interval n) (maintenance interval start) = Some s
    ∧ ml_sweeps s = [] ∧ ml_now s = start + N.of_nat n * (interval - 1).
Proof.
  revert start. induction n as [|n IH]; intros start; [by exists (maintenance interval start); cbn; split_and!; [..|lia]|].
  destruct (IH (start + (interval - 1))) as (s & Hrun & Hsweeps & Hnow). exists s. split_and!; [|done|lia].
  unfold retuned. cbn [replicate mjoin list_join app sweep_run]. unfold sweep_step. cbn.
  rewrite (proj2 (N.leb_le _ _)) by lia. cbn. exact Hrun.
Qed.

(** ** The checkpoint task *)

(** A terminal that waits for its last checkpoint is never waited on: whatever
    ends the wait, the turn is a checkpoint, and the task goes on. *)
Lemma closing_is_flushed between now sn wake g id loc h :
  resident id g = Some loc → g_handles g !! loc = Some h → is_closing (i_lifecycle (h_inner h)) = true →
  flush_turn between now sn wake g = (false, (flush_once between now g).2).
Proof.
  intros Hres Hh Hclosing. unfold flush_turn. enough (ds_has_pending_close (dirty_stats now g) = true) as Hp by (unfold choose_trigger; by rewrite Hp).
  assert (h ∈ omap (λ loc, g_handles g !! loc) (resident_handles g)) as Hin.
  { apply list_elem_of_omap. exists loc. split; [|done]. apply list_elem_of_fmap. exists (id, loc). split; [done|]. by apply elem_of_map_to_list. }
  unfold dirty_stats. cbv zeta.
  assert (∀ l total oldest pending, pending = true ∨ h ∈ l →
    (foldl (λ '(total, oldest, pending) h,
      (total +₆₄ term_dirty_bytes (h_inner h),
       match i_dirty_since (h_inner h) with
       | Some since => Some (from_option (λ current, N.max current (now - since)) (now - since) oldest)
       | None => oldest
       end, is_closing (i_lifecycle (h_inner h)) || pending)) (total, oldest, pending) l).2 = true) as Hfold.
  { induction l as [|x l IH]; intros total oldest pending; cbn [foldl]; [intros [?|[]%elem_of_nil]; done|].
    intros [->|[->|Hl]%elem_of_cons]; apply IH; [left; by rewrite orb_true_r|left; by rewrite Hclosing|by right]. }
  specialize (Hfold _ 0 None false (or_intror Hin)). destruct (foldl _ _ _) as [[total oldest] pending]. exact Hfold.
Qed.

(** ** Startup *)

Lemma recover_devices_spec devices g tasks g' :
  NoDup devices → recover_devices devices g = (tasks, g') →
  tasks.*1 = devices
  ∧ (∀ d gen, (d, gen) ∈ tasks → ∃ slot, g_publishers g' !! d = Some slot ∧ ps_generation slot = gen
       ∧ ps_input_tx slot = None ∧ ps_open_requests slot = false)
  ∧ (∀ d, d ∉ devices → g_publishers g' !! d = g_publishers g !! d) ∧ g_db g' = g_db g ∧ g_terminals g' = g_terminals g.
Proof.
  intros Hnd. revert g tasks g'. induction Hnd as [|d devices Hd _ IH]; intros g tasks g'; cbn [recover_devices].
  - intros [= <- <-]. split_and!; try done. intros d gen []%elem_of_nil.
  - unfold recover_device. cbn zeta. destruct (recover_devices devices _) as [rest g1] eqn:Hrest. intros [= <- <-].
    apply IH in Hrest as (Hdevices & Htasks & Hothers & Hdb & Hterms). cbn in Hdb, Hterms. split_and!; [cbn; by rewrite Hdevices| | |done|done].
    + intros d' gen [[= -> ->]|Hin]%elem_of_cons; [|by apply Htasks].
      rewrite Hothers by done. cbn. rewrite lookup_insert_eq. eexists. by split_and!.
    + intros d' [Hne Hin]%not_elem_of_cons. rewrite Hothers by done. cbn. by rewrite lookup_insert_ne.
Qed.

(** Startup: every device that had a terminal open when the relay stopped gets
    the grace period of a disconnect: a slot in which nobody is reachable, and
    one task that carries the slot's generation. *)
Theorem recovery_covers_open_terminals g tasks g' :
  start_background g = (Ok tasks, true, g') →
  (∀ t, t ∈ list_open_terminals (g_db g) → ∃ generation, (t_device_id t, generation) ∈ tasks)
  ∧ NoDup tasks.*1
  ∧ (∀ d generation, (d, generation) ∈ tasks →
      ∃ slot, g_publishers g' !! d = Some slot ∧ ps_generation slot = generation
        ∧ ps_input_tx slot = None ∧ ps_open_requests slot = false)
  ∧ (∀ d, d ∉ tasks.*1 → g_publishers g' !! d = g_publishers g !! d)
  ∧ g_db g' = g_db g ∧ g_terminals g' = g_terminals g.
Proof.
  unfold start_background, recover_open_terminals, db_read, db_call.
  destruct (mjoin (head (g_faults g))); [done|]. cbn [fst snd].
  destruct (recover_devices _ _) as [tasks' g1] eqn:Hr. intros [= -> ->].
  apply recover_devices_spec in Hr as (Hdevices & Htasks & Hothers & Hdb & Hterms); [|apply NoDup_elements].
  rewrite Hdevices. split_and!; try done; [|apply NoDup_elements].
  intros t Ht. assert (t_device_id t ∈ tasks.*1) as Hin.
  { rewrite Hdevices. apply elem_of_elements, elem_of_list_to_set, list_elem_of_fmap. by exists t. }
  apply list_elem_of_fmap in Hin as ([d generation] & -> & Hin). by exists generation.
Qed.
