(* ===== verification/Dial.v ===== *)
(** * Dialling the relay ([connect_and_publish], [list_open] of [publisher/src/session.rs])

    From nothing to a connection that [Multiplexer] can run: the device's token,
    the WebSocket handshake, and the terminals that an earlier run left open. The
    network is that of [ApiClient]; the handshake is a further call on it. The
    theorems are at the end. *)

From S2P Require Export Multiplexer ApiClient Accounts Responses.

Open Scope N_scope.
Open Scope hype_scope.

Record SessionConfig := mkSessionConfig {
  sc_relay_url : text;
  sc_device_id : text;
  sc_identity_key : option (list byte);
  sc_allow_remote_open : bool;
}.
(** What the handshake sends beside the address. *)
Record WsHeaders := mkWsHeaders {
  wh_authorization : text;
  wh_subprotocol : text;
}.

Section dial.
Context {W : Type} (exchange : HttpRequest → W → result text (N * text) * W).
Context `{CryptoLib, JsonText, UuidLib} (malformed debug : text → text).
(** [into_client_request]'s error; the answer's subprotocol, with the frames
    that follow; [reqwest]'s error when it cannot be set up. *)
Context (bad_request : text → option text) (header_error : text).
Context (ws_connect : text → WsHeaders → W → result text (option text * list (option WsFrame)) * W).
Context (no_client : option text).

(** [api::Client::new]: the base address. *)
Definition client_new (relay_url : text) : result ClientError text :=
  match no_client with Some e => Err (CeTransport e) | None => Ok (client_base_url relay_url) end.

(** Best effort: every error is an empty list. *)
Definition list_open (config : SessionConfig) (w : W) : list Uuid * W :=
  match sc_identity_key config, client_new (sc_relay_url config) with
  | Some identity, Ok base =>
      match client_identity_token exchange malformed debug base identity w with
      | (Ok token, w) =>
          match client_terminals exchange malformed base (to_access_token token) (Some (sc_device_id config)) w with
          | (Ok terminals, w) => (omap (λ t, uuid_parse (ti_terminal_id t)) terminals, w)
          | (Err _, w) => ([], w)
          end
      | (Err _, w) => ([], w)
      end
  | _, _ => ([], w)
  end.

Definition dial (config : SessionConfig) (device_key : list byte) (w : W) : result SessionError Dialled * W :=
  match client_new (sc_relay_url config) with
  | Err e => (Err (Api (client_error_text e)), w)
  | Ok base =>
      match client_device_token exchange malformed debug base device_key w with
      | (Err e, w) => (Err (Api (client_error_text e)), w)
      | (Ok token, w) =>
          let url := websocket_url (sc_relay_url config) (sc_device_id config) in
          match bad_request url, header_value (lit "Bearer " ++ to_access_token token) with
          | Some e, _ => (Err (Connect e), w)
          | None, None => (Err (Connect header_error), w)
          | None, Some authorization =>
              match ws_connect url (mkWsHeaders authorization (SUBPROTOCOL_V2)) w with
              | (Err e, w) => (Err (Connect e), w)
              | (Ok (subprotocol, frames), w) =>
                  let negotiated := default [] subprotocol in
                  if bool_decide (negotiated = SUBPROTOCOL_V2) then
                    let '(previously_open, w) := list_open config w in
                    (Ok (mkDialled negotiated previously_open frames), w)
                  else (Ok (mkDialled negotiated [] frames), w)
              end
          end
      end
  end.
End dial.

(** ** What dialling asks of the relay *)

Section theorems.
Context {W : Type} (exchange : HttpRequest → W → result text (N * text) * W).
Context `{CryptoLib, JsonText, UuidLib} (malformed debug : text → text).
Context (bad_request : text → option text) (header_error : text).
Context (ws_connect : text → WsHeaders → W → result text (option text * list (option WsFrame)) * W).
Context (no_client : option text).
Abbreviation dials := (dial exchange malformed debug bad_request header_error ws_connect no_client).
Abbreviation lists := (list_open exchange malformed debug no_client).

(** Each key with the one operation it signs for. *)
Definition dial_signers (config : SessionConfig) (device_key : list byte) : list (string * list byte) :=
  ("authenticate_device"%string, device_key)
  :: match sc_identity_key config with Some identity => [("authenticate_identity"%string, identity)] | None => [] end.
Inductive dial_request (base device_id : text) (signers : list (string * list byte)) : HttpRequest → Prop :=
| AsksChallenge operation seed :
    (operation, seed) ∈ signers →
    dial_request base device_id signers
      (mkHttpRequest "POST" (base ++ lit "/v1/auth/challenges") (Some (challenge_body operation (public_key_base64 seed) None)) None)
| AsksToken operation seed challenge signature :
    (operation, seed) ∈ signers → sign_challenge debug (cg_signing_input challenge) seed (lit operation) None = Ok signature →
    dial_request base device_id signers
      (mkHttpRequest "POST" (base ++ lit "/v1/auth/tokens") (Some (signed_body challenge signature)) None)
| AsksTerminals token :
    dial_request base device_id signers
      (mkHttpRequest "GET" (base ++ lit "/v1/terminals?state=open&limit=100" ++ lit "&device_id=" ++ device_id) None (Some token)).

Definition keeps_network {A} (I : W → Prop) (m : W → A * W) : Prop := ∀ w, I w → I (m w).2.
Lemma client_new_base relay_url base : client_new no_client relay_url = Ok base → base = client_base_url relay_url.
Proof. unfold client_new. destruct no_client; [done|]. by intros [= <-]. Qed.
Lemma keeps_post I {A} (from_json : json → option A) base path body bearer :
  keeps_network I (exchange (mkHttpRequest "POST" (base ++ path) (Some body) bearer)) →
  keeps_network I (client_post exchange malformed from_json base path body bearer).
Proof.
  intros Hq w Hw. unfold client_post, mbind, ClientM_bind, send_request. specialize (Hq w Hw).
  destruct (exchange _ w) as [[[status answer]|e] w']; [|exact Hq]. exact Hq.
Qed.
Lemma keeps_answer_challenge I base device_id signers operation seed :
  (∀ q, dial_request base device_id signers q → keeps_network I (exchange q)) → (operation, seed) ∈ signers →
  keeps_network I (answer_challenge exchange malformed debug token_from_json base operation (lit "/v1/auth/tokens") seed).
Proof.
  intros Hq Hin w Hw. unfold answer_challenge, mbind, ClientM_bind.
  pose proof (keeps_post I challenge_from_json base (lit "/v1/auth/challenges") _ None (Hq _ (AsksChallenge _ _ _ _ _ Hin)) w Hw) as Hasked.
  fold (client_challenge exchange malformed base operation (public_key_base64 seed) None) in *.
  destruct (client_challenge _ _ _ _ _ _ w) as [[challenge|e] w1]; [|exact Hasked]. unfold client_lift.
  destruct (sign_challenge _ _ _ _ _) as [signature|e] eqn:Hs; [|exact Hasked].
  exact (keeps_post I token_from_json base (lit "/v1/auth/tokens") _ None (Hq _ (AsksToken _ _ _ _ _ _ _ Hin Hs)) w1 Hasked).
Qed.
Lemma keeps_list_open I config base device_key :
  client_new no_client (sc_relay_url config) = Ok base →
  (∀ q, dial_request base (sc_device_id config) (dial_signers config device_key) q → keeps_network I (exchange q)) →
  keeps_network I (lists config).
Proof.
  intros Hbase Hq w Hw. unfold list_open. rewrite Hbase. destruct (sc_identity_key config) as [identity|] eqn:Hid; [|done].
  pose proof (keeps_answer_challenge I base (sc_device_id config) (dial_signers config device_key) "authenticate_identity" identity Hq) as Hask.
  unfold dial_signers in Hask. rewrite Hid in Hask. specialize (Hask ltac:(right; left) w Hw). unfold client_identity_token.
  destruct (answer_challenge _ _ _ _ _ _ _ _ w) as [[token|e] w1]; [|exact Hask].
  unfold client_terminals, mbind, ClientM_bind, send_request.
  specialize (Hq _ (AsksTerminals _ _ _ (to_access_token token)) w1 Hask).
  destruct (exchange _ w1) as [[[status answer]|e] w2]; cbn [snd] in Hq; [|exact Hq].
  unfold client_lift. destruct (if is_success status then _ else _) as [terminals|e]; exact Hq.
Qed.

(** Dialling asks the relay for tokens and for the list of this device's open
    terminals, and for nothing else: each key signs for one operation, and the
    connection itself carries the device's token and asks for version 2. *)
Theorem dial_only_authenticates I config device_key w :
  (∀ q, dial_request (client_base_url (sc_relay_url config)) (sc_device_id config) (dial_signers config device_key) q →
        keeps_network I (exchange q)) →
  (∀ token, keeps_network I (ws_connect (websocket_url (sc_relay_url config) (sc_device_id config))
                               (mkWsHeaders (lit "Bearer " ++ token) SUBPROTOCOL_V2))) →
  I w → I (dials config device_key w).2.
Proof.
  intros Hq Hws Hw. unfold dial. destruct (client_new no_client (sc_relay_url config)) as [base|e] eqn:Hbase; [|exact Hw].
  pose proof (client_new_base _ _ Hbase) as ->.
  pose proof (keeps_answer_challenge I _ _ _ "authenticate_device" device_key Hq ltac:(left) w Hw) as Hasked.
  unfold client_device_token. destruct (answer_challenge _ _ _ _ _ _ _ _ w) as [[token|e] w1]; [|exact Hasked].
  destruct (bad_request _); [exact Hasked|].
  destruct (header_value (lit "Bearer " ++ to_access_token token)) as [authorization|] eqn:Hheader; [|exact Hasked].
  assert (authorization = lit "Bearer " ++ to_access_token token) as ->
    by (unfold header_value in Hheader; destruct (forallb _ _); congruence).
  specialize (Hws (to_access_token token) w1 Hasked). destruct (ws_connect _ _ w1) as [[[subprotocol frames]|e] w2]; [|exact Hws].
  destruct (bool_decide _); [|exact Hws].
  pose proof (keeps_list_open I config _ device_key Hbase Hq w2 Hws) as Hlist. by destruct (lists config w2).
Qed.

(** Looking for what was left open never stands in the way: with an identity key
    and without one, dialling ends alike, but for the list it found. *)
Theorem listing_is_best_effort config device_key w :
  let without := mkSessionConfig (sc_relay_url config) (sc_device_id config) None (sc_allow_remote_open config) in
  match (dials config device_key w).1, (dials without device_key w).1 with
  | Ok d, Ok d' => di_negotiated d = di_negotiated d' ∧ di_frames d = di_frames d' ∧ di_previously_open d' = []
  | Err e, Err e' => e = e'
  | _, _ => False
  end.
Proof.
  cbn zeta. unfold dial. cbn [sc_relay_url sc_device_id sc_identity_key]. destruct (client_new no_client (sc_relay_url config)); [|done].
  destruct (client_device_token _ _ _ _ _ w) as [[token|e] w1]; [|done].
  destruct (bad_request _); [done|]. destruct (header_value _); [|done].
  destruct (ws_connect _ _ w1) as [[[subprotocol frames]|e] w2]; [|done].
  destruct (bool_decide _); [|done]. by destruct (lists config w2).
Qed.
End theorems.
